(* ===== verification/_CoqProject ===== *)
-Q . S2P
Prelude.v
Types.v
Network.v
Storage.v
Raft.v
RaftLocal.v
RaftEvents.v
RaftDurable.v
RaftNet.v
RaftNetLemmas.v
RaftElection.v
RaftLogs.v
RaftExec.v
RaftSafety.v
RaftRecovery.v
RaftCommit.v
RaftTotal.v
RaftCatchup.v
RaftHandlers.v
RaftReplies.v
RaftFifo.v
RaftChange.v
RaftComplete.v
RaftHistory.v
RaftHistoryEvent.v
RaftAgreement.v
RaftFifoRuns.v
RaftWellFormed.v
RaftStorageFree.v
RaftHarness.v
RaftHarnessProps.v
Testing.v
RaftTests.v
Paxos.v
PaxosLocal.v
PaxosDecisions.v
PaxosAcceptor.v
PaxosProposer.v
PaxosValues.v
PaxosNet.v
PaxosSlot.v
PaxosBallots.v
PaxosVotes.v
PaxosAgreement.v
PaxosRuns.v
PaxosCarefulRuns.v
PaxosTests.v
Protocol.v
Node.v
NodeProps.v
NodeCluster.v
NodeFifo.v
NodeRuns.v
NodeTests.v
Transport.v
TransportProps.v
TransportTests.v
Backend.v
RedbStorage.v
RedbProps.v
DuckdbStorage.v
DuckdbProps.v
Backends.v
RedbTests.v
DuckdbTests.v
Wire.v
Service.v
ServiceProps.v
InProcess.v
Client.v
ClientProps.v
DemoCluster.v
Demo.v
DemoProps.v
Cli.v
UnitTests.v
