(* ===== verification/Prelude.v ===== *)
(** * daccord: a verification development

    daccord is a Rust library for replicated decisions: a cluster of nodes
    agrees on a value for each of a sequence of slots, by Raft or by (Multi-)
    Paxos. This development models its core crate, [src/daccord], the client
    library [src/daccord-client] and the service of [src/daccord-demo], and
    proves what the code guarantees and, where it guarantees less than it
    says, by which run.

    ** The program and its model

    - A _protocol_ is a state machine without I/O. A proposal, a message or a
      tick changes it and yields outgoing messages; writes are recorded as an
      intent, decisions are queued. [Raft.v] models [RaftProtocol] of
      [protocol/raft.rs], [Paxos.v] (Module [Paxos]) models [PaxosProtocol] of
      [protocol/paxos.rs] with the cargo feature [multi-paxos] as a boolean.
      There is one definition per method, under its Rust name; the parts of
      [handle_append_entries] and of other long methods are definitions of
      their own.
    - _Storage_ is a trait per protocol: [Storage.v] has both as type classes
      ([RaftStorage], [PaxosStorage]), the laws a node relies on
      ([RaftStorageSpec], [PaxosStorageSpec]), the in-memory backends of
      [storage.rs] and the adapters of [proposal.rs] as lawful instances. All
      theorems on nodes hold for every lawful backend.
    - The _node_ ([node.rs]) runs a protocol in an event loop: handle one
      input, persist, send, store and deliver decisions, answer callers.
      [Protocol.v] models the dispatch of [protocol/mod.rs]; [Node.v] the
      handlers, the pending map, the channels and the loop.
    - The _durable backends_: [RedbStorage.v] models [redb_storage.rs] over an
      interface to the redb library, [DuckdbStorage.v] models
      [duckdb_storage.rs] with the meaning of every SQL statement it contains,
      over an interface to the engine; [Backend.v] has what they share: the
      content of their tables, when it is well formed and which durable state
      it stands for.
    - The _transports_ ([transport/]): [Transport.v] models frames, the sender
      that connects again after a failure, the reader task of a connection,
      the queue all connections feed, the rebind loops and the in-memory
      channel.
    - The _service_ and the _client_: [Service.v] models the decision log, the
      watch stream, paging and status of [daccord-demo/src/service.rs],
      [Client.v] the client of [daccord-client/src], [Demo.v] the
      configuration of [daccord-demo/src/node.rs], [Cli.v] the command line
      client of [daccord-demo/src/cli.rs] after its arguments are parsed.
    - The _tests_: [RaftHarness.v] models the property test of
      [protocol/raft_proptest.rs], its bus, its steps and its assertions.
      [Testing.v] has a monad for unit tests; [RaftTests.v], [PaxosTests.v],
      [NodeTests.v], [TransportTests.v], [RedbTests.v], [DuckdbTests.v] and
      [UnitTests.v] translate those of [protocol/raft.rs],
      [protocol/paxos.rs], [node.rs], [transport/], the backends, [storage.rs],
      [config.rs], [error.rs] and [service.rs]. They run on the model, which
      checks the model itself against what the code's authors expect.
      [InProcess.v] models the in-process node of
      [daccord-demo/src/test_support.rs].
    - [Types.v] has identities, configurations, errors and messages
      ([config.rs], [error.rs], [message/], [protocol/mod.rs]); [Wire.v] how
      messages and identities become bytes ([message/mod.rs] with its tests,
      the serde code of [config.rs]); [Network.v] packets; this file integers,
      vectors and automation.

    ** Conventions

    - [None] in the result of a method is a panic (an index out of range, an
      [unwrap], an overflow under overflow checks); errors are values of
      [Result]. Where it matters that there is no panic, that is a theorem.
    - [u64], [u32] and [usize] are [N] or [nat]; unchecked additions that an
      input can drive to the limit are [u64_add]. Lengths of vectors are
      below the width of an address.
    - The clock and the random generator are arguments ([Env], [PEnv],
      [NEnv]): a method is a function of what it reads. Within one call the
      clock stands still.
    - A [HashMap] or [HashSet] is a [gmap] or [gset]. Where the code iterates
      over one, the model does so in the order of [map_to_list].
    - [serde_json] is a pair of functions [encode] and [decode]; the theorems
      that compose nodes over bytes assume that [decode] inverts [encode],
      which [Wire.v] derives from the law of a serialiser.
    - Recursion is structural: loops over a range are recursions on its
      length ([collect_decisions]), the event loop is one on its inputs. Two
      definitions take fuel: [catch_up] in [RaftCatchup.v], the exchange
      between a leader and a follower, whose theorem shows that one round
      more than the index the exchange starts from is enough; and [release]
      in [Service.v], a loop that removes an element of a map per round and is
      given the size of the map.
    - A library the code calls is a type class of its calls ([Redb], [Duckdb],
      [Json]) with a class of the laws its documentation states; the files
      with the claims hold an instance of each.

    ** The theorems

    - _Raft over a cluster_ ([RaftNet.v]): any number of nodes; messages may
      be lost, duplicated, delayed and reordered; a node may crash between any
      two storage calls and restart. [RaftSafety.v]: one leader per term, log
      matching, terms and votes never go back, by invariants on every
      reachable state ([RaftElection.v], [RaftLogs.v]), which rest on a
      specification of every event ([RaftLocal.v], [RaftEvents.v]), of the
      flush ([RaftDurable.v]) and of the steps ([RaftNetLemmas.v]). The same
      file shows the limit, with its cause: in a run without crashes a
      heartbeat handled after a later AppendEntries erases a committed entry.
      A restarted node keeps its [NodeId] there; [RaftHandlers.v] shows what
      happens when it does not.
    - _Agreement of Raft over ordered links_ ([RaftFifo.v]): links lose
      messages but neither reorder nor duplicate them. [RaftReplies.v] has
      what acknowledgements, commit indexes and match indexes stand for,
      [RaftChange.v] the steps as changes of one node, [RaftComplete.v] the
      argument for leader completeness on the history of a cluster alone,
      [RaftHistory.v] and [RaftHistoryEvent.v] the invariant that ties the
      history to the state and every event's part in it. [RaftAgreement.v]
      concludes with leader completeness and state machine safety, through
      crashes and torn flushes. [RaftFifoRuns.v] evaluates a run that
      satisfies the hypotheses. [RaftWellFormed.v] types the state: terms never
      decrease along a log, and commit index, match indexes and decided slots
      are indexes of the log.
    - _The property test_ ([RaftHarnessProps.v]): handlers do not look at
      storage ([RaftStorageFree.v]), so a step of the harness is a step of the
      cluster; the assertions on elections, logs and terms hold after every
      list of steps, and a list of 19 steps falsifies the one on committed
      slots, since the bus reorders.
    - _Unit tests_, a check of the definitions against the repository's own
      expectations: every translated test passes, the Raft ones for each of
      the 151 values of the election jitter, those of Paxos and of the node
      with and without [multi-paxos], those of messages and backends for any
      serialiser that reads back what it writes and refuses what is no JSON.
      Of the backends the general fact is proved beside the tests: a row that
      cannot be decoded is never passed over.
    - _Durability_ ([RaftRecovery.v]): a flushed event is durable, a restart
      gives it back, a crash inside the flush leaves a consistent state.
    - _Commitment_ ([RaftCommit.v]): the commit rule is sound and complete for
      the median of the match indexes; from a restart on, every slot after the
      stored ones is handed out once and in order.
    - _Catching up_ ([RaftCatchup.v]): the exchange of conflict hints between
      a leader and a follower ends with equal logs (with the follower's log
      untouched if the leader's is empty).
    - _No panics_ ([RaftTotal.v]) and the single handlers
      ([RaftHandlers.v]).
    - _Paxos_: what a node keeps of its decisions ([PaxosDecisions.v]), its
      promises ([PaxosAcceptor.v]), its rounds ([PaxosProposer.v]), validity
      over a cluster ([PaxosValues.v], [PaxosNet.v]), and five runs without
      crashes in which agreement fails or a node panics ([PaxosRuns.v]), two of
      them stated with the step at which the code departs from Paxos.
    - _Agreement of plain Paxos_: what the code adds to the rules of Paxos is
      what those runs exploit, so agreement is proved of the runs without it.
      [PaxosSlot.v] shows that every event is, on each slot, one of a few acts;
      [PaxosBallots.v] is the safety argument on what was sent alone;
      [PaxosVotes.v] has what the acts do to it; [PaxosAgreement.v] states the
      conditions (a node starts a round above what it has promised and over no
      value it has accepted from another, votes for what it proposes, uses a
      number for one value, and starts once) and proves that then no two
      decisions for a slot differ, over a network that loses, duplicates and
      reorders. [PaxosCarefulRuns.v] evaluates a run that satisfies the
      conditions and checks that the disagreeing runs do not.
    - _Nodes_: every caller is answered exactly once and only by a stored
      decision ([NodeProps.v]); clusters of event loops that exchange bytes,
      whose decision channels are read by other tasks, and that are killed
      between two iterations or inside one ([cut_step]: after any storage call,
      send or delivery), refine the cluster of protocols, so its theorems
      hold of what nodes publish ([NodeCluster.v]); over ordered links they
      refine [RaftFifo.v], and any two users are told the same of a slot
      ([NodeFifo.v]).
      [RaftExec.v] and [NodeRuns.v] are executable schedulers, sound for the
      transition systems; concrete runs are evaluated with them.
    - _Durable backends_ ([RedbProps.v], [DuckdbProps.v], [Backends.v]): each
      method is one atomic change of the abstract durable state and keeps the
      tables well formed; so both backends, restricted to well-formed states,
      satisfy the laws of [Storage.v] ([Guarded_spec]), and the theorems on
      nodes hold over them. They agree with each other and with the in-memory
      storage; opening keeps the state; DuckDB fails rather than forget a
      vote.
    - _Transports_ ([TransportProps.v]): frames round-trip however the bytes
      arrive, one connection keeps order through partial writes and failures;
      a reconnect does not, and an oversized message is lost unnoticed, also
      where its length wraps round in the prefix.
    - _Service and client_ ([ServiceProps.v], [ClientProps.v]): the log keeps
      the first decision of a slot; a watch yields consecutive slots and
      agrees with paging; the client's reconnecting stream is proved against
      the promise of one stream ([WatchServer]), which the service keeps, so
      nothing is missed or repeated end to end; backoff is bounded; a status
      round-trips.
    - _The demo as a whole_ ([DemoCluster.v]): the event loops of a Raft
      cluster over ordered links, per process a collector task that receives
      from the decision channel and fills the service log, and clients that
      reconnect to any node: all clients read one log, and a successful
      proposal is what every client reads for its slot.
      [InProcess.v]: a Paxos node of one, whatever the ticks of its loop,
      answers every proposal at once with the next slot, and its log fills in
      order.
    - _Demo_ ([DemoProps.v]): peers round-trip; what a build without DuckDB
      does with a data directory. [Cli.v]: the exit status and what is printed
      of a page of decisions.

    ** What is not modelled

    Sockets, databases, argument parsing (clap), the JSON text and gRPC
    themselves: they are other libraries, and what they answer is an argument
    or a law. Logging and signals. The reader task of [transport/uds.rs] is the
    same text as that of [transport/tcp.rs] and is modelled once. Of the unit
    tests: [forward_serde_roundtrip_with_hops], on the text of a JSON form, and
    two that only have to compile. The integration tests ([daccord-tests], the
    [tests] directories of the client and of the demo) run clusters in real
    time over sockets and containers.

    Not proved, since it does not hold: agreement of Raft without ordered
    delivery and of Paxos without the conditions above, each with a run that
    shows it. Agreement of Multi-Paxos is not proved under further conditions:
    its leader recovery leaves out decided slots ([PaxosRuns.v]), so nothing
    short of not electing a second leader would be enough. That a
    cluster makes progress is proved where no clock decides it: catching up,
    the answers of a node of one, never getting stuck. *)

From Stdlib Require Export NArith Lia String Ascii.
From stdpp Require Export base tactics list gmap strings pretty fin_maps fin_sets sorting relations.

#[export] Set Default Goal Selector "!".

(** ** Machine integers

    Rust's [u64], [u32], [u8] and [usize] values are natural numbers [N];
    an addition that the code leaves unchecked is [checked_add], which gives
    [None] where the operation overflows. [None] is the outcome of a panic
    throughout the development ([Option::unwrap] on [None], an index out of
    range, an arithmetic overflow under overflow checks). *)

Definition u64_max : N := 18446744073709551615.
Definition u32_max : N := 4294967295.
Definition u8_max : N := 255.

Definition checked_add (bound x y : N) : option N :=
  if bool_decide (x + y ≤ bound)%N then Some (x + y)%N else None.

Definition u64_add : N → N → option N := checked_add u64_max.
Definition u32_add : N → N → option N := checked_add u32_max.

(** [saturating_add] and [saturating_sub] of the standard library. *)
Definition saturating_add (bound x y : N) : N := N.min bound (x + y).
Definition saturating_mul (bound x y : N) : N := N.min bound (x * y).

(** A list used as a Rust [Vec] indexed by a [u64]. *)
Definition vlen {A} (l : list A) : N := N.of_nat (length l).
Definition vget {A} (l : list A) (i : N) : option A := l !! N.to_nat i.
(** [Vec::truncate]: no effect when the vector is already shorter. *)
Definition vtruncate {A} (l : list A) (n : N) : list A := take (N.to_nat n) l.
(** The slice [&l[i..]], which panics when [i] is past the end. *)
Definition vslice_from {A} (l : list A) (i : N) : option (list A) :=
  if bool_decide (i ≤ vlen l)%N then Some (drop (N.to_nat i) l) else None.
(** [checked_sub(1)] of a length: the index of the last element. *)
Definition vlast_index {A} (l : list A) : option N :=
  match l with [] => None | _ => Some (vlen l - 1)%N end.

(** [Option::is_none_or] and [Option::is_some_and]. *)
Definition is_none_or {A} (o : option A) (f : A → bool) : bool :=
  match o with None => true | Some x => f x end.
Definition is_some_and {A} (o : option A) (f : A → bool) : bool :=
  match o with None => false | Some x => f x end.
Definition is_some {A} (o : option A) : bool :=
  match o with None => false | Some _ => true end.

(** ** Automation *)

Create HintDb daccord.

(** Case analysis on every [match] and [if] in the goal or a hypothesis. *)
Ltac break_match :=
  match goal with
  | H : context [match ?x with _ => _ end] |- _ =>
      lazymatch x with
      | context [match _ with _ => _ end] => fail
      | _ => destruct x eqn:?
      end
  | |- context [match ?x with _ => _ end] =>
      lazymatch x with
      | context [match _ with _ => _ end] => fail
      | _ => destruct x eqn:?
      end
  end.

(** Turns boolean tests into propositions. *)
Ltac breflect :=
  repeat match goal with
  | H : bool_decide _ = true |- _ => apply bool_decide_eq_true in H
  | H : bool_decide _ = false |- _ => apply bool_decide_eq_false in H
  | H : (_ && _) = true |- _ => apply andb_true_iff in H; destruct H
  | H : (_ || _) = false |- _ => apply orb_false_iff in H; destruct H
  | H : negb _ = true |- _ => apply negb_true_iff in H
  | H : negb _ = false |- _ => apply negb_false_iff in H
  | H : (_ <? _)%N = true |- _ => apply N.ltb_lt in H
  | H : (_ <? _)%N = false |- _ => apply N.ltb_ge in H
  | H : (_ <=? _)%N = true |- _ => apply N.leb_le in H
  | H : (_ <=? _)%N = false |- _ => apply N.leb_gt in H
  | H : (_ =? _)%N = true |- _ => apply N.eqb_eq in H
  | H : (_ =? _)%N = false |- _ => apply N.eqb_neq in H
  end.

(** Splits a successful [mbind] of the panic monad. *)
Ltac inv_bind :=
  repeat match goal with
  | H : mbind _ _ = Some _ |- _ =>
      apply bind_Some in H; destruct H as (? & ? & H)
  | H : (_ ≫= _) = Some _ |- _ =>
      apply bind_Some in H; destruct H as (? & ? & H)
  end.

(** ** Generic lemmas *)

Lemma checked_add_Some b x y z :
  checked_add b x y = Some z ↔ z = (x + y)%N ∧ (z ≤ b)%N.
Proof. unfold checked_add. case_bool_decide; split; intros; destruct_and?; simplify_eq; lia || done. Qed.

Lemma checked_add_None b x y : checked_add b x y = None ↔ (b < x + y)%N.
Proof. unfold checked_add. case_bool_decide; split; intros; destruct_and?; simplify_eq; lia || done. Qed.

Section lists.
Context {A : Type}.
Implicit Types (l k : list A) (i n : N).

Lemma vget_Some_lt l i x : vget l i = Some x → (i < vlen l)%N.
Proof. unfold vget, vlen. intros ?%lookup_lt_Some. lia. Qed.

Lemma vget_is_Some l i : is_Some (vget l i) ↔ (i < vlen l)%N.
Proof. unfold vget, vlen. rewrite lookup_lt_is_Some. lia. Qed.

Lemma vget_None l i : vget l i = None ↔ (vlen l ≤ i)%N.
Proof. unfold vget, vlen. rewrite lookup_ge_None. lia. Qed.

Lemma vlen_app l k : vlen (l ++ k) = (vlen l + vlen k)%N.
Proof. unfold vlen. rewrite length_app. lia. Qed.

Lemma vlen_truncate l n : vlen (vtruncate l n) = N.min n (vlen l).
Proof. unfold vlen, vtruncate. rewrite length_take. lia. Qed.

Lemma vlast_index_Some l i : vlast_index l = Some i ↔ vlen l = (i + 1)%N.
Proof.
  unfold vlast_index, vlen. destruct l; simpl; split; intros; simplify_eq; try lia.
  f_equal. lia.
Qed.

Lemma vlast_index_None l : vlast_index l = None ↔ l = [].
Proof. unfold vlast_index. destruct l; naive_solver. Qed.

Lemma vslice_from_Some l i k :
  vslice_from l i = Some k ↔ (i ≤ vlen l)%N ∧ k = drop (N.to_nat i) l.
Proof. unfold vslice_from. case_bool_decide; naive_solver. Qed.

Lemma vget_truncate l n i :
  (i < n)%N → vget (vtruncate l n) i = vget l i.
Proof. intros. unfold vget, vtruncate. rewrite lookup_take_lt; [done|lia]. Qed.

Lemma vget_app_l l k i : (i < vlen l)%N → vget (l ++ k) i = vget l i.
Proof. unfold vget, vlen. intros. rewrite lookup_app_l; [done|lia]. Qed.

Lemma vget_snoc l x : vget (l ++ [x]) (vlen l) = Some x.
Proof. unfold vget, vlen. rewrite Nat2N.id. by rewrite list_lookup_middle. Qed.

(** Two lists that agree on a prefix agree on every shorter prefix. *)
Lemma take_eq_mono l k (m n : nat) :
  m ≤ n → take n l = take n k → take m l = take m k.
Proof.
  intros Hmn Heq. replace m with (m `min` n) by lia. by rewrite <- !take_take, Heq.
Qed.

Lemma take_eq_lookup l k (n i : nat) :
  take n l = take n k → i < n → l !! i = k !! i.
Proof.
  intros Heq Hi. rewrite <- (lookup_take_lt l n i), <- (lookup_take_lt k n i) by done.
  by rewrite Heq.
Qed.
End lists.

(** ** Majorities

    Two subsets of a finite set that each hold more than half of it share an
    element: the fact behind every quorum argument of the two protocols. *)
Definition quorum_size (total : nat) : nat := total / 2 + 1.

Lemma quorum_size_pos n : 0 < quorum_size n.
Proof. unfold quorum_size. lia. Qed.

Lemma quorum_intersect `{Countable A} (X Q1 Q2 : gset A) :
  Q1 ⊆ X → Q2 ⊆ X →
  quorum_size (size X) ≤ size Q1 → quorum_size (size X) ≤ size Q2 →
  ∃ a, a ∈ Q1 ∧ a ∈ Q2.
Proof.
  unfold quorum_size. intros H1 H2 Hs1 Hs2.
  destruct (decide (Q1 ∩ Q2 = ∅)) as [He|Hne].
  - exfalso.
    assert (size (Q1 ∪ Q2) = size Q1 + size Q2) as Hu by (apply size_union; set_solver).
    assert (size (Q1 ∪ Q2) ≤ size X) by (apply subseteq_size; set_solver).
    pose proof (Nat.div_mod_eq (size X) 2).
    pose proof (Nat.mod_upper_bound (size X) 2). lia.
  - destruct (set_choose_L _ Hne) as [a Ha]. exists a. set_solver.
Qed.
