(* ===== verification/Types.v ===== *)
(** * Shared data of the daccord crate

    The identities, configuration, errors and wire messages of
    [daccord/src/config.rs], [error.rs], [message/] and the message envelopes
    of [protocol/mod.rs], with the orders the protocols compare them by. *)

From S2P Require Import Prelude.

(** ** Time

    An [Instant] and a [Duration] are nanosecond counts. *)
Abbreviation Instant := N (only parsing).
Abbreviation Duration := N (only parsing).
Definition from_millis (ms : N) : Duration := (ms * 1000000)%N.
Definition from_secs (s : N) : Duration := (s * 1000000000)%N.
(** [Duration::as_millis() as u64]. *)
Definition as_millis (d : Duration) : N := ((d / 1000000) mod 2 ^ 64)%N.
(** [Instant::duration_since], which is zero for a later argument. *)
Definition duration_since (a b : Instant) : Duration := (a - b)%N.

(** ** Node identities (config.rs) *)
Record NodeId := mkNodeId { name : string; incarnation : N }.

#[export] Instance NodeId_eq_dec : EqDecision NodeId.
Proof. solve_decision. Defined.

#[export] Instance NodeId_countable : Countable NodeId.
Proof.
  refine (inj_countable' (λ n, (name n, incarnation n))
    (λ p, mkNodeId p.1 p.2) _).
  by intros [].
Defined.

#[export] Instance NodeId_inhabited : Inhabited NodeId := populate (mkNodeId "" 0).

(** The derived [Ord]: by name, byte by byte, then by incarnation. *)
Definition NodeId_compare (a b : NodeId) : comparison :=
  match String.compare (name a) (name b) with
  | Eq => N.compare (incarnation a) (incarnation b)
  | c => c
  end.

(** ** Decimal rendering and [Display for NodeId] *)
Definition NodeId_display (n : NodeId) : string :=
  (name n ++ "/" ++ pretty.pretty (incarnation n))%string.

(** ** Configuration (config.rs) *)
Record PaxosConfig := mkPaxosConfig { paxos_heartbeat_interval : Duration }.
Definition PaxosConfig_default : PaxosConfig :=
  {| paxos_heartbeat_interval := from_millis 100 |}.

Record RaftConfig := mkRaftConfig {
  heartbeat_interval : Duration;
  election_timeout_min : Duration;
  election_timeout_max : Duration;
}.
Definition RaftConfig_default : RaftConfig :=
  {| heartbeat_interval := from_millis 50;
     election_timeout_min := from_millis 150;
     election_timeout_max := from_millis 300 |}.

(** Rust's [Result]. *)
Inductive Result (A E : Type) := Ok (a : A) | Err (e : E).
Arguments Ok {A E} a.
Arguments Err {A E} e.

Definition RaftConfig_validate (c : RaftConfig) : Result unit string :=
  if (election_timeout_max c <? election_timeout_min c)%N
  then Err "election_timeout_min must be <= election_timeout_max"%string
  else Ok tt.

(** ** Errors (error.rs) *)
Inductive ProposeError := NotRunning | ChannelFull | Cancelled | Superseded.
Inductive StorageError := Persist (msg : string) | Load (msg : string).
Inductive NodeError := NoQuorum | NodeStorage (e : StorageError).
Inductive TransportError := Closed | TransportOther.

(** The [Display] of the errors. *)
Definition ProposeError_display (e : ProposeError) : string :=
  match e with
  | NotRunning => "node is not running"
  | ChannelFull => "proposal channel is full"
  | Cancelled => "node was shut down before the proposal was decided"
  | Superseded => "proposal was superseded by another leader"
  end.
Definition StorageError_display (e : StorageError) : string :=
  match e with
  | Persist msg => "failed to persist decision: " +:+ msg
  | Load msg => "failed to load decisions: " +:+ msg
  end.
Definition NodeError_display (e : NodeError) : string :=
  match e with
  | NoQuorum => "all peers disconnected, cannot form quorum"
  | NodeStorage e => "storage error: " +:+ StorageError_display e
  end.
(** [inner] is the text of the boxed error, which the model does not keep. *)
Definition TransportError_display (inner : string) (e : TransportError) : string :=
  match e with
  | Closed => "connection closed"
  | TransportOther => "transport error: " +:+ inner
  end.

(** ** Paxos messages (message/paxos.rs)

    [ProposalNumber] is the pair [(u64, NodeId)] under the derived
    lexicographic order. *)
Abbreviation ProposalNumber := (N * NodeId)%type.

Definition pn_compare (a b : ProposalNumber) : comparison :=
  match N.compare a.1 b.1 with
  | Eq => NodeId_compare a.2 b.2
  | c => c
  end.
Definition pn_ltb (a b : ProposalNumber) : bool :=
  match pn_compare a b with Lt => true | _ => false end.
Definition pn_leb (a b : ProposalNumber) : bool :=
  match pn_compare a b with Gt => false | _ => true end.

Inductive PaxosMessage (V : Type) :=
| Prepare (slot : N) (proposal_number : ProposalNumber)
| Promise (slot : N) (proposal_number : ProposalNumber)
    (accepted : option (ProposalNumber * V))
| Accept (slot : N) (proposal_number : ProposalNumber) (value : V)
| Accepted (slot : N) (proposal_number : ProposalNumber) (value : V)
| Decide (slot : N) (value : V)
| NackPrepare (slot : N) (proposal_number highest_promised : ProposalNumber)
| NackAccept (slot : N) (proposal_number highest_promised : ProposalNumber)
| PForward (value : V)
| Heartbeat (term : N)
| PrepareLeader (proposal_number : ProposalNumber) (since_slot : N)
| PromiseLeader (proposal_number : ProposalNumber)
    (accepted : list (N * ProposalNumber * V))
| NackLeader (proposal_number highest_promised : ProposalNumber).
Arguments Prepare {V}. Arguments Promise {V}. Arguments Accept {V}.
Arguments Accepted {V}. Arguments Decide {V}. Arguments NackPrepare {V}.
Arguments NackAccept {V}. Arguments PForward {V}. Arguments Heartbeat {V}.
Arguments PrepareLeader {V}. Arguments PromiseLeader {V}.
Arguments NackLeader {V}.

(** ** Raft messages (message/raft.rs) *)
Record LogEntry (V : Type) := mkEntry { term : N; value : V }.
Arguments mkEntry {V}. Arguments term {V}. Arguments value {V}.

#[export] Instance LogEntry_eq_dec `{EqDecision V} : EqDecision (LogEntry V).
Proof. solve_decision. Defined.

Inductive RaftMessage (V : Type) :=
| RequestVote (t : N) (candidate : NodeId)
    (last_log_index : option N) (last_log_term : N)
| RequestVoteResponse (t : N) (vote_granted : bool)
| AppendEntries (t : N) (leader : NodeId) (prev_log_index : option N)
    (prev_log_term : N) (entries : list (LogEntry V)) (leader_commit : option N)
| AppendEntriesResponse (t : N) (success : bool) (match_index : option N)
    (conflict_term conflict_index : option N)
| Forward (v : V) (hops : N).
Arguments RequestVote {V}. Arguments RequestVoteResponse {V}.
Arguments AppendEntries {V}. Arguments AppendEntriesResponse {V}.
Arguments Forward {V}.

Definition MAX_FORWARD_HOPS : N := 3.

(** ** Envelopes (message/mod.rs, protocol/mod.rs) *)
Inductive WireVariant (V : Type) :=
| WPaxos (m : PaxosMessage V)
| WRaft (m : RaftMessage V).
Arguments WPaxos {V}. Arguments WRaft {V}.

Record Message (V : Type) := mkMessage { sender : NodeId; variant : WireVariant V }.
Arguments mkMessage {V}. Arguments sender {V}. Arguments variant {V}.

Inductive SendTarget := Peer (n : NodeId) | Broadcast.

Record Outgoing (M : Type) := mkOut { target : SendTarget; message : M }.
Arguments mkOut {M}. Arguments target {M}. Arguments message {M}.

Record Decision (V : Type) := mkDecision { d_slot : N; d_value : V }.
Arguments mkDecision {V}. Arguments d_slot {V}. Arguments d_value {V}.

(** ** The proposal envelope (proposal.rs) *)
Record Pending (V : Type) := mkPending { nonce : N; pvalue : V }.
Arguments mkPending {V}. Arguments nonce {V}. Arguments pvalue {V}.

#[export] Instance Pending_eq_dec `{EqDecision V} : EqDecision (Pending V).
Proof. solve_decision. Defined.

(** ** Observation and randomness *)

(** [rand::rng().random_range(lo..=hi)]: any value of the range. *)
Definition random_range (lo hi r : N) : N := (lo + r mod (hi - lo + 1))%N.

(** [NodeRole] of node.rs and the snapshot both protocols publish. *)
Inductive NodeRole := NFollower | NCandidate | NLeader.
#[export] Instance NodeRole_eq_dec : EqDecision NodeRole.
Proof. solve_decision. Defined.
Record ProtocolSnapshot := mkSnapshot {
  s_role : option NodeRole;
  s_term : N;
  s_leader : option NodeId;
  s_voted_for : option NodeId;
  s_log_len : N;
  s_commit_index : option N;
  s_last_applied : option N;
}.

(** ** Order lemmas *)

Lemma ascii_compare_trans c1 c2 c3 :
  Ascii.compare c1 c2 = Lt → Ascii.compare c2 c3 = Lt → Ascii.compare c1 c3 = Lt.
Proof. unfold Ascii.compare. rewrite !N.compare_lt_iff. lia. Qed.

Lemma string_compare_trans s1 s2 s3 :
  String.compare s1 s2 = Lt → String.compare s2 s3 = Lt → String.compare s1 s3 = Lt.
Proof.
  revert s2 s3. induction s1 as [|c1 s1 IH]; intros [|c2 s2] [|c3 s3]; simpl; try done.
  destruct (Ascii.compare c1 c2) eqn:E12; try done.
  - apply Ascii.compare_eq_iff in E12 as ->.
    destruct (Ascii.compare c2 c3); try done. eauto.
  - destruct (Ascii.compare c2 c3) eqn:E23; try done.
    + apply Ascii.compare_eq_iff in E23 as ->. by rewrite E12.
    + by rewrite (ascii_compare_trans _ _ _ E12 E23).
Qed.

Lemma string_compare_refl s : String.compare s s = Eq.
Proof.
  pose proof (String.compare_antisym s s) as H. by destruct (String.compare s s).
Qed.

Lemma NodeId_compare_eq a b : NodeId_compare a b = Eq ↔ a = b.
Proof.
  unfold NodeId_compare. destruct a as [na ia], b as [nb ib]; simpl.
  destruct (String.compare na nb) eqn:E.
  - apply String.compare_eq_iff in E as ->. rewrite N.compare_eq_iff. naive_solver.
  - split; [done|]. intros [= -> ->]. by rewrite string_compare_refl in E.
  - split; [done|]. intros [= -> ->]. by rewrite string_compare_refl in E.
Qed.

Lemma NodeId_compare_antisym a b : NodeId_compare b a = CompOpp (NodeId_compare a b).
Proof.
  unfold NodeId_compare. rewrite (String.compare_antisym (name b) (name a)).
  rewrite (N.compare_antisym (incarnation a) (incarnation b)).
  by destruct (String.compare (name a) (name b)).
Qed.

Lemma NodeId_compare_trans a b c :
  NodeId_compare a b = Lt → NodeId_compare b c = Lt → NodeId_compare a c = Lt.
Proof.
  unfold NodeId_compare.
  destruct (String.compare (name a) (name b)) eqn:E1; try done;
  destruct (String.compare (name b) (name c)) eqn:E2; try done.
  - apply String.compare_eq_iff in E1. apply String.compare_eq_iff in E2.
    rewrite E1, E2, string_compare_refl.
    rewrite !N.compare_lt_iff. lia.
  - apply String.compare_eq_iff in E1. by rewrite E1, E2.
  - apply String.compare_eq_iff in E2. by rewrite <- E2, E1.
  - by rewrite (string_compare_trans _ _ _ E1 E2).
Qed.

Lemma pn_compare_eq a b : pn_compare a b = Eq ↔ a = b.
Proof.
  unfold pn_compare. destruct a as [ra na], b as [rb nb]; simpl.
  destruct (N.compare_spec ra rb) as [->|H|H].
  - rewrite NodeId_compare_eq. naive_solver.
  - split; [done|]. intros [= -> ->]. lia.
  - split; [done|]. intros [= -> ->]. lia.
Qed.

Lemma pn_compare_antisym a b : pn_compare b a = CompOpp (pn_compare a b).
Proof.
  unfold pn_compare. rewrite (N.compare_antisym a.1 b.1), (NodeId_compare_antisym a.2 b.2).
  by destruct (N.compare a.1 b.1).
Qed.

Lemma pn_compare_trans a b c :
  pn_compare a b = Lt → pn_compare b c = Lt → pn_compare a c = Lt.
Proof.
  unfold pn_compare.
  destruct (N.compare_spec a.1 b.1) as [E1|H1|H1]; try done;
  destruct (N.compare_spec b.1 c.1) as [E2|H2|H2]; try done; intros Hab Hbc.
  - rewrite E1, E2, N.compare_refl. by eapply NodeId_compare_trans.
  - by rewrite E1, (proj2 (N.compare_lt_iff _ _) H2).
  - by rewrite <- E2, (proj2 (N.compare_lt_iff _ _) H1).
  - assert (a.1 < c.1)%N as H by lia. by rewrite (proj2 (N.compare_lt_iff _ _) H).
Qed.

(** The proposition behind the comparisons: a strict total order. *)
Definition pn_lt (a b : ProposalNumber) : Prop := pn_compare a b = Lt.
Definition pn_le (a b : ProposalNumber) : Prop := a = b ∨ pn_lt a b.

Lemma pn_ltb_lt a b : pn_ltb a b = true ↔ pn_lt a b.
Proof. unfold pn_ltb, pn_lt. destruct (pn_compare a b); naive_solver. Qed.

Lemma pn_leb_le a b : pn_leb a b = true ↔ pn_le a b.
Proof.
  unfold pn_leb, pn_le, pn_lt. rewrite <- pn_compare_eq.
  destruct (pn_compare a b); naive_solver.
Qed.

Lemma pn_lt_irrefl a : ¬ pn_lt a a.
Proof. unfold pn_lt. by rewrite (proj2 (pn_compare_eq a a) eq_refl). Qed.

#[export] Instance pn_lt_trans : Transitive pn_lt.
Proof. intros a b c. apply pn_compare_trans. Qed.

#[export] Instance pn_le_preorder : PreOrder pn_le.
Proof.
  split; [by left|].
  intros a b c [->|H1] [->|H2]; [by left|by right|by right|right].
  by apply (pn_lt_trans _ b).
Qed.

#[export] Instance pn_le_antisym : AntiSymm (=) pn_le.
Proof.
  intros a b [->|H1] [H2|H2]; try done.
  exfalso. apply (pn_lt_irrefl a). by apply (pn_lt_trans _ b).
Qed.

Lemma pn_le_lt_trans a b c : pn_le a b → pn_lt b c → pn_lt a c.
Proof. intros [->|?] ?; [done|by apply (pn_lt_trans _ b)]. Qed.
Lemma pn_lt_le_trans a b c : pn_lt a b → pn_le b c → pn_lt a c.
Proof. intros ? [->|?]; [done|by apply (pn_lt_trans _ b)]. Qed.

Lemma pn_nlt_le a b : ¬ pn_lt a b ↔ pn_le b a.
Proof.
  unfold pn_le, pn_lt. rewrite (pn_compare_antisym a b).
  destruct (pn_compare a b) eqn:E; simpl.
  - apply pn_compare_eq in E. naive_solver.
  - split; [done|]. intros [->|]; [|done].
    by rewrite (proj2 (pn_compare_eq a a) eq_refl) in E.
  - naive_solver.
Qed.

Lemma pn_lt_round (r1 r2 : N) n1 n2 : (r1 < r2)%N → pn_lt (r1, n1) (r2, n2).
Proof. intros H. unfold pn_lt, pn_compare; simpl. by rewrite (proj2 (N.compare_lt_iff _ _) H). Qed.

#[export] Hint Resolve pn_lt_irrefl pn_le_lt_trans pn_lt_le_trans pn_lt_round : daccord.
