(* ===== verification/Network.v ===== *)
(** * The network between nodes

    Packets and how a node's outgoing messages become packets
    ([send_outgoing] of node.rs over a transport that knows every peer): a
    message to a peer is one packet, a broadcast one per peer; a message for a
    node that is not a peer, oneself included, is dropped. *)

From S2P Require Import Prelude Types.

Record Packet (M : Type) := mkPacket { src : NodeId; dst : NodeId; body : M }.
Arguments mkPacket {M}. Arguments src {M}. Arguments dst {M}. Arguments body {M}.

Section network.
Context {M : Type} (cluster : gset NodeId).

Definition packets_of (n : NodeId) (out : list (Outgoing M)) : list (Packet M) :=
  flat_map (λ o,
    match target o with
    | Peer d => if bool_decide (d ∈ cluster ∖ {[ n ]}) then [mkPacket n d (message o)] else []
    | Broadcast => map (λ d, mkPacket n d (message o)) (elements (cluster ∖ {[ n ]}))
    end) out.

Lemma packets_of_inv n out pkt :
  pkt ∈ packets_of n out →
  src pkt = n ∧ dst pkt ∈ cluster ∧ dst pkt ≠ n ∧
  ∃ o, o ∈ out ∧ body pkt = message o ∧ (target o = Peer (dst pkt) ∨ target o = Broadcast).
Proof.
  unfold packets_of. rewrite list_elem_of_In, in_flat_map. intros (o & Ho & Hin).
  apply list_elem_of_In in Ho. destruct (target o) as [d|] eqn:Ht.
  - case_bool_decide as Hd; [|done]. destruct Hin as [<-|[]]. simpl.
    split_and!; [done|set_solver|set_solver|]. eauto.
  - apply in_map_iff in Hin as (d & <- & Hd). apply list_elem_of_In, elem_of_elements in Hd.
    simpl. split_and!; [done|set_solver|set_solver|]. eauto.
Qed.
End network.
