(* ===== verification/Storage.v ===== *)
(** * Storage: the persistence traits, the in-memory backends and the adapters

    Models [daccord/src/storage.rs] and the storage adapters of
    [daccord/src/proposal.rs]. A trait is a class of operations; what a node
    relies on from a backend is the class of its laws, stated against the
    in-memory backend: [RaftMemoryStorage] is at once the model of the
    backend of that name and the abstract durable state every backend
    refines. *)

From S2P Require Import Prelude Types.

(** A storage method that mutates: the state after the call and its
    [Result]. *)
Definition StorageM (St A : Type) : Type := St → St * Result A StorageError.

Definition sret {St A} (a : A) : StorageM St A := λ s, (s, Ok a).
(** The [?] operator after a call. *)
Definition sbind {St A B} (c : StorageM St A) (k : A → StorageM St B) : StorageM St B :=
  λ s, match c s with
       | (s', Ok a) => k a s'
       | (s', Err e) => (s', Err e)
       end.

Module StorageNotations.
Declare Scope storage_scope.
Delimit Scope storage_scope with storage.
Notation "c1 ;;? c2" := (sbind c1 (λ _, c2))
  (at level 100, right associativity) : storage_scope.
End StorageNotations.
Import StorageNotations.

(** ** The traits *)
Class PaxosStorage (St V : Type) := {
  p_save_decision : N → V → StorageM St unit;
  p_load_decisions : St → Result (list (N * V)) StorageError;
}.

Class RaftStorage (St V : Type) := {
  save_decision : N → V → StorageM St unit;
  load_decisions : St → Result (list (N * V)) StorageError;
  save_term : N → StorageM St unit;
  load_term : St → Result N StorageError;
  save_voted_for : option NodeId → StorageM St unit;
  load_voted_for : St → Result (option NodeId) StorageError;
  append_log : list (LogEntry V) → StorageM St unit;
  truncate_log_from : N → StorageM St unit;
  load_log : St → Result (list (LogEntry V)) StorageError;
  save_commit_index : option N → StorageM St unit;
  load_commit_index : St → Result (option N) StorageError;
}.

(** ** The in-memory backends *)
Record PaxosMemoryStorage (V : Type) := mkPaxosMem { p_decisions : gmap N V }.
Arguments mkPaxosMem {V}. Arguments p_decisions {V}.

Definition PaxosMemoryStorage_new {V} : PaxosMemoryStorage V := mkPaxosMem ∅.

#[export] Instance PaxosMemoryStorage_impl V : PaxosStorage (PaxosMemoryStorage V) V := {|
  p_save_decision slot v := λ s, (mkPaxosMem (<[slot := v]> (p_decisions s)), Ok tt);
  p_load_decisions s := Ok (map_to_list (p_decisions s));
|}.

Record RaftMemoryStorage (V : Type) := mkRaftMem {
  m_decisions : gmap N V;
  m_term : N;
  m_voted_for : option NodeId;
  m_log : list (LogEntry V);
  m_commit_index : option N;
}.
Arguments mkRaftMem {V}. Arguments m_decisions {V}. Arguments m_term {V}.
Arguments m_voted_for {V}. Arguments m_log {V}. Arguments m_commit_index {V}.

Definition RaftMemoryStorage_new {V} : RaftMemoryStorage V :=
  {| m_decisions := ∅; m_term := 0; m_voted_for := None; m_log := [];
     m_commit_index := None |}.

(** [truncate_log_from] of the in-memory backend: a no-op past the end. *)
Definition mem_truncate {A} (index : N) (l : list A) : list A :=
  if (index <? vlen l)%N then vtruncate l index else l.

#[export] Instance RaftMemoryStorage_impl V : RaftStorage (RaftMemoryStorage V) V := {|
  save_decision slot v := λ s,
    ({| s with m_decisions := <[slot := v]> (m_decisions s) |}, Ok tt);
  load_decisions s := Ok (map_to_list (m_decisions s));
  save_term t := λ s, ({| s with m_term := t |}, Ok tt);
  load_term s := Ok (m_term s);
  save_voted_for vf := λ s, ({| s with m_voted_for := vf |}, Ok tt);
  load_voted_for s := Ok (m_voted_for s);
  append_log es := λ s, ({| s with m_log := m_log s ++ es |}, Ok tt);
  truncate_log_from i := λ s, ({| s with m_log := mem_truncate i (m_log s) |}, Ok tt);
  load_log s := Ok (m_log s);
  save_commit_index ci := λ s, ({| s with m_commit_index := ci |}, Ok tt);
  load_commit_index s := Ok (m_commit_index s);
|}.

(** ** Writes as data

    A crash may fall between any two storage calls, so the calls a node makes
    are also represented as a list of [Write]s. *)
Inductive Write (V : Type) :=
| WTerm (t : N)
| WVote (vf : option NodeId)
| WTruncate (index : N)
| WAppend (es : list (LogEntry V))
| WCommit (ci : option N)
| WDecision (slot : N) (v : V).
Arguments WTerm {V}. Arguments WVote {V}. Arguments WTruncate {V}.
Arguments WAppend {V}. Arguments WCommit {V}. Arguments WDecision {V}.

Definition do_write {St V} `{RaftStorage St V} (w : Write V) : StorageM St unit :=
  match w with
  | WTerm t => save_term t
  | WVote vf => save_voted_for vf
  | WTruncate i => truncate_log_from i
  | WAppend es => append_log es
  | WCommit ci => save_commit_index ci
  | WDecision slot v => save_decision slot v
  end.

Fixpoint do_writes {St V} `{RaftStorage St V} (ws : list (Write V)) : StorageM St unit :=
  match ws with
  | [] => sret tt
  | w :: ws => (do_write w ;;? do_writes ws)%storage
  end.

Definition map_entry {V W} (f : V → W) (e : LogEntry V) : LogEntry W :=
  {| term := term e; value := f (value e) |}.

(** What a write means for the durable state: a backend that stores values up
    to [norm] (an adapter that forgets part of the value) stores [norm v]. *)
Definition spec_write {V} (norm : V → V) (w : Write V) (d : RaftMemoryStorage V)
    : RaftMemoryStorage V :=
  match w with
  | WTerm t => {| d with m_term := t |}
  | WVote vf => {| d with m_voted_for := vf |}
  | WTruncate i => {| d with m_log := vtruncate (m_log d) i |}
  | WAppend es => {| d with m_log := m_log d ++ map (map_entry norm) es |}
  | WCommit ci => {| d with m_commit_index := ci |}
  | WDecision slot v => {| d with m_decisions := <[slot := norm v]> (m_decisions d) |}
  end.

Definition spec_writes {V} (norm : V → V) (ws : list (Write V))
    (d : RaftMemoryStorage V) : RaftMemoryStorage V :=
  foldl (λ d w, spec_write norm w d) d ws.

(** ** The laws a node relies on

    [view] abstracts a backend to its durable state. A write that reports
    success has taken effect and one that reports an error has not (each
    method is one transaction); a load that succeeds returns the durable
    state. *)
Class RaftStorageSpec (St V : Type) `{RaftStorage St V} := {
  view : St → RaftMemoryStorage V;
  norm : V → V;
  norm_idem v : norm (norm v) = norm v;
  write_ok w s s' : do_write w s = (s', Ok tt) → view s' = spec_write norm w (view s);
  write_err w s s' e : do_write w s = (s', Err e) → view s' = view s;
  load_term_ok s t : load_term s = Ok t → t = m_term (view s);
  load_voted_for_ok s vf : load_voted_for s = Ok vf → vf = m_voted_for (view s);
  load_log_ok s l : load_log s = Ok l → l = m_log (view s);
  load_commit_index_ok s ci : load_commit_index s = Ok ci → ci = m_commit_index (view s);
  load_decisions_ok s l : load_decisions s = Ok l → l ≡ₚ map_to_list (m_decisions (view s));
}.

Class PaxosStorageSpec (St V : Type) `{PaxosStorage St V} := {
  p_view : St → gmap N V;
  p_norm : V → V;
  p_norm_idem v : p_norm (p_norm v) = p_norm v;
  p_save_ok slot v s s' :
    p_save_decision slot v s = (s', Ok tt) → p_view s' = <[slot := p_norm v]> (p_view s);
  p_save_err slot v s s' e : p_save_decision slot v s = (s', Err e) → p_view s' = p_view s;
  p_load_ok s l : p_load_decisions s = Ok l → l ≡ₚ map_to_list (p_view s);
}.

(** ** The adapters of proposal.rs

    [Pending] values lose their nonce on the way to the user's storage and
    come back with nonce 0. *)
Definition strip_log_entries {V} (entries : list (LogEntry (Pending V))) : list (LogEntry V) :=
  map (λ e, {| term := term e; value := pvalue (value e) |}) entries.
Definition wrap_log_entries {V} (entries : list (LogEntry V)) : list (LogEntry (Pending V)) :=
  map (λ e, {| term := term e; value := {| nonce := 0; pvalue := value e |} |}) entries.

Definition wrap_decisions {V} (raw : list (N * V)) : list (N * Pending V) :=
  map (λ '(slot, v), (slot, {| nonce := 0; pvalue := v |})) raw.

Definition result_map {A B E} (f : A → B) (r : Result A E) : Result B E :=
  match r with Ok a => Ok (f a) | Err e => Err e end.

Record PendingPaxosStorage (V St : Type) := mkPendingPaxos { pp_inner : St }.
Arguments mkPendingPaxos {V St}. Arguments pp_inner {V St}.
Record PendingRaftStorage (V St : Type) := mkPendingRaft { pr_inner : St }.
Arguments mkPendingRaft {V St}. Arguments pr_inner {V St}.

Definition pp_lift {V St A} (c : StorageM St A) : StorageM (PendingPaxosStorage V St) A :=
  λ s, let '(s', r) := c (pp_inner s) in (mkPendingPaxos s', r).
Definition pr_lift {V St A} (c : StorageM St A) : StorageM (PendingRaftStorage V St) A :=
  λ s, let '(s', r) := c (pr_inner s) in (mkPendingRaft s', r).

#[export] Instance PendingPaxosStorage_impl {St V} `{PaxosStorage St V} :
    PaxosStorage (PendingPaxosStorage V St) (Pending V) := {|
  p_save_decision slot v := pp_lift (p_save_decision slot (pvalue v));
  p_load_decisions s := result_map wrap_decisions (p_load_decisions (pp_inner s));
|}.

#[export] Instance PendingRaftStorage_impl {St V} `{RaftStorage St V} :
    RaftStorage (PendingRaftStorage V St) (Pending V) := {|
  save_decision slot v := pr_lift (save_decision slot (pvalue v));
  load_decisions s := result_map wrap_decisions (load_decisions (pr_inner s));
  save_term t := pr_lift (save_term t);
  load_term s := load_term (pr_inner s);
  save_voted_for vf := pr_lift (save_voted_for vf);
  load_voted_for s := load_voted_for (pr_inner s);
  append_log es := pr_lift (append_log (strip_log_entries es));
  truncate_log_from i := pr_lift (truncate_log_from i);
  load_log s := result_map wrap_log_entries (load_log (pr_inner s));
  save_commit_index ci := pr_lift (save_commit_index ci);
  load_commit_index s := load_commit_index (pr_inner s);
|}.

(** ** Laws of the in-memory backends *)
Lemma mem_truncate_eq {A} (i : N) (l : list A) : mem_truncate i l = vtruncate l i.
Proof.
  unfold mem_truncate, vtruncate, vlen. destruct (_ <? _)%N eqn:E; breflect; [done|].
  rewrite take_ge; [done|lia].
Qed.

Lemma map_entry_id {V} (l : list (LogEntry V)) : map (map_entry (λ v, v)) l = l.
Proof. induction l as [|[] l IH]; simpl; [done|]. by rewrite IH. Qed.

#[export] Program Instance RaftMemoryStorage_spec V :
    RaftStorageSpec (RaftMemoryStorage V) V := {|
  view := λ s, s;
  norm := λ v, v;
|}.
Next Obligation. done. Qed.
Next Obligation.
  intros V [] s s' [= <-]; simpl; rewrite ?map_entry_id, ?mem_truncate_eq; done.
Qed.
Next Obligation. intros V [] ????; simplify_eq/=. Qed.
Next Obligation. naive_solver. Qed.
Next Obligation. naive_solver. Qed.
Next Obligation. naive_solver. Qed.
Next Obligation. naive_solver. Qed.
Next Obligation. by intros V s l [= <-]. Qed.

#[export] Program Instance PaxosMemoryStorage_spec V :
    PaxosStorageSpec (PaxosMemoryStorage V) V := {|
  p_view := p_decisions;
  p_norm := λ v, v;
|}.
Next Obligation. done. Qed.
Next Obligation. by intros V slot v s s' [= <-]. Qed.
Next Obligation. done. Qed.
Next Obligation. by intros V s l [= <-]. Qed.

(** ** Laws of the adapters: an adapter over a lawful backend is lawful *)
Definition wrap_value {V} (v : V) : Pending V := {| nonce := 0; pvalue := v |}.

Definition wrap_durable {V} (d : RaftMemoryStorage V) : RaftMemoryStorage (Pending V) :=
  {| m_decisions := wrap_value <$> m_decisions d;
     m_term := m_term d; m_voted_for := m_voted_for d;
     m_log := wrap_log_entries (m_log d);
     m_commit_index := m_commit_index d |}.

Definition pending_norm {V} (n : V → V) (p : Pending V) : Pending V :=
  wrap_value (n (pvalue p)).

Lemma wrap_norm_strip {V} (n : V → V) es :
  wrap_log_entries (map (map_entry n) (strip_log_entries es)) =
  map (map_entry (pending_norm n)) es.
Proof. unfold wrap_log_entries, strip_log_entries. by rewrite !map_map. Qed.

Lemma wrap_log_app {V} (l k : list (LogEntry V)) :
  wrap_log_entries (l ++ k) = wrap_log_entries l ++ wrap_log_entries k.
Proof. apply map_app. Qed.

Lemma wrap_log_truncate {V} (l : list (LogEntry V)) i :
  wrap_log_entries (vtruncate l i) = vtruncate (wrap_log_entries l) i.
Proof. unfold wrap_log_entries, vtruncate. by rewrite firstn_map. Qed.

Lemma wrap_decisions_perm {V} (m : gmap N V) (l : list (N * V)) :
  l ≡ₚ map_to_list m → wrap_decisions l ≡ₚ map_to_list (wrap_value <$> m).
Proof.
  intros Hl. rewrite map_to_list_fmap. unfold wrap_decisions.
  rewrite Hl. apply reflexive_eq. apply list_fmap_ext. by intros ? [].
Qed.

Lemma result_map_Ok {A B E} (f : A → B) (r : Result A E) b :
  result_map f r = Ok b → ∃ a, r = Ok a ∧ b = f a.
Proof. destruct r; naive_solver. Qed.

Section pending_laws.
Context {St V : Type} `{RaftStorageSpec St V}.

Lemma pr_lift_inv {A} (c : StorageM St A) (s s' : PendingRaftStorage V St) r :
  pr_lift c s = (s', r) → c (pr_inner s) = (pr_inner s', r).
Proof. unfold pr_lift. destruct (c _) as [? ?] eqn:E. by intros [= <- <-]. Qed.

#[export] Program Instance PendingRaftStorage_spec :
    RaftStorageSpec (PendingRaftStorage V St) (Pending V) := {|
  view := λ s, wrap_durable (view (pr_inner s));
  norm := pending_norm norm;
|}.
Next Obligation. intros []. unfold pending_norm; simpl. by rewrite norm_idem. Qed.
Next Obligation.
  intros [| | | | |] s s' E%pr_lift_inv;
    [apply (write_ok (WTerm t)) in E|apply (write_ok (WVote vf)) in E
    |apply (write_ok (WTruncate index)) in E
    |apply (write_ok (WAppend (strip_log_entries es))) in E
    |apply (write_ok (WCommit ci)) in E
    |apply (write_ok (WDecision slot (pvalue v))) in E];
    rewrite E; unfold wrap_durable; simpl;
    rewrite ?wrap_log_truncate, ?wrap_log_app, ?wrap_norm_strip, ?fmap_insert; done.
Qed.
Next Obligation.
  intros [| | | | |] s s' e E%pr_lift_inv;
    [apply (write_err (WTerm t)) in E|apply (write_err (WVote vf)) in E
    |apply (write_err (WTruncate index)) in E
    |apply (write_err (WAppend (strip_log_entries es))) in E
    |apply (write_err (WCommit ci)) in E
    |apply (write_err (WDecision slot (pvalue v))) in E]; by rewrite E.
Qed.
Next Obligation. intros s t E. simpl in E. by apply load_term_ok in E. Qed.
Next Obligation. intros s t E. simpl in E. by apply load_voted_for_ok in E. Qed.
Next Obligation.
  intros s l (l' & E & ->)%result_map_Ok. apply load_log_ok in E. by rewrite E.
Qed.
Next Obligation. intros s t E. simpl in E. by apply load_commit_index_ok in E. Qed.
Next Obligation.
  intros s l (l' & E & ->)%result_map_Ok. apply load_decisions_ok in E.
  by apply wrap_decisions_perm.
Qed.
End pending_laws.

Section pending_paxos_laws.
Context {St V : Type} `{PaxosStorageSpec St V}.

#[export] Program Instance PendingPaxosStorage_spec :
    PaxosStorageSpec (PendingPaxosStorage V St) (Pending V) := {|
  p_view := λ s, wrap_value <$> p_view (pp_inner s);
  p_norm := pending_norm p_norm;
|}.
Next Obligation. intros []. unfold pending_norm; simpl. by rewrite p_norm_idem. Qed.
Next Obligation.
  intros slot v s s'. simpl. unfold pp_lift. destruct (p_save_decision _ _ _) as [i r] eqn:E.
  intros [= <- ->]. apply p_save_ok in E. simpl. rewrite E. by rewrite fmap_insert.
Qed.
Next Obligation.
  intros slot v s s' e. simpl. unfold pp_lift. destruct (p_save_decision _ _ _) as [i r] eqn:E.
  intros [= <- ->]. apply p_save_err in E. simpl. by rewrite E.
Qed.
Next Obligation.
  intros s l (l' & E & ->)%result_map_Ok. apply p_load_ok in E.
  by apply wrap_decisions_perm.
Qed.
End pending_paxos_laws.

(** A run of writes over a lawful backend leaves the durable state of some
    prefix of them, of all of them when it reports success. *)
Section writes.
Context {St V : Type} `{RaftStorageSpec St V}.

Lemma unit_ok (r : Result unit StorageError) : r = Ok tt ∨ ∃ e, r = Err e.
Proof. destruct r as [[]|e]; eauto. Qed.

Lemma do_writes_ok ws s s' :
  do_writes ws s = (s', Ok tt) → view s' = spec_writes norm ws (view s).
Proof.
  revert s. induction ws as [|w ws IH]; simpl; intros s; [by intros [= <-]|].
  unfold sbind. destruct (do_write w s) as [s1 [[]|e]] eqn:E; [|done].
  intros ->%IH. by rewrite (write_ok _ _ _ E).
Qed.

Lemma do_writes_err ws s s' e :
  do_writes ws s = (s', Err e) →
  ∃ k, k < length ws ∧ view s' = spec_writes norm (take k ws) (view s).
Proof.
  revert s. induction ws as [|w ws IH]; simpl; intros s; [done|].
  unfold sbind. destruct (do_write w s) as [s1 [[]|e1]] eqn:E.
  - intros (k & Hk & ->)%IH. exists (S k).
    split; [lia|]. simpl. by rewrite (write_ok _ _ _ E).
  - intros [= <- <-]. exists 0. split; [lia|]. simpl. by eapply write_err.
Qed.

Lemma do_writes_app ws1 ws2 s :
  do_writes (ws1 ++ ws2) s = sbind (do_writes ws1) (λ _, do_writes ws2) s.
Proof.
  revert s. induction ws1 as [|w ws1 IH]; intros s; [done|]. simpl.
  unfold sbind. destruct (do_write w s) as [s1 [[]|e]]; [|done].
  rewrite IH. done.
Qed.
End writes.

Lemma spec_writes_app {V} (n : V → V) ws1 ws2 d :
  spec_writes n (ws1 ++ ws2) d = spec_writes n ws2 (spec_writes n ws1 d).
Proof. apply foldl_app. Qed.
