(* ===== verification/Raft.v ===== *)
(** * Raft: the protocol state machine

    Models [RaftProtocol] of [daccord/src/protocol/raft.rs], every method of
    it. A method is a function on the protocol's record; [None] is a panic.
    The clock and the random generator are read through [Env]: a method reads
    both at most once in a way a caller can observe (a second read within one
    call overwrites what the first set). *)

From S2P Require Import Prelude Types Storage.

Record Env := mkEnv { env_now : Instant; env_rand : N }.

Definition sample_election_timeout (cfg : RaftConfig) (e : Env) : Duration :=
  let lo := as_millis (election_timeout_min cfg) in
  let hi := as_millis (election_timeout_max cfg) in
  from_millis (if (hi <=? lo)%N then lo else random_range lo hi (env_rand e)).

Inductive Role := Follower | Candidate | Leader.
#[export] Instance Role_eq_dec : EqDecision Role.
Proof. solve_decision. Defined.

Definition is_leader (r : Role) : bool := match r with Leader => true | _ => false end.
Definition is_candidate (r : Role) : bool := match r with Candidate => true | _ => false end.

Record PersistIntent (V : Type) := mkIntent {
  i_term : option N;
  i_voted_for : option (option NodeId);
  i_truncate_from : option N;
  i_append_from : option N;
  i_log_snapshot : list (LogEntry V);
  i_commit_index : option (option N);
}.
Arguments mkIntent {V}. Arguments i_term {V}. Arguments i_voted_for {V}.
Arguments i_truncate_from {V}. Arguments i_append_from {V}.
Arguments i_log_snapshot {V}. Arguments i_commit_index {V}.

#[projections(primitive)]
Record RaftProtocol (V St : Type) := mkRaft {
  node_id : NodeId;
  total_nodes : nat;
  config : RaftConfig;
  (* persistent state *)
  current_term : N;
  voted_for : option NodeId;
  log : list (LogEntry V);
  (* volatile state *)
  commit_index : option N;
  last_applied : option N;
  role : Role;
  leader : option NodeId;
  (* volatile state on leaders *)
  next_index : gmap NodeId N;
  match_index : gmap NodeId (option N);
  (* election and heartbeat bookkeeping *)
  election_deadline : Instant;
  votes_received : gset NodeId;
  last_heartbeat_sent : option Instant;
  (* decisions ready to be drained *)
  pending_decisions : list (Decision V);
  (* persistence intent *)
  pending_persist_term : bool;
  pending_persist_voted_for : bool;
  pending_persist_log_from : option N;
  pending_truncate_from : option N;
  pending_persist_commit_index : bool;
  (* proposals without a known leader, and those to be re-routed *)
  pending_proposals : list V;
  lost_proposals : list V;
  storage : St;
}.
Arguments mkRaft {V St}.
Arguments node_id {V St}. Arguments total_nodes {V St}. Arguments config {V St}.
Arguments current_term {V St}. Arguments voted_for {V St}. Arguments log {V St}.
Arguments commit_index {V St}. Arguments last_applied {V St}. Arguments role {V St}.
Arguments leader {V St}. Arguments next_index {V St}. Arguments match_index {V St}.
Arguments election_deadline {V St}. Arguments votes_received {V St}.
Arguments last_heartbeat_sent {V St}. Arguments pending_decisions {V St}.
Arguments pending_persist_term {V St}. Arguments pending_persist_voted_for {V St}.
Arguments pending_persist_log_from {V St}. Arguments pending_truncate_from {V St}.
Arguments pending_persist_commit_index {V St}. Arguments pending_proposals {V St}.
Arguments lost_proposals {V St}. Arguments storage {V St}.

Section raft.
Context {V St : Type}.
Abbreviation RP := (RaftProtocol V St).
Abbreviation Out := (list (Outgoing (RaftMessage V))).
Implicit Types (p : RP) (e : Env).

(** ** Construction and observation *)

(** [RaftProtocol::new]: panics on an invalid configuration. *)
Definition new (e : Env) (id : NodeId) (total : nat) (cfg : RaftConfig) (s : St)
    : option RP :=
  match RaftConfig_validate cfg with
  | Err _ => None
  | Ok _ => Some {|
      node_id := id; total_nodes := total; config := cfg;
      current_term := 0; voted_for := None; log := [];
      commit_index := None; last_applied := None;
      role := Follower; leader := None;
      next_index := ∅; match_index := ∅;
      election_deadline := (env_now e + sample_election_timeout cfg e)%N;
      votes_received := ∅; last_heartbeat_sent := None;
      pending_decisions := [];
      pending_persist_term := false; pending_persist_voted_for := false;
      pending_persist_log_from := None; pending_truncate_from := None;
      pending_persist_commit_index := false;
      pending_proposals := []; lost_proposals := [];
      storage := s |}
  end.

Definition quorum (p : RP) : nat := quorum_size (total_nodes p).

Definition peek_state (p : RP) : ProtocolSnapshot := {|
  s_role := Some (match role p with
                  | Follower => NFollower | Candidate => NCandidate | Leader => NLeader
                  end);
  s_term := current_term p;
  s_leader := leader p;
  s_voted_for := voted_for p;
  s_log_len := vlen (log p);
  s_commit_index := commit_index p;
  s_last_applied := last_applied p;
|}.

Definition last_log_index (p : RP) : option N := vlast_index (log p).

Definition last_log_term (p : RP) : N :=
  match last (log p) with Some en => term en | None => 0%N end.

(** ** Applying committed entries *)

(** The loop [for idx in start..=target], as many steps as the range has. *)
Fixpoint collect_decisions (l : list (LogEntry V)) (idx : N) (steps : nat)
    : option (list (Decision V)) :=
  match steps with
  | O => Some []
  | S steps =>
      en ← vget l idx;
      rest ← collect_decisions l (idx + 1) steps;
      Some (mkDecision idx (value en) :: rest)
  end.

Definition apply_committed_entries (p : RP) : option RP :=
  match commit_index p with
  | None => Some p
  | Some target =>
      start ← match last_applied p with
              | Some a => u64_add a 1
              | None => Some 0%N
              end;
      if (target <? start)%N then Some p else
      ds ← collect_decisions (log p) start (N.to_nat (target + 1 - start));
      Some {| p with pending_decisions := pending_decisions p ++ ds;
                     last_applied := Some target |}
  end.

(** ** Recovery *)

Definition max_slot (decisions : list (N * V)) : option N :=
  foldr (λ d acc, match acc with Some m => Some (N.max d.1 m) | None => Some d.1 end)
    None decisions.

Definition restore_state (e : Env) (t : N) (vf : option NodeId)
    (l : list (LogEntry V)) (decisions : list (N * V)) (persisted : option N)
    (p : RP) : option RP :=
  let max_decided := max_slot decisions in
  let ci := match persisted, max_decided with
            | Some q, Some d => Some (N.max q d)
            | Some q, None => Some q
            | None, Some d => Some d
            | None, None => None
            end in
  let ci := match ci with
            | Some c => (λ last, N.min c last) <$> vlast_index l
            | None => None
            end in
  let resume_leader :=
    bool_decide (total_nodes p = 1) &&
    ((0 <? t)%N && bool_decide (vf = Some (node_id p))) in
  apply_committed_entries {| p with
    current_term := t; voted_for := vf; log := l;
    commit_index := ci; last_applied := max_decided;
    election_deadline := (env_now e + sample_election_timeout (config p) e)%N;
    pending_persist_term := false; pending_persist_voted_for := false;
    pending_persist_log_from := None; pending_truncate_from := None;
    pending_persist_commit_index := false;
    pending_decisions := []; pending_proposals := []; lost_proposals := [];
    votes_received := ∅; next_index := ∅;
    match_index := if resume_leader then
                     match vlast_index l with
                     | Some last => {[ node_id p := Some last ]}
                     | None => ∅
                     end
                   else ∅;
    role := if resume_leader then Leader else Follower;
    leader := if resume_leader then Some (node_id p) else None |}.

(** ** The persistence intent *)

Definition drain_persist_intent (p : RP) : RP * PersistIntent V :=
  ({| p with
      pending_truncate_from := None; pending_persist_log_from := None;
      pending_persist_term := false; pending_persist_voted_for := false;
      pending_persist_commit_index := false |},
   {| i_term := if pending_persist_term p then Some (current_term p) else None;
      i_voted_for := if pending_persist_voted_for p then Some (voted_for p) else None;
      i_truncate_from := pending_truncate_from p;
      i_append_from := pending_persist_log_from p;
      i_log_snapshot := if is_some (pending_persist_log_from p) then log p else [];
      i_commit_index := if pending_persist_commit_index p
                        then Some (commit_index p) else None |}).

Definition take_decisions (p : RP) : RP * list (Decision V) :=
  ({| p with pending_decisions := [] |}, pending_decisions p).

Definition take_lost_proposals (p : RP) : RP * list V :=
  ({| p with lost_proposals := [] |}, lost_proposals p).

(** ** Role changes *)

(** Whether a candidate's log is at least as up to date as ours. *)
Definition candidate_log_at_least_as_up_to_date (p : RP)
    (cand_last_term : N) (cand_last_index : option N) : bool :=
  let my_term := last_log_term p in
  if negb (cand_last_term =? my_term)%N then (my_term <? cand_last_term)%N else
  match cand_last_index, last_log_index p with
  | Some c, Some m => (m <=? c)%N
  | Some _, None => true
  | None, None => true
  | None, Some _ => false
  end.

Definition become_follower (e : Env) (t : N) (l : option NodeId) (p : RP) : RP :=
  let higher := (current_term p <? t)%N in
  {| p with
    current_term := if higher then t else current_term p;
    voted_for := if higher then None else voted_for p;
    pending_persist_term := higher || pending_persist_term p;
    pending_persist_voted_for := higher || pending_persist_voted_for p;
    role := Follower; leader := l; votes_received := ∅;
    election_deadline := (env_now e + sample_election_timeout (config p) e)%N;
    pending_persist_log_from := None |}.

Definition broadcast_heartbeat (e : Env) (p : RP) : RP * Out :=
  ({| p with last_heartbeat_sent := Some (env_now e) |},
   [mkOut Broadcast (AppendEntries (current_term p) (node_id p)
      (last_log_index p) (last_log_term p) [] (commit_index p))]).

Definition broadcast_with_entries (e : Env) (entries : list (LogEntry V)) (p : RP)
    : option (RP * Out) :=
  let p := {| p with last_heartbeat_sent := Some (env_now e) |} in
  let prev := if bool_decide (length entries < length (log p))
              then Some (vlen (log p) - vlen entries - 1)%N else None in
  prev_term ← match prev with
              | Some i => term <$> vget (log p) i
              | None => Some 0%N
              end;
  Some (p, [mkOut Broadcast (AppendEntries (current_term p) (node_id p)
              prev prev_term entries (commit_index p))]).

(** ** Commitment *)

(** [Option<u64>]'s order has [None] below every [Some]. *)
Definition opt_leb (a b : option N) : bool :=
  match a, b with
  | None, _ => true
  | Some _, None => false
  | Some x, Some y => (x <=? y)%N
  end.
Definition opt_ge (a b : option N) : Prop := opt_leb b a = true.
#[global] Instance opt_ge_dec : RelDecision opt_ge.
Proof. intros a b. unfold opt_ge. apply _. Defined.

Definition try_advance_commit (p : RP) : option RP :=
  let indexes := merge_sort opt_ge (snd <$> map_to_list (match_index p)) in
  let q := quorum p in
  if bool_decide (length indexes < q) then Some p else
  candidate ← indexes !! (q - 1);
  match candidate with
  | None => Some p
  | Some c =>
      match vget (log p) c with
      | None => Some p
      | Some entry =>
          if (term entry =? current_term p)%N
             && is_none_or (commit_index p) (λ cur, cur <? c)%N
          then apply_committed_entries {| p with
                 commit_index := Some c; pending_persist_commit_index := true |}
          else Some p
      end
  end.

Definition become_leader (e : Env) (p : RP) : option (RP * Out) :=
  let buffered := pending_proposals p in
  let p := {| p with
    role := Leader; leader := Some (node_id p); next_index := ∅;
    match_index := match vlast_index (log p) with
                   | Some last => {[ node_id p := Some last ]}
                   | None => ∅
                   end;
    pending_proposals := [] |} in
  match buffered with
  | [] => Some (broadcast_heartbeat e p)
  | _ =>
      let new_entries := map (mkEntry (current_term p)) buffered in
      let start_idx := vlen (log p) in
      let log' := log p ++ new_entries in
      let p := {| p with
        log := log';
        pending_persist_log_from :=
          match pending_persist_log_from p with
          | None => Some start_idx
          | Some i => Some i
          end;
        match_index := <[node_id p := Some (vlen log' - 1)%N]> (match_index p) |} in
      p ← try_advance_commit p;
      broadcast_with_entries e new_entries p
  end.

Definition start_election (e : Env) (p : RP) : option (RP * Out) :=
  let was_candidate := is_candidate (role p) in
  t ← u64_add (current_term p) 1;
  let p := {| p with
    current_term := t; role := Candidate; voted_for := Some (node_id p);
    votes_received := {[ node_id p ]}; leader := None;
    election_deadline := (env_now e + sample_election_timeout (config p) e)%N;
    pending_persist_term := true; pending_persist_voted_for := true |} in
  if bool_decide (quorum p ≤ size (votes_received p)) then become_leader e p else
  let p := if was_candidate
           then {| p with lost_proposals := lost_proposals p ++ pending_proposals p;
                          pending_proposals := [] |}
           else p in
  Some (p, [mkOut Broadcast (RequestVote (current_term p) (node_id p)
              (last_log_index p) (last_log_term p))]).

(** ** Vote handlers *)

Definition handle_request_vote (e : Env) (t : N) (candidate : NodeId)
    (last_index : option N) (last_term : N) (p : RP) : RP * Out :=
  let grant :=
    if (t <? current_term p)%N then false
    else
      let already_voted_for_other :=
        is_some_and (voted_for p) (λ v, negb (bool_decide (v = candidate))) in
      let log_ok := candidate_log_at_least_as_up_to_date p last_term last_index in
      negb already_voted_for_other && log_ok in
  let p := if grant then {| p with
      voted_for := Some candidate; pending_persist_voted_for := true;
      election_deadline := (env_now e + sample_election_timeout (config p) e)%N |}
    else p in
  (p, [mkOut (Peer candidate) (RequestVoteResponse (current_term p) grant)]).

Definition handle_request_vote_response (e : Env) (from : NodeId) (t : N)
    (vote_granted : bool) (p : RP) : option (RP * Out) :=
  if negb (is_candidate (role p)) || negb (t =? current_term p)%N then Some (p, [])
  else if vote_granted then
    let p := {| p with votes_received := {[ from ]} ∪ votes_received p |} in
    if bool_decide (quorum p ≤ size (votes_received p))
    then become_leader e p else Some (p, [])
  else Some (p, []).

(** ** Log replication: the follower's side *)

Definition reject_append (p : RP) (l : NodeId) : Out :=
  [mkOut (Peer l) (AppendEntriesResponse (current_term p) false None None None)].

Definition prev_ok (p : RP) (prev_log_index : option N) (prev_log_term : N) : bool :=
  match prev_log_index with
  | None => true
  | Some idx => match vget (log p) idx with
                | Some en => (term en =? prev_log_term)%N
                | None => false
                end
  end.

(** [(0..=idx).find(|&i| self.log[i].term == t)]. *)
Definition first_index_of_term (l : list (LogEntry V)) (idx t : N) : option N :=
  (λ r, N.of_nat r.1) <$> list_find (λ en, term en = t) (take (N.to_nat (idx + 1)) l).

Definition conflict_hint (p : RP) (prev_log_index : option N) : option (option N * option N) :=
  match prev_log_index with
  | Some idx =>
      if (vlen (log p) <=? idx)%N then Some (None, Some (vlen (log p)))
      else en ← vget (log p) idx;
           Some (Some (term en), first_index_of_term (log p) idx (term en))
  | None => Some (None, Some (vlen (log p)))
  end.

(** The loop placing the leader's entries from [insert_at] on. *)
Fixpoint place_entries (insert_at : N) (entries : list (LogEntry V)) (p : RP) : RP :=
  match entries with
  | [] => p
  | entry :: rest =>
      let p :=
        match vget (log p) insert_at with
        | Some old =>
            if negb (term old =? term entry)%N then {| p with
              log := vtruncate (log p) insert_at ++ [entry];
              pending_truncate_from := Some insert_at;
              pending_persist_log_from :=
                match pending_persist_log_from p with
                | None => Some insert_at
                | Some i => Some (if (insert_at <? i)%N then insert_at else i)
                end |}
            else p
        | None => {| p with
              log := log p ++ [entry];
              pending_persist_log_from :=
                match pending_persist_log_from p with
                | None => Some (vlen (log p))
                | Some i => Some i
                end |}
        end in
      place_entries (insert_at + 1) rest p
  end.

Definition truncate_suffix (last : N) (p : RP) : RP :=
  let cutoff := (last + 1)%N in
  if (cutoff <? vlen (log p))%N then {| p with
    log := vtruncate (log p) cutoff;
    pending_truncate_from :=
      Some (match pending_truncate_from p with
            | Some prev => N.min prev cutoff
            | None => cutoff
            end) |}
  else p.

Definition advance_follower_commit (leader_commit match_idx : option N) (p : RP) : option RP :=
  match leader_commit, match_idx with
  | Some lc, Some last =>
      let new_ci := N.min lc last in
      if is_none_or (commit_index p) (λ c, c <? new_ci)%N
      then apply_committed_entries {| p with
             commit_index := Some new_ci; pending_persist_commit_index := true |}
      else Some p
  | _, _ => Some p
  end.

(** The last index an AppendEntries verified. *)
Definition verified_index (prev_log_index : option N) (n : N) : option N :=
  match prev_log_index with
  | Some q => Some (q + n)%N
  | None => if (n =? 0)%N then None else Some (n - 1)%N
  end.

Definition handle_append_entries (e : Env) (from : NodeId) (t : N) (ldr : NodeId)
    (prev_log_index : option N) (prev_log_term : N) (entries : list (LogEntry V))
    (leader_commit : option N) (p : RP) : option (RP * Out) :=
  if (t <? current_term p)%N then Some (p, reject_append p ldr) else
  if (t =? current_term p)%N && is_leader (role p) then Some (p, reject_append p ldr) else
  let p := {| p with
    role := Follower; leader := Some ldr;
    election_deadline := (env_now e + sample_election_timeout (config p) e)%N |} in
  if negb (prev_ok p prev_log_index prev_log_term) then
    hint ← conflict_hint p prev_log_index;
    Some (p, [mkOut (Peer ldr)
               (AppendEntriesResponse (current_term p) false None hint.1 hint.2)])
  else
    let start := match prev_log_index with Some i => (i + 1)%N | None => 0%N end in
    let p := place_entries start entries p in
    let match_idx := verified_index prev_log_index (vlen entries) in
    let p := match match_idx with Some last => truncate_suffix last p | None => p end in
    p ← advance_follower_commit leader_commit match_idx p;
    Some ({| p with pending_proposals := [] |},
          mkOut (Peer ldr) (AppendEntriesResponse (current_term p) true match_idx None None)
          :: map (λ v, mkOut (Peer ldr) (Forward v 0)) (pending_proposals p)).

(** ** Log replication: the leader's side *)

(** [log.iter().enumerate().rev().find(|(_, e)| e.term == t)]. *)
Definition last_index_of_term (l : list (LogEntry V)) (t : N) : option N :=
  (λ r, (vlen l - 1 - N.of_nat r.1)%N) <$> list_find (λ en, term en = t) (reverse l).

(** The next index a rejected AppendEntries backs up to. *)
Definition backtrack_next (p : RP) (from : NodeId)
    (conflict_term conflict_index : option N) : N :=
  let log_len := vlen (log p) in
  let new_next :=
    match conflict_index with
    | Some ci =>
        match conflict_term with
        | Some ct =>
            match last_index_of_term (log p) ct with
            | Some i => saturating_add u64_max i 1
            | None => ci
            end
        | None => ci
        end
    | None => (default log_len (next_index p !! from) - 1)%N
    end in
  N.min new_next log_len.

Definition handle_append_entries_response (from : NodeId) (t : N)
    (success : bool) (mi conflict_term conflict_index : option N) (p : RP)
    : option (RP * Out) :=
  if negb (is_leader (role p)) || negb (t =? current_term p)%N then Some (p, []) else
  if success then
    match mi with
    | Some m =>
        let log_len := vlen (log p) in
        if (log_len =? 0)%N || (log_len <=? m)%N then Some (p, []) else
        p ← try_advance_commit {| p with
              match_index := <[from := Some m]> (match_index p);
              next_index := <[from := (m + 1)%N]> (next_index p) |};
        Some (p, [])
    | None => Some (p, [])
    end
  else
    let new_next := backtrack_next p from conflict_term conflict_index in
    let p := {| p with next_index := <[from := new_next]> (next_index p) |} in
    let prev := if (new_next =? 0)%N then None else Some (new_next - 1)%N in
    prev_term ← match prev with
                | Some i => term <$> vget (log p) i
                | None => Some 0%N
                end;
    entries ← vslice_from (log p) new_next;
    Some (p, [mkOut (Peer from) (AppendEntries (current_term p) (node_id p)
                prev prev_term entries (commit_index p))]).

(** ** The [ConsensusProtocol] interface *)

Definition propose (e : Env) (v : V) (p : RP) : option (RP * Out) :=
  if is_leader (role p) then
    let entry := mkEntry (current_term p) v in
    let idx := vlen (log p) in
    p ← try_advance_commit {| p with
          log := log p ++ [entry];
          pending_persist_log_from :=
            match pending_persist_log_from p with None => Some idx | Some i => Some i end;
          match_index := <[node_id p := Some idx]> (match_index p) |};
    broadcast_with_entries e [entry] p
  else
    match leader p with
    | Some l => Some (p, [mkOut (Peer l) (Forward v 0)])
    | None => Some ({| p with pending_proposals := pending_proposals p ++ [v] |}, [])
    end.

Definition incoming_term (msg : RaftMessage V) : option N :=
  match msg with
  | RequestVote t _ _ _ | RequestVoteResponse t _ | AppendEntries t _ _ _ _ _
  | AppendEntriesResponse t _ _ _ _ => Some t
  | Forward _ _ => None
  end.

Definition handle_forward (e : Env) (from : NodeId) (v : V) (hops : N) (p : RP)
    : option (RP * Out) :=
  if is_leader (role p) then propose e v p
  else match leader p with
  | Some l =>
      if bool_decide (l ≠ from) then
        let next_hops := saturating_add u8_max hops 1 in
        if (MAX_FORWARD_HOPS <=? next_hops)%N then Some (p, [])
        else Some (p, [mkOut (Peer l) (Forward v next_hops)])
      else Some ({| p with pending_proposals := pending_proposals p ++ [v] |}, [])
  | None => Some ({| p with pending_proposals := pending_proposals p ++ [v] |}, [])
  end.

(** The term bump every message but a Forward goes through first. *)
Definition bump_term (e : Env) (msg : RaftMessage V) (p : RP) : RP :=
  match incoming_term msg with
  | Some t => if (current_term p <? t)%N then become_follower e t None p else p
  | None => p
  end.

Definition handle_message (e : Env) (from : NodeId) (msg : RaftMessage V) (p : RP)
    : option (RP * Out) :=
  let p := bump_term e msg p in
  match msg with
  | RequestVote t candidate li lt => Some (handle_request_vote e t candidate li lt p)
  | RequestVoteResponse t granted => handle_request_vote_response e from t granted p
  | AppendEntries t ldr prev prev_term entries lc =>
      handle_append_entries e from t ldr prev prev_term entries lc p
  | AppendEntriesResponse t success mi ct ci =>
      handle_append_entries_response from t success mi ct ci p
  | Forward v hops => handle_forward e from v hops p
  end.

Definition on_tick (e : Env) (now : Instant) (p : RP) : option (RP * Out) :=
  match role p with
  | Leader =>
      let heartbeat_due :=
        match last_heartbeat_sent p with
        | Some t => (heartbeat_interval (config p) <=? duration_since now t)%N
        | None => true
        end in
      if heartbeat_due then Some (broadcast_heartbeat e p) else Some (p, [])
  | Follower | Candidate =>
      if (election_deadline p <=? now)%N then start_election e p else Some (p, [])
  end.

Definition is_idle (p : RP) : bool :=
  bool_decide (length (log p) = 0) && bool_decide (length (pending_proposals p) = 0)
  && bool_decide (length (lost_proposals p) = 0) && negb (is_leader (role p)).

(** ** Methods that touch storage *)
Context `{RaftStorage St V}.

(** [recover]: the loads in order, the first error returned. *)
Definition recover (e : Env) (p : RP) : option (RP * Result unit StorageError) :=
  match load_term (storage p) with Err er => Some (p, Err er) | Ok t =>
  match load_voted_for (storage p) with Err er => Some (p, Err er) | Ok vf =>
  match load_log (storage p) with Err er => Some (p, Err er) | Ok l =>
  match load_decisions (storage p) with Err er => Some (p, Err er) | Ok ds =>
  match load_commit_index (storage p) with Err er => Some (p, Err er) | Ok ci =>
    p ← restore_state e t vf l ds ci p; Some (p, Ok tt)
  end end end end end.

(** [if let Some(x) = o { f(x).await?; }]. *)
Definition write_if {A} (o : option A) (f : A → StorageM St unit) : StorageM St unit :=
  match o with Some x => f x | None => sret tt end.

(** [flush_persist]: term, vote, truncation, append, commit index, in this
    order. The slice of the log snapshot is taken before the append. *)
Definition flush_persist (p : RP) : option (RP * Result unit StorageError) :=
  let '(p, intent) := drain_persist_intent p in
  to_append ← match i_append_from intent with
              | Some idx => Some <$> vslice_from (i_log_snapshot intent) idx
              | None => Some None
              end;
  let '(s, r) :=
    sbind (write_if (i_term intent) save_term) (λ _,
    sbind (write_if (i_voted_for intent) save_voted_for) (λ _,
    sbind (write_if (i_truncate_from intent) truncate_log_from) (λ _,
    sbind (write_if to_append append_log) (λ _,
    write_if (i_commit_index intent) save_commit_index)))) (storage p) in
  Some ({| p with storage := s |}, r).

Fixpoint save_decisions (ds : list (Decision V)) : StorageM St unit :=
  match ds with
  | [] => sret tt
  | d :: ds => sbind (save_decision (d_slot d) (d_value d)) (λ _, save_decisions ds)
  end.

Definition drain_decisions (p : RP) : RP * Result (list (Decision V)) StorageError :=
  let '(p, ds) := take_decisions p in
  let '(s, r) := save_decisions ds (storage p) in
  ({| p with storage := s |}, match r with Ok _ => Ok ds | Err er => Err er end).
End raft.

(** Methods are unfolded by name in proofs, never by simplification. *)
#[global] Arguments apply_committed_entries : simpl never.
#[global] Arguments try_advance_commit : simpl never.
#[global] Arguments become_leader : simpl never.
#[global] Arguments start_election : simpl never.
#[global] Arguments broadcast_with_entries : simpl never.
#[global] Arguments restore_state : simpl never.
#[global] Arguments handle_append_entries : simpl never.
#[global] Arguments handle_append_entries_response : simpl never.
#[global] Arguments handle_request_vote : simpl never.
#[global] Arguments handle_request_vote_response : simpl never.
#[global] Arguments handle_forward : simpl never.
#[global] Arguments propose : simpl never.
#[global] Arguments truncate_suffix : simpl never.
#[global] Arguments advance_follower_commit : simpl never.
#[global] Arguments flush_persist : simpl never.
#[global] Arguments drain_decisions : simpl never.
#[global] Arguments recover : simpl never.
#[global] Arguments handle_message : simpl never.
