(* ===== verification/RaftLocal.v ===== *)
(** * Raft: what one node guarantees

    Theory of the methods of [Raft.v] on a single node: commitment, the log a
    follower ends up with, persistence, absence of panics. The network-level
    proofs of [RaftNet.v] build on the lemmas of this file. *)

From S2P Require Import Prelude Types Storage Raft.

Section shapes.
Context {V St : Type}.
Implicit Types (p : RaftProtocol V St) (e : Env) (l : list (LogEntry V)).

(** ** Applying committed entries *)

(** The decisions for the slots [idx, idx+steps) of a log. *)
Definition decisions_of (l : list (LogEntry V)) (idx : N) (steps : nat) (ds : list (Decision V)) : Prop :=
  length ds = steps ∧
  ∀ k d, ds !! k = Some d →
    d_slot d = (idx + N.of_nat k)%N ∧
    ∃ en, vget l (d_slot d) = Some en ∧ d_value d = value en.

Lemma collect_decisions_spec l idx steps ds :
  collect_decisions l idx steps = Some ds → decisions_of l idx steps ds.
Proof.
  revert idx ds. induction steps as [|steps IH]; simpl; intros idx ds Hc.
  { simplify_eq. split; [done|]. intros k d. by rewrite lookup_nil. }
  destruct (vget l idx) as [en|] eqn:Hen; simplify_eq/=.
  destruct (collect_decisions l (idx + 1) steps) as [rest|] eqn:Hr; simplify_eq/=.
  destruct (IH _ _ Hr) as [Hlen Hds]. split; [simpl; by rewrite Hlen|].
  intros [|k] d Hk; simplify_eq/=.
  - split; [lia|]. eauto.
  - destruct (Hds _ _ Hk) as [-> ?]. split; [lia|done].
Qed.

Lemma collect_decisions_total l idx steps :
  (idx + N.of_nat steps ≤ vlen l)%N → is_Some (collect_decisions l idx steps).
Proof.
  revert idx. induction steps as [|steps IH]; simpl; intros idx Hle; [eauto|].
  destruct (proj2 (vget_is_Some l idx)) as [en ->]; [lia|]. simpl.
  destruct (IH (idx + 1)%N) as [ds ->]; [lia|]. simpl. eauto.
Qed.

(** The first slot that has not been applied. *)
Definition next_to_apply (la : option N) : N :=
  match la with Some a => (a + 1)%N | None => 0%N end.

Lemma apply_committed_shape p p' :
  apply_committed_entries p = Some p' →
  ∃ ds la, p' = {| p with pending_decisions := pending_decisions p ++ ds;
                          last_applied := la |} ∧
    ((ds = [] ∧ la = last_applied p ∧
        ∀ c, commit_index p = Some c → (c < next_to_apply (last_applied p))%N) ∨
     ∃ c, commit_index p = Some c ∧ la = Some c ∧
       (next_to_apply (last_applied p) ≤ c)%N ∧
       decisions_of (log p) (next_to_apply (last_applied p))
         (N.to_nat (c + 1 - next_to_apply (last_applied p))) ds).
Proof.
  intros Happ. unfold apply_committed_entries in Happ.
  destruct (commit_index p) as [c|] eqn:Hc in Happ.
  2: { injection Happ as <-. exists [], (last_applied p). rewrite app_nil_r. split; [done|].
       left. split_and!; [done|done|congruence]. }
  destruct (match last_applied p with Some a => u64_add a 1 | None => Some 0%N end)
    as [start|] eqn:Hs in Happ; [|done].
  assert (start = next_to_apply (last_applied p)) as ->.
  { destruct (last_applied p); simpl in *; [|congruence].
    by apply checked_add_Some in Hs as [-> _]. }
  simpl in Happ. destruct (_ <? _)%N eqn:Hlt in Happ; breflect.
  { injection Happ as <-. exists [], (last_applied p). rewrite app_nil_r. split; [done|].
    left. split_and!; [done|done|]. intros ? ?. by simplify_eq. }
  destruct (collect_decisions _ _ _) as [ds|] eqn:Hds in Happ; [|done].
  injection Happ as <-.
  exists ds, (Some c). split; [by rewrite Hc|]. right. exists c.
  split_and!; try done. by apply collect_decisions_spec.
Qed.

Lemma apply_committed_total p :
  (∀ c, commit_index p = Some c → (c < vlen (log p))%N) →
  (∀ a, last_applied p = Some a → (a < u64_max)%N) →
  is_Some (apply_committed_entries p).
Proof.
  intros Hc Ha. unfold apply_committed_entries.
  destruct (commit_index p) as [c|]; [|eauto]. specialize (Hc _ eq_refl).
  destruct (last_applied p) as [a|]; simpl.
  - specialize (Ha _ eq_refl). unfold u64_add, checked_add.
    rewrite bool_decide_eq_true_2 by lia. simpl.
    destruct (_ <? _)%N eqn:Hlt; breflect; [eauto|].
    destruct (collect_decisions_total (log p) (a + 1)%N (N.to_nat (c + 1 - (a + 1)))) as [ds ->];
      [lia|]. simpl; eauto.
  - destruct (_ <? _)%N eqn:Hlt; breflect; [eauto|].
    destruct (collect_decisions_total (log p) 0%N (N.to_nat (c + 1 - 0))) as [ds ->];
      [lia|]. simpl; eauto.
Qed.

(** ** Commitment at the leader *)
Lemma try_advance_shape p p' :
  try_advance_commit p = Some p' →
  ∃ ds la ci b, p' = {| p with pending_decisions := pending_decisions p ++ ds;
    last_applied := la; commit_index := ci; pending_persist_commit_index := b |} ∧
  ((ds = [] ∧ la = last_applied p ∧ ci = commit_index p ∧ b = pending_persist_commit_index p) ∨
   ∃ c en, ci = Some c ∧ b = true ∧ vget (log p) c = Some en ∧ term en = current_term p ∧
     is_none_or (commit_index p) (λ cur, cur <? c)%N = true ∧
     merge_sort opt_ge (snd <$> map_to_list (match_index p)) !! (quorum p - 1) = Some (Some c) ∧
     apply_committed_entries {| p with commit_index := Some c;
       pending_persist_commit_index := true |} = Some p').
Proof.
  assert (p' = p → ∃ ds la ci b, p' = {| p with pending_decisions := pending_decisions p ++ ds;
    last_applied := la; commit_index := ci; pending_persist_commit_index := b |} ∧
    (ds = [] ∧ la = last_applied p ∧ ci = commit_index p ∧ b = pending_persist_commit_index p))
    as Hid.
  { intros ->. eexists [], _, _, _. rewrite app_nil_r. split; [|done]. done. }
  intros Htry. unfold try_advance_commit in Htry.
  case_bool_decide; [injection Htry as <-; naive_solver|].
  destruct (merge_sort _ _ !! _) as [cand|] eqn:Hcand in Htry; [|done]. simpl in Htry.
  destruct cand as [c|]; [|injection Htry as <-; naive_solver].
  destruct (vget (log p) c) as [en|] eqn:Hen in Htry; [|injection Htry as <-; naive_solver].
  destruct (_ && _) eqn:Hb in Htry; [|injection Htry as <-; naive_solver].
  breflect. pose proof Htry as (ds & la & -> & _)%apply_committed_shape.
  exists ds, la, (Some c), true. split; [done|]. right. exists c, en. by split_and!.
Qed.

(** ** The log an AppendEntries leaves behind

    [place_log] and [ae_log] are the list functions that the loop and the
    suffix truncation of [handle_append_entries] compute. *)
Fixpoint place_log (at_ : N) (es : list (LogEntry V)) (l : list (LogEntry V))
    : list (LogEntry V) :=
  match es with
  | [] => l
  | en :: es =>
      place_log (at_ + 1) es
        match vget l at_ with
        | Some old => if negb (term old =? term en)%N then vtruncate l at_ ++ [en] else l
        | None => l ++ [en]
        end
  end.

Definition start_of (prev : option N) : N :=
  match prev with Some i => (i + 1)%N | None => 0%N end.

Definition ae_log (prev : option N) (es : list (LogEntry V)) (l : list (LogEntry V))
    : list (LogEntry V) :=
  let l1 := place_log (start_of prev) es l in
  match verified_index prev (vlen es) with
  | Some last => vtruncate l1 (last + 1)
  | None => l1
  end.

(** How the pending truncation and append of an intent relate the log that
    storage holds ([l]) to the log in memory ([l1]). *)
Definition log_sync (l l1 : list (LogEntry V)) (trunc from : option N) : Prop :=
  match trunc, from with
  | None, None => l1 = l
  | None, Some a => a = vlen l ∧ ∃ k, l1 = l ++ k
  | Some i, Some a => i = a ∧ (i ≤ vlen l)%N ∧ (i ≤ vlen l1)%N ∧ vtruncate l1 i = vtruncate l i ∧
      ∃ x y, vget l i = Some x ∧ vget l1 i = Some y ∧ term x ≠ term y
  | Some i, None => l1 = vtruncate l i
  end.

Lemma place_entries_shape at_ es p :
  ∃ trunc from, place_entries at_ es p =
    {| p with log := place_log at_ es (log p);
              pending_truncate_from := trunc; pending_persist_log_from := from |}.
Proof.
  revert at_ p. induction es as [|en es IH]; intros at_ p; simpl.
  { by exists (pending_truncate_from p), (pending_persist_log_from p). }
  destruct (vget (log p) at_) as [old|].
  - destruct (negb _).
    + match goal with |- context [place_entries _ _ ?q] => destruct (IH (at_ + 1)%N q) as (tr & fr & ->) end.
      by exists tr, fr.
    + destruct (IH (at_ + 1)%N p) as (tr & fr & ->). by exists tr, fr.
  - match goal with |- context [place_entries _ _ ?q] => destruct (IH (at_ + 1)%N q) as (tr & fr & ->) end.
    by exists tr, fr.
Qed.

(** Once something has been appended past the stored prefix, the loop only
    pushes. *)
Lemma place_entries_append at_ es p a :
  at_ = vlen (log p) → pending_persist_log_from p = Some a →
  place_entries at_ es p = {| p with log := log p ++ es |}.
Proof.
  revert at_ p. induction es as [|en es IH]; intros at_ p -> Ha; simpl.
  { by rewrite app_nil_r. }
  rewrite (proj2 (vget_None _ _)) by lia. rewrite Ha. rewrite IH; simpl.
  - by rewrite <- app_assoc.
  - rewrite vlen_app. done.
  - done.
Qed.

Lemma place_entries_sync at_ es p :
  pending_truncate_from p = None → pending_persist_log_from p = None →
  (at_ ≤ vlen (log p))%N →
  let p1 := place_entries at_ es p in
  log_sync (log p) (log p1) (pending_truncate_from p1) (pending_persist_log_from p1) ∧
  (at_ + vlen es ≤ vlen (log p1))%N ∧
  (p1 = p ∨ vlen (log p1) = (at_ + vlen es)%N).
Proof.
  revert at_. induction es as [|en es IH]; intros at_ Htr Hfr Hat; simpl.
  { rewrite Htr, Hfr. unfold vlen in *; simpl. split_and!; [done|lia|by left]. }
  destruct (vget (log p) at_) as [old|] eqn:Hg.
  - pose proof (vget_Some_lt _ _ _ Hg) as Hlt. destruct (negb _) eqn:Hne; breflect.
    + erewrite place_entries_append; simpl.
      2: { rewrite vlen_app, vlen_truncate. unfold vlen in *; simpl. lia. }
      2: { by rewrite Hfr. }
      rewrite Hfr, !vlen_app, vlen_truncate. split_and!.
      * done.
      * lia.
      * unfold vlen in *; simpl. lia.
      * unfold vtruncate. rewrite <- app_assoc, take_app_le by (rewrite length_take; unfold vlen in *; lia).
        rewrite take_take. f_equal. lia.
      * exists old, en. split_and!; [done| |done].
        assert (vlen (vtruncate (log p) at_) = at_) as Hv by (rewrite vlen_truncate; lia).
        rewrite vget_app_l by (rewrite vlen_app; unfold vlen in *; simpl; lia).
        rewrite <- Hv at 2. apply vget_snoc.
      * unfold vlen in *; simpl; lia.
      * right. unfold vlen in *; simpl. lia.
    + destruct (IH (at_ + 1)%N Htr Hfr) as (? & Hb & Hc); [lia|].
      split_and!; [done|unfold vlen in *; simpl; lia|].
      destruct Hc as [Hc|Hc]; [by left|right; rewrite Hc; unfold vlen; simpl; lia].
  - apply vget_None in Hg.
    erewrite place_entries_append; simpl.
    2: { rewrite vlen_app. unfold vlen in *; simpl. lia. }
    2: { by rewrite Hfr. }
    rewrite Hfr, Htr, !vlen_app. split; [split|split].
    + done.
    + eexists. by rewrite <- app_assoc.
    + unfold vlen in *. simpl. lia.
    + right. unfold vlen in *. simpl. lia.
Qed.

(** The pending truncation and append of a whole accepted AppendEntries. *)
Lemma truncate_suffix_sync (l : list (LogEntry V)) last p :
  log_sync l (log p) (pending_truncate_from p) (pending_persist_log_from p) →
  (pending_truncate_from p = None ∧ pending_persist_log_from p = None) ∨
    (vlen (log p) ≤ last + 1)%N →
  let p1 := truncate_suffix last p in
  log_sync l (log p1) (pending_truncate_from p1) (pending_persist_log_from p1).
Proof.
  intros Hs Hor. unfold truncate_suffix.
  destruct (_ <? _)%N eqn:Hlt; breflect; simpl; [|done].
  destruct Hor as [[Htr Hfr]|]; [|lia]. rewrite Htr, Hfr in *. simpl in *. by rewrite Hs.
Qed.

Lemma truncate_suffix_shape last p :
  ∃ tr, truncate_suffix last p =
    {| p with log := vtruncate (log p) (last + 1); pending_truncate_from := tr |}.
Proof.
  unfold truncate_suffix. destruct (_ <? _)%N eqn:Hlt; breflect; [by eexists|].
  exists (pending_truncate_from p). rewrite <- mem_truncate_eq. unfold mem_truncate.
  by rewrite (proj2 (N.ltb_ge _ _) Hlt).
Qed.

Lemma advance_follower_commit_shape lc mi p p' :
  advance_follower_commit lc mi p = Some p' →
  ∃ ds la ci b, p' = {| p with pending_decisions := pending_decisions p ++ ds;
    last_applied := la; commit_index := ci; pending_persist_commit_index := b |}.
Proof.
  unfold advance_follower_commit. intros Ha.
  assert (p' = p → ∃ ds la ci b, p' = {| p with pending_decisions := pending_decisions p ++ ds;
    last_applied := la; commit_index := ci; pending_persist_commit_index := b |}) as Hid.
  { intros ->. eexists [], _, _, _. rewrite app_nil_r. done. }
  destruct lc as [lc|], mi as [mi|]; try (injection Ha as <-; eauto).
  destruct (is_none_or _ _); [|injection Ha as <-; eauto].
  apply apply_committed_shape in Ha as (ds & la & -> & _). by exists ds, la, (Some (N.min lc mi)), true.
Qed.
End shapes.

(** ** Replication brings a follower's log in line with the leader's

    [ob] is what an observer sees of an entry: its term and (part of) its
    value. The lists compared are the observed logs. *)
Section replication.
Context {V St U : Type} (ob : LogEntry V → N * U).
Hypothesis ob_term : ∀ en, (ob en).1 = term en.
Implicit Types (l es : list (LogEntry V)) (L : list (N * U)).

(** Log matching between a log and a list: an index with equal terms has
    equal prefixes. *)
Definition matches (l L : list (N * U)) : Prop :=
  ∀ i x y, l !! i = Some x → L !! i = Some y → x.1 = y.1 → take (S i) l = take (S i) L.

Lemma take_matches L k : matches (take k L) L.
Proof.
  intros i x y Hx _ _. rewrite take_take. apply lookup_lt_Some in Hx.
  rewrite length_take in Hx. f_equal. lia.
Qed.

Lemma take_snoc_drop L k x : drop k L = x :: drop (S k) L → take k L ++ [x] = take (S k) L.
Proof.
  intros Hd. assert (L !! k = Some x) as Hk.
  { rewrite <- (Nat.add_0_r k), <- lookup_drop, Hd. done. }
  by rewrite (take_S_r _ _ _ Hk).
Qed.

Lemma map_ob_take n l : ob <$> take n l = take n (ob <$> l).
Proof. apply fmap_take. Qed.

Lemma place_log_matches es : ∀ (k : nat) l L,
  k ≤ length l →
  take k (ob <$> l) = take k L →
  ob <$> es = take (length es) (drop k L) →
  matches (ob <$> l) L →
  let l1 := place_log (N.of_nat k) es l in
  take (k + length es) (ob <$> l1) = take (k + length es) L.
Proof.
  induction es as [|en es IH]; intros k l L Hk Htake Hes Hm; simpl.
  { by rewrite Nat.add_0_r. }
  assert (drop k L = ob en :: drop (S k) L ∧ ob <$> es = take (length es) (drop (S k) L)) as [Hd Hes'].
  { simpl in Hes. destruct (drop k L) as [|y D] eqn:HD; [done|].
    assert (drop (S k) L = D) as HD'.
    { rewrite <- Nat.add_1_r, <- drop_drop. by rewrite HD. }
    rewrite HD'. simpl in Hes. by simplify_eq/=. }
  assert (L !! k = Some (ob en)) as HLk.
  { rewrite <- (Nat.add_0_r k), <- lookup_drop, Hd. done. }
  replace (k + S (length es)) with (S k + length es) by lia.
  replace (N.of_nat k + 1)%N with (N.of_nat (S k)) by lia.
  assert (∀ l', ob <$> l' = take (S k) L →
    take (S k + length es) (ob <$> place_log (N.of_nat (S k)) es l') = take (S k + length es) L) as Hpref.
  { intros l' Hl'. apply IH; [| |done|].
    - assert (length (ob <$> l') = S k) as Hlen.
      { rewrite Hl', length_take. apply lookup_lt_Some in HLk. lia. }
      rewrite length_fmap in Hlen. lia.
    - rewrite Hl', take_take. f_equal. lia.
    - rewrite Hl'. apply take_matches. }
  unfold vget. rewrite Nat2N.id. destruct (l !! k) as [old|] eqn:Hold.
  - destruct (negb _) eqn:Hn; breflect.
    + apply Hpref. unfold vtruncate. rewrite Nat2N.id, fmap_app. simpl.
      rewrite map_ob_take, Htake. by apply take_snoc_drop.
    + apply IH; [| |done|done].
      * apply lookup_lt_Some in Hold. lia.
      * apply (Hm k (ob old) (ob en)); [|done|by rewrite !ob_term].
        by rewrite list_lookup_fmap, Hold.
  - apply lookup_ge_None in Hold. apply Hpref. rewrite fmap_app. simpl.
    rewrite <- (take_ge (ob <$> l) k) by (rewrite length_fmap; lia).
    rewrite Htake. by apply take_snoc_drop.
Qed.

(** The observed log after an accepted AppendEntries that carries the slice
    of [L] from [start_of prev] on, [n] entries past the start: it is the
    corresponding prefix of [L]. *)
Lemma ae_log_spec prev es l L :
  (start_of prev ≤ vlen l)%N →
  take (N.to_nat (start_of prev)) (ob <$> l) = take (N.to_nat (start_of prev)) L →
  ob <$> es = take (length es) (drop (N.to_nat (start_of prev)) L) →
  matches (ob <$> l) L →
  (verified_index prev (vlen es) = None ∧ ae_log prev es l = l) ∨
  (∃ last, verified_index prev (vlen es) = Some last ∧
     (last + 1 = start_of prev + vlen es)%N ∧
     ob <$> ae_log prev es l = take (N.to_nat (start_of prev + vlen es)) L).
Proof.
  intros Hk Htake Hes Hm.
  pose proof (place_log_matches es (N.to_nat (start_of prev)) l L) as Hp. simpl in Hp.
  rewrite N2Nat.id in Hp. unfold vlen in *.
  assert (∀ last, (last + 1 = start_of prev + vlen es)%N →
    ob <$> vtruncate (place_log (start_of prev) es l) (last + 1) =
    take (N.to_nat (start_of prev + vlen es)) L) as Hlast.
  { intros last Hl. unfold vtruncate. rewrite map_ob_take, Hl. unfold vlen.
    replace (N.to_nat (start_of prev + N.of_nat (length es)))
      with (N.to_nat (start_of prev) + length es) by lia.
    apply Hp; [lia|done..]. }
  unfold ae_log. destruct prev as [i|]; simpl in *.
  - right. eexists. split_and!; [done|lia|]. apply Hlast. unfold vlen. lia.
  - destruct (_ =? _)%N eqn:E; breflect.
    + left. split; [done|]. by destruct es.
    + right. eexists. split_and!; [done|lia|]. apply Hlast. unfold vlen. lia.
Qed.
End replication.
