(* ===== verification/RaftEvents.v ===== *)
(** * Raft: the events of a node

    The three entry points the event loop drives ([propose],
    [handle_message], [on_tick]) as one function [run_event], and what one
    event can do to the term, the vote, the role, the log, the persistence
    intent and the outgoing messages of a node. These lemmas are the only
    facts about the handlers that the network proofs use. *)

From S2P Require Import Prelude Types Storage Raft RaftLocal.

Inductive Event (V : Type) :=
| EvPropose (v : V)
| EvReceive (from : NodeId) (msg : RaftMessage V)
| EvTick (now : Instant).
Arguments EvPropose {V}. Arguments EvReceive {V}. Arguments EvTick {V}.

Definition run_event {V St} (e : Env) (ev : Event V) (p : RaftProtocol V St)
    : option (RaftProtocol V St * list (Outgoing (RaftMessage V))) :=
  match ev with
  | EvPropose v => propose e v p
  | EvReceive from msg => handle_message e from msg p
  | EvTick now => on_tick e now p
  end.

Section events.
Context {V St : Type}.
Abbreviation RP := (RaftProtocol V St).
Abbreviation Out := (list (Outgoing (RaftMessage V))).
Implicit Types (p : RP) (out : Out).

(** An AppendEntries of a leader carries the whole tail of its log from the
    entry after [prev] on. *)
Definition ae_slice (L : list (LogEntry V)) (prev : option N) (pt : N)
    (es : list (LogEntry V)) : Prop :=
  es = drop (N.to_nat (start_of prev)) L ∧ (start_of prev ≤ vlen L)%N ∧
  ∀ i, prev = Some i → ∃ en, vget L i = Some en ∧ term en = pt.

(** What a message sent by an event says about the state after it. *)
Definition out_ok (p1 : RP) (o : Outgoing (RaftMessage V)) : Prop :=
  match message o with
  | RequestVoteResponse t true =>
      t = current_term p1 ∧ ∃ c, target o = Peer c ∧ voted_for p1 = Some c
  | RequestVote t c li lt =>
      t = current_term p1 ∧ c = node_id p1 ∧ role p1 = Candidate ∧
      li = last_log_index p1 ∧ lt = last_log_term p1
  | AppendEntries t l prev pt es lc =>
      t = current_term p1 ∧ l = node_id p1 ∧ role p1 = Leader ∧
      ae_slice (log p1) prev pt es ∧ lc = commit_index p1
  | _ => True
  end.

(** Fields no event changes. *)
Definition static (p p1 : RP) : Prop :=
  node_id p1 = node_id p ∧ total_nodes p1 = total_nodes p ∧
  config p1 = config p ∧ storage p1 = storage p.

#[global] Instance static_preorder : PreOrder static.
Proof. split; [done|]. unfold static. intros ???. naive_solver congruence. Qed.

(** ** Events of a leader *)
Record leader_step (p : RP) (news : list (LogEntry V)) (p1 : RP) (out : Out) : Prop := {
  ls_static : static p p1;
  ls_term : current_term p1 = current_term p;
  ls_vote : voted_for p1 = voted_for p;
  ls_role : role p1 = Leader;
  ls_log : log p1 = log p ++ news;
  ls_news : Forall (λ en, term en = current_term p) news;
  ls_trunc : pending_truncate_from p1 = pending_truncate_from p;
  ls_from : pending_persist_log_from p = None →
    pending_persist_log_from p1 =
      match news with [] => None | _ => Some (vlen (log p)) end;
  ls_pterm : pending_persist_term p1 = pending_persist_term p;
  ls_pvote : pending_persist_voted_for p1 = pending_persist_voted_for p;
  ls_out : Forall (out_ok p1) out;
}.

Lemma heartbeat_slice p : ae_slice (log p) (last_log_index p) (last_log_term p) [].
Proof.
  unfold ae_slice, last_log_index, last_log_term, start_of, vlen.
  destruct (log p) as [|x l _] using rev_ind; [done|].
  assert (vlast_index (l ++ [x]) = Some (N.of_nat (length l))) as ->.
  { apply vlast_index_Some. unfold vlen. rewrite length_app; simpl; lia. }
  rewrite last_snoc, length_app. simpl. split_and!.
  - rewrite drop_ge; [done|]. rewrite length_app; simpl; lia.
  - lia.
  - intros i [= <-]. exists x. split; [|done]. apply vget_snoc.
Qed.

Lemma broadcast_heartbeat_step e p p1 out :
  broadcast_heartbeat e p = (p1, out) → role p = Leader → leader_step p [] p1 out.
Proof.
  intros [= <- <-] Hr. split; try done; simpl.
  - by rewrite app_nil_r.
  - apply Forall_singleton. unfold out_ok; simpl. split_and!; try done. apply heartbeat_slice.
Qed.

Lemma broadcast_with_entries_shape e l es p p1 out :
  log p = l ++ es → role p = Leader → broadcast_with_entries e es p = Some (p1, out) →
  p1 = {| p with last_heartbeat_sent := Some (env_now e) |} ∧ Forall (out_ok p1) out.
Proof.
  intros Hlog Hr Hb. unfold broadcast_with_entries in Hb. simpl in Hb.
  destruct (match _ with Some i => term <$> vget (log p) i | None => Some 0%N end)
    as [pt|] eqn:Hpt; [|done].
  injection Hb as <- <-. split; [done|]. apply Forall_singleton.
  unfold out_ok; simpl. split_and!; try done.
  rewrite Hlog in *. unfold ae_slice, vlen. case_bool_decide as Hl; rewrite length_app in *; simpl.
  - split_and!; [|lia|].
    + rewrite drop_app_length'; [done|lia].
    + intros i [= <-]. destruct (vget _ _) as [en|] eqn:Hen in Hpt; simplify_eq/=.
      exists en. split; [|done]. rewrite <- Hen. f_equal. unfold vlen. rewrite length_app. lia.
  - destruct l; [|simpl in *; lia]. split_and!; [by rewrite drop_0|lia|done].
Qed.

Lemma become_leader_step e p p1 out :
  become_leader e p = Some (p1, out) →
  leader_step p (map (mkEntry (current_term p)) (pending_proposals p)) p1 out.
Proof.
  unfold become_leader. intros Hb. destruct (pending_proposals p) as [|v vs] eqn:Hv; simpl in Hb.
  - apply (inj Some) in Hb. apply broadcast_heartbeat_step in Hb; [|done].
    destruct Hb. split; done.
  - destruct (try_advance_commit _) as [p2|] eqn:Ht in Hb; [|done].
    apply try_advance_shape in Ht as (ds & la & ci & b & -> & _). simpl in Hb.
    eapply broadcast_with_entries_shape in Hb as [-> Hout]; [|done|done].
    split; try done; simpl.
    + constructor; [done|]. apply Forall_map, Forall_true. done.
    + by intros ->.
Qed.

Lemma propose_leader_step e v p p1 out :
  role p = Leader → propose e v p = Some (p1, out) →
  leader_step p [mkEntry (current_term p) v] p1 out.
Proof.
  unfold propose. intros Hr Hb. rewrite Hr in Hb. simpl in Hb.
  destruct (try_advance_commit _) as [p2|] eqn:Ht in Hb; [|done]. simpl in Hb.
  apply try_advance_shape in Ht as (ds & la & ci & b & -> & _).
  eapply broadcast_with_entries_shape in Hb as [-> Hout]; [|done|done].
  split; try done; simpl; [by apply Forall_singleton|by intros ->].
Qed.

(** ** What one event does *)

(** Nothing waits to be persisted but possibly the term and the vote. *)
Definition log_clean (p : RP) : Prop :=
  pending_truncate_from p = None ∧ pending_persist_log_from p = None.
Definition clean (p : RP) : Prop :=
  log_clean p ∧ pending_persist_term p = false ∧ pending_persist_voted_for p = false ∧
  pending_persist_commit_index p = false.

(** Terms grow, a vote cast in a term stays, and a change is flagged for
    persistence. *)
Record tv_step (p p1 : RP) : Prop := {
  tv_term : (current_term p ≤ current_term p1)%N;
  tv_vote : current_term p1 = current_term p →
    ∀ c, voted_for p = Some c → voted_for p1 = Some c;
  tv_pterm : pending_persist_term p1 = false → current_term p1 = current_term p;
  tv_pvote : pending_persist_voted_for p1 = false → voted_for p1 = voted_for p;
  tv_mterm : pending_persist_term p = true → pending_persist_term p1 = true;
  tv_mvote : pending_persist_voted_for p = true → pending_persist_voted_for p1 = true;
}.

Inductive role_step (ev : Event V) (p p1 : RP) : Prop :=
| rs_follower : role p1 = Follower → role_step ev p p1
| rs_candidate :
    role p = Candidate → role p1 = Candidate → current_term p1 = current_term p →
    (votes_received p1 = votes_received p ∨
     ∃ from, ev = EvReceive from (RequestVoteResponse (current_term p) true) ∧
       votes_received p1 = {[ from ]} ∪ votes_received p) →
    role_step ev p p1
| rs_campaign :
    role p1 = Candidate → (current_term p < current_term p1)%N →
    voted_for p1 = Some (node_id p1) → votes_received p1 = {[ node_id p1 ]} →
    role_step ev p p1
| rs_leader :
    role p = Leader → role p1 = Leader → current_term p1 = current_term p →
    role_step ev p p1
| rs_elected from :
    role p = Candidate → role p1 = Leader → current_term p1 = current_term p →
    ev = EvReceive from (RequestVoteResponse (current_term p) true) →
    quorum p ≤ size ({[ from ]} ∪ votes_received p) →
    role_step ev p p1
| rs_alone :
    quorum p ≤ 1 → role p1 = Leader → (current_term p < current_term p1)%N →
    voted_for p1 = Some (node_id p1) → role_step ev p p1.

Inductive log_step (ev : Event V) (p p1 : RP) : Prop :=
| lg_same : log p1 = log p → log_clean p1 → log_step ev p p1
| lg_append news :
    role p1 = Leader → log p1 = log p ++ news → news ≠ [] →
    Forall (λ en, term en = current_term p1) news →
    pending_truncate_from p1 = None → pending_persist_log_from p1 = Some (vlen (log p)) →
    log_step ev p p1
| lg_replicate from l prev pt es lc :
    ev = EvReceive from (AppendEntries (current_term p1) l prev pt es lc) →
    role p1 = Follower → prev_ok p prev pt = true →
    log p1 = ae_log prev es (log p) →
    log_sync (log p) (log p1) (pending_truncate_from p1) (pending_persist_log_from p1) →
    log_step ev p p1.

Record event_spec (ev : Event V) (p p1 : RP) (out : Out) : Prop := {
  es_static : static p p1;
  es_tv : tv_step p p1;
  es_role : role_step ev p p1;
  es_log : log_step ev p p1;
  es_out : Forall (out_ok p1) out;
}.

Lemma tv_refl p : tv_step p p.
Proof. by split. Qed.

(** Leader steps, elections won. *)
Lemma leader_step_log ev p news p1 out :
  log_clean p → leader_step p news p1 out → log_step ev p p1.
Proof.
  intros [Htr Hfr] H. pose proof (ls_from _ _ _ _ H Hfr) as Hfr1. destruct news as [|en news].
  - apply lg_same; [by rewrite (ls_log _ _ _ _ H), app_nil_r|].
    split; [by rewrite (ls_trunc _ _ _ _ H)|done].
  - apply (lg_append _ _ _ (en :: news)); [apply H|apply H|done| | |done].
    + rewrite (ls_term _ _ _ _ H). apply H.
    + by rewrite (ls_trunc _ _ _ _ H).
Qed.

Lemma leader_step_tv p news p1 out : leader_step p news p1 out → tv_step p p1.
Proof.
  intros H. split; rewrite ?(ls_term _ _ _ _ H), ?(ls_vote _ _ _ _ H),
    ?(ls_pterm _ _ _ _ H), ?(ls_pvote _ _ _ _ H); done.
Qed.

Lemma propose_spec e v ev p p1 out :
  log_clean p → propose e v p = Some (p1, out) → event_spec ev p p1 out.
Proof.
  intros Hc Hp. destruct (role p) eqn:Hr.
  3: { apply propose_leader_step in Hp; [|done].
       split; [apply Hp|by eapply leader_step_tv| |by eapply leader_step_log|apply Hp].
       apply rs_leader; [done|apply Hp..]. }
  all: unfold propose in Hp; rewrite Hr in Hp; simpl in Hp;
    destruct (leader p); injection Hp as <- <-;
    (split; [done|done| |by apply lg_same|by repeat constructor]);
    [..]; first [by apply rs_follower | apply rs_candidate; try done; by left].
Qed.

(** An event that only changes bookkeeping. *)
Lemma quiet_spec ev p p1 out :
  static p p1 → current_term p1 = current_term p → voted_for p1 = voted_for p →
  role p1 = role p → log p1 = log p → votes_received p1 = votes_received p →
  log_clean p1 → pending_persist_term p1 = pending_persist_term p →
  pending_persist_voted_for p1 = pending_persist_voted_for p →
  Forall (out_ok p1) out → event_spec ev p p1 out.
Proof.
  intros Hs Ht Hv Hr Hl Hvr Hc Hpt Hpv Ho. split; [done| | |by apply lg_same|done].
  - split; rewrite ?Ht, ?Hv, ?Hpt, ?Hpv; done.
  - destruct (role p) eqn:E; [by apply rs_follower| |by apply rs_leader].
    apply rs_candidate; try done. by left.
Qed.

Lemma start_election_spec e ev p p1 out :
  log_clean p → start_election e p = Some (p1, out) → event_spec ev p p1 out.
Proof.
  intros Hc Hs. unfold start_election in Hs.
  destruct (u64_add _ _) as [t|] eqn:Ht in Hs; [|done].
  apply checked_add_Some in Ht as [-> _]. simpl in Hs.
  case_bool_decide as Hq.
  - change (quorum p ≤ size ({[ node_id p ]} : gset NodeId)) in Hq.
    rewrite size_singleton in Hq. apply become_leader_step in Hs as Hl. simpl in Hl. destruct Hl; simpl in *.
    split; [done| | | |done].
    + split; [lia|lia|..]; congruence.
    + apply rs_alone; [done|done|lia|].
      rewrite ls_vote0. f_equal. symmetry. apply ls_static0.
    + specialize (ls_from0 (proj2 Hc)). destruct Hc as [Htr Hfr].
      destruct (map _ (pending_proposals p)) eqn:Hm.
      * apply lg_same; [by rewrite ls_log0, app_nil_r|]. by split; congruence.
      * eapply lg_append; [done|done|done| | |done]; [|congruence].
        by rewrite ls_term0.
  - simpl in Hs. assert (∃ lost pend, p1 = {| p with
      current_term := (current_term p + 1)%N; voted_for := Some (node_id p);
      role := Candidate; leader := None;
      election_deadline := (env_now e + sample_election_timeout (config p) e)%N;
      votes_received := {[ node_id p ]};
      pending_persist_term := true; pending_persist_voted_for := true;
      lost_proposals := lost; pending_proposals := pend |} ∧
      out = [mkOut Broadcast (RequestVote (current_term p + 1)%N (node_id p)
              (last_log_index p) (last_log_term p))]) as (lost & pend & -> & ->).
    { destruct (is_candidate _); simpl in Hs; injection Hs as <- <-; by eexists _, _. }
    split; simpl; [done| | |by apply lg_same|].
    + split; simpl; [lia|lia|done..].
    + apply rs_campaign; simpl; try done; lia.
    + by repeat constructor.
Qed.

Lemma on_tick_spec e now ev p p1 out :
  log_clean p → on_tick e now p = Some (p1, out) → event_spec ev p p1 out.
Proof.
  intros Hc Ht. unfold on_tick in Ht. destruct (role p) eqn:Hr.
  3: { destruct (match last_heartbeat_sent p with Some _ => _ | None => _ end).
       - apply (inj Some) in Ht. apply broadcast_heartbeat_step in Ht; [|done].
         split; [apply Ht|by eapply leader_step_tv| |by eapply leader_step_log|apply Ht].
         apply rs_leader; [done|apply Ht..].
       - injection Ht as <- <-. by apply quiet_spec. }
  all: destruct (_ <=? _)%N;
    [by eapply start_election_spec|injection Ht as <- <-; by apply quiet_spec].
Qed.

Lemma handle_request_vote_spec e t c li lt ev p p1 out :
  log_clean p → handle_request_vote e t c li lt p = (p1, out) → event_spec ev p p1 out.
Proof.
  intros Hc. unfold handle_request_vote.
  destruct (_ <? _)%N; [intros [= <- <-]; apply quiet_spec; try done; by apply Forall_singleton|].
  destruct (negb (is_some_and _ _)) eqn:Hav; simpl.
  2: { intros [= <- <-]; apply quiet_spec; try done; by apply Forall_singleton. }
  destruct (candidate_log_at_least_as_up_to_date _ _ _); simpl.
  2: { intros [= <- <-]; apply quiet_spec; try done; by apply Forall_singleton. }
  intros [= <- <-]. split; simpl; [done| | |by apply lg_same|].
  - split; simpl; [lia| |done..]. intros _ c' Hc'. rewrite Hc' in Hav. simpl in Hav.
    breflect. congruence.
  - destruct (role p) eqn:Hr; [by apply rs_follower| |by apply rs_leader].
    apply rs_candidate; try done. by left.
  - apply Forall_singleton. unfold out_ok; simpl. eauto.
Qed.

Lemma handle_request_vote_response_spec e from t granted p p1 out :
  log_clean p → handle_request_vote_response e from t granted p = Some (p1, out) →
  event_spec (EvReceive from (RequestVoteResponse t granted)) p p1 out.
Proof.
  intros Hc Hh. unfold handle_request_vote_response in Hh.
  destruct (_ || _) eqn:Hg; [injection Hh as <- <-; by apply quiet_spec|].
  breflect. destruct (role p) eqn:Hr; try done. subst t.
  destruct granted; [|injection Hh as <- <-; by apply quiet_spec].
  case_bool_decide as Hq; simpl in *.
  - apply become_leader_step in Hh. simpl in Hh.
    assert (leader_step p (map (mkEntry (current_term p)) (pending_proposals p)) p1 out)
      as Hl by (destruct Hh; by split).
    split; [apply Hl|by eapply leader_step_tv| |by eapply leader_step_log|apply Hl].
    apply (rs_elected _ _ _ from); [done|apply Hl|apply Hl|done|exact Hq].
  - injection Hh as <- <-. split; simpl; [done|done| |by apply lg_same|done].
    apply rs_candidate; try done. right. by exists from.
Qed.

Lemma handle_append_entries_spec e from t l prev pt es lc p p1 out :
  log_clean p → (t ≤ current_term p)%N →
  handle_append_entries e from t l prev pt es lc p = Some (p1, out) →
  event_spec (EvReceive from (AppendEntries t l prev pt es lc)) p p1 out.
Proof.
  intros Hc Hle Hh. unfold handle_append_entries in Hh.
  destruct (_ <? _)%N eqn:Hlt.
  { injection Hh as <- <-. apply quiet_spec; try done. by apply Forall_singleton. }
  destruct (_ && _) eqn:Hl.
  { injection Hh as <- <-. apply quiet_spec; try done. by apply Forall_singleton. }
  breflect. assert (t = current_term p) as -> by lia. clear Hl Hle Hlt.
  destruct (negb _) eqn:Hprev; simpl in Hh.
  { destruct (conflict_hint _ _) as [hint|]; [|done]. injection Hh as <- <-.
    split; simpl; [done|done|by apply rs_follower|by apply lg_same|]. by apply Forall_singleton. }
  breflect. change (prev_ok p prev pt = true) in Hprev.
  set (q := {| p with role := Follower; leader := Some l;
    election_deadline := (env_now e + sample_election_timeout (config p) e)%N |}) in Hh.
  assert (start_of prev ≤ vlen (log p))%N as Hst.
  { unfold prev_ok in Hprev. destruct prev as [i|]; simpl; [|lia].
    destruct (vget (log p) i) eqn:Hg; [|done]. apply vget_Some_lt in Hg. lia. }
  pose proof (place_entries_sync (start_of prev) es q (proj1 Hc) (proj2 Hc) Hst) as (Hsync & Hge & Hor).
  pose proof (place_entries_shape (start_of prev) es q) as (tr & fr & Hshape).
  change (match prev with Some i => (i + 1)%N | None => 0%N end) with (start_of prev) in Hh.
  set (q1 := place_entries (start_of prev) es q) in *.
  set (q2 := match verified_index prev (vlen es) with
             | Some last => truncate_suffix last q1 | None => q1 end) in Hh.
  assert (log_sync (log q) (log q2) (pending_truncate_from q2) (pending_persist_log_from q2) ∧
    ∃ tr, q2 = {| q1 with log := ae_log prev es (log p); pending_truncate_from := tr |})
    as (Hsync2 & tr2 & Hq2).
  { subst q2. unfold ae_log. destruct (verified_index prev (vlen es)) as [last|] eqn:Hv.
    - split.
      + apply truncate_suffix_sync; [done|]. destruct Hor as [->|Hor]; [by left|right].
        rewrite Hor. unfold verified_index, start_of in *. destruct prev; simplify_eq; [lia|].
        destruct (_ =? _)%N eqn:E; breflect; simplify_eq. lia.
      + destruct (truncate_suffix_shape last q1) as [tr' ->]. exists tr'. by rewrite Hshape.
    - split; [done|]. exists (pending_truncate_from q1). by rewrite Hshape. }
  clearbody q2. destruct (advance_follower_commit _ _ _) as [q3|] eqn:Hadv; [|done].
  apply advance_follower_commit_shape in Hadv as (ds & la & ci & b & ->).
  rewrite Hshape in Hq2. subst q q2. simpl in *. injection Hh as <- <-.
  split; simpl; [done|done|by apply rs_follower| |].
  - by eapply lg_replicate.
  - constructor; [done|]. by apply Forall_map, Forall_true.
Qed.

Lemma backtrack_next_le p from ct ci : (backtrack_next p from ct ci ≤ vlen (log p))%N.
Proof. unfold backtrack_next. lia. Qed.

Lemma handle_append_entries_response_spec from t ok mi ct ci ev p p1 out :
  log_clean p → handle_append_entries_response from t ok mi ct ci p = Some (p1, out) →
  event_spec ev p p1 out.
Proof.
  intros Hc Hh. unfold handle_append_entries_response in Hh.
  destruct (_ || _) eqn:Hg; [injection Hh as <- <-; by apply quiet_spec|].
  breflect. destruct (role p) eqn:Hr; try done. subst t. destruct ok.
  - destruct mi as [m|]; [|injection Hh as <- <-; by apply quiet_spec].
    destruct (_ || _); [injection Hh as <- <-; by apply quiet_spec|].
    destruct (try_advance_commit _) as [q|] eqn:Ht; [|done].
    apply try_advance_shape in Ht as (ds & la & c & b & -> & _). simpl in Hh.
    injection Hh as <- <-. by apply quiet_spec.
  - pose proof (backtrack_next_le p from ct ci) as Hle. simpl in Hh.
    set (nn := backtrack_next p from ct ci) in *.
    destruct (match _ with Some i => term <$> vget (log p) i | None => Some 0%N end)
      as [pt|] eqn:Hpt; [|done].
    destruct (vslice_from _ _) as [es|] eqn:Hes; [|done]. simpl in Hh.
    apply vslice_from_Some in Hes as [_ ->]. injection Hh as <- <-.
    apply quiet_spec; try done. apply Forall_singleton. unfold out_ok; simpl.
    split_and!; try done. unfold ae_slice. destruct (nn =? 0)%N eqn:E; breflect.
    + rewrite E. split_and!; [done|simpl; lia|done].
    + simpl. replace (nn - 1 + 1)%N with nn by lia. split_and!; [done|lia|].
      intros i [= <-]. destruct (vget _ _) as [en|]; simplify_eq/=. eauto.
Qed.

Lemma handle_forward_spec e from v hops ev p p1 out :
  log_clean p → handle_forward e from v hops p = Some (p1, out) → event_spec ev p p1 out.
Proof.
  intros Hc Hh. unfold handle_forward in Hh. destruct (is_leader _); [by eapply propose_spec|].
  destruct (leader p) as [l|]; [|injection Hh as <- <-; by apply quiet_spec].
  case_bool_decide; [|injection Hh as <- <-; by apply quiet_spec].
  destruct (_ <=? _)%N; injection Hh as <- <-; apply quiet_spec; try done.
  by apply Forall_singleton.
Qed.


(** Handlers of messages never move to another term by themselves. *)
Lemma handler_role e from msg p p1 out :
  (∀ t, incoming_term msg = Some t → (t ≤ current_term p)%N) → incoming_term msg ≠ None →
  role p = Follower → handle_message e from msg p = Some (p1, out) → role p1 = Follower.
Proof.
  intros Hle Hin Hr Hh. unfold handle_message in Hh.
  assert (bump_term e msg p = p) as Hb.
  { unfold bump_term. destruct (incoming_term msg) as [t|]; [|done].
    specialize (Hle t eq_refl). by rewrite (proj2 (N.ltb_ge _ _) Hle). }
  rewrite Hb in Hh. clear Hb. destruct msg; simpl in *; try done.
  - unfold handle_request_vote in Hh. destruct (if (_ <? _)%N then _ else _);
      by injection Hh as <- <-.
  - unfold handle_request_vote_response in Hh. rewrite Hr in Hh. simpl in Hh.
    by injection Hh as <- <-.
  - unfold handle_append_entries in Hh. rewrite Hr, andb_false_r in Hh.
    destruct (_ <? _)%N; [by injection Hh as <- <-|]. destruct (negb _).
    { destruct (conflict_hint _ _); [|done]. by injection Hh as <- <-. }
    match type of Hh with context [place_entries ?a ?b ?c] =>
      destruct (place_entries_shape a b c) as (tr & fr & Hs); rewrite Hs in Hh end.
    destruct (verified_index _ _) as [last|].
    2: { destruct (advance_follower_commit _ _ _) as [q|] eqn:Ha; [|done].
         apply advance_follower_commit_shape in Ha as (? & ? & ? & ? & ->). simpl in Hh.
         by injection Hh as <- <-. }
    match type of Hh with context [truncate_suffix ?a ?b] =>
      destruct (truncate_suffix_shape a b) as (tr2 & Hs2); rewrite Hs2 in Hh end.
    simpl in Hh. destruct (advance_follower_commit _ _ _) as [q|] eqn:Ha; [|done].
    apply advance_follower_commit_shape in Ha as (? & ? & ? & ? & ->). simpl in Hh.
    by injection Hh as <- <-.
  - unfold handle_append_entries_response in Hh. rewrite Hr in Hh. simpl in Hh.
    by injection Hh as <- <-.
Qed.

Lemma become_follower_term e t l p :
  (current_term p <? t)%N = true → current_term (become_follower e t l p) = t.
Proof. intros E. unfold become_follower; simpl. by rewrite E. Qed.

Lemma handle_message_bump e from msg p :
  handle_message e from msg p = handle_message e from msg (bump_term e msg p).
Proof.
  assert (bump_term e msg (bump_term e msg p) = bump_term e msg p) as Hb.
  { unfold bump_term. destruct (incoming_term msg) as [t|]; [|done].
    destruct (current_term p <? t)%N eqn:E; [|by rewrite E].
    by rewrite become_follower_term, N.ltb_irrefl. }
  unfold handle_message. by rewrite Hb.
Qed.

Lemma handle_message_nobump e from msg p p1 out :
  (∀ t, incoming_term msg = Some t → (t ≤ current_term p)%N) → log_clean p →
  handle_message e from msg p = Some (p1, out) → event_spec (EvReceive from msg) p p1 out.
Proof.
  intros Hle Hc Hh. unfold handle_message in Hh.
  assert (bump_term e msg p = p) as Hb.
  { unfold bump_term. destruct (incoming_term msg) as [t|]; [|done].
    specialize (Hle t eq_refl). by rewrite (proj2 (N.ltb_ge _ _) Hle). }
  rewrite Hb in Hh. destruct msg; simpl in *.
  - apply (inj Some) in Hh. by eapply handle_request_vote_spec.
  - by eapply handle_request_vote_response_spec.
  - eapply handle_append_entries_spec; eauto.
  - by eapply handle_append_entries_response_spec.
  - by eapply handle_forward_spec.
Qed.

Lemma handle_message_spec e from msg p p1 out :
  log_clean p → handle_message e from msg p = Some (p1, out) →
  event_spec (EvReceive from msg) p p1 out.
Proof.
  intros Hc Hh. destruct (incoming_term msg) as [t|] eqn:Ht.
  2: { eapply handle_message_nobump; eauto. intros t. by rewrite Ht. }
  destruct (current_term p <? t)%N eqn:E.
  2: { eapply handle_message_nobump; eauto. intros t'. rewrite Ht. intros [= <-]. by breflect. }
  rewrite handle_message_bump in Hh. unfold bump_term in Hh. rewrite Ht, E in Hh.
  set (q := become_follower e t None p) in *.
  assert (∀ t', incoming_term msg = Some t' → (t' ≤ current_term q)%N) as Hle.
  { intros t'. rewrite Ht. intros [= <-]. subst q. by rewrite become_follower_term. }
  assert (role p1 = Follower) as Hr by (eapply handler_role; eauto; by rewrite Ht).
  apply handle_message_nobump in Hh; [|done|split; [apply Hc|done]].
  destruct Hh as [Hs Htv _ Hlog Ho]. pose proof (become_follower_term e t None p E) as Hct.
  fold q in Hct. breflect. destruct Htv as [Hmono _ _ _ Hmt Hmv].
  rewrite Hct in Hmono.
  assert (pending_persist_term q = true ∧ pending_persist_voted_for q = true) as [Hq1 Hq2].
  { subst q. unfold become_follower; simpl. by rewrite (proj2 (N.ltb_lt _ _) E). }
  split; [done| |by apply rs_follower| |done].
  - split; [lia|lia|..]; rewrite ?(Hmt Hq1), ?(Hmv Hq2); done.
  - destruct Hlog; [by apply lg_same|by eapply lg_append|by eapply lg_replicate].
Qed.

(** The specification of an event. *)
Lemma run_event_spec e ev p p1 out :
  log_clean p → run_event e ev p = Some (p1, out) → event_spec ev p p1 out.
Proof.
  destruct ev; simpl; [apply propose_spec|apply handle_message_spec|apply on_tick_spec].
Qed.
End events.
