(* ===== verification/RaftDurable.v ===== *)
(** * Raft: durability

    What [flush_persist] writes and in which order, that a flushed node and
    its storage agree, and what a crash between any two of those writes leaves
    on disk. *)

From S2P Require Import Prelude Types Storage Raft RaftLocal RaftEvents.

Section durable.
Context {V St : Type} `{RaftStorageSpec St V}.
Abbreviation RP := (RaftProtocol V St).
Implicit Types (p : RP).

Definition opt_list {A B} (f : A → B) (o : option A) : list B :=
  match o with Some x => [f x] | None => [] end.

(** The storage calls [flush_persist] makes, in order. *)
Definition intent_writes (p : RP) : list (Write V) :=
  (if pending_persist_term p then [WTerm (current_term p)] else []) ++
  (if pending_persist_voted_for p then [WVote (voted_for p)] else []) ++
  opt_list WTruncate (pending_truncate_from p) ++
  opt_list (λ a, WAppend (drop (N.to_nat a) (log p))) (pending_persist_log_from p) ++
  (if pending_persist_commit_index p then [WCommit (commit_index p)] else []).

(** The node once its intent has been drained. *)
Definition drained (p : RP) (s : St) : RP := {| p with
  pending_truncate_from := None; pending_persist_log_from := None;
  pending_persist_term := false; pending_persist_voted_for := false;
  pending_persist_commit_index := false; storage := s |}.

Lemma sbind_write_if {A} (o : option A) (f : A → StorageM St unit) (w : A → Write V)
    (k : StorageM St unit) ws s :
  (∀ x s, f x s = do_write (w x) s) → (∀ s, k s = do_writes ws s) →
  sbind (write_if o f) (λ _, k) s = do_writes (opt_list w o ++ ws) s.
Proof.
  intros Hf Hk. destruct o as [x|]; simpl; [|by rewrite <- Hk].
  unfold sbind. rewrite Hf. destruct (do_write _ _) as [s' [[]|er]]; [|done]. by rewrite Hk.
Qed.

Lemma flush_shape p p1 r :
  flush_persist p = Some (p1, r) →
  ∃ s, do_writes (intent_writes p) (storage p) = (s, r) ∧ p1 = drained p s.
Proof.
  intros Hf. unfold flush_persist in Hf. simpl in Hf.
  destruct (match pending_persist_log_from p with Some _ => _ | None => _ end)
    as [ta|] eqn:Hta; [|done]. simpl in Hf.
  assert (ta = (λ a, drop (N.to_nat a) (log p)) <$> pending_persist_log_from p) as ->.
  { destruct (pending_persist_log_from p) as [a|]; simpl in *; [|congruence].
    destruct (vslice_from _ _) as [es|] eqn:Hs; [|done]. simpl in Hta.
    apply vslice_from_Some in Hs as [_ ->]. congruence. }
  match type of Hf with (let '(s, r) := ?c in _) = _ => destruct c as [s r'] eqn:Hc end.
  injection Hf as <- <-. exists s. split; [|done]. rewrite <- Hc. unfold intent_writes.
  rewrite (sbind_write_if _ _ WTerm _
    (opt_list WVote (if pending_persist_voted_for p then Some (voted_for p) else None) ++
     opt_list WTruncate (pending_truncate_from p) ++
     opt_list WAppend ((λ a, drop (N.to_nat a) (log p)) <$> pending_persist_log_from p) ++
     opt_list WCommit (if pending_persist_commit_index p then Some (commit_index p) else None)));
    [|done|].
  - by destruct (pending_persist_term p), (pending_persist_voted_for p),
      (pending_persist_log_from p), (pending_persist_commit_index p).
  - intros s1. apply sbind_write_if; [done|]. intros s2. apply sbind_write_if; [done|].
    intros s3. apply sbind_write_if; [done|]. intros s4.
    destruct (pending_persist_commit_index p); simpl; [|done].
    unfold sbind. by destruct (save_commit_index _ _) as [? [[]|]].
Qed.

Lemma flush_total p :
  (∀ a, pending_persist_log_from p = Some a → (a ≤ vlen (log p))%N) →
  is_Some (flush_persist p).
Proof.
  intros Ha. unfold flush_persist. simpl.
  destruct (pending_persist_log_from p) as [a|]; simpl.
  - rewrite (proj2 (vslice_from_Some (log p) a _)) by eauto. simpl.
    match goal with |- context [let '(s, r) := ?c in _] => destruct c end. eauto.
  - match goal with |- context [let '(s, r) := ?c in _] => destruct c end. eauto.
Qed.

(** ** Memory and storage agree *)

Definition stored_log (l : list (LogEntry V)) : list (LogEntry V) := map (map_entry norm) l.

(** The durable state [d] mirrors the persistent fields of [p]. *)
Definition mirrors (d : RaftMemoryStorage V) (p : RP) : Prop :=
  m_term d = current_term p ∧ m_voted_for d = voted_for p ∧
  m_log d = stored_log (log p).

Lemma stored_truncate l i : vtruncate (stored_log l) i = stored_log (vtruncate l i).
Proof. unfold vtruncate, stored_log. by rewrite firstn_map. Qed.
Lemma stored_app l k : stored_log (l ++ k) = stored_log l ++ stored_log k.
Proof. apply map_app. Qed.
Lemma stored_len l : vlen (stored_log l) = vlen l.
Proof. unfold vlen, stored_log. by rewrite length_map. Qed.

(** Truncation then append turns the stored log into the log in memory. *)
Lemma log_sync_stored (l l1 : list (LogEntry V)) tr fr :
  log_sync l l1 tr fr →
  let d1 := match tr with Some i => vtruncate (stored_log l) i | None => stored_log l end in
  match fr with Some a => d1 ++ stored_log (drop (N.to_nat a) l1) | None => d1 end
  = stored_log l1.
Proof.
  unfold log_sync. destruct tr as [i|], fr as [a|]; simpl.
  - intros (-> & _ & _ & Ht & _). rewrite stored_truncate, <- Ht, <- stored_app.
    unfold vtruncate. by rewrite take_drop.
  - intros ->. by rewrite stored_truncate.
  - intros (-> & k & ->). rewrite <- stored_app. f_equal. f_equal.
    unfold vlen. rewrite Nat2N.id. by rewrite drop_app_length.
  - by intros ->.
Qed.

(** What a prefix of the writes can leave in the durable state. *)
Record crash_spec (p p1 : RP) (d : RaftMemoryStorage V) : Prop := {
  cs_tv : (m_term d = current_term p ∧ m_voted_for d = voted_for p) ∨
          (m_term d = current_term p1 ∧ m_voted_for d = voted_for p) ∨
          (m_term d = current_term p1 ∧ m_voted_for d = voted_for p1);
  cs_log : (∃ j, m_log d = take j (stored_log (log p))) ∨
           (m_log d = stored_log (log p1) ∧ m_term d = current_term p1 ∧
            m_voted_for d = voted_for p1);
}.

Lemma log_step_sync ev p p1 :
  log_step ev p p1 →
  log_sync (log p) (log p1) (pending_truncate_from p1) (pending_persist_log_from p1).
Proof.
  intros [Hl [Ht Hf]|news _ Hl _ _ Ht Hf|]; [..|done]; rewrite ?Ht, ?Hf; simpl; [done|].
  rewrite Hl. eauto.
Qed.

Lemma intent_writes_crash ev p p1 out k d :
  mirrors d p → event_spec ev p p1 out →
  crash_spec p p1 (spec_writes norm (take k (intent_writes p1)) d).
Proof.
  intros (Ht & Hv & Hl) Hes. pose proof (log_step_sync _ _ _ (es_log _ _ _ _ Hes)) as Hsync.
  pose proof (log_sync_stored _ _ _ _ Hsync) as Hst. simpl in Hst.
  pose proof (tv_pterm _ _ (es_tv _ _ _ _ Hes)) as Hpt.
  pose proof (tv_pvote _ _ (es_tv _ _ _ _ Hes)) as Hpv.
  assert (∃ j, m_log d = take j (stored_log (log p))) as Hl0.
  { exists (length (m_log d)). by rewrite <- Hl, take_ge. }
  assert (∀ i, ∃ j, vtruncate (m_log d) i = take j (stored_log (log p))) as Hl1.
  { intros i. exists (N.to_nat i). by rewrite Hl. }
  unfold intent_writes.
  destruct (pending_persist_term p1); [clear Hpt|specialize (Hpt eq_refl)];
  (destruct (pending_persist_voted_for p1); [clear Hpv|specialize (Hpv eq_refl)]);
  destruct (pending_truncate_from p1) as [i|], (pending_persist_log_from p1) as [a|],
    (pending_persist_commit_index p1);
  rewrite <- Hl in Hst; simpl in Hst;
  unfold stored_log in *;
  (destruct k as [|[|[|[|[|[|k]]]]]]; simpl;
   (split; simpl; first [solve [rewrite ?Ht, ?Hv, ?Hpt, ?Hpv; auto 6]
                        |solve [rewrite ?Hst, ?Ht, ?Hv, ?Hpt, ?Hpv; auto 6]])).
Qed.

Lemma intent_writes_mirrors ev p p1 out d :
  mirrors d p → event_spec ev p p1 out →
  mirrors (spec_writes norm (intent_writes p1) d) p1.
Proof.
  intros (Ht & Hv & Hl) Hes. pose proof (log_step_sync _ _ _ (es_log _ _ _ _ Hes)) as Hsync.
  pose proof (log_sync_stored _ _ _ _ Hsync) as Hst. simpl in Hst. rewrite <- Hl in Hst.
  pose proof (tv_pterm _ _ (es_tv _ _ _ _ Hes)) as Hpt.
  pose proof (tv_pvote _ _ (es_tv _ _ _ _ Hes)) as Hpv.
  unfold intent_writes, mirrors.
  destruct (pending_persist_term p1); [clear Hpt|specialize (Hpt eq_refl)];
  (destruct (pending_persist_voted_for p1); [clear Hpv|specialize (Hpv eq_refl)]);
  destruct (pending_truncate_from p1) as [i|], (pending_persist_log_from p1) as [a|],
    (pending_persist_commit_index p1); simpl in *; unfold stored_log in *; rewrite ?Hst, ?Ht, ?Hv, ?Hpt, ?Hpv; done.
Qed.

(** ** A torn flush in detail

    A prefix of the writes that is not all of them leaves the commit index
    and the decisions alone; the log changes only once the new term is
    stored, and then first by the pending truncation. *)
Record torn_spec (p p1 : RP) (d d1 : RaftMemoryStorage V) : Prop := {
  ts_commit : m_commit_index d1 = m_commit_index d;
  ts_decisions : m_decisions d1 = m_decisions d;
  ts_log : m_log d1 = stored_log (log p) ∨
    m_term d1 = current_term p1 ∧
    (m_log d1 = stored_log (log p1) ∨
     ∃ i, pending_truncate_from p1 = Some i ∧ m_log d1 = stored_log (vtruncate (log p) i));
}.

Lemma intent_writes_torn ev p p1 out k d :
  mirrors d p → event_spec ev p p1 out →
  let d1 := spec_writes norm (take k (intent_writes p1)) d in
  d1 = spec_writes norm (intent_writes p1) d ∨ torn_spec p p1 d d1.
Proof.
  intros (Ht & Hv & Hl) Hes. pose proof (log_step_sync _ _ _ (es_log _ _ _ _ Hes)) as Hsync.
  pose proof (log_sync_stored _ _ _ _ Hsync) as Hst. simpl in Hst.
  pose proof (tv_pterm _ _ (es_tv _ _ _ _ Hes)) as Hpt. unfold intent_writes.
  destruct (pending_persist_term p1); [clear Hpt|specialize (Hpt eq_refl)];
  destruct (pending_persist_voted_for p1),
    (pending_truncate_from p1) as [i|] eqn:Htr, (pending_persist_log_from p1) as [a|],
    (pending_persist_commit_index p1);
  rewrite <- Hl in Hst; simpl in Hst;
  (destruct k as [|[|[|[|[|[|k]]]]]]; simpl;
   first [by left
         |right; split; simpl; [done|done|];
          solve [by left
                |right; split; [congruence|left; unfold stored_log in *; congruence]
                |right; split; [congruence|right; rewrite Hl, stored_truncate; eauto]]]).
Qed.

(** The commit index and the decisions after a completed flush. *)
Lemma intent_writes_commit p1 d :
  let d1 := spec_writes norm (intent_writes p1) d in
  m_decisions d1 = m_decisions d ∧
  (m_commit_index d1 = m_commit_index d ∨ m_commit_index d1 = commit_index p1).
Proof.
  unfold intent_writes.
  destruct (pending_persist_term p1), (pending_persist_voted_for p1),
    (pending_truncate_from p1), (pending_persist_log_from p1),
    (pending_persist_commit_index p1); simpl; auto.
Qed.
End durable.
