(* ===== verification/RaftNet.v ===== *)
(** * Raft: a cluster over an unreliable network

    A cluster of nodes as a transition system. The network may lose,
    duplicate, delay and reorder messages: a packet once sent stays in
    [packets] and any packet may be delivered at any time, any number of times
    or never. A node may stop at any point, in particular between any two
    storage calls of an event, and restart from what its storage holds. *)

From S2P Require Import Prelude Types Network Storage Raft RaftLocal RaftEvents RaftDurable.

(** A node is running, or stopped with only its storage left. *)
Inductive NodeStatus (V St : Type) :=
| Up (p : RaftProtocol V St)
| Down (s : St).
Arguments Up {V St}. Arguments Down {V St}.

Record Net (V St : Type) := mkNet {
  nodes : gmap NodeId (NodeStatus V St);
  packets : list (Packet (RaftMessage V));
  delivered : list (NodeId * Decision V);
}.
Arguments mkNet {V St}. Arguments nodes {V St}. Arguments packets {V St}.
Arguments delivered {V St}.

Section net.
Context {V St : Type} `{RaftStorage St V}.
Context (cluster : gset NodeId) (cfg : RaftConfig).
Implicit Types (σ : Net V St) (p : RaftProtocol V St).

(** A message can be handled only if it was sent to the node. *)
Definition enabled (σ : Net V St) (n : NodeId) (ev : Event V) : Prop :=
  match ev with
  | EvReceive from msg => mkPacket from n msg ∈ packets σ
  | _ => True
  end.

Definition decision_writes (ds : list (Decision V)) : list (Write V) :=
  map (λ d, WDecision (d_slot d) (d_value d)) ds.

Inductive step (σ : Net V St) : Net V St → Prop :=
(** One iteration of the event loop: handle, flush, send, deliver. *)
| step_event n p e ev p1 out p2 p3 ds :
    nodes σ !! n = Some (Up p) → enabled σ n ev →
    run_event e ev p = Some (p1, out) →
    flush_persist p1 = Some (p2, Ok tt) →
    drain_decisions p2 = (p3, Ok ds) →
    step σ {| nodes := <[n := Up p3]> (nodes σ);
              packets := packets σ ++ packets_of cluster n out;
              delivered := delivered σ ++ map (pair n) ds |}
(** The node stops after [k] of the calls of [flush_persist]. *)
| step_crash_flushing n p e ev p1 out k s r :
    nodes σ !! n = Some (Up p) → enabled σ n ev →
    run_event e ev p = Some (p1, out) →
    do_writes (take k (intent_writes p1)) (storage p1) = (s, r) →
    step σ {| σ with nodes := <[n := Down s]> (nodes σ) |}
(** The node stops after sending, with [k] of its decisions saved. *)
| step_crash_deciding n p e ev p1 out p2 k s r :
    nodes σ !! n = Some (Up p) → enabled σ n ev →
    run_event e ev p = Some (p1, out) →
    flush_persist p1 = Some (p2, Ok tt) →
    do_writes (decision_writes (take k (pending_decisions p2))) (storage p2) = (s, r) →
    step σ {| nodes := <[n := Down s]> (nodes σ);
              packets := packets σ ++ packets_of cluster n out;
              delivered := delivered σ |}
(** The node stops between two events. *)
| step_crash n p :
    nodes σ !! n = Some (Up p) →
    step σ {| σ with nodes := <[n := Down (storage p)]> (nodes σ) |}
(** The event loop takes the lost proposals to propose them again. *)
| step_take_lost n p :
    nodes σ !! n = Some (Up p) →
    step σ {| σ with nodes := <[n := Up (take_lost_proposals p).1]> (nodes σ) |}
(** A restart: [RaftProtocol::new], then [recover]. *)
| step_restart n s e p0 p1 :
    nodes σ !! n = Some (Down s) →
    new e n (size cluster) cfg s = Some p0 →
    recover e p0 = Some (p1, Ok tt) →
    step σ {| σ with nodes := <[n := Up p1]> (nodes σ) |}.

End net.

Section init.
Context {V St : Type} `{RaftStorageSpec St V}.

(** All nodes stopped, with empty storage. *)
Definition initial (cluster : gset NodeId) (σ : Net V St) : Prop :=
  dom (nodes σ) = cluster ∧
  (∀ n st, nodes σ !! n = Some st → ∃ s, st = Down s ∧ view s = RaftMemoryStorage_new) ∧
  packets σ = [] ∧ delivered σ = [].

Definition reachable (cluster : gset NodeId) (cfg : RaftConfig) (σ : Net V St) : Prop :=
  ∃ σ0, initial cluster σ0 ∧ rtc (step cluster cfg) σ0 σ.

(** Facts on the persistent fields of a node's status. *)
Definition st_term (st : NodeStatus V St) : N :=
  match st with Up p => current_term p | Down s => m_term (view s) end.
Definition st_vote (st : NodeStatus V St) : option NodeId :=
  match st with Up p => voted_for p | Down s => m_voted_for (view s) end.
Definition st_log (st : NodeStatus V St) : list (LogEntry V) :=
  match st with Up p => log p | Down s => m_log (view s) end.
End init.
