(* ===== verification/RaftNetLemmas.v ===== *)
(** * Raft: network steps as changes of one node

    Every network step changes the status of one node. [step_change] reduces
    the steps of [RaftNet.v] to two kinds of change, in terms of the
    observable log of a node, with the facts every running node satisfies
    ([net_ok]): its identity, an empty persistence intent, and a storage that
    mirrors its term, vote and log. *)

From S2P Require Import Prelude Types Network Storage Raft RaftLocal RaftEvents RaftDurable.
From S2P Require Import RaftNet.

(** A cluster of fewer than two nodes has one node at most. *)
Lemma small_cluster_eq (cluster : gset NodeId) a b :
  ¬ 2 ≤ size cluster → a ∈ cluster → b ∈ cluster → a = b.
Proof.
  intros Hs Ha Hb. destruct (decide (a = b)) as [|Hne]; [done|]. destruct Hs.
  transitivity (size ({[a; b]} : gset NodeId)).
  - rewrite size_union by set_solver. by rewrite !size_singleton.
  - apply subseteq_size. set_solver.
Qed.

Section lemmas.
Context {V St U : Type} `{RaftStorageSpec St V}.
Context (obs : V → U).
Hypothesis obs_norm : ∀ v, obs (norm v) = obs v.
Context (cluster : gset NodeId) (cfg : RaftConfig).
Implicit Types (σ : Net V St) (p : RaftProtocol V St) (st : NodeStatus V St).

(** What an observer sees of an entry and of a node's log. *)
Definition ob (en : LogEntry V) : N * U := (term en, obs (value en)).
Definition olog (st : NodeStatus V St) : list (N * U) := ob <$> st_log st.

Lemma ob_term en : (ob en).1 = term en.
Proof. done. Qed.

Lemma ob_stored l : ob <$> stored_log l = ob <$> l.
Proof.
  unfold stored_log. change (map (map_entry norm) l) with (map_entry norm <$> l).
  rewrite <- list_fmap_compose. apply list_fmap_ext. intros i en _.
  unfold ob, compose; simpl. by rewrite obs_norm.
Qed.

(** ** Recovery *)
Lemma restore_state_shape e t vf l ds ci p p1 :
  restore_state e t vf l ds ci p = Some p1 →
  static p p1 ∧ current_term p1 = t ∧ voted_for p1 = vf ∧ log p1 = l ∧
  votes_received p1 = ∅ ∧ clean p1 ∧
  (role p1 = Follower ∨
   role p1 = Leader ∧ total_nodes p = 1 ∧ vf = Some (node_id p) ∧ (0 < t)%N).
Proof.
  intros Hr. unfold restore_state in Hr.
  apply apply_committed_shape in Hr as (dd & la & -> & _). simpl. split_and!; try done.
  destruct (bool_decide (total_nodes p = 1)) eqn:E1; [|by left].
  destruct (0 <? t)%N eqn:E2; [|by left].
  destruct (bool_decide (vf = _)) eqn:E3; [|by left]. breflect. right. done.
Qed.

(** A restarted node has the term, vote and log its storage holds. *)
Lemma recover_shape e n tot c s p p1 :
  new e n tot c s = Some p → recover e p = Some (p1, Ok tt) →
  node_id p1 = n ∧ total_nodes p1 = tot ∧ storage p1 = s ∧ clean p1 ∧
  current_term p1 = m_term (view s) ∧ voted_for p1 = m_voted_for (view s) ∧
  log p1 = m_log (view s) ∧
  (role p1 = Follower ∨ role p1 = Leader ∧ tot = 1 ∧ voted_for p1 = Some n).
Proof.
  unfold new. intros Hn Hr. destruct (RaftConfig_validate c); [|done].
  injection Hn as <-. unfold recover in Hr; simpl in Hr.
  destruct (load_term s) eqn:E1; [|done]. destruct (load_voted_for s) eqn:E2; [|done].
  destruct (load_log s) eqn:E3; [|done]. destruct (load_decisions s); [|done].
  destruct (load_commit_index s); [|done].
  apply load_term_ok in E1. apply load_voted_for_ok in E2. apply load_log_ok in E3.
  destruct (restore_state _ _ _ _ _ _ _) as [q|] eqn:Hq; [|done]. simpl in Hr.
  injection Hr as <-. apply restore_state_shape in Hq as (Hs & Ht & Hv & Hl & _ & Hc & Hrole).
  destruct Hs as (H1 & H2 & _ & H4). simpl in *.
  split_and!; try congruence; [apply Hc..|]. destruct Hrole as [?|(? & ? & ? & ?)]; [by left|right].
  split_and!; congruence.
Qed.

(** ** Saving decisions leaves term, vote and log alone *)
Lemma save_decisions_writes ds (s : St) :
  save_decisions ds s = do_writes (decision_writes ds) s.
Proof.
  revert s. induction ds as [|d ds IH]; intros s; [done|]. simpl.
  unfold sbind. destruct (save_decision _ _ _) as [s' [[]|]]; [apply IH|done].
Qed.

Definition same_core (d d1 : RaftMemoryStorage V) : Prop :=
  m_term d1 = m_term d ∧ m_voted_for d1 = m_voted_for d ∧ m_log d1 = m_log d ∧
  m_commit_index d1 = m_commit_index d.

Lemma decision_writes_core ds d :
  same_core d (spec_writes norm (decision_writes ds) d).
Proof.
  revert d. induction ds as [|x ds IH]; intros d; [done|]. simpl.
  destruct (IH (spec_write norm (WDecision (d_slot x) (d_value x)) d)) as (?&?&?&?). done.
Qed.

Lemma do_decision_writes_core ds (s s' : St) r :
  do_writes (decision_writes ds) s = (s', r) → same_core (view s) (view s').
Proof.
  destruct r as [[]|er].
  - intros ->%do_writes_ok. apply decision_writes_core.
  - intros (k & _ & ->)%do_writes_err. unfold decision_writes. rewrite firstn_map.
    apply decision_writes_core.
Qed.

Lemma drain_decisions_shape p p1 ds :
  drain_decisions p = (p1, Ok ds) →
  ds = pending_decisions p ∧ ∃ s, same_core (view (storage p)) (view s) ∧
    p1 = {| p with pending_decisions := []; storage := s |}.
Proof.
  unfold drain_decisions. simpl. destruct (save_decisions _ _) as [s r] eqn:Hs.
  rewrite save_decisions_writes in Hs. apply do_decision_writes_core in Hs.
  destruct r as [[]|]; [|done]. intros [= <- <-]. eauto.
Qed.

(** ** The invariant of single nodes *)
Definition node_ok (n : NodeId) (p : RaftProtocol V St) : Prop :=
  node_id p = n ∧ total_nodes p = size cluster ∧ clean p ∧ mirrors (view (storage p)) p.

(** A stored log holds values in the form storage keeps them. *)
Definition normal (d : RaftMemoryStorage V) : Prop := stored_log (m_log d) = m_log d.

Definition status_ok (n : NodeId) (st : NodeStatus V St) : Prop :=
  match st with Up p => node_ok n p | Down s => normal (view s) end.

Definition net_ok (σ : Net V St) : Prop :=
  dom (nodes σ) = cluster ∧ map_Forall status_ok (nodes σ).

Lemma stored_idem l : stored_log (stored_log l) = stored_log l.
Proof.
  unfold stored_log. rewrite map_map. apply map_ext. intros en.
  unfold map_entry; simpl. by rewrite norm_idem.
Qed.

Lemma mirrors_normal d p : mirrors d p → normal d.
Proof. intros (_ & _ & Hl). unfold normal. by rewrite Hl, stored_idem. Qed.

Lemma crash_normal p p1 d : crash_spec p p1 d → normal d.
Proof.
  unfold normal. intros [_ [[j Hl]|(Hl & _)]]; rewrite Hl; [|apply stored_idem].
  unfold stored_log at 1. rewrite <- firstn_map. f_equal. apply stored_idem.
Qed.

(** [q] runs in the state the event left in [p1]. *)
Definition runs_as (q p1 : RaftProtocol V St) : Prop :=
  current_term q = current_term p1 ∧ voted_for q = voted_for p1 ∧ log q = log p1 ∧
  role q = role p1 ∧ votes_received q = votes_received p1 ∧ commit_index q = commit_index p1.

(** What a node that handled an event keeps, if it still runs or if it
    stopped at some point of the flush: a term and vote of before or after,
    and a prefix of the log before or the log after. *)
Record kept (p p1 : RaftProtocol V St) (st1 : NodeStatus V St) : Prop := {
  k_tv : (st_term st1 = current_term p ∧ st_vote st1 = voted_for p) ∨
         (st_term st1 = current_term p1 ∧ st_vote st1 = voted_for p) ∨
         (st_term st1 = current_term p1 ∧ st_vote st1 = voted_for p1);
  k_log : (∃ j, olog st1 = take j (ob <$> log p)) ∨
          (olog st1 = ob <$> log p1 ∧ st_term st1 = current_term p1);
  k_up : ∀ q, st1 = Up q → runs_as q p1;
}.

Inductive change (σ : Net V St) (n : NodeId) (st st1 : NodeStatus V St)
    (new : list (Packet (RaftMessage V))) : Prop :=
(** An event was handled; its messages were sent only if its changes to term
    and vote are durable. *)
| ch_event p ev p1 out :
    st = Up p → node_ok n p → enabled σ n ev → event_spec ev p p1 out → kept p p1 st1 →
    (new = [] ∨ new = packets_of cluster n out ∧
       st_term st1 = current_term p1 ∧ st_vote st1 = voted_for p1) →
    change σ n st st1 new
(** Nothing persistent changed. *)
| ch_quiet :
    st_term st1 = st_term st → st_vote st1 = st_vote st → olog st1 = olog st →
    (∀ q, st1 = Up q →
       (∃ p, st = Up p ∧ runs_as q p) ∨ role q = Follower ∨
       (role q = Leader ∧ size cluster = 1)) →
    new = [] →
    change σ n st st1 new.

Lemma runs_as_drained p1 s : runs_as (drained p1 s) p1.
Proof. done. Qed.

(** A prefix of the flush, however it ends, leaves a state [crash_spec] allows. *)
Lemma partial_flush_spec ev p p1 out k s r :
  mirrors (view (storage p)) p → event_spec ev p p1 out →
  do_writes (take k (intent_writes p1)) (storage p1) = (s, r) →
  crash_spec p p1 (view s).
Proof.
  intros Hm Hes Hw. destruct (es_static _ _ _ _ Hes) as (_ & _ & _ & Hst). rewrite Hst in Hw.
  destruct r as [[]|er].
  - apply do_writes_ok in Hw as ->. by eapply intent_writes_crash.
  - apply do_writes_err in Hw as (k' & _ & ->). rewrite take_take.
    by eapply intent_writes_crash.
Qed.

(** A completed flush: the node is clean and its storage mirrors it. *)
Lemma flush_event_spec n ev p p1 out p2 :
  node_ok n p → event_spec ev p p1 out → flush_persist p1 = Some (p2, Ok tt) →
  ∃ s, p2 = drained p1 s ∧ mirrors (view s) p1 ∧ node_ok n (drained p1 s).
Proof.
  intros (Hid & Htot & _ & Hm) Hes Hf. apply flush_shape in Hf as (s & Hw & ->).
  destruct (es_static _ _ _ _ Hes) as (H1 & H2 & _ & H4). rewrite H4 in Hw.
  apply do_writes_ok in Hw. exists s. split; [done|].
  assert (mirrors (view s) p1) as Hms by (rewrite Hw; by eapply intent_writes_mirrors).
  split; [done|]. unfold node_ok; simpl. split_and!; try congruence; try done; apply Hms.
Qed.

Lemma mirrors_core d d1 p : same_core d d1 → mirrors d p → mirrors d1 p.
Proof. unfold same_core, mirrors. naive_solver congruence. Qed.

Lemma mirrors_down s p : mirrors (view s) p → olog (Down s) = ob <$> log p.
Proof. intros (_ & _ & Hl). unfold olog; simpl. by rewrite Hl, ob_stored. Qed.

Lemma crash_kept p p1 s : crash_spec p p1 (view s) → kept p p1 (Down s).
Proof.
  intros [Htv Hl]. split; [done| |done]. destruct Hl as [[j Hl]|(Hl & Ht & _)].
  - left. exists j. unfold olog; simpl. by rewrite Hl, fmap_take, ob_stored.
  - right. split; [|done]. unfold olog; simpl. by rewrite Hl, ob_stored.
Qed.

Lemma net_ok_update σ n st1 new dl :
  net_ok σ → n ∈ cluster → status_ok n st1 →
  net_ok (mkNet (<[n := st1]> (nodes σ)) new dl).
Proof.
  intros [Hd Hn] Hin Hq. split; simpl; [rewrite dom_insert_L; set_solver|].
  by apply map_Forall_insert_2.
Qed.

Lemma net_ok_in σ n st : net_ok σ → nodes σ !! n = Some st → n ∈ cluster.
Proof. intros [<- _] Hn. by eapply elem_of_dom_2. Qed.

(** The change one step makes. *)
Definition changes (σ σ' : Net V St) : Prop :=
  ∃ n st st1 new, nodes σ !! n = Some st ∧ nodes σ' = <[n := st1]> (nodes σ) ∧
    packets σ' = packets σ ++ new ∧ change σ n st st1 new.

Lemma step_change_event σ n p e ev p1 out p2 p3 ds dl :
  net_ok σ → nodes σ !! n = Some (Up p) → enabled σ n ev →
  run_event e ev p = Some (p1, out) → flush_persist p1 = Some (p2, Ok tt) →
  drain_decisions p2 = (p3, Ok ds) →
  let σ' := mkNet (<[n := Up p3]> (nodes σ)) (packets σ ++ packets_of cluster n out) dl in
  net_ok σ' ∧ changes σ σ'.
Proof.
  intros Hok Hn Hen Hrun Hfl Hdr. pose proof (net_ok_in _ _ _ Hok Hn) as Hin.
  pose proof (proj2 Hok n (Up p) Hn) as Hp. simpl in Hp. apply run_event_spec in Hrun; [|apply Hp].
  destruct (flush_event_spec _ _ _ _ _ _ Hp Hrun Hfl) as (s & -> & Hm & Hp2).
  apply drain_decisions_shape in Hdr as (_ & s' & Hc & ->). split.
  - apply net_ok_update; [done..|]. destruct Hp2 as (? & ? & ? & ?).
    split_and!; try done. by eapply mirrors_core.
  - eexists n, (Up p), _, _. split_and!; [done|simpl; done|simpl; done|].
    eapply ch_event; [done|done|done|done| |by right].
    split; [by right; right|by right|by intros q [= <-]].
Qed.

Lemma step_change_deciding σ n p e ev p1 out p2 k s r dl :
  net_ok σ → nodes σ !! n = Some (Up p) → enabled σ n ev →
  run_event e ev p = Some (p1, out) → flush_persist p1 = Some (p2, Ok tt) →
  do_writes (decision_writes (take k (pending_decisions p2))) (storage p2) = (s, r) →
  let σ' := mkNet (<[n := Down s]> (nodes σ)) (packets σ ++ packets_of cluster n out) dl in
  net_ok σ' ∧ changes σ σ'.
Proof.
  intros Hok Hn Hen Hrun Hfl Hw. pose proof (net_ok_in _ _ _ Hok Hn) as Hin.
  pose proof (proj2 Hok n (Up p) Hn) as Hp. simpl in Hp. apply run_event_spec in Hrun; [|apply Hp].
  destruct (flush_event_spec _ _ _ _ _ _ Hp Hrun Hfl) as (s' & -> & Hm & Hp2).
  apply do_decision_writes_core in Hw.
  assert (mirrors (view s) p1) as Hms by (by eapply mirrors_core).
  split; [apply net_ok_update; [done..|by eapply mirrors_normal]|].
  eexists n, (Up p), (Down s), _. split_and!; [done|simpl; done|simpl; done|].
  eapply ch_event; [done|done|done|done| |right; split_and!; [done|apply Hms..]].
  split; [right; right; split; apply Hms|right; split; [by apply mirrors_down|apply Hms]|done].
Qed.

Lemma step_change σ σ' : net_ok σ → step cluster cfg σ σ' → net_ok σ' ∧ changes σ σ'.
Proof.
  intros Hok Hs. destruct Hs as [n p e ev p1 out p2 p3 ds Hn Hen Hrun Hfl Hdr
    |n p e ev p1 out k s r Hn Hen Hrun Hw|n p e ev p1 out p2 k s r Hn Hen Hrun Hfl Hw
    |n p Hn|n p Hn|n s e p0 p1 Hn Hnew Hrec];
    [by eapply step_change_event| |by eapply step_change_deciding|..];
    pose proof (net_ok_in _ _ _ Hok Hn) as Hin;
    pose proof (proj2 Hok n _ Hn) as Hp; simpl in Hp.
  - apply run_event_spec in Hrun; [|apply Hp].
    assert (crash_spec p p1 (view s)) as Hc
      by (eapply partial_flush_spec; [apply Hp|done|done]).
    split; [apply net_ok_update; [done..|by eapply crash_normal]|].
    eexists n, (Up p), (Down s), []. split_and!; [done|done|by rewrite app_nil_r|].
    eapply ch_event; [done|done|done|done|by apply crash_kept|by left].
  - destruct Hp as (_ & _ & _ & Hm).
    split; [apply net_ok_update; [done..|by eapply mirrors_normal]|].
    eexists n, (Up p), _, []. split_and!; [done|simpl; done|simpl; by rewrite app_nil_r|].
    apply ch_quiet; [apply Hm|apply Hm|by apply mirrors_down|done|done].
  - split; [by apply net_ok_update|].
    eexists n, (Up p), _, []. split_and!; [done|simpl; done|simpl; by rewrite app_nil_r|].
    apply ch_quiet; [done..| |done]. intros q [= <-]. left. by exists p.
  - destruct (recover_shape _ _ _ _ _ _ _ Hnew Hrec)
      as (H1 & H2 & H3 & H4 & H5 & H6 & H7 & H8). split.
    + apply net_ok_update; [done..|]. refine (conj H1 (conj H2 (conj H4 _))).
      rewrite H3. refine (conj (eq_sym H5) (conj (eq_sym H6) _)). by rewrite H7, Hp.
    + eexists n, (Down s), _, []. split_and!; [done|simpl; done|simpl; by rewrite app_nil_r|].
      apply ch_quiet; simpl; [done..|unfold olog; simpl; by rewrite H7| |done].
      intros q [= <-]. right. destruct H8 as [?|(? & ? & _)]; auto.
Qed.

Lemma initial_net_ok σ : initial cluster σ → net_ok σ.
Proof.
  intros (Hd & Hn & _). split; [done|]. intros n st Hst.
  destruct (Hn _ _ Hst) as (s & -> & Hv). unfold status_ok, normal. by rewrite Hv.
Qed.
End lemmas.
