(* ===== verification/RaftElection.v ===== *)
(** * Raft: at most one leader per term

    The election invariant. A ghost map records every vote ever cast, by term
    and voter; votes are durable before they are announced, so a vote recorded
    in the map is never contradicted, across crashes and restarts, and a leader
    is backed by a majority of recorded votes. *)

From S2P Require Import Prelude Types Network Storage Raft RaftLocal RaftEvents RaftDurable.
From S2P Require Import RaftNet RaftNetLemmas.

(** The votes ever cast: (term, voter) to candidate. *)
Abbreviation Votes := (gmap (N * NodeId) NodeId).

Section election.
Context {V St U : Type} `{RaftStorageSpec St V}.
Context (obs : V → U).
Context (cluster : gset NodeId).
Hypothesis two_nodes : 2 ≤ size cluster.
Implicit Types (σ : Net V St) (p : RaftProtocol V St) (st : NodeStatus V St) (h : Votes).

(** [n] has a majority of the votes of term [T]. *)
Definition won (h : Votes) (T : N) (n : NodeId) : Prop :=
  ∃ Q : gset NodeId, Q ⊆ cluster ∧ quorum_size (size cluster) ≤ size Q ∧
    ∀ v, v ∈ Q → h !! (T, v) = Some n.

Lemma won_unique h T a b : won h T a → won h T b → a = b.
Proof.
  intros (Q1 & Hs1 & Hq1 & H1) (Q2 & Hs2 & Hq2 & H2).
  destruct (quorum_intersect cluster Q1 Q2) as (v & Hv1 & Hv2); [done..|].
  specialize (H1 v Hv1). specialize (H2 v Hv2). congruence.
Qed.

Lemma won_mono h h' T a : h ⊆ h' → won h T a → won h' T a.
Proof.
  intros Hsub (Q & Hs & Hq & HQ). exists Q. split_and!; try done.
  intros v Hv. eapply lookup_weaken; eauto.
Qed.

Lemma quorum_two : ¬ quorum_size (size cluster) ≤ 1.
Proof.
  unfold quorum_size. pose proof (Nat.div_str_pos (size cluster) 2). lia.
Qed.

Record election_inv (h : Votes) (σ : Net V St) : Prop := {
  (** a recorded vote binds the voter's current state *)
  ei_bound T v c st : h !! (T, v) = Some c → nodes σ !! v = Some st →
    (T ≤ st_term st)%N ∧ (T = st_term st → st_vote st = Some c);
  ei_voter T v c : h !! (T, v) = Some c → v ∈ cluster;
  (** every current vote is recorded *)
  ei_vote v st c : nodes σ !! v = Some st → st_vote st = Some c →
    h !! (st_term st, v) = Some c;
  (** a granted vote on the wire is recorded *)
  ei_wire s d T : mkPacket s d (RequestVoteResponse T true) ∈ packets σ →
    h !! (T, s) = Some d;
  (** the votes a candidate has counted are recorded *)
  ei_counted n p v : nodes σ !! n = Some (Up p) → role p = Candidate →
    v ∈ votes_received p → h !! (current_term p, v) = Some n;
  ei_leader n p : nodes σ !! n = Some (Up p) → role p = Leader →
    won h (current_term p) n;
}.

(** Terms grow and votes stay within a term. *)
Definition binds (st st1 : NodeStatus V St) : Prop :=
  (st_term st ≤ st_term st1)%N ∧
  (st_term st1 = st_term st → ∀ c, st_vote st = Some c → st_vote st1 = Some c).

Lemma kept_binds ev p p1 out st1 :
  event_spec ev p p1 out → kept obs p p1 st1 → binds (Up p) st1.
Proof.
  intros Hes Hk. destruct (es_tv _ _ _ _ Hes) as [Ht Hv _ _ _ _].
  destruct (k_tv _ _ _ _ Hk) as [[E1 E2]|[[E1 E2]|[E1 E2]]]; split; simpl;
    rewrite E1, ?E2; try done; auto with lia.
Qed.

Lemma change_binds σ n st st1 new : change obs cluster σ n st st1 new → binds st st1.
Proof.
  intros [p ev p1 out -> _ _ Hes Hk _|Ht Hv _ _ _]; [by eapply kept_binds|].
  unfold binds. rewrite Ht, Hv. done.
Qed.

(** ** Recording the vote of the node that changed *)
Definition record_vote (h : Votes) (n : NodeId) (st1 : NodeStatus V St) : Votes :=
  match st_vote st1 with Some c => <[(st_term st1, n) := c]> h | None => h end.

Lemma record_vote_vote h n st1 c :
  st_vote st1 = Some c → record_vote h n st1 !! (st_term st1, n) = Some c.
Proof. unfold record_vote. intros ->. by rewrite lookup_insert_eq. Qed.

Lemma record_vote_lookup h n st1 T v c :
  record_vote h n st1 !! (T, v) = Some c →
  (v = n ∧ T = st_term st1 ∧ st_vote st1 = Some c) ∨ h !! (T, v) = Some c.
Proof.
  unfold record_vote. destruct (st_vote st1); [|by right].
  intros [[[= <- <-] ->]|[_ ?]]%lookup_insert_Some; auto.
Qed.

Lemma record_vote_sub h σ n st st1 :
  election_inv h σ → nodes σ !! n = Some st → binds st st1 → h ⊆ record_vote h n st1.
Proof.
  intros Hi Hn [Ht Hv]. unfold record_vote. destruct (st_vote st1) as [c|] eqn:Hc; [|done].
  apply map_subseteq_spec. intros [T v] c' Hl.
  destruct (decide ((T, v) = (st_term st1, n))) as [[= -> ->]|Hne].
  - destruct (ei_bound _ _ Hi _ _ _ _ Hl Hn) as [Hle Heq].
    assert (st_term st1 = st_term st) as E by lia.
    rewrite lookup_insert_eq, <- (Hv E c' (Heq E)). done.
  - by rewrite lookup_insert_ne.
Qed.

(** What an event does to the votes a candidate counted and to leadership. *)
Lemma event_candidate h h' σ n p ev p1 out :
  election_inv h σ → nodes σ !! n = Some (Up p) → node_ok cluster n p → enabled σ n ev →
  event_spec ev p p1 out → h ⊆ h' →
  (∀ c, voted_for p1 = Some c → h' !! (current_term p1, n) = Some c) →
  role p1 = Candidate → ∀ v, v ∈ votes_received p1 → h' !! (current_term p1, v) = Some n.
Proof.
  intros Hi Hn Hok Hen Hes Hsub Hh Hr v Hv.
  destruct (es_static _ _ _ _ Hes) as [Hid _].
  destruct (es_role _ _ _ _ Hes)
    as [|Hr0 _ Ht Hvr|_ _ Hvf Hvr| |? ? Hr1|? Hr1]; try congruence.
  - rewrite Ht. eapply lookup_weaken; [|done].
    destruct Hvr as [Hvr|(from & -> & Hvr)]; rewrite Hvr in Hv.
    { by eapply ei_counted. }
    apply elem_of_union in Hv as [->%elem_of_singleton|Hv]; [|by eapply ei_counted].
    by eapply ei_wire.
  - rewrite Hvr in Hv. apply elem_of_singleton in Hv as ->.
    destruct Hok as [Hid' _]. rewrite Hid, Hid' in *. by apply Hh.
Qed.

Lemma event_leader h h' σ n p ev p1 out :
  election_inv h σ → nodes σ !! n = Some (Up p) → node_ok cluster n p → enabled σ n ev →
  event_spec ev p p1 out → h ⊆ h' → role p1 = Leader → won h' (current_term p1) n.
Proof.
  intros Hi Hn (Hid & Htot & _) Hen Hes Hsub Hr1. apply (won_mono h); [done|].
  destruct (es_role _ _ _ _ Hes)
    as [|? Hr|Hr|Hr _ Ht|from Hr _ Ht -> Hq|Hq]; try congruence.
  - rewrite Ht. by eapply ei_leader.
  - rewrite Ht. unfold quorum in Hq. rewrite Htot in Hq.
    assert (∀ v, v ∈ {[from]} ∪ votes_received p → h !! (current_term p, v) = Some n) as Hall.
    { intros v [->%elem_of_singleton|Hv]%elem_of_union; [by eapply ei_wire|by eapply ei_counted]. }
    exists ({[from]} ∪ votes_received p). split_and!; [|done|done].
    intros v Hv. by eapply ei_voter, Hall.
  - unfold quorum in Hq. rewrite Htot in Hq. by destruct quorum_two.
Qed.

(** A granted vote that an event sends is the node's vote. *)
Lemma event_wire n p1 out s d T :
  Forall (out_ok p1) out →
  mkPacket s d (RequestVoteResponse T true) ∈ packets_of cluster n out →
  s = n ∧ T = current_term p1 ∧ voted_for p1 = Some d.
Proof.
  intros Hout (Hs & _ & _ & o & Ho & Hb & Htg)%packets_of_inv. simpl in *.
  rewrite Forall_forall in Hout. specialize (Hout _ Ho). unfold out_ok in Hout.
  rewrite <- Hb in Hout. destruct Hout as (-> & c & Hc & Hv).
  destruct Htg as [Htg|Htg]; rewrite Hc in Htg; simplify_eq. done.
Qed.

(** The node that changed: its counted votes and its leadership. *)
Lemma counted_step h σ n st q new v :
  let h' := record_vote h n (Up q) in
  election_inv h σ → nodes σ !! n = Some st → h ⊆ h' →
  change obs cluster σ n st (Up q) new →
  role q = Candidate → v ∈ votes_received q → h' !! (current_term q, v) = Some n.
Proof.
  intros h' Hi Hn Hsub Hch Hr Hv.
  destruct Hch as [p ev p1 out -> Hp Hen Hes Hk _|_ _ _ Hq _].
  - destruct (k_up _ _ _ _ Hk q eq_refl) as (E1 & E2 & E3 & E4 & E5 & _).
    rewrite E1. rewrite E4 in Hr. rewrite E5 in Hv.
    eapply (event_candidate h); eauto. intros c Hc. rewrite <- E1.
    apply (record_vote_vote h n (Up q)). simpl. congruence.
  - destruct (Hq q eq_refl) as [(p & -> & E1 & _ & _ & E4 & E5 & _)|[?|[? _]]]; [|congruence..].
    rewrite E1. rewrite E4 in Hr. rewrite E5 in Hv.
    eapply lookup_weaken; [by eapply ei_counted|done].
Qed.

Lemma led_step h h' σ n st q new :
  election_inv h σ → nodes σ !! n = Some st → h ⊆ h' →
  change obs cluster σ n st (Up q) new → role q = Leader → won h' (current_term q) n.
Proof.
  intros Hi Hn Hsub Hch Hr. destruct Hch as [p ev p1 out -> Hp Hen Hes Hk _|_ _ _ Hq _].
  - destruct (k_up _ _ _ _ Hk q eq_refl) as (E1 & _ & _ & E4 & _).
    rewrite E1. rewrite E4 in Hr. by eapply event_leader.
  - destruct (Hq q eq_refl) as [(p & -> & E1 & _ & _ & E4 & _)|[?|[_ ?]]]; [|congruence|lia].
    rewrite E1. rewrite E4 in Hr. eapply won_mono; [done|by eapply ei_leader].
Qed.

Lemma election_inv_step h σ σ' n st st1 new :
  net_ok cluster σ → election_inv h σ → nodes σ !! n = Some st →
  nodes σ' = <[n := st1]> (nodes σ) → packets σ' = packets σ ++ new →
  change obs cluster σ n st st1 new →
  h ⊆ record_vote h n st1 ∧ election_inv (record_vote h n st1) σ'.
Proof.
  intros Hok Hi Hn Hns Hps Hch. pose proof (change_binds _ _ _ _ _ Hch) as Hb.
  pose proof (record_vote_sub _ _ _ _ _ Hi Hn Hb) as Hsub. split; [done|].
  split.
  - intros T v c st' Hl Hv. rewrite Hns in Hv. apply record_vote_lookup in Hl.
    apply lookup_insert_Some in Hv as [[<- <-]|[Hne Hv]].
    + destruct Hl as [(_ & -> & ?)|Hl]; [done|].
      destruct (ei_bound _ _ Hi _ _ _ _ Hl Hn) as [Hle Heq], Hb as [Ht Hvt].
      split; [lia|]. intros ->. apply Hvt; [lia|]. apply Heq. lia.
    + destruct Hl as [(-> & _)|Hl]; [done|]. by eapply ei_bound.
  - intros T v c [(-> & _)|Hl]%record_vote_lookup; [|by eapply ei_voter].
    by eapply net_ok_in.
  - intros v st' c Hv Hc. rewrite Hns in Hv.
    apply lookup_insert_Some in Hv as [[<- <-]|[Hne Hv]]; [by apply record_vote_vote|].
    eapply lookup_weaken; [by eapply ei_vote|done].
  - intros s d T Hp. rewrite Hps in Hp. apply elem_of_app in Hp as [Hp|Hp].
    { eapply lookup_weaken; [by eapply ei_wire|done]. }
    destruct Hch as [p ev p1 out -> _ _ Hes _ [->|(-> & Ht & Hv)]|_ _ _ _ ->];
      [by apply not_elem_of_nil in Hp| |by apply not_elem_of_nil in Hp].
    apply (event_wire n p1) in Hp as (-> & -> & Hd); [|apply Hes].
    rewrite <- Ht. apply record_vote_vote. congruence.
  - intros m q v Hm Hr Hv. rewrite Hns in Hm.
    apply lookup_insert_Some in Hm as [[<- ->]|[Hne Hm]]; [by eapply counted_step|].
    eapply lookup_weaken; [by eapply ei_counted|done].
  - intros m q Hm Hr. rewrite Hns in Hm.
    apply lookup_insert_Some in Hm as [[<- ->]|[Hne Hm]]; [by eapply led_step|].
    eapply won_mono; [done|by eapply ei_leader].
Qed.

Lemma initial_election_inv σ : initial cluster σ → election_inv ∅ σ.
Proof.
  intros (Hd & Hn & Hp & _).
  split; intros *; rewrite ?lookup_empty, ?Hp, ?elem_of_nil; try done;
    intros Hst; destruct (Hn _ _ Hst) as (s & ? & Hv); simplify_eq/=.
  by rewrite Hv.
Qed.
End election.
