(* ===== verification/RaftLogs.v ===== *)
(** * Raft: log matching

    The replication invariant. A ghost map keeps, for every term that had a
    leader, the leader and its log; every log of the cluster agrees with the
    log of the leader that created its entries ([agrees]), so two logs that
    have an entry of the same term at the same index are equal up to it. The
    invariant survives reordered, duplicated and lost messages and crashes
    between any two writes. *)

From S2P Require Import Prelude Types Network Storage Raft RaftLocal RaftEvents RaftDurable.
From S2P Require Import RaftNet RaftNetLemmas RaftElection.

(** The log of each term's leader. *)
Abbreviation TermLogs U := (gmap N (NodeId * list (N * U))).

Section agrees.
Context {U : Type}.
Implicit Types (tl : TermLogs U) (l L k : list (N * U)).

(** Each entry, and all before it, come from the log of its term's leader. *)
Definition agrees (tl : TermLogs U) (l : list (N * U)) : Prop :=
  ∀ i x, l !! i = Some x →
    ∃ a L, tl !! x.1 = Some (a, L) ∧ take (S i) l = take (S i) L.

(** Leaders' logs only grow. *)
Definition extends (tl tl' : TermLogs U) : Prop :=
  ∀ T a L, tl !! T = Some (a, L) → ∃ k, tl' !! T = Some (a, L ++ k).

(** They grow by entries of their own term. *)
Definition grows (tl tl' : TermLogs U) : Prop :=
  ∀ T a L, tl !! T = Some (a, L) → ∃ new, tl' !! T = Some (a, L ++ new) ∧
    Forall (λ x, x.1 = T) new.

Lemma grows_refl tl : grows tl tl.
Proof. intros T a L HL. exists []. by rewrite app_nil_r. Qed.

Lemma grows_extends tl tl' : grows tl tl' → extends tl tl'.
Proof. intros Hg T a L HL. destruct (Hg _ _ _ HL) as (new & ? & _). eauto. Qed.

(** A prefix of [L] of full length is a prefix of every extension. *)
Lemma take_grow i l L k x :
  l !! i = Some x → take (S i) l = take (S i) L → take (S i) l = take (S i) (L ++ k).
Proof.
  intros Hx Ht. assert (S i ≤ length L).
  { apply lookup_lt_Some in Hx. apply (f_equal length) in Ht. rewrite !length_take in Ht. lia. }
  by rewrite take_app_le.
Qed.

Lemma agrees_mono tl tl' l : extends tl tl' → agrees tl l → agrees tl' l.
Proof.
  intros Hext Ha i x Hx. destruct (Ha _ _ Hx) as (a & L & HL & Ht).
  destruct (Hext _ _ _ HL) as [k Hk]. exists a, (L ++ k). split; [done|by eapply take_grow].
Qed.

Lemma agrees_nil tl : agrees tl [].
Proof. intros i x. by rewrite lookup_nil. Qed.

Lemma agrees_take tl l n : agrees tl l → agrees tl (take n l).
Proof.
  intros Ha i x Hx. apply lookup_take_Some in Hx as [Hx Hi].
  destruct (Ha _ _ Hx) as (a & L & HL & Ht). exists a, L. split; [done|].
  rewrite take_take, <- Ht. f_equal. lia.
Qed.

(** A leader appends entries of its own term. *)
Lemma agrees_app tl l k T a :
  agrees tl l → tl !! T = Some (a, l ++ k) → Forall (λ x, x.1 = T) k → agrees tl (l ++ k).
Proof.
  intros Ha HT Hk i x Hx. destruct (decide (i < length l)) as [Hi|Hi].
  - rewrite lookup_app_l in Hx by done. destruct (Ha _ _ Hx) as (b & L & HL & Ht).
    exists b, L. split; [done|]. rewrite take_app_le; [done|lia].
  - rewrite lookup_app_r in Hx by lia.
    rewrite Forall_lookup in Hk. rewrite (Hk _ _ Hx). eauto.
Qed.

(** A log that has an entry of term [T] at [i] and a log that has one of
    the same term at [i] or later are equal up to [i]. *)
Definition matches_upto l k : Prop :=
  ∀ i j x y, i ≤ j → l !! i = Some x → k !! j = Some y → x.1 = y.1 →
    take (S i) l = take (S i) k.

(** Two logs of the cluster match. *)
Lemma agrees_matches_upto tl l k : agrees tl l → agrees tl k → matches_upto l k.
Proof.
  intros Hl Hk i j x y Hij Hx Hy Hxy.
  destruct (Hl _ _ Hx) as (a & L & HL & ->), (Hk _ _ Hy) as (b & M & HM & Ht).
  rewrite Hxy, HM in HL. injection HL as -> ->.
  symmetry. eapply take_eq_mono; [|exact Ht]. lia.
Qed.

Lemma matches_upto_matches l k : matches_upto l k → matches l k.
Proof. intros Hm i x y Hx Hy. by apply (Hm i i x y). Qed.

Lemma agrees_matches tl l k : agrees tl l → agrees tl k → matches l k.
Proof. intros. apply matches_upto_matches. by eapply agrees_matches_upto. Qed.
End agrees.

Section logs.
Context {V St U : Type} `{RaftStorageSpec St V}.
Context (obs : V → U) (cluster : gset NodeId).
Hypothesis two_nodes : 2 ≤ size cluster.
Implicit Types (σ : Net V St) (p : RaftProtocol V St) (st : NodeStatus V St)
  (h : Votes) (tl : TermLogs U).

(** An AppendEntries carries a slice of the log of its term's leader. *)
Definition slice_of (L : list (N * U)) (prev : option N) (pt : N)
    (es : list (LogEntry V)) : Prop :=
  (start_of prev ≤ vlen L)%N ∧
  ob obs <$> es = take (length es) (drop (N.to_nat (start_of prev)) L) ∧
  ∀ i, prev = Some i → ∃ x, vget L i = Some x ∧ x.1 = pt.

Record logs_inv (h : Votes) (tl : TermLogs U) (σ : Net V St) : Prop := {
  li_won T a L : tl !! T = Some (a, L) → won cluster h T a;
  li_leader n p : nodes σ !! n = Some (Up p) → role p = Leader →
    tl !! current_term p = Some (n, olog obs (Up p));
  li_candidate n p L : nodes σ !! n = Some (Up p) → role p = Candidate →
    tl !! current_term p ≠ Some (n, L);
  li_term T a L st : tl !! T = Some (a, L) → nodes σ !! a = Some st → (T ≤ st_term st)%N;
  li_log n st : nodes σ !! n = Some st → agrees tl (olog obs st);
  li_past T a L : tl !! T = Some (a, L) → agrees tl L;
  li_wire s d T l prev pt es lc :
    mkPacket s d (AppendEntries T l prev pt es lc) ∈ packets σ →
    ∃ a L, tl !! T = Some (a, L) ∧ slice_of L prev pt es;
}.

Lemma slice_of_grow L k prev pt es : slice_of L prev pt es → slice_of (L ++ k) prev pt es.
Proof.
  intros (Hs & He & Hp). unfold slice_of. rewrite vlen_app. split_and!; [lia| |].
  - assert (length es ≤ length (drop (N.to_nat (start_of prev)) L)).
    { apply (f_equal length) in He. rewrite length_fmap, length_take in He. lia. }
    rewrite drop_app_le by (unfold vlen in Hs; lia). by rewrite take_app_le.
  - intros i Hi. destruct (Hp i Hi) as (x & Hx & Ht). exists x. split; [|done].
    rewrite vget_app_l; [done|by eapply vget_Some_lt].
Qed.

Lemma ae_slice_of l prev pt es : ae_slice l prev pt es → slice_of (ob obs <$> l) prev pt es.
Proof.
  intros (-> & Hs & Hp). unfold slice_of, vlen in *. rewrite length_fmap. split_and!; [done| |].
  - rewrite fmap_drop, take_ge; [done|]. by rewrite <- fmap_drop, length_fmap.
  - intros i Hi. destruct (Hp i Hi) as (en & Hen & <-). exists (ob obs en). split; [|done].
    unfold vget in *. by rewrite list_lookup_fmap, Hen.
Qed.

(** ** The log of a leader after an event *)
Definition record_log (tl : TermLogs U) (n : NodeId) (p1 : RaftProtocol V St) : TermLogs U :=
  if is_leader (role p1) then <[current_term p1 := (n, ob obs <$> log p1)]> tl else tl.

Lemma record_log_leader tl n p1 :
  role p1 = Leader → record_log tl n p1 !! current_term p1 = Some (n, ob obs <$> log p1).
Proof. unfold record_log. intros ->. simpl. by rewrite lookup_insert_eq. Qed.

Lemma record_log_lookup tl n p1 T a L :
  record_log tl n p1 !! T = Some (a, L) →
  (role p1 = Leader ∧ T = current_term p1 ∧ a = n ∧ L = ob obs <$> log p1) ∨
  tl !! T = Some (a, L).
Proof.
  unfold record_log. destruct (role p1); simpl; auto.
  intros [[<- [= <- <-]]|[_ ?]]%lookup_insert_Some; auto.
Qed.

(** A leader's event appends entries of its term to its log. *)
Lemma leader_log ev p p1 :
  role p1 = Leader → log_step ev p p1 →
  ∃ news, log p1 = log p ++ news ∧ Forall (λ en, term en = current_term p1) news.
Proof.
  intros Hr [Hl _|news _ Hl _ Hf _ _|? ? ? ? ? ? _ Hr']; [|eauto|congruence].
  exists []. by rewrite app_nil_r.
Qed.

(** ** One event of node [n] *)
Section event.
Context (h h' : Votes) (tl : TermLogs U) (σ : Net V St) (n : NodeId)
  (p p1 : RaftProtocol V St) (ev : Event V) (out : list (Outgoing (RaftMessage V))).
Hypothesis (Hei : election_inv cluster h σ) (Hli : logs_inv h tl σ) (Hsub : h ⊆ h').
Hypothesis (Hn : nodes σ !! n = Some (Up p)) (Hok : node_ok cluster n p).
Hypothesis (Hen : enabled σ n ev) (Hes : event_spec ev p p1 out).
Let tl' := record_log tl n p1.

Lemma event_grows : grows tl tl'.
Proof.
  subst tl'. unfold record_log. destruct (is_leader (role p1)) eqn:Hl; [|apply grows_refl].
  assert (role p1 = Leader) as Hr by (by destruct (role p1)).
  destruct (leader_log _ _ _ Hr (es_log _ _ _ _ Hes)) as (news & Hlog & Hnews).
  intros T a L HL. destruct (decide (T = current_term p1)) as [->|Hne].
  2: { exists []. by rewrite lookup_insert_ne, app_nil_r. }
  rewrite lookup_insert_eq.
  assert (won cluster h (current_term p1) n) as Hwon by (by eapply event_leader).
  pose proof (won_unique _ _ _ _ _ (li_won _ _ _ Hli _ _ _ HL) Hwon) as ->.
  destruct (es_role _ _ _ _ Hes)
    as [|? Hr'|Hr'|Hr0 _ Ht|from Hr0 _ Ht _ Hq|Hq]; try congruence.
  - pose proof HL as HL0. rewrite Ht, (li_leader _ _ _ Hli _ _ Hn Hr0) in HL0. injection HL0 as <-.
    exists (ob obs <$> news). split; [by rewrite Hlog, fmap_app|by apply Forall_fmap].
  - rewrite Ht in HL. by destruct (li_candidate _ _ _ Hli _ _ L Hn Hr0).
  - destruct Hok as (_ & Htot & _). unfold quorum in Hq. rewrite Htot in Hq.
    by destruct (quorum_two cluster two_nodes).
Qed.

Lemma event_extends : extends tl tl'.
Proof. apply grows_extends, event_grows. Qed.

Lemma event_agrees_old : agrees tl' (ob obs <$> log p).
Proof. eapply agrees_mono; [apply event_extends|]. by apply (li_log _ _ _ Hli n (Up p)). Qed.

(** A follower's log after an AppendEntries it accepted: a prefix of the
    leader's, or unchanged when nothing was verified. *)
Lemma replicate_prefix from l prev pt es lc :
  mkPacket from n (AppendEntries (current_term p1) l prev pt es lc) ∈ packets σ →
  prev_ok p prev pt = true →
  ∃ a L, tl !! current_term p1 = Some (a, L) ∧
    (verified_index prev (vlen es) = None ∧ ae_log prev es (log p) = log p ∨
     ∃ last, verified_index prev (vlen es) = Some last ∧
       (last + 1 = start_of prev + vlen es)%N ∧
       ob obs <$> ae_log prev es (log p) = take (N.to_nat (start_of prev + vlen es)) L).
Proof.
  intros Hpkt Hprev. destruct (li_wire _ _ _ Hli _ _ _ _ _ _ _ _ Hpkt)
    as (a & L & HL & Hs & He & Hp).
  pose proof (li_log _ _ _ Hli _ _ Hn) as Ha. pose proof (li_past _ _ _ Hli _ _ _ HL) as HaL.
  pose proof (agrees_matches _ _ _ Ha HaL) as Hm. unfold olog in Hm; simpl in Hm.
  assert ((start_of prev ≤ vlen (log p))%N ∧
    take (N.to_nat (start_of prev)) (ob obs <$> log p) =
    take (N.to_nat (start_of prev)) L) as [Hst Htk].
  { destruct prev as [i|]; simpl in *; [|split; [lia|done]].
    destruct (vget (log p) i) as [en|] eqn:Hen'; [|done]. breflect.
    destruct (Hp i eq_refl) as (x & Hx & Hxt).
    pose proof (vget_Some_lt _ _ _ Hen'). split; [lia|].
    replace (N.to_nat (i + 1)) with (S (N.to_nat i)) by lia.
    apply (Hm _ (ob obs en) x); [|done|simpl; congruence].
    unfold vget in Hen'. by rewrite list_lookup_fmap, Hen'. }
  exists a, L. split; [done|]. by apply (ae_log_spec (ob obs) (ob_term obs) prev es (log p) L).
Qed.

Lemma replicate_agrees from l prev pt es lc :
  mkPacket from n (AppendEntries (current_term p1) l prev pt es lc) ∈ packets σ →
  prev_ok p prev pt = true → agrees tl (ob obs <$> ae_log prev es (log p)).
Proof.
  intros Hpkt Hprev. destruct (replicate_prefix _ _ _ _ _ _ Hpkt Hprev)
    as (a & L & HL & [[_ ->]|(? & _ & _ & ->)]).
  - by apply (li_log _ _ _ Hli n (Up p)).
  - apply agrees_take. by eapply li_past.
Qed.

Lemma event_agrees_new : agrees tl' (ob obs <$> log p1).
Proof.
  destruct (es_log _ _ _ _ Hes) as [Hl _|news Hr Hl _ Hf _ _|from l prev pt es lc He _ Hprev Hl _].
  - rewrite Hl. apply event_agrees_old.
  - rewrite Hl, fmap_app. eapply agrees_app; [apply event_agrees_old| |].
    + rewrite <- fmap_app, <- Hl. by apply record_log_leader.
    + by apply Forall_fmap.
  - rewrite Hl. eapply agrees_mono; [apply event_extends|].
    pose proof Hen as Hpkt. rewrite He in Hpkt. by eapply replicate_agrees.
Qed.

Lemma event_agrees st1 : kept obs p p1 st1 → agrees tl' (olog obs st1).
Proof.
  intros Hk. destruct (k_log _ _ _ _ Hk) as [[j ->]|[-> _]]; [|apply event_agrees_new].
  apply agrees_take, event_agrees_old.
Qed.

Lemma event_li_wire d T l prev pt es lc s :
  mkPacket s d (AppendEntries T l prev pt es lc) ∈ packets_of cluster n out →
  ∃ a L, tl' !! T = Some (a, L) ∧ slice_of L prev pt es.
Proof.
  intros (_ & _ & _ & o & Ho & Hb & _)%packets_of_inv. simpl in Hb.
  pose proof (es_out _ _ _ _ Hes) as Hout. rewrite Forall_forall in Hout.
  specialize (Hout _ Ho). unfold out_ok in Hout. rewrite <- Hb in Hout.
  destruct Hout as (-> & _ & Hr & Hs & _). exists n, (ob obs <$> log p1).
  split; [by apply record_log_leader|by apply ae_slice_of].
Qed.

Lemma event_li_term st1 T a L :
  kept obs p p1 st1 → tl' !! T = Some (a, L) → a = n → (T ≤ st_term st1)%N.
Proof.
  intros Hk [(Hr & -> & _)|HL]%record_log_lookup ->.
  - assert (current_term p1 = current_term p) as Ht.
    { destruct (es_role _ _ _ _ Hes) as [| | | | |Hq]; try congruence.
      destruct Hok as (_ & Htot & _). unfold quorum in Hq. rewrite Htot in Hq.
      by destruct (quorum_two cluster two_nodes). }
    destruct (k_tv _ _ _ _ Hk) as [[-> _]|[[-> _]|[-> _]]]; lia.
  - pose proof (li_term _ _ _ Hli _ _ _ _ HL Hn) as Hle.
    destruct (kept_binds _ _ _ _ _ _ Hes Hk) as [Hle' _]. simpl in *. lia.
Qed.

Lemma event_li_candidate L :
  role p1 = Candidate → tl' !! current_term p1 ≠ Some (n, L).
Proof.
  intros Hr [(Hr' & _)|HL]%record_log_lookup; [congruence|].
  destruct (es_role _ _ _ _ Hes) as [|Hr0 _ Ht _|_ Hlt _ _| | |]; try congruence.
  - rewrite Ht in HL. by destruct (li_candidate _ _ _ Hli _ _ L Hn Hr0).
  - pose proof (li_term _ _ _ Hli _ _ _ _ HL Hn). simpl in *. lia.
Qed.

Lemma event_won T a L : tl' !! T = Some (a, L) → won cluster h' T a.
Proof.
  intros [(Hr & -> & -> & _)|HL]%record_log_lookup; [by eapply event_leader|].
  eapply won_mono; [done|by eapply li_won].
Qed.

Lemma event_logs_inv σ' st1 new :
  nodes σ' = <[n := st1]> (nodes σ) → packets σ' = packets σ ++ new →
  new = [] ∨ new = packets_of cluster n out → kept obs p p1 st1 →
  logs_inv h' tl' σ'.
Proof.
  intros Hns Hps Hnew Hk. pose proof event_extends as Hext. split.
  - apply event_won.
  - intros m q Hm Hr. rewrite Hns in Hm. apply lookup_insert_Some in Hm as [[<- ->]|[Hne Hm]].
    + destruct (k_up _ _ _ _ Hk q eq_refl) as (E1 & _ & E3 & E4 & _). rewrite E1, E4 in *.
      unfold olog; simpl. rewrite E3. by apply record_log_leader.
    + pose proof (li_leader _ _ _ Hli _ _ Hm Hr) as HL. subst tl'. unfold record_log.
      destruct (is_leader _) eqn:Hl; [|done]. rewrite lookup_insert_ne; [done|].
      intros Ht. destruct Hne. apply (won_unique cluster h' (current_term p1)).
      * eapply event_leader; eauto. by destruct (role p1).
      * rewrite Ht. eapply won_mono; [done|by eapply ei_leader].
  - intros m q L Hm Hr. rewrite Hns in Hm. apply lookup_insert_Some in Hm as [[<- ->]|[Hne Hm]].
    + destruct (k_up _ _ _ _ Hk q eq_refl) as (E1 & _ & _ & E4 & _). rewrite E1, E4 in *.
      by apply event_li_candidate.
    + intros [(_ & _ & ? & _)|HL]%record_log_lookup; [done|]. by eapply li_candidate.
  - intros T a L st HL Hst. rewrite Hns in Hst.
    apply lookup_insert_Some in Hst as [[<- <-]|[Hne Hst]]; [by eapply event_li_term|].
    apply record_log_lookup in HL as [(_ & _ & ? & _)|HL]; [done|]. by eapply li_term.
  - intros m st Hm. rewrite Hns in Hm.
    apply lookup_insert_Some in Hm as [[<- <-]|[Hne Hm]]; [by apply event_agrees|].
    eapply agrees_mono; [done|by eapply li_log].
  - intros T a L [(_ & _ & _ & ->)|HL]%record_log_lookup; [apply event_agrees_new|].
    eapply agrees_mono; [done|by eapply li_past].
  - intros s d T l prev pt es lc Hp. rewrite Hps in Hp. apply elem_of_app in Hp as [Hp|Hp].
    + destruct (li_wire _ _ _ Hli _ _ _ _ _ _ _ _ Hp) as (a & L & HL & Hs).
      destruct (Hext _ _ _ HL) as [k Hk']. exists a, (L ++ k).
      split; [done|by apply slice_of_grow].
    + destruct Hnew as [->| ->]; [by apply not_elem_of_nil in Hp|by eapply event_li_wire].
Qed.
End event.

(** A node that stops, restarts or takes its lost proposals. *)
Lemma quiet_logs_inv h h' tl σ σ' n st st1 :
  election_inv cluster h σ → logs_inv h tl σ → h ⊆ h' → nodes σ !! n = Some st →
  nodes σ' = <[n := st1]> (nodes σ) → packets σ' = packets σ →
  st_term st1 = st_term st → olog obs st1 = olog obs st →
  (∀ q, st1 = Up q → (∃ p, st = Up p ∧ runs_as q p) ∨ role q = Follower) →
  logs_inv h' tl σ'.
Proof.
  intros Hei Hli Hsub Hn Hns Hps Ht Hl Hq. split.
  - intros T a L HL. eapply won_mono; [done|by eapply li_won].
  - intros m q Hm Hr. rewrite Hns in Hm.
    apply lookup_insert_Some in Hm as [[<- ->]|[Hne Hm]]; [|by eapply li_leader].
    destruct (Hq q eq_refl) as [(p & -> & E1 & _ & E3 & E4 & _)|?]; [|congruence].
    rewrite Hl, E1. rewrite E4 in Hr. by apply (li_leader _ _ _ Hli).
  - intros m q L Hm Hr. rewrite Hns in Hm.
    apply lookup_insert_Some in Hm as [[<- ->]|[Hne Hm]]; [|by eapply li_candidate].
    destruct (Hq q eq_refl) as [(p & -> & E1 & _ & E3 & E4 & _)|?]; [|congruence].
    rewrite E1. rewrite E4 in Hr. by apply (li_candidate _ _ _ Hli).
  - intros T a L st' HL Hst. rewrite Hns in Hst.
    apply lookup_insert_Some in Hst as [[<- <-]|[Hne Hst]]; [|by eapply li_term].
    rewrite Ht. by eapply li_term.
  - intros m st' Hm. rewrite Hns in Hm.
    apply lookup_insert_Some in Hm as [[<- <-]|[Hne Hm]]; [|by eapply li_log].
    rewrite Hl. by eapply li_log.
  - intros T a L HL. by eapply li_past.
  - intros s d T l prev pt es lc Hp. rewrite Hps in Hp. by eapply li_wire.
Qed.

(** ** The invariant of the cluster *)
Definition safety_inv (σ : Net V St) : Prop :=
  net_ok cluster σ ∧ ∃ h tl, election_inv cluster h σ ∧ logs_inv h tl σ.

(** A change of one node keeps it. *)
Lemma safety_inv_change σ σ' :
  safety_inv σ → net_ok cluster σ' → changes obs cluster σ σ' → safety_inv σ'.
Proof.
  intros (Hok & h & tl & Hei & Hli) Hok' (n & st & st1 & new & Hn & Hns & Hps & Hch).
  split; [done|]. exists (record_vote h n st1).
  destruct (election_inv_step obs cluster two_nodes h σ σ' n st st1 new Hok Hei Hn Hns Hps Hch)
    as [Hsub Hei'].
  destruct Hch as [p ev p1 out -> Hp Hen Hes Hk Hnew|Ht _ Hl Hq ->].
  - exists (record_log tl n p1). split; [done|].
    eapply (event_logs_inv h); eauto. naive_solver.
  - exists tl. rewrite app_nil_r in Hps. split; [done|]. apply (quiet_logs_inv h _ _ σ _ n st st1); try done.
    intros q Hst. destruct (Hq q Hst) as [?|[?|[_ ?]]]; [by left|by right|lia].
Qed.

Hypothesis obs_norm : ∀ v, obs (norm v) = obs v.
Context (cfg : RaftConfig).

Lemma safety_inv_step σ σ' : safety_inv σ → step cluster cfg σ σ' → safety_inv σ'.
Proof.
  intros Hi Hs. destruct (step_change obs obs_norm cluster cfg σ σ' (proj1 Hi) Hs) as [Hok' Hc].
  by eapply safety_inv_change.
Qed.

Lemma initial_logs_inv σ : initial cluster σ → logs_inv ∅ ∅ σ.
Proof.
  intros (Hd & Hn & Hp & _).
  split; try by (intros *; rewrite ?lookup_empty, ?Hp, ?elem_of_nil).
  all: intros n x; intros; match goal with H : nodes _ !! _ = _ |- _ =>
    destruct (Hn _ _ H) as (s & ? & Hv); simplify_eq/= end.
  unfold olog; simpl. rewrite Hv. apply agrees_nil.
Qed.

Lemma initial_safety_inv σ : initial cluster σ → safety_inv σ.
Proof.
  intros Hi. pose proof (initial_net_ok cluster _ Hi). split; [done|].
  exists ∅, ∅. split; [by apply initial_election_inv|by apply initial_logs_inv].
Qed.

Lemma reachable_safety_inv σ : reachable cluster cfg σ → safety_inv σ.
Proof.
  intros (σ0 & Hi & Hr). apply initial_safety_inv in Hi.
  induction Hr as [|? ? ? Hs ? IH]; [done|]. apply IH. by eapply safety_inv_step.
Qed.
End logs.
