(* ===== verification/RaftExec.v ===== *)
(** * Raft: running a cluster

    An executable scheduler for the network of [RaftNet.v]: a list of actions
    is run by [exec], and every run it produces is a run of the transition
    system ([exec_sound]). Concrete executions of the theorems are evaluated
    with it. *)

From S2P Require Import Prelude Types Network Storage Raft RaftLocal RaftEvents RaftDurable.
From S2P Require Import RaftNet.

Inductive Action (V : Type) :=
| APropose (n : NodeId) (v : V)
| ATick (n : NodeId) (now : Instant)
| ADeliver (k : nat)  (* the k-th packet ever sent *)
| AStop (n : NodeId)
| ARestart (n : NodeId).
Arguments APropose {V}. Arguments ATick {V}. Arguments ADeliver {V}.
Arguments AStop {V}. Arguments ARestart {V}.

Section exec.
Context {V St : Type} `{RaftStorage St V}.
Context (cluster : gset NodeId) (cfg : RaftConfig) (e : Env).
Implicit Types (σ : Net V St).

(** One pass of the event loop. *)
Definition exec_event (n : NodeId) (ev : Event V) (σ : Net V St) : option (Net V St) :=
  match nodes σ !! n with
  | Some (Up p) =>
      '(p1, out) ← run_event e ev p;
      match flush_persist p1 with
      | Some (p2, Ok _) =>
          match drain_decisions p2 with
          | (p3, Ok ds) =>
              Some {| nodes := <[n := Up p3]> (nodes σ);
                      packets := packets σ ++ packets_of cluster n out;
                      delivered := delivered σ ++ map (pair n) ds |}
          | _ => None
          end
      | _ => None
      end
  | _ => None
  end.

Definition exec1 (a : Action V) (σ : Net V St) : option (Net V St) :=
  match a with
  | APropose n v => exec_event n (EvPropose v) σ
  | ATick n now => exec_event n (EvTick now) σ
  | ADeliver k => pkt ← packets σ !! k; exec_event (dst pkt) (EvReceive (src pkt) (body pkt)) σ
  | AStop n =>
      match nodes σ !! n with
      | Some (Up p) => Some {| σ with nodes := <[n := Down (storage p)]> (nodes σ) |}
      | _ => None
      end
  | ARestart n =>
      match nodes σ !! n with
      | Some (Down s) =>
          p0 ← new e n (size cluster) cfg s;
          match recover e p0 with
          | Some (p1, Ok _) => Some {| σ with nodes := <[n := Up p1]> (nodes σ) |}
          | _ => None
          end
      | _ => None
      end
  end.

Fixpoint exec (acts : list (Action V)) (σ : Net V St) : option (Net V St) :=
  match acts with
  | [] => Some σ
  | a :: acts => σ' ← exec1 a σ; exec acts σ'
  end.

Lemma exec_event_sound n ev σ σ' :
  enabled σ n ev → exec_event n ev σ = Some σ' → step cluster cfg σ σ'.
Proof.
  intros Hen. unfold exec_event.
  destruct (nodes σ !! n) as [[p|]|] eqn:Hn; [|done..].
  destruct (run_event e ev p) as [[p1 out]|] eqn:Hr; [|done]. simpl.
  destruct (flush_persist p1) as [[p2 [[]|]]|] eqn:Hf; [|done..].
  destruct (drain_decisions p2) as [p3 [ds|]] eqn:Hd; [|done].
  intros [= <-]. by eapply step_event.
Qed.

Lemma exec1_sound a σ σ' : exec1 a σ = Some σ' → step cluster cfg σ σ'.
Proof.
  destruct a as [n v|n now|k|n|n]; simpl; intros Hx.
  - by apply (exec_event_sound n (EvPropose v)).
  - by apply (exec_event_sound n (EvTick now)).
  - destruct (packets σ !! k) as [[s d b]|] eqn:Hk; [|done]. simpl in Hx.
    eapply exec_event_sound; [|done]. simpl. by eapply list_elem_of_lookup_2.
  - destruct (nodes σ !! n) as [[p|]|] eqn:Hn; simplify_eq/=. by apply step_crash.
  - destruct (nodes σ !! n) as [[|s]|] eqn:Hn; simplify_eq/=.
    destruct (new _ _ _ _ _) as [p0|] eqn:Hp0; [|done]. simpl in Hx.
    destruct (recover e p0) as [[p1 [[]|]]|] eqn:Hp1; simplify_eq/=.
    by eapply step_restart.
Qed.

Lemma exec_sound acts σ σ' : exec acts σ = Some σ' → rtc (step cluster cfg) σ σ'.
Proof.
  revert σ. induction acts as [|a acts IH]; simpl; intros σ Hx; [by simplify_eq|].
  destruct (exec1 a σ) as [σ1|] eqn:E; [|done]. simpl in Hx.
  eapply rtc_l; [by eapply exec1_sound|by apply IH].
Qed.

Lemma exec_app acts more σ : exec (acts ++ more) σ = σ1 ← exec acts σ; exec more σ1.
Proof.
  revert σ. induction acts as [|a acts IH]; simpl; intros σ; [done|].
  destruct (exec1 a σ); simpl; auto.
Qed.
End exec.

(** ** Runs without crashes *)
Section crash_free.
Context {V St : Type} `{RaftStorageSpec St V}.
Context (cluster : gset NodeId) (cfg : RaftConfig).
Implicit Types (σ : Net V St).

(** Node [n] handles event [ev], with all that follows in its loop. *)
Definition node_handles (n : NodeId) (ev : Event V) σ σ' : Prop :=
  ∃ p e p1 out p2 p3 ds, nodes σ !! n = Some (Up p) ∧ enabled σ n ev ∧
    run_event e ev p = Some (p1, out) ∧ flush_persist p1 = Some (p2, Ok tt) ∧
    drain_decisions p2 = (p3, Ok ds) ∧
    σ' = {| nodes := <[n := Up p3]> (nodes σ);
            packets := packets σ ++ packets_of cluster n out;
            delivered := delivered σ ++ map (pair n) ds |}.

(** A stopped node is started. *)
Definition node_starts (n : NodeId) σ σ' : Prop :=
  ∃ s e p0 p1, nodes σ !! n = Some (Down s) ∧ new e n (size cluster) cfg s = Some p0 ∧
    recover e p0 = Some (p1, Ok tt) ∧ σ' = {| σ with nodes := <[n := Up p1]> (nodes σ) |}.

Definition continues σ σ' : Prop := rtc (λ σ σ', ∃ n ev, node_handles n ev σ σ') σ σ'.

(** A run without crashes: nodes that were never up are started on empty
    storage, then there are only events. *)
Definition without_crash σ : Prop :=
  ∃ σi σ0, initial cluster σi ∧ rtc (λ σ σ', ∃ n, node_starts n σ σ') σi σ0 ∧ continues σ0 σ.

Lemma continues_steps σ σ' : continues σ σ' → rtc (step cluster cfg) σ σ'.
Proof.
  induction 1 as [|σ1 σ2 σ3 (n & ev & p & e & p1 & out & p2 & p3 & ds & ? & ? & ? & ? & ? & ->) _ IH];
    [done|]. eapply rtc_l; [by eapply step_event|done].
Qed.

Lemma without_crash_reachable σ : without_crash σ → reachable cluster cfg σ.
Proof.
  intros (σi & σ0 & Hi & Hst & Hgo). exists σi. split; [done|].
  transitivity σ0; [|by apply continues_steps]. clear Hi Hgo.
  induction Hst as [|σ1 σ2 σ3 (n & s & e & p0 & p1 & ? & ? & ? & ->) _ IH]; [done|].
  eapply rtc_l; [by eapply step_restart|done].
Qed.

(** *** The scheduler makes them *)
Context (e : Env).

Lemma exec_event_handles n ev σ σ' :
  enabled σ n ev → exec_event cluster e n ev σ = Some σ' → node_handles n ev σ σ'.
Proof.
  intros Hen. unfold exec_event.
  destruct (nodes σ !! n) as [[p|]|] eqn:Hn; [|done..].
  destruct (run_event e ev p) as [[p1 out]|] eqn:Hr; [|done]. simpl.
  destruct (flush_persist p1) as [[p2 [[]|]]|] eqn:Hf; [|done..].
  destruct (drain_decisions p2) as [p3 [ds|]] eqn:Hd; [|done].
  intros [= <-]. by eexists _, _, _, _, _, _, _.
Qed.

Lemma exec1_deliver k pkt σ σ' :
  packets σ !! k = Some pkt → exec1 cluster cfg e (ADeliver k) σ = Some σ' →
  node_handles (dst pkt) (EvReceive (src pkt) (body pkt)) σ σ'.
Proof.
  intros Hk. simpl. rewrite Hk. simpl. apply exec_event_handles. simpl.
  destruct pkt. by eapply list_elem_of_lookup_2.
Qed.

Definition action_is_event (a : Action V) : bool :=
  match a with AStop _ | ARestart _ => false | _ => true end.

Lemma exec_continues acts σ σ' :
  forallb action_is_event acts = true → exec cluster cfg e acts σ = Some σ' → continues σ σ'.
Proof.
  revert σ. induction acts as [|a acts IH]; cbn [forallb exec]; intros σ Hl Hx.
  { injection Hx as ->. apply rtc_refl. }
  apply andb_true_iff in Hl as [Ha Hl].
  destruct (exec1 cluster cfg e a σ) as [σ1|] eqn:E; [|done]. cbn [mbind option_bind] in Hx.
  eapply rtc_l; [|by apply IH]. destruct a as [n v|n t|k|n|n]; [| | |done..].
  - eexists _, _. by eapply (exec_event_handles n (EvPropose v)).
  - eexists _, _. by eapply (exec_event_handles n (EvTick t)).
  - destruct (packets σ !! k) as [pkt|] eqn:Hk; [|simpl in E; by rewrite Hk in E].
    eexists _, _. by eapply exec1_deliver.
Qed.

Lemma exec_starts ns σ σ' :
  exec cluster cfg e (map ARestart ns) σ = Some σ' →
  rtc (λ σ σ', ∃ n, node_starts n σ σ') σ σ'.
Proof.
  revert σ. induction ns as [|n ns IH]; cbn [map exec]; intros σ Hx.
  { injection Hx as ->. apply rtc_refl. }
  destruct (exec1 cluster cfg e (ARestart n) σ) as [σ1|] eqn:E; [|done].
  cbn [mbind option_bind] in Hx. eapply rtc_l; [|by apply IH]. exists n. simpl in E.
  destruct (nodes σ !! n) as [[|s]|] eqn:Hn; simplify_eq/=.
  destruct (new _ _ _ _ _) as [p0|] eqn:Hp0; [|done]. simpl in E.
  destruct (recover e p0) as [[p1 [[]|]]|] eqn:Hp1; simplify_eq/=. by eexists _, _, _, _.
Qed.
End crash_free.

(** ** A cluster of three nodes over in-memory storage *)
Module Three.
Definition n1 := mkNodeId "a" 1.
Definition n2 := mkNodeId "b" 1.
Definition n3 := mkNodeId "c" 1.
Definition cluster : gset NodeId := {[n1; n2; n3]}.
Definition cfg := RaftConfig_default.
Definition e := mkEnv 0 0.

Definition start : Net N (RaftMemoryStorage N) := {|
  nodes := list_to_map (map (λ n, (n, Down RaftMemoryStorage_new)) [n1; n2; n3]);
  packets := []; delivered := [] |}.

Lemma start_initial : initial cluster start.
Proof.
  split_and!; [by refine (bool_decide_unpack _ _)| |done|done].
  intros n st Hst. simpl in Hst.
  repeat (apply lookup_insert_Some in Hst as [[_ <-]|[_ Hst]]; [eauto|]).
  by rewrite lookup_empty in Hst.
Qed.

Definition run (acts : list (Action N)) := exec cluster cfg e acts start.

Lemma run_reachable acts σ : run acts = Some σ → reachable cluster cfg σ.
Proof. intros Hr. exists start. split; [apply start_initial|by eapply exec_sound]. Qed.

(** The nodes are started, then there are only events. *)
Lemma run_without_crash acts σ :
  forallb action_is_event acts = true → run (map ARestart [n1; n2; n3] ++ acts) = Some σ →
  without_crash cluster cfg σ.
Proof.
  unfold run. rewrite exec_app. intros Hl Hr.
  destruct (exec _ _ _ (map ARestart _) _) as [σ0|] eqn:H0; [|done]. simpl in Hr.
  exists start, σ0. split; [apply start_initial|].
  split; [by eapply exec_starts|by eapply exec_continues].
Qed.

(** What a run shows of a node: role, term, log, commit index. *)
Definition peek (n : NodeId) (σ : Net N (RaftMemoryStorage N)) :=
  match nodes σ !! n with
  | Some (Up p) => Some (role p, current_term p, log p, commit_index p)
  | _ => None
  end.
End Three.

(** ** A single node of a cluster of three, over in-memory storage *)
Module Sample.
Definition a := mkNodeId "a" 1.
Definition b := mkNodeId "b" 1.
Definition c := mkNodeId "c" 1.
Definition env := mkEnv 5 3.
Definition fresh : RaftProtocol N (RaftMemoryStorage N) :=
  {| node_id := a; total_nodes := 3; config := RaftConfig_default;
     current_term := 0; voted_for := None; log := [];
     commit_index := None; last_applied := None; role := Follower; leader := None;
     next_index := ∅; match_index := ∅; election_deadline := 0; votes_received := ∅;
     last_heartbeat_sent := None; pending_decisions := [];
     pending_persist_term := false; pending_persist_voted_for := false;
     pending_persist_log_from := None; pending_truncate_from := None;
     pending_persist_commit_index := false; pending_proposals := []; lost_proposals := [];
     storage := RaftMemoryStorage_new |}.

(** The node as leader of term 2 with three entries, two of them held by [b]. *)
Definition ents : list (LogEntry N) := [mkEntry 1 10%N; mkEntry 2 11%N; mkEntry 2 12%N].
Definition leading : RaftProtocol N (RaftMemoryStorage N) := {| fresh with
  current_term := 2; voted_for := Some a; log := ents; role := Leader; leader := Some a;
  match_index := {[ a := Some 2%N; b := Some 1%N; c := None ]} |}.
End Sample.
