(* ===== verification/RaftSafety.v ===== *)
(** * Raft: safety of the cluster

    The theorems over every reachable state of the cluster, for any lawful
    storage: one leader per term, matching logs, monotone terms and durable
    votes; and the limit of what the code guarantees: without ordered delivery
    a committed entry can be erased. *)

From S2P Require Import Prelude Types Network Storage Raft RaftLocal RaftEvents RaftDurable.
From S2P Require Import RaftNet RaftNetLemmas RaftElection RaftLogs RaftExec.

Section safety.
Context {V St U : Type} `{RaftStorageSpec St V}.
Context (cluster : gset NodeId) (cfg : RaftConfig).
Implicit Types (σ : Net V St).

Lemma reachable_net_ok σ : reachable cluster cfg σ → net_ok cluster σ.
Proof.
  intros (σ0 & Hi & Hr). apply initial_net_ok in Hi.
  induction Hr as [|? ? ? Hs ? IH]; [done|]. apply IH.
  by eapply (step_change norm norm_idem).
Qed.

Lemma reachable_in σ n st : reachable cluster cfg σ → nodes σ !! n = Some st → n ∈ cluster.
Proof. intros Hr. apply net_ok_in. by apply reachable_net_ok. Qed.

(** A leader of a term has won it, and only one node wins a term. *)
Lemma one_leader_per_term σ a b p q :
  reachable cluster cfg σ →
  nodes σ !! a = Some (Up p) → nodes σ !! b = Some (Up q) →
  role p = Leader → role q = Leader → current_term p = current_term q → a = b.
Proof.
  intros Hr Ha Hb Hp Hq Ht. destruct (decide (2 ≤ size cluster)) as [Htwo|Hsmall].
  - destruct (reachable_safety_inv norm cluster Htwo norm_idem cfg σ Hr) as (_ & h & tl & Hei & _).
    apply (won_unique cluster h (current_term p)); [by eapply ei_leader|].
    rewrite Ht. by eapply ei_leader.
  - eapply small_cluster_eq; eauto using reachable_in.
Qed.

(** C3. Election safety: in every reachable state of a cluster of any size,
    whatever messages were lost, duplicated, delayed or reordered and
    wherever nodes crashed and restarted, two running nodes that are leaders
    of the same term are the same node. *)
Theorem election_safety σ a b p q :
  reachable cluster cfg σ →
  nodes σ !! a = Some (Up p) → nodes σ !! b = Some (Up q) →
  role p = Leader → role q = Leader → current_term p = current_term q → a = b.
Proof. apply one_leader_per_term. Qed.

(** C5. Log matching: in every reachable state, if the log of a node holds
    an entry of some term at index [i] and the log of another node, running
    or stopped, an entry of the same term at index [i] or later, then the two
    logs are equal up to and including [i], in every observation of the
    values that storage preserves. *)
Theorem log_matching (obs : V → U) σ a b sa sb :
  (∀ v, obs (norm v) = obs v) →
  reachable cluster cfg σ → a ≠ b →
  nodes σ !! a = Some sa → nodes σ !! b = Some sb →
  matches_upto (olog obs sa) (olog obs sb).
Proof.
  intros Hobs Hr Hne Ha Hb. destruct (decide (2 ≤ size cluster)) as [Htwo|Hsmall].
  - destruct (reachable_safety_inv obs cluster Htwo Hobs cfg σ Hr) as (_ & h & tl & _ & Hli).
    eapply (agrees_matches_upto tl); eauto using li_log.
  - destruct Hne. eapply small_cluster_eq; eauto using reachable_in.
Qed.

(** C11. Terms never go back and a vote is never changed within its term: any
    step of the cluster, a crash between two writes and a restart included,
    leaves every node's term at least as high, and if the term is the same,
    a vote it had cast. *)
Theorem term_vote_monotone σ σ' n st st1 :
  reachable cluster cfg σ → step cluster cfg σ σ' →
  nodes σ !! n = Some st → nodes σ' !! n = Some st1 →
  (st_term st ≤ st_term st1)%N ∧
  (st_term st1 = st_term st → ∀ c, st_vote st = Some c → st_vote st1 = Some c).
Proof.
  intros Hr%reachable_net_ok Hs Hn Hn1.
  destruct (step_change norm norm_idem cluster cfg σ σ' Hr Hs)
    as (_ & m & st' & st1' & new & Hm & Hns & _ & Hch).
  rewrite Hns in Hn1. apply lookup_insert_Some in Hn1 as [[<- <-]|[_ Hn1]].
  - rewrite Hm in Hn. injection Hn as <-. by eapply change_binds.
  - rewrite Hn in Hn1. by injection Hn1 as <-.
Qed.
End safety.

(** ** Concrete runs *)
Module Runs.
Import Three.

Definition late : Instant := from_secs 60.

(** [n1] is elected in term 1 with the vote of [n2] and proposes 10. *)
Definition elect1 : list (Action N) :=
  [ARestart n1; ARestart n2; ARestart n3; ATick n1 late; ADeliver 1; ADeliver 2;
   APropose n1 10%N].

(** Packet 6 brings [n2] the entry. *)
Definition replicate1 : list (Action N) := elect1 ++ [ADeliver 6].

Definition state (acts : list (Action N)) : Net N (RaftMemoryStorage N) :=
  default start (run acts).

(** Packet 8 is a heartbeat sent before the entry 11 of packet 10; [n2]
    handles it last. [n1] has committed 11 by then; [n3], elected in term 2
    with the vote of [n2], commits 12 in the same slot. *)
Definition overtaken : list (Action N) :=
  elect1 ++ [ATick n1 late; APropose n1 11%N; ADeliver 6; ADeliver 10; ADeliver 12].
Definition erased : list (Action N) := overtaken ++ [ADeliver 8].
Definition reordered : list (Action N) :=
  erased ++ [ADeliver 5; ATick n3 late; ADeliver 16; ADeliver 17; APropose n3 12%N;
   ADeliver 21; ADeliver 22].
End Runs.

Module RunFacts.
Import Three Runs.

Lemma state_reachable acts : is_some (run acts) = true → reachable cluster cfg (state acts).
Proof.
  unfold state. destruct (run acts) eqn:Hr; [|done]. intros _. by eapply run_reachable.
Qed.

Lemma state_run acts : is_some (run acts) = true → run acts = Some (state acts).
Proof. unfold state. by destruct (run acts). Qed.

Lemma state_app acts more :
  is_some (run (acts ++ more)) = true →
  exec cluster cfg e more (state acts) = Some (state (acts ++ more)).
Proof.
  unfold state, run. rewrite exec_app. destruct (exec _ _ _ acts _) as [σ|]; [|done]. simpl.
  by destruct (exec _ _ _ more σ).
Qed.

(** A check a run passes when [n] is up with the given role, term and log. *)
Definition shows (acts : list (Action N)) (n : NodeId) (r : Role) (t : N)
    (l : list (LogEntry N)) : bool :=
  match nodes (state acts) !! n with
  | Some (Up p) => bool_decide (role p = r) && (current_term p =? t)%N && bool_decide (log p = l)
  | _ => false
  end.

Lemma shows_spec acts n r t l :
  shows acts n r t l = true →
  ∃ p, nodes (state acts) !! n = Some (Up p) ∧ role p = r ∧ current_term p = t ∧ log p = l.
Proof.
  unfold shows. destruct (nodes (state acts) !! n) as [[p|]|]; [|done..].
  intros Hb. breflect. naive_solver.
Qed.
End RunFacts.

Module Witnesses.
Import Three Runs RunFacts.

Lemma election_safety_witness :
  ∃ p, nodes (state elect1) !! n1 = Some (Up p) ∧ role p = Leader ∧ n1 = n1.
Proof.
  destruct (shows_spec elect1 n1 Leader 1 [mkEntry 1 10%N]) as (p & Hn & Hr & _ & _).
  { vm_compute; reflexivity. }
  exists p. split; [exact Hn|]. split; [exact Hr|].
  refine (election_safety cluster cfg (state elect1) n1 n1 p p _ Hn Hn Hr Hr eq_refl).
  apply state_reachable. vm_compute. reflexivity.
Defined.

Lemma log_matching_witness :
  ∃ sa sb, nodes (state replicate1) !! n1 = Some sa ∧ nodes (state replicate1) !! n2 = Some sb ∧
    take 1 (olog id sa) = take 1 (olog id sb).
Proof.
  destruct (shows_spec replicate1 n1 Leader 1 [mkEntry 1 10%N]) as (p & Hp & _ & _ & Hlp).
  { vm_compute; reflexivity. }
  destruct (shows_spec replicate1 n2 Follower 1 [mkEntry 1 10%N]) as (q & Hq & _ & _ & Hlq).
  { vm_compute; reflexivity. }
  exists (Up p), (Up q). split; [exact Hp|]. split; [exact Hq|].
  refine (log_matching cluster cfg id (state replicate1) n1 n2 (Up p) (Up q) _ _ _ Hp Hq
    0 0 (1%N, 10%N) (1%N, 10%N) _ _ _ eq_refl); [reflexivity| |done|done| |].
  - apply state_reachable. vm_compute. reflexivity.
  - unfold olog; simpl. by rewrite Hlp.
  - unfold olog; simpl. by rewrite Hlq.
Defined.

Lemma term_vote_monotone_witness :
  ∃ st st1, nodes (state elect1) !! n2 = Some st ∧ nodes (state replicate1) !! n2 = Some st1 ∧
    (st_term st ≤ st_term st1)%N.
Proof.
  destruct (shows_spec elect1 n2 Follower 1 []) as (p & Hp & _ & _ & _).
  { vm_compute; reflexivity. }
  destruct (shows_spec replicate1 n2 Follower 1 [mkEntry 1 10%N]) as (q & Hq & _ & _ & _).
  { vm_compute; reflexivity. }
  exists (Up p), (Up q). split; [exact Hp|]. split; [exact Hq|].
  apply (term_vote_monotone cluster cfg (state elect1) (state replicate1) n2 (Up p) (Up q));
    [| |exact Hp|exact Hq].
  - apply state_reachable. vm_compute. reflexivity.
  - apply (exec1_sound cluster cfg e (ADeliver 6)). vm_compute. reflexivity.
Defined.

(** C37. Without ordered delivery a committed entry can be lost, because a
    follower cuts its log at the end of what an AppendEntries covers even when
    nothing conflicts. A three-node cluster runs without a crash. The leader
    [n1] sent [n2] a heartbeat without entries after slot 0, and later the
    AppendEntries with the entry of slot 1; [n2] holds that entry and [n1] has
    delivered it. When [n2] now handles the earlier heartbeat its log ends
    with slot 0, and events that follow, still without a crash, make [n3]
    deliver another value for slot 1. *)
Theorem reordering_breaks_agreement :
  ∃ σ1 σ2 σ3 i j p q,
    let en := mkEntry 1 11%N in
    let heartbeat := AppendEntries 1 n1 (Some 0%N) 1 [] None in
    without_crash cluster cfg σ1 ∧ i < j ∧
    packets σ1 !! i = Some (mkPacket n1 n2 heartbeat) ∧
    packets σ1 !! j = Some (mkPacket n1 n2 (AppendEntries 1 n1 (Some 0%N) 1 [en] None)) ∧
    nodes σ1 !! n2 = Some (Up p) ∧ current_term p = 1%N ∧ vget (log p) 1 = Some en ∧
    (n1, mkDecision 1 (value en)) ∈ delivered σ1 ∧
    node_handles cluster n2 (EvReceive n1 heartbeat) σ1 σ2 ∧
    nodes σ2 !! n2 = Some (Up q) ∧ current_term q = 1%N ∧ vget (log q) 1 = None ∧
    continues cluster σ2 σ3 ∧ (n3, mkDecision 1 12%N) ∈ delivered σ3.
Proof.
  destruct (shows_spec overtaken n2 Follower 1 [mkEntry 1 10%N; mkEntry 1 11%N])
    as (p & Hp & _ & Htp & Hlp); [vm_compute; reflexivity|].
  destruct (shows_spec erased n2 Follower 1 [mkEntry 1 10%N])
    as (q & Hq & _ & Htq & Hlq); [vm_compute; reflexivity|].
  exists (state overtaken), (state erased), (state reordered), 8, 10, p, q. cbv zeta.
  split_and!; [|lia|vm_compute; reflexivity|vm_compute; reflexivity|done|done|by rewrite Hlp
    |apply (list_elem_of_lookup_2 _ 1); by vm_compute| |done|done|by rewrite Hlq|
    |apply (list_elem_of_lookup_2 _ 3); by vm_compute].
  - eapply run_without_crash; [|apply state_run]; vm_compute; reflexivity.
  - eapply (exec1_deliver cluster cfg e 8 (mkPacket n1 n2 _)); vm_compute; reflexivity.
  - eapply exec_continues; [|apply (state_app erased)]; vm_compute; reflexivity.
Qed.
End Witnesses.
