(* ===== verification/RaftRecovery.v ===== *)
(** * Raft: what survives a crash

    The contract between a node and its storage, for any lawful backend: a
    flushed event is durable, a restart gives back what was flushed, and a
    crash inside a flush leaves a state from which the node may safely go on. *)

From S2P Require Import Prelude Types Network Storage Raft RaftLocal RaftEvents RaftDurable.
From S2P Require Import RaftNet RaftNetLemmas RaftExec.

Section recovery.
Context {V St : Type} `{RaftStorageSpec St V}.
Implicit Types (p : RaftProtocol V St).

(** The parts of a durable state a node recovers from. *)
Definition durable_core (d : RaftMemoryStorage V) := (m_term d, m_voted_for d, m_log d).
Definition node_core p := (current_term p, voted_for p, stored_log (log p)).

Lemma mirrors_core_eq d p : mirrors d p ↔ durable_core d = node_core p.
Proof. unfold mirrors, durable_core, node_core. naive_solver congruence. Qed.

(** C13. Persistence before sending: when an event of a node whose storage
    mirrors it has been handled and [flush_persist] has reported success,
    the storage holds exactly the node's term, its vote and its log, and the
    node has nothing left to persist. *)
Theorem flush_makes_durable e ev p p1 out p2 :
  log_clean p → mirrors (view (storage p)) p →
  run_event e ev p = Some (p1, out) → flush_persist p1 = Some (p2, Ok tt) →
  durable_core (view (storage p2)) = node_core p2 ∧ node_core p2 = node_core p1 ∧ clean p2.
Proof.
  intros Hc Hm Hr Hf. apply run_event_spec in Hr; [|done].
  destruct (es_static _ _ _ _ Hr) as (_ & _ & _ & Hst).
  apply flush_shape in Hf as (s & Hw & ->). rewrite Hst in Hw. apply do_writes_ok in Hw.
  split; [|done]. apply mirrors_core_eq. simpl.
  destruct (intent_writes_mirrors _ _ _ _ _ Hm Hr) as (? & ? & ?). rewrite <- Hw in *. done.
Qed.

(** Round trip: a node restarted on a storage that mirrors a node [p]
    has [p]'s term, vote and log (values as storage keeps them), nothing to
    persist, and is a follower unless it is the only node of its cluster. *)
Theorem restart_round_trip e tot cfg p p0 p1 :
  mirrors (view (storage p)) p →
  new e (node_id p) tot cfg (storage p) = Some p0 → recover e p0 = Some (p1, Ok tt) →
  node_core p1 = node_core p ∧ clean p1 ∧ (tot ≠ 1 → role p1 = Follower).
Proof.
  intros (Ht & Hv & Hl) Hn Hr.
  destruct (recover_shape _ _ _ _ _ _ _ Hn Hr) as (_ & _ & _ & Hc & H5 & H6 & H7 & H8).
  split; [|split; [done|]].
  - unfold node_core. rewrite H5, H6, H7, Ht, Hv, Hl, stored_idem. done.
  - intros Htot. destruct H8 as [?|(_ & ? & _)]; [done|congruence].
Qed.

(** C12. Crash inside the flush: whichever prefix of the storage calls of
    [flush_persist] has happened, and whether the last one failed or not, a
    node restarted from there has the term from before or after the event, a
    vote that is the old one unless the term is already the new one, and a
    log that is a prefix of the log before the event or the complete log
    after it, and then with the new term and vote. *)
Theorem crash_restart_consistent e ev p p1 out k s r e' tot cfg p0 q :
  log_clean p → mirrors (view (storage p)) p →
  run_event e ev p = Some (p1, out) →
  do_writes (take k (intent_writes p1)) (storage p1) = (s, r) →
  new e' (node_id p) tot cfg s = Some p0 → recover e' p0 = Some (q, Ok tt) →
  (current_term q = current_term p ∨ current_term q = current_term p1) ∧
  (voted_for q = voted_for p ∨
   voted_for q = voted_for p1 ∧ current_term q = current_term p1) ∧
  ((∃ j, log q = take j (stored_log (log p))) ∨
   log q = stored_log (log p1) ∧ current_term q = current_term p1 ∧
   voted_for q = voted_for p1).
Proof.
  intros Hc Hm Hr Hw Hn Hrec. apply run_event_spec in Hr; [|done].
  destruct (partial_flush_spec _ _ _ _ _ _ _ Hm Hr Hw) as [Htv Hl].
  destruct (recover_shape _ _ _ _ _ _ _ Hn Hrec) as (_ & _ & _ & _ & -> & -> & -> & _).
  naive_solver.
Qed.
End recovery.

(** ** A node that grants a vote, over in-memory storage *)
Module RecoveryRun.
Import Sample.
Definition vote : Event N := EvReceive b (RequestVote 4 b None 0).
Definition voted : RaftProtocol N (RaftMemoryStorage N) :=
  match run_event env vote fresh with Some (p1, _) => p1 | None => fresh end.
Definition out : list (Outgoing (RaftMessage N)) :=
  match run_event env vote fresh with Some (_, o) => o | None => [] end.
Definition flushed : RaftProtocol N (RaftMemoryStorage N) :=
  match flush_persist voted with Some (p2, _) => p2 | None => fresh end.
Definition restarted (s : RaftMemoryStorage N) : RaftProtocol N (RaftMemoryStorage N) :=
  match p0 ← new env a 3 RaftConfig_default s; recover env p0 with
  | Some (q, _) => q | None => fresh end.
Definition boot (s : RaftMemoryStorage N) : RaftProtocol N (RaftMemoryStorage N) :=
  default fresh (new env a 3 RaftConfig_default s).

Lemma flush_makes_durable_witness :
  durable_core (view (storage flushed)) = (4%N, Some b, []).
Proof.
  destruct (flush_makes_durable env vote fresh voted out flushed) as [Hd _];
    [by split|by repeat split|vm_compute; reflexivity|vm_compute; reflexivity|].
  rewrite Hd. vm_compute. reflexivity.
Defined.

Lemma restart_round_trip_witness :
  node_core (restarted (storage flushed)) = (4%N, Some b, []) ∧
  role (restarted (storage flushed)) = Follower.
Proof.
  destruct (restart_round_trip env 3 RaftConfig_default flushed (boot (storage flushed))
    (restarted (storage flushed))) as (Hc & _ & Hr);
    [by repeat split|vm_compute; reflexivity|vm_compute; reflexivity|].
  rewrite Hc, Hr by lia. by vm_compute.
Defined.

(** The node stops after its term was written, before its vote was. *)
Definition torn : RaftMemoryStorage N :=
  (do_writes (take 1 (intent_writes voted)) (storage voted)).1.

Lemma crash_restart_consistent_witness :
  current_term (restarted torn) = 4%N ∧
  (voted_for (restarted torn) = None ∨ voted_for (restarted torn) = Some b).
Proof.
  destruct (crash_restart_consistent env vote fresh voted out 1 torn (Ok tt) env 3
    RaftConfig_default (boot torn) (restarted torn)) as (_ & Hv & _);
    [by split|by repeat split|vm_compute; reflexivity|vm_compute; reflexivity
    |vm_compute; reflexivity|vm_compute; reflexivity|].
  split; [by vm_compute|]. destruct Hv as [Hv|[Hv _]]; rewrite Hv; [by left|by right].
Defined.
End RecoveryRun.
