(* ===== verification/RaftCommit.v ===== *)
(** * Raft: commitment and application

    The leader's commit rule against a reference definition that counts the
    nodes holding an index, and the decisions a node hands to its
    application: every slot once, in order, with the value of its log. *)

From S2P Require Import Prelude Types Storage Raft RaftLocal RaftEvents RaftExec.

(** ** The rank of a sorted list *)
Section rank.
#[local] Instance opt_ge_trans : Transitive opt_ge.
Proof.
  unfold opt_ge, opt_leb. intros [a|] [b|] [c|]; simpl; try done.
  rewrite !N.leb_le. lia.
Qed.
#[local] Instance opt_ge_total : Total opt_ge.
Proof. unfold opt_ge, opt_leb. intros [a|] [b|]; auto. rewrite !N.leb_le. lia. Qed.

Definition at_least (c : N) (m : option N) : Prop := opt_ge m (Some c).
#[global] Instance at_least_dec c m : base.Decision (at_least c m).
Proof. unfold at_least. apply _. Defined.

Lemma at_least_Some c m : at_least c m ↔ ∃ x, m = Some x ∧ (c ≤ x)%N.
Proof.
  unfold at_least, opt_ge, opt_leb. destruct m as [x|].
  - rewrite N.leb_le. naive_solver.
  - naive_solver.
Qed.

(** Below an element that is not at least [c], none is. *)
Lemma sorted_none c y (l : list (option N)) :
  Forall (opt_ge y) l → ¬ at_least c y → filter (at_least c) l = [].
Proof.
  intros Hall Hy. destruct (filter (at_least c) l) as [|z f] eqn:Hf; [done|].
  assert (z ∈ filter (at_least c) l) as Hz by (rewrite Hf; left).
  apply list_elem_of_filter in Hz as [Hz Hin]. rewrite Forall_forall in Hall.
  destruct Hy. exact (opt_ge_trans _ _ _ (Hall _ Hin) Hz).
Qed.

(** In a list sorted downwards the [k]-th element is at least [c] exactly if
    more than [k] elements are. *)
Lemma sorted_rank (l : list (option N)) (k : nat) x c :
  StronglySorted opt_ge l → l !! k = Some x →
  at_least c x ↔ k < length (filter (at_least c) l).
Proof.
  intros Hs. revert k. induction Hs as [|y l Hs IH Hall]; intros k; [done|].
  destruct (decide (at_least c y)) as [Hy|Hy].
  - rewrite filter_cons_True by done. destruct k as [|k]; simpl.
    + intros [= ->]. split; [lia|done].
    + intros Hk. rewrite (IH _ Hk). lia.
  - rewrite filter_cons_False by done. rewrite (sorted_none c y l) in * by done. destruct k as [|k]; simpl.
    + intros [= ->]. split; [done|lia].
    + intros Hk. rewrite (IH _ Hk). simpl. lia.
Qed.

Lemma merge_sort_rank (l : list (option N)) (k : nat) x c :
  merge_sort opt_ge l !! k = Some x →
  at_least c x ↔ k < length (filter (at_least c) l).
Proof.
  intros Hk. rewrite (sorted_rank _ _ _ _ (StronglySorted_merge_sort _ _) Hk).
  by rewrite (merge_sort_Permutation opt_ge l).
Qed.
End rank.

Section commit.
Context {V St : Type}.
Implicit Types (p : RaftProtocol V St).

(** The nodes known to hold index [c], the leader among them. *)
Definition holders p (c : N) : gmap NodeId (option N) :=
  filter (λ kv, at_least c kv.2) (match_index p).

(** The reference rule: a majority holds [c]. *)
Definition majority_holds p (c : N) : Prop := quorum p ≤ size (holders p c).

Lemma holders_count p c :
  size (holders p c) = length (filter (at_least c) (snd <$> map_to_list (match_index p))).
Proof.
  unfold holders. rewrite map_filter_alt, <- length_map_to_list, map_to_list_to_map.
  - induction (map_to_list (match_index p)) as [|[k m] l IH]; [done|]. simpl.
    destruct (decide (at_least c m)).
    + rewrite !filter_cons_True by done. simpl. by rewrite IH.
    + rewrite !filter_cons_False by done. done.
  - eapply sublist_NoDup; [apply (NoDup_fst_map_to_list (match_index p))|].
    apply fmap_sublist. apply sublist_filter.
Qed.

(** An index is new if it lies above the commit index. *)
Definition above (c : N) (ci : option N) : Prop := ∀ cur, ci = Some cur → (cur < c)%N.

Lemma is_none_or_above c ci : is_none_or ci (λ cur, cur <? c)%N = true ↔ above c ci.
Proof.
  unfold is_none_or, above. destruct ci as [cur|]; [|naive_solver].
  rewrite N.ltb_lt. naive_solver.
Qed.

(** The sorted candidate is the largest index a majority holds. *)
Lemma candidate_majority p c x :
  merge_sort opt_ge (snd <$> map_to_list (match_index p)) !! (quorum p - 1) = Some x →
  majority_holds p c ↔ at_least c x.
Proof.
  intros Hk. rewrite (merge_sort_rank _ _ _ c Hk). unfold majority_holds.
  rewrite holders_count. pose proof (quorum_size_pos (total_nodes p)). unfold quorum. lia.
Qed.

Lemma apply_committed_commit p p' :
  apply_committed_entries p = Some p' → commit_index p' = commit_index p ∧ log p' = log p.
Proof. by intros (ds & la & -> & _)%apply_committed_shape. Qed.
End commit.

Section commit_claims.
Context {V St : Type}.
Implicit Types (p : RaftProtocol V St).

(** C22. Soundness of the commit rule: when [try_advance_commit] moves the
    commit index to [c], a majority of the cluster is known to hold [c], no
    higher index is held by a majority, [c] was not committed before and the
    entry at [c] is of the leader's own term. *)
Theorem try_advance_commit_sound p p' c :
  try_advance_commit p = Some p' → commit_index p' = Some c → commit_index p ≠ Some c →
  majority_holds p c ∧ (∀ c', majority_holds p c' → (c' ≤ c)%N) ∧ above c (commit_index p) ∧
  ∃ en, vget (log p) c = Some en ∧ term en = current_term p.
Proof.
  intros (ds & la & ci & b & -> & Hor)%try_advance_shape Hc Hne. simpl in Hc.
  destruct Hor as [(_ & _ & -> & _)|(c0 & en & -> & _ & Hg & Ht & Ha & Hm & _)]; [congruence|].
  injection Hc as ->. split_and!.
  - apply (candidate_majority _ _ _ Hm), at_least_Some. eauto with lia.
  - intros c' Hc'. apply (candidate_majority _ _ _ Hm), at_least_Some in Hc' as (x & [= <-] & ?).
    done.
  - by apply is_none_or_above.
  - eauto.
Qed.

(** Completeness of the commit rule: if [c] is the largest index a
    majority holds, lies above the commit index and has an entry of the
    leader's term, then [try_advance_commit] returns and has moved the commit
    index to [c]. *)
Theorem try_advance_commit_complete p c en :
  (∀ a, last_applied p = Some a → (a < u64_max)%N) →
  majority_holds p c → (∀ c', majority_holds p c' → (c' ≤ c)%N) →
  above c (commit_index p) → vget (log p) c = Some en → term en = current_term p →
  ∃ p', try_advance_commit p = Some p' ∧ commit_index p' = Some c.
Proof.
  intros Hla Hm Hmax Ha Hg Hen. unfold try_advance_commit.
  set (idx := merge_sort opt_ge (snd <$> map_to_list (match_index p))) in *.
  assert (quorum p ≤ length idx) as Hlen.
  { unfold idx. rewrite merge_sort_Permutation.
    unfold majority_holds in Hm. rewrite holders_count in Hm.
    etransitivity; [exact Hm|]. apply length_filter. }
  rewrite bool_decide_eq_false_2 by lia.
  pose proof (quorum_size_pos (total_nodes p)) as Hpos. fold (quorum p) in Hpos.
  destruct (lookup_lt_is_Some_2 idx (quorum p - 1)) as [x Hx]; [lia|].
  rewrite Hx. simpl. apply (candidate_majority _ _ _ Hx) in Hm as Hcx.
  apply at_least_Some in Hcx as (x' & -> & Hle).
  assert (x' ≤ c)%N by (apply Hmax, (candidate_majority _ _ _ Hx), at_least_Some; eauto with lia).
  assert (x' = c) as -> by lia. rewrite Hg.
  rewrite (proj2 (N.eqb_eq _ _) Hen), (proj2 (is_none_or_above _ _) Ha). simpl.
  match goal with |- context [apply_committed_entries ?q] =>
    destruct (apply_committed_total q) as [p' Hp'] end; [|done|].
  - simpl. intros ? [= <-]. by eapply vget_Some_lt.
  - exists p'. split; [done|]. by apply apply_committed_commit in Hp' as [-> _].
Qed.
End commit_claims.

(** ** What a node applies *)
Section applied.
Context {V St : Type}.
Abbreviation RP := (RaftProtocol V St).
Implicit Types (p : RP).

(** From [p] to [p1] the slots from the first unapplied one on were applied,
    in order, with the values of [p1]'s log, and queued, none of them above
    the commit index, which has not gone back. *)
Record applied_step (p p1 : RP) : Prop := {
  as_decisions : ∃ ds, pending_decisions p1 = pending_decisions p ++ ds ∧
    decisions_of (log p1) (next_to_apply (last_applied p)) (length ds) ds ∧
    next_to_apply (last_applied p1) =
      (next_to_apply (last_applied p) + N.of_nat (length ds))%N ∧
    ∀ d, d ∈ ds → ∃ c, commit_index p1 = Some c ∧ (d_slot d ≤ c)%N;
  as_commit : opt_leb (commit_index p) (commit_index p1) = true;
}.

Lemma opt_leb_refl ci : opt_leb ci ci = true.
Proof. destruct ci; simpl; [apply N.leb_refl|done]. Qed.

Lemma decisions_of_nil (l : list (LogEntry V)) i : decisions_of l i 0 [].
Proof. split; [done|]. intros k d. by rewrite lookup_nil. Qed.

(** Nothing applied. *)
Lemma applied_none p p1 :
  pending_decisions p1 = pending_decisions p → last_applied p1 = last_applied p →
  commit_index p1 = commit_index p → applied_step p p1.
Proof.
  intros Hd Hl Hc. split; [|rewrite Hc; apply opt_leb_refl].
  exists []. rewrite Hd, Hl, app_nil_r.
  split_and!; [done|apply decisions_of_nil|simpl; lia|by intros d ?%not_elem_of_nil].
Qed.

(** Bookkeeping after the application keeps the step. *)
Lemma applied_after p p1 p2 :
  applied_step p p1 → pending_decisions p2 = pending_decisions p1 →
  last_applied p2 = last_applied p1 → commit_index p2 = commit_index p1 →
  log p2 = log p1 → applied_step p p2.
Proof. intros [Hd Hc] E1 E2 E3 E4. split; rewrite ?E1, ?E2, ?E3, ?E4; done. Qed.

Lemma apply_committed_applied p p' :
  apply_committed_entries p = Some p' → applied_step p p'.
Proof.
  intros (ds & la & -> & Hor)%apply_committed_shape. split; [|apply opt_leb_refl]. simpl.
  exists ds. destruct Hor as [(-> & -> & _)|(c & Hc & -> & Hle & Hds)].
  - split_and!; [done|apply decisions_of_nil|simpl; lia|by intros d ?%not_elem_of_nil].
  - destruct Hds as [Hlen Hds]. split_and!; [done|split; [done|apply Hds]|simpl; lia|].
    intros d [k Hk]%list_elem_of_lookup_1. exists c. split; [done|].
    destruct (Hds _ _ Hk) as [-> _]. apply lookup_lt_Some in Hk. lia.
Qed.

(** Moving the commit index up, then applying. *)
Lemma commit_applied p c b p' :
  above c (commit_index p) →
  apply_committed_entries {| p with commit_index := Some c;
    pending_persist_commit_index := b |} = Some p' → applied_step p p'.
Proof.
  intros Ha Hp. pose proof (apply_committed_commit _ _ Hp) as [Hc _].
  apply apply_committed_applied in Hp as [Hd _]. split; [done|]. rewrite Hc. simpl.
  unfold above in Ha. destruct (commit_index p) as [cur|]; [|done].
  specialize (Ha _ eq_refl). simpl. apply N.leb_le. lia.
Qed.

Lemma try_advance_applied p p' : try_advance_commit p = Some p' → applied_step p p'.
Proof.
  intros (ds & la & ci & b & Hp & Hor)%try_advance_shape.
  destruct Hor as [(-> & -> & -> & ->)|(c & en & _ & _ & _ & _ & Ha & _ & Happ)].
  - subst p'. apply applied_none; simpl; [apply app_nil_r|done..].
  - eapply commit_applied; [|done]. by apply is_none_or_above.
Qed.

Lemma advance_follower_applied lc mi p p' :
  advance_follower_commit lc mi p = Some p' → applied_step p p'.
Proof.
  unfold advance_follower_commit. intros Ha.
  destruct lc as [lc|], mi as [mi|]; try (injection Ha as <-; by apply applied_none).
  destruct (is_none_or _ _) eqn:Hn; [|injection Ha as <-; by apply applied_none].
  eapply commit_applied; [|done]. by apply is_none_or_above.
Qed.

(** ** The handlers *)
Lemma broadcast_with_entries_state e es p p1 out :
  broadcast_with_entries e es p = Some (p1, out) →
  p1 = {| p with last_heartbeat_sent := Some (env_now e) |}.
Proof.
  intros Hb. unfold broadcast_with_entries in Hb. simpl in Hb.
  destruct (match _ with Some i => term <$> vget (log p) i | None => Some 0%N end); [|done].
  by injection Hb as <- <-.
Qed.

Lemma become_leader_applied e p p1 out :
  become_leader e p = Some (p1, out) → applied_step p p1.
Proof.
  unfold become_leader. intros Hb. destruct (pending_proposals p) as [|v vs] eqn:Hv; simpl in Hb.
  - injection Hb as <- <-. by apply applied_none.
  - destruct (try_advance_commit _) as [p2|] eqn:Ht in Hb; [|done]. simpl in Hb.
    apply broadcast_with_entries_state in Hb as ->.
    apply try_advance_applied in Ht. by destruct Ht.
Qed.

Lemma start_election_applied e p p1 out :
  start_election e p = Some (p1, out) → applied_step p p1.
Proof.
  unfold start_election. intros Hs. destruct (u64_add _ _) as [t|]; [|done]. simpl in Hs.
  case_bool_decide.
  - apply become_leader_applied in Hs. by destruct Hs.
  - destruct (is_candidate _); simpl in Hs; injection Hs as <- <-; by apply applied_none.
Qed.

Lemma propose_applied e v p p1 out : propose e v p = Some (p1, out) → applied_step p p1.
Proof.
  unfold propose. intros Hp. destruct (is_leader _).
  - simpl in Hp. destruct (try_advance_commit _) as [p2|] eqn:Ht in Hp; [|done]. simpl in Hp.
    apply broadcast_with_entries_state in Hp as ->.
    apply try_advance_applied in Ht. by destruct Ht.
  - destruct (leader p); injection Hp as <- <-; by apply applied_none.
Qed.

Lemma on_tick_applied e now p p1 out : on_tick e now p = Some (p1, out) → applied_step p p1.
Proof.
  unfold on_tick. intros Ht. destruct (role p).
  1, 2: destruct (_ <=? _)%N;
    [by eapply start_election_applied|injection Ht as <- <-; by apply applied_none].
  destruct (match last_heartbeat_sent p with Some _ => _ | None => _ end);
    injection Ht as <- <-; by apply applied_none.
Qed.

Lemma handle_append_entries_applied e from t l prev pt es lc p p1 out :
  handle_append_entries e from t l prev pt es lc p = Some (p1, out) → applied_step p p1.
Proof.
  unfold handle_append_entries. intros Hh.
  destruct (_ <? _)%N; [injection Hh as <- <-; by apply applied_none|].
  destruct (_ && _); [injection Hh as <- <-; by apply applied_none|]. simpl in Hh.
  destruct (negb _).
  { destruct (conflict_hint _ _); [|done]. injection Hh as <- <-. by apply applied_none. }
  match type of Hh with context [place_entries ?a ?b ?c] =>
    destruct (place_entries_shape a b c) as (tr & fr & Hs); rewrite Hs in Hh end. simpl in Hh.
  destruct (verified_index _ _) as [last|].
  - match type of Hh with context [truncate_suffix ?a ?b] =>
      destruct (truncate_suffix_shape a b) as (tr2 & Hs2); rewrite Hs2 in Hh end. simpl in Hh.
    destruct (advance_follower_commit _ _ _) as [q|] eqn:Ha; [|done]. simpl in Hh.
    injection Hh as <- <-. apply advance_follower_applied in Ha. by destruct Ha.
  - destruct (advance_follower_commit _ _ _) as [q|] eqn:Ha; [|done]. simpl in Hh.
    injection Hh as <- <-. apply advance_follower_applied in Ha. by destruct Ha.
Qed.

Lemma handle_append_entries_response_applied from t su mi ct ci p p1 out :
  handle_append_entries_response from t su mi ct ci p = Some (p1, out) → applied_step p p1.
Proof.
  unfold handle_append_entries_response. intros Hh.
  destruct (_ || _); [injection Hh as <- <-; by apply applied_none|]. destruct su.
  - destruct mi as [m|]; [|injection Hh as <- <-; by apply applied_none].
    destruct (_ || _); [injection Hh as <- <-; by apply applied_none|].
    destruct (try_advance_commit _) as [q|] eqn:Ht; [|done]. simpl in Hh.
    injection Hh as <- <-. apply try_advance_applied in Ht. by destruct Ht.
  - simpl in Hh.
    destruct (match _ with Some i => term <$> vget (log p) i | None => Some 0%N end); [|done].
    destruct (vslice_from _ _); [|done]. simpl in Hh. injection Hh as <- <-.
    by apply applied_none.
Qed.

Lemma bump_term_same e msg p :
  pending_decisions (bump_term e msg p) = pending_decisions p ∧
  last_applied (bump_term e msg p) = last_applied p ∧
  commit_index (bump_term e msg p) = commit_index p.
Proof.
  unfold bump_term. destruct (incoming_term msg) as [t|]; [|done].
  by destruct (current_term p <? t)%N.
Qed.

Lemma applied_before p p0 p1 :
  applied_step p0 p1 → pending_decisions p0 = pending_decisions p →
  last_applied p0 = last_applied p → commit_index p0 = commit_index p → applied_step p p1.
Proof. intros [Hd Hc] E1 E2 E3. rewrite E1, E2 in Hd. rewrite E3 in Hc. by split. Qed.

Lemma handle_message_applied e from msg p p1 out :
  handle_message e from msg p = Some (p1, out) → applied_step p p1.
Proof.
  intros Hh. destruct (bump_term_same e msg p) as (E1 & E2 & E3).
  eapply applied_before; [|exact E1|exact E2|exact E3]. clear E1 E2 E3.
  unfold handle_message in Hh. destruct msg; simpl in Hh.
  - unfold handle_request_vote in Hh. destruct (if (_ <? _)%N then _ else _);
      injection Hh as <- <-; by apply applied_none.
  - unfold handle_request_vote_response in Hh.
    destruct (_ || _); [injection Hh as <- <-; by apply applied_none|].
    destruct vote_granted; [|injection Hh as <- <-; by apply applied_none].
    case_bool_decide; [|injection Hh as <- <-; by apply applied_none].
    apply become_leader_applied in Hh. by destruct Hh.
  - by eapply handle_append_entries_applied.
  - by eapply handle_append_entries_response_applied.
  - unfold handle_forward in Hh. destruct (is_leader _); [by eapply propose_applied|].
    destruct (leader _); [|injection Hh as <- <-; by apply applied_none].
    case_bool_decide; [|injection Hh as <- <-; by apply applied_none].
    destruct (_ <=? _)%N; injection Hh as <- <-; by apply applied_none.
Qed.

Lemma run_event_applied e ev p p1 out :
  run_event e ev p = Some (p1, out) → applied_step p p1.
Proof.
  destruct ev; simpl;
    [apply propose_applied|apply handle_message_applied|apply on_tick_applied].
Qed.
End applied.

(** ** A node between two restarts *)
Section serve.
Context {V St : Type} `{RaftStorage St V}.
Implicit Types (p : RaftProtocol V St).



(** One event applies entries in order: the decisions an event adds are
    for the slots from the first unapplied one on, without gap, each with the
    value of the node's log at that slot; the applied index moves up by their
    number; the commit index never goes back. *)
Theorem event_applies_in_order e ev p p1 out :
  run_event e ev p = Some (p1, out) →
  (∃ ds, pending_decisions p1 = pending_decisions p ++ ds ∧
     (∀ k d, ds !! k = Some d →
        d_slot d = (next_to_apply (last_applied p) + N.of_nat k)%N ∧
        ∃ en, vget (log p1) (d_slot d) = Some en ∧ d_value d = value en) ∧
     next_to_apply (last_applied p1) =
       (next_to_apply (last_applied p) + N.of_nat (length ds))%N) ∧
  opt_leb (commit_index p) (commit_index p1) = true.
Proof.
  intros Hr. apply run_event_applied in Hr as [(ds & Hd & [_ Hds] & Hl & _) Hc].
  split; [|done]. by exists ds.
Qed.










End serve.

Module CommitRun.
Import Sample.

Definition commit_to : RaftProtocol N (RaftMemoryStorage N) :=
  default leading (try_advance_commit leading).

(** [a] holds index 2, [b] index 1: index 1 is committed. *)
Lemma try_advance_commit_sound_witness : majority_holds leading 1.
Proof.
  apply (try_advance_commit_sound leading commit_to 1);
    [vm_compute; reflexivity|vm_compute; reflexivity|done].
Defined.

Lemma majority_max c' : majority_holds leading c' → (c' ≤ 1)%N.
Proof.
  intros Hm. eapply candidate_majority, at_least_Some in Hm as (x & Hx & Hle).
  2: { vm_compute. reflexivity. }
  by injection Hx as <-.
Qed.

Lemma try_advance_commit_complete_witness :
  ∃ p', try_advance_commit leading = Some p' ∧ commit_index p' = Some 1%N.
Proof.
  apply (try_advance_commit_complete leading 1 (mkEntry 2 11%N));
    [done| |apply majority_max|done|reflexivity|reflexivity].
  unfold majority_holds. vm_compute. lia.
Defined.

Definition ack : Event N := EvReceive c (AppendEntriesResponse 2 true (Some 2%N) None None).
Definition acked : RaftProtocol N (RaftMemoryStorage N) :=
  match run_event env ack leading with Some (q, _) => q | None => leading end.

Lemma event_applies_in_order_witness : next_to_apply (last_applied acked) = 3%N.
Proof.
  destruct (event_applies_in_order env ack leading acked []) as [(ds & Hd & _ & Hl) _];
    [vm_compute; reflexivity|].
  rewrite Hl. assert (length ds = 3) as ->; [|reflexivity].
  change (length (pending_decisions leading ++ ds) = 3). rewrite <- Hd. reflexivity.
Defined.


End CommitRun.
