(* ===== verification/RaftTotal.v ===== *)
(** * Raft: no event panics

    Every slice, index and checked addition of the event handlers is in range
    in every state whose term and applied index are below the maximum of
    [u64], whatever message arrives, so that an event and the flush after it
    always return. *)

From S2P Require Import Prelude Types Storage Raft RaftLocal RaftEvents RaftDurable.
From S2P Require Import RaftExec RaftCommit.

Section total.
Context {V St : Type}.
Abbreviation RP := (RaftProtocol V St).
Implicit Types (p : RP).

(** The applied index is below its maximum. *)
Definition roomy p : Prop := ∀ a, last_applied p = Some a → (a < u64_max)%N.

Lemma try_advance_total p : roomy p → is_Some (try_advance_commit p).
Proof.
  intros Hla. unfold try_advance_commit. case_bool_decide as Hlen; [eauto|].
  pose proof (quorum_size_pos (total_nodes p)) as Hpos. fold (quorum p) in Hpos.
  match goal with |- context [?l !! (quorum p - 1)] =>
    destruct (lookup_lt_is_Some_2 l (quorum p - 1)) as [x ->]; [lia|] end. simpl.
  destruct x as [c|]; [|eauto]. destruct (vget (log p) c) as [en|] eqn:Hg; [|eauto].
  destruct (_ && _); [|eauto]. apply apply_committed_total; simpl; [|done].
  intros ? [= <-]. by eapply vget_Some_lt.
Qed.

Lemma broadcast_with_entries_total e es p : is_Some (broadcast_with_entries e es p).
Proof.
  unfold broadcast_with_entries. simpl. case_bool_decide as Hl; simpl; [|eauto].
  destruct (vget_is_Some (log p) (vlen (log p) - vlen es - 1)) as [_ [en ->]].
  - unfold vlen. lia.
  - simpl. eauto.
Qed.

Lemma become_leader_total e p : roomy p → is_Some (become_leader e p).
Proof.
  intros Hr. unfold become_leader. destruct (pending_proposals p); simpl; [eauto|].
  match goal with |- context [try_advance_commit ?q] =>
    destruct (try_advance_total q Hr) as [q' ->] end. simpl.
  apply broadcast_with_entries_total.
Qed.

Lemma propose_total e v p : roomy p → is_Some (propose e v p).
Proof.
  intros Hr. unfold propose. destruct (is_leader _); [|destruct (leader p); eauto]. simpl.
  match goal with |- context [try_advance_commit ?q] =>
    destruct (try_advance_total q Hr) as [q' ->] end. simpl.
  apply broadcast_with_entries_total.
Qed.

Lemma on_tick_total e now p :
  roomy p → (current_term p < u64_max)%N → is_Some (on_tick e now p).
Proof.
  intros Hr Ht. unfold on_tick. destruct (role p).
  3: { destruct (match last_heartbeat_sent p with Some _ => _ | None => _ end); eauto. }
  all: destruct (_ <=? _)%N; [|eauto]; unfold start_election, u64_add;
    rewrite (proj2 (checked_add_Some u64_max (current_term p) 1 _)) by (split; [done|lia]);
    simpl; (case_bool_decide; [by apply become_leader_total|]);
    destruct (is_candidate _); eauto.
Qed.

Lemma handle_append_entries_total e from t l prev pt es lc p :
  roomy p → log_clean p → is_Some (handle_append_entries e from t l prev pt es lc p).
Proof.
  intros Hr [Htr Hfr]. unfold handle_append_entries.
  destruct (_ <? _)%N; [eauto|]. destruct (_ && _); [eauto|]. simpl.
  destruct (prev_ok _ prev pt) eqn:Hprev; simpl.
  2: { unfold conflict_hint; simpl. destruct prev as [i|]; simpl; [|eauto].
       destruct (_ <=? _)%N eqn:Hle; simpl; [eauto|]. breflect.
       destruct (proj2 (vget_is_Some (log p) i)) as [en ->]; [done|]. simpl. eauto. }
  set (q := {| p with role := Follower; leader := Some l; election_deadline := _ |}) in *.
  assert (start_of prev ≤ vlen (log q))%N as Hst.
  { unfold prev_ok in Hprev. destruct prev as [i|]; simpl in *; [|lia].
    destruct (vget (log p) i) eqn:Hg; [|done]. apply vget_Some_lt in Hg. lia. }
  destruct (place_entries_sync (start_of prev) es q Htr Hfr Hst) as (_ & Hlen & _).
  destruct (place_entries_shape (start_of prev) es q) as (tr & fr & Hs).
  unfold start_of in Hs, Hlen. rewrite Hs in *. simpl in *.
  destruct (verified_index prev (vlen es)) as [last|] eqn:Hv; simpl.
  - match goal with |- context [truncate_suffix ?a ?b] =>
      destruct (truncate_suffix_shape a b) as (tr2 & Hs2); rewrite Hs2 end. simpl.
    assert (last + 1 ≤ vlen (place_log (start_of prev) es (log p)))%N as Hlast.
    { unfold verified_index, start_of in *. destruct prev as [i|]; simplify_eq/=; [lia|].
      destruct (vlen es =? 0)%N eqn:E; simplify_eq/=. breflect. lia. }
    assert (∀ q', log q' = vtruncate (place_log (start_of prev) es (log p)) (last + 1) →
      last_applied q' = last_applied p →
      is_Some (advance_follower_commit (V:=V) (St:=St) lc (Some last) q')) as Hadv.
    { intros q' Hlog Hla. unfold advance_follower_commit. destruct lc as [c|]; [|eauto].
      destruct (is_none_or _ _); [|eauto]. apply apply_committed_total; simpl.
      - intros ? [= <-]. rewrite Hlog, vlen_truncate. lia.
      - rewrite Hla. apply Hr. }
    match goal with |- context [advance_follower_commit _ _ ?q'] =>
      destruct (Hadv q' eq_refl eq_refl) as [q2 ->] end. simpl. eauto.
  - unfold advance_follower_commit. destruct lc; simpl; eauto.
Qed.

Lemma handle_append_entries_response_total from t su mi ct ci p :
  roomy p → is_Some (handle_append_entries_response from t su mi ct ci p).
Proof.
  intros Hr. unfold handle_append_entries_response. destruct (_ || _); [eauto|].
  destruct su.
  - destruct mi as [m|]; [|eauto]. destruct (_ || _); [eauto|].
    match goal with |- context [try_advance_commit ?q] =>
      destruct (try_advance_total q Hr) as [q' ->] end. simpl. eauto.
  - simpl. pose proof (backtrack_next_le p from ct ci) as Hle.
    set (nn := backtrack_next p from ct ci) in *.
    rewrite (proj2 (vslice_from_Some (log p) nn _)) by eauto.
    destruct (nn =? 0)%N eqn:E; simpl; [eauto|]. breflect.
    destruct (proj2 (vget_is_Some (log p) (nn - 1))) as [en ->]; [lia|]. simpl. eauto.
Qed.

Lemma handle_message_total e from msg p :
  roomy p → log_clean p → is_Some (handle_message e from msg p).
Proof.
  intros Hr Hc. destruct (bump_term_same e msg p) as (_ & E2 & _).
  assert (roomy (bump_term e msg p)) as Hr1 by (unfold roomy; by rewrite E2).
  assert (log_clean (bump_term e msg p)) as Hc1.
  { unfold bump_term. destruct (incoming_term msg); [|done]. destruct (_ <? _)%N; [|done].
    split; [apply Hc|done]. }
  unfold handle_message. destruct msg; simpl; [eauto| |..].
  - unfold handle_request_vote_response. destruct (_ || _); [eauto|].
    destruct vote_granted; [|eauto]. case_bool_decide; [|eauto]. by apply become_leader_total.
  - by apply handle_append_entries_total.
  - by apply handle_append_entries_response_total.
  - unfold handle_forward. destruct (is_leader _); [by apply propose_total|].
    destruct (leader _); [|eauto]. case_bool_decide; [|eauto]. destruct (_ <=? _)%N; eauto.
Qed.

Lemma run_event_total e ev p :
  roomy p → (current_term p < u64_max)%N → log_clean p → is_Some (run_event e ev p).
Proof.
  destruct ev; simpl; intros; [by apply propose_total|by apply handle_message_total
    |by apply on_tick_total].
Qed.

Lemma log_sync_from (l l1 : list (LogEntry V)) tr fr a :
  log_sync l l1 tr fr → fr = Some a → (a ≤ vlen l1)%N.
Proof.
  intros Hs ->. unfold log_sync in Hs. destruct tr as [i|].
  - destruct Hs as (-> & _ & ? & _). done.
  - destruct Hs as (-> & k & ->). rewrite vlen_app. lia.
Qed.
End total.

Section claims.
Context {V St : Type} `{RaftStorage St V}.
Implicit Types (p : RaftProtocol V St).

(** C24. No panic: a node with nothing left to persist, a term below
    [u64::MAX] and an applied index below [u64::MAX] handles every proposal,
    message and tick, and the flush that follows returns too (with success
    or with the error of the storage). *)
Theorem event_never_panics e ev p :
  log_clean p → (current_term p < u64_max)%N → roomy p →
  ∃ p1 out p2 r, run_event e ev p = Some (p1, out) ∧ flush_persist p1 = Some (p2, r).
Proof.
  intros Hc Ht Hr. destruct (run_event_total e ev p Hr Ht Hc) as [[p1 out] Hrun].
  exists p1, out. pose proof (run_event_spec _ _ _ _ _ Hc Hrun) as Hes.
  destruct (flush_total p1) as [[p2 r] Hf].
  - intros a. apply (log_sync_from (log p) (log p1) (pending_truncate_from p1)).
    by eapply log_step_sync, es_log.
  - eauto.
Qed.
End claims.

Module TotalRun.
Import Sample.

Lemma event_never_panics_witness :
  ∃ p1 out p2 r, run_event env (EvPropose 13%N) leading = Some (p1, out) ∧
    flush_persist p1 = Some (p2, r).
Proof.
  apply (event_never_panics env (EvPropose 13%N) leading);
    [by split|vm_compute; reflexivity|done].
Defined.
End TotalRun.
