(* ===== verification/RaftCatchup.v ===== *)
(** * Raft: bringing a follower up to date

    The exchange between a leader and a follower whose log lags or diverges:
    a rejected AppendEntries carries a hint, the leader backs up and sends a
    longer suffix. The hint always moves the leader back, so the exchange ends
    after at most as many rounds as the leader's log has entries, with the
    follower's log equal to the leader's. *)

From S2P Require Import Prelude Types Network Storage Raft RaftLocal RaftEvents RaftNet.
From S2P Require Import RaftNetLemmas RaftElection RaftLogs RaftExec RaftCommit RaftTotal.

Section catchup.
Context {V St U : Type}.
Context (obs : V → U).
Abbreviation RP := (RaftProtocol V St).
Implicit Types (p q : RP).

(** A round: the follower handles a message of the leader and the leader the
    response; the leader's next message, if there is one. *)
Definition ae_round (e : Env) (p q : RP) (msg : RaftMessage V)
    : option (RP * RP * option (RaftMessage V)) :=
  '(q1, out) ← handle_message e (node_id p) msg q;
  match out with
  | [] => Some (p, q1, None)
  | o :: _ =>
      '(p1, out1) ← handle_message e (node_id q) (message o) p;
      Some (p1, q1, message <$> head out1)
  end.

Fixpoint catch_up (fuel : nat) (e : Env) (p q : RP) (msg : RaftMessage V)
    : option (RP * RP) :=
  match fuel with
  | O => None
  | S fuel =>
      '(p1, q1, next) ← ae_round e p q msg;
      match next with
      | Some msg => catch_up fuel e p1 q1 msg
      | None => Some (p1, q1)
      end
  end.

(** ** The hint moves the leader back *)
Lemma first_index_of_term_le (l : list (LogEntry V)) i t k :
  first_index_of_term l i t = Some k → (k ≤ i)%N.
Proof.
  unfold first_index_of_term. destruct (list_find _ _) as [[j en]|] eqn:Hf; [|done].
  intros [= <-]. apply list_find_Some in Hf as (Hj & _). apply lookup_take_Some in Hj as [_ ?].
  simpl. lia.
Qed.

Lemma first_index_of_term_total (l : list (LogEntry V)) i en :
  vget l i = Some en → is_Some (first_index_of_term l i (term en)).
Proof.
  intros Hg. unfold first_index_of_term, vget in *.
  destruct (list_find_elem_of (λ x, term x = term en) (take (N.to_nat (i + 1)) l) en) as [r ->];
    [|done|done].
  eapply list_elem_of_lookup_2. rewrite lookup_take_lt; [done|lia].
Qed.

Lemma last_index_of_term_Some (l : list (LogEntry V)) t j :
  last_index_of_term l t = Some j → ∃ en, vget l j = Some en ∧ term en = t.
Proof.
  unfold last_index_of_term. destruct (list_find _ _) as [[k en]|] eqn:Hf; [|done].
  intros [= <-]. apply list_find_Some in Hf as (Hk & Ht & _). simpl.
  pose proof (lookup_lt_Some _ _ _ Hk) as Hlt. rewrite length_reverse in Hlt.
  rewrite reverse_lookup in Hk by done. exists en. split; [|done].
  unfold vget, vlen. rewrite <- Hk. f_equal. lia.
Qed.

(** The terms of two matching logs. *)
Lemma matches_term_lookup (l k : list (LogEntry V)) (i j : N) x y z :
  matches_upto (ob obs <$> l) (ob obs <$> k) →
  (i ≤ j)%N → vget l i = Some x → vget k j = Some y → term x = term y →
  vget k i = Some z → term z = term x.
Proof.
  intros Hm Hij Hx Hy Hxy Hz. unfold vget in *.
  assert (take (S (N.to_nat i)) (ob obs <$> l) = take (S (N.to_nat i)) (ob obs <$> k)) as Ht.
  { apply (Hm _ (N.to_nat j) (ob obs x) (ob obs y)); [lia| | |exact Hxy];
      rewrite list_lookup_fmap; [by rewrite Hx|by rewrite Hy]. }
  apply (take_eq_lookup _ _ _ (N.to_nat i)) in Ht; [|lia].
  rewrite !list_lookup_fmap, Hx, Hz in Ht. by injection Ht.
Qed.

Lemma backtrack_progress_lemma p q from i en ct ci :
  matches_upto (ob obs <$> log q) (ob obs <$> log p) →
  vget (log p) i = Some en → prev_ok q (Some i) (term en) = false →
  conflict_hint q (Some i) = Some (ct, ci) → (backtrack_next p from ct ci ≤ i)%N.
Proof.
  intros Hm Hen Hprev Hh. unfold conflict_hint in Hh.
  destruct (_ <=? _)%N eqn:Hle; breflect.
  { injection Hh as <- <-. unfold backtrack_next. lia. }
  destruct (vget (log q) i) as [x|] eqn:Hx; [|done]. simpl in *.
  rewrite Hx in Hprev. breflect. injection Hh as <- <-.
  destruct (first_index_of_term_total _ _ _ Hx) as [k Hk].
  unfold backtrack_next. rewrite Hk. apply first_index_of_term_le in Hk.
  destruct (last_index_of_term (log p) (term x)) as [j|] eqn:Hj; [|lia].
  apply last_index_of_term_Some in Hj as (y & Hy & Hyt).
  assert (j < i)%N as Hlt.
  { destruct (decide (i ≤ j)%N) as [Hij|]; [|lia].
    destruct Hprev. symmetry. by eapply (matches_term_lookup (log q) (log p) i j x y en). }
  unfold saturating_add. lia.
Qed.

(** ** The follower's side *)

(** [q] takes AppendEntries of term [T]. *)
Record ready (T : N) (q : RP) : Prop := {
  rd_term : (current_term q ≤ T)%N;
  rd_role : current_term q = T → role q ≠ Leader;
  rd_clean : log_clean q;
  rd_roomy : roomy q;
}.

Lemma bump_ready e T l prev pt es lc q :
  let q0 := bump_term e (AppendEntries T l prev pt es lc) q in
  ready T q →
  current_term q0 = T ∧ is_leader (role q0) = false ∧ log q0 = log q ∧ log_clean q0 ∧ roomy q0.
Proof.
  intros q0 [Ht Hr Hc Hro]. subst q0. unfold bump_term; simpl.
  destruct (current_term q <? T)%N eqn:E; simpl.
  - rewrite E. refine (conj eq_refl (conj eq_refl (conj eq_refl (conj _ Hro)))).
    split; [apply Hc|done].
  - breflect. assert (current_term q = T) as Heq by lia. specialize (Hr Heq).
    refine (conj Heq (conj _ (conj eq_refl (conj Hc Hro)))). by destruct (role q).
Qed.

Lemma prev_ok_log q q' prev pt : log q = log q' → prev_ok q prev pt = prev_ok q' prev pt.
Proof. unfold prev_ok. by intros ->. Qed.

Lemma conflict_hint_total q prev pt :
  prev_ok q prev pt = false → is_Some (conflict_hint q prev).
Proof.
  unfold prev_ok, conflict_hint. destruct prev as [i|]; [|done]. intros _.
  destruct (_ <=? _)%N eqn:Hle; simpl; [eauto|]. breflect.
  destruct (proj2 (vget_is_Some (log q) i)) as [en ->]; [done|]. simpl. eauto.
Qed.

Lemma follower_reject e from T l prev pt es lc q :
  ready T q → prev_ok q prev pt = false →
  ∃ q1 ct ci, conflict_hint q prev = Some (ct, ci) ∧
    handle_message e from (AppendEntries T l prev pt es lc) q =
      Some (q1, [mkOut (Peer l) (AppendEntriesResponse T false None ct ci)]) ∧
    log q1 = log q ∧ ready T q1.
Proof.
  intros Hrd Hprev. destruct (bump_ready e T l prev pt es lc q Hrd) as (Ht & Hr & Hl & Hc & Hro).
  destruct (conflict_hint_total _ _ _ Hprev) as [[ct ci] Hh].
  unfold handle_message. set (q0 := bump_term e (AppendEntries T l prev pt es lc) q) in *.
  unfold handle_append_entries. rewrite Ht, N.ltb_irrefl, Hr, andb_false_r. simpl.
  rewrite (prev_ok_log _ q) by done. rewrite Hprev. simpl.
  assert (∀ q', log q' = log q → conflict_hint q' prev = Some (ct, ci)) as Hh'.
  { intros q' Hq'. unfold conflict_hint in *. by rewrite Hq'. }
  match goal with |- context [conflict_hint ?x prev ≫= _] => rewrite (Hh' x) by done end. simpl.
  eexists _, ct, ci. split; [done|]. split; [done|].
  split; [done|]. split; simpl; [by rewrite ?Ht|done|apply Hc|done].
Qed.

Lemma follower_accept e from T l prev pt es lc q :
  ready T q → prev_ok q prev pt = true →
  ∃ q1 fw, handle_message e from (AppendEntries T l prev pt es lc) q =
      Some (q1, mkOut (Peer l)
        (AppendEntriesResponse T true (verified_index prev (vlen es)) None None) :: fw) ∧
    log q1 = ae_log prev es (log q).
Proof.
  intros Hrd Hprev. destruct (bump_ready e T l prev pt es lc q Hrd) as (Ht & Hr & Hl & Hc & Hro).
  unfold handle_message. set (q0 := bump_term e (AppendEntries T l prev pt es lc) q) in *.
  destruct (handle_append_entries_total e from T l prev pt es lc q0 Hro Hc) as [[q1 out] Hh].
  rewrite Hh. unfold handle_append_entries in Hh.
  rewrite Ht, N.ltb_irrefl, Hr, andb_false_r in Hh. simpl in Hh.
  rewrite (prev_ok_log _ q) in Hh by done. rewrite Hprev in Hh. simpl in Hh.
  match type of Hh with context [place_entries ?a ?b ?c] =>
    destruct (place_entries_shape a b c) as (tr & fr & Hs); rewrite Hs in Hh end. simpl in Hh.
  fold (start_of prev) in Hh. unfold ae_log.
  destruct (verified_index prev (vlen es)) as [last|].
  - match type of Hh with context [truncate_suffix ?a ?b] =>
      destruct (truncate_suffix_shape a b) as (tr2 & Hs2); rewrite Hs2 in Hh end. simpl in Hh.
    destruct (advance_follower_commit _ _ _) as [q2|] eqn:Ha; [|done].
    apply advance_follower_commit_shape in Ha as (? & ? & ? & ? & ->). simpl in Hh.
    injection Hh as <- <-. simpl. rewrite Hl. eauto.
  - destruct (advance_follower_commit _ _ _) as [q2|] eqn:Ha; [|done].
    apply advance_follower_commit_shape in Ha as (? & ? & ? & ? & ->). simpl in Hh.
    injection Hh as <- <-. simpl. rewrite Hl. eauto.
Qed.

(** ** The leader's side *)
Lemma leader_bump e msg p T :
  incoming_term msg = Some T → current_term p = T → bump_term e msg p = p.
Proof. unfold bump_term. intros -> ->. by rewrite N.ltb_irrefl. Qed.

Lemma leader_on_accept e from p mi :
  role p = Leader → roomy p →
  ∃ p1, handle_message e from
          (AppendEntriesResponse (current_term p) true mi None None) p = Some (p1, []) ∧
        log p1 = log p.
Proof.
  intros Hr Hro. unfold handle_message. rewrite (leader_bump _ _ _ (current_term p)) by done.
  unfold handle_append_entries_response. rewrite Hr, N.eqb_refl. simpl.
  destruct mi as [m|]; [|eauto]. destruct (_ || _); [eauto|].
  match goal with |- context [try_advance_commit ?x] =>
    destruct (try_advance_total x Hro) as [p1 Hp1] end.
  rewrite Hp1. simpl. exists p1. split; [done|].
  by apply try_advance_shape in Hp1 as (? & ? & ? & ? & -> & _).
Qed.

Lemma leader_on_reject e from p ct ci :
  role p = Leader →
  let nn := backtrack_next p from ct ci in
  ∃ p1 prev pt es, handle_message e from
      (AppendEntriesResponse (current_term p) false None ct ci) p =
    Some (p1, [mkOut (Peer from) (AppendEntries (current_term p) (node_id p) prev pt es
                (commit_index p))]) ∧
    start_of prev = nn ∧ ae_slice (log p) prev pt es ∧
    p1 = {| p with next_index := <[from := nn]> (next_index p) |}.
Proof.
  intros Hr nn. unfold handle_message. rewrite (leader_bump _ _ _ (current_term p)) by done.
  unfold handle_append_entries_response. rewrite Hr, N.eqb_refl. simpl.
  pose proof (backtrack_next_le p from ct ci) as Hle. fold nn in Hle |- *.
  rewrite (proj2 (vslice_from_Some (log p) nn _)) by eauto.
  destruct (nn =? 0)%N eqn:E; breflect.
  - simpl. eexists _, None, 0%N, _. split; [done|]. rewrite E. split; [done|].
    split; [|done]. split; [done|]. split; [simpl; lia|done].
  - destruct (proj2 (vget_is_Some (log p) (nn - 1))) as [en Hen]; [lia|]. rewrite Hen. simpl.
    eexists _, (Some (nn - 1)%N), (term en), _. split; [done|]. simpl. split; [lia|].
    split; [|done]. unfold ae_slice; simpl. replace (nn - 1 + 1)%N with nn by lia.
    split_and!; [done|lia|]. intros i [= <-]. eauto.
Qed.

(** The follower that accepts a suffix of the leader's log has its log. *)
Lemma accept_whole (l L : list (LogEntry V)) q prev pt es :
  log q = l → L ≠ [] → matches_upto (ob obs <$> l) (ob obs <$> L) →
  ae_slice L prev pt es → prev_ok q prev pt = true →
  ob obs <$> ae_log prev es l = ob obs <$> L.
Proof.
  intros Hl HL Hm Hs Hprev. pose proof (ae_slice_of obs _ _ _ _ Hs) as (Hst & He & Hp).
  destruct Hs as (Hes & Hle & _).
  assert ((start_of prev ≤ vlen l)%N ∧
    take (N.to_nat (start_of prev)) (ob obs <$> l) =
    take (N.to_nat (start_of prev)) (ob obs <$> L)) as [Hst' Htk].
  { unfold prev_ok in Hprev. rewrite Hl in Hprev. destruct prev as [i|]; simpl in *; [|split; [lia|done]].
    destruct (vget l i) as [en|] eqn:Hen; [|done]. breflect.
    destruct (Hp i eq_refl) as (x & Hx & Hxt). pose proof (vget_Some_lt _ _ _ Hen).
    split; [lia|]. replace (N.to_nat (i + 1)) with (S (N.to_nat i)) by lia.
    apply (Hm _ (N.to_nat i) (ob obs en) x); [lia| |done|simpl; congruence].
    unfold vget in Hen. by rewrite list_lookup_fmap, Hen. }
  destruct (ae_log_spec (ob obs) (ob_term obs) prev es l (ob obs <$> L))
    as [[Hv _]|(last & _ & _ & ->)]; [done|done|done|by apply matches_upto_matches| |].
  - destruct L as [|x L]; [done|]. subst es. unfold verified_index in Hv.
    destruct prev as [i|]; [done|]. by destruct (_ =? 0)%N eqn:E; breflect.
  - rewrite take_ge; [done|]. subst es. unfold vlen in *.
    rewrite length_fmap, length_drop. lia.
Qed.

(** What a leader with an empty log sends leaves every log as it is. *)
Lemma accept_empty (l : list (LogEntry V)) prev pt es :
  ae_slice (V := V) [] prev pt es → ae_log prev es l = l.
Proof.
  intros (-> & Hst & _). destruct prev as [i|]; simpl in Hst; [unfold vlen in Hst; simpl in Hst; lia|].
  reflexivity.
Qed.

End catchup.

Section claims.
Context {V St U : Type}.
Implicit Types (p q : RaftProtocol V St).

(** C19. The conflict hint makes progress: when a follower rejects an
    AppendEntries whose previous entry is at index [i] and the two logs
    satisfy log matching, the leader's next index for it, computed from the
    hint, is at most [i], strictly below the one it had tried. *)
Theorem backtrack_progress (obs : V → U) p q from i en ct ci :
  matches_upto (ob obs <$> log q) (ob obs <$> log p) →
  vget (log p) i = Some en → prev_ok q (Some i) (term en) = false →
  conflict_hint q (Some i) = Some (ct, ci) → (backtrack_next p from ct ci ≤ i)%N.
Proof. apply backtrack_progress_lemma. Qed.

(** C18. Catching up terminates. Take a leader, and a follower whose term is
    at most the leader's, that is not itself a leader of that term and whose
    log changes are all stored; both have applied fewer than [u64::MAX]
    entries, and their logs satisfy log matching. When the leader sends any of
    its AppendEntries and goes on answering rejections, the exchange ends
    after at most one round more than the index it started from, and the
    leader's log has not changed. If that log has an entry, the follower then
    holds exactly the same entries; a leader with an empty log removes
    nothing, its follower keeps the log it had. *)
Theorem catch_up_completes (obs : V → U) e fuel p q prev pt es lc :
  (start_of prev < N.of_nat fuel)%N →
  role p = Leader → roomy p → ready (current_term p) q →
  matches_upto (ob obs <$> log q) (ob obs <$> log p) → ae_slice (log p) prev pt es →
  ∃ p1 q1, catch_up fuel e p q
      (AppendEntries (current_term p) (node_id p) prev pt es lc) = Some (p1, q1) ∧
    log p1 = log p ∧
    (log p ≠ [] → ob obs <$> log q1 = ob obs <$> log p) ∧
    (log p = [] → log q1 = log q).
Proof.
  revert p q prev pt es lc.
  induction fuel as [|fuel IH]; intros p q prev pt es lc Hf Hr Hro Hrd Hm Hs; [lia|].
  simpl. unfold ae_round. destruct (prev_ok q prev pt) eqn:Hprev.
  - destruct (follower_accept e (node_id p) _ (node_id p) prev pt es lc q Hrd Hprev)
      as (q1 & fw & -> & Hlog). simpl.
    destruct (leader_on_accept e (node_id q) p (verified_index prev (vlen es)) Hr Hro)
      as (p1 & -> & Hp1). simpl. exists p1, q1. split; [done|]. rewrite Hlog.
    split_and!; [done|intros; by eapply accept_whole|].
    intros He. rewrite He in Hs. by eapply accept_empty.
  - destruct (follower_reject e (node_id p) _ (node_id p) prev pt es lc q Hrd Hprev)
      as (q1 & ct & ci & Hh & -> & Hlog & Hrd1). simpl.
    destruct (leader_on_reject e (node_id q) p ct ci Hr)
      as (p1 & prev1 & pt1 & es1 & -> & Hst & Hs1 & ->). simpl.
    destruct prev as [i|]; [|done]. destruct Hs as (_ & _ & Hp).
    destruct (Hp i eq_refl) as (en & Hen & <-).
    assert (start_of prev1 ≤ i)%N.
    { rewrite Hst. by eapply backtrack_progress_lemma. }
    simpl in Hf. rewrite <- Hlog. match goal with |- context [catch_up fuel e ?p' q1 _] =>
      apply (IH p' q1 prev1 pt1 es1) end; simpl; try done; [lia|by rewrite Hlog].
Qed.
End claims.

(** ** A diverged follower *)
Module CatchupRun.
Import Sample.

(** [b] holds an entry of term 1 where the leader has one of term 2. *)
Definition lagging : RaftProtocol N (RaftMemoryStorage N) := {| fresh with
  node_id := b; current_term := 1; log := [mkEntry 1 10%N; mkEntry 1 21%N; mkEntry 1 22%N] |}.

Lemma logs_match : matches_upto (ob id <$> log lagging) (ob id <$> log leading).
Proof.
  intros i j x y Hij Hx Hy Hxy.
  destruct j as [|[|[|j]]], i as [|[|[|i]]]; simplify_eq/=; try lia; done.
Qed.

Lemma backtrack_progress_witness :
  (backtrack_next leading b (Some 1%N) (Some 0%N) ≤ 2)%N.
Proof.
  apply (backtrack_progress id leading lagging b 2 (mkEntry 2 12%N));
    [apply logs_match|reflexivity|reflexivity|vm_compute; reflexivity].
Defined.

Lemma catch_up_completes_witness :
  ∃ p1 q1, catch_up 4 env leading lagging
      (AppendEntries 2 a (Some 2%N) 2 [] None) = Some (p1, q1) ∧
    log p1 = log leading ∧
    (log leading ≠ [] → ob id <$> log q1 = ob id <$> log leading) ∧
    (log leading = [] → log q1 = log lagging).
Proof.
  apply (catch_up_completes id env 4 leading lagging (Some 2%N) 2 [] None);
    [vm_compute; reflexivity|reflexivity|done| |apply logs_match|].
  - split; [by vm_compute|done|by split|done].
  - split; [reflexivity|]. split; [by vm_compute|]. intros i [= <-].
    exists (mkEntry 2 12%N). by split.
Defined.
End CatchupRun.
