(* ===== verification/RaftHandlers.v ===== *)
(** * Raft: what single handlers promise

    Voting against a reference order on logs, the leader's log under its own
    events, and the hop limit of forwarded proposals. *)

From S2P Require Import Prelude Types Storage Raft RaftLocal RaftEvents RaftExec.

Section handlers.
Context {V St : Type}.
Implicit Types (p : RaftProtocol V St).

(** A log's rank in an election: the term of its last entry, then its length. *)
Definition log_rank (last_term : N) (last_index : option N) : N * N :=
  (last_term, start_of last_index).
Definition rank_le (a b : N * N) : Prop := (a.1 < b.1)%N ∨ (a.1 = b.1 ∧ (a.2 ≤ b.2)%N).

Lemma up_to_date_rank p lt li :
  candidate_log_at_least_as_up_to_date p lt li = true ↔
  rank_le (log_rank (last_log_term p) (last_log_index p)) (log_rank lt li).
Proof.
  unfold candidate_log_at_least_as_up_to_date, rank_le, log_rank, start_of; simpl.
  destruct (lt =? last_log_term p)%N eqn:E; breflect; simpl.
  - destruct li as [c|], (last_log_index p) as [m|]; rewrite ?N.leb_le; split; intros; try done; try lia.
  - rewrite N.ltb_lt. lia.
Qed.

(** The vote [p] has cast in term [t], if it is there already. *)
Definition vote_in p (t : N) : option NodeId :=
  if (current_term p <? t)%N then None else voted_for p.

(** C21. Voting: a RequestVote of term [t] is answered to the candidate with
    exactly one response; the vote is granted if and only if the term is not
    stale, no other candidate has the node's vote in that term, and the
    candidate's log ranks at least as high (last term first, then length);
    a granted vote is the node's vote afterwards and is flagged for
    persistence, a refused one leaves the vote of that term as it was, and the
    log never changes. *)
Theorem request_vote_granted_iff e from t c li lt p p1 out :
  handle_message e from (RequestVote t c li lt) p = Some (p1, out) →
  ∃ granted, out = [mkOut (Peer c) (RequestVoteResponse (N.max (current_term p) t) granted)] ∧
    (granted = true ↔
       (current_term p ≤ t)%N ∧ (vote_in p t = None ∨ vote_in p t = Some c) ∧
       rank_le (log_rank (last_log_term p) (last_log_index p)) (log_rank lt li)) ∧
    current_term p1 = N.max (current_term p) t ∧ log p1 = log p ∧
    (granted = true → voted_for p1 = Some c ∧ pending_persist_voted_for p1 = true) ∧
    (granted = false → voted_for p1 = vote_in p t).
Proof.
  unfold handle_message. intros Hh. simpl in Hh. apply (inj Some) in Hh.
  set (q := bump_term e (RequestVote t c li lt) p) in *.
  assert (current_term q = N.max (current_term p) t ∧ voted_for q = vote_in p t ∧
    log q = log p) as (Ht & Hv & Hl).
  { subst q. unfold bump_term, vote_in; simpl. destruct (current_term p <? t)%N eqn:E.
    - rewrite become_follower_term by done. simpl. rewrite E. breflect. split; [lia|done].
    - breflect. split; [lia|done]. }
  assert (candidate_log_at_least_as_up_to_date q lt li =
    candidate_log_at_least_as_up_to_date p lt li) as Hup.
  { unfold candidate_log_at_least_as_up_to_date, last_log_index, last_log_term. by rewrite Hl. }
  unfold handle_request_vote in Hh.
  set (g := if (t <? current_term q)%N then false else _) in Hh.
  assert (g = true ↔ (current_term p ≤ t)%N ∧ (vote_in p t = None ∨ vote_in p t = Some c) ∧
    rank_le (log_rank (last_log_term p) (last_log_index p)) (log_rank lt li)) as Hg.
  { subst g. rewrite Ht, Hv, Hup, <- up_to_date_rank.
    destruct (t <? current_term p `max` t)%N eqn:E; breflect; [split; [done|intros [? _]; lia]|].
    rewrite andb_true_iff. destruct (vote_in p t) as [v|]; simpl.
    - rewrite negb_involutive, bool_decide_eq_true.
      split; [intros [-> ?]|intros (_ & [?|[= ->]] & ?)]; try done.
      split; [lia|]. auto.
    - split; [intros [_ ?]|intros (_ & _ & ?); done]. split; [lia|]. auto. }
  clearbody g. exists g. destruct g; simpl in Hh; injection Hh as <- <-; simpl; rewrite Ht;
    (split; [done|]); (split; [exact Hg|]); done.
Qed.

(** A leader's log only grows: an event after which a leader is still
    leader of the same term has kept every entry of its log and added only
    entries of that term. *)
Theorem leader_append_only e ev p p1 out :
  log_clean p → run_event e ev p = Some (p1, out) → role p1 = Leader →
  ∃ news, log p1 = log p ++ news ∧ Forall (λ en, term en = current_term p1) news.
Proof.
  intros Hc Hr Hl. apply run_event_spec in Hr; [|done].
  destruct (es_log _ _ _ _ Hr) as [E _|news _ E _ Hf _ _|? ? ? ? ? ? _ Hr' _ _ _]; [|eauto|congruence].
  exists []. by rewrite app_nil_r.
Qed.

(** A forwarded proposal handed from node to node, each not a leader; the
    number of times it is sent on. *)
Fixpoint relay (e : Env) (from : NodeId) (v : V) (hops : N) (ps : list (RaftProtocol V St))
    : option nat :=
  match ps with
  | [] => Some 0
  | p :: ps =>
      '(_, out) ← handle_message e from (Forward v hops) p;
      match out with
      | [o] => match message o with
               | Forward v' hops' => S <$> relay e (node_id p) v' hops' ps
               | _ => None
               end
      | _ => Some 0
      end
  end.

(** The hop limit: along any chain of nodes that are not leaders,
    whatever leaders they believe in, a forwarded proposal is sent on fewer
    than [MAX_FORWARD_HOPS] times, so a cycle of forwards ends. *)
Theorem forward_chain_bounded e ps from v hops :
  Forall (λ p, role p ≠ Leader) ps → (hops ≤ u8_max)%N →
  ∃ k, relay e from v hops ps = Some k ∧ (N.of_nat k ≤ MAX_FORWARD_HOPS - 1 - hops)%N.
Proof.
  intros Hps. revert from v hops. induction Hps as [|p ps Hp Hps IH]; intros from v hops Hh; simpl.
  { exists 0. split; [done|lia]. }
  unfold handle_message; simpl. unfold bump_term; simpl. unfold handle_forward.
  assert (is_leader (role p) = false) as -> by (by destruct (role p)).
  destruct (leader p) as [l|]; [|exists 0; split; [done|lia]].
  case_bool_decide; [|exists 0; split; [done|lia]].
  unfold saturating_add, u8_max in *.
  destruct (MAX_FORWARD_HOPS <=? _)%N eqn:E; simpl; breflect; [exists 0; split; [done|lia]|].
  unfold MAX_FORWARD_HOPS in *.
  match goal with |- context [relay e _ v ?h ps] =>
    destruct (IH (node_id p) v h) as (k & -> & Hk); [lia|] end.
  exists (S k). split; [done|]. lia.
Qed.
End handlers.

Module HandlerRun.
Import Sample.

Definition ask : RaftMessage N := RequestVote 4 b None 0.
Definition after : RaftProtocol N (RaftMemoryStorage N) :=
  match handle_message env b ask fresh with Some (q, _) => q | None => fresh end.

Lemma request_vote_granted_iff_witness : voted_for after = Some b.
Proof.
  destruct (request_vote_granted_iff env b 4 b None 0 fresh after
    [mkOut (Peer b) (RequestVoteResponse 4 true)]) as (g & Ho & _ & _ & _ & Hg & _);
    [vm_compute; reflexivity|].
  injection Ho as <-. by apply Hg.
Defined.

Definition proposed : RaftProtocol N (RaftMemoryStorage N) :=
  match run_event env (EvPropose 13%N) leading with Some (q, _) => q | None => leading end.

Lemma leader_append_only_witness :
  ∃ news, log proposed = log leading ++ news ∧ Forall (λ en, term en = 2%N) news.
Proof.
  destruct (run_event env (EvPropose 13%N) leading) as [[q out]|] eqn:Hr;
    [|vm_compute in Hr; discriminate].
  apply (leader_append_only env (EvPropose 13%N) leading proposed out);
    [by split| |vm_compute; reflexivity].
  unfold proposed. rewrite Hr. reflexivity.
Defined.

Definition lost : RaftProtocol N (RaftMemoryStorage N) := {| fresh with leader := Some c |}.

Lemma forward_chain_bounded_witness :
  ∃ k, relay env b 7%N 0 (repeat lost 5) = Some k ∧ (N.of_nat k ≤ MAX_FORWARD_HOPS - 1)%N.
Proof.
  destruct (forward_chain_bounded env (repeat lost 5) b 7%N 0) as (k & Hk & Hle).
  - repeat constructor; discriminate.
  - by vm_compute.
  - exists k. split; [exact Hk|]. lia.
Defined.

(** Five nodes, of which only [a] and one restart of [b] answer. *)
Definition b2 := mkNodeId "b" 2.
Definition two_incarnations : list (Event N) :=
  [EvTick 100000000000;
   EvReceive b (RequestVoteResponse 1 true); EvReceive b2 (RequestVoteResponse 1 true);
   EvPropose 10%N;
   EvReceive b (AppendEntriesResponse 1 true (Some 0%N) None None);
   EvReceive b2 (AppendEntriesResponse 1 true (Some 0%N) None None)].
Definition run_events (evs : list (Event N)) (p : RaftProtocol N (RaftMemoryStorage N)) :=
  foldl (λ o ev, q ← o; '(q, _) ← run_event env ev q; Some q) (Some p) evs.

(** A restarted peer counts twice: votes and replication progress are
    keyed by [NodeId], which contains the incarnation, so in a cluster of
    five a node is elected and commits an entry with the answers of one
    other host, before and after that host's restart. *)
Theorem restarted_peer_counts_twice :
  (λ p, (role p, commit_index p, pending_decisions p)) <$>
    run_events two_incarnations {| fresh with total_nodes := 5 |}
  = Some (Leader, Some 0%N, [mkDecision 0 10%N]).
Proof. vm_compute. reflexivity. Qed.
End HandlerRun.
