(* ===== verification/RaftReplies.v ===== *)
(** * Raft: what replies, commit indexes and match indexes stand for

    Further facts about one event, next to [event_spec]: a positive
    AppendEntriesResponse acknowledges the prefix its AppendEntries verified,
    a granted vote answers a RequestVote whose log was at least as up to
    date, the commit index moves only on a quorum of match indexes (leader) or
    on the leader's word (follower), and a match index comes from an
    acknowledgement. *)

From S2P Require Import Prelude Types Storage Raft RaftLocal RaftEvents RaftExec RaftCommit.

Section replies.
Context {V St : Type}.
Abbreviation RP := (RaftProtocol V St).
Abbreviation Out := (list (Outgoing (RaftMessage V))).
Implicit Types (p : RP) (out : Out).

(** The index a follower acknowledges; the answer is the first message sent. *)
Definition ack_of (out : Out) : option N :=
  match out with
  | o :: _ =>
      match message o with
      | AppendEntriesResponse _ true (Some m) _ _ => Some m
      | _ => None
      end
  | [] => None
  end.

Definition reply_ok (ev : Event V) (p p1 : RP) (out : Out) (o : Outgoing (RaftMessage V)) : Prop :=
  match message o with
  | AppendEntriesResponse t true (Some m) _ _ => ack_of out = Some m ∧ t = current_term p1
  | RequestVoteResponse t true =>
      ∃ from c li lt, ev = EvReceive from (RequestVote (current_term p1) c li lt) ∧
        target o = Peer c ∧ t = current_term p1 ∧ log p1 = log p ∧
        candidate_log_at_least_as_up_to_date p lt li = true
  | RequestVote _ _ _ _ => (current_term p < current_term p1)%N
  | _ => True
  end.

(** An AppendEntries of the current term was accepted, up to index [m]. *)
Definition accepted (ev : Event V) (p p1 : RP) (m : N) : Prop :=
  ∃ from l prev pt es lc,
    ev = EvReceive from (AppendEntries (current_term p1) l prev pt es lc) ∧
    role p1 = Follower ∧ prev_ok p prev pt = true ∧ log p1 = ae_log prev es (log p) ∧
    verified_index prev (vlen es) = Some m.

(** A quorum of match indexes reaches [c], whose entry is of the leader's term. *)
Definition quorum_match (p1 : RP) (c : N) : Prop :=
  ∃ en (Q : gset NodeId), vget (log p1) c = Some en ∧ term en = current_term p1 ∧
    quorum p1 ≤ size Q ∧
    ∀ v, v ∈ Q → ∃ m, match_index p1 !! v = Some (Some m) ∧ (c ≤ m)%N.

Inductive commit_step (ev : Event V) (p p1 : RP) (out : Out) : Prop :=
| cm_same : commit_index p1 = commit_index p → commit_step ev p p1 out
| cm_leader c :
    role p1 = Leader → commit_index p1 = Some c → quorum_match p1 c → commit_step ev p p1 out
| cm_follower from l prev pt es lc m :
    ev = EvReceive from (AppendEntries (current_term p1) l prev pt es (Some lc)) →
    ack_of out = Some m → commit_index p1 = Some (N.min lc m) → commit_step ev p p1 out.

Inductive match_step (ev : Event V) (p p1 : RP) (v : NodeId) (m : N) : Prop :=
| mt_self : v = node_id p1 → (m < vlen (log p1))%N → match_step ev p p1 v m
| mt_same :
    role p = Leader → current_term p1 = current_term p →
    match_index p !! v = Some (Some m) → match_step ev p p1 v m
| mt_reply ct ci :
    ev = EvReceive v (AppendEntriesResponse (current_term p1) true (Some m) ct ci) →
    match_step ev p p1 v m.

Record reply_spec (ev : Event V) (p p1 : RP) (out : Out) : Prop := {
  rp_out : Forall (reply_ok ev p p1 out) out;
  rp_acked m : ack_of out = Some m → accepted ev p p1 m;
  rp_commit : commit_step ev p p1 out;
  rp_match v m : role p1 = Leader → match_index p1 !! v = Some (Some m) → match_step ev p p1 v m;
}.

(** An event that changes neither commit index nor match indexes. *)
Lemma reply_quiet ev p p1 out :
  commit_index p1 = commit_index p →
  (role p1 = Leader → role p = Leader ∧ current_term p1 = current_term p ∧
     match_index p1 = match_index p) →
  ack_of out = None → Forall (reply_ok ev p p1 out) out → reply_spec ev p p1 out.
Proof.
  intros Hc Hm Ha Ho. split; [done|by rewrite Ha|by apply cm_same|].
  intros v m Hr Hv. destruct (Hm Hr) as (Hr0 & Ht & E). rewrite E in Hv. by apply mt_same.
Qed.

Lemma try_advance_quorum p p1 :
  try_advance_commit p = Some p1 →
  match_index p1 = match_index p ∧ log p1 = log p ∧ current_term p1 = current_term p ∧
  role p1 = role p ∧ node_id p1 = node_id p ∧
  (commit_index p1 = commit_index p ∨ ∃ c, commit_index p1 = Some c ∧ quorum_match p1 c).
Proof.
  intros (ds & la & ci & b & -> & Hor)%try_advance_shape. simpl. split_and!; try done.
  destruct Hor as [(_ & _ & -> & _)|(c & en & -> & _ & Hg & Ht & _ & Hm & _)]; [by left|right].
  exists c. split; [done|]. exists en, (dom (holders p c)). split_and!; [done|done| |].
  - rewrite size_dom. apply (candidate_majority _ _ _ Hm), at_least_Some. eauto with lia.
  - intros v [x Hv]%elem_of_dom. apply map_lookup_filter_Some in Hv as [Hv Hc].
    apply at_least_Some in Hc as (m & Hx & Hle). simpl in Hx. subst x. by exists m.
Qed.

(** A leader that appended entries and counted itself. *)
Lemma leader_appended_reply ev p p0 p1 p2 out mi :
  try_advance_commit p0 = Some p1 → role p0 = Leader → commit_index p0 = commit_index p →
  match_index p0 = <[node_id p0 := Some (vlen (log p0) - 1)%N]> mi → log p0 ≠ [] →
  (∀ v m, mi !! v = Some (Some m) → v ≠ node_id p0 →
     role p = Leader ∧ current_term p0 = current_term p ∧ match_index p !! v = Some (Some m)) →
  p2 = {| p1 with last_heartbeat_sent := last_heartbeat_sent p2 |} →
  ack_of out = None → Forall (reply_ok ev p p2 out) out → reply_spec ev p p2 out.
Proof.
  intros (E1 & E2 & E3 & E4 & E5 & Hc)%try_advance_quorum Hr Hci Hmi Hne Hold Hp2 Ha Ho.
  rewrite Hp2 in *. split; [done|by rewrite Ha| |].
  - destruct Hc as [Hc|(c & Hc & Hq)]; [apply cm_same; simpl; congruence|].
    apply (cm_leader _ _ _ _ c); simpl; [congruence|done|done].
  - intros v m _. simpl. rewrite E1, Hmi. intros [[<- [= <-]]|[Hv Hm]]%lookup_insert_Some.
    + apply mt_self; simpl; [congruence|]. rewrite E2. destruct (log p0); [done|].
      unfold vlen; simpl. lia.
    + destruct (Hold v m Hm (not_eq_sym Hv)) as (? & ? & ?). apply mt_same; simpl; congruence.
Qed.

Lemma broadcast_reply e es ev p p0 p1 out :
  broadcast_with_entries e es p0 = Some (p1, out) →
  p1 = {| p0 with last_heartbeat_sent := last_heartbeat_sent p1 |} ∧
  ack_of out = None ∧ Forall (reply_ok ev p p1 out) out.
Proof.
  unfold broadcast_with_entries. simpl. intros Hb.
  destruct (match _ with Some i => term <$> vget (log p0) i | None => Some 0%N end); [|done].
  injection Hb as <- <-. split_and!; [done|done|by apply Forall_singleton].
Qed.

Lemma propose_reply e v ev p p1 out : propose e v p = Some (p1, out) → reply_spec ev p p1 out.
Proof.
  unfold propose. intros Hp. destruct (is_leader (role p)) eqn:Hl.
  - destruct (try_advance_commit _) as [q|] eqn:Ht in Hp; [|done]. simpl in Hp.
    apply (broadcast_reply _ _ ev p) in Hp as (Hq & Ha & Ho).
    assert (role p = Leader) as Hr by (by destruct (role p)).
    eapply (leader_appended_reply _ _ _ _ _ _ (match_index p)); [exact Ht|done|done| | | |done..];
      simpl; [|by destruct (log p)|done].
    do 2 f_equal. rewrite vlen_app. unfold vlen; simpl. lia.
  - assert (role p = Leader → False) as Hnl by (by intros E; rewrite E in Hl).
    destruct (leader p); injection Hp as <- <-;
      apply reply_quiet; simpl; try done; try (by intros ?%Hnl); by apply Forall_singleton.
Qed.

Lemma become_leader_reply e ev p p0 p1 out :
  become_leader e p0 = Some (p1, out) → commit_index p0 = commit_index p →
  reply_spec ev p p1 out.
Proof.
  unfold become_leader. intros Hb Hc.
  destruct (pending_proposals p0) as [|v vs]; simpl in Hb.
  - injection Hb as <- <-. split; [by apply Forall_singleton|done|by apply cm_same|].
    simpl. intros v m _ Hv. destruct (vlast_index (log p0)) as [i|] eqn:Hi.
    + apply lookup_singleton_Some in Hv as [<- [= <-]]. apply vlast_index_Some in Hi.
      apply mt_self; simpl; [done|lia].
    + by rewrite lookup_empty in Hv.
  - destruct (try_advance_commit _) as [q|] eqn:Ht in Hb; [|done]. simpl in Hb.
    apply (broadcast_reply _ _ ev p) in Hb as (Hq & Ha & Ho).
    eapply (leader_appended_reply _ _ _ _ _ _
      (match vlast_index (log p0) with
       | Some last => {[ node_id p0 := Some last ]}
       | None => ∅ end)); [exact Ht|done|done|done| | |done..]; simpl; [by destruct (log p0)|].
    intros w m Hw Hne. destruct (vlast_index (log p0)).
    + by apply lookup_singleton_Some in Hw as [<- _].
    + by rewrite lookup_empty in Hw.
Qed.

Lemma on_tick_reply e now ev p p1 out : on_tick e now p = Some (p1, out) → reply_spec ev p p1 out.
Proof.
  unfold on_tick. intros Ht.
  assert (∀ q, start_election e p = Some q → reply_spec ev p q.1 q.2) as Hse.
  { clear. intros [p1 out] Hs. unfold start_election in Hs.
    destruct (u64_add _ _) as [t|] eqn:Ht; [|done]. apply checked_add_Some in Ht as [-> _].
    simpl in Hs. case_bool_decide; [by eapply become_leader_reply|].
    destruct (is_candidate _); simpl in Hs; injection Hs as <- <-;
      (apply reply_quiet; simpl; try done); apply Forall_singleton; unfold reply_ok; simpl; lia. }
  destruct (role p) eqn:Hr.
  1, 2: destruct (_ <=? _)%N; [by apply (Hse (p1, out))|];
    injection Ht as <- <-; by apply reply_quiet.
  destruct (match last_heartbeat_sent p with Some _ => _ | None => _ end);
    injection Ht as <- <-; apply reply_quiet; try done; by apply Forall_singleton.
Qed.

Lemma handle_request_vote_reply e from t c li lt p p1 out :
  (t ≤ current_term p)%N → handle_request_vote e t c li lt p = (p1, out) →
  reply_spec (EvReceive from (RequestVote t c li lt)) p p1 out.
Proof.
  intros Hle. unfold handle_request_vote. set (g := if (_ <? _)%N then _ else _).
  intros [= <- <-].
  assert (g = true → t = current_term p ∧ candidate_log_at_least_as_up_to_date p lt li = true) as Hg.
  { unfold g. destruct (_ <? _)%N eqn:E; [done|]. intros. breflect. split; [lia|done]. }
  apply reply_quiet; [by destruct g| |done|].
  { intros Hr. destruct g; simpl in *; done. }
  apply Forall_singleton. unfold reply_ok; simpl. destruct g; simpl in *; [|done].
  destruct (Hg eq_refl) as [-> Hu]. by exists from, c, li, lt.
Qed.

Lemma handle_request_vote_response_reply e from t g p p1 out :
  handle_request_vote_response e from t g p = Some (p1, out) →
  reply_spec (EvReceive from (RequestVoteResponse t g)) p p1 out.
Proof.
  unfold handle_request_vote_response. intros Hh.
  destruct (_ || _) eqn:Hg; [injection Hh as <- <-; by apply reply_quiet|].
  destruct g; [|injection Hh as <- <-; by apply reply_quiet].
  case_bool_decide; [by eapply become_leader_reply|]. injection Hh as <- <-. by apply reply_quiet.
Qed.

Lemma handle_append_entries_response_reply from t su mi ct ci p p1 out :
  handle_append_entries_response from t su mi ct ci p = Some (p1, out) →
  reply_spec (EvReceive from (AppendEntriesResponse t su mi ct ci)) p p1 out.
Proof.
  unfold handle_append_entries_response. intros Hh.
  destruct (_ || _) eqn:Hg; [injection Hh as <- <-; by apply reply_quiet|].
  breflect. subst t. destruct su.
  - destruct mi as [m|]; [|injection Hh as <- <-; by apply reply_quiet].
    destruct (_ || _) eqn:Hl; [injection Hh as <- <-; by apply reply_quiet|].
    destruct (try_advance_commit _) as [q|] eqn:Ht; [|done]. simpl in Hh. injection Hh as <- <-.
    apply try_advance_quorum in Ht as (E1 & E2 & E3 & E4 & E5 & Hc). simpl in *.
    assert (role p = Leader) as Hr by (by destruct (role p)).
    split; [done|done| |].
    + destruct Hc as [Hc|(c & Hc & Hq)]; [by apply cm_same|].
      eapply cm_leader; [congruence|done|done].
    + intros v m' _. rewrite E1. intros [[<- [= <-]]|[Hv Hm]]%lookup_insert_Some.
      * eapply mt_reply. by rewrite E3.
      * by apply mt_same.
  - simpl in Hh.
    destruct (match _ with Some i => term <$> vget (log p) i | None => Some 0%N end); [|done].
    destruct (vslice_from _ _); [|done]. simpl in Hh. injection Hh as <- <-.
    apply reply_quiet; simpl; try done. by apply Forall_singleton.
Qed.

Lemma handle_forward_reply e from v hops ev p p1 out :
  handle_forward e from v hops p = Some (p1, out) → reply_spec ev p p1 out.
Proof.
  unfold handle_forward. intros Hh. destruct (is_leader _); [by eapply propose_reply|].
  destruct (leader p) as [l|]; [|injection Hh as <- <-; by apply reply_quiet].
  case_bool_decide; [|injection Hh as <- <-; by apply reply_quiet].
  destruct (_ <=? _)%N; injection Hh as <- <-; apply reply_quiet; try done.
  by apply Forall_singleton.
Qed.

Lemma advance_follower_commit_index lc mi p p1 :
  advance_follower_commit lc mi p = Some p1 →
  commit_index p1 = commit_index p ∨
  ∃ c m, lc = Some c ∧ mi = Some m ∧ commit_index p1 = Some (N.min c m).
Proof.
  unfold advance_follower_commit. intros Ha.
  destruct lc as [c|], mi as [m|]; try (injection Ha as <-; by left).
  destruct (is_none_or _ _); [|injection Ha as <-; by left].
  apply apply_committed_commit in Ha as [Ha _]. right. by exists c, m.
Qed.

Lemma handle_append_entries_reply e from t l prev pt es lc p p1 out :
  (t ≤ current_term p)%N → handle_append_entries e from t l prev pt es lc p = Some (p1, out) →
  reply_spec (EvReceive from (AppendEntries t l prev pt es lc)) p p1 out.
Proof.
  intros Hle Hh. unfold handle_append_entries in Hh. destruct (_ <? _)%N eqn:Hlt.
  { injection Hh as <- <-. apply reply_quiet; try done. by apply Forall_singleton. }
  destruct (_ && _).
  { injection Hh as <- <-. apply reply_quiet; try done. by apply Forall_singleton. }
  breflect. assert (t = current_term p) as -> by lia. simpl in Hh.
  destruct (negb _) eqn:Hprev.
  { destruct (conflict_hint _ _); [|done]. injection Hh as <- <-.
    apply reply_quiet; simpl; try done. by apply Forall_singleton. }
  breflect. change (prev_ok p prev pt = true) in Hprev.
  match type of Hh with context [place_entries ?a ?b ?c] =>
    destruct (place_entries_shape a b c) as (tr & fr & Hs); rewrite Hs in Hh end. simpl in Hh.
  match type of Hh with context [advance_follower_commit _ _ ?q] =>
    assert (∃ tr2, q = {| p with role := Follower; leader := Some l;
      election_deadline := (env_now e + sample_election_timeout (config p) e)%N;
      log := ae_log prev es (log p); pending_truncate_from := tr2;
      pending_persist_log_from := fr |}) as (tr2 & Hq) end.
  { unfold ae_log. destruct (verified_index _ _) as [last|]; [|by exists tr].
    match goal with |- context [truncate_suffix ?a ?b] =>
      destruct (truncate_suffix_shape a b) as (tr2 & ->) end. by exists tr2. }
  rewrite Hq in Hh. clear Hs Hq. destruct (advance_follower_commit _ _ _) as [q|] eqn:Ha; [|done].
  pose proof (advance_follower_commit_index _ _ _ _ Ha) as Hci.
  apply advance_follower_commit_shape in Ha as (ds & la & ci & b & ->). simpl in *.
  injection Hh as <- <-.
  assert (∀ m, verified_index prev (vlen es) = Some m →
    accepted (EvReceive from (AppendEntries (current_term p) l prev pt es lc)) p
      {| p with role := Follower; log := ae_log prev es (log p) |} m) as Hacc.
  { intros m Hm. by exists from, l, prev, pt, es, lc. }
  split; simpl.
  - constructor; [|by apply Forall_map, Forall_true]. unfold reply_ok; simpl.
    by destruct (verified_index _ _).
  - intros m. destruct (verified_index _ _) as [m'|]; [|done]. intros [= ->].
    exact (Hacc m eq_refl).
  - destruct Hci as [->|(c & m & -> & Hm & ->)]; [by apply cm_same|].
    eapply (cm_follower _ _ _ _ from); simpl; [done| |done]. by rewrite Hm.
  - done.
Qed.

(** A term bump before the handler changes none of this. *)
Lemma reply_before ev p p0 p1 out :
  reply_spec ev p0 p1 out → role p1 ≠ Leader → log p0 = log p →
  commit_index p0 = commit_index p → (current_term p ≤ current_term p0)%N →
  reply_spec ev p p1 out.
Proof.
  intros [Ho Ha Hc Hm] Hr Hl Hci Ht. split.
  - eapply Forall_impl; [exact Ho|]. unfold reply_ok. intros o.
    destruct (message o) as [|? []| | |]; try done; [lia|].
    intros (from & c & li & lt & -> & Htg & ? & Hl1 & Hu). exists from, c, li, lt.
    split_and!; try done; [congruence|]. revert Hu.
    unfold candidate_log_at_least_as_up_to_date, last_log_term, last_log_index. by rewrite Hl.
  - intros m (from & l & prev & pt & es & lc & -> & ? & Hp & Hlog & Hv)%Ha.
    exists from, l, prev, pt, es, lc. split_and!; try done; [|congruence].
    revert Hp. unfold prev_ok. by rewrite Hl.
  - destruct Hc; [apply cm_same; congruence|done|by eapply cm_follower].
  - done.
Qed.

Lemma handle_message_reply e from msg p p1 out :
  handle_message e from msg p = Some (p1, out) → reply_spec (EvReceive from msg) p p1 out.
Proof.
  assert (∀ q, (∀ t, incoming_term msg = Some t → (t ≤ current_term q)%N) →
    handle_message e from msg q = Some (p1, out) → reply_spec (EvReceive from msg) q p1 out) as Hnb.
  { intros q Hle Hh. unfold handle_message in Hh.
    assert (bump_term e msg q = q) as Hb.
    { unfold bump_term. destruct (incoming_term msg) as [t|]; [|done].
      specialize (Hle t eq_refl). by rewrite (proj2 (N.ltb_ge _ _) Hle). }
    rewrite Hb in Hh. destruct msg; simpl in *.
    - apply (inj Some) in Hh. eapply handle_request_vote_reply; eauto.
    - by eapply handle_request_vote_response_reply.
    - eapply handle_append_entries_reply; eauto.
    - by eapply handle_append_entries_response_reply.
    - by eapply handle_forward_reply. }
  intros Hh. destruct (incoming_term msg) as [t|] eqn:Ht; [|by apply Hnb].
  destruct (current_term p <? t)%N eqn:E.
  2: { apply Hnb; [|done]. intros ? [= <-]. by breflect. }
  rewrite handle_message_bump in Hh. unfold bump_term in Hh. rewrite Ht, E in Hh.
  pose proof (become_follower_term e t None p E) as Hct. breflect.
  assert (∀ t', incoming_term msg = Some t' →
    (t' ≤ current_term (become_follower e t None p))%N) as Hle.
  { intros t'. rewrite Ht, Hct. by intros [= <-]. }
  eapply reply_before; [apply Hnb; [|exact Hh]| |done|done|lia]; [by intros ? [= <-]; rewrite Hct|].
  assert (role p1 = Follower) as ->; [|done].
  eapply handler_role; [exact Hle|by rewrite Ht|done|exact Hh].
Qed.

Lemma run_event_reply e ev p p1 out :
  run_event e ev p = Some (p1, out) → reply_spec ev p p1 out.
Proof.
  destruct ev; simpl; [apply propose_reply|apply handle_message_reply|apply on_tick_reply].
Qed.
End replies.
