(* ===== verification/RaftFifo.v ===== *)
(** * Raft: a cluster over ordered, lossy links

    The cluster of [RaftNet.v] with links that may lose messages but neither
    reorder nor duplicate them, as one TCP connection between two nodes
    does: every link remembers how far its receiver has read. A step of this
    network is a step of the unordered one. *)

From S2P Require Import Prelude Types Network Storage Raft RaftLocal RaftEvents RaftDurable.
From S2P Require Import RaftNet.

Section fifo.
Context {V St : Type} `{RaftStorage St V}.
Context (cluster : gset NodeId) (cfg : RaftConfig).
Implicit Types (σ : Net V St) (p : RaftProtocol V St).

(** One event of node [n]: handled, flushed, sent and delivered, or cut short
    by a crash during the flush or while the decisions are saved. *)
Inductive event_step (n : NodeId) (ev : Event V) (σ : Net V St) : Net V St → Prop :=
| ev_done p e p1 out p2 p3 ds :
    nodes σ !! n = Some (Up p) → run_event e ev p = Some (p1, out) →
    flush_persist p1 = Some (p2, Ok tt) → drain_decisions p2 = (p3, Ok ds) →
    event_step n ev σ {| nodes := <[n := Up p3]> (nodes σ);
                         packets := packets σ ++ packets_of cluster n out;
                         delivered := delivered σ ++ map (pair n) ds |}
| ev_crash_flushing p e p1 out k s r :
    nodes σ !! n = Some (Up p) → run_event e ev p = Some (p1, out) →
    do_writes (take k (intent_writes p1)) (storage p1) = (s, r) →
    event_step n ev σ {| σ with nodes := <[n := Down s]> (nodes σ) |}
| ev_crash_deciding p e p1 out p2 k s r :
    nodes σ !! n = Some (Up p) → run_event e ev p = Some (p1, out) →
    flush_persist p1 = Some (p2, Ok tt) →
    do_writes (decision_writes (take k (pending_decisions p2))) (storage p2) = (s, r) →
    event_step n ev σ {| nodes := <[n := Down s]> (nodes σ);
                         packets := packets σ ++ packets_of cluster n out;
                         delivered := delivered σ |}.

(** A step of node [n] without an event. *)
Inductive quiet_step (n : NodeId) (σ : Net V St) : Net V St → Prop :=
| qs_crash p :
    nodes σ !! n = Some (Up p) →
    quiet_step n σ {| σ with nodes := <[n := Down (storage p)]> (nodes σ) |}
| qs_take_lost p :
    nodes σ !! n = Some (Up p) →
    quiet_step n σ {| σ with nodes := <[n := Up (take_lost_proposals p).1]> (nodes σ) |}
| qs_restart s e p0 p1 :
    nodes σ !! n = Some (Down s) → new e n (size cluster) cfg s = Some p0 →
    recover e p0 = Some (p1, Ok tt) →
    quiet_step n σ {| σ with nodes := <[n := Up p1]> (nodes σ) |}.

(** Per link, the number of packets ever sent in the whole network up to and
    including the last one its receiver has read. *)
Abbreviation Links := (gmap (NodeId * NodeId) nat).
Definition unread (links : Links) (s d : NodeId) : nat := default 0 (links !! (s, d)).

Definition is_local (ev : Event V) : bool :=
  match ev with EvReceive _ _ => false | _ => true end.

Inductive fifo_step : Net V St * Links → Net V St * Links → Prop :=
| fifo_receive σ links σ' i from n msg :
    packets σ !! i = Some (mkPacket from n msg) → unread links from n ≤ i →
    event_step n (EvReceive from msg) σ σ' →
    fifo_step (σ, links) (σ', <[(from, n) := S i]> links)
| fifo_local σ links σ' n ev :
    is_local ev = true → event_step n ev σ σ' → fifo_step (σ, links) (σ', links)
| fifo_quiet σ links σ' n : quiet_step n σ σ' → fifo_step (σ, links) (σ', links).

Lemma event_step_step n ev σ σ' :
  enabled σ n ev → event_step n ev σ σ' → step cluster cfg σ σ'.
Proof.
  intros Hen [p e p1 out p2 p3 ds|p e p1 out k s r|p e p1 out p2 k s r];
    [by eapply step_event|by eapply step_crash_flushing|by eapply step_crash_deciding].
Qed.

Lemma quiet_step_step n σ σ' : quiet_step n σ σ' → step cluster cfg σ σ'.
Proof.
  intros [p|p|s e p0 p1]; [by eapply step_crash|by eapply step_take_lost|by eapply step_restart].
Qed.

(** Ordered links are a restriction of the network. *)
Lemma fifo_step_step x x' : fifo_step x x' → step cluster cfg x.1 x'.1.
Proof.
  intros [σ links σ' i from n msg Hi _ Hs|σ links σ' n ev Hl Hs|σ links σ' n Hs]; simpl.
  - eapply event_step_step; [|done]. simpl. by eapply list_elem_of_lookup_2.
  - eapply event_step_step; [|done]. by destruct ev.
  - by eapply quiet_step_step.
Qed.
End fifo.

Section init.
Context {V St : Type} `{RaftStorageSpec St V}.

Definition fifo_reachable (cluster : gset NodeId) (cfg : RaftConfig)
    (x : Net V St * gmap (NodeId * NodeId) nat) : Prop :=
  ∃ σ0, initial cluster σ0 ∧ rtc (fifo_step cluster cfg) (σ0, ∅) x.

Lemma fifo_reachable_reachable cluster cfg x :
  fifo_reachable cluster cfg x → reachable cluster cfg x.1.
Proof.
  intros (σ0 & Hi & Hr). exists σ0. split; [done|].
  change σ0 with (σ0, ∅ : gmap (NodeId * NodeId) nat).1. revert Hr.
  generalize (σ0, ∅ : gmap (NodeId * NodeId) nat). clear. intros x0 Hr.
  induction Hr as [|x0 x1 x2 Hs _ IH]; [done|]. eapply rtc_l; [by eapply fifo_step_step|done].
Qed.
End init.
