(* ===== verification/RaftChange.v ===== *)
(** * Raft: the steps of the ordered network as changes of one node

    What [RaftNetLemmas.v] does for the unordered network, in the detail that
    agreement needs: whether the event was flushed, what a torn flush leaves of
    the log, and where the commit points of the node come from. *)

From S2P Require Import Prelude Types Network Storage Raft RaftLocal RaftEvents RaftDurable.
From S2P Require Import RaftNet RaftNetLemmas RaftExec RaftCommit RaftReplies RaftFifo.

Section change.
Context {V St U : Type} `{RaftStorageSpec St V}.
Context (obs : V → U).
Hypothesis obs_norm : ∀ v, obs (norm v) = obs v.
Context (cluster : gset NodeId) (cfg : RaftConfig).
Implicit Types (σ : Net V St) (p : RaftProtocol V St) (st : NodeStatus V St).

(** The indexes a node takes to be committed: its commit index, the slots of
    the decisions it has not handed out, and what its storage says. *)
Definition durable_point (d : RaftMemoryStorage V) (c : N) : Prop :=
  m_commit_index d = Some c ∨ is_Some (m_decisions d !! c).
Definition pending_point (p : RaftProtocol V St) (c : N) : Prop :=
  ∃ d, d ∈ pending_decisions p ∧ d_slot d = c.
Definition commit_point (st : NodeStatus V St) (c : N) : Prop :=
  match st with
  | Up p => commit_index p = Some c ∨ pending_point p c ∨ durable_point (view (storage p)) c
  | Down s => durable_point (view s) c
  end.

Record event_change (n : NodeId) (ev : Event V) (p p1 : RaftProtocol V St)
    (out : list (Outgoing (RaftMessage V))) (flushed : bool) (st1 : NodeStatus V St)
    (new : list (Packet (RaftMessage V))) (ds : list (Decision V)) : Prop := {
  ec_node : node_ok cluster n p;
  ec_spec : event_spec ev p p1 out;
  ec_reply : reply_spec ev p p1 out;
  ec_applied : applied_step p p1;
  ec_kept : kept obs p p1 st1;
  ec_new : new = [] ∨ flushed = true ∧ new = packets_of cluster n out;
  ec_delivered d : d ∈ ds → d ∈ pending_decisions p1 ∧ flushed = true;
  ec_flushed : flushed = true →
    st_term st1 = current_term p1 ∧ st_vote st1 = voted_for p1 ∧ olog obs st1 = ob obs <$> log p1;
  ec_torn : flushed = false →
    olog obs st1 = ob obs <$> log p ∨
    st_term st1 = current_term p1 ∧
    (olog obs st1 = ob obs <$> log p1 ∨
     ∃ i, pending_truncate_from p1 = Some i ∧
       olog obs st1 = take (N.to_nat i) (ob obs <$> log p));
  ec_up q : st1 = Up q →
    flushed = true ∧ runs_as q p1 ∧ match_index q = match_index p1 ∧ pending_decisions q = [];
  ec_commit c : commit_point st1 c → commit_point (Up p) c ∨
    flushed = true ∧ (commit_index p1 = Some c ∨ pending_point p1 c);
}.

(** A node that stops or restarts between events, or gives away its lost
    proposals. *)
Record quiet_change (st st1 : NodeStatus V St) : Prop := {
  qc_term : st_term st1 = st_term st;
  qc_vote : st_vote st1 = st_vote st;
  qc_log : olog obs st1 = olog obs st;
  qc_up q : st1 = Up q →
    (∃ p, st = Up p ∧ runs_as q p ∧ match_index q = match_index p ∧
       pending_decisions q = pending_decisions p) ∨
    (role q = Follower ∨ size cluster = 1) ∧
    ∀ d, d ∈ pending_decisions q →
      ∃ en, vget (log q) (d_slot d) = Some en ∧ d_value d = value en;
  qc_commit c : commit_point st1 c → ∃ c', (c ≤ c')%N ∧ commit_point st c';
}.

(** ** Events *)
Lemma decision_writes_points ds (d : RaftMemoryStorage V) c :
  durable_point (spec_writes norm (decision_writes ds) d) c →
  durable_point d c ∨ ∃ x, x ∈ ds ∧ d_slot x = c.
Proof.
  revert d. induction ds as [|x ds IH]; intros d; simpl; [by left|].
  intros [Hd|(y & Hy & Hs)]%IH; [|right; exists y; split; [by right|done]].
  destruct Hd as [Hc|[v Hv]]; [by left; left|]. simpl in Hv.
  apply lookup_insert_Some in Hv as [[<- _]|[_ Hv]].
  - right. exists x. split; [by left|done].
  - left. right. eauto.
Qed.

Lemma do_decision_writes_points ds (s s' : St) r c :
  do_writes (decision_writes ds) s = (s', r) → durable_point (view s') c →
  durable_point (view s) c ∨ ∃ x, x ∈ ds ∧ d_slot x = c.
Proof.
  destruct r as [[]|er].
  - intros ->%do_writes_ok. apply decision_writes_points.
  - intros (k & _ & ->)%do_writes_err. unfold decision_writes. rewrite firstn_map.
    intros [?|(x & Hx & ?)]%decision_writes_points; [by left|right].
    exists x. split; [by eapply subseteq_take|done].
Qed.

Lemma flushed_points p1 s c :
  durable_point (spec_writes norm (intent_writes p1) s) c →
  durable_point s c ∨ commit_index p1 = Some c.
Proof.
  destruct (intent_writes_commit (St:=St) p1 s) as [Hd Hc].
  intros [Hx|Hx]; [|left; right; by rewrite <- Hd].
  destruct Hc as [Hc|Hc]; rewrite Hc in Hx; [by left; left|by right].
Qed.

(** A completed flush: what storage holds, and its commit points. *)
Lemma flush_points n ev p p1 out p2 :
  node_ok cluster n p → event_spec ev p p1 out → flush_persist p1 = Some (p2, Ok tt) →
  ∃ s, p2 = drained p1 s ∧ mirrors (view s) p1 ∧
    ∀ c, durable_point (view s) c → durable_point (view (storage p)) c ∨ commit_index p1 = Some c.
Proof.
  intros Hp Hes Hfl. destruct (flush_event_spec _ _ _ _ _ _ _ Hp Hes Hfl) as (s & -> & Hm & _).
  apply flush_shape in Hfl as (s0 & Hw & Hs0). apply (f_equal storage) in Hs0. simpl in Hs0.
  subst s0. destruct (es_static _ _ _ _ Hes) as (_ & _ & _ & Hst). rewrite Hst in Hw.
  apply do_writes_ok in Hw. exists s. split_and!; [done..|]. rewrite Hw. apply flushed_points.
Qed.

Section one_event.
Context (n : NodeId) (ev : Event V) (p p1 : RaftProtocol V St)
  (out : list (Outgoing (RaftMessage V))).
Hypothesis (Hp : node_ok cluster n p) (Hes : event_spec ev p p1 out).
Hypothesis (Hrep : reply_spec ev p p1 out) (Happ : applied_step p p1).

Lemma done_change p2 p3 ds :
  flush_persist p1 = Some (p2, Ok tt) → drain_decisions p2 = (p3, Ok ds) →
  event_change n ev p p1 out true (Up p3) (packets_of cluster n out) ds.
Proof.
  intros Hfl Hdr. destruct (flush_points _ _ _ _ _ _ Hp Hes Hfl) as (s & -> & Hm & Hpt).
  unfold drain_decisions in Hdr. simpl in Hdr.
  destruct (save_decisions _ _) as [s' r'] eqn:Hsv. rewrite save_decisions_writes in Hsv.
  destruct r' as [[]|]; [|done]. injection Hdr as <- <-.
  split; try done; [split; [by right; right|by right|by intros q [= <-]]|by right
    |by intros q [= <-]|].
  intros c [Hc|[(d & Hd & _)|Hd]]; simpl in *; [by auto|by apply not_elem_of_nil in Hd|].
  destruct (do_decision_writes_points _ _ _ _ _ Hsv Hd) as [Hd'|Hd']; [|by right; auto].
  apply Hpt in Hd' as [?|?]; auto.
Qed.

Lemma deciding_change p2 k s r :
  flush_persist p1 = Some (p2, Ok tt) →
  do_writes (decision_writes (take k (pending_decisions p2))) (storage p2) = (s, r) →
  event_change n ev p p1 out true (Down s) (packets_of cluster n out) [].
Proof.
  intros Hfl Hw. destruct (flush_points _ _ _ _ _ _ Hp Hes Hfl) as (s' & -> & Hm & Hpt).
  pose proof (do_decision_writes_core _ _ _ _ Hw) as Hcore.
  assert (mirrors (view s) p1) as Hms by (by eapply mirrors_core).
  split; try done; [|by right|by intros ? ?%not_elem_of_nil| |].
  - split; [right; right; split; apply Hms|right; split; [by apply mirrors_down|apply Hms]|done].
  - intros _. split_and!; [apply Hms|apply Hms|by apply mirrors_down].
  - intros c Hd. simpl in Hd.
    destruct (do_decision_writes_points _ _ _ _ _ Hw Hd) as [Hd'|(x & Hx & Hs)].
    + apply Hpt in Hd' as [?|?]; simpl; auto.
    + right. split; [done|]. right. exists x. split; [|done]. by eapply subseteq_take.
Qed.

Lemma flushing_change k s r :
  do_writes (take k (intent_writes p1)) (storage p1) = (s, r) →
  ∃ fl, event_change n ev p p1 out fl (Down s) [] [].
Proof.
  intros Hw. pose proof (partial_flush_spec _ _ _ _ _ _ _ (proj2 (proj2 (proj2 Hp))) Hes Hw) as Hc.
  apply (crash_kept obs obs_norm) in Hc as Hk.
  destruct (es_static _ _ _ _ Hes) as (_ & _ & _ & Hst). rewrite Hst in Hw.
  assert (∃ k', view s = spec_writes norm (take k' (intent_writes p1)) (view (storage p))) as [k' Hv].
  { destruct r as [[]|er]; [apply do_writes_ok in Hw; by exists k|].
    apply do_writes_err in Hw as (k' & _ & ->). rewrite take_take. eauto. }
  destruct Hp as (_ & _ & _ & Hmir).
  destruct (intent_writes_torn _ _ _ _ k' _ Hmir Hes) as [Hfull|Htorn].
  - rewrite Hfull in Hv. exists true. pose proof (intent_writes_mirrors _ _ _ _ _ Hmir Hes) as Hm.
    rewrite <- Hv in Hm. split; try done; [by left|by intros ? ?%not_elem_of_nil| |].
    + intros _. split_and!; [apply Hm|apply Hm|by apply mirrors_down].
    + intros c Hd. simpl in Hd. rewrite Hv in Hd. apply flushed_points in Hd as [?|?]; simpl; auto.
  - rewrite <- Hv in Htorn. destruct Htorn as [T1 T2 T3]. exists false.
    split; try done; [by left|by intros ? ?%not_elem_of_nil| |].
    + intros _. unfold olog; simpl. destruct T3 as [->|[Ht [->|(i & Hi & ->)]]].
      * left. by apply ob_stored.
      * right. split; [done|]. left. by apply ob_stored.
      * right. split; [done|]. right. exists i. split; [done|].
        rewrite ob_stored by done. apply fmap_take.
    + intros c. simpl. unfold durable_point. rewrite T1, T2. auto.
Qed.
End one_event.

(** Every event of the ordered network is such a change. *)
Lemma event_step_change σ n ev σ' :
  net_ok cluster σ → event_step cluster n ev σ σ' →
  ∃ p p1 out fl st1 new ds, nodes σ !! n = Some (Up p) ∧
    nodes σ' = <[n := st1]> (nodes σ) ∧ packets σ' = packets σ ++ new ∧
    delivered σ' = delivered σ ++ map (pair n) ds ∧
    event_change n ev p p1 out fl st1 new ds.
Proof.
  intros Hok Hs.
  destruct Hs as [p e p1 out p2 p3 ds Hn Hrun Hfl Hdr|p e p1 out k s r Hn Hrun Hw
    |p e p1 out p2 k s r Hn Hrun Hfl Hw];
    pose proof (proj2 Hok n (Up p) Hn) as Hp; simpl in Hp;
    pose proof (run_event_reply _ _ _ _ _ Hrun) as Hrep;
    pose proof (run_event_applied _ _ _ _ _ Hrun) as Happ;
    (apply run_event_spec in Hrun; [|apply Hp]).
  - exists p, p1, out, true, (Up p3), (packets_of cluster n out), ds.
    split_and!; [done|done|done|done|by eapply done_change].
  - destruct (flushing_change n ev p p1 out Hp Hrun Hrep Happ k s r Hw) as [fl Hc].
    exists p, p1, out, fl, (Down s), [], [].
    split_and!; [done|done|by rewrite app_nil_r|by rewrite app_nil_r|done].
  - exists p, p1, out, true, (Down s), (packets_of cluster n out), [].
    split_and!; [done|done|done|simpl; by rewrite app_nil_r|by eapply deciding_change].
Qed.

(** It is a change in the sense of the unordered network. *)
Lemma event_change_change σ n ev p p1 out fl st1 new ds :
  enabled σ n ev → event_change n ev p p1 out fl st1 new ds →
  change obs cluster σ n (Up p) st1 new.
Proof.
  intros Hen Hc. eapply ch_event; [done|apply Hc|done|apply Hc|apply Hc|].
  destruct (ec_new _ _ _ _ _ _ _ _ _ Hc) as [->|[Hf ->]]; [by left|right].
  destruct (ec_flushed _ _ _ _ _ _ _ _ _ Hc Hf) as (? & ? & _). done.
Qed.

(** ** Steps without an event *)
Lemma max_slot_in (ds : list (N * V)) m : max_slot ds = Some m → m ∈ ds.*1.
Proof.
  revert m. induction ds as [|[k v] ds IH]; intros m; [done|].
  change (max_slot ((k, v) :: ds)) with
    (match max_slot ds with Some m => Some (N.max k m) | None => Some k end).
  destruct (max_slot ds) as [m'|]; intros [= <-]; simpl; [|left].
  destruct (N.max_spec k m') as [[_ ->]|[_ ->]]; [right; by apply IH|left].
Qed.

(** A restarted node takes as committed only what its storage vouches for. *)
Lemma recover_points e n tot c s p q :
  new e n tot c s = Some p → recover e p = Some (q, Ok tt) →
  (∀ i, commit_point (Up q) i → ∃ i', (i ≤ i')%N ∧ durable_point (view s) i') ∧
  ∀ d, d ∈ pending_decisions q → ∃ en, vget (log q) (d_slot d) = Some en ∧ d_value d = value en.
Proof.
  unfold new. intros Hn Hr. destruct (RaftConfig_validate c) as [u|]; [|done].
  injection Hn as <-. unfold recover in Hr; simpl in Hr.
  destruct (load_term s) as [t|]; [|done]. destruct (load_voted_for s) as [vf|]; [|done].
  destruct (load_log s) as [l|]; [|done]. destruct (load_decisions s) as [ds|] eqn:Ed; [|done].
  destruct (load_commit_index s) as [ci|] eqn:Ec; [|done].
  apply load_decisions_ok in Ed. apply load_commit_index_ok in Ec.
  destruct (restore_state _ _ _ _ _ _ _) as [q'|] eqn:Hq; [|done]. simpl in Hr.
  injection Hr as <-. unfold restore_state in Hq. simpl in Hq.
  assert (∀ m, max_slot ds = Some m → durable_point (view s) m) as Hmax.
  { intros m Hm%max_slot_in. right. apply list_elem_of_fmap_1 in Hm as ([k v] & -> & Hin).
    rewrite Ed in Hin. apply elem_of_map_to_list in Hin. simpl. eauto. }
  set (ci2 := match match ci, max_slot ds with
    | Some q, Some d => Some (N.max q d) | Some q, None => Some q
    | None, Some d => Some d | None, None => None end with
    | Some c => (λ last, N.min c last) <$> vlast_index l | None => None end) in *.
  assert (∀ i, ci2 = Some i → ∃ i', (i ≤ i')%N ∧ durable_point (view s) i') as Hci.
  { intros i Hi. assert (∀ a, ci = Some a → durable_point (view s) a) as Hp.
    { intros a0 Ha. left. congruence. }
    subst ci2. destruct ci as [a|], (max_slot ds) as [m|]; try done;
      destruct (vlast_index l); simplify_eq/=;
      [destruct (N.max_spec a m) as [[_ ->]|[_ ->]]; [exists m|exists a]|exists a|exists m];
      (split; [lia|]; auto). }
  clearbody ci2. pose proof (apply_committed_shape _ _ Hq) as (dd & la & -> & Hor).
  simpl in *. assert (∀ d, d ∈ dd → ∃ i en, ci2 = Some i ∧ (d_slot d ≤ i)%N ∧
    vget l (d_slot d) = Some en ∧ d_value d = value en) as Hdd.
  { intros d Hd. destruct Hor as [(-> & _)|(i & Hi & _ & Hle & Hlen & Hds)];
      [by apply not_elem_of_nil in Hd|].
    apply list_elem_of_lookup_1 in Hd as [k Hk]. destruct (Hds _ _ Hk) as (Hs & en & Hg & Hv).
    exists i, en. split_and!; try done. apply lookup_lt_Some in Hk. lia. }
  split.
  - intros i [Hi|[(d & Hd & <-)|Hd]]; simpl in *; [by apply Hci| |].
    + destruct (Hdd d Hd) as (i & en & Hi & Hle & _). destruct (Hci i Hi) as (i' & ? & ?).
      exists i'. split; [lia|done].
    + exists i. split; [lia|done].
  - intros d Hd. destruct (Hdd d Hd) as (i & en & _ & _ & ?). eauto.
Qed.

Lemma quiet_step_change σ n σ' :
  net_ok cluster σ → quiet_step cluster cfg n σ σ' →
  ∃ st st1, nodes σ !! n = Some st ∧ nodes σ' = <[n := st1]> (nodes σ) ∧
    packets σ' = packets σ ∧ delivered σ' = delivered σ ∧ quiet_change st st1.
Proof.
  intros Hok [p Hn|p Hn|s e p0 p1 Hn Hnew Hrec]; simpl.
  - destruct (proj2 Hok n _ Hn) as (_ & _ & _ & Hm).
    exists (Up p), (Down (storage p)). split_and!; try done.
    split; [apply Hm|apply Hm|by apply mirrors_down|done|]. intros c Hc. exists c. simpl in *.
    split; [lia|auto].
  - exists (Up p), (Up (take_lost_proposals p).1). split_and!; try done.
    split; try done; [intros q [= <-]; left; by exists p|]. intros c Hc. exists c. split; [lia|done].
  - destruct (recover_shape _ _ _ _ _ _ _ Hnew Hrec) as (_ & _ & _ & _ & H5 & H6 & H7 & H8).
    destruct (recover_points _ _ _ _ _ _ _ Hnew Hrec) as [Hpt Hpd].
    exists (Down s), (Up p1). split_and!; try done.
    split; simpl; [done|done|unfold olog; simpl; by rewrite H7| |done].
    intros q [= <-]. right. split; [|done]. destruct H8 as [?|(_ & ? & _)]; auto.
Qed.

Lemma quiet_change_change σ n st st1 :
  2 ≤ size cluster → quiet_change st st1 → change obs cluster σ n st st1 [].
Proof.
  intros Htwo Hq. apply ch_quiet; try apply Hq; [|done]. intros q Hst.
  destruct (qc_up _ _ Hq q Hst) as [(p & ? & ? & _)|[[?|?] _]]; eauto with lia.
Qed.
End change.
