(* ===== verification/RaftComplete.v ===== *)
(** * Raft: leader completeness

    The argument behind agreement, on the history of a cluster alone: the log
    of every term's leader ([TermLogs]), the prefix of it every node has
    acknowledged ([Acks]) and the log every candidate campaigned with
    ([CandLogs]). A prefix that a quorum acknowledged in a term is in the log
    of every later leader. *)

From S2P Require Import Prelude Types Raft RaftLocal RaftLogs.

(** How much of the log of a term's leader a node has acknowledged. *)
Abbreviation Acks := (gmap (N * NodeId) nat).
(** The log a candidate of a term asked for votes with. *)
Abbreviation CandLogs U := (gmap (N * NodeId) (list (N * U))).

Section history.
Context {U : Type} (cluster : gset NodeId).
Implicit Types (tl : TermLogs U) (A : Acks) (cl : CandLogs U) (l L c : list (N * U)).

Definition tlog (tl : TermLogs U) (T : N) : list (N * U) :=
  match tl !! T with Some (_, L) => L | None => [] end.
Definition acked (A : Acks) (T : N) (n : NodeId) : nat := default 0 (A !! (T, n)).

Lemma tlog_Some tl T a L : tl !! T = Some (a, L) → tlog tl T = L.
Proof. unfold tlog. by intros ->. Qed.

(** Leaders' logs come from the logs of earlier leaders and hold no entry of
    a later term. *)
Record logs_ok (tl : TermLogs U) : Prop := {
  lo_agrees T : agrees tl (tlog tl T);
  lo_bounded T : Forall (λ x, (x.1 ≤ T)%N) (tlog tl T);
}.

(** Some leader after term [T] and before [hi] lacks the first [k] entries of
    the log of term [T]. *)
Definition dropped (tl : TermLogs U) (T : N) (k : nat) (hi : N) : Prop :=
  ∃ T', (T < T')%N ∧ (T' < hi)%N ∧ is_Some (tl !! T') ∧ take k (tlog tl T') ≠ take k (tlog tl T).

Definition last_term (l : list (N * U)) : N :=
  match last l with Some x => x.1 | None => 0%N end.

(** The order of the vote check: [c] is at least as up to date as [l]. *)
Definition up_to_date (l c : list (N * U)) : Prop :=
  (last_term l < last_term c)%N ∨ last_term l = last_term c ∧ length l ≤ length c.

(** Voter [v] voted in term [T] for a candidate with log [c], when its own
    log was [l] and held all it had acknowledged, unless a leader before [T]
    lacked it. *)
Definition vouched (tl : TermLogs U) (A : Acks) (c : list (N * U)) (T : N) (v : NodeId) : Prop :=
  ∃ l, agrees tl l ∧ up_to_date l c ∧
    ∀ T0 k, (T0 < T)%N → k ≤ acked A T0 v →
      dropped tl T0 k T ∨ take k l = take k (tlog tl T0).

(** The leader [a] of term [T] was elected with log [c] by a quorum of nodes
    that have [reached] the term, and has since appended entries of its term. *)
Definition elected (tl : TermLogs U) (A : Acks) (cl : CandLogs U) (reached : N → NodeId → Prop)
    (T : N) (a : NodeId) (L : list (N * U)) : Prop :=
  ∃ c new (Q : gset NodeId), cl !! (T, a) = Some c ∧ L = c ++ new ∧
    Forall (λ x, x.1 = T) new ∧ Forall (λ x, (x.1 < T)%N) c ∧
    Q ⊆ cluster ∧ quorum_size (size cluster) ≤ size Q ∧ ∀ v, v ∈ Q → vouched tl A c T v ∧ reached T v.

(** A quorum has acknowledged the first [k] entries of the log of term [T],
    the last of which is of term [T]. *)
Definition committed (tl : TermLogs U) (A : Acks) (T : N) (k : nat) : Prop :=
  (∃ j x, k = S j ∧ tlog tl T !! j = Some x ∧ x.1 = T) ∧
  ∃ Q : gset NodeId, Q ⊆ cluster ∧ quorum_size (size cluster) ≤ size Q ∧
    ∀ v, v ∈ Q → k ≤ acked A T v.

Lemma committed_len tl A T k : committed tl A T k → 0 < k ∧ k ≤ length (tlog tl T).
Proof. intros [(j & x & -> & Hx%lookup_lt_Some & _) _]. lia. Qed.

Section one_history.
Context (tl : TermLogs U) (A : Acks) (cl : CandLogs U) (reached : N → NodeId → Prop).
Hypothesis Hok : logs_ok tl.

(** Terms never go down along a log. *)
Lemma agrees_sorted l i j x y :
  agrees tl l → i ≤ j → l !! i = Some x → l !! j = Some y → (x.1 ≤ y.1)%N.
Proof.
  intros Ha Hij Hx Hy. destruct (Ha _ _ Hy) as (a & L & HL & Ht).
  pose proof (lo_bounded _ Hok y.1) as Hb. rewrite (tlog_Some _ _ _ _ HL), Forall_lookup in Hb.
  apply (Hb i). rewrite <- Hx. symmetry. eapply take_eq_lookup; [exact Ht|lia].
Qed.

(** Whether a log has a prefix of the log of term [T] shows at its end. *)
Lemma prefix_or_not l T k :
  agrees tl l → k ≤ length (tlog tl T) →
  take k l = take k (tlog tl T) ∨ take k l ≠ take k (tlog tl T).
Proof.
  intros Ha Hk. destruct k as [|j]; [by left|].
  destruct (lookup_lt_is_Some_2 (tlog tl T) j) as [x Hx]; [lia|].
  destruct (l !! j) as [y|] eqn:Hy.
  - destruct (decide (y.1 = x.1)) as [E|E].
    + left. by apply (agrees_matches tl l (tlog tl T) Ha (lo_agrees _ Hok T) j y x).
    + right. intros Ht. apply (take_eq_lookup _ _ _ j) in Ht; [|lia]. congruence.
  - right. intros Ht. apply (take_eq_lookup _ _ _ j) in Ht; [|lia]. congruence.
Qed.

(** The last entry of a log bounds all its terms. *)
Lemma last_term_ge l i x : agrees tl l → l !! i = Some x → (x.1 ≤ last_term l)%N.
Proof.
  intros Ha Hx. pose proof (lookup_lt_Some _ _ _ Hx) as Hi. unfold last_term.
  destruct (last l) as [y|] eqn:Hl.
  - rewrite last_lookup in Hl. eapply agrees_sorted; [done| |exact Hx|exact Hl]. lia.
  - apply last_None in Hl. subst l. done.
Qed.

(** A log at least as up to date as one that ends like the prefix of term
    [T] has the prefix, if the leaders in between have it. *)
Lemma up_to_date_prefix l c T T' k j x :
  agrees tl l → agrees tl c → up_to_date l c → Forall (λ y, (y.1 < T')%N) c →
  k = S j → tlog tl T !! j = Some x → x.1 = T → take k l = take k (tlog tl T) →
  (∀ T1, (T < T1)%N → (T1 < T')%N → is_Some (tl !! T1) → take k (tlog tl T1) = take k (tlog tl T)) →
  take k c = take k (tlog tl T).
Proof.
  intros Hl Hc Hup Hlt -> Hx HT Htake Hbetween.
  assert (l !! j = Some x) as Hlx by (rewrite <- Hx; eapply take_eq_lookup; [exact Htake|lia]).
  pose proof (last_term_ge _ _ _ Hl Hlx) as Hge. rewrite HT in Hge.
  assert (∀ y, last c = Some y → c !! (length c - 1) = Some y) as Hlast.
  { intros y Hy. rewrite last_lookup in Hy. rewrite <- Hy. f_equal. lia. }
  destruct Hup as [Hup|[Heq Hlen]].
  - unfold last_term in Hup at 2. destruct (last c) as [y|] eqn:Hy; [|lia].
    pose proof (Hlast y eq_refl) as Hcy. destruct (Hc _ _ Hcy) as (a & L & HL & Ht).
    rewrite Forall_lookup in Hlt. specialize (Hlt _ _ Hcy).
    assert (take (S j) (tlog tl y.1) = take (S j) (tlog tl T)) as HB by (apply Hbetween; [lia|done|eauto]).
    rewrite (tlog_Some _ _ _ _ HL) in HB.
    assert (j < length c - 1).
    { destruct (decide (j < length c - 1)) as [|Hn]; [done|]. exfalso.
      assert (L !! (length c - 1) = Some y) as HLy.
      { rewrite <- Hcy. symmetry. eapply take_eq_lookup; [exact Ht|lia]. }
      assert (tlog tl T !! (length c - 1) = Some y) as HTy.
      { rewrite <- HLy. symmetry. eapply take_eq_lookup; [exact HB|lia]. }
      pose proof (lo_bounded _ Hok T) as Hb. rewrite Forall_lookup in Hb.
      specialize (Hb _ _ HTy). lia. }
    rewrite <- HB. eapply take_eq_mono; [|exact Ht]. lia.
  - assert (∃ y, last l = Some y) as [y Hy].
    { destruct (last l) eqn:E; [eauto|]. apply last_None in E. by subst l. }
    assert (∃ z, last c = Some z) as [z Hz].
    { destruct (last c) eqn:E; [eauto|]. apply last_None in E. subst c.
      apply lookup_lt_Some in Hlx. simpl in Hlen. lia. }
    unfold last_term in Heq. rewrite Hy, Hz in Heq. rewrite last_lookup in Hy.
    pose proof (agrees_matches_upto _ _ _ Hl Hc (pred (length l)) (length c - 1) y z) as Hm.
    rewrite <- Htake. symmetry. eapply take_eq_mono; [|apply Hm; [lia|exact Hy|by apply Hlast|done]].
    apply lookup_lt_Some in Hlx. lia.
Qed.

Hypothesis Hel : ∀ T a L, tl !! T = Some (a, L) → elected tl A cl reached T a L.

(** Leader completeness. *)
Lemma complete T k T' :
  committed tl A T k → (T < T')%N → is_Some (tl !! T') → take k (tlog tl T') = take k (tlog tl T).
Proof.
  intros Hc. pose proof Hc as [(j & x & Hk & Hx & HT) (Q & HQ & Hq & Hack)].
  induction T' as [T' IH] using (well_founded_induction N.lt_wf_0). intros Hlt [[a L] HL].
  destruct (Hel _ _ _ HL) as (c & new & Q' & Hcl & Heq & Hnew & Hclt & HQ' & Hq' & Hv).
  destruct (quorum_intersect cluster Q Q') as (v & Hv1 & Hv2); [done..|].
  destruct (Hv v Hv2) as [(l & Hla & Hup & Hl) _].
  assert (∀ T1, (T < T1)%N → (T1 < T')%N → is_Some (tl !! T1) →
    take k (tlog tl T1) = take k (tlog tl T)) as Hbetween by (intros; by apply IH).
  assert (agrees tl c) as Hca.
  { replace c with (take (length c) L) by (by rewrite Heq, take_app_length).
    apply agrees_take. rewrite <- (tlog_Some _ _ _ _ HL). apply Hok. }
  assert (take k c = take k (tlog tl T)) as Hfin.
  { destruct (Hl T k Hlt (Hack v Hv1)) as [(T1 & ? & ? & ? & Hne)|Htake].
    - destruct Hne. by apply Hbetween.
    - by eapply (up_to_date_prefix l c T T' k j x). }
  rewrite (tlog_Some _ _ _ _ HL), Heq, <- Hfin. apply take_app_le.
  apply committed_len in Hc as [_ Hc]. apply (f_equal length) in Hfin.
  rewrite !length_take in Hfin. lia.
Qed.

(** A later leader's log agrees with a committed prefix. *)
Lemma complete_lookup T k T' i :
  committed tl A T k → (T ≤ T')%N → is_Some (tl !! T') → i < k →
  tlog tl T' !! i = tlog tl T !! i.
Proof.
  intros Hc Hle HT' Hi. destruct (decide (T = T')) as [->|Hne]; [done|].
  eapply take_eq_lookup; [eapply complete; [exact Hc|lia|done]|done].
Qed.

Lemma committed_leader T k : committed tl A T k → is_Some (tl !! T).
Proof.
  intros [(j & x & _ & Hx & _) _]. unfold tlog in Hx.
  destruct (tl !! T) as [[a L]|]; [eauto|done].
Qed.

(** Two committed prefixes agree where both reach. *)
Lemma committed_agree T k T' k' i :
  committed tl A T k → committed tl A T' k' → i < k → i < k' → tlog tl T !! i = tlog tl T' !! i.
Proof.
  intros Hc Hc' Hi Hi'. destruct (decide (T ≤ T')%N).
  - symmetry. eapply complete_lookup; [exact Hc|done|by eapply committed_leader|done].
  - eapply complete_lookup; [exact Hc'|lia|by eapply committed_leader|done].
Qed.
End one_history.

(** The slot is decided with [u]: a committed prefix has it there. *)
Definition chosen (tl : TermLogs U) (A : Acks) (slot : N) (u : U) : Prop :=
  ∃ T k x, committed tl A T k ∧ N.to_nat slot < k ∧ tlog tl T !! N.to_nat slot = Some x ∧ x.2 = u.

Lemma chosen_unique tl A cl reached slot u u' :
  logs_ok tl → (∀ T a L, tl !! T = Some (a, L) → elected tl A cl reached T a L) →
  chosen tl A slot u → chosen tl A slot u' → u = u'.
Proof.
  intros Hok Hel (T & k & x & Hc & Hk & Hx & <-) (T' & k' & y & Hc' & Hk' & Hy & <-).
  rewrite (committed_agree tl A cl reached Hok Hel T k T' k') in Hx by done. congruence.
Qed.

(** ** History grows *)
Lemma grows_tlog tl tl' T :
  grows tl tl' → is_Some (tl !! T) →
  ∃ new, tlog tl' T = tlog tl T ++ new ∧ Forall (λ x, x.1 = T) new.
Proof.
  intros Hg [[a L] HL]. destruct (Hg _ _ _ HL) as (new & HL' & Hn). exists new.
  by rewrite (tlog_Some _ _ _ _ HL), (tlog_Some _ _ _ _ HL').
Qed.

Lemma grows_take tl tl' T k :
  grows tl tl' → k ≤ length (tlog tl T) → take k (tlog tl' T) = take k (tlog tl T).
Proof.
  intros Hg Hk. destruct (tl !! T) as [[a L]|] eqn:HL.
  - destruct (grows_tlog _ _ T Hg) as (new & -> & _); [eauto|]. by apply take_app_le.
  - unfold tlog in *. rewrite HL in Hk. simpl in Hk. by replace k with 0 by lia.
Qed.

Lemma grows_lookup tl tl' T i x :
  grows tl tl' → tlog tl T !! i = Some x → tlog tl' T !! i = Some x.
Proof.
  intros Hg Hx. rewrite <- Hx. eapply take_eq_lookup; [|apply Nat.lt_succ_diag_r].
  apply grows_take; [done|]. apply lookup_lt_Some in Hx. lia.
Qed.

Lemma dropped_grows tl tl' T k hi :
  logs_ok tl → grows tl tl' → k ≤ length (tlog tl T) →
  dropped tl T k hi → dropped tl' T k hi.
Proof.
  intros Hok Hg Hk (T' & Hlt & Hhi & HT' & Hne). exists T'.
  destruct (grows_tlog _ _ T' Hg HT') as (new & Heq & Hnew). split_and!; [done|done| |].
  { destruct HT' as [[a L] HL]. destruct (Hg _ _ _ HL) as (? & ? & _). eauto. }
  rewrite (grows_take _ _ _ _ Hg Hk), Heq. intros Ht. apply Hne.
  destruct (decide (k ≤ length (tlog tl T'))) as [Hle|Hgt]; [by rewrite take_app_le in Ht|].
  exfalso. apply Nat.nle_gt in Hgt.
  destruct (lookup_lt_is_Some_2 (tlog tl T) (length (tlog tl T'))) as [x Hx]; [lia|].
  assert ((tlog tl T' ++ new) !! length (tlog tl T') = Some x) as Hy.
  { rewrite <- Hx. eapply take_eq_lookup; [exact Ht|done]. }
  rewrite lookup_app_r, Nat.sub_diag in Hy by lia.
  rewrite Forall_lookup in Hnew. specialize (Hnew _ _ Hy).
  pose proof (lo_bounded _ Hok T) as Hb. rewrite Forall_lookup in Hb. specialize (Hb _ _ Hx). lia.
Qed.

Lemma dropped_mono tl T k hi hi' : (hi ≤ hi')%N → dropped tl T k hi → dropped tl T k hi'.
Proof. intros Hle (T' & ? & ? & ?). exists T'. split_and!; [done|lia|naive_solver..]. Qed.

(** Acknowledgements of [v] below term [T] are complete. *)
Lemma vouched_grows tl tl' A A' c T v :
  logs_ok tl → grows tl tl' → (∀ T0, acked A T0 v ≤ length (tlog tl T0)) →
  (∀ T0, (T0 < T)%N → acked A' T0 v = acked A T0 v) →
  vouched tl A c T v → vouched tl' A' c T v.
Proof.
  intros Hok Hg Hlen Hacks (l & Hl & Hup & Hv). exists l.
  split_and!; [by eapply agrees_mono; [apply grows_extends|]|done|].
  intros T0 k Hlt Hk. rewrite Hacks in Hk by done. specialize (Hlen T0).
  destruct (Hv T0 k Hlt Hk) as [Hd|Ht]; [left; eapply dropped_grows; eauto with lia|right].
  rewrite (grows_take _ _ _ _ Hg) by lia. done.
Qed.

Lemma committed_grows tl tl' A A' T k :
  grows tl tl' → (∀ v, acked A T v ≤ acked A' T v) → committed tl A T k → committed tl' A' T k.
Proof.
  intros Hg Ha [(j & x & -> & Hx & HT) (Q & HQ & Hq & Hv)]. split.
  - exists j, x. split_and!; [done|by eapply grows_lookup|done].
  - exists Q. split_and!; [done..|]. intros v Hin. etrans; [by apply Hv|done].
Qed.

Lemma chosen_grows tl tl' A A' slot u :
  grows tl tl' → (∀ T v, acked A T v ≤ acked A' T v) → chosen tl A slot u → chosen tl' A' slot u.
Proof.
  intros Hg Ha (T & k & x & Hc & Hk & Hx & Hu). exists T, k, x.
  split_and!; [eapply committed_grows; [done|apply Ha|done]|done|by eapply grows_lookup|done].
Qed.
End history.
