(* ===== verification/RaftHistory.v ===== *)
(** * Raft: the history invariant of ordered links

    What the history of [RaftComplete.v] says about a state of the ordered
    network of [RaftFifo.v]: votes are backed by the voter's log, what a node
    acknowledged it still holds unless a later leader lacked it, an
    AppendEntries not yet read reaches at least as far as its receiver has
    acknowledged, and whatever a node takes to be committed is committed. *)

From S2P Require Import Prelude Types Network Storage Raft RaftLocal RaftEvents RaftDurable.
From S2P Require Import RaftNet RaftNetLemmas RaftElection RaftLogs RaftComplete.
From S2P Require Import RaftExec RaftCommit RaftReplies RaftFifo RaftChange.

(** The log of its sender reached this far when an AppendEntries was sent. *)
Definition ae_end {V} (prev : option N) (es : list (LogEntry V)) : nat :=
  N.to_nat (start_of prev + vlen es).

Section history.
Context {V St U : Type} `{RaftStorageSpec St V}.
Context (obs : V → U) (cluster : gset NodeId).
Implicit Types (σ : Net V St) (p : RaftProtocol V St) (st : NodeStatus V St)
  (tl : TermLogs U) (A : Acks) (cl : CandLogs U).

Definition reached (σ : Net V St) (T : N) (n : NodeId) : Prop :=
  ∀ st, nodes σ !! n = Some st → (T ≤ st_term st)%N.

(** The vote of [v] for [c] in term [T] is backed by the log [v] had. *)
Definition backs (tl : TermLogs U) (A : Acks) (cl : CandLogs U) (σ : Net V St)
    (v : NodeId) (T : N) (c : NodeId) : Prop :=
  ∃ c0, cl !! (T, c) = Some c0 ∧ vouched tl A c0 T v ∧ v ∈ cluster ∧ reached σ T v.

(** Votes cast after the term had its leader back nothing. *)
Definition backs_if_open tl A cl σ (v : NodeId) (T : N) (c : NodeId) : Prop :=
  is_Some (tl !! T) ∨ backs tl A cl σ v T c.

Record votes_inv (tl : TermLogs U) (A : Acks) (cl : CandLogs U) (σ : Net V St) : Prop := {
  vi_terms n st : nodes σ !! n = Some st → Forall (λ x, (x.1 ≤ st_term st)%N) (olog obs st);
  vi_elected T a L : tl !! T = Some (a, L) → elected cluster tl A cl (reached σ) T a L;
  vi_log T n c : cl !! (T, n) = Some c →
    reached σ T n ∧ Forall (λ x, (x.1 < T)%N) c ∧ agrees tl c;
  vi_candidate n p : nodes σ !! n = Some (Up p) → role p = Candidate →
    cl !! (current_term p, n) = Some (olog obs (Up p));
  vi_request s d T c li lt : mkPacket s d (RequestVote T c li lt) ∈ packets σ →
    c = s ∧ ∃ c0, cl !! (T, s) = Some c0 ∧ li = vlast_index c0 ∧ lt = last_term c0;
  vi_vote s d T : mkPacket s d (RequestVoteResponse T true) ∈ packets σ →
    backs_if_open tl A cl σ s T d;
  vi_counted n p v : nodes σ !! n = Some (Up p) → role p = Candidate → v ∈ votes_received p →
    backs_if_open tl A cl σ v (current_term p) n;
}.

(** A node at term [t] with log [l] still holds what [n] acknowledged. *)
Definition holds_acked (tl : TermLogs U) (A : Acks) (n : NodeId) (t : N) (l : list (N * U)) : Prop :=
  ∀ T k, k ≤ acked A T n → dropped tl T k (t + 1) ∨ take k l = take k (tlog tl T).

Record acks_inv (tl : TermLogs U) (A : Acks) (σ : Net V St) : Prop := {
  ai_len T n : acked A T n ≤ length (tlog tl T);
  ai_reached T n : 0 < acked A T n → reached σ T n ∧ n ∈ cluster;
  ai_log n st : nodes σ !! n = Some st → holds_acked tl A n (st_term st) (olog obs st);
  ai_leader n p : nodes σ !! n = Some (Up p) → role p = Leader →
    acked A (current_term p) n = length (log p);
  ai_reply s d T m ct ci :
    mkPacket s d (AppendEntriesResponse T true (Some m) ct ci) ∈ packets σ →
    N.to_nat m < acked A T s;
  ai_match n p v m : nodes σ !! n = Some (Up p) → role p = Leader →
    match_index p !! v = Some (Some m) → N.to_nat m < acked A (current_term p) v;
}.

(** Index [c] is within a prefix committed by term [T]. *)
Definition claim (tl : TermLogs U) (A : Acks) (T : N) (c : N) : Prop :=
  ∃ T0 k, committed cluster tl A T0 k ∧ N.to_nat c < k ∧ (T0 ≤ T)%N.

(** Node [n] learned this, and acknowledged the index, by term [t]. *)
Definition known (tl : TermLogs U) (A : Acks) (n : NodeId) (t : N) (c : N) : Prop :=
  ∃ T1, claim tl A T1 c ∧ (T1 ≤ t)%N ∧ N.to_nat c < acked A T1 n.

Record sent_ok (tl : TermLogs U) (A : Acks) (cl : CandLogs U) (s d : NodeId) (T : N)
    (prev : option N) (es : list (LogEntry V)) (lc : option N) (is_unread : Prop) : Prop := {
  so_leader : ∃ L, tl !! T = Some (s, L) ∧ ae_end prev es ≤ length L;
  so_start : ∃ c, cl !! (T, s) = Some c ∧ length c ≤ ae_end prev es;
  so_other : s ≠ d;
  so_unread : is_unread → acked A T d ≤ ae_end prev es;
  so_commit c : lc = Some c → claim tl A T c;
}.

Record links_inv (tl : TermLogs U) (A : Acks) (cl : CandLogs U) (σ : Net V St)
    (links : gmap (NodeId * NodeId) nat) : Prop := {
  ki_sent i s d T l prev pt es lc :
    packets σ !! i = Some (mkPacket s d (AppendEntries T l prev pt es lc)) →
    sent_ok tl A cl s d T prev es lc (unread links s d ≤ i);
  ki_order i j s d T l prev pt es lc l' prev' pt' es' lc' :
    i ≤ j → packets σ !! i = Some (mkPacket s d (AppendEntries T l prev pt es lc)) →
    packets σ !! j = Some (mkPacket s d (AppendEntries T l' prev' pt' es' lc')) →
    ae_end prev es ≤ ae_end prev' es';
}.

Record commit_inv (tl : TermLogs U) (A : Acks) (σ : Net V St) : Prop := {
  ci_known n st c : nodes σ !! n = Some st → commit_point st c → known tl A n (st_term st) c;
  ci_pending n p d : nodes σ !! n = Some (Up p) → d ∈ pending_decisions p →
    chosen cluster tl A (d_slot d) (obs (d_value d));
  ci_delivered n d : (n, d) ∈ delivered σ → chosen cluster tl A (d_slot d) (obs (d_value d));
}.

Record history_inv (h : Votes) tl A cl σ links : Prop := {
  hi_net : net_ok cluster σ;
  hi_election : election_inv cluster h σ;
  hi_logs : logs_inv obs cluster h tl σ;
  hi_ok : logs_ok tl;
  hi_votes : votes_inv tl A cl σ;
  hi_acks : acks_inv tl A σ;
  hi_links : links_inv tl A cl σ links;
  hi_commit : commit_inv tl A σ;
}.

(** ** Consequences in one state *)
Lemma claim_mono tl tl' A A' T c :
  grows tl tl' → (∀ T v, acked A T v ≤ acked A' T v) → claim tl A T c → claim tl' A' T c.
Proof.
  intros Hg Ha (T0 & k & Hc & Hk & Hle). exists T0, k.
  split_and!; [eapply committed_grows; [done|apply Ha|done]|done|done].
Qed.

Lemma known_mono tl tl' A A' n t t' c :
  grows tl tl' → (∀ T v, acked A T v ≤ acked A' T v) → (t ≤ t')%N →
  known tl A n t c → known tl' A' n t' c.
Proof.
  intros Hg Ha Ht (T1 & Hc & Hle & Hk). exists T1. split_and!; [by eapply claim_mono|lia|].
  specialize (Ha T1 n). lia.
Qed.

Lemma known_le tl A n t c c' : (c ≤ c')%N → known tl A n t c' → known tl A n t c.
Proof.
  intros Hle (T1 & (T0 & k & Hc & Hk & HT) & Ht & Ha). exists T1. split_and!; [|done|lia].
  exists T0, k. split_and!; [done|lia|done].
Qed.

(** What a node knows to be committed is what its log holds. *)
Section known.
Context (tl : TermLogs U) (A : Acks) (cl : CandLogs U) (R : N → NodeId → Prop).
Hypothesis Hok : logs_ok tl.
Hypothesis Hel : ∀ T a L, tl !! T = Some (a, L) → elected cluster tl A cl R T a L.
Context (n : NodeId) (t : N) (l : list (N * U)).
Hypothesis Hlen : ∀ T, acked A T n ≤ length (tlog tl T).
Hypothesis Hh : holds_acked tl A n t l.

Lemma known_prefix c :
  known tl A n t c →
  ∃ T0 k, committed cluster tl A T0 k ∧ N.to_nat c < k ∧ (T0 ≤ t)%N ∧
    take (S (N.to_nat c)) l = take (S (N.to_nat c)) (tlog tl T0).
Proof.
  intros (T1 & (T0 & k & Hc & Hk & HT) & Ht & Ha).
  assert (∀ T, (T1 ≤ T)%N → is_Some (tl !! T) →
    take (S (N.to_nat c)) (tlog tl T) = take (S (N.to_nat c)) (tlog tl T0)) as Hsame.
  { intros T Hle HS. destruct (decide (T = T0)) as [->|Hne]; [done|].
    eapply take_eq_mono; [|eapply (complete cluster tl A cl R Hok Hel T0 k T Hc); [lia|done]]. lia. }
  assert (is_Some (tl !! T1)) as HT1.
  { specialize (Hlen T1). unfold tlog in Hlen. destruct (tl !! T1); [eauto|simpl in Hlen; lia]. }
  exists T0, k. split_and!; [done|done|lia|].
  destruct (Hh T1 (S (N.to_nat c))) as [(T' & ? & ? & HS & Hne)|Htake]; [lia| |].
  - destruct Hne. rewrite (Hsame T1), (Hsame T') by (done || lia). done.
  - rewrite Htake. by apply Hsame.
Qed.

Lemma known_chosen c x :
  known tl A n t c → l !! N.to_nat c = Some x → chosen cluster tl A c x.2.
Proof.
  intros (T0 & k & Hc & Hk & _ & Ht)%known_prefix Hx. exists T0, k, x.
  split_and!; [done|done| |done]. rewrite <- Hx. symmetry.
  eapply take_eq_lookup; [exact Ht|lia].
Qed.
End known.
End history.
