(* ===== verification/RaftHistoryEvent.v ===== *)
(** * Raft: events keep the history invariant

    One event of a node of the ordered network: how it extends the history,
    and that every part of the invariant holds of the longer history. *)

From S2P Require Import Prelude Types Network Storage Raft RaftLocal RaftEvents RaftDurable.
From S2P Require Import RaftNet RaftNetLemmas RaftElection RaftLogs RaftComplete.
From S2P Require Import RaftExec RaftCommit RaftReplies RaftFifo RaftChange RaftHistory.

Section record.
Context {V St U : Type} (obs : V → U).
Implicit Types (p : RaftProtocol V St).

(** A campaign is recorded once its RequestVote may have left. *)
Definition record_cand (fl : bool) (n : NodeId) (p p1 : RaftProtocol V St)
    (cl : CandLogs U) : CandLogs U :=
  if fl && is_candidate (role p1) && (current_term p <? current_term p1)%N
  then <[(current_term p1, n) := ob obs <$> log p1]> cl else cl.

(** How far a node acknowledges the log of its term's leader in an event: all
    of it if it is the leader, else what it answers. *)
Definition new_ack (p1 : RaftProtocol V St) (out : list (Outgoing (RaftMessage V))) : option nat :=
  if is_leader (role p1) then Some (length (log p1)) else (λ m, S (N.to_nat m)) <$> ack_of out.

Definition record_ack (fl : bool) (n : NodeId) (p1 : RaftProtocol V St)
    (out : list (Outgoing (RaftMessage V))) (A : Acks) : Acks :=
  if fl then
    match new_ack p1 out with Some k => <[(current_term p1, n) := k]> A | None => A end
  else A.
End record.

Section event.
Context {V St U : Type} `{RaftStorageSpec St V}.
Context (obs : V → U) (cluster : gset NodeId).
Hypothesis two_nodes : 2 ≤ size cluster.
Context (h h' : Votes) (tl : TermLogs U) (A : Acks) (cl : CandLogs U)
  (σ σ' : Net V St) (links links' : gmap (NodeId * NodeId) nat)
  (n : NodeId) (ev : Event V) (p p1 : RaftProtocol V St)
  (out : list (Outgoing (RaftMessage V))) (fl : bool) (st1 : NodeStatus V St)
  (new : list (Packet (RaftMessage V))) (ds : list (Decision V)).
Let tl' := record_log obs tl n p1.
Let A' := record_ack fl n p1 out A.
Let cl' := record_cand obs fl n p p1 cl.

Hypothesis Hinv : history_inv obs cluster h tl A cl σ links.
Hypothesis Hn : nodes σ !! n = Some (Up p).
Hypothesis Hns : nodes σ' = <[n := st1]> (nodes σ).
Hypothesis Hps : packets σ' = packets σ ++ new.
Hypothesis Hds : delivered σ' = delivered σ ++ map (pair n) ds.
Hypothesis Hch : event_change obs cluster n ev p p1 out fl st1 new ds.
Hypothesis Hen : enabled σ n ev.
Hypothesis Hunread : ∀ s d j, unread links' s d ≤ j → unread links s d ≤ j.
Hypothesis Hread : ∀ from msg, ev = EvReceive from msg →
  ∃ i, packets σ !! i = Some (mkPacket from n msg) ∧ unread links from n ≤ i ∧
    unread links' from n = S i.
Hypothesis Hli' : logs_inv obs cluster h' tl' σ'.

Let Hes := ec_spec _ _ _ _ _ _ _ _ _ _ _ Hch.
Let Hnode := ec_node _ _ _ _ _ _ _ _ _ _ _ Hch.
Let Hrep := ec_reply _ _ _ _ _ _ _ _ _ _ _ Hch.
Let Hvi := hi_votes _ _ _ _ _ _ _ _ Hinv.
Let Hai := hi_acks _ _ _ _ _ _ _ _ Hinv.
Let Hki := hi_links _ _ _ _ _ _ _ _ Hinv.
Let Hlo := hi_ok _ _ _ _ _ _ _ _ Hinv.
Let Hli := hi_logs _ _ _ _ _ _ _ _ Hinv.

(** ** The history after the event *)
Lemma ev_grows : grows tl tl'.
Proof. eapply event_grows; [done|apply Hinv|exact Hli|done|exact Hnode|done|exact Hes]. Qed.

Lemma ev_term : (current_term p ≤ current_term p1)%N.
Proof. apply (es_tv _ _ _ _ Hes). Qed.

Lemma ev_st_term : (current_term p ≤ st_term st1)%N.
Proof. apply (kept_binds obs ev p p1 out st1 Hes). apply Hch. Qed.

Lemma ev_in : n ∈ cluster.
Proof. eapply net_ok_in; [apply Hinv|done]. Qed.

Lemma ev_reached T v : reached σ T v → reached σ' T v.
Proof.
  intros Hr st Hst. rewrite Hns in Hst. apply lookup_insert_Some in Hst as [[<- <-]|[_ Hst]].
  - specialize (Hr _ Hn). pose proof ev_st_term. simpl in *. lia.
  - by apply Hr.
Qed.

Lemma ev_reached_self : fl = true → reached σ' (current_term p1) n.
Proof.
  intros Hf st Hst. rewrite Hns, lookup_insert_eq in Hst. injection Hst as <-.
  destruct (ec_flushed _ _ _ _ _ _ _ _ _ _ _ Hch Hf) as [-> _]. lia.
Qed.

(** The term after the event has no leader but the one recorded. *)
Lemma ev_leader_term a L :
  role p1 = Leader → tl !! current_term p1 = Some (a, L) → a = n.
Proof.
  intros Hr HL. destruct (ev_grows _ _ _ HL) as (k & HL' & _). subst tl'.
  rewrite record_log_leader in HL' by done. congruence.
Qed.

Lemma ev_tlog_leader : role p1 = Leader → tlog tl' (current_term p1) = ob obs <$> log p1.
Proof. intros Hr. eapply tlog_Some. by apply record_log_leader. Qed.

Lemma ev_tl_follower : role p1 ≠ Leader → tl' = tl.
Proof. subst tl'. unfold record_log. by destruct (role p1). Qed.

(** The log after an accepted AppendEntries. *)
Lemma ev_accepted m :
  accepted ev p p1 m →
  ∃ i from L l prev pt es lc c,
    packets σ !! i = Some (mkPacket from n (AppendEntries (current_term p1) l prev pt es lc)) ∧
    unread links' from n = S i ∧
    sent_ok cluster tl A cl from n (current_term p1) prev es lc True ∧
    ev = EvReceive from (AppendEntries (current_term p1) l prev pt es lc) ∧
    tl !! current_term p1 = Some (from, L) ∧ cl !! (current_term p1, from) = Some c ∧
    ae_end prev es = S (N.to_nat m) ∧ length c ≤ S (N.to_nat m) ≤ length L ∧
    acked A (current_term p1) n ≤ S (N.to_nat m) ∧ role p1 = Follower ∧
    ob obs <$> log p1 = take (S (N.to_nat m)) L.
Proof.
  intros (from & l & prev & pt & es & lc & Hev & Hr & Hprev & Hlog & Hv).
  destruct (Hread _ _ Hev) as (i & Hi & Hu & Hu').
  pose proof (ki_sent _ _ _ _ _ _ Hki _ _ _ _ _ _ _ _ _ Hi) as Hs.
  destruct (so_leader _ _ _ _ _ _ _ _ _ _ _ Hs) as (L & HL & Hle).
  destruct (so_start _ _ _ _ _ _ _ _ _ _ _ Hs) as (c & Hcl & Hge).
  pose proof (so_unread _ _ _ _ _ _ _ _ _ _ _ Hs Hu) as Hack.
  pose proof (list_elem_of_lookup_2 _ _ _ Hi) as Hin.
  destruct (replicate_prefix obs cluster two_nodes h tl σ n p p1 Hli Hn _ _ _ _ _ _ Hin Hprev)
    as (a & L' & HL' & Hor). rewrite HL in HL'. injection HL' as <- <-.
  destruct Hor as [[? _]|(last & Hv' & Hend & Htake)]; [congruence|].
  rewrite Hv in Hv'. injection Hv' as <-.
  assert (ae_end prev es = S (N.to_nat m)) as He by (unfold ae_end; lia).
  exists i, from, L, l, prev, pt, es, lc, c. rewrite He in *. split_and!; try done.
  - destruct Hs. split; auto.
  - rewrite Hlog, Htake. f_equal. unfold ae_end in He. lia.
Qed.

(** What the node acknowledges anew. *)
Lemma ev_new_ack k :
  new_ack p1 out = Some k →
  acked A (current_term p1) n ≤ k ∧ k ≤ length (tlog tl' (current_term p1)) ∧
  take k (ob obs <$> log p1) = take k (tlog tl' (current_term p1)).
Proof.
  unfold new_ack. destruct (is_leader (role p1)) eqn:Hl.
  - assert (role p1 = Leader) as Hr by (by destruct (role p1)). intros [= <-].
    rewrite (ev_tlog_leader Hr), length_fmap. split_and!; [|done|done].
    pose proof (ai_len _ _ _ _ _ Hai (current_term p1) n) as Hlen.
    destruct (tl !! current_term p1) as [[a L]|] eqn:HL.
    + destruct (grows_tlog _ _ (current_term p1) ev_grows) as (k & Hk & _); [eauto|].
      rewrite (ev_tlog_leader Hr) in Hk. apply (f_equal length) in Hk.
      rewrite length_fmap, length_app in Hk. lia.
    + unfold tlog in Hlen. rewrite HL in Hlen. simpl in Hlen. lia.
  - destruct (ack_of out) as [m|] eqn:Ha; [|done]. intros [= <-].
    destruct (ev_accepted m (rp_acked _ _ _ _ Hrep m Ha))
      as (i & from & L & l & prev & pt & es & lc & c & _ & _ & _ & _ & HL & _ & _ & Hlen & Hack & Hr & Htk).
    rewrite ev_tl_follower by congruence. rewrite (tlog_Some _ _ _ _ HL), Htk.
    split_and!; [done|lia|]. by rewrite take_take, Nat.min_id.
Qed.

Lemma ev_acked T v :
  (acked A' T v = acked A T v) ∨
  (fl = true ∧ v = n ∧ T = current_term p1 ∧ new_ack p1 out = Some (acked A' T v)).
Proof.
  subst A'. unfold record_ack, acked. destruct fl; [|by left].
  destruct (new_ack p1 out) as [k|]; [|by left].
  destruct (decide ((T, v) = (current_term p1, n))) as [[= -> ->]|Hne].
  - right. by rewrite lookup_insert_eq.
  - left. by rewrite lookup_insert_ne.
Qed.

Lemma ev_acked_new k :
  fl = true → new_ack p1 out = Some k → acked A' (current_term p1) n = k.
Proof.
  intros Hf Hk. subst A'. unfold record_ack, acked. by rewrite Hf, Hk, lookup_insert_eq.
Qed.

Lemma ev_acked_other T v : v ≠ n → acked A' T v = acked A T v.
Proof. intros Hv. by destruct (ev_acked T v) as [|(_ & ? & _)]. Qed.

Lemma ev_acked_mono T v : acked A T v ≤ acked A' T v.
Proof.
  destruct (ev_acked T v) as [->|(_ & -> & -> & Hk)]; [done|]. by apply ev_new_ack in Hk as [? _].
Qed.

(** Acknowledgements below a term that was reached are final. *)
Lemma ev_acked_final T0 T v : reached σ T v → (T0 < T)%N → acked A' T0 v = acked A T0 v.
Proof.
  intros Hr Hlt. destruct (ev_acked T0 v) as [|(_ & -> & -> & _)]; [done|].
  specialize (Hr _ Hn). pose proof ev_term. simpl in Hr. lia.
Qed.

Lemma ev_logs_ok : logs_ok tl'.
Proof.
  split.
  - intros T. unfold tlog. destruct (tl' !! T) as [[a L]|] eqn:HL; [|apply agrees_nil].
    by eapply (li_past _ _ _ _ _ Hli').
  - intros T. unfold tlog. destruct (tl' !! T) as [[a L]|] eqn:HL; [|done].
    apply record_log_lookup in HL as [(Hr & -> & -> & ->)|HL].
    2: { rewrite <- (tlog_Some _ _ _ _ HL). apply Hlo. }
    destruct (leader_log _ _ _ Hr (es_log _ _ _ _ Hes)) as (news & -> & Hnews).
    rewrite fmap_app. apply Forall_app. split.
    + eapply Forall_impl; [apply (vi_terms _ _ _ _ _ _ Hvi _ _ Hn)|].
      pose proof ev_term. simpl. intros x. lia.
    + apply Forall_fmap. eapply Forall_impl; [exact Hnews|]. simpl. intros x. lia.
Qed.

(** ** Candidates *)
Lemma ev_cand_fresh c : (current_term p < current_term p1)%N → cl !! (current_term p1, n) ≠ Some c.
Proof.
  intros Hlt Hcl. destruct (vi_log _ _ _ _ _ _ Hvi _ _ _ Hcl) as [Hr _].
  specialize (Hr _ Hn). simpl in Hr. lia.
Qed.

Lemma ev_cand_sub T c l : cl !! (T, c) = Some l → cl' !! (T, c) = Some l.
Proof.
  intros Hcl. subst cl'. unfold record_cand. destruct (_ && _) eqn:E; [|done]. breflect.
  rewrite lookup_insert_ne; [done|]. intros [= <- <-]. by eapply ev_cand_fresh.
Qed.

Lemma ev_campaign :
  fl = true → role p1 = Candidate → (current_term p < current_term p1)%N →
  cl' !! (current_term p1, n) = Some (ob obs <$> log p1).
Proof.
  intros Hf Hr Hlt. subst cl'. unfold record_cand. rewrite Hf, Hr. simpl.
  rewrite (proj2 (N.ltb_lt _ _) Hlt). by rewrite lookup_insert_eq.
Qed.

Lemma ev_cand_inv T c l :
  cl' !! (T, c) = Some l →
  (c = n ∧ T = current_term p1 ∧ l = ob obs <$> log p1 ∧ fl = true ∧ role p1 = Candidate ∧
   (current_term p < current_term p1)%N) ∨ cl !! (T, c) = Some l.
Proof.
  subst cl'. unfold record_cand. destruct (_ && _) eqn:E; [|by right]. breflect.
  intros [[[= <- <-] <-]|[_ ?]]%lookup_insert_Some; [left|by right].
  split_and!; try done. by destruct (role p1).
Qed.

Lemma candidate_log_same : role p1 = Candidate → log p1 = log p.
Proof.
  intros Hr. destruct (es_log _ _ _ _ Hes) as [?|? Hr'|? ? ? ? ? ? ? Hr']; [done|congruence..].
Qed.

(** ** Votes *)
Lemma ev_vouched c T v : reached σ T v → vouched tl A c T v → vouched tl' A' c T v.
Proof.
  intros Hr. apply vouched_grows; [exact Hlo|exact ev_grows|intros T0; apply (ai_len _ _ _ _ _ Hai)|].
  intros T0 Hlt. by eapply ev_acked_final.
Qed.

Lemma ev_backs v T c :
  backs_if_open cluster tl A cl σ v T c → backs_if_open cluster tl' A' cl' σ' v T c.
Proof.
  intros [[[a L] HL]|(c0 & Hc0 & Hv & Hin & Hr)].
  - left. destruct (ev_grows _ _ _ HL) as (k & ? & _). eauto.
  - right. exists c0. split_and!; [by apply ev_cand_sub|by apply ev_vouched|done|by apply ev_reached].
Qed.

(** The log the node had when the event came backs what it votes for in it. *)
Lemma ev_own_vote c T :
  tl !! T = None ∨ (current_term p < T)%N → T = current_term p1 →
  up_to_date (ob obs <$> log p) c → vouched tl' A' c T n.
Proof.
  intros Hopen -> Hup. exists (ob obs <$> log p). split_and!; [|done|].
  - eapply agrees_mono; [apply grows_extends, ev_grows|]. apply (li_log _ _ _ _ _ Hli n (Up p) Hn).
  - intros T0 k Hlt Hk.
    assert (acked A' T0 n = acked A T0 n) as E.
    { destruct (ev_acked T0 n) as [|(_ & _ & -> & _)]; [done|lia]. }
    rewrite E in Hk. pose proof (ai_len _ _ _ _ _ Hai T0 n) as Hlen.
    destruct (ai_log _ _ _ _ _ Hai n (Up p) Hn T0 k Hk) as [Hd|Ht].
    + left. apply (dropped_grows tl); [exact Hlo|exact ev_grows|lia|].
      destruct Hd as (T' & H1 & H2 & H3 & H4). exists T'. simpl in H2. split_and!; try done.
      pose proof ev_term. destruct Hopen as [Hopen|Hopen]; [|lia].
      assert (T' ≠ current_term p1) by (intros ->; rewrite Hopen in H3; by destruct H3). lia.
    + right. rewrite (grows_take tl tl') by (exact ev_grows || lia). exact Ht.
Qed.

Lemma ev_new_packet s d msg :
  mkPacket s d msg ∈ new →
  fl = true ∧ s = n ∧ d ≠ n ∧ ∃ o, o ∈ out ∧ msg = message o ∧
    (target o = Peer d ∨ target o = Broadcast) ∧ out_ok p1 o ∧ reply_ok ev p p1 out o.
Proof.
  intros Hin. destruct (ec_new _ _ _ _ _ _ _ _ _ _ _ Hch) as [->|[Hf ->]];
    [by apply not_elem_of_nil in Hin|].
  apply packets_of_inv in Hin as (Hs & _ & Hd & o & Ho & Hb & Ht). simpl in *.
  split_and!; [done..|]. exists o. pose proof (es_out _ _ _ _ Hes) as Hok.
  pose proof (rp_out _ _ _ _ Hrep) as Hr. rewrite Forall_forall in Hok, Hr. split_and!; auto.
Qed.


Lemma terms_weaken (l : list (N * U)) (t t' : N) :
  (t ≤ t')%N → Forall (λ x, (x.1 ≤ t)%N) l → Forall (λ x, (x.1 ≤ t')%N) l.
Proof. intros Hle Hl. eapply Forall_impl; [exact Hl|]. simpl. intros x. lia. Qed.

Lemma ev_terms_p1 : Forall (λ x, (x.1 ≤ current_term p1)%N) (ob obs <$> log p1).
Proof.
  pose proof (vi_terms _ _ _ _ _ _ Hvi _ _ Hn) as Hold.
  apply (terms_weaken _ _ _ ev_term) in Hold. unfold olog in Hold. simpl in Hold.
  destruct (es_log _ _ _ _ Hes) as [Hl _|news Hr _ _ _ _ _|from l prev pt es lc Hev _ Hprev Hl _].
  - by rewrite Hl.
  - rewrite <- (ev_tlog_leader Hr). apply ev_logs_ok.
  - pose proof Hen as Hin. rewrite Hev in Hin. simpl in Hin.
    destruct (replicate_prefix obs cluster two_nodes h tl σ n p p1 Hli Hn _ _ _ _ _ _ Hin Hprev)
      as (a & L & HL & [[_ E]|(last & _ & _ & E)]); rewrite Hl, E; [done|].
    apply Forall_take. rewrite <- (tlog_Some _ _ _ _ HL). apply Hlo.
Qed.

Lemma ev_terms m st :
  nodes σ' !! m = Some st → Forall (λ x, (x.1 ≤ st_term st)%N) (olog obs st).
Proof.
  rewrite Hns. intros [[<- <-]|[_ Hm]]%lookup_insert_Some; [|by eapply (vi_terms _ _ _ _ _ _ Hvi)].
  destruct (k_log _ _ _ _ (ec_kept _ _ _ _ _ _ _ _ _ _ _ Hch)) as [[j ->]|[-> ->]].
  - apply Forall_take. eapply terms_weaken; [apply ev_st_term|].
    apply (vi_terms _ _ _ _ _ _ Hvi _ _ Hn).
  - apply ev_terms_p1.
Qed.

(** A leader that has just won its term. *)
Lemma ev_elected_new :
  role p1 = Leader → tl !! current_term p1 = None →
  elected cluster tl' A' cl' (reached σ') (current_term p1) n (ob obs <$> log p1).
Proof.
  intros Hr HL. destruct Hnode as (Hid & Htot & _).
  destruct (es_role _ _ _ _ Hes) as [|? Hr'|Hr'|Hr0 _ Ht|from Hr0 _ Ht Hev Hq|Hq]; try congruence.
  - rewrite Ht, (li_leader _ _ _ _ _ Hli _ _ Hn Hr0) in HL. done.
  - destruct (leader_log _ _ _ Hr (es_log _ _ _ _ Hes)) as (news & Hlog & Hnews).
    pose proof (vi_candidate _ _ _ _ _ _ Hvi _ _ Hn Hr0) as Hc.
    destruct (vi_log _ _ _ _ _ _ Hvi _ _ _ Hc) as (_ & Hlt & _).
    rewrite Ht in *. exists (olog obs (Up p)), (ob obs <$> news), ({[from]} ∪ votes_received p).
    assert (∀ v, v ∈ {[from]} ∪ votes_received p → backs cluster tl A cl σ v (current_term p) n) as Hb.
    { intros v Hv. assert (backs_if_open cluster tl A cl σ v (current_term p) n) as [[x Hx]|?];
        [|congruence|done].
      apply elem_of_union in Hv as [->%elem_of_singleton|Hv].
      - pose proof Hen as Hin. rewrite Hev in Hin. by eapply (vi_vote _ _ _ _ _ _ Hvi).
      - by eapply (vi_counted _ _ _ _ _ _ Hvi). }
    split_and!; [by apply ev_cand_sub|by rewrite Hlog, fmap_app|by apply Forall_fmap|done| | |].
    + intros v Hv. by destruct (Hb v Hv) as (_ & _ & _ & ? & _).
    + unfold quorum in Hq. by rewrite Htot in Hq.
    + intros v Hv. destruct (Hb v Hv) as (c0 & Hc0 & Hvv & _ & Hrv).
      rewrite Hc in Hc0. injection Hc0 as <-. split; [by apply ev_vouched|by apply ev_reached].
  - unfold quorum in Hq. rewrite Htot in Hq. by destruct (quorum_two cluster two_nodes).
Qed.

Lemma ev_elected T a L :
  tl' !! T = Some (a, L) → elected cluster tl' A' cl' (reached σ') T a L.
Proof.
  intros HL. destruct (tl !! T) as [[a0 L0]|] eqn:HL0.
  - destruct (ev_grows _ _ _ HL0) as (k & HL' & Hk). rewrite HL in HL'. injection HL' as -> ->.
    destruct (vi_elected _ _ _ _ _ _ Hvi _ _ _ HL0)
      as (c & new0 & Q & Hc & -> & Hnew & Hlt & HQ & Hq & Hv).
    exists c, (new0 ++ k), Q.
    split_and!; [by apply ev_cand_sub|by rewrite app_assoc|by apply Forall_app|done..|].
    intros v Hin. destruct (Hv v Hin) as [??]. split; [by apply ev_vouched|by apply ev_reached].
  - apply record_log_lookup in HL as [(Hr & -> & -> & ->)|HL]; [by apply ev_elected_new|congruence].
Qed.

Lemma ev_cand_log T c l :
  cl' !! (T, c) = Some l → reached σ' T c ∧ Forall (λ x, (x.1 < T)%N) l ∧ agrees tl' l.
Proof.
  intros [(-> & -> & -> & Hf & Hr & Hlt)|Hcl]%ev_cand_inv.
  - rewrite (candidate_log_same Hr). split_and!; [by apply ev_reached_self| |].
    + eapply Forall_impl; [apply (vi_terms _ _ _ _ _ _ Hvi _ _ Hn)|]. simpl. intros x. lia.
    + eapply agrees_mono; [apply grows_extends, ev_grows|].
      apply (li_log _ _ _ _ _ Hli n (Up p) Hn).
  - destruct (vi_log _ _ _ _ _ _ Hvi _ _ _ Hcl) as (? & ? & ?).
    split_and!; [by apply ev_reached|done|]. by eapply agrees_mono; [apply grows_extends, ev_grows|].
Qed.

Lemma ev_up q :
  st1 = Up q → fl = true ∧ current_term q = current_term p1 ∧ log q = log p1 ∧ role q = role p1 ∧
    votes_received q = votes_received p1 ∧ match_index q = match_index p1 ∧
    pending_decisions q = [].
Proof. intros Hq. destruct (ec_up _ _ _ _ _ _ _ _ _ _ _ Hch q Hq) as (? & (?&?&?&?&?&?) & ? & ?). done. Qed.

Lemma ev_candidate m q :
  nodes σ' !! m = Some (Up q) → role q = Candidate →
  cl' !! (current_term q, m) = Some (olog obs (Up q)).
Proof.
  rewrite Hns. intros [[<- Hq]|[_ Hm]]%lookup_insert_Some Hr.
  2: { by apply ev_cand_sub, (vi_candidate _ _ _ _ _ _ Hvi). }
  destruct (ev_up q Hq) as (Hf & Et & El & Er & _). rewrite Er in Hr. unfold olog; simpl.
  rewrite Et, El. destruct (es_role _ _ _ _ Hes) as [|Hr0 _ Ht _|_ Hlt _ _| | |]; try congruence.
  - rewrite (candidate_log_same Hr), Ht.
    by apply ev_cand_sub, (vi_candidate _ _ _ _ _ _ Hvi _ _ Hn).
  - by apply ev_campaign.
Qed.

Lemma last_term_ob (l : list (LogEntry V)) :
  last_term (ob obs <$> l) = match last l with Some en => term en | None => 0%N end.
Proof. unfold last_term. rewrite fmap_last. by destruct (last l). Qed.

Lemma vlast_index_ob (l : list (LogEntry V)) : vlast_index (ob obs <$> l) = vlast_index l.
Proof. destruct l; [done|]. simpl. unfold vlen. by rewrite <- fmap_cons, length_fmap. Qed.

Lemma ev_request s d T c li lt :
  mkPacket s d (RequestVote T c li lt) ∈ packets σ' →
  c = s ∧ ∃ c0, cl' !! (T, s) = Some c0 ∧ li = vlast_index c0 ∧ lt = last_term c0.
Proof.
  rewrite Hps. intros [Hin|Hin]%elem_of_app.
  - destruct (vi_request _ _ _ _ _ _ Hvi _ _ _ _ _ _ Hin) as (-> & c0 & Hc & ?). split; [done|].
    exists c0. split; [by apply ev_cand_sub|done].
  - apply ev_new_packet in Hin as (Hf & -> & _ & o & _ & Hm & _ & Hok & Hre).
    unfold out_ok in Hok. unfold reply_ok in Hre. rewrite <- Hm in Hok, Hre.
    destruct Hok as (-> & -> & Hr & -> & ->). destruct (es_static _ _ _ _ Hes) as [Hid _].
    destruct Hnode as [Hid' _]. split; [congruence|]. eexists. split; [by apply ev_campaign|].
    rewrite vlast_index_ob, last_term_ob. done.
Qed.

(** The check of [handle_request_vote] is the order on logs. *)
Lemma check_up_to_date lt li c :
  candidate_log_at_least_as_up_to_date p lt li = true →
  li = vlast_index c → lt = last_term c → up_to_date (ob obs <$> log p) c.
Proof.
  unfold candidate_log_at_least_as_up_to_date, up_to_date. rewrite last_term_ob, length_fmap.
  unfold last_log_term, last_log_index. intros Hc -> ->. destruct (negb _) eqn:E; breflect; [by left|].
  right. split; [done|].
  destruct (vlast_index (log p)) as [j|] eqn:Hj; [|apply vlast_index_None in Hj; rewrite Hj; simpl; lia].
  destruct (vlast_index c) as [i|] eqn:Hi; [|done]. apply vlast_index_Some in Hi, Hj. breflect.
  unfold vlen in *. lia.
Qed.

Lemma ev_vote s d T :
  mkPacket s d (RequestVoteResponse T true) ∈ packets σ' → backs_if_open cluster tl' A' cl' σ' s T d.
Proof.
  rewrite Hps. intros [Hin|Hin]%elem_of_app; [by apply ev_backs, (vi_vote _ _ _ _ _ _ Hvi)|].
  apply ev_new_packet in Hin as (Hf & -> & _ & o & _ & Hm & Htg & _ & Hre).
  unfold reply_ok in Hre. rewrite <- Hm in Hre.
  destruct Hre as (from & c & li & lt & Hev & Htg' & -> & Hlog & Hup).
  assert (d = c) as -> by (rewrite Htg' in Htg; naive_solver).
  pose proof Hen as Hin. rewrite Hev in Hin. simpl in Hin.
  destruct (vi_request _ _ _ _ _ _ Hvi _ _ _ _ _ _ Hin) as (-> & c0 & Hc0 & Hli0 & Hlt0).
  destruct (tl !! current_term p1) as [[a L]|] eqn:HL.
  { left. destruct (ev_grows _ _ _ HL) as (k & ? & _). eauto. }
  right. exists c0. split_and!; [by apply ev_cand_sub| |apply ev_in|by apply ev_reached_self].
  apply ev_own_vote; [by left|done|]. by eapply check_up_to_date.
Qed.

Lemma ev_counted m q v :
  nodes σ' !! m = Some (Up q) → role q = Candidate → v ∈ votes_received q →
  backs_if_open cluster tl' A' cl' σ' v (current_term q) m.
Proof.
  rewrite Hns. intros [[<- Hq]|[_ Hm]]%lookup_insert_Some Hr Hv.
  2: { by eapply ev_backs, (vi_counted _ _ _ _ _ _ Hvi). }
  destruct (ev_up q Hq) as (Hf & Et & El & Er & Ev & _). rewrite Er in Hr. rewrite Ev in Hv.
  rewrite Et. destruct (es_role _ _ _ _ Hes) as [|Hr0 _ Ht Hvr|_ Hlt Hvf Hvr| | |]; try congruence.
  - apply ev_backs. rewrite Ht. destruct Hvr as [E|(from & Hev & E)]; rewrite E in Hv.
    { by eapply (vi_counted _ _ _ _ _ _ Hvi). }
    apply elem_of_union in Hv as [->%elem_of_singleton|Hv]; [|by eapply (vi_counted _ _ _ _ _ _ Hvi)].
    pose proof Hen as Hin. rewrite Hev in Hin. by eapply (vi_vote _ _ _ _ _ _ Hvi).
  - rewrite Hvr in Hv. apply elem_of_singleton in Hv as ->. destruct (es_static _ _ _ _ Hes) as [Hid _].
    destruct Hnode as [Hid' _]. rewrite Hid, Hid'. right. exists (ob obs <$> log p1).
    split_and!; [by apply ev_campaign| |apply ev_in|by apply ev_reached_self].
    apply ev_own_vote; [by right|done|]. rewrite (candidate_log_same Hr). right. done.
Qed.

Lemma ev_votes_inv : votes_inv obs cluster tl' A' cl' σ'.
Proof.
  split; [apply ev_terms|apply ev_elected|apply ev_cand_log|apply ev_candidate|apply ev_request
    |apply ev_vote|apply ev_counted].
Qed.

(** ** Acknowledgements *)
Lemma ev_ack_len T v : acked A' T v ≤ length (tlog tl' T).
Proof.
  destruct (ev_acked T v) as [->|(_ & -> & -> & Hk)]; [|by apply ev_new_ack in Hk as (_ & ? & _)].
  pose proof (ai_len _ _ _ _ _ Hai T v) as Hle. destruct (tl !! T) as [x|] eqn:HL.
  - destruct (grows_tlog _ _ T ev_grows) as (k & -> & _); [eauto|]. rewrite length_app. lia.
  - unfold tlog in Hle. rewrite HL in Hle. simpl in Hle. lia.
Qed.

Lemma ev_ack_reached T v : 0 < acked A' T v → reached σ' T v ∧ v ∈ cluster.
Proof.
  destruct (ev_acked T v) as [->|(Hf & -> & -> & _)].
  - intros [? ?]%(ai_reached _ _ _ _ _ Hai). split; [by apply ev_reached|done].
  - intros _. split; [by apply ev_reached_self|apply ev_in].
Qed.

(** A prefix of the log of term [T] that the leader of a later term has lies
    within the log that leader was elected with. *)
Lemma prefix_before_election T T2 a L c k :
  (T < T2)%N → tl !! T2 = Some (a, L) → cl !! (T2, a) = Some c →
  k ≤ length (tlog tl T) → take k L = take k (tlog tl T) → k ≤ length c.
Proof.
  intros Hlt HL Hc Hk Ht. destruct (vi_elected _ _ _ _ _ _ Hvi _ _ _ HL)
    as (c' & new' & _ & Hc' & -> & Hnew & _). rewrite Hc in Hc'. injection Hc' as <-.
  destruct (decide (k ≤ length c)) as [|Hgt]; [done|]. exfalso. apply Nat.nle_gt in Hgt.
  destruct (lookup_lt_is_Some_2 (tlog tl T) (length c)) as [x Hx]; [lia|].
  assert ((c ++ new') !! length c = Some x) as Hy.
  { rewrite <- Hx. eapply take_eq_lookup; [exact Ht|done]. }
  rewrite lookup_app_r, Nat.sub_diag in Hy by lia.
  rewrite Forall_lookup in Hnew. specialize (Hnew _ _ Hy).
  pose proof (lo_bounded _ Hlo T) as Hb. rewrite Forall_lookup in Hb. specialize (Hb _ _ Hx). lia.
Qed.

(** An accepted AppendEntries erases nothing the node acknowledged, unless
    its leader lacks it: the point at which order matters. *)
Lemma replicate_keeps from l prev pt es lc T k :
  ev = EvReceive from (AppendEntries (current_term p1) l prev pt es lc) →
  role p1 = Follower → prev_ok p prev pt = true → log p1 = ae_log prev es (log p) →
  (T ≤ current_term p)%N → k ≤ acked A T n →
  take k (ob obs <$> log p) = take k (tlog tl T) →
  dropped tl T k (current_term p1 + 1) ∨ take k (ob obs <$> log p1) = take k (tlog tl T).
Proof.
  intros Hev Hr Hprev Hlog HT Hk Htake.
  destruct (verified_index prev (vlen es)) as [m|] eqn:Hv.
  2: { right. rewrite Hlog. unfold ae_log. rewrite Hv.
       destruct prev; [done|]. simpl in Hv. destruct (vlen es =? 0)%N eqn:E; [|done]. breflect.
       by destruct es. }
  assert (accepted ev p p1 m) as Hacc by (by exists from, l, prev, pt, es, lc).
  destruct (ev_accepted m Hacc) as (i & from' & L & l' & prev' & pt' & es' & lc' & c & _ & _ & _ & _ & HL & Hcl
    & _ & [Hc HmL] & Hack & _ & Hlog').
  rewrite Hlog', take_take. pose proof (ai_len _ _ _ _ _ Hai T n) as Hlen.
  destruct (decide (T = current_term p1)) as [->|Hne].
  - right. rewrite (tlog_Some _ _ _ _ HL). f_equal. lia.
  - pose proof ev_term. pose proof (lo_agrees _ Hlo (current_term p1)) as HaL.
    destruct (prefix_or_not tl Hlo _ T k HaL) as [Hp|Hp]; [lia| |].
    + right. rewrite (tlog_Some _ _ _ _ HL) in Hp.
      assert (k ≤ length c) by (eapply prefix_before_election; [|exact HL|exact Hcl| |exact Hp]; lia).
      rewrite <- Hp. f_equal. lia.
    + left. exists (current_term p1). split_and!; [lia|lia|eauto|done].
Qed.

(** The flush truncates no further than where the logs differ. *)
Lemma truncate_keeps i k :
  pending_truncate_from p1 = Some i → k ≤ length (log p1) →
  take k (ob obs <$> log p) = take k (ob obs <$> log p1) → k ≤ N.to_nat i.
Proof.
  intros Hi Hk Ht. pose proof (log_step_sync _ _ _ (es_log _ _ _ _ Hes)) as Hs. rewrite Hi in Hs.
  unfold log_sync in Hs. destruct (pending_persist_log_from p1) as [a|].
  - destruct Hs as (_ & _ & _ & _ & x & y & Hx & Hy & Hne).
    destruct (decide (k ≤ N.to_nat i)) as [|Hgt]; [done|]. exfalso. apply Nat.nle_gt in Hgt.
    apply (take_eq_lookup _ _ _ _ Ht) in Hgt. unfold vget in Hx, Hy.
    rewrite !list_lookup_fmap, Hx, Hy in Hgt. by injection Hgt as ? _.
  - rewrite Hs in Hk. unfold vtruncate in Hk. rewrite length_take in Hk. lia.
Qed.

(** What was acknowledged before is still there after the event. *)
Lemma ev_keeps T k :
  k ≤ acked A T n → dropped tl T k (st_term st1 + 1) ∨ take k (olog obs st1) = take k (tlog tl T).
Proof.
  intros Hk. destruct (decide (k = 0)) as [->|Hk0]; [by right|].
  destruct (ai_log _ _ _ _ _ Hai n (Up p) Hn T k Hk) as [Hd|Htake].
  { left. eapply dropped_mono; [|exact Hd]. pose proof ev_st_term. simpl. lia. }
  unfold olog in Htake at 1; simpl in Htake. pose proof (ai_len _ _ _ _ _ Hai T n) as Hlen.
  assert (T ≤ current_term p)%N as HT.
  { destruct (ai_reached _ _ _ _ _ Hai T n) as [Hr _]; [lia|]. by apply (Hr (Up p)). }
  assert (k ≤ length (log p)) as Hkp.
  { apply (f_equal length) in Htake. rewrite !length_take, length_fmap in Htake. lia. }
  assert (dropped tl T k (current_term p1 + 1) ∨
    take k (ob obs <$> log p1) = take k (tlog tl T)) as Hp1.
  { destruct (es_log _ _ _ _ Hes) as [Hl _|news _ Hl _ _ _ _|from l prev pt es lc Hev Hr Hprev Hl _].
    - right. by rewrite Hl.
    - right. rewrite Hl, fmap_app, take_app_le; [done|]. by rewrite length_fmap.
    - by eapply replicate_keeps. }
  destruct (Bool.bool_dec fl true) as [Hf|Hf%Bool.not_true_is_false].
  - destruct (ec_flushed _ _ _ _ _ _ _ _ _ _ _ Hch Hf) as (-> & _ & ->). done.
  - destruct (ec_torn _ _ _ _ _ _ _ _ _ _ _ Hch Hf) as [->|[-> [->|(i & Hi & ->)]]]; [by right|done|].
    destruct Hp1 as [?|Hp1]; [by left|right]. rewrite take_take, Nat.min_l; [done|].
    apply (truncate_keeps i k Hi); [|by rewrite Htake, Hp1].
    apply (f_equal length) in Hp1. rewrite !length_take, length_fmap in Hp1. lia.
Qed.

Lemma ev_ack_log m st :
  nodes σ' !! m = Some st → holds_acked tl' A' m (st_term st) (olog obs st).
Proof.
  intros Hm T k Hk. rewrite Hns in Hm. pose proof (ai_len _ _ _ _ _ Hai T m) as Hlen.
  destruct (ev_acked T m) as [E|(Hf & -> & -> & Hnew)].
  - rewrite E in Hk. assert (dropped tl T k (st_term st + 1) ∨
      take k (olog obs st) = take k (tlog tl T)) as [Hd|Ht].
    { apply lookup_insert_Some in Hm as [[<- <-]|[_ Hm]]; [by apply ev_keeps|].
      exact (ai_log _ _ _ _ _ Hai m st Hm T k Hk). }
    + left. apply (dropped_grows tl); [exact Hlo|exact ev_grows|lia|done].
    + right. rewrite (grows_take tl tl') by (exact ev_grows || lia). done.
  - right. rewrite lookup_insert_eq in Hm. injection Hm as <-.
    destruct (ec_flushed _ _ _ _ _ _ _ _ _ _ _ Hch Hf) as (_ & _ & ->).
    apply ev_new_ack in Hnew as (_ & _ & Ht). eapply take_eq_mono; [exact Hk|done].
Qed.

Lemma ev_acked_leader : fl = true → role p1 = Leader → acked A' (current_term p1) n = length (log p1).
Proof. intros Hf Hr. apply ev_acked_new; [done|]. unfold new_ack. by rewrite Hr. Qed.

Lemma ev_ack_leader m q :
  nodes σ' !! m = Some (Up q) → role q = Leader → acked A' (current_term q) m = length (log q).
Proof.
  rewrite Hns. intros [[<- Hq]|[Hne Hm]]%lookup_insert_Some Hr.
  - destruct (ev_up q Hq) as (Hf & -> & -> & Er & _). apply ev_acked_leader; congruence.
  - rewrite ev_acked_other by done. by apply (ai_leader _ _ _ _ _ Hai).
Qed.

Lemma ev_acked_reply m :
  fl = true → ack_of out = Some m → acked A' (current_term p1) n = S (N.to_nat m).
Proof.
  intros Hf Hm. apply ev_acked_new; [done|]. unfold new_ack.
  destruct (rp_acked _ _ _ _ Hrep m Hm) as (? & ? & ? & ? & ? & ? & _ & Hr & _).
  by rewrite Hr, Hm.
Qed.

Lemma ev_reply s d T m ct ci :
  mkPacket s d (AppendEntriesResponse T true (Some m) ct ci) ∈ packets σ' →
  N.to_nat m < acked A' T s.
Proof.
  rewrite Hps. intros [Hin|Hin]%elem_of_app.
  - pose proof (ai_reply _ _ _ _ _ Hai _ _ _ _ _ _ Hin). pose proof (ev_acked_mono T s). lia.
  - apply ev_new_packet in Hin as (Hf & -> & _ & o & _ & Hm & _ & _ & Hre).
    unfold reply_ok in Hre. rewrite <- Hm in Hre. destruct Hre as [Ha ->].
    rewrite (ev_acked_reply m Hf Ha). lia.
Qed.

Lemma ev_match_p1 v m :
  fl = true → role p1 = Leader → match_index p1 !! v = Some (Some m) →
  N.to_nat m < acked A' (current_term p1) v.
Proof.
  intros Hf Hr Hv. destruct (rp_match _ _ _ _ Hrep v m Hr Hv) as [-> Hlt|Hr0 Ht Hm|ct ci Hev].
  - destruct (es_static _ _ _ _ Hes) as [-> _]. destruct Hnode as [-> _].
    rewrite (ev_acked_leader Hf Hr). unfold vlen in Hlt. lia.
  - pose proof (ai_match _ _ _ _ _ Hai _ _ _ _ Hn Hr0 Hm) as Hlt. rewrite <- Ht in Hlt.
    pose proof (ev_acked_mono (current_term p1) v). lia.
  - pose proof Hen as Hin. rewrite Hev in Hin. simpl in Hin.
    pose proof (ai_reply _ _ _ _ _ Hai _ _ _ _ _ _ Hin).
    pose proof (ev_acked_mono (current_term p1) v). lia.
Qed.

Lemma ev_match m q v i :
  nodes σ' !! m = Some (Up q) → role q = Leader → match_index q !! v = Some (Some i) →
  N.to_nat i < acked A' (current_term q) v.
Proof.
  rewrite Hns. intros [[<- Hq]|[Hne Hm]]%lookup_insert_Some Hr Hv.
  - destruct (ev_up q Hq) as (Hf & -> & _ & Er & _ & Em & _). rewrite Em in Hv.
    apply ev_match_p1; congruence.
  - pose proof (ai_match _ _ _ _ _ Hai _ _ _ _ Hm Hr Hv).
    pose proof (ev_acked_mono (current_term q) v). lia.
Qed.

Lemma ev_acks_inv : acks_inv obs cluster tl' A' σ'.
Proof.
  split; [apply ev_ack_len|apply ev_ack_reached|apply ev_ack_log|apply ev_ack_leader|apply ev_reply
    |apply ev_match].
Qed.

(** ** Commitment *)
Let Hci := hi_commit _ _ _ _ _ _ _ _ Hinv.

Lemma ev_claim T c : claim cluster tl A T c → claim cluster tl' A' T c.
Proof. apply claim_mono; [exact ev_grows|apply ev_acked_mono]. Qed.

Lemma ev_known m t t' c : (t ≤ t')%N → known cluster tl A m t c → known cluster tl' A' m t' c.
Proof. apply known_mono; [exact ev_grows|apply ev_acked_mono]. Qed.

(** The commit rule of the leader. *)
Lemma ev_leader_commits c :
  fl = true → role p1 = Leader → quorum_match p1 c →
  committed cluster tl' A' (current_term p1) (S (N.to_nat c)).
Proof.
  intros Hf Hr (en & Q & Hg & Ht & Hq & HQ).
  assert (∀ v, v ∈ Q → S (N.to_nat c) ≤ acked A' (current_term p1) v) as Hack.
  { intros v Hv. destruct (HQ v Hv) as (m & Hm & Hle).
    pose proof (ev_match_p1 v m Hf Hr Hm). lia. }
  split.
  - exists (N.to_nat c), (ob obs en). rewrite (ev_tlog_leader Hr), list_lookup_fmap.
    unfold vget in Hg. rewrite Hg. done.
  - exists Q. split_and!; [| |done].
    + intros v Hv. specialize (Hack v Hv). apply (ev_ack_reached (current_term p1) v). lia.
    + destruct (es_static _ _ _ _ Hes) as (_ & Htot & _). destruct Hnode as (_ & Htot' & _).
      unfold quorum in Hq. by rewrite Htot, Htot' in Hq.
Qed.

Lemma ev_commit_known c :
  fl = true → commit_index p1 = Some c → known cluster tl' A' n (current_term p1) c.
Proof.
  intros Hf Hc. destruct (rp_commit _ _ _ _ Hrep) as [E|c' Hr E Hq|from l prev pt es lc m Hev Ha E];
    rewrite E in Hc.
  - eapply (ev_known n (current_term p)); [apply ev_term|].
    eapply (ci_known _ _ _ _ _ Hci n (Up p) c Hn). by left.
  - injection Hc as ->. exists (current_term p1).
    pose proof (ev_leader_commits c Hf Hr Hq) as Hcm. split_and!; [|lia|].
    + exists (current_term p1), (S (N.to_nat c)). split_and!; [done|lia|lia].
    + rewrite (ev_acked_leader Hf Hr). apply committed_len in Hcm as [_ Hl].
      rewrite (ev_tlog_leader Hr), length_fmap in Hl. lia.
  - injection Hc as <-. destruct (ev_accepted m (rp_acked _ _ _ _ Hrep m Ha))
      as (i & from' & L & l' & prev' & pt' & es' & lc' & c & _ & _ & Hso & Hev' & _).
    rewrite Hev in Hev'. injection Hev' as <- <- <- <- <- <-.
    pose proof (so_commit _ _ _ _ _ _ _ _ _ _ _ Hso lc eq_refl) as Hcl.
    apply ev_claim in Hcl as (T0 & k & Hcm & Hk & HT). exists (current_term p1).
    split_and!; [|lia|rewrite (ev_acked_reply m Hf Ha); lia].
    exists T0, k. split_and!; [done|lia|done].
Qed.

(** The decisions of an event, old and new. *)
Lemma ev_pending d :
  d ∈ pending_decisions p1 →
  d ∈ pending_decisions p ∨
  ∃ c en, commit_index p1 = Some c ∧ (d_slot d ≤ c)%N ∧
    vget (log p1) (d_slot d) = Some en ∧ d_value d = value en.
Proof.
  destruct (as_decisions _ _ (ec_applied _ _ _ _ _ _ _ _ _ _ _ Hch)) as (ds' & -> & [_ Hds'] & _ & Hle).
  intros [?|Hin]%elem_of_app; [by left|right]. destruct (Hle d Hin) as (c & Hc & Hsl).
  apply list_elem_of_lookup_1 in Hin as [k Hk]. destruct (Hds' _ _ Hk) as (_ & en & ? & ?). eauto 6.
Qed.

Lemma ev_ci_known m st c :
  nodes σ' !! m = Some st → commit_point st c → known cluster tl' A' m (st_term st) c.
Proof.
  rewrite Hns. intros [[<- <-]|[Hne Hm]]%lookup_insert_Some Hpt.
  2: { apply (ev_known m (st_term st)); [lia|]. by apply (ci_known _ _ _ _ _ Hci). }
  assert (∀ c', commit_point (Up p) c' → known cluster tl' A' n (st_term st1) c') as Hold.
  { intros c' Hc'. apply (ev_known n (current_term p)); [apply ev_st_term|].
    by apply (ci_known _ _ _ _ _ Hci n (Up p)). }
  destruct (ec_commit _ _ _ _ _ _ _ _ _ _ _ Hch c Hpt) as [?|[Hf Hor]]; [by apply Hold|].
  destruct (ec_flushed _ _ _ _ _ _ _ _ _ _ _ Hch Hf) as (E & _). rewrite E in *.
  destruct Hor as [Hc|(d & Hd & <-)]; [by apply ev_commit_known|].
  destruct (ev_pending d Hd) as [Hd'|(c & en & Hc & Hle & _)].
  - apply Hold. right. left. by exists d.
  - eapply known_le; [exact Hle|]. by apply ev_commit_known.
Qed.

Lemma ev_chosen d :
  fl = true → d ∈ pending_decisions p1 → chosen cluster tl' A' (d_slot d) (obs (d_value d)).
Proof.
  intros Hf Hd. destruct (ev_pending d Hd) as [Hd'|(c & en & Hc & Hle & Hg & ->)].
  { eapply chosen_grows; [exact ev_grows|apply ev_acked_mono|].
    by eapply (ci_pending _ _ _ _ _ Hci). }
  destruct (ec_flushed _ _ _ _ _ _ _ _ _ _ _ Hch Hf) as (Et & _ & El).
  assert (nodes σ' !! n = Some st1) as Hn' by (by rewrite Hns, lookup_insert_eq).
  apply (known_chosen cluster tl' A' cl' (reached σ') ev_logs_ok ev_elected n (st_term st1)
    (olog obs st1) (λ T, ev_ack_len T n) (ev_ack_log n st1 Hn') _ (ob obs en)).
  - rewrite Et. eapply known_le; [exact Hle|]. by apply ev_commit_known.
  - rewrite El, list_lookup_fmap. unfold vget in Hg. by rewrite Hg.
Qed.

Lemma ev_commit_inv : commit_inv obs cluster tl' A' σ'.
Proof.
  assert (∀ s u, chosen cluster tl A s u → chosen cluster tl' A' s u) as Hgrow.
  { intros s u. apply chosen_grows; [exact ev_grows|apply ev_acked_mono]. }
  split; [apply ev_ci_known| |].
  - intros m q d. rewrite Hns. intros [[<- Hq]|[_ Hm]]%lookup_insert_Some Hd.
    + destruct (ev_up q Hq) as (_ & _ & _ & _ & _ & _ & E). rewrite E in Hd.
      by apply not_elem_of_nil in Hd.
    + by eapply Hgrow, (ci_pending _ _ _ _ _ Hci).
  - intros m d. rewrite Hds. intros [Hd|Hd]%elem_of_app; [by eapply Hgrow, (ci_delivered _ _ _ _ _ Hci)|].
    change (map (pair n) ds) with (pair n <$> ds) in Hd. apply list_elem_of_fmap_1 in Hd as (d' & [= -> <-] & Hin).
    destruct (ec_delivered _ _ _ _ _ _ _ _ _ _ _ Hch d Hin). by apply ev_chosen.
Qed.

(** ** Links *)
Lemma ev_new_ae s d T l prev pt es lc :
  mkPacket s d (AppendEntries T l prev pt es lc) ∈ new →
  fl = true ∧ s = n ∧ d ≠ n ∧ T = current_term p1 ∧ role p1 = Leader ∧
  ae_end prev es = length (log p1) ∧ lc = commit_index p1.
Proof.
  intros (Hf & -> & Hd & o & _ & Hm & _ & Hok & _)%ev_new_packet. unfold out_ok in Hok.
  rewrite <- Hm in Hok. destruct Hok as (-> & _ & Hr & (-> & Hst & _) & ->).
  split_and!; try done. unfold ae_end, vlen in *. rewrite length_drop. lia.
Qed.

Lemma ev_sent_new d prev (es : list (LogEntry V)) lc u :
  fl = true → role p1 = Leader → d ≠ n → ae_end prev es = length (log p1) → lc = commit_index p1 →
  sent_ok cluster tl' A' cl' n d (current_term p1) prev es lc u.
Proof.
  intros Hf Hr Hd He Hlc. pose proof (record_log_leader obs tl n p1 Hr) as HL. fold tl' in HL.
  split; [| |done| |].
  - eexists. split; [exact HL|]. by rewrite He, length_fmap.
  - destruct (ev_elected _ _ _ HL) as (c & new0 & _ & Hc & E & _). exists c. split; [done|].
    apply (f_equal length) in E. rewrite length_fmap, length_app in E. lia.
  - intros _. rewrite He, <- (length_fmap (ob obs)), <- (ev_tlog_leader Hr). apply ev_ack_len.
  - rewrite Hlc. intros c Hc. destruct (ev_commit_known c Hf Hc) as (T1 & (T0 & k & ? & ? & ?) & ? & _).
    exists T0, k. split_and!; [done|done|lia].
Qed.

Lemma ev_sent_old i s d T l prev pt es lc :
  packets σ !! i = Some (mkPacket s d (AppendEntries T l prev pt es lc)) →
  sent_ok cluster tl' A' cl' s d T prev es lc (unread links' s d ≤ i).
Proof.
  intros Hi. destruct (ki_sent _ _ _ _ _ _ Hki _ _ _ _ _ _ _ _ _ Hi)
    as [(L & HL & Hle) (c & Hc & Hge) Hsd Hu Hcm].
  destruct (ev_grows _ _ _ HL) as (k & HL' & _). split; [| |done| |].
  - eexists. split; [exact HL'|]. rewrite length_app. lia.
  - exists c. split; [by apply ev_cand_sub|done].
  - intros Hun. destruct (ev_acked T d) as [->|(Hf & -> & -> & Hk)]; [by apply Hu, Hunread|].
    unfold new_ack in Hk. destruct (is_leader (role p1)) eqn:Hl.
    + destruct Hsd. eapply ev_leader_term; [|exact HL]. by destruct (role p1).
    + destruct (ack_of out) as [m|] eqn:Ha; [|done]. simpl in Hk. injection Hk as Hk.
      destruct (ev_accepted m (rp_acked _ _ _ _ Hrep m Ha))
        as (i0 & from & L0 & l0 & prev0 & pt0 & es0 & lc0 & c0 & Hi0 & Hr0 & _ & _ & HL0 & _ & He & _).
      rewrite HL in HL0. injection HL0 as <- <-. rewrite <- Hk, <- He.
      eapply (ki_order _ _ _ _ _ _ Hki i0 i); [lia|exact Hi0|exact Hi].
  - intros c' Hc'. by apply ev_claim, Hcm.
Qed.

Lemma ev_links_inv : links_inv cluster tl' A' cl' σ' links'.
Proof.
  split.
  - intros i s d T l prev pt es lc. rewrite Hps. intros [Hi|[_ Hi]]%lookup_app_Some.
    { by eapply ev_sent_old. }
    apply list_elem_of_lookup_2, ev_new_ae in Hi as (Hf & -> & Hd & -> & Hr & He & Hlc).
    by apply ev_sent_new.
  - intros i j s d T l prev pt es lc l' prev' pt' es' lc' Hij. rewrite Hps.
    intros [Hi|[Hge Hi]]%lookup_app_Some [Hj|[Hge' Hj]]%lookup_app_Some.
    + by eapply (ki_order _ _ _ _ _ _ Hki i j).
    + apply list_elem_of_lookup_2, ev_new_ae in Hj as (Hf & -> & Hd & -> & Hr & -> & _).
      destruct (so_leader _ _ _ _ _ _ _ _ _ _ _ (ev_sent_old _ _ _ _ _ _ _ _ _ Hi)) as (L & HL & Hle).
      subst tl'. rewrite record_log_leader in HL by done. injection HL as <-.
      by rewrite length_fmap in Hle.
    + apply lookup_lt_Some in Hj. lia.
    + apply list_elem_of_lookup_2, ev_new_ae in Hi as (_ & _ & _ & _ & _ & -> & _).
      by apply list_elem_of_lookup_2, ev_new_ae in Hj as (_ & _ & _ & _ & _ & -> & _).
Qed.

Hypothesis Hei' : election_inv cluster h' σ'.
Hypothesis Hok' : net_ok cluster σ'.

Lemma ev_history_inv : history_inv obs cluster h' tl' A' cl' σ' links'.
Proof.
  split; [done|done|done|apply ev_logs_ok|apply ev_votes_inv|apply ev_acks_inv|apply ev_links_inv
    |apply ev_commit_inv].
Qed.
End event.
