(* ===== verification/RaftAgreement.v ===== *)
(** * Raft: agreement over ordered links

    The history invariant holds in every state a cluster reaches over ordered,
    lossy links, whatever crashes and restarts; leader completeness and state
    machine safety follow. [RaftSafety.v] shows that neither holds when a link
    reorders messages. *)

From S2P Require Import Prelude Types Network Storage Raft RaftLocal RaftEvents RaftDurable.
From S2P Require Import RaftNet RaftNetLemmas RaftElection RaftLogs RaftComplete.
From S2P Require Import RaftExec RaftCommit RaftReplies RaftFifo RaftChange RaftHistory RaftHistoryEvent.

(** ** Steps without an event *)
Section quiet.
Context {V St U : Type} `{RaftStorageSpec St V}.
Context (obs : V → U) (cluster : gset NodeId).
Hypothesis two_nodes : 2 ≤ size cluster.
Context (h h' : Votes) (tl : TermLogs U) (A : Acks) (cl : CandLogs U)
  (σ σ' : Net V St) (links : gmap (NodeId * NodeId) nat) (n : NodeId) (st st1 : NodeStatus V St).
Hypothesis Hinv : history_inv obs cluster h tl A cl σ links.
Hypothesis Hn : nodes σ !! n = Some st.
Hypothesis Hns : nodes σ' = <[n := st1]> (nodes σ).
Hypothesis Hps : packets σ' = packets σ.
Hypothesis Hds : delivered σ' = delivered σ.
Hypothesis Hq : quiet_change obs cluster st st1.

Lemma quiet_reached T v : reached σ T v → reached σ' T v.
Proof.
  intros Hr s Hs. rewrite Hns in Hs. apply lookup_insert_Some in Hs as [[<- <-]|[_ Hs]].
  - rewrite (qc_term _ _ _ _ Hq). by apply Hr.
  - by apply Hr.
Qed.

Lemma quiet_backs v T c :
  backs_if_open cluster tl A cl σ v T c → backs_if_open cluster tl A cl σ' v T c.
Proof.
  intros [?|(c0 & ? & ? & ? & ?)]; [by left|right]. exists c0.
  split_and!; [done..|by apply quiet_reached].
Qed.

(** A node that runs after the step, and is not a plain follower, ran before
    it in the same state. *)
Lemma quiet_active m q :
  nodes σ' !! m = Some (Up q) → role q ≠ Follower →
  ∃ p, nodes σ !! m = Some (Up p) ∧ runs_as q p ∧ match_index q = match_index p.
Proof.
  rewrite Hns. intros [[<- Hst]|[_ Hm]]%lookup_insert_Some Hr; [|by exists q].
  destruct (qc_up _ _ _ _ Hq q Hst) as [(p & E & ? & ? & _)|[[?|?] _]]; [|done|lia].
  exists p. by rewrite <- E.
Qed.

Lemma quiet_votes_inv : votes_inv obs cluster tl A cl σ'.
Proof.
  destruct (hi_votes _ _ _ _ _ _ _ _ Hinv) as [H1 H2 H3 H4 H5 H6 H7]. split.
  - intros m s. rewrite Hns. intros [[<- <-]|[_ Hm]]%lookup_insert_Some; [|by eapply H1].
    rewrite (qc_log _ _ _ _ Hq), (qc_term _ _ _ _ Hq). by eapply H1.
  - intros T a L HL. destruct (H2 _ _ _ HL) as (c & new & Q & ? & ? & ? & ? & ? & ? & Hv).
    exists c, new, Q. split_and!; [done..|]. intros v Hin. destruct (Hv v Hin).
    split; [done|by apply quiet_reached].
  - intros T m c Hc. destruct (H3 _ _ _ Hc) as (? & ? & ?). split_and!; [by apply quiet_reached|done..].
  - intros m q Hm Hr. destruct (quiet_active m q Hm) as (p & Hp & (E1 & _ & E3 & E4 & _) & _); [congruence|].
    rewrite E1. unfold olog; simpl. rewrite E3. apply (H4 m p Hp). congruence.
  - intros *. rewrite Hps. apply H5.
  - intros *. rewrite Hps. intros. by apply quiet_backs, H6.
  - intros m q v Hm Hr Hv.
    destruct (quiet_active m q Hm) as (p & Hp & (E1 & _ & _ & E4 & E5 & _) & _); [congruence|].
    rewrite E1. apply quiet_backs. eapply H7; [exact Hp|congruence|congruence].
Qed.

Lemma quiet_acks_inv : acks_inv obs cluster tl A σ'.
Proof.
  destruct (hi_acks _ _ _ _ _ _ _ _ Hinv) as [H1 H2 H3 H4 H5 H6]. split.
  - apply H1.
  - intros T m [? ?]%H2. split; [by apply quiet_reached|done].
  - intros m s. rewrite Hns. intros [[<- <-]|[_ Hm]]%lookup_insert_Some; [|by eapply H3].
    rewrite (qc_log _ _ _ _ Hq), (qc_term _ _ _ _ Hq). by eapply H3.
  - intros m q Hm Hr. destruct (quiet_active m q Hm) as (p & Hp & (E1 & _ & E3 & E4 & _) & _); [congruence|].
    rewrite E1, E3. apply H4; [done|congruence].
  - intros *. rewrite Hps. apply H5.
  - intros m q v i Hm Hr Hv.
    destruct (quiet_active m q Hm) as (p & Hp & (E1 & _ & _ & E4 & _) & E6); [congruence|].
    rewrite E1. eapply H6; [exact Hp|congruence|congruence].
Qed.

Lemma quiet_known m s c :
  nodes σ' !! m = Some s → commit_point s c → known cluster tl A m (st_term s) c.
Proof.
  rewrite Hns. intros [[<- <-]|[_ Hm]]%lookup_insert_Some Hc.
  - destruct (qc_commit _ _ _ _ Hq c Hc) as (c' & Hle & Hc'). eapply known_le; [exact Hle|].
    rewrite (qc_term _ _ _ _ Hq). by apply (ci_known _ _ _ _ _ (hi_commit _ _ _ _ _ _ _ _ Hinv)).
  - by apply (ci_known _ _ _ _ _ (hi_commit _ _ _ _ _ _ _ _ Hinv)).
Qed.

Lemma quiet_commit_inv : commit_inv obs cluster tl A σ'.
Proof.
  destruct (hi_commit _ _ _ _ _ _ _ _ Hinv) as [H1 H2 H3]. split; [apply quiet_known| |].
  - intros m q d Hm Hd. pose proof Hm as Hm'. rewrite Hns in Hm.
    apply lookup_insert_Some in Hm as [[<- Hst]|[_ Hm]]; [|by eapply H2].
    destruct (qc_up _ _ _ _ Hq q Hst) as [(p & E & _ & _ & E')|[_ Hp]].
    { rewrite E in Hn. rewrite E' in Hd. by eapply H2. }
    destruct (Hp d Hd) as (en & Hg & ->).
    apply (known_chosen cluster tl A cl (reached σ) (hi_ok _ _ _ _ _ _ _ _ Hinv)
      (vi_elected _ _ _ _ _ _ (hi_votes _ _ _ _ _ _ _ _ Hinv)) n (current_term q) (olog obs (Up q))
      (λ T, ai_len _ _ _ _ _ (hi_acks _ _ _ _ _ _ _ _ Hinv) T n)
      (ai_log _ _ _ _ _ quiet_acks_inv n (Up q) Hm') _ (ob obs en)).
    + eapply (quiet_known n (Up q)); [exact Hm'|]. right. left. by exists d.
    + unfold olog; simpl. rewrite list_lookup_fmap. unfold vget in Hg. by rewrite Hg.
  - intros *. rewrite Hds. apply H3.
Qed.

Lemma quiet_history_inv :
  net_ok cluster σ' → election_inv cluster h' σ' → logs_inv obs cluster h' tl σ' →
  history_inv obs cluster h' tl A cl σ' links.
Proof.
  intros Hok Hei Hli. split; [done|done|done|apply Hinv|apply quiet_votes_inv|apply quiet_acks_inv| |
    apply quiet_commit_inv].
  destruct (hi_links _ _ _ _ _ _ _ _ Hinv) as [H1 H2]. split; intros *; rewrite Hps; [apply H1|apply H2].
Qed.
End quiet.

(** ** Every reachable state *)
Section reachable.
Context {V St U : Type} `{RaftStorageSpec St V}.
Context (obs : V → U) (cluster : gset NodeId) (cfg : RaftConfig).
Hypothesis two_nodes : 2 ≤ size cluster.
Hypothesis obs_norm : ∀ v, obs (norm v) = obs v.
Implicit Types (σ : Net V St) (links : gmap (NodeId * NodeId) nat).

Definition safe (x : Net V St * gmap (NodeId * NodeId) nat) : Prop :=
  ∃ h tl A cl, history_inv obs cluster h tl A cl x.1 x.2.

Lemma event_safe σ links σ' links' n ev :
  safe (σ, links) → event_step cluster n ev σ σ' → enabled σ n ev →
  (∀ s d j, unread links' s d ≤ j → unread links s d ≤ j) →
  (∀ from msg, ev = EvReceive from msg →
     ∃ i, packets σ !! i = Some (mkPacket from n msg) ∧ unread links from n ≤ i ∧
       unread links' from n = S i) →
  safe (σ', links').
Proof.
  intros (h & tl & A & cl & Hinv) Hs Hen Hun Hrd. simpl in Hinv.
  pose proof (hi_net _ _ _ _ _ _ _ _ Hinv) as Hok.
  destruct (step_change obs obs_norm cluster cfg σ σ' Hok (event_step_step _ _ _ _ _ _ Hen Hs)) as [Hok' _].
  destruct (event_step_change obs obs_norm cluster σ n ev σ' Hok Hs)
    as (p & p1 & out & fl & st1 & new & ds & Hn & Hns & Hps & Hds & Hch).
  pose proof (event_change_change obs cluster σ n ev p p1 out fl st1 new ds Hen Hch) as Hc.
  destruct (election_inv_step obs cluster two_nodes h σ σ' n (Up p) st1 new Hok
    (hi_election _ _ _ _ _ _ _ _ Hinv) Hn Hns Hps Hc) as [Hsub Hei'].
  eexists _, _, _, _. eapply (ev_history_inv obs cluster two_nodes h _ tl A cl σ σ' links links'
    n ev p p1 out fl st1 new ds); try done.
  eapply (event_logs_inv obs cluster two_nodes h); eauto; try apply Hinv; try apply Hch.
  destruct (ec_new _ _ _ _ _ _ _ _ _ _ _ Hch) as [->|[_ ->]]; auto.
Qed.

Lemma quiet_safe σ links σ' n :
  safe (σ, links) → quiet_step cluster cfg n σ σ' → safe (σ', links).
Proof.
  intros (h & tl & A & cl & Hinv) Hs. simpl in Hinv.
  pose proof (hi_net _ _ _ _ _ _ _ _ Hinv) as Hok.
  destruct (step_change obs obs_norm cluster cfg σ σ' Hok (quiet_step_step _ _ _ _ _ Hs)) as [Hok' _].
  destruct (quiet_step_change obs obs_norm cluster cfg σ n σ' Hok Hs)
    as (st & st1 & Hn & Hns & Hps & Hds & Hq).
  assert (packets σ' = packets σ ++ []) as Hps' by (by rewrite app_nil_r).
  destruct (election_inv_step obs cluster two_nodes h σ σ' n st st1 [] Hok
    (hi_election _ _ _ _ _ _ _ _ Hinv) Hn Hns Hps' (quiet_change_change obs cluster σ n st st1 two_nodes Hq))
    as [Hsub Hei'].
  eexists _, tl, A, cl. eapply (quiet_history_inv obs cluster two_nodes h _ tl A cl σ σ' links n st st1); try done.
  eapply (quiet_logs_inv obs cluster h _ tl σ σ' n st st1); try done; try apply Hinv; try apply Hq.
  intros q Hst. destruct (qc_up _ _ _ _ Hq q Hst) as [(p & ? & ? & _)|[[?|?] _]]; eauto with lia.
Qed.

Lemma safe_step x x' : safe x → fifo_step cluster cfg x x' → safe x'.
Proof.
  intros Hx Hstep. revert Hx.
  destruct Hstep as [σ links σ' i from n msg Hi Hu Hs|σ links σ' n ev Hl Hs|σ links σ' n Hs];
    intros Hx.
  - eapply event_safe; [exact Hx|exact Hs|by eapply list_elem_of_lookup_2| |].
    + intros s d j. unfold unread in *. destruct (decide ((from, n) = (s, d))) as [[= <- <-]|Hne].
      * rewrite lookup_insert_eq. simpl. lia.
      * by rewrite lookup_insert_ne.
    + intros f m [= -> ->]. exists i. split_and!; [done|done|]. unfold unread.
      by rewrite lookup_insert_eq.
  - eapply event_safe; [exact Hx|exact Hs|by destruct ev|done|]. intros f m ->. done.
  - by eapply quiet_safe.
Qed.

Lemma initial_safe σ : initial cluster σ → safe (σ, ∅).
Proof.
  intros Hi. pose proof (initial_net_ok cluster _ Hi) as Hok.
  assert (election_inv cluster ∅ σ) as Hei by (by apply initial_election_inv).
  assert (logs_inv obs cluster ∅ ∅ σ) as Hli by (by apply initial_logs_inv).
  exists ∅, ∅, ∅, ∅. simpl. destruct Hi as (Hd & Hn & Hp & Hde).
  assert (∀ m s, nodes σ !! m = Some s → olog obs s = [] ∧ (∀ c, ¬ commit_point s c) ∧ ∀ p, s ≠ Up p) as Hempty.
  { intros m s (s' & -> & Hv)%Hn. unfold olog, commit_point, durable_point. simpl. rewrite Hv. simpl.
    split_and!; [done| |done]. intros c [?|[? ?]]; done. }
  split; [done..| | | | |].
  - split; [intros T; apply agrees_nil|done].
  - split; try by (intros *; rewrite ?lookup_empty, ?Hp, ?elem_of_nil).
    all: intros m s; intros; match goal with H : nodes _ !! _ = _ |- _ =>
      apply Hempty in H as (E & _ & Hup) end; rewrite ?E; try done; by destruct (Hup s).
  - split; try by (intros *; rewrite ?lookup_empty, ?Hp, ?elem_of_nil; simpl; try lia).
    + intros T m. unfold acked. rewrite lookup_empty. simpl. lia.
    + intros m s Hm T k. unfold acked. rewrite lookup_empty. simpl. intros Hk.
      right. by replace k with 0 by lia.
    + intros m p Hm. by destruct (proj2 (proj2 (Hempty _ _ Hm)) p).
    + intros m p v i Hm. by destruct (proj2 (proj2 (Hempty _ _ Hm)) p).
  - split; intros *; rewrite Hp; [done|]. by rewrite lookup_nil.
  - split.
    + intros m s c Hm Hc. by destruct (proj1 (proj2 (Hempty _ _ Hm)) c).
    + intros m p d Hm. by destruct (proj2 (proj2 (Hempty _ _ Hm)) p).
    + intros m d. by rewrite Hde, elem_of_nil.
Qed.

Lemma fifo_reachable_safe x : fifo_reachable cluster cfg x → safe x.
Proof.
  intros (σ0 & Hi & Hr). apply initial_safe in Hi.
  induction Hr as [|? ? ? Hs ? IH]; [done|]. apply IH. by eapply safe_step.
Qed.
End reachable.

(** ** A cluster of one node

    The only node never truncates its log, so what it delivered stays where
    it was. *)
Section alone.
Context {V St U : Type} `{RaftStorageSpec St V}.
Context (obs : V → U) (cluster : gset NodeId) (cfg : RaftConfig).
Hypothesis one_node : ¬ 2 ≤ size cluster.
Hypothesis obs_norm : ∀ v, obs (norm v) = obs v.
Implicit Types (σ : Net V St) (st : NodeStatus V St).

(** The observed log has the decision at its slot. *)
Definition logged (l : list (N * U)) (d : Decision V) : Prop :=
  ∃ x, l !! N.to_nat (d_slot d) = Some x ∧ x.2 = obs (d_value d).

Record alone_inv (σ : Net V St) : Prop := {
  al_net : net_ok cluster σ;
  al_packets : packets σ = [];
  al_pending n p d : nodes σ !! n = Some (Up p) → d ∈ pending_decisions p →
    logged (olog obs (Up p)) d;
  al_delivered n d : (n, d) ∈ delivered σ → ∃ st, nodes σ !! n = Some st ∧ logged (olog obs st) d;
}.

Lemma no_packets n out : n ∈ cluster → packets_of (M:=RaftMessage V) cluster n out = [].
Proof.
  intros Hn. destruct (packets_of cluster n out) as [|pkt l] eqn:E; [done|].
  assert (pkt ∈ packets_of cluster n out) as Hin by (rewrite E; left).
  apply packets_of_inv in Hin as (_ & Hd & Hne & _). destruct Hne.
  by apply (small_cluster_eq cluster).
Qed.

Lemma logged_app l k d : logged l d → logged (l ++ k) d.
Proof.
  intros (x & Hx & ?). exists x. split; [|done]. rewrite lookup_app_l; [done|].
  by eapply lookup_lt_Some.
Qed.

Lemma logged_entry (l : list (LogEntry V)) d en :
  vget l (d_slot d) = Some en → d_value d = value en → logged (ob obs <$> l) d.
Proof.
  intros Hg Hv. exists (ob obs en). unfold vget in Hg. rewrite list_lookup_fmap, Hg, Hv. done.
Qed.

(** Without messages an event only adds to the log. *)
Lemma alone_log n ev p p1 out fl st1 new ds :
  (∀ from msg, ev ≠ EvReceive from msg) →
  event_change obs cluster n ev p p1 out fl st1 new ds →
  (∃ k, ob obs <$> log p1 = (ob obs <$> log p) ++ k) ∧ ∃ k, olog obs st1 = (ob obs <$> log p) ++ k.
Proof.
  intros Hev Hch.
  assert ((∃ k, ob obs <$> log p1 = (ob obs <$> log p) ++ k) ∧ pending_truncate_from p1 = None) as [Hk Ht].
  { destruct (es_log _ _ _ _ (ec_spec _ _ _ _ _ _ _ _ _ _ _ Hch))
      as [Hl [Ht _]|news _ Hl _ _ Ht _|from l prev pt es lc He]; [| |by destruct (Hev _ _ He)].
    - split; [|done]. exists []. by rewrite Hl, app_nil_r.
    - split; [|done]. exists (ob obs <$> news). by rewrite Hl, fmap_app. }
  split; [done|]. destruct fl.
  - destruct (ec_flushed _ _ _ _ _ _ _ _ _ _ _ Hch eq_refl) as (_ & _ & ->). done.
  - destruct (ec_torn _ _ _ _ _ _ _ _ _ _ _ Hch eq_refl) as [->|[_ [->|(i & Hi & _)]]];
      [exists []; by rewrite app_nil_r|done|congruence].
Qed.

Lemma alone_event σ σ' n ev :
  alone_inv σ → event_step cluster n ev σ σ' → (∀ from msg, ev ≠ EvReceive from msg) →
  net_ok cluster σ' → alone_inv σ'.
Proof.
  intros [Hok Hp Hpd Hdl] Hs Hev Hok'.
  destruct (event_step_change obs obs_norm cluster σ n ev σ' Hok Hs)
    as (p & p1 & out & fl & st1 & new & ds & Hn & Hns & Hps & Hds & Hch).
  destruct (alone_log _ _ _ _ _ _ _ _ _ Hev Hch) as [[k Hk] [k' Hk']].
  assert (∀ d, d ∈ pending_decisions p1 → logged (ob obs <$> log p1) d) as Hp1.
  { intros d. destruct (as_decisions _ _ (ec_applied _ _ _ _ _ _ _ _ _ _ _ Hch))
      as (ds' & -> & [_ Hds'] & _).
    intros [Hd|Hd]%elem_of_app; [rewrite Hk; by eapply logged_app, (Hpd n)|].
    apply list_elem_of_lookup_1 in Hd as [j Hj]. destruct (Hds' _ _ Hj) as (_ & en & ? & ?).
    by eapply logged_entry. }
  split; [done| | |].
  - rewrite Hps, Hp. destruct (ec_new _ _ _ _ _ _ _ _ _ _ _ Hch) as [->|[_ ->]]; [done|].
    simpl. apply no_packets. by eapply (net_ok_in cluster σ).
  - intros m q d Hm Hd. rewrite Hns in Hm. apply lookup_insert_Some in Hm as [[<- Hq]|[_ Hm]]; [|eauto].
    destruct (ec_up _ _ _ _ _ _ _ _ _ _ _ Hch q Hq) as (_ & _ & _ & E). rewrite E in Hd.
    by apply not_elem_of_nil in Hd.
  - intros m d. rewrite Hds, Hns. intros [(st & Hm & Hl)%Hdl|Hd]%elem_of_app.
    + destruct (decide (m = n)) as [->|Hne]; [|exists st; by rewrite lookup_insert_ne].
      exists st1. rewrite lookup_insert_eq, Hk'. split; [done|]. apply logged_app.
      rewrite Hn in Hm. by injection Hm as <-.
    + change (map (pair n) ds) with (pair n <$> ds) in Hd.
      apply list_elem_of_fmap_1 in Hd as (d' & [= -> <-] & Hin).
      exists st1. rewrite lookup_insert_eq. split; [done|].
      destruct (ec_delivered _ _ _ _ _ _ _ _ _ _ _ Hch d Hin) as [Hin' Hf].
      destruct (ec_flushed _ _ _ _ _ _ _ _ _ _ _ Hch Hf) as (_ & _ & ->). auto.
Qed.

Lemma alone_quiet σ σ' n :
  alone_inv σ → quiet_step cluster cfg n σ σ' → net_ok cluster σ' → alone_inv σ'.
Proof.
  intros [Hok Hp Hpd Hdl] Hs Hok'. destruct (quiet_step_change obs obs_norm cluster cfg σ n σ' Hok Hs)
    as (st & st1 & Hn & Hns & Hps & Hds & Hq). split; [done|congruence| |].
  - intros m q d Hm Hd. rewrite Hns in Hm. apply lookup_insert_Some in Hm as [[<- Hst]|[_ Hm]]; [|eauto].
    destruct (qc_up _ _ _ _ Hq q Hst) as [(p & E & _ & _ & E')|[_ Hpq]].
    + rewrite <- Hst, (qc_log _ _ _ _ Hq), E. eapply Hpd; [by rewrite <- E|congruence].
    + destruct (Hpq d Hd) as (en & ? & ?). by eapply logged_entry.
  - intros m d. rewrite Hds, Hns. intros (s & Hm & Hl)%Hdl.
    destruct (decide (m = n)) as [->|Hne]; [|exists s; by rewrite lookup_insert_ne].
    exists st1. rewrite lookup_insert_eq, (qc_log _ _ _ _ Hq). split; [done|].
    rewrite Hn in Hm. by injection Hm as <-.
Qed.

Lemma alone_reachable x : fifo_reachable cluster cfg x → alone_inv x.1.
Proof.
  intros (σ0 & Hi & Hr).
  assert (alone_inv (σ0, ∅ : gmap (NodeId * NodeId) nat).1) as H0'.
  { destruct Hi as (Hd & Hn & Hp & Hde). split; simpl.
    - by apply initial_net_ok.
    - done.
    - intros n p d Hnp. by destruct (Hn _ _ Hnp) as (s & ? & _).
    - intros n d. by rewrite Hde, elem_of_nil. }
  clear Hi. induction Hr as [|x x1 y Hs _ IH]; [done|]. apply IH. clear IH.
  pose proof (fifo_step_step _ _ _ _ Hs) as Hst.
  destruct (step_change obs obs_norm cluster cfg _ _ (al_net _ H0') Hst) as [Hok' _].
  destruct Hs as [σ links σ' i from n msg Hin _ Hs|σ links σ' n ev Hl Hs|σ links σ' n Hs]; simpl in *.
  - by rewrite (al_packets _ H0') in Hin.
  - eapply alone_event; eauto. by intros ? ? ->.
  - by eapply alone_quiet.
Qed.
End alone.

(** ** The theorems *)
Section theorems.
Context {V St U : Type} `{RaftStorageSpec St V}.
Context (cluster : gset NodeId) (cfg : RaftConfig) (obs : V → U).
Hypothesis obs_norm : ∀ v, obs (norm v) = obs v.
Implicit Types (st : NodeStatus V St) (x : Net V St * gmap (NodeId * NodeId) nat).

(** What a status takes to be committed is a prefix that history has committed
    by its term. *)
Lemma committed_prefix x n st c :
  nodes x.1 !! n = Some st → commit_point st c →
  ∀ tl A cl h, history_inv obs cluster h tl A cl x.1 x.2 →
  ∃ T0 k, committed cluster tl A T0 k ∧ N.to_nat c < k ∧ (T0 ≤ st_term st)%N ∧
    take (S (N.to_nat c)) (olog obs st) = take (S (N.to_nat c)) (tlog tl T0).
Proof.
  intros Hn Hc tl A cl h Hinv.
  eapply (known_prefix cluster tl A cl (reached x.1) (hi_ok _ _ _ _ _ _ _ _ Hinv)
    (vi_elected _ _ _ _ _ _ (hi_votes _ _ _ _ _ _ _ _ Hinv)) n (st_term st) (olog obs st)
    (λ T, ai_len _ _ _ _ _ (hi_acks _ _ _ _ _ _ _ _ Hinv) T n)
    (ai_log _ _ _ _ _ (hi_acks _ _ _ _ _ _ _ _ Hinv) n st Hn)).
  by apply (ci_known _ _ _ _ _ (hi_commit _ _ _ _ _ _ _ _ Hinv)).
Qed.

(** What nodes have delivered for a slot agrees. *)
Lemma delivered_agree x a b d d' :
  fifo_reachable cluster cfg x →
  (a, d) ∈ delivered x.1 → (b, d') ∈ delivered x.1 → d_slot d = d_slot d' →
  obs (d_value d) = obs (d_value d').
Proof.
  intros Hr Ha Hb Hs. destruct (decide (2 ≤ size cluster)) as [Htwo|Hone].
  - destruct (fifo_reachable_safe obs cluster cfg Htwo obs_norm x Hr) as (h & tl & A & cl & Hinv).
    pose proof (hi_commit _ _ _ _ _ _ _ _ Hinv) as Hci.
    apply (ci_delivered _ _ _ _ _ Hci) in Ha, Hb. rewrite <- Hs in Hb.
    eapply chosen_unique; [apply Hinv|apply (hi_votes _ _ _ _ _ _ _ _ Hinv)|exact Ha|exact Hb].
  - pose proof (alone_reachable obs cluster cfg Hone obs_norm x Hr) as Hal.
    destruct (al_delivered _ _ _ Hal a d Ha) as (sa & Hsa & xa & Hxa & <-).
    destruct (al_delivered _ _ _ Hal b d' Hb) as (sb & Hsb & xb & Hxb & <-).
    pose proof (al_net _ _ _ Hal) as Hok.
    assert (a = b) as -> by (eapply small_cluster_eq; eauto using net_ok_in). congruence.
Qed.

(** C2. State machine safety: over links that keep order but may lose
    messages, in a cluster of any size, wherever nodes crashed (between two
    storage calls included) and restarted, two decisions that nodes have ever
    delivered for the same slot carry the same value, in every observation of
    the values that storage preserves. *)
Theorem state_machine_safety x a b d d' :
  fifo_reachable cluster cfg x →
  (a, d) ∈ delivered x.1 → (b, d') ∈ delivered x.1 → d_slot d = d_slot d' →
  obs (d_value d) = obs (d_value d').
Proof. apply delivered_agree. Qed.

(** C6. Leader completeness: over ordered links, whatever a node of a cluster
    of at least two takes to be committed (its commit index, a decision it has
    not handed out or one of its storage, be it running or stopped) is in the
    log of every running leader of its term or a later one: the logs are equal
    up to that index, and the leader's log reaches it. *)
Theorem leader_completeness x a b st p c :
  2 ≤ size cluster → fifo_reachable cluster cfg x →
  nodes x.1 !! a = Some st → commit_point st c →
  nodes x.1 !! b = Some (Up p) → role p = Leader → (st_term st ≤ current_term p)%N →
  (c < vlen (log p))%N ∧
  take (S (N.to_nat c)) (olog obs st) = take (S (N.to_nat c)) (olog obs (Up p)).
Proof.
  intros Htwo Hr Ha Hc Hb Hl Hle.
  destruct (fifo_reachable_safe obs cluster cfg Htwo obs_norm x Hr) as (h & tl & A & cl & Hinv).
  destruct (committed_prefix x a st c Ha Hc tl A cl h Hinv) as (T0 & k & Hcm & Hk & HT & ->).
  pose proof (li_leader _ _ _ _ _ (hi_logs _ _ _ _ _ _ _ _ Hinv) b p Hb Hl) as HL.
  assert (take k (tlog tl (current_term p)) = take k (tlog tl T0)) as Ht.
  { destruct (decide (T0 = current_term p)) as [->|Hne]; [done|].
    apply (complete cluster tl A cl (reached x.1) (hi_ok _ _ _ _ _ _ _ _ Hinv)
      (vi_elected _ _ _ _ _ _ (hi_votes _ _ _ _ _ _ _ _ Hinv)) T0 k _ Hcm); [lia|eauto]. }
  rewrite (tlog_Some _ _ _ _ HL) in Ht. apply committed_len in Hcm as [_ Hlen]. split.
  - apply (f_equal length) in Ht. unfold olog in Ht. simpl in Ht.
    rewrite !length_take, length_fmap in Ht. unfold vlen. lia.
  - symmetry. eapply take_eq_mono; [|exact Ht]. lia.
Qed.

(** Committed prefixes agree: over ordered links the logs of any two
    nodes, running or stopped, are equal up to every index that both take to
    be committed. *)
Theorem committed_logs_agree x a b sa sb c c' :
  2 ≤ size cluster → fifo_reachable cluster cfg x →
  nodes x.1 !! a = Some sa → commit_point sa c →
  nodes x.1 !! b = Some sb → commit_point sb c' → (c ≤ c')%N →
  take (S (N.to_nat c)) (olog obs sa) = take (S (N.to_nat c)) (olog obs sb).
Proof.
  intros Htwo Hr Ha Hc Hb Hc' Hle.
  destruct (fifo_reachable_safe obs cluster cfg Htwo obs_norm x Hr) as (h & tl & A & cl & Hinv).
  destruct (committed_prefix x a sa c Ha Hc tl A cl h Hinv) as (T0 & k & Hcm & Hk & HT & ->).
  destruct (committed_prefix x b sb c' Hb Hc' tl A cl h Hinv) as (T1 & k1 & Hcm1 & Hk1 & HT1 & Ht).
  apply (take_eq_mono _ _ (S (N.to_nat c))) in Ht; [|lia]. rewrite Ht. apply list_eq. intros i.
  destruct (decide (i < S (N.to_nat c))) as [Hi|Hi].
  - rewrite !lookup_take_lt by done.
    apply (committed_agree cluster tl A cl (reached x.1) (hi_ok _ _ _ _ _ _ _ _ Hinv)
      (vi_elected _ _ _ _ _ _ (hi_votes _ _ _ _ _ _ _ _ Hinv)) T0 k T1 k1); [done|done|lia|lia].
  - by rewrite !lookup_take_ge by lia.
Qed.
End theorems.
