(* ===== verification/RaftFifoRuns.v ===== *)
(** * Raft: runs over ordered links

    An executable scheduler for the network of [RaftFifo.v], and a run of
    three nodes in which a leader commits, stops, and a second leader that
    holds its entries goes on. *)

From S2P Require Import Prelude Types Network Storage Raft RaftLocal RaftEvents RaftDurable.
From S2P Require Import RaftNet RaftNetLemmas RaftExec RaftFifo RaftChange RaftAgreement.

Section exec.
Context {V St : Type} `{RaftStorage St V}.
Context (cluster : gset NodeId) (cfg : RaftConfig) (e : Env).
Abbreviation FifoNet := (Net V St * gmap (NodeId * NodeId) nat)%type.

(** An action of [RaftExec.v]; a delivery only of a packet not passed yet. *)
Definition fifo_exec1 (a : Action V) (x : FifoNet) : option FifoNet :=
  match a with
  | ADeliver k =>
      pkt ← packets x.1 !! k;
      if bool_decide (unread x.2 (src pkt) (dst pkt) ≤ k) then
        σ' ← exec1 cluster cfg e a x.1; Some (σ', <[(src pkt, dst pkt) := S k]> x.2)
      else None
  | _ => σ' ← exec1 cluster cfg e a x.1; Some (σ', x.2)
  end.

Fixpoint fifo_exec (acts : list (Action V)) (x : FifoNet) : option FifoNet :=
  match acts with
  | [] => Some x
  | a :: acts => x' ← fifo_exec1 a x; fifo_exec acts x'
  end.

Lemma exec_event_step n ev σ σ' :
  exec_event cluster e n ev σ = Some σ' → event_step cluster n ev σ σ'.
Proof.
  unfold exec_event. destruct (nodes σ !! n) as [[p|]|] eqn:Hn; [|done..].
  destruct (run_event e ev p) as [[p1 out]|] eqn:Hr; [|done]. simpl.
  destruct (flush_persist p1) as [[p2 [[]|]]|] eqn:Hf; [|done..].
  destruct (drain_decisions p2) as [p3 [ds|]] eqn:Hd; [|done].
  intros [= <-]. by eapply ev_done.
Qed.

Lemma fifo_exec1_sound a x x' : fifo_exec1 a x = Some x' → fifo_step cluster cfg x x'.
Proof.
  destruct x as [σ links]. intros Hx. destruct a as [n v|n now|k|n|n]; simpl in Hx.
  - destruct (exec_event _ _ _ _ _) as [σ'|] eqn:E; simplify_eq/=.
    by eapply fifo_local; [|exact (exec_event_step _ _ _ _ E)].
  - destruct (exec_event _ _ _ _ _) as [σ'|] eqn:E; simplify_eq/=.
    by eapply fifo_local; [|exact (exec_event_step _ _ _ _ E)].
  - destruct (packets σ !! k) as [[s d b]|] eqn:Hk; [|done]. simpl in Hx.
    case_bool_decide; [|done]. rewrite ?Hk in Hx. simpl in Hx.
    destruct (exec_event _ _ _ _ _) as [σ'|] eqn:E; simplify_eq/=.
    by eapply fifo_receive; [| |exact (exec_event_step _ _ _ _ E)].
  - destruct (nodes σ !! n) as [[p|]|] eqn:Hn; simplify_eq/=. by eapply fifo_quiet, qs_crash.
  - destruct (nodes σ !! n) as [[|s]|] eqn:Hn; simplify_eq/=.
    destruct (new _ _ _ _ _) as [p0|] eqn:Hp0; [|done]. simpl in Hx.
    destruct (recover e p0) as [[p1 [[]|]]|] eqn:Hp1; simplify_eq/=.
    by eapply fifo_quiet, qs_restart.
Qed.

Lemma fifo_exec_sound acts x x' :
  fifo_exec acts x = Some x' → rtc (fifo_step cluster cfg) x x'.
Proof.
  revert x. induction acts as [|a acts IH]; simpl; intros x Hx; [by simplify_eq|].
  destruct (fifo_exec1 a x) as [x1|] eqn:E; [|done]. simpl in Hx.
  eapply rtc_l; [by eapply fifo_exec1_sound|by apply IH].
Qed.
End exec.

Module FifoRun.
Import Three.

Definition late : Instant := from_secs 60.

(** [n1] commits 10 in term 1 with [n2] and stops; [n2] is elected in term 2
    by [n3] and commits 20 after bringing [n3] up to date. *)
Definition handover : list (Action N) :=
  [ARestart n1; ARestart n2; ARestart n3; ATick n1 late; ADeliver 1; ADeliver 2;
   APropose n1 10%N; ADeliver 6; ADeliver 7; AStop n1; ATick n2 late; ADeliver 8; ADeliver 10;
   APropose n2 20%N; ADeliver 11; ADeliver 15; ADeliver 16; ADeliver 17].

Definition final : Net N (RaftMemoryStorage N) * gmap (NodeId * NodeId) nat :=
  default (start, ∅) (fifo_exec cluster cfg e handover (start, ∅)).

Lemma final_reachable : fifo_reachable cluster cfg final.
Proof.
  exists start. split; [apply start_initial|]. apply (fifo_exec_sound cluster cfg e handover).
  assert (is_some (fifo_exec cluster cfg e handover (start, ∅)) = true) as Hs
    by (vm_compute; reflexivity).
  unfold final. by destruct (fifo_exec cluster cfg e handover (start, ∅)).
Qed.

Lemma id_norm (v : N) : id (norm (St := RaftMemoryStorage N) v) = id v.
Proof. done. Qed.

Lemma three_nodes : 2 ≤ size cluster.
Proof. vm_compute. lia. Qed.

(** [n1] is stopped with index 0 committed, [n2] leads term 2 with index 1
    committed. *)
Lemma final_state :
  ∃ s p, nodes final.1 !! n1 = Some (Down s) ∧ m_commit_index s = Some 0%N ∧ m_term s = 1%N ∧
    nodes final.1 !! n2 = Some (Up p) ∧ role p = Leader ∧ current_term p = 2%N ∧
    commit_index p = Some 1%N ∧ log p = [mkEntry 1 10%N; mkEntry 2 20%N].
Proof.
  assert (match nodes final.1 !! n1, nodes final.1 !! n2 with
    | Some (Down s), Some (Up p) =>
        bool_decide (m_commit_index s = Some 0%N) && (m_term s =? 1)%N &&
        (bool_decide (role p = Leader) && (current_term p =? 2)%N &&
         bool_decide (commit_index p = Some 1%N) &&
         bool_decide (log p = [mkEntry 1 10%N; mkEntry 2 20%N]))
    | _, _ => false end = true) as Hb by (vm_compute; reflexivity).
  destruct (nodes final.1 !! n1) as [[|s]|]; [done| |done].
  destruct (nodes final.1 !! n2) as [[p|]|]; [|done..].
  breflect. exists s, p. done.
Qed.

Lemma state_machine_safety_witness :
  ∃ d d', (n1, d) ∈ delivered final.1 ∧ (n2, d') ∈ delivered final.1 ∧
    d_slot d = 0%N ∧ d_slot d' = 0%N ∧ id (d_value d) = id (d_value d').
Proof.
  assert ((n1, mkDecision 0 10%N) ∈ delivered final.1) as H1
    by (apply (list_elem_of_lookup_2 _ 0); by vm_compute).
  assert ((n2, mkDecision 0 10%N) ∈ delivered final.1) as H2
    by (apply (list_elem_of_lookup_2 _ 1); by vm_compute).
  exists (mkDecision 0 10%N), (mkDecision 0 10%N).
  split; [exact H1|]. split; [exact H2|]. split; [reflexivity|]. split; [reflexivity|].
  exact (state_machine_safety cluster cfg id id_norm final n1 n2 _ _ final_reachable H1 H2 eq_refl).
Defined.

Lemma leader_completeness_witness :
  ∃ s p, nodes final.1 !! n1 = Some (Down s) ∧ nodes final.1 !! n2 = Some (Up p) ∧
    take 1 (olog id (Down s)) = take 1 (olog id (Up p)).
Proof.
  destruct final_state as (s & p & H1 & Hc & Ht & H2 & Hr & Ht' & _).
  exists s, p. split; [exact H1|]. split; [exact H2|].
  apply (leader_completeness cluster cfg id id_norm final n1 n2 (Down s) p 0 three_nodes
    final_reachable H1 (or_introl Hc) H2 Hr).
  simpl. rewrite Ht, Ht'. lia.
Defined.

Lemma committed_logs_agree_witness :
  ∃ s p, nodes final.1 !! n1 = Some (Down s) ∧ nodes final.1 !! n2 = Some (Up p) ∧
    take 1 (olog id (Down s)) = take 1 (olog id (Up p)).
Proof.
  destruct final_state as (s & p & H1 & Hc & Ht & H2 & Hr & Ht' & Hc' & _).
  exists s, p. split; [exact H1|]. split; [exact H2|].
  exact (committed_logs_agree cluster cfg id id_norm final n1 n2 (Down s) (Up p) 0 1 three_nodes
    final_reachable H1 (or_introl Hc) H2 (or_introl Hc') ltac:(lia)).
Defined.
End FifoRun.
