(* ===== verification/RaftWellFormed.v ===== *)
(** * Well-formed Raft nodes

    The typing of a node's state, as a predicate that evaluates: what the
    fields of a running node and of the storage of a stopped one may be
    relative to each other. The code relies on it where it indexes the log by
    a commit index, a match index or the slot of a decision, and where it
    compares the terms of last entries. It is a consequence of the history of
    [RaftHistory], so every state an ordered run reaches has it. *)

From S2P Require Import Prelude Types Network Storage Raft RaftLocal RaftEvents RaftDurable.
From S2P Require Import RaftNet RaftNetLemmas RaftElection RaftLogs RaftChange RaftComplete.
From S2P Require Import RaftHistory RaftExec RaftFifo RaftAgreement RaftFifoRuns.

Section well_formed.
Context {V St : Type} `{RaftStorageSpec St V}.
Implicit Types (l : list (LogEntry V)) (p : RaftProtocol V St) (st : NodeStatus V St).

(** The terms of a log never decrease. *)
Fixpoint ascending (lo : N) l : bool :=
  match l with
  | [] => true
  | e :: l => (lo <=? term e)%N && ascending (term e) l
  end.

(** A log of a node in term [T]. *)
Definition log_wf (T : N) l : bool := ascending 0 l && forallb (λ e, term e <=? T)%N l.

Definition in_log l (i : N) : bool := (i <? vlen l)%N.

(** A running node [n]: its identity; the terms of its log; commit index and
    undelivered decisions within the log; a leader's match indexes within its
    log. *)
Definition node_wf (n : NodeId) p : bool :=
  bool_decide (node_id p = n) && log_wf (current_term p) (log p) &&
  is_none_or (commit_index p) (in_log (log p)) &&
  forallb (λ d, in_log (log p) (d_slot d)) (pending_decisions p) &&
  (negb (bool_decide (role p = Leader)) ||
   bool_decide (map_Forall (λ _ m, is_none_or m (in_log (log p)) = true) (match_index p))).

(** What a stopped node has stored. *)
Definition disk_wf (d : RaftMemoryStorage V) : bool :=
  log_wf (m_term d) (m_log d) && is_none_or (m_commit_index d) (in_log (m_log d)) &&
  bool_decide (map_Forall (λ slot _, in_log (m_log d) slot = true) (m_decisions d)).

Definition status_wf (n : NodeId) st : bool :=
  match st with Up p => node_wf n p | Down s => disk_wf (view s) end.

Lemma ascending_spec lo l :
  (∀ i e, l !! i = Some e → (lo ≤ term e)%N) →
  (∀ i j e e', i ≤ j → l !! i = Some e → l !! j = Some e' → (term e ≤ term e')%N) →
  ascending lo l = true.
Proof.
  revert lo. induction l as [|e l IH]; intros lo Hlo Hs; [done|]. simpl. apply andb_true_iff. split.
  - apply N.leb_le. by apply (Hlo 0).
  - apply IH; [intros i e' Hi; by apply (Hs 0 (S i) e e'); [lia|..]|].
    intros i j e1 e2 ? H1 H2. by apply (Hs (S i) (S j)); [lia|..].
Qed.

(** The history knows logs up to the values. *)
Abbreviation shape := (λ _ : V, tt).

Lemma shape_lookup st i e : st_log st !! i = Some e → olog shape st !! i = Some (term e, tt).
Proof. intros Hi. unfold olog. by rewrite list_lookup_fmap, Hi. Qed.

(** An entry of a log was made by the leader of its term, whose log has no
    entry of a later one. *)
Lemma agrees_ascending tl st :
  logs_ok tl → agrees tl (olog shape st) → ascending 0 (st_log st) = true.
Proof.
  intros Hok Ha. apply ascending_spec; [intros; lia|].
  intros i j e e' Hij Hi%shape_lookup Hj%shape_lookup.
  destruct (Ha j _ Hj) as (a & L & HL & Ht). simpl in HL.
  pose proof (lo_bounded _ Hok (term e')) as Hb. rewrite (tlog_Some _ _ _ _ HL) in Hb.
  assert (L !! i = Some (term e, tt)) as Hi'.
  { rewrite <- Hi. rewrite <- (lookup_take_lt L (S j)), <- Ht by lia. by rewrite lookup_take_lt by lia. }
  rewrite Forall_lookup in Hb. by specialize (Hb _ _ Hi').
Qed.

Context (cluster : gset NodeId) (cfg : RaftConfig).
Implicit Types (x : Net V St * gmap (NodeId * NodeId) nat).

Section history.
Context x h tl A cl (Hinv : history_inv shape cluster h tl A cl x.1 x.2).

Lemma history_log_wf n st : nodes x.1 !! n = Some st → log_wf (st_term st) (st_log st) = true.
Proof.
  intros Hn. unfold log_wf. apply andb_true_iff. split.
  - eapply agrees_ascending; [apply Hinv|]. by eapply (li_log _ _ _ _ _ (hi_logs _ _ _ _ _ _ _ _ Hinv)).
  - pose proof (vi_terms _ _ _ _ _ _ (hi_votes _ _ _ _ _ _ _ _ Hinv) n st Hn) as Ht.
    apply forallb_forall. intros e [i He]%list_elem_of_In%list_elem_of_lookup. apply N.leb_le.
    rewrite Forall_lookup in Ht. exact (Ht _ _ (shape_lookup st i e He)).
Qed.

Lemma history_in_log n st c : nodes x.1 !! n = Some st → commit_point st c → in_log (st_log st) c = true.
Proof.
  intros Hn Hc.
  destruct (committed_prefix cluster shape x n st c Hn Hc tl A cl h Hinv)
    as (T0 & k & [_ Hlen]%committed_len & Hk & _ & Ht).
  apply (f_equal length) in Ht. unfold olog in Ht.
  rewrite !length_take, length_fmap in Ht. unfold in_log, vlen. apply N.ltb_lt. lia.
Qed.

Lemma history_match n p v m :
  nodes x.1 !! n = Some (Up p) → role p = Leader → match_index p !! v = Some (Some m) →
  in_log (log p) m = true.
Proof.
  intros Hn Hr Hm. pose proof (hi_acks _ _ _ _ _ _ _ _ Hinv) as Hai.
  pose proof (ai_match _ _ _ _ _ Hai n p v m Hn Hr Hm) as Ha.
  pose proof (ai_len _ _ _ _ _ Hai (current_term p) v) as Hl.
  rewrite (tlog_Some _ _ _ _ (li_leader _ _ _ _ _ (hi_logs _ _ _ _ _ _ _ _ Hinv) n p Hn Hr)) in Hl.
  unfold olog in Hl. rewrite length_fmap in Hl. simpl in Hl. unfold in_log, vlen. apply N.ltb_lt. lia.
Qed.

Lemma history_node_wf n p : nodes x.1 !! n = Some (Up p) → node_wf n p = true.
Proof.
  intros Hn. destruct (hi_net _ _ _ _ _ _ _ _ Hinv) as [_ Hok]. specialize (Hok n _ Hn).
  destruct Hok as [Hid _]. unfold node_wf. rewrite !andb_true_iff. split_and!.
  - by apply bool_decide_eq_true.
  - exact (history_log_wf n (Up p) Hn).
  - destruct (commit_index p) as [c|] eqn:Hc; [|done].
    apply (history_in_log n (Up p) c Hn). by left.
  - apply forallb_forall. intros d Hd%list_elem_of_In.
    apply (history_in_log n (Up p) _ Hn). right; left. by exists d.
  - destruct (bool_decide_reflect (role p = Leader)) as [Hr|]; [|done]. simpl.
    apply bool_decide_eq_true. intros v [m|] Hm; [|done]. by eapply history_match.
Qed.

Lemma history_disk_wf n s : nodes x.1 !! n = Some (Down s) → disk_wf (view s) = true.
Proof.
  intros Hn. unfold disk_wf. rewrite !andb_true_iff. split_and!.
  - exact (history_log_wf n (Down s) Hn).
  - destruct (m_commit_index (view s)) as [c|] eqn:Hc; [|done].
    apply (history_in_log n (Down s) c Hn). by left.
  - apply bool_decide_eq_true. intros slot v Hs. apply (history_in_log n (Down s) _ Hn).
    right. by exists v.
Qed.
End history.

(** C9. Every node is well formed: over ordered links, whatever nodes of a cluster
    of at least two crashed and restarted, a running node bears its own
    identity, the terms in its log never decrease nor exceed its current term,
    and its commit index, the slots of its undelivered decisions and, when it
    leads, its match indexes are indexes of its log; of a stopped node the
    same holds of what it has stored, its saved decisions included. *)
Theorem reachable_well_formed x n st :
  2 ≤ size cluster → fifo_reachable cluster cfg x → nodes x.1 !! n = Some st → status_wf n st = true.
Proof.
  intros Htwo Hr Hn.
  destruct (fifo_reachable_safe shape cluster cfg Htwo (λ _, eq_refl) x Hr) as (h & tl & A & cl & Hinv).
  destruct st as [p|s]; [by eapply history_node_wf|by eapply history_disk_wf].
Qed.
End well_formed.

(** ** A witness *)
Module WellFormedRun.
Import Three FifoRun.

(** The leader of the final state has a match index and a commit index; the
    stopped node has a decision. *)
Lemma reachable_well_formed_witness :
  ∃ s p, nodes final.1 !! n1 = Some (Down s) ∧ nodes final.1 !! n2 = Some (Up p) ∧ role p = Leader ∧
    commit_index p = Some 1%N ∧ disk_wf s = true ∧ node_wf n2 p = true.
Proof.
  destruct final_state as (s & p & H1 & _ & _ & H2 & Hr & _ & Hc & _). exists s, p.
  split; [exact H1|]. split; [exact H2|]. split; [exact Hr|]. split; [exact Hc|]. split.
  - exact (reachable_well_formed cluster cfg final n1 (Down s) three_nodes final_reachable H1).
  - exact (reachable_well_formed cluster cfg final n2 (Up p) three_nodes final_reachable H2).
Defined.
End WellFormedRun.
