(* ===== verification/RaftStorageFree.v ===== *)
(** * Raft: handlers do not look at storage

    The methods that handle events neither read nor write the storage of the
    node, so a node with another storage behaves the same; and a node never
    addresses a message to itself. *)

From S2P Require Import Prelude Types Storage Raft RaftLocal RaftEvents.

Section storage_free.
Context {V St : Type}.
Abbreviation RP := (RaftProtocol V St).
Abbreviation Out := (list (Outgoing (RaftMessage V))).
Implicit Types (p : RP) (s : St) (out : Out).

Definition with_storage (s : St) (p : RP) : RP := {| p with storage := s |}.
Definition with_storage_fst (s : St) (r : RP * Out) : RP * Out := (with_storage s r.1, r.2).

Lemma apply_committed_free s p :
  apply_committed_entries (with_storage s p) = with_storage s <$> apply_committed_entries p.
Proof.
  unfold apply_committed_entries. simpl. destruct (commit_index p); [|done].
  destruct (match last_applied p with Some a => u64_add a 1 | None => Some 0%N end); [|done]. simpl.
  destruct (_ <? _)%N; [done|]. by destruct (collect_decisions _ _ _).
Qed.

Lemma try_advance_free s p :
  try_advance_commit (with_storage s p) = with_storage s <$> try_advance_commit p.
Proof.
  unfold try_advance_commit. simpl. unfold quorum. simpl. case_bool_decide; [done|].
  destruct (merge_sort _ _ !! _) as [[c|]|]; [|done..]. simpl.
  destruct (vget (log p) c); [|done]. destruct (_ && _); [|done].
  exact (apply_committed_free s {| p with commit_index := Some c;
    pending_persist_commit_index := true |}).
Qed.

Lemma broadcast_with_entries_free s e es p :
  broadcast_with_entries e es (with_storage s p) = with_storage_fst s <$> broadcast_with_entries e es p.
Proof.
  unfold broadcast_with_entries. simpl.
  by destruct (match _ with Some i => term <$> vget (log p) i | None => Some 0%N end).
Qed.

Lemma become_leader_free s e p :
  become_leader e (with_storage s p) = with_storage_fst s <$> become_leader e p.
Proof.
  unfold become_leader. simpl. destruct (pending_proposals p) as [|v vs]; [done|].
  match goal with |- _ = fmap _ (mbind _ (try_advance_commit ?q)) =>
    pose proof (try_advance_free s q) as Ht; destruct (try_advance_commit q) as [q1|] end;
  unfold with_storage in Ht; simpl in *; rewrite Ht; [|done].
  apply broadcast_with_entries_free.
Qed.

Lemma propose_free s e v p :
  propose e v (with_storage s p) = with_storage_fst s <$> propose e v p.
Proof.
  unfold propose. simpl. destruct (is_leader (role p)); [|by destruct (leader p)].
  match goal with |- _ = fmap _ (mbind _ (try_advance_commit ?q)) =>
    pose proof (try_advance_free s q) as Ht; destruct (try_advance_commit q) as [q1|] end;
  unfold with_storage in Ht; simpl in *; rewrite Ht; [|done].
  apply broadcast_with_entries_free.
Qed.

Lemma start_election_free s e p :
  start_election e (with_storage s p) = with_storage_fst s <$> start_election e p.
Proof.
  unfold start_election. simpl. destruct (u64_add _ _) as [t|]; [|done]. simpl.
  unfold quorum. simpl. case_bool_decide.
  - match goal with |- _ = _ <$> become_leader e ?q => exact (become_leader_free s e q) end.
  - by destruct (is_candidate _).
Qed.

Lemma on_tick_free s e now p :
  on_tick e now (with_storage s p) = with_storage_fst s <$> on_tick e now p.
Proof.
  unfold on_tick. simpl.
  destruct (role p); [destruct (_ <=? _)%N; [apply start_election_free|done]..|].
  by destruct (match last_heartbeat_sent p with Some _ => _ | None => _ end).
Qed.

Lemma place_entries_free s at_ es p :
  place_entries at_ es (with_storage s p) = with_storage s (place_entries at_ es p).
Proof.
  revert at_ p. induction es as [|en es IH]; intros at_ p; [done|]. simpl.
  destruct (vget (log p) at_) as [old|]; [destruct (negb _)|];
    match goal with |- _ = with_storage s (place_entries _ es ?q) => exact (IH _ q) end.
Qed.

Lemma truncate_suffix_free s last p :
  truncate_suffix last (with_storage s p) = with_storage s (truncate_suffix last p).
Proof. unfold truncate_suffix. simpl. by destruct (_ <? _)%N. Qed.

Lemma advance_follower_free s lc mi p :
  advance_follower_commit lc mi (with_storage s p) = with_storage s <$> advance_follower_commit lc mi p.
Proof.
  unfold advance_follower_commit. destruct lc as [c|], mi as [m|]; try done. simpl.
  destruct (is_none_or _ _); [|done].
  exact (apply_committed_free s {| p with commit_index := Some (N.min c m);
    pending_persist_commit_index := true |}).
Qed.

Lemma handle_append_entries_free s e from t l prev pt es lc p :
  handle_append_entries e from t l prev pt es lc (with_storage s p) =
  with_storage_fst s <$> handle_append_entries e from t l prev pt es lc p.
Proof.
  unfold handle_append_entries. simpl. destruct (_ <? _)%N; [done|]. destruct (_ && _); [done|].
  set (q := {| p with role := Follower; leader := Some l;
    election_deadline := (env_now e + sample_election_timeout (config p) e)%N |}).
  change (prev_ok _ prev pt) with (prev_ok q prev pt) at 1.
  destruct (negb (prev_ok q prev pt)).
  { change (conflict_hint _ prev) with (conflict_hint q prev) at 1.
    by destruct (conflict_hint q prev). }
  destruct (verified_index prev (vlen es)) as [m|]; cbv iota beta zeta.
  - match goal with |- mbind _ (advance_follower_commit _ _ (truncate_suffix _
      (place_entries _ es ?r))) = _ => change r with (with_storage s q) end.
    rewrite place_entries_free, truncate_suffix_free, advance_follower_free.
    by destruct (advance_follower_commit _ _ _).
  - match goal with |- mbind _ (advance_follower_commit _ _ (place_entries _ es ?r)) = _ =>
      change r with (with_storage s q) end.
    rewrite place_entries_free, advance_follower_free. by destruct (advance_follower_commit _ _ _).
Qed.

Lemma handle_append_entries_response_free s from t ok mi ct ci p :
  handle_append_entries_response from t ok mi ct ci (with_storage s p) =
  with_storage_fst s <$> handle_append_entries_response from t ok mi ct ci p.
Proof.
  unfold handle_append_entries_response. simpl. destruct (_ || _); [done|]. destruct ok.
  - destruct mi as [m|]; [|done]. destruct (_ || _); [done|].
    match goal with |- _ = fmap _ (mbind _ (try_advance_commit ?q)) =>
      pose proof (try_advance_free s q) as Ht; destruct (try_advance_commit q) as [q1|] end;
    unfold with_storage in Ht; simpl in *; rewrite Ht; done.
  - change (backtrack_next (with_storage s p) from ct ci) with (backtrack_next p from ct ci).
    destruct (match _ with Some i => term <$> vget (log p) i | None => Some 0%N end); [|done]. simpl.
    by destruct (vslice_from _ _).
Qed.

Lemma handle_message_free s e from msg p :
  handle_message e from msg (with_storage s p) = with_storage_fst s <$> handle_message e from msg p.
Proof.
  unfold handle_message.
  assert (bump_term e msg (with_storage s p) = with_storage s (bump_term e msg p)) as ->.
  { unfold bump_term. destruct (incoming_term msg) as [t|]; [|done]. simpl. by destruct (_ <? _)%N. }
  generalize (bump_term e msg p). clear p. intros p. destruct msg; simpl.
  - unfold handle_request_vote. simpl.
    change (candidate_log_at_least_as_up_to_date (with_storage s p) last_log_term last_log_index)
      with (candidate_log_at_least_as_up_to_date p last_log_term last_log_index).
    by destruct (if (_ <? _)%N then _ else _).
  - unfold handle_request_vote_response. simpl. destruct (_ || _); [done|]. destruct vote_granted; [|done].
    unfold quorum. simpl. case_bool_decide; [|done].
    match goal with |- _ = _ <$> become_leader e ?q => exact (become_leader_free s e q) end.
  - apply handle_append_entries_free.
  - apply handle_append_entries_response_free.
  - unfold handle_forward. simpl. destruct (is_leader _); [apply propose_free|].
    destruct (leader p); [|done]. case_bool_decide; [|done]. by destruct (_ <=? _)%N.
Qed.

(** An event on a node with another storage. *)
Lemma run_event_free s e ev p :
  run_event e ev (with_storage s p) = with_storage_fst s <$> run_event e ev p.
Proof.
  destruct ev as [v|from msg|now];
    [exact (propose_free s e v p)|exact (handle_message_free s e from msg p)
    |exact (on_tick_free s e now p)].
Qed.

(** ** Targets *)

(** A node that is not the leader takes another node for it. *)
Definition leader_ok (p : RP) : Prop := role p ≠ Leader → leader p ≠ Some (node_id p).

(** Messages name their sender, which is another node. *)
Definition names_sender (n from : NodeId) (msg : RaftMessage V) : Prop :=
  from ≠ n ∧
  match msg with
  | RequestVote _ c _ _ => c = from
  | AppendEntries _ l _ _ _ _ => l = from
  | _ => True
  end.

Definition others_only (n : NodeId) (out : Out) : Prop := Forall (λ o, target o ≠ Peer n) out.

Definition targets_ok (p p1 : RP) (out : Out) : Prop :=
  leader_ok p1 ∧ others_only (node_id p) out.

(** A change that leaves the leader alone. *)
Ltac keeps Hl :=
  first [exact Hl | let Hn := fresh in intros Hn; pose proof (Hl Hn); simpl in *; congruence].

Lemma broadcast_with_entries_targets e es n p p1 out :
  broadcast_with_entries e es p = Some (p1, out) → role p1 = role p ∧ others_only n out.
Proof.
  unfold broadcast_with_entries. simpl. intros Hb.
  destruct (match _ with Some i => term <$> vget (log p) i | None => Some 0%N end); [|done].
  injection Hb as <- <-. split; [done|by apply Forall_singleton].
Qed.

Lemma become_leader_targets e n p p1 out :
  become_leader e p = Some (p1, out) → leader_ok p1 ∧ others_only n out.
Proof.
  unfold become_leader. intros Hb. destruct (pending_proposals p) as [|v vs]; simpl in Hb.
  - injection Hb as <- <-. split; [by intros []|by apply Forall_singleton].
  - destruct (try_advance_commit _) as [q|] eqn:Ht in Hb; [|done]. simpl in Hb.
    apply try_advance_shape in Ht as (ds & la & ci & b & -> & _).
    apply (broadcast_with_entries_targets _ _ n) in Hb as [Hr Ho]. simpl in Hr.
    split; [|done]. intros Hn. by rewrite Hr in Hn.
Qed.

Lemma propose_targets e v p p1 out :
  leader_ok p → propose e v p = Some (p1, out) → targets_ok p p1 out.
Proof.
  intros Hl Hp. unfold propose in Hp. destruct (is_leader (role p)) eqn:Hr.
  - assert (role p = Leader) as Hr' by (by destruct (role p)).
    destruct (try_advance_commit _) as [q|] eqn:Ht in Hp; [|done]. simpl in Hp.
    apply try_advance_shape in Ht as (ds & la & ci & b & -> & _).
    apply (broadcast_with_entries_targets _ _ (node_id p)) in Hp as [Hr1 Ho]. simpl in Hr1.
    split; [|done]. intros Hn. by rewrite Hr1, Hr' in Hn.
  - destruct (leader p) as [l|] eqn:E; injection Hp as <- <-; (split; [keeps Hl|]); [|constructor].
    apply Forall_singleton. simpl. intros [= ->]. apply Hl; [by intros E'; rewrite E' in Hr|done].
Qed.

Lemma on_tick_targets e now p p1 out :
  leader_ok p → on_tick e now p = Some (p1, out) → targets_ok p p1 out.
Proof.
  intros Hl Ht. assert (∀ r, start_election e p = Some r → targets_ok p r.1 r.2) as Hse.
  { intros [q o] Hs. unfold start_election in Hs. destruct (u64_add _ _) as [t|]; [|done]. simpl in Hs.
    case_bool_decide; [by apply (become_leader_targets _ (node_id p)) in Hs|].
    destruct (is_candidate _); simpl in Hs; injection Hs as <- <-;
      (split; [done|by apply Forall_singleton]). }
  unfold on_tick in Ht. destruct (role p) eqn:Hr.
  1, 2: destruct (_ <=? _)%N; [by apply (Hse (p1, out))|injection Ht as <- <-; split; [exact Hl|constructor]].
  destruct (match last_heartbeat_sent p with Some _ => _ | None => _ end);
    injection Ht as <- <-; (split; [exact Hl|]); [by apply Forall_singleton|constructor].
Qed.

Lemma handle_append_entries_targets e from t l prev pt es lc p p1 out :
  leader_ok p → l ≠ node_id p → handle_append_entries e from t l prev pt es lc p = Some (p1, out) →
  targets_ok p p1 out.
Proof.
  intros Hl Hne Hh. unfold handle_append_entries in Hh.
  assert (∀ m, target (mkOut (Peer l) m : Outgoing (RaftMessage V)) ≠ Peer (node_id p)) as Htg
    by (intros m [= ->]; done).
  destruct (_ <? _)%N; [injection Hh as <- <-; split; [exact Hl|by apply Forall_singleton]|].
  destruct (_ && _); [injection Hh as <- <-; split; [exact Hl|by apply Forall_singleton]|].
  assert (leader_ok {| p with role := Follower; leader := Some l |}) as Hlq by (intros _ [= ->]; done).
  simpl in Hh. destruct (negb _).
  { destruct (conflict_hint _ _); [|done]. injection Hh as <- <-. split; [exact Hlq|by apply Forall_singleton]. }
  match type of Hh with context [place_entries ?a ?b ?c] =>
    destruct (place_entries_shape a b c) as (tr & fr & Hs); rewrite Hs in Hh end. simpl in Hh.
  assert (others_only (node_id p) (mkOut (Peer l) (AppendEntriesResponse (current_term p) true
    (verified_index prev (vlen es)) None None) ::
    map (λ v, mkOut (Peer l) (Forward v 0)) (pending_proposals p))) as Ho.
  { constructor; [done|]. by apply Forall_map, Forall_true. }
  destruct (verified_index prev (vlen es)) as [m|].
  - match type of Hh with context [truncate_suffix ?a ?b] =>
      destruct (truncate_suffix_shape a b) as (tr2 & Hs2); rewrite Hs2 in Hh end. simpl in Hh.
    destruct (advance_follower_commit _ _ _) as [q|] eqn:Ha; [|done].
    apply advance_follower_commit_shape in Ha as (ds & la & ci & b & ->). simpl in Hh.
    by injection Hh as <- <-.
  - destruct (advance_follower_commit _ _ _) as [q|] eqn:Ha; [|done].
    apply advance_follower_commit_shape in Ha as (ds & la & ci & b & ->). simpl in Hh.
    by injection Hh as <- <-.
Qed.

Lemma handle_append_entries_response_targets from t ok mi ct ci p p1 out :
  leader_ok p → from ≠ node_id p →
  handle_append_entries_response from t ok mi ct ci p = Some (p1, out) → targets_ok p p1 out.
Proof.
  intros Hl Hne Hh. unfold handle_append_entries_response in Hh.
  destruct (_ || _); [injection Hh as <- <-; split; [exact Hl|constructor]|]. destruct ok.
  - destruct mi as [m|]; [|injection Hh as <- <-; split; [exact Hl|constructor]].
    destruct (_ || _); [injection Hh as <- <-; split; [exact Hl|constructor]|].
    destruct (try_advance_commit _) as [q|] eqn:Ht; [|done].
    apply try_advance_shape in Ht as (ds & la & c & b & -> & _). simpl in Hh.
    injection Hh as <- <-. split; [exact Hl|constructor].
  - simpl in Hh.
    destruct (match _ with Some i => term <$> vget (log p) i | None => Some 0%N end); [|done].
    destruct (vslice_from _ _); [|done]. simpl in Hh. injection Hh as <- <-.
    split; [exact Hl|]. apply Forall_singleton. simpl. by intros [= ->].
Qed.

Lemma handle_message_targets e from msg p p1 out :
  leader_ok p → names_sender (node_id p) from msg →
  handle_message e from msg p = Some (p1, out) → targets_ok p p1 out.
Proof.
  intros Hl [Hne Hmsg] Hh. unfold handle_message in Hh.
  assert (node_id (bump_term e msg p) = node_id p ∧ leader_ok (bump_term e msg p)) as [Hid Hlb].
  { unfold bump_term. destruct (incoming_term msg) as [t|]; [|done]. by destruct (_ <? _)%N. }
  rewrite <- Hid in Hne. unfold targets_ok. rewrite <- Hid.
  change (targets_ok (bump_term e msg p) p1 out). clear Hid Hl. revert Hh Hlb Hne.
  generalize (bump_term e msg p). clear p. intros p Hh Hlb Hne. destruct msg; simpl in *; subst.
  - unfold handle_request_vote in Hh. destruct (if (_ <? _)%N then _ else _);
      injection Hh as <- <-; (split; [keeps Hlb|]); apply Forall_singleton; simpl; by intros [= ->].
  - unfold handle_request_vote_response in Hh.
    destruct (_ || _); [injection Hh as <- <-; split; [keeps Hlb|constructor]|].
    destruct vote_granted; [|injection Hh as <- <-; split; [keeps Hlb|constructor]].
    case_bool_decide; [by apply (become_leader_targets _ (node_id p)) in Hh|].
    injection Hh as <- <-. split; [keeps Hlb|constructor].
  - by eapply handle_append_entries_targets.
  - by eapply handle_append_entries_response_targets.
  - unfold handle_forward in Hh. destruct (is_leader _) eqn:Hr; [by eapply propose_targets|].
    destruct (leader p) as [l|] eqn:E; [|injection Hh as <- <-; split; [keeps Hlb|constructor]].
    case_bool_decide; [|injection Hh as <- <-; split; [keeps Hlb|constructor]].
    destruct (_ <=? _)%N; injection Hh as <- <-; (split; [keeps Hlb|]); [constructor|].
    apply Forall_singleton. simpl. intros [= ->]. apply Hlb; [|done].
    by intros E'; rewrite E' in Hr.
Qed.

Lemma run_event_targets e ev p p1 out :
  leader_ok p → (∀ from msg, ev = EvReceive from msg → names_sender (node_id p) from msg) →
  run_event e ev p = Some (p1, out) → targets_ok p p1 out.
Proof.
  intros Hl Hev. destruct ev as [v|from msg|now]; simpl.
  - by apply propose_targets.
  - apply handle_message_targets; [done|]. by apply Hev.
  - by apply on_tick_targets.
Qed.
End storage_free.
