(* ===== verification/RaftHarness.v ===== *)
(** * Raft: the property-test harness

    Models [daccord/src/protocol/raft_proptest.rs]: a bus of three nodes with
    a queue of messages that a random list of steps ticks, delivers, drops,
    reorders, proposes to and restarts, and the assertions made after every
    step. A node's own storage is never used; what it persists is kept in
    vectors of the harness. [None] is a panic. *)

From S2P Require Import Prelude Types Storage Raft.

Definition NUM_NODES : nat := 3.

Inductive Step :=
| Tick (n : N)
| Deliver (i : nat)
| Drop (i : nat)
| Reorder (a b : nat)
| Propose (n : N) (v : N)
| Restart (n : N).

(** What [step_strategy] can draw. *)
Definition step_strategy (s : Step) : bool :=
  match s with
  | Tick n | Restart n => (n <? N.of_nat NUM_NODES)%N
  | Deliver i | Drop i => i <? 32
  | Reorder a b => (a <? 32) && (b <? 32)
  | Propose n v => (n <? N.of_nat NUM_NODES)%N && (v <? 2 ^ 32)%N
  end.

Abbreviation HNode := (RaftProtocol N (RaftMemoryStorage N)).

Record Harness := mkHarness {
  h_nodes : list HNode;
  h_ids : list NodeId;
  h_queue : list (NodeId * NodeId * RaftMessage N);
  h_now : Instant;
  persisted_term : list N;
  persisted_voted_for : list (option NodeId);
  persisted_log : list (list (LogEntry N));
  persisted_decisions : list (list (N * N));
  persisted_commit_index : list (option N);
}.

Definition harness_config : RaftConfig := {|
  election_timeout_min := from_millis 100;
  election_timeout_max := from_millis 200;
  heartbeat_interval := from_millis 50 |}.

(** [format!("n{i}")] for the three nodes. *)
Definition harness_ids : list NodeId := [mkNodeId "n0" 1; mkNodeId "n1" 1; mkNodeId "n2" 1].

Definition harness_new (e : Env) : option Harness :=
  ns ← mapM (λ id, new e id NUM_NODES harness_config RaftMemoryStorage_new) harness_ids;
  Some {| h_nodes := ns; h_ids := harness_ids; h_queue := []; h_now := env_now e;
          persisted_term := replicate NUM_NODES 0%N;
          persisted_voted_for := replicate NUM_NODES None;
          persisted_log := replicate NUM_NODES [];
          persisted_decisions := replicate NUM_NODES [];
          persisted_commit_index := replicate NUM_NODES None |}.

Definition idx_of (h : Harness) (id : NodeId) : option nat :=
  fst <$> list_find (λ x, x = id) (h_ids h).

(** [v[i] = x], which panics out of range. *)
Definition set_at {A} (l : list A) (i : nat) (x : A) : option (list A) :=
  if bool_decide (i < length l) then Some (<[i := x]> l) else None.

(** [if let Some(x) = o { v[i] = f(x) }]. *)
Definition set_if {A B} (o : option A) (f : A → option B) (i : nat) (l : list B) : option (list B) :=
  match o with Some x => y ← f x; set_at l i y | None => Some l end.

Definition harness_flush (n : nat) (h : Harness) : option Harness :=
  p ← h_nodes h !! n;
  let '(p, intent) := drain_persist_intent p in
  ns ← set_at (h_nodes h) n p;
  ts ← set_if (i_term intent) Some n (persisted_term h);
  vs ← set_if (i_voted_for intent) Some n (persisted_voted_for h);
  ls ← set_if (i_truncate_from intent)
         (λ i, l ← persisted_log h !! n; Some (vtruncate l i)) n (persisted_log h);
  ls ← set_if (i_append_from intent)
         (λ i, l ← ls !! n; es ← vslice_from (i_log_snapshot intent) i; Some (l ++ es)) n ls;
  cs ← set_if (i_commit_index intent) Some n (persisted_commit_index h);
  Some {| h with h_nodes := ns; persisted_term := ts; persisted_voted_for := vs;
                 persisted_log := ls; persisted_commit_index := cs |}.

Definition enqueue (from : NodeId) (outs : list (Outgoing (RaftMessage N))) (h : Harness) : Harness :=
  {| h with h_queue := h_queue h ++ flat_map (λ out,
       match target out with
       | Peer to => [(from, to, message out)]
       | Broadcast => map (λ id, (from, id, message out)) (filter (λ id, id ≠ from) (h_ids h))
       end) outs |}.

Definition harness_drain (n : nat) (h : Harness) : option Harness :=
  p ← h_nodes h !! n;
  let '(p, ds) := take_decisions p in
  ns ← set_at (h_nodes h) n p;
  old ← persisted_decisions h !! n;
  dss ← set_at (persisted_decisions h) n (old ++ map (λ d, (d_slot d, d_value d)) ds);
  Some {| h with h_nodes := ns; persisted_decisions := dss |}.

(** What follows a call into node [n]: persist, send, take the decisions. *)
Definition after_call (n : nat) (r : option (HNode * list (Outgoing (RaftMessage N)))) (h : Harness)
    : option Harness :=
  '(p, outs) ← r;
  ns ← set_at (h_nodes h) n p;
  h ← harness_flush n {| h with h_nodes := ns |};
  from ← h_ids h !! n;
  harness_drain n (enqueue from outs h).

(** [Vec::remove] and [Vec::swap]. *)
Definition queue_remove {A} (i : nat) (l : list A) : option (A * list A) :=
  x ← l !! i; Some (x, take i l ++ drop (S i) l).
Definition queue_swap {A} (a b : nat) (l : list A) : option (list A) :=
  x ← l !! a; y ← l !! b; Some (<[b := x]> (<[a := y]> l)).

Definition node_index (n : N) : nat := N.to_nat n mod NUM_NODES.

Definition harness_restart (e : Env) (n : nat) (h : Harness) : option Harness :=
  h ← harness_flush n h;
  p ← h_nodes h !! n;
  t ← persisted_term h !! n;
  vf ← persisted_voted_for h !! n;
  l ← persisted_log h !! n;
  ds ← persisted_decisions h !! n;
  ci ← persisted_commit_index h !! n;
  p ← restore_state e t vf l ds ci p;
  ns ← set_at (h_nodes h) n p;
  Some {| h with h_nodes := ns |}.

Definition harness_step (e : Env) (s : Step) (h : Harness) : option Harness :=
  match s with
  | Tick n =>
      let n := node_index n in
      let h := {| h with h_now := (h_now h + from_millis 50)%N |} in
      p ← h_nodes h !! n;
      after_call n (on_tick e (h_now h) p) h
  | Deliver i =>
      if bool_decide (h_queue h = []) then Some h else
      '((from, to, msg), q) ← queue_remove (i mod length (h_queue h)) (h_queue h);
      let h := {| h with h_queue := q |} in
      match idx_of h to with
      | Some t => p ← h_nodes h !! t; after_call t (handle_message e from msg p) h
      | None => Some h
      end
  | Drop i =>
      if bool_decide (h_queue h = []) then Some h else
      '(_, q) ← queue_remove (i mod length (h_queue h)) (h_queue h);
      Some {| h with h_queue := q |}
  | Reorder a b =>
      if bool_decide (length (h_queue h) < 2) then Some h else
      q ← queue_swap (a mod length (h_queue h)) (b mod length (h_queue h)) (h_queue h);
      Some {| h with h_queue := q |}
  | Propose n v =>
      let n := node_index n in
      p ← h_nodes h !! n;
      after_call n (propose e v p) h
  | Restart n => harness_restart e (node_index n) h
  end.

(** ** The assertions *)
Definition assert_election_safety (h : Harness) : bool :=
  forallb (λ t, bool_decide (length (filter (λ p, role p = Leader ∧ current_term p = t) (h_nodes h)) ≤ 1))
    (current_term <$> filter (λ p, role p = Leader) (h_nodes h)).

(** From the last common index down, the first with equal terms decides. *)
Fixpoint match_below (k : nat) (li lj : list (LogEntry N)) : bool :=
  match k with
  | O => true
  | S k =>
      match li !! k, lj !! k with
      | Some x, Some y =>
          if (term x =? term y)%N then bool_decide (take (S k) li = take (S k) lj)
          else match_below k li lj
      | _, _ => match_below k li lj
      end
  end.

Definition logs_match (li lj : list (LogEntry N)) : bool :=
  match_below (length li `min` length lj) li lj.

(** Every two of a list, in order. *)
Fixpoint all_pairs {A} (f : A → A → bool) (l : list A) : bool :=
  match l with [] => true | x :: l => forallb (f x) l && all_pairs f l end.

Definition assert_log_matching (h : Harness) : bool :=
  all_pairs (λ p q, logs_match (log p) (log q)) (h_nodes h).

(** The pass over all decisions with the map of those seen. *)
Fixpoint applied_once (seen : gmap N N) (ds : list (N * N)) : bool :=
  match ds with
  | [] => true
  | (slot, v) :: ds =>
      match seen !! slot with
      | Some prev => bool_decide (prev = v) && applied_once seen ds
      | None => applied_once (<[slot := v]> seen) ds
      end
  end.

Definition assert_state_machine_safety (h : Harness) : bool :=
  applied_once ∅ (concat (persisted_decisions h)).

Definition assert_term_monotonicity (h : Harness) : bool :=
  forallb (λ pt, (pt.2 <=? current_term pt.1)%N) (zip (h_nodes h) (persisted_term h)).

Definition assert_invariants (h : Harness) : bool :=
  assert_election_safety h && assert_log_matching h &&
  assert_state_machine_safety h && assert_term_monotonicity h.

(** [random_steps_preserve_invariants]: the steps, each under the clock and
    randomness of its own, the assertions after every one. *)
Fixpoint random_steps_preserve_invariants (steps : list (Env * Step)) (h : Harness)
    : option (Harness * bool) :=
  match steps with
  | [] => Some (h, true)
  | (e, s) :: steps =>
      h ← harness_step e s h;
      if assert_invariants h then random_steps_preserve_invariants steps h else Some (h, false)
  end.

(** [harness_basic_election_and_propose]: the first node times out, then the
    oldest message is delivered, or the node ticks when there is none. *)
Fixpoint deliver_or_tick (e : Env) (k : nat) (h : Harness) : option Harness :=
  match k with
  | O => Some h
  | S k =>
      h ← harness_step e (if bool_decide (h_queue h = []) then Tick 0 else Deliver 0) h;
      deliver_or_tick e k h
  end.

Definition harness_basic_election_and_propose (e : Env) : option bool :=
  h ← harness_new e;
  p ← h_nodes h !! 0;
  ns ← set_at (h_nodes h) 0 {| p with election_deadline := (h_now h - from_millis 1)%N |};
  h ← harness_step e (Tick 0) {| h with h_nodes := ns |};
  h ← deliver_or_tick e 50 h;
  Some (bool_decide (1 ≤ length (filter (λ p, role p = Leader) (h_nodes h))) && assert_invariants h).
