(* ===== verification/RaftHarnessProps.v ===== *)
(** * Raft: what the property test asserts

    Every step of the harness is a step of the cluster of [RaftNet.v], or
    changes one node as a restart does; so the election safety, log matching
    and term assertions hold after every list of steps, whatever the clock and
    the randomness. The state machine safety assertion does not: a list of
    19 steps falsifies it. *)

From S2P Require Import Prelude Types Network Storage Raft RaftLocal RaftEvents RaftDurable.
From S2P Require Import RaftNet RaftNetLemmas RaftElection RaftLogs RaftTotal RaftChange RaftStorageFree RaftHarness.

Abbreviation Mem := (RaftMemoryStorage N).

Definition harness_cluster : gset NodeId := list_to_set harness_ids.

(** ** The vectors of the harness as the storage of a node *)
Definition save_all (ds : list (N * N)) (m : gmap N N) : gmap N N :=
  foldl (λ m d, <[d.1 := d.2]> m) m ds.

Definition hmem (h : Harness) (i : nat) : option Mem :=
  t ← persisted_term h !! i; vf ← persisted_voted_for h !! i; l ← persisted_log h !! i;
  ci ← persisted_commit_index h !! i; ds ← persisted_decisions h !! i;
  Some {| m_term := t; m_voted_for := vf; m_log := l; m_commit_index := ci;
          m_decisions := save_all ds ∅ |}.

Lemma set_at_Some {A} (l l' : list A) i x : set_at l i x = Some l' → l' = <[i := x]> l ∧ i < length l.
Proof. unfold set_at. case_bool_decide; naive_solver. Qed.

Lemma set_if_Some {A B} (o : option A) (f : A → option B) i (l l' : list B) x :
  set_if o f i l = Some l' → l !! i = Some x →
  l' !! i = Some (match o with Some a => default x (f a) | None => x end) ∧
  (∀ a, o = Some a → is_Some (f a)) ∧ ∀ j, j ≠ i → l' !! j = l !! j.
Proof.
  unfold set_if. intros Hs Hx. destruct o as [a|]; [|injection Hs as <-; naive_solver].
  destruct (f a) as [y|] eqn:Hf; [|done]. simpl in Hs. apply set_at_Some in Hs as [-> Hl].
  split_and!; [by rewrite list_lookup_insert_eq|naive_solver|]. intros j Hj.
  by rewrite list_lookup_insert_ne.
Qed.

Lemma hmem_Some h i m :
  hmem h i = Some m →
  persisted_term h !! i = Some (m_term m) ∧ persisted_voted_for h !! i = Some (m_voted_for m) ∧
  persisted_log h !! i = Some (m_log m) ∧ persisted_commit_index h !! i = Some (m_commit_index m) ∧
  ∃ ds, persisted_decisions h !! i = Some ds ∧ m_decisions m = save_all ds ∅.
Proof. unfold hmem. intros Hm. inv_bind. simplify_eq/=. eauto 8. Qed.

(** What one node's part of the harness is after a call into it. *)
Record node_at (h : Harness) (i : nat) (p : HNode) (m : Mem) : Prop := {
  na_node : h_nodes h !! i = Some p;
  na_mem : hmem h i = Some m;
}.

(** The parts of the other nodes are the same. *)
Definition others_same (h h' : Harness) (i : nat) : Prop :=
  h_ids h' = h_ids h ∧ ∀ j, j ≠ i → h_nodes h' !! j = h_nodes h !! j ∧ hmem h' j = hmem h j.

(** The pending state written out. *)
Definition truncated (p : HNode) (m : Mem) : list (LogEntry N) :=
  match pending_truncate_from p with Some i => vtruncate (m_log m) i | None => m_log m end.

Definition flush_mem (p : HNode) (m : Mem) : Mem := {|
  m_term := if pending_persist_term p then current_term p else m_term m;
  m_voted_for := if pending_persist_voted_for p then voted_for p else m_voted_for m;
  m_log := match pending_persist_log_from p with
           | Some a => truncated p m ++ default [] (vslice_from (log p) a)
           | None => truncated p m
           end;
  m_commit_index := if pending_persist_commit_index p then commit_index p else m_commit_index m;
  m_decisions := m_decisions m |}.

Lemma flush_persist_mem p m :
  (∀ a, pending_persist_log_from p = Some a → is_Some (vslice_from (log p) a)) →
  flush_persist (with_storage m p) =
    Some (with_storage (flush_mem p m) (drain_persist_intent p).1, Ok tt).
Proof.
  intros Hs. unfold flush_persist. simpl. unfold flush_mem, truncated.
  destruct (pending_persist_log_from p) as [a|]; simpl.
  - destruct (Hs a eq_refl) as [es He]. rewrite He. simpl.
    destruct (pending_persist_term p), (pending_persist_voted_for p), (pending_truncate_from p),
      (pending_persist_commit_index p); simpl; rewrite ?mem_truncate_eq; done.
  - destruct m, (pending_persist_term p), (pending_persist_voted_for p), (pending_truncate_from p),
      (pending_persist_commit_index p); simpl; rewrite ?mem_truncate_eq; done.
Qed.

Lemma harness_flush_spec n h h' p m :
  node_at h n p m → harness_flush n h = Some h' →
  let p' := (drain_persist_intent p).1 in
  ∃ m', flush_persist (with_storage m p) = Some (with_storage m' p', Ok tt) ∧
    node_at h' n p' m' ∧ others_same h h' n ∧ h_queue h' = h_queue h.
Proof.
  intros [Hp Hm] Hf. apply hmem_Some in Hm as (H1 & H2 & H3 & H4 & ds & H5 & H6).
  unfold harness_flush in Hf. rewrite Hp in Hf. cbn [mbind option_bind drain_persist_intent] in Hf.
  apply bind_Some in Hf as (ns & E0 & Hf). apply bind_Some in Hf as (ts & E1 & Hf).
  apply bind_Some in Hf as (vs & E2 & Hf). apply bind_Some in Hf as (ls & E3 & Hf).
  apply bind_Some in Hf as (ls' & E4 & Hf). apply bind_Some in Hf as (cs & E5 & Hf).
  injection Hf as <-. simpl in *. apply set_at_Some in E0 as [-> Hl].
  eapply set_if_Some in E1 as (T1 & _ & T2); [|exact H1].
  eapply set_if_Some in E2 as (V1 & _ & V2); [|exact H2].
  eapply set_if_Some in E3 as (L1 & _ & L2); [|exact H3].
  eapply set_if_Some in E4 as (M1 & M0 & M2); [|exact L1].
  eapply set_if_Some in E5 as (C1 & _ & C2); [|exact H4].
  rewrite H3 in L1. rewrite L1 in M0, M1. simpl in *.
  assert (∀ a, pending_persist_log_from p = Some a → is_Some (vslice_from (log p) a)) as Hs.
  { intros a Ha. rewrite Ha in M0. destruct (M0 a eq_refl) as [x Hx]. simpl in Hx.
    destruct (vslice_from (log p) a); [by eexists|done]. }
  exists (flush_mem p m). split; [by apply flush_persist_mem|].
  split; [split; simpl; [by rewrite list_lookup_insert_eq|]|split; [split; [done|]|done]].
  - unfold hmem. simpl. rewrite T1, V1, M1, C1, H5. simpl. f_equal. unfold flush_mem, truncated.
    rewrite H6. f_equal; try (by destruct (pending_persist_term p)); try (by destruct (pending_persist_voted_for p));
      try (by destruct (pending_persist_commit_index p)).
    rewrite H3. destruct (pending_persist_log_from p) as [a|]; [|by destruct (pending_truncate_from p)].
    destruct (Hs a eq_refl) as [es He]. simpl. rewrite He. by destruct (pending_truncate_from p).
  - intros j Hj. simpl. rewrite list_lookup_insert_ne by done. split; [done|]. unfold hmem. simpl.
    by rewrite T2, V2, M2, L2, C2 by done.
Qed.

Lemma save_decisions_mem (ds : list (Decision N)) (m : Mem) :
  save_decisions ds m =
    ({| m with m_decisions := save_all (map (λ d, (d_slot d, d_value d)) ds) (m_decisions m) |}, Ok tt).
Proof.
  revert m. induction ds as [|d ds IH]; intros m; [by destruct m|]. simpl. unfold sbind. simpl.
  by rewrite IH.
Qed.

Lemma save_all_app ds ds' m : save_all (ds ++ ds') m = save_all ds' (save_all ds m).
Proof. apply foldl_app. Qed.

Lemma harness_drain_spec n h h' p m :
  node_at h n p m → harness_drain n h = Some h' →
  let p' := (take_decisions p).1 in
  ∃ m' ds, drain_decisions (with_storage m p) = (with_storage m' p', Ok ds) ∧
    node_at h' n p' m' ∧ others_same h h' n ∧ h_queue h' = h_queue h.
Proof.
  intros [Hp Hm] Hd. apply hmem_Some in Hm as (H1 & H2 & H3 & H4 & ds & H5 & H6).
  unfold harness_drain in Hd. rewrite Hp in Hd. cbn [mbind option_bind take_decisions] in Hd.
  apply bind_Some in Hd as (ns & E0 & Hd). apply bind_Some in Hd as (old & E1 & Hd).
  apply bind_Some in Hd as (dss & E2 & Hd). injection Hd as <-.
  apply set_at_Some in E0 as [-> _]. apply set_at_Some in E2 as [-> Hl].
  rewrite H5 in E1. injection E1 as <-.
  unfold drain_decisions. simpl. rewrite save_decisions_mem.
  exists {| m with m_decisions :=
    save_all (map (λ d, (d_slot d, d_value d)) (pending_decisions p)) (m_decisions m) |},
    (pending_decisions p).
  split; [done|]. split; [split; simpl|split; [split; [done|]|done]].
  - rewrite list_lookup_insert_eq; [done|]. by eapply lookup_lt_Some.
  - unfold hmem. simpl. rewrite H1, H2, H3, H4. simpl. rewrite list_lookup_insert_eq by done.
    simpl. by rewrite save_all_app, H6.
  - intros j Hj. simpl. rewrite list_lookup_insert_ne by done. split; [done|]. unfold hmem. simpl.
    by rewrite list_lookup_insert_ne by done.
Qed.

(** ** The cluster a harness stands for *)
Record hrel (h : Harness) (σ : Net N Mem) : Prop := {
  hr_ids : h_ids h = harness_ids;
  hr_count : length (h_nodes h) = NUM_NODES;
  hr_node i id : harness_ids !! i = Some id → ∃ p m,
    node_at h i p m ∧ nodes σ !! id = Some (Up (with_storage m p)) ∧ leader_ok p;
  hr_queue from to msg : (from, to, msg) ∈ h_queue h → to ∈ harness_ids →
    mkPacket from to msg ∈ packets σ ∧ names_sender to from msg;
}.

Definition hinv (h : Harness) (σ : Net N Mem) : Prop :=
  hrel h σ ∧ safety_inv (λ v : N, v) harness_cluster σ.

Lemma harness_ids_nodup i j id :
  harness_ids !! i = Some id → harness_ids !! j = Some id → i = j.
Proof. assert (NoDup harness_ids) as Hd by (by refine (bool_decide_unpack _ _)). by eapply NoDup_lookup. Qed.

Lemma harness_id_lt i : i < NUM_NODES → is_Some (harness_ids !! i).
Proof. intros Hi. by apply lookup_lt_is_Some_2. Qed.

Lemma two_harness_nodes : 2 ≤ size harness_cluster.
Proof. vm_compute. lia. Qed.

(** Changing the clock or losing messages of the queue. *)
Lemma hrel_queue h σ q now :
  hrel h σ → (∀ x, x ∈ q → x ∈ h_queue h) → hrel {| h with h_queue := q; h_now := now |} σ.
Proof.
  intros [H1 H2 H3 H4] Hq. split; simpl; [done|done| |].
  - intros i id Hi. destruct (H3 i id Hi) as (p & m & [Hp Hm] & Hn & Hl). exists p, m. done.
  - intros from to msg Hin. apply H4. by apply Hq.
Qed.

(** One node changed. *)
Lemma hrel_update h σ h' n id p m new dl :
  hrel h σ → harness_ids !! n = Some id → node_at h' n p m → others_same h h' n →
  length (h_nodes h') = NUM_NODES → leader_ok p →
  (∀ from to msg, (from, to, msg) ∈ h_queue h' → to ∈ harness_ids →
     (from, to, msg) ∈ h_queue h ∨ mkPacket from to msg ∈ new ∧ names_sender to from msg) →
  hrel h' (mkNet (<[id := Up (with_storage m p)]> (nodes σ)) (packets σ ++ new) dl).
Proof.
  intros [H1 H2 H3 H4] Hid Hna [Hids Ho] Hlen Hl Hq. split; simpl; [congruence|done| |].
  - intros i id' Hi. destruct (decide (i = n)) as [->|Hne].
    + rewrite Hi in Hid. injection Hid as ->. exists p, m. by rewrite lookup_insert_eq.
    + destruct (H3 i id' Hi) as (q & mq & [Hp Hm] & Hn & Hlq). exists q, mq.
      destruct (Ho i Hne) as [E1 E2]. split_and!; [split; congruence| |done].
      rewrite lookup_insert_ne; [done|]. intros ->. destruct Hne. by eapply harness_ids_nodup.
  - intros from to msg Hin Hto. destruct (Hq _ _ _ Hin Hto) as [Hold|[Hnew Hns]].
    + destruct (H4 _ _ _ Hold Hto). split; [apply elem_of_app; by left|done].
    + split; [apply elem_of_app; by right|done].
Qed.

Lemma others_same_trans h h1 h2 n :
  others_same h h1 n → others_same h1 h2 n → others_same h h2 n.
Proof.
  intros [E1 H1] [E2 H2]. split; [congruence|]. intros j Hj.
  destruct (H1 j Hj), (H2 j Hj). split; congruence.
Qed.

(** What a call sends is in the network, if a node of the harness is to
    receive it. *)
Lemma enqueue_packets id out h from to msg :
  h_ids h = harness_ids → id ∈ harness_ids → others_only id out →
  (from, to, msg) ∈ h_queue (enqueue id out h) → to ∈ harness_ids →
  (from, to, msg) ∈ h_queue h ∨
  mkPacket from to msg ∈ packets_of harness_cluster id out ∧ from = id ∧ to ≠ id ∧
  ∃ o, o ∈ out ∧ message o = msg.
Proof.
  intros Hids Hid Ho Hin Hto. unfold enqueue in Hin. cbn [h_queue] in Hin.
  apply elem_of_app in Hin as [Hin|Hin]; [by left|right].
  apply list_elem_of_In, in_flat_map in Hin as (o & Hoin & Hx). apply list_elem_of_In in Hoin.
  assert (∀ d, d ∈ harness_ids → d ≠ id → d ∈ harness_cluster ∖ {[id]}) as Hc.
  { intros d Hd Hne. apply elem_of_difference. split; [by apply elem_of_list_to_set|set_solver]. }
  unfold others_only in Ho. rewrite Forall_forall in Ho. specialize (Ho o Hoin).
  assert (∀ d, from = id ∧ to = d ∧ msg = message o → d ∈ harness_ids → d ≠ id →
    target o = Peer d ∨ target o = Broadcast →
    mkPacket from to msg ∈ packets_of harness_cluster id out ∧ from = id ∧ to ≠ id ∧
    ∃ o, o ∈ out ∧ message o = msg) as Hgo.
  { intros d (-> & -> & ->) Hd Hne Ht. split_and!; [|done|done|eauto].
    apply list_elem_of_In, in_flat_map. exists o. split; [by apply list_elem_of_In|].
    destruct Ht as [-> | ->].
    - rewrite bool_decide_eq_true_2; [by left|by apply Hc].
    - apply in_map_iff. exists d. split; [done|]. apply list_elem_of_In, elem_of_elements. by apply Hc. }
  destruct (target o) as [d|] eqn:Ht.
  - destruct Hx as [[= <- -> <-]|[]]. apply (Hgo to); [done|done| |by left]. by intros ->.
  - apply in_map_iff in Hx as (d & [= <- -> <-] & Hd). apply list_elem_of_In, list_elem_of_filter in Hd as [Hne Hd].
    rewrite Hids in Hd. apply (Hgo to); [done|done|done|by right].
Qed.

Lemma harness_id_in n id : harness_ids !! n = Some id → id ∈ harness_cluster.
Proof. intros Hn. apply elem_of_list_to_set. by eapply list_elem_of_lookup_2. Qed.

(** [Vec] keeps its length. *)
Lemma set_at_length {A} (l l' : list A) i x : set_at l i x = Some l' → length l' = length l.
Proof. intros [-> _]%set_at_Some. apply length_insert. Qed.

Lemma harness_flush_length n h h' : harness_flush n h = Some h' → length (h_nodes h') = length (h_nodes h).
Proof.
  unfold harness_flush. destruct (h_nodes h !! n) as [p|]; [|done].
  cbn [mbind option_bind drain_persist_intent]. intros Hf.
  apply bind_Some in Hf as (ns & E0 & Hf). do 5 (apply bind_Some in Hf as (? & _ & Hf)).
  injection Hf as <-. by apply set_at_length in E0.
Qed.

Lemma harness_drain_length n h h' : harness_drain n h = Some h' → length (h_nodes h') = length (h_nodes h).
Proof.
  unfold harness_drain. destruct (h_nodes h !! n) as [p|]; [|done].
  cbn [mbind option_bind take_decisions]. intros Hf.
  apply bind_Some in Hf as (ns & E0 & Hf). do 2 (apply bind_Some in Hf as (? & _ & Hf)).
  injection Hf as <-. by apply set_at_length in E0.
Qed.

(** What a call into a node leaves. *)
Lemma after_call_inv r n id h h' p m :
  h_ids h !! n = Some id → node_at h n p m → after_call n r h = Some h' →
  ∃ p1 out m2 m3 ds, let p2 := (drain_persist_intent p1).1 in let p3 := (take_decisions p2).1 in
    r = Some (p1, out) ∧
    flush_persist (with_storage m p1) = Some (with_storage m2 p2, Ok tt) ∧
    drain_decisions (with_storage m2 p2) = (with_storage m3 p3, Ok ds) ∧
    node_at h' n p3 m3 ∧ others_same h h' n ∧ h_queue h' = h_queue (enqueue id out h) ∧
    length (h_nodes h') = length (h_nodes h).
Proof.
  intros Hid [Hp Hm] Hc.
  unfold after_call in Hc. apply bind_Some in Hc as ([p1 out] & Hrun & Hc).
  apply bind_Some in Hc as (ns & Hns & Hc). apply bind_Some in Hc as (h1 & Hfl & Hc).
  apply bind_Some in Hc as (from & Hfrom & Hdr).
  pose proof (set_at_length _ _ _ _ Hns) as Hlen. apply set_at_Some in Hns as [-> Hlt].
  assert (node_at {| h with h_nodes := <[n:=p1]> (h_nodes h) |} n p1 m) as Hna
    by (split; [simpl; by rewrite list_lookup_insert_eq|exact Hm]).
  pose proof (harness_flush_length _ _ _ Hfl) as Hlen1.
  destruct (harness_flush_spec _ _ _ _ _ Hna Hfl) as (m2 & Hf2 & Hna2 & Ho2 & Hq2).
  pose proof (harness_drain_length _ _ _ Hdr) as Hlen2.
  assert (node_at (enqueue from out h1) n (drain_persist_intent p1).1 m2) as Hna2' by (split; apply Hna2).
  destruct (harness_drain_spec _ _ _ _ _ Hna2' Hdr) as (m3 & ds & Hd3 & Hna3 & Ho3 & Hq3).
  destruct Ho2 as [E1 E2]. simpl in E1. rewrite E1, Hid in Hfrom. injection Hfrom as <-.
  exists p1, out, m2, m3, ds. split_and!; [done..| | |].
  - apply (others_same_trans _ h1); [|exact Ho3]. split; [exact E1|].
    intros j Hj. destruct (E2 j Hj) as [E3 E4]. simpl in E3.
    rewrite list_lookup_insert_ne in E3 by done. split; [done|exact E4].
  - rewrite Hq3. unfold enqueue. cbn [h_queue h_ids]. by rewrite Hq2, E1.
  - simpl in *. congruence.
Qed.

Lemma harness_safety_step σ σ' :
  safety_inv (λ v : N, v) harness_cluster σ → step harness_cluster harness_config σ σ' →
  safety_inv (λ v : N, v) harness_cluster σ'.
Proof. apply safety_inv_step; [apply two_harness_nodes|done]. Qed.

(** A call into a node is an event of the cluster. *)
Lemma after_call_step e n a ev h σ h' p :
  hinv h σ → harness_ids !! n = Some a → h_nodes h !! n = Some p →
  (∀ from msg, ev = EvReceive from msg → mkPacket from a msg ∈ packets σ ∧ names_sender a from msg) →
  after_call n (run_event e ev p) h = Some h' → ∃ σ', hinv h' σ'.
Proof.
  intros [Hr Hinv] Ha Hp Hev Hc. destruct (hr_node _ _ Hr n a Ha) as (p' & m & Hna & Hn & Hl).
  pose proof (na_node _ _ _ _ Hna) as Hp'. rewrite Hp in Hp'. injection Hp' as <-.
  destruct (proj2 (proj1 Hinv) a _ Hn) as (Hid & Htot & Hcl & Hmir). simpl in Hid.
  pose proof Ha as Ha'. rewrite <- (hr_ids _ _ Hr) in Ha'.
  destruct (after_call_inv _ _ _ _ _ _ _ Ha' Hna Hc)
    as (p1 & out & m2 & m3 & ds & Hrun & Hf & Hd & Hna3 & Ho & Hq & Hlen). clear Hc.
  assert (run_event e ev (with_storage m p) = Some (with_storage m p1, out)) as Hrun'
    by (by rewrite run_event_free, Hrun).
  pose proof (run_event_spec _ _ _ _ _ (proj1 Hcl) Hrun') as Hes.
  destruct (run_event_targets e ev p p1 out Hl) as [Hl1 Hot]; [|done|].
  { intros fr msg Hm'. rewrite Hid. by apply Hev. }
  rewrite Hid in Hot. eexists. split.
  2: { eapply harness_safety_step; [exact Hinv|].
       eapply step_event; [exact Hn| |exact Hrun'|exact Hf|exact Hd].
       destruct ev as [v|fr msg|now]; [done| |done]. by apply Hev. }
  eapply hrel_update; [exact Hr|exact Ha|exact Hna3|exact Ho| |exact Hl1|].
  { rewrite Hlen. apply (hr_count _ _ Hr). }
  intros fr to msg Hin Hto. rewrite Hq in Hin.
  destruct (enqueue_packets a out h fr to msg (hr_ids _ _ Hr)
    ltac:(by eapply list_elem_of_lookup_2) Hot Hin Hto)
    as [Hold|(Hpk & -> & Hne & o & Ho' & <-)]; [by left|right].
  split; [done|]. split; [congruence|]. pose proof (es_out _ _ _ _ Hes) as Hout.
  rewrite Forall_forall in Hout. specialize (Hout o Ho'). unfold out_ok in Hout.
  destruct (es_static _ _ _ _ Hes) as [Hs1 _]. simpl in Hs1.
  destruct (message o); try exact I; destruct Hout as (_ & -> & _); simpl; congruence.
Qed.

(** ** A restart *)
Lemma clean_drain (p : HNode) : clean p → (drain_persist_intent p).1 = p.
Proof.
  intros ([H1 H2] & H3 & H4 & H5). destruct p; simpl in *. by subst.
Qed.

Lemma clean_flush_mem (p : HNode) m : clean p → flush_mem p m = m.
Proof.
  intros ([H1 H2] & H3 & H4 & H5). unfold flush_mem, truncated. rewrite H1, H2, H3, H4, H5.
  by destruct m.
Qed.

(** A clean node has nothing to flush. *)
Lemma clean_flush n h h' p m :
  clean p → node_at h n p m → harness_flush n h = Some h' →
  node_at h' n p m ∧ others_same h h' n ∧ h_queue h' = h_queue h.
Proof.
  intros Hc Hna Hf. destruct (harness_flush_spec _ _ _ _ _ Hna Hf) as (m' & Hf' & Hna' & Ho & Hq).
  rewrite flush_persist_mem in Hf' by (intros a; by rewrite (proj2 (proj1 Hc))).
  apply (f_equal (λ r, match r with Some (x, _) => storage x | None => m end)) in Hf'. simpl in Hf'.
  rewrite clean_flush_mem in Hf' by done. rewrite clean_drain in Hna' by done. by subst m'.
Qed.

Lemma harness_restart_inv e n a h h' p m :
  clean p → total_nodes p = 3 → h_ids h !! n = Some a → node_at h n p m →
  harness_restart e n h = Some h' →
  ∃ p1, node_at h' n p1 m ∧ others_same h h' n ∧ h_queue h' = h_queue h ∧
    length (h_nodes h') = length (h_nodes h) ∧ static p p1 ∧ current_term p1 = m_term m ∧
    voted_for p1 = m_voted_for m ∧ log p1 = m_log m ∧ clean p1 ∧ role p1 = Follower ∧ leader p1 = None.
Proof.
  intros Hc Htot Hid Hna Hr. unfold harness_restart in Hr. apply bind_Some in Hr as (h1 & Hfl & Hr).
  pose proof (harness_flush_length _ _ _ Hfl) as Hlen.
  destruct (clean_flush _ _ _ _ _ Hc Hna Hfl) as ([Hp Hm] & Ho & Hq).
  pose proof (hmem_Some _ _ _ Hm) as (H1 & H2 & H3 & H4 & ds & H5 & H6).
  rewrite Hp, H1, H2, H3, H4, H5 in Hr. simpl in Hr.
  apply bind_Some in Hr as (p1 & Hres & Hr). apply bind_Some in Hr as (ns & Hns & Hr).
  injection Hr as <-. pose proof (set_at_length _ _ _ _ Hns) as Hlen'. apply set_at_Some in Hns as [-> Hlt].
  pose proof (restore_state_shape _ _ _ _ _ _ _ _ Hres) as (S1 & S2 & S3 & S4 & _ & S6 & S7).
  exists p1. split_and!; try done.
  - split; [simpl; by rewrite list_lookup_insert_eq|exact Hm].
  - destruct Ho as [E1 E2]. split; [exact E1|]. intros j Hj. simpl.
    rewrite list_lookup_insert_ne by done. by apply E2.
  - simpl. congruence.
  - destruct S7 as [?|(_ & ? & _)]; [done|congruence].
  - unfold restore_state in Hres. apply apply_committed_shape in Hres as (dd & la & -> & _). simpl.
    by rewrite Htot.
Qed.

Lemma harness_restart_step e n a h σ h' :
  hinv h σ → harness_ids !! n = Some a → harness_restart e n h = Some h' → ∃ σ', hinv h' σ'.
Proof.
  intros [Hr Hinv] Ha Hs. destruct (hr_node _ _ Hr n a Ha) as (p & m & Hna & Hn & Hl).
  destruct (proj2 (proj1 Hinv) a _ Hn) as (Hid & Htot & Hcl & Hm1 & Hm2 & Hm3). simpl in *.
  pose proof Ha as Ha'. rewrite <- (hr_ids _ _ Hr) in Ha'.
  destruct (harness_restart_inv e n a h h' p m Hcl Htot Ha' Hna Hs)
    as (p1 & Hna1 & Ho & Hq & Hlen & (S1 & S2 & S3 & S4) & T1 & T2 & T3 & Hc1 & Hrole & Hlead).
  set (σ' := mkNet (<[a := Up (with_storage m p1)]> (nodes σ)) (packets σ ++ []) (delivered σ)).
  exists σ'. split.
  - eapply hrel_update; [exact Hr|exact Ha|exact Hna1|exact Ho| | |].
    + rewrite Hlen. apply (hr_count _ _ Hr).
    + intros _. by rewrite Hlead.
    + intros from to msg Hin _. left. by rewrite Hq in Hin.
  - assert (stored_log (log p) = log p) as Hst
      by (unfold stored_log; rewrite <- (map_id (log p)) at 2; apply map_ext; by intros []).
    assert (log p1 = log p) as Hlog by congruence.
    eapply (safety_inv_change _ _ two_harness_nodes σ); [exact Hinv| |].
    + unshelve eapply (net_ok_update (St:=Mem) (λ v : N, v) _ harness_cluster σ a); [done|apply Hinv|by eapply harness_id_in|].
      split; [simpl; congruence|]. split; [simpl; congruence|]. split; [exact Hc1|].
      split; [|split]; simpl; [congruence..|]. by rewrite Hlog.
    + exists a, (Up (with_storage m p)), (Up (with_storage m p1)), []. split_and!; [done|done|done|].
      apply ch_quiet; simpl; [congruence|congruence| | |done].
      * unfold olog; simpl. by rewrite Hlog.
      * intros q [= <-]. right. left. exact Hrole.
Qed.

(** ** Every step *)
Lemma queue_remove_in {A} i (l : list A) x q :
  queue_remove i l = Some (x, q) → x ∈ l ∧ ∀ y, y ∈ q → y ∈ l.
Proof.
  unfold queue_remove. destruct (l !! i) as [z|] eqn:Hi; [|done]. simpl. intros [= <- <-].
  split; [by eapply list_elem_of_lookup_2|]. intros y [Hy|Hy]%elem_of_app.
  - by eapply subseteq_take.
  - by eapply subseteq_drop.
Qed.

Lemma queue_swap_in {A} a b (l q : list A) : queue_swap a b l = Some q → ∀ y, y ∈ q → y ∈ l.
Proof.
  unfold queue_swap. destruct (l !! a) as [x|] eqn:Ha; [|done]. simpl.
  destruct (l !! b) as [y|] eqn:Hb; [|done]. simpl. intros [= <-] z Hz.
  apply list_elem_of_lookup_1 in Hz as [k Hk].
  apply list_lookup_insert_Some in Hk as [(_ & <- & _)|[_ Hk]]; [by eapply list_elem_of_lookup_2|].
  apply list_lookup_insert_Some in Hk as [(_ & <- & _)|[_ Hk]]; by eapply list_elem_of_lookup_2.
Qed.

Lemma idx_of_Some h t i : idx_of h t = Some i → h_ids h !! i = Some t.
Proof.
  unfold idx_of. destruct (list_find _ _) as [[j x]|] eqn:Hf; [|done]. intros [= <-].
  apply list_find_Some in Hf as (Hj & -> & _). done.
Qed.

Lemma node_index_id n : ∃ a, harness_ids !! node_index n = Some a.
Proof. apply harness_id_lt. unfold node_index. apply Nat.mod_upper_bound. done. Qed.

Lemma harness_step_inv e s h σ h' : hinv h σ → harness_step e s h = Some h' → ∃ σ', hinv h' σ'.
Proof.
  intros [Hr Hinv] Hs. destruct s as [n|i|i|x y|n v|n]; simpl in Hs.
  - destruct (node_index_id n) as [a Ha]. apply bind_Some in Hs as (p & Hp & Hs).
    set (h1 := {| h with h_now := (h_now h + from_millis 50)%N |}) in Hs.
    assert (hrel h1 σ) as Hr1 by (by apply (hrel_queue h)).
    eapply (after_call_step e _ a (EvTick (h_now h1)) h1); [by split|exact Ha|exact Hp|done|exact Hs].
  - case_bool_decide; [injection Hs as <-; by exists σ|].
    apply bind_Some in Hs as ([[[from to] msg] q] & Hq & Hs). apply queue_remove_in in Hq as [Hin Hq].
    assert (hrel {| h with h_queue := q |} σ) as Hr' by (by apply (hrel_queue h)).
    destruct (idx_of _ to) as [t|] eqn:Ht; [|injection Hs as <-; by exists σ].
    apply idx_of_Some in Ht. rewrite (hr_ids _ _ Hr') in Ht.
    apply bind_Some in Hs as (p & Hp & Hs).
    eapply (after_call_step e _ to (EvReceive from msg)); [by split|exact Ht|exact Hp| |exact Hs].
    intros ? ? [= <- <-]. apply (hr_queue _ _ Hr); [done|]. by eapply list_elem_of_lookup_2.
  - case_bool_decide; [injection Hs as <-; by exists σ|].
    apply bind_Some in Hs as ([x q] & Hq & Hs). apply queue_remove_in in Hq as [_ Hq].
    injection Hs as <-. exists σ. split; [|done]. by apply (hrel_queue h).
  - case_bool_decide; [injection Hs as <-; by exists σ|].
    apply bind_Some in Hs as (q & Hq & Hs). pose proof (queue_swap_in _ _ _ _ Hq) as Hq'.
    injection Hs as <-. exists σ. split; [|done]. by apply (hrel_queue h).
  - destruct (node_index_id n) as [a Ha]. apply bind_Some in Hs as (p & Hp & Hs).
    by eapply (after_call_step e _ a (EvPropose v)); [split|exact Ha|exact Hp| |exact Hs].
  - destruct (node_index_id n) as [a Ha]. by eapply harness_restart_step.
Qed.

(** ** The start *)
Definition fresh (e : Env) (a : NodeId) (p : HNode) : Prop :=
  new e a NUM_NODES harness_config RaftMemoryStorage_new = Some p.

Lemma fresh_fields e a p :
  fresh e a p → node_id p = a ∧ total_nodes p = NUM_NODES ∧ current_term p = 0%N ∧ voted_for p = None ∧
    log p = [] ∧ role p = Follower ∧ leader p = None ∧ clean p ∧ storage p = RaftMemoryStorage_new.
Proof. unfold fresh, new. destruct (RaftConfig_validate _); [|done]. by intros [= <-]. Qed.

(** Nodes that have only been created satisfy the invariant. *)
Lemma fresh_safety_inv e (σ : Net N Mem) :
  dom (nodes σ) = harness_cluster → packets σ = [] →
  (∀ a st, nodes σ !! a = Some st → ∃ p, st = Up p ∧ fresh e a p) →
  safety_inv (λ v : N, v) harness_cluster σ.
Proof.
  intros Hd Hp Hn. assert (∀ a p, nodes σ !! a = Some (Up p) → fresh e a p) as Hn'.
  { intros a p Ha. destruct (Hn _ _ Ha) as (q & [= <-] & Hq). done. }
  split; [split; [done|]|].
  { intros a st Ha. destruct (Hn _ _ Ha) as (p & -> & Hf).
    destruct (fresh_fields _ _ _ Hf) as (H1 & H2 & H3 & H4 & H5 & _ & _ & H8 & H9).
    split; [done|]. split; [by rewrite H2|]. split; [done|]. rewrite H9. split_and!; simpl; [done|done|].
    by rewrite H5. }
  exists ∅, ∅. split; split; try by (intros *; rewrite ?lookup_empty, ?Hp, ?elem_of_nil).
  - intros v st c Hv Hc. destruct (Hn _ _ Hv) as (p & -> & Hf). apply fresh_fields in Hf. naive_solver congruence.
  - intros n p v Ha Hr. apply Hn', fresh_fields in Ha. naive_solver congruence.
  - intros n p Ha Hr. apply Hn', fresh_fields in Ha. naive_solver congruence.
  - intros n p Ha Hr. apply Hn', fresh_fields in Ha. naive_solver congruence.
  - intros n st Hv. destruct (Hn _ _ Hv) as (p & -> & Hf). apply fresh_fields in Hf as (_ & _ & _ & _ & Hl & _).
    unfold olog; simpl. rewrite Hl. apply agrees_nil.
Qed.

Lemma harness_new_inv e h : harness_new e = Some h → ∃ σ, hinv h σ.
Proof.
  intros Hh. unfold harness_new in Hh. apply bind_Some in Hh as (ns & Hns & Hh). injection Hh as <-.
  cbn [mapM harness_ids] in Hns. fold (fresh e) in Hns.
  apply bind_Some in Hns as (p0 & H0 & Hns). apply bind_Some in Hns as (t & Ht & Hns).
  apply bind_Some in Ht as (p1 & H1 & Ht). apply bind_Some in Ht as (t' & Ht' & Ht).
  apply bind_Some in Ht' as (p2 & H2 & Ht'). injection Ht' as <-. injection Ht as <-. injection Hns as <-.
  set (σ := mkNet (V:=N) (St:=Mem) (list_to_map (zip harness_ids (Up <$> [p0; p1; p2]))) [] []).
  assert (∀ p : HNode, storage p = RaftMemoryStorage_new → with_storage RaftMemoryStorage_new p = p) as Hw.
  { intros p Hs. destruct p. simpl in Hs. by subst. }
  exists σ. split; [split|].
  - done.
  - done.
  - intros i a Hi.
    assert (∃ p, fresh e a p ∧ [p0; p1; p2] !! i = Some p ∧ nodes σ !! a = Some (Up p)) as (p & Hf & Hp & Ha).
    { destruct i as [|[|[|i]]]; simplify_eq/=; eexists; (split; [eassumption|split; [reflexivity|]]); by vm_compute. }
    exists p, RaftMemoryStorage_new. destruct (fresh_fields _ _ _ Hf) as (_ & _ & _ & _ & _ & _ & Hl & _ & Hs).
    split; [split; [done|]|]. { by destruct i as [|[|[|i]]]. }
    rewrite Hw by done. split; [done|]. intros _. by rewrite Hl.
  - intros from to msg Hin. by apply not_elem_of_nil in Hin.
  - apply (fresh_safety_inv e); [by refine (bool_decide_unpack _ _)|done|].
    intros a st Ha. unfold σ in Ha. simpl in Ha.
    repeat (apply lookup_insert_Some in Ha as [[<- <-]|[_ Ha]]; [eauto|]).
    by rewrite lookup_empty in Ha.
Qed.

(** ** The assertions hold *)
Lemma hinv_nodes h σ i p :
  hinv h σ → h_nodes h !! i = Some p → ∃ a m, harness_ids !! i = Some a ∧
    node_at h i p m ∧ nodes σ !! a = Some (Up (with_storage m p)) ∧
    node_ok harness_cluster a (with_storage m p).
Proof.
  intros [Hr Hinv] Hp. destruct (harness_id_lt i) as [a Ha].
  { rewrite <- (hr_count _ _ Hr). by eapply lookup_lt_Some. }
  destruct (hr_node _ _ Hr i a Ha) as (q & m & Hna & Hn & _).
  pose proof (na_node _ _ _ _ Hna) as Hq. rewrite Hp in Hq. injection Hq as <-.
  exists a, m. split_and!; [done..|]. exact (proj2 (proj1 Hinv) a _ Hn).
Qed.

Lemma filter_at_most_one {A} (P : A → Prop) `{!∀ x, base.Decision (P x)} (l : list A) :
  (∀ i j x y, l !! i = Some x → l !! j = Some y → P x → P y → i = j) → length (filter P l) ≤ 1.
Proof.
  induction l as [|x l IH]; intros Hu; [simpl; lia|].
  assert (length (filter P l) ≤ 1) as Hl.
  { apply IH. intros i j y z Hi Hj Hy Hz. by injection (Hu (S i) (S j) y z Hi Hj Hy Hz). }
  rewrite filter_cons. destruct (decide (P x)) as [Hx|]; [|done]. simpl.
  destruct (filter P l) as [|y l'] eqn:Hf; [simpl; lia|exfalso].
  assert (y ∈ filter P l) as Hy by (rewrite Hf; left).
  apply list_elem_of_filter in Hy as [Hy Hin]. apply list_elem_of_lookup_1 in Hin as [i Hi].
  by specialize (Hu 0 (S i) x y eq_refl Hi Hx Hy).
Qed.

Lemma election_safety_asserted h σ : hinv h σ → assert_election_safety h = true.
Proof.
  intros Hi. unfold assert_election_safety. apply forallb_forall. intros t _.
  apply bool_decide_eq_true_2, filter_at_most_one. intros i j p q Hp Hq [Hrp Htp] [Hrq Htq].
  destruct (hinv_nodes _ _ _ _ Hi Hp) as (a & ma & Ha & _ & Hna & _).
  destruct (hinv_nodes _ _ _ _ Hi Hq) as (b & mb & Hb & _ & Hnb & _).
  destruct Hi as [_ (_ & vs & tl & Hei & _)].
  assert (a = b) as ->; [|by eapply harness_ids_nodup].
  pose proof (ei_leader _ _ _ Hei _ _ Hna Hrp) as Hw. pose proof (ei_leader _ _ _ Hei _ _ Hnb Hrq) as Hw'.
  simpl in *. rewrite Htp in Hw. rewrite Htq in Hw'. by eapply won_unique.
Qed.

Lemma all_pairs_true {A} (f : A → A → bool) l :
  (∀ x y, x ∈ l → y ∈ l → f x y = true) → all_pairs f l = true.
Proof.
  induction l as [|x l IH]; intros Hf; [done|]. simpl. apply andb_true_iff. split.
  - apply forallb_forall. intros y Hy. apply Hf; [left|right; by apply list_elem_of_In].
  - apply IH. intros y z Hy Hz. by apply Hf; right.
Qed.

Definition entry_pair (en : LogEntry N) : N * N := (term en, value en).

#[local] Instance entry_pair_inj : Inj (=) (=) entry_pair.
Proof. intros [] [] [= -> ->]. done. Qed.

Lemma match_below_true k li lj :
  matches (entry_pair <$> li) (entry_pair <$> lj) → match_below k li lj = true.
Proof.
  intros Hm. induction k as [|k IH]; simpl; [done|].
  destruct (li !! k) as [x|] eqn:Hx; [|done]. destruct (lj !! k) as [y|] eqn:Hy; [|done].
  destruct (term x =? term y)%N eqn:Ht; [|done]. breflect.
  apply bool_decide_eq_true_2, (inj (fmap entry_pair)). rewrite !fmap_take.
  by apply (Hm k (entry_pair x) (entry_pair y)); rewrite ?list_lookup_fmap, ?Hx, ?Hy.
Qed.

Lemma log_matching_asserted h σ : hinv h σ → assert_log_matching h = true.
Proof.
  intros Hi. unfold assert_log_matching. apply all_pairs_true. intros p q Hp Hq.
  apply list_elem_of_lookup_1 in Hp as [i Hp]. apply list_elem_of_lookup_1 in Hq as [j Hq].
  destruct (hinv_nodes _ _ _ _ Hi Hp) as (a & ma & _ & _ & Hna & _).
  destruct (hinv_nodes _ _ _ _ Hi Hq) as (b & mb & _ & _ & Hnb & _).
  destruct Hi as [_ (_ & vs & tl & _ & Hli)]. apply match_below_true.
  eapply agrees_matches; [exact (li_log _ _ _ _ _ Hli _ _ Hna)|exact (li_log _ _ _ _ _ Hli _ _ Hnb)].
Qed.

Lemma term_monotonicity_asserted h σ : hinv h σ → assert_term_monotonicity h = true.
Proof.
  intros Hi. unfold assert_term_monotonicity. apply forallb_forall. intros [p t] Hin.
  apply list_elem_of_In, list_elem_of_lookup_1 in Hin as [i Hz].
  apply lookup_zip_with_Some in Hz as (p' & t' & [= <- <-] & Hp & Ht).
  destruct (hinv_nodes _ _ _ _ Hi Hp) as (a & m & _ & [_ Hm] & _ & _ & _ & _ & Hm1 & _).
  apply hmem_Some in Hm as (H1 & _). simpl in *. rewrite Ht in H1. injection H1 as ->.
  apply N.leb_le. rewrite Hm1. done.
Qed.

(** ** No step panics *)

(** Terms and slots below the maximum of [u64]. *)
Definition small (h : Harness) : Prop :=
  (∀ p, p ∈ h_nodes h → (current_term p < u64_max)%N ∧ roomy p) ∧
  ∀ ds d, ds ∈ persisted_decisions h → d ∈ ds → (d.1 < u64_max)%N.

Lemma set_at_total {A} (l : list A) i x y : l !! i = Some y → set_at l i x = Some (<[i := x]> l).
Proof. intros Hl%lookup_lt_Some. unfold set_at. by rewrite bool_decide_eq_true_2. Qed.

Lemma set_if_total {A B} (o : option A) (f : A → option B) i (l : list B) y :
  l !! i = Some y → (∀ a, o = Some a → is_Some (f a)) →
  ∃ l' y', set_if o f i l = Some l' ∧ l' !! i = Some y'.
Proof.
  intros Hl Hf. unfold set_if. destruct o as [a|]; [|eauto]. destruct (Hf a eq_refl) as [b ->]. simpl.
  rewrite (set_at_total _ _ _ _ Hl). eexists _, _. split; [done|].
  apply list_lookup_insert_eq. by eapply lookup_lt_Some.
Qed.

Lemma harness_flush_total n h p m :
  node_at h n p m → (∀ a, pending_persist_log_from p = Some a → is_Some (vslice_from (log p) a)) →
  is_Some (harness_flush n h).
Proof.
  intros [Hp Hm] Hs. apply hmem_Some in Hm as (H1 & H2 & H3 & H4 & _).
  unfold harness_flush. rewrite Hp. cbn [mbind option_bind drain_persist_intent].
  rewrite (set_at_total _ _ _ _ Hp). simpl.
  destruct (set_if_total (if pending_persist_term p then Some (current_term p) else None) Some n _ _ H1)
    as (ts & ? & -> & _); [eauto|]. simpl.
  destruct (set_if_total (if pending_persist_voted_for p then Some (voted_for p) else None) Some n _ _ H2)
    as (vs & ? & -> & _); [eauto|]. simpl.
  destruct (set_if_total (pending_truncate_from p)
    (λ i, l ← persisted_log h !! n; Some (vtruncate l i)) n _ _ H3) as (ls & l1 & -> & Hl1).
  { intros a _. rewrite H3. simpl. eauto. }
  simpl.
  match goal with |- context [set_if (pending_persist_log_from p) ?f n ls] =>
    destruct (set_if_total (pending_persist_log_from p) f n ls _ Hl1) as (ls' & ? & -> & _) end.
  { intros a Ha. rewrite Hl1, Ha. simpl. destruct (Hs a Ha) as [es ->]. simpl. eauto. }
  simpl.
  destruct (set_if_total (if pending_persist_commit_index p then Some (commit_index p) else None)
    Some n _ _ H4) as (cs & ? & -> & _); [eauto|]. simpl. eauto.
Qed.

Lemma harness_drain_total n h p m : node_at h n p m → is_Some (harness_drain n h).
Proof.
  intros [Hp Hm]. apply hmem_Some in Hm as (_ & _ & _ & _ & ds & H5 & _).
  unfold harness_drain. rewrite Hp. cbn [mbind option_bind take_decisions].
  rewrite (set_at_total _ _ _ _ Hp). simpl. rewrite H5. simpl. rewrite (set_at_total _ _ _ _ H5).
  simpl. eauto.
Qed.

Lemma after_call_total e ev n a h p m :
  h_ids h !! n = Some a → node_at h n p m → clean p → (current_term p < u64_max)%N → roomy p →
  is_Some (after_call n (run_event e ev p) h).
Proof.
  intros Ha [Hp Hm] Hc Ht Hr. destruct (run_event_total e ev p Hr Ht (proj1 Hc)) as [[p1 out] Hrun].
  unfold after_call. rewrite Hrun. cbn [mbind option_bind].
  rewrite (set_at_total _ _ _ _ Hp). cbn [mbind option_bind].
  assert (node_at {| h with h_nodes := <[n:=p1]> (h_nodes h) |} n p1 m) as Hna.
  { split; [simpl; apply list_lookup_insert_eq; by eapply lookup_lt_Some|exact Hm]. }
  destruct (harness_flush_total _ _ _ _ Hna) as [h1 Hf].
  { intros b Hb. pose proof (run_event_spec _ _ _ _ _ (proj1 Hc) Hrun) as Hes.
    unfold vslice_from. rewrite bool_decide_eq_true_2; [eauto|].
    eapply log_sync_from; [|exact Hb]. by eapply log_step_sync, es_log. }
  rewrite Hf. cbn [mbind option_bind].
  destruct (harness_flush_spec _ _ _ _ _ Hna Hf) as (m2 & _ & Hna2 & [E1 _] & _).
  simpl in E1. rewrite E1, Ha. cbn [mbind option_bind].
  eapply harness_drain_total. split; [exact (na_node _ _ _ _ Hna2)|exact (na_mem _ _ _ _ Hna2)].
Qed.

Lemma harness_restart_total e n h p m ds :
  node_at h n p m → clean p → persisted_decisions h !! n = Some ds →
  (∀ d, d ∈ ds → (d.1 < u64_max)%N) → is_Some (harness_restart e n h).
Proof.
  intros Hna Hc Hds Hb. unfold harness_restart.
  destruct (harness_flush_total _ _ _ _ Hna) as [h1 Hf].
  { intros a. by rewrite (proj2 (proj1 Hc)). }
  rewrite Hf. cbn [mbind option_bind].
  assert (persisted_decisions h1 = persisted_decisions h) as Hd1.
  { unfold harness_flush in Hf. rewrite (na_node _ _ _ _ Hna) in Hf.
    cbn [mbind option_bind drain_persist_intent] in Hf. do 6 (apply bind_Some in Hf as (? & _ & Hf)).
    by injection Hf as <-. }
  destruct (clean_flush _ _ _ _ _ Hc Hna Hf) as ([Hp Hm] & _ & _).
  pose proof (hmem_Some _ _ _ Hm) as (H1 & H2 & H3 & H4 & _). rewrite Hd1.
  rewrite Hp, H1, H2, H3, H4, Hds. cbn [mbind option_bind].
  match goal with |- is_Some (restore_state ?a ?b ?c ?d ?f ?g ?k ≫= _) =>
    assert (is_Some (restore_state a b c d f g k)) as [q ->] end.
  - unfold restore_state. apply apply_committed_total; simpl.
    + intros c Hcc. destruct (match m_commit_index m with Some _ => _ | None => _ end) as [x|]; [|done].
      unfold vlast_index, vlen in *. destruct (m_log m); simplify_eq/=. lia.
    + intros a Ha%max_slot_in. apply list_elem_of_fmap_1 in Ha as (d & -> & Hd). by apply Hb.
  - cbn [mbind option_bind]. rewrite (set_at_total _ _ _ _ Hp). cbn [mbind option_bind]. eauto.
Qed.

Lemma harness_step_total e s h σ : hinv h σ → small h → is_Some (harness_step e s h).
Proof.
  intros Hi [Hsm Hds]. pose proof Hi as [Hr _].
  assert (∀ n a ev h1, harness_ids !! n = Some a → hrel h1 σ → h_nodes h1 = h_nodes h →
    is_Some (p ← h_nodes h1 !! n; after_call n (run_event e ev p) h1)) as Hcall.
  { intros n a ev h1 Ha Hr1 Hns. destruct (hr_node _ _ Hr1 n a Ha) as (p & m & Hna & Hn & _).
    pose proof (na_node _ _ _ _ Hna) as Hp. rewrite Hp. cbn [mbind option_bind].
    destruct (proj2 (proj1 (proj2 Hi)) a _ Hn) as (_ & _ & Hc & _).
    rewrite Hns in Hp. destruct (Hsm p) as [Ht Hro]; [by eapply list_elem_of_lookup_2|].
    eapply after_call_total; try done. by rewrite (hr_ids _ _ Hr1). }
  destruct s as [n|i|i|x y|n v|n]; cbn [harness_step].
  - destruct (node_index_id n) as [a Ha].
    apply (Hcall _ a (EvTick (h_now h + from_millis 50)%N)); [done|by apply (hrel_queue h)|done].
  - case_bool_decide as Hq; [eauto|]. unfold queue_remove.
    destruct (lookup_lt_is_Some_2 (h_queue h) (i mod length (h_queue h))) as [[[from to] msg] ->].
    { apply Nat.mod_upper_bound. by destruct (h_queue h). }
    cbn [mbind option_bind]. set (h1 := {| h with h_queue := _ |}).
    destruct (idx_of h1 to) as [t|] eqn:Ht; [|eauto]. apply idx_of_Some in Ht.
    assert (hrel h1 σ) as Hr1.
    { apply (hrel_queue h); [done|]. intros z [Hz|Hz]%elem_of_app;
        [by eapply subseteq_take|by eapply subseteq_drop]. }
    rewrite (hr_ids _ _ Hr1) in Ht. by apply (Hcall _ to (EvReceive from msg)).
  - case_bool_decide as Hq; [eauto|]. unfold queue_remove.
    destruct (lookup_lt_is_Some_2 (h_queue h) (i mod length (h_queue h))) as [z ->]; [|simpl; eauto].
    apply Nat.mod_upper_bound. by destruct (h_queue h).
  - case_bool_decide as Hq; [eauto|]. unfold queue_swap.
    destruct (lookup_lt_is_Some_2 (h_queue h) (x mod length (h_queue h))) as [z ->];
      [apply Nat.mod_upper_bound; lia|]. simpl.
    destruct (lookup_lt_is_Some_2 (h_queue h) (y mod length (h_queue h))) as [w ->];
      [apply Nat.mod_upper_bound; lia|]. simpl. eauto.
  - destruct (node_index_id n) as [a Ha]. by apply (Hcall _ a (EvPropose v)).
  - destruct (node_index_id n) as [a Ha]. destruct (hr_node _ _ Hr _ a Ha) as (p & m & Hna & Hn & _).
    destruct (proj2 (proj1 (proj2 Hi)) a _ Hn) as (_ & _ & Hc & _).
    pose proof (hmem_Some _ _ _ (na_mem _ _ _ _ Hna)) as (_ & _ & _ & _ & ds & H5 & _).
    eapply harness_restart_total; [done|done|done|]. intros d. apply Hds. by eapply list_elem_of_lookup_2.
Qed.

(** ** The property test *)

(** The steps without the assertions. *)
Fixpoint harness_run (steps : list (Env * Step)) (h : Harness) : option Harness :=
  match steps with
  | [] => Some h
  | (e, s) :: steps => h ← harness_step e s h; harness_run steps h
  end.

Lemma harness_run_inv steps h σ h' : hinv h σ → harness_run steps h = Some h' → ∃ σ', hinv h' σ'.
Proof.
  revert h σ. induction steps as [|[e s] steps IH]; intros h σ Hi Hr; simpl in Hr.
  - injection Hr as <-. eauto.
  - apply bind_Some in Hr as (h1 & Hs & Hr). destruct (harness_step_inv _ _ _ _ _ Hi Hs) as [σ1 Hi1].
    by eapply IH.
Qed.

(** C10. The property test, for every list of steps: from a new harness,
    under any clock and randomness, whatever is ticked, delivered, dropped,
    reordered, proposed and restarted, the election safety, log matching and
    term assertions hold after the last step; and no further step panics while terms and
    slots are below the maximum of [u64]. *)
Theorem harness_assertions e0 h0 steps h :
  harness_new e0 = Some h0 → harness_run steps h0 = Some h →
  assert_election_safety h = true ∧ assert_log_matching h = true ∧
  assert_term_monotonicity h = true ∧
  (small h → ∀ e s, is_Some (harness_step e s h)).
Proof.
  intros Hnew Hrun. destruct (harness_new_inv _ _ Hnew) as [σ0 Hi0].
  destruct (harness_run_inv _ _ _ _ Hi0 Hrun) as [σ Hi].
  split_and!; [by eapply election_safety_asserted|by eapply log_matching_asserted
    |by eapply term_monotonicity_asserted|].
  intros Hs e s. by eapply harness_step_total.
Qed.

Module HarnessRun.
Definition e : Env := mkEnv 0 0.
Definition start : Harness := default (mkHarness [] [] [] 0 [] [] [] [] []) (harness_new e).
Definition final (steps : list Step) : option (Harness * bool) :=
  random_steps_preserve_invariants (map (pair e) steps) start.

(** A leader commits two entries in term 1 with one follower; a delayed
    heartbeat of the same term makes that follower discard the second, and a
    third node is elected in term 2 by its vote and commits another value in
    the same slot. *)
Definition diverging : list Step :=
  [Tick 0; Tick 0; Deliver 0; Deliver 1; Deliver 0; Propose 0 10; Tick 0; Propose 0 11;
   Deliver 3; Deliver 6; Deliver 8; Deliver 4; Deliver 3; Tick 2; Deliver 9; Deliver 9;
   Propose 2 12; Deliver 12; Deliver 12].

Lemma harness_assertions_witness :
  ∃ h, harness_run (map (pair e) diverging) start = Some h ∧
    assert_election_safety h = true ∧ assert_log_matching h = true ∧
    assert_term_monotonicity h = true.
Proof.
  destruct (harness_run (map (pair e) diverging) start) as [h|] eqn:Hr;
    [|exfalso; revert Hr; vm_compute; discriminate].
  exists h. split; [reflexivity|].
  destruct (harness_assertions e start (map (pair e) diverging) h) as (H1 & H2 & H3 & _);
    [vm_compute; reflexivity|exact Hr|]. split; [exact H1|]. split; [exact H2|exact H3].
Defined.

(** C38. The state machine safety assertion of the property test can fail: 19
    steps in the ranges the test draws from, with no restart and no message
    lost, deliver 11 and 12 in slot 1. The queue of the harness is not in
    order, and the handler of a heartbeat discards entries after the ones it
    verified. *)
Theorem property_test_falsifiable :
  forallb step_strategy diverging && (length diverging <? 256) = true ∧ ∃ h, final diverging = Some (h, false) ∧ assert_state_machine_safety h = false ∧
    persisted_decisions h = [[(0, 10); (1, 11)]; []; [(0, 10); (1, 12)]]%N.
Proof.
  split; [reflexivity|]. assert (match final diverging with
    | Some (h, b) => negb b && negb (assert_state_machine_safety h) &&
        bool_decide (persisted_decisions h = [[(0, 10); (1, 11)]; []; [(0, 10); (1, 12)]]%N)
    | None => false end = true) as Hb by (vm_compute; reflexivity).
  destruct (final diverging) as [[h [|]]|]; [done| |done]. exists h. split; [done|].
  simpl in Hb. apply andb_true_iff in Hb as [H1 H2]. apply bool_decide_eq_true_1 in H2.
  by destruct (assert_state_machine_safety h).
Qed.

(** The sanity test of the harness passes. *)
Lemma harness_sanity : harness_basic_election_and_propose (mkEnv (from_secs 1) 0) = Some true.
Proof. vm_compute. reflexivity. Qed.
End HarnessRun.
