(* ===== verification/Testing.v ===== *)
(** * Unit tests as definitions

    The unit tests of the repository are programs over the code: they build a
    protocol, change its fields, call its methods and assert. A test is
    translated into a computation over the state it builds; a panic of the code
    and a failed assertion are [None]. Evaluating the tests on the model checks
    the model against what the code's authors expect of it. *)

From S2P Require Import Prelude.

Section testing.
Context {S : Type}.

Definition Test (A : Type) : Type := S → option (S * A).

Definition tbind {A B} (m : Test A) (f : A → Test B) : Test B :=
  λ s, '(s, a) ← m s; f a s.

(** Direct access to the fields. *)
Definition modify (f : S → S) : Test unit := λ s, Some (f s, tt).

(** A method that cannot panic. *)
Definition lift {A} (f : S → S * A) : Test A := λ s, Some (f s).

(** A method that returns nothing. *)
Definition lift_opt (f : S → option S) : Test unit := λ s, (λ s, (s, tt)) <$> f s.

(** [assert!]. *)
Definition expect (f : S → bool) : Test unit := λ s, if f s then Some (s, tt) else None.

Definition passes (s : option S) (t : Test unit) : bool := is_some (s ≫= t).
End testing.
Arguments Test : clear implicits.

Declare Scope test_scope.
Delimit Scope test_scope with test.
Notation "'let!' x := m 'in' k" := (tbind m (λ x, k%test))
  (at level 200, x name, m at level 100, k at level 200, right associativity) : test_scope.
Notation "m ;; k" := (tbind m (λ _, k%test))
  (at level 100, k at level 200, right associativity) : test_scope.
