(* ===== verification/RaftTests.v ===== *)
(** * Raft: the unit tests of the protocol

    The tests of [daccord/src/protocol/raft.rs] under the names they have
    there. The one on the JSON form of a message is left out. *)

From stdpp Require Import strings.
From S2P Require Import Prelude Types Storage Raft Testing.

Open Scope test_scope.

Module RaftTests.
Abbreviation TP := (RaftProtocol string (RaftMemoryStorage string)).
Abbreviation TOut := (list (Outgoing (RaftMessage string))).

Section tests.
(** The clock during the test and the jitter of the election timeout. *)
Context (e : Env).
Let now : Instant := env_now e.

Definition nid (n : string) : NodeId := mkNodeId n 1.
Definition ent (t : N) (v : string) : LogEntry string := mkEntry t v.

(** [raft(NodeId::new(n, 1), total, RaftConfig::default())]. *)
Definition raft (n : string) (total : nat) : option TP :=
  new e (nid n) total RaftConfig_default RaftMemoryStorage_new.

Definition receive (from : string) (msg : RaftMessage string) : Test TP TOut :=
  handle_message e (nid from) msg.
Definition tick : Test TP TOut := on_tick e now.
Definition submit (v : string) : Test TP TOut := propose e v.
Definition decisions : Test TP (list (Decision string)) := lift take_decisions.
Definition intent : Test TP (PersistIntent string) := lift drain_persist_intent.
Definition restore (t : N) (vf : option NodeId) (l : list (LogEntry string))
    (ds : list (N * string)) (ci : option N) : Test TP unit :=
  lift_opt (restore_state e t vf l ds ci).

(** [p.election_deadline = Instant::now() - d]. *)
Definition deadline_before (d : Duration) : Test TP unit :=
  modify (λ p, {| p with election_deadline := (now - d)%N |}).
Definition with_term (t : N) : Test TP unit := modify (λ p, {| p with current_term := t |}).
Definition with_log (l : list (LogEntry string)) : Test TP unit := modify (λ p, {| p with log := l |}).
(** [p.role = Role::Leader; p.current_term = t; p.leader = Some(me)]. *)
Definition as_leader (t : N) : Test TP unit :=
  modify (λ p, {| p with role := Leader; current_term := t; leader := Some (node_id p) |}).

(** An empty AppendEntries without a previous entry. *)
Definition heartbeat (t : N) (l : string) : RaftMessage string := AppendEntries t (nid l) None 0 [] None.

(** The message and the target of the first output. *)
Definition first_is (out : TOut) (f : RaftMessage string → bool) : bool :=
  match out !! 0 with Some o => f (message o) | None => false end.
Definition first_to (out : TOut) (n : string) : bool :=
  match target <$> out !! 0 with Some (Peer t) => bool_decide (t = nid n) | _ => false end.
Definition first_broadcast (out : TOut) : bool :=
  match target <$> out !! 0 with Some Broadcast => true | _ => false end.
(** [find_map] over the AppendEntriesResponses. *)
Definition find_response (out : TOut) : option (bool * option N) :=
  head (omap (λ o, match message o with
    | AppendEntriesResponse _ ok mi _ _ => Some (ok, mi) | _ => None end) out).
Definition values (l : list (LogEntry string)) : list string := value <$> l.
Definition slots (ds : list (Decision string)) : list (N * string) := (λ d, (d_slot d, d_value d)) <$> ds.
Definition role_is (r : Role) (p : TP) : bool := bool_decide (role p = r).

(** ** Construction *)
Definition new_raft_protocol_starts_as_follower : bool :=
  passes (raft "a" 3) (expect (λ p, role_is Follower p && (current_term p =? 0)%N && negb (is_some (voted_for p)))).

Definition is_idle_when_log_empty : bool := passes (raft "a" 3) (expect is_idle).
Definition quorum_for_three_nodes : bool := passes (raft "a" 3) (expect (λ p, quorum p =? 2)).
Definition quorum_for_five_nodes : bool := passes (raft "a" 5) (expect (λ p, quorum p =? 3)).

(** ** Elections *)
Definition election_timeout_starts_election : bool := passes (raft "a" 3) (
  deadline_before (from_millis 10);;
  let! out := tick in
  expect (λ p, role_is Candidate p && (current_term p =? 1)%N &&
    bool_decide (voted_for p = Some (node_id p)) && (length out =? 1) && first_broadcast out &&
    first_is out (λ m, match m with RequestVote 1 _ _ _ => true | _ => false end) &&
    bool_decide (node_id p ∈ votes_received p))).

Definition request_vote_grants_when_term_higher : bool := passes (raft "a" 3) (
  let! out := receive "b" (RequestVote 5 (nid "b") None 0) in
  expect (λ p, (current_term p =? 5)%N && bool_decide (voted_for p = Some (nid "b")) && (length out =? 1) &&
    first_is out (λ m, match m with RequestVoteResponse t g => (t =? 5)%N && g | _ => false end) &&
    first_to out "b")).

Definition request_vote_rejects_lower_term : bool := passes (raft "a" 3) (
  with_term 5;;
  let! out := receive "b" (RequestVote 3 (nid "b") None 0) in
  expect (λ p, (current_term p =? 5)%N &&
    first_is out (λ m, match m with RequestVoteResponse 5 false => true | _ => false end))).

Definition request_vote_rejects_stale_log : bool := passes (raft "a" 3) (
  with_log [ent 3 "x"];; with_term 3;;
  let! out := receive "b" (RequestVote 4 (nid "b") None 0) in
  expect (λ _, first_is out (λ m, match m with RequestVoteResponse _ g => negb g | _ => false end))).

Definition request_vote_already_voted_in_same_term_rejects_other : bool := passes (raft "a" 3) (
  receive "b" (RequestVote 5 (nid "b") None 0);;
  expect (λ p, bool_decide (voted_for p = Some (nid "b")));;
  let! out := receive "c" (RequestVote 5 (nid "c") None 0) in
  expect (λ _, first_is out (λ m, match m with RequestVoteResponse _ false => true | _ => false end))).

Definition vote_quorum_promotes_to_leader_and_heartbeats : bool := passes (raft "a" 3) (
  deadline_before (from_millis 1);; tick;; expect (role_is Candidate);;
  let! out := receive "b" (RequestVoteResponse 1 true) in
  expect (λ p, role_is Leader p && bool_decide (leader p = Some (nid "a")) && (length out =? 1) &&
    first_broadcast out &&
    first_is out (λ m, match m with AppendEntries 1 _ _ _ [] _ => true | _ => false end))).

Definition higher_term_steps_down_to_follower : bool := passes (raft "a" 3) (
  modify (λ p, {| p with role := Leader; current_term := 3; voted_for := Some (node_id p) |});;
  receive "b" (RequestVote 5 (nid "b") None 0);;
  expect (λ p, (current_term p =? 5)%N && role_is Follower p)).

Definition vote_response_for_old_term_ignored : bool := passes (raft "a" 3) (
  deadline_before (from_millis 1);; tick;;
  let! out := receive "b" (RequestVoteResponse 0 true) in
  expect (λ p, (length out =? 0) && role_is Candidate p)).

Definition granting_vote_resets_election_deadline : bool := passes (raft "a" 3) (
  deadline_before (from_secs 1);;
  receive "b" (RequestVote 5 (nid "b") None 0);;
  expect (λ p, now - from_secs 1 <? election_deadline p)%N).

(** ** AppendEntries *)
Definition append_entries_resets_election_timer_and_accepts_leader : bool := passes (raft "a" 3) (
  deadline_before (from_secs 1);;
  let! out := receive "b" (heartbeat 1 "b") in
  expect (λ p, (current_term p =? 1)%N && role_is Follower p && bool_decide (leader p = Some (nid "b")) &&
    (now - from_secs 1 <? election_deadline p)%N &&
    first_is out (λ m, match m with AppendEntriesResponse 1 true _ _ _ => true | _ => false end) &&
    first_to out "b")).

Definition append_entries_rejects_lower_term : bool := passes (raft "a" 3) (
  with_term 5;;
  let! out := receive "b" (heartbeat 3 "b") in
  expect (λ _, first_is out (λ m, match m with AppendEntriesResponse 5 false _ _ _ => true | _ => false end))).

Definition rejected (out : TOut) : bool :=
  first_is out (λ m, match m with AppendEntriesResponse _ false _ _ _ => true | _ => false end).

Definition append_entries_rejects_log_gap : bool := passes (raft "a" 3) (
  let! out := receive "b" (AppendEntries 1 (nid "b") (Some 2%N) 1 [ent 1 "x"] None) in
  expect (λ p, rejected out && (length (log p) =? 0))).

Definition append_entries_rejects_term_mismatch_at_prev : bool := passes (raft "a" 3) (
  with_log [ent 1 "old"];; with_term 1;;
  let! out := receive "b" (AppendEntries 1 (nid "b") (Some 0%N) 5 [] None) in
  expect (λ _, rejected out)).

Definition append_entries_appends_when_prev_matches : bool := passes (raft "a" 3) (
  receive "b" (AppendEntries 1 (nid "b") None 0 [ent 1 "x"] None);;
  expect (λ p, bool_decide (values (log p) = ["x"]));;
  receive "b" (AppendEntries 1 (nid "b") (Some 0%N) 1 [ent 1 "y"] None);;
  expect (λ p, (length (log p) =? 2) && bool_decide (values (log p) !! 1 = Some "y"))).

Definition append_entries_truncates_conflicting_suffix : bool := passes (raft "a" 3) (
  with_term 2;; with_log [ent 1 "a"; ent 1 "stale"];;
  receive "b" (AppendEntries 2 (nid "b") (Some 0%N) 1 [ent 2 "fresh"] None);;
  expect (λ p, bool_decide (values (log p) = ["a"; "fresh"]) && bool_decide (term <$> log p !! 1 = Some 2%N))).

Definition stale_log : list (LogEntry string) :=
  [ent 1 "0"; ent 1 "1"; ent 1 "2"; ent 2 "stale-3"; ent 2 "stale-4"; ent 2 "stale-5"].

Definition empty_heartbeat_match_index_reflects_only_prev_log_index_with_stale_suffix : bool :=
  passes (raft "a" 3) (
  with_term 5;; with_log stale_log;;
  let! out := receive "b" (AppendEntries 5 (nid "b") (Some 2%N) 1 [] None) in
  expect (λ p, bool_decide (find_response out = Some (true, Some 2%N)) && (length (log p) =? 3))).

Definition append_entries_match_index_excludes_stale_suffix_beyond_request : bool := passes (raft "a" 3) (
  with_term 5;; with_log stale_log;;
  let! out := receive "b" (AppendEntries 5 (nid "b") (Some 2%N) 1 [ent 5 "new-3"; ent 5 "new-4"] None) in
  expect (λ _, bool_decide (snd <$> find_response out = Some (Some 4%N)))).

Definition append_entries_match_index_none_for_empty_initial_heartbeat : bool := passes (raft "a" 3) (
  let! out := receive "b" (heartbeat 1 "b") in
  expect (λ _, bool_decide (snd <$> find_response out = Some None))).

Definition append_entries_match_index_when_prev_none_with_entries : bool := passes (raft "a" 3) (
  let! out := receive "b" (AppendEntries 1 (nid "b") None 0 [ent 1 "x"; ent 1 "y"] None) in
  expect (λ _, bool_decide (snd <$> find_response out = Some (Some 1%N)))).

Definition append_entries_idempotent_for_already_present_entries : bool := passes (raft "a" 3) (
  with_term 1;; with_log [ent 1 "a"; ent 1 "b"];;
  receive "b" (AppendEntries 1 (nid "b") (Some 0%N) 1 [ent 1 "b"] None);;
  expect (λ p, (length (log p) =? 2) && bool_decide (values (log p) !! 1 = Some "b"))).

Definition leader_commit_advances_commit_index_and_yields_decisions : bool := passes (raft "a" 3) (
  receive "b" (AppendEntries 1 (nid "b") None 0 [ent 1 "x"; ent 1 "y"] (Some 1%N));;
  expect (λ p, bool_decide (commit_index p = Some 1%N));;
  let! ds := decisions in
  expect (λ _, bool_decide (slots ds = [(0%N, "x"); (1%N, "y")]))).

Definition leader_commit_is_capped_at_last_log_index : bool := passes (raft "a" 3) (
  receive "b" (AppendEntries 1 (nid "b") None 0 [ent 1 "x"] (Some 99%N));;
  expect (λ p, bool_decide (commit_index p = Some 0%N))).

Definition empty_heartbeat_does_not_commit_unverified_stale_suffix : bool := passes (raft "f" 3) (
  with_term 5;; with_log [ent 1 "a"; ent 1 "b"; ent 1 "c"; ent 2 "d"; ent 2 "e"];;
  receive "L2" (AppendEntries 5 (nid "L2") (Some 2%N) 1 [] (Some 3%N));;
  expect (λ p, bool_decide (commit_index p = Some 2%N))).

Definition empty_heartbeat_with_no_prev_does_not_commit : bool := passes (raft "f" 3) (
  with_term 5;; with_log [ent 2 "stale"];;
  receive "L2" (AppendEntries 5 (nid "L2") None 0 [] (Some 0%N));;
  expect (λ p, bool_decide (commit_index p = None))).

Definition successful_heartbeat_truncates_unverified_stale_suffix : bool := passes (raft "f" 3) (
  with_term 5;; with_log [ent 1 "a"; ent 1 "b"; ent 1 "c"; ent 2 "stale-d"; ent 2 "stale-e"];;
  receive "L2" (AppendEntries 5 (nid "L2") (Some 2%N) 1 [] None);;
  expect (λ p, (length (log p) =? 3) && bool_decide (pending_truncate_from p = Some 3%N))).

Definition successful_appendentries_truncates_suffix_past_new_entries : bool := passes (raft "f" 3) (
  with_term 5;;
  with_log [ent 1 "a"; ent 1 "b"; ent 1 "c"; ent 2 "stale-d"; ent 2 "stale-e"; ent 2 "stale-f"];;
  receive "L2" (AppendEntries 5 (nid "L2") (Some 2%N) 1 [ent 5 "new-d"] None);;
  expect (λ p, (length (log p) =? 4) && bool_decide (log p !! 3 = Some (ent 5 "new-d")))).

(** ** The leader *)
Definition leader_propose_appends_to_log_and_emits_append_entries : bool := passes (raft "a" 3) (
  as_leader 1;;
  let! out := submit "hello" in
  expect (λ p, bool_decide (log p = [ent 1 "hello"]) && bool_decide (match_index p !! nid "a" = Some (Some 0%N)) &&
    existsb (λ o, match message o with
      | AppendEntries _ _ _ _ es _ => bool_decide (values es = ["hello"]) | _ => false end) out)).

(** [p.match_index.insert(me, Some(0))]. *)
Definition own_match : Test TP unit :=
  modify (λ p, {| p with match_index := <[node_id p := Some 0%N]> (match_index p) |}).

Definition leader_advances_commit_on_majority_match : bool := passes (raft "a" 3) (
  as_leader 1;; with_log [ent 1 "x"];; own_match;;
  receive "b" (AppendEntriesResponse 1 true (Some 0%N) None None);;
  expect (λ p, bool_decide (commit_index p = Some 0%N));;
  let! ds := decisions in
  expect (λ _, bool_decide (slots ds = [(0%N, "x")]))).

Definition leader_does_not_commit_entry_from_prior_term : bool := passes (raft "a" 3) (
  as_leader 5;; with_log [ent 3 "old"];; own_match;;
  receive "b" (AppendEntriesResponse 5 true (Some 0%N) None None);;
  expect (λ p, bool_decide (commit_index p = None))).

Definition leader_response_for_old_term_ignored : bool := passes (raft "a" 3) (
  as_leader 5;;
  receive "b" (AppendEntriesResponse 3 true (Some 0%N) None None);;
  expect (λ p, bool_decide (match_index p = ∅) && bool_decide (commit_index p = None))).

(** [(0..n).map(|i| LogEntry { term: t, value: format!("v{i}") })]. *)
Definition numbered (t : N) (n : nat) : list (LogEntry string) :=
  (λ i, ent t (String.append "v" (pretty (N.of_nat i)))) <$> seq 0 n.
Definition next_of (n : string) (i : N) : Test TP unit :=
  modify (λ p, {| p with next_index := <[nid n := i]> (next_index p) |}).

Definition leader_rewinds_next_index_on_rejection : bool := passes (raft "a" 3) (
  as_leader 1;; with_log (numbered 1 5);; next_of "b" 5;;
  let! out := receive "b" (AppendEntriesResponse 1 false None None None) in
  expect (λ p, bool_decide (next_index p !! nid "b" = Some 4%N) &&
    first_is out (λ m, match m with AppendEntries _ _ _ _ _ _ => true | _ => false end))).

Definition leader_falls_back_to_decrement_when_no_conflict_index_hint : bool := passes (raft "a" 3) (
  as_leader 5;; with_log (numbered 5 5);; next_of "b" 5;;
  receive "b" (AppendEntriesResponse 5 false None None None);;
  expect (λ p, bool_decide (next_index p !! nid "b" = Some 4%N))).

Definition leader_uses_conflict_index_to_rewind_next_index_in_one_step : bool := passes (raft "a" 3) (
  as_leader 5;; with_log (numbered 5 10);; next_of "b" 9;;
  let! out := receive "b" (AppendEntriesResponse 5 false None None (Some 2%N)) in
  expect (λ p, bool_decide (next_index p !! nid "b" = Some 2%N) &&
    first_is out (λ m, match m with AppendEntries _ _ (Some 1%N) _ es _ => length es =? 8 | _ => false end))).

Definition leader_uses_conflict_term_to_skip_shared_prefix : bool := passes (raft "a" 3) (
  as_leader 7;; with_log [ent 1 "a"; ent 1 "b"; ent 1 "c"; ent 7 "d"; ent 7 "e"];; next_of "b" 5;;
  let! out := receive "b" (AppendEntriesResponse 7 false None (Some 1%N) (Some 0%N)) in
  expect (λ p, bool_decide (next_index p !! nid "b" = Some 3%N) &&
    first_is out (λ m, match m with AppendEntries _ _ (Some 2%N) _ es _ => length es =? 2 | _ => false end))).

Definition leader_ignores_match_index_past_own_log : bool := passes (raft "a" 3) (
  as_leader 1;;
  let! out := receive "b" (AppendEntriesResponse 1 true (Some u64_max) None None) in
  expect (λ p, (length out =? 0) && bool_decide (commit_index p = None) &&
    forallb (λ kv, negb (bool_decide (kv.2 = Some u64_max))) (map_to_list (match_index p)))).

Definition leader_does_not_advance_commit_past_log_end : bool := passes (raft "a" 3) (
  as_leader 1;; with_log [ent 1 "x"];; own_match;;
  receive "b" (AppendEntriesResponse 1 true (Some 99%N) None None);;
  expect (λ p, match commit_index p with None => true | Some c => c <? vlen (log p) end)%N).

Definition leader_rejects_same_term_appendentries_from_other_leader : bool := passes (raft "a" 3) (
  as_leader 5;; with_log [ent 5 "ours"];;
  let! out := receive "rogue" (AppendEntries 5 (nid "rogue") None 0 [ent 5 "theirs"] None) in
  expect (λ p, role_is Leader p && bool_decide (values (log p) = ["ours"]) &&
    first_is out (λ m, match m with AppendEntriesResponse 5 false _ _ _ => true | _ => false end))).

Definition leader_does_not_heartbeat_within_interval : bool := passes (raft "a" 3) (
  as_leader 1;; modify (λ p, {| p with last_heartbeat_sent := Some now |});;
  let! out := tick in expect (λ _, length out =? 0)).

Definition three_node_raft_does_not_commit_immediately_on_propose : bool := passes (raft "a" 3) (
  as_leader 1;; submit "hello";;
  expect (λ p, bool_decide (commit_index p = None));;
  let! ds := decisions in expect (λ _, length ds =? 0)).

Definition stale_leader_steps_down_on_higher_term_heartbeat : bool := passes (raft "a" 3) (
  as_leader 3;; modify (λ p, {| p with voted_for := Some (nid "a") |});;
  receive "b" (heartbeat 5 "b");;
  expect (λ p, role_is Follower p && (current_term p =? 5)%N && bool_decide (leader p = Some (nid "b")))).

(** ** Proposals and forwarding *)
Definition pending_are (l : list string) (p : TP) : bool := bool_decide (pending_proposals p = l).
Definition lost : Test TP (list string) := lift take_lost_proposals.

Definition re_election_drains_pending_proposals_to_lost : bool := passes (raft "a" 5) (
  submit "x";; submit "y";; expect (λ p, length (pending_proposals p) =? 2);;
  deadline_before (from_millis 1);; tick;;
  expect (λ p, role_is Candidate p && (length (pending_proposals p) =? 2));;
  deadline_before (from_millis 1);; tick;;
  expect (λ p, role_is Candidate p && pending_are [] p);;
  let! l := lost in expect (λ _, bool_decide (l = ["x"; "y"]));;
  let! l := lost in expect (λ _, bool_decide (l = []))).

(** A Forward of [v] in [hops] to the node [n] among the outputs. *)
Definition forwards_to (n : string) (v : string) (hops : N) (out : TOut) : bool :=
  existsb (λ o, match target o, message o with
    | Peer t, Forward v' h => bool_decide (t = nid n) && bool_decide (v' = v) && (h =? hops)%N
    | _, _ => false end) out.

Definition forward_chain_drops_after_max_hops : bool := passes (raft "a" 3) (
  receive "c" (heartbeat 1 "c");;
  let! out := receive "b" (Forward "ttl" (MAX_FORWARD_HOPS - 1)) in
  expect (λ p, (length out =? 0) && pending_are [] p)).

Definition forward_chain_increments_hops_below_max : bool := passes (raft "a" 3) (
  receive "c" (heartbeat 1 "c");;
  let! out := receive "b" (Forward "relay" 1) in
  expect (λ _, match head (omap (λ o, match target o, message o with
    | Peer t, Forward v h => if bool_decide (t = nid "c") then Some (v, h) else None
    | _, _ => None end) out) with Some x => bool_decide (x = ("relay", 2%N)) | None => false end)).

Definition follower_forwards_proposal_to_known_leader : bool := passes (raft "a" 3) (
  receive "b" (heartbeat 1 "b");; expect (λ p, bool_decide (leader p = Some (nid "b")));;
  let! out := submit "hello" in
  expect (λ p, (length out =? 1) && forwards_to "b" "hello" 0 out && pending_are [] p)).

Definition follower_buffers_proposal_when_no_leader_known : bool := passes (raft "a" 3) (
  expect (λ p, negb (is_some (leader p)));;
  let! out := submit "hello" in
  expect (λ p, (length out =? 0) && pending_are ["hello"] p)).

Definition leader_handles_forwarded_proposal_as_normal_propose : bool := passes (raft "a" 3) (
  as_leader 1;; receive "b" (Forward "from-b" 0);;
  expect (λ p, bool_decide (values (log p) = ["from-b"]))).

Definition pending_proposals_drained_as_forwards_when_leader_learned : bool := passes (raft "a" 3) (
  submit "buffered";; expect (λ p, length (pending_proposals p) =? 1);;
  let! out := receive "b" (heartbeat 1 "b") in
  expect (λ p, pending_are [] p && existsb (λ o, match message o with
    | Forward v 0 => bool_decide (v = "buffered") | _ => false end) out)).

Definition non_leader_buffers_received_forward_when_no_leader_known : bool := passes (raft "a" 3) (
  let! out := receive "b" (Forward "x" 0) in
  expect (λ p, (length out =? 0) && (length (log p) =? 0) && pending_are ["x"] p)).

Definition non_leader_chain_forwards_received_forward_to_known_leader : bool := passes (raft "a" 3) (
  receive "c" (heartbeat 1 "c");;
  let! out := receive "b" (Forward "relay" 0) in
  expect (λ p, pending_are [] p && forwards_to "c" "relay" 1 out)).

Definition non_leader_buffers_forward_when_sender_is_believed_leader : bool := passes (raft "a" 3) (
  receive "b" (heartbeat 1 "b");;
  let! out := receive "b" (Forward "loop-guard" 0) in
  expect (λ p, (length out =? 0) && pending_are ["loop-guard"] p)).

Definition old_leader_after_term_bump_chain_forwards : bool := passes (raft "a" 3) (
  as_leader 5;; receive "b" (heartbeat 7 "b");;
  expect (λ p, role_is Follower p && bool_decide (leader p = Some (nid "b")));;
  let! out := receive "c" (Forward "delayed" 0) in
  expect (λ p, (length (log p) =? 0) && forwards_to "b" "delayed" 1 out)).

Definition buffered_proposals_drain_when_self_becomes_leader : bool := passes (raft "a" 3) (
  submit "x";; submit "y";; expect (λ p, length (pending_proposals p) =? 2);;
  deadline_before (from_millis 1);; tick;; expect (role_is Candidate);;
  let! out := receive "b" (RequestVoteResponse 1 true) in
  expect (λ p, role_is Leader p && pending_are [] p && bool_decide (values (log p) = ["x"; "y"]) &&
    (length out =? 1) && first_is out (λ m, match m with
      | AppendEntries _ _ _ _ es _ => bool_decide (values es = ["x"; "y"]) | _ => false end))).

(** ** Conflict hints *)
Definition conflict_is (ct ci : option N) (out : TOut) : bool :=
  first_is out (λ m, match m with
    | AppendEntriesResponse _ false _ ct' ci' => bool_decide (ct' = ct) && bool_decide (ci' = ci)
    | _ => false end).

Definition follower_reports_conflict_index_on_log_gap : bool := passes (raft "a" 3) (
  with_term 5;;
  let! out := receive "b" (AppendEntries 5 (nid "b") (Some 3%N) 2 [] None) in
  expect (λ _, conflict_is None (Some 0%N) out)).

Definition follower_reports_conflict_term_on_term_mismatch_at_prev : bool := passes (raft "a" 3) (
  with_term 5;; with_log [ent 1 "a"; ent 2 "b"; ent 2 "c"];;
  let! out := receive "b" (AppendEntries 5 (nid "b") (Some 2%N) 4 [] None) in
  expect (λ _, conflict_is (Some 2%N) (Some 1%N) out)).

Definition conflict_hint_uses_first_index_of_term : bool := passes (raft "a" 3) (
  with_term 5;; with_log [ent 1 "a"; ent 1 "b"; ent 2 "c"; ent 2 "d"; ent 3 "e"];;
  let! out := receive "b" (AppendEntries 5 (nid "b") (Some 4%N) 99 [] None) in
  expect (λ _, conflict_is (Some 3%N) (Some 4%N) out)).

(** ** Persistence *)
Definition commit_index_persists_when_advanced : bool := passes (raft "f" 3) (
  with_term 1;;
  receive "L" (AppendEntries 1 (nid "L") None 0 [ent 1 "v0"] (Some 0%N));;
  expect (λ p, bool_decide (commit_index p = Some 0%N));;
  let! i := intent in expect (λ _, bool_decide (i_commit_index i = Some (Some 0%N)));;
  let! i := intent in expect (λ _, bool_decide (i_commit_index i = None))).

Definition nothing_flagged (p : TP) : bool :=
  negb (pending_persist_term p) && negb (pending_persist_voted_for p) &&
  negb (is_some (pending_persist_log_from p)) && negb (is_some (pending_truncate_from p)).

Definition drain_persist_intent_returns_pending_state_and_clears_flags : bool := passes (raft "a" 3) (
  modify (λ p, {| p with current_term := 5; voted_for := Some (nid "b"); log := [ent 5 "x"; ent 5 "y"];
    pending_persist_term := true; pending_persist_voted_for := true;
    pending_persist_log_from := Some 1%N; pending_truncate_from := Some 1%N |});;
  let! i := intent in
  expect (λ p, bool_decide (i_term i = Some 5%N) && bool_decide (i_voted_for i = Some (Some (nid "b"))) &&
    bool_decide (i_truncate_from i = Some 1%N) && bool_decide (i_append_from i = Some 1%N) &&
    (length (i_log_snapshot i) =? 2) && nothing_flagged p)).

Definition drain_persist_intent_returns_empty_when_no_pending : bool := passes (raft "a" 3) (
  let! i := intent in
  expect (λ _, negb (is_some (i_term i)) && negb (is_some (i_voted_for i)) &&
    negb (is_some (i_truncate_from i)) && negb (is_some (i_append_from i)) &&
    (length (i_log_snapshot i) =? 0))).

Definition append_entries_with_conflict_yields_truncate_and_append_intent : bool := passes (raft "a" 3) (
  with_term 2;; with_log [ent 1 "a"; ent 1 "stale"];;
  receive "b" (AppendEntries 2 (nid "b") (Some 0%N) 1 [ent 2 "fresh"] None);;
  let! i := intent in
  expect (λ _, bool_decide (i_truncate_from i = Some 1%N) && bool_decide (i_append_from i = Some 1%N) &&
    (length (i_log_snapshot i) =? 2) && bool_decide (values (i_log_snapshot i) !! 1 = Some "fresh"))).

Definition become_follower_clears_pending_persist_log_from : bool := passes (raft "a" 3) (
  as_leader 3;; modify (λ p, {| p with log := [ent 3 "x"]; pending_persist_log_from := Some 0%N |});;
  modify (become_follower e 5 None);;
  expect (λ p, role_is Follower p && negb (is_some (pending_persist_log_from p)))).

(** ** Recovery *)
Definition restore_state_uses_max_of_persisted_and_decisions : bool := passes (raft "a" 3) (
  restore 1 None (numbered 1 5) [(0, "v0"); (1, "v1"); (2, "v2")]%N (Some 4%N);;
  expect (λ p, bool_decide (commit_index p = Some 4%N) && bool_decide (last_applied p = Some 4%N));;
  let! ds := decisions in expect (λ _, bool_decide (d_slot <$> ds = [3; 4]%N))).

Definition restore_state_caps_persisted_commit_index_at_log_end : bool := passes (raft "a" 3) (
  restore 1 None [ent 1 "only"] [] (Some 99%N);;
  expect (λ p, bool_decide (commit_index p = Some 0%N))).

Definition recover_loads_state_correctly : bool := passes (raft "a" 3) (
  restore 7 (Some (nid "b")) [ent 5 "x"; ent 7 "y"] [(0%N, "x")] None;;
  expect (λ p, (current_term p =? 7)%N && bool_decide (voted_for p = Some (nid "b")) &&
    bool_decide (term <$> log p = [5; 7]%N) && bool_decide (commit_index p = Some 0%N) &&
    bool_decide (last_applied p = Some 0%N) && role_is Follower p && nothing_flagged p)).

Definition recover_with_no_decisions_leaves_commit_index_none : bool := passes (raft "a" 3) (
  restore 2 None [ent 2 "x"] [] None;;
  expect (λ p, (current_term p =? 2)%N && negb (is_some (voted_for p)) && (length (log p) =? 1) &&
    bool_decide (commit_index p = None) && bool_decide (last_applied p = None))).

Definition recover_with_partial_decisions_sets_commit_index_correctly : bool := passes (raft "a" 3) (
  restore 1 None (numbered 1 5) [(0, "v0"); (1, "v1"); (2, "v2")]%N None;;
  expect (λ p, bool_decide (commit_index p = Some 2%N) && bool_decide (last_applied p = Some 2%N));;
  let! ds := decisions in expect (λ _, length ds =? 0);;
  tick;; let! ds := decisions in expect (λ _, length ds =? 0)).

Definition multi_node_recover_resets_to_follower : bool := passes (raft "a" 3) (
  modify (λ p, {| p with role := Leader; leader := Some (node_id p) |});;
  restore 5 (Some (nid "a")) [] [] None;;
  expect (λ p, role_is Follower p && bool_decide (leader p = None) && (current_term p =? 5)%N)).

(** ** A single node *)
Definition single_node_resume_seeds_match_index_for_self : bool := passes (raft "solo" 1) (
  restore 1 (Some (nid "solo")) [ent 1 "a"; ent 1 "b"] [(0%N, "a")] None;;
  expect (λ p, role_is Leader p && bool_decide (match_index p !! nid "solo" = Some (Some 1%N)))).

Definition single_node_raft_starts_as_follower_with_zero_term : bool := passes (raft "solo" 1) (
  expect (λ p, role_is Follower p && (current_term p =? 0)%N && negb (is_some (voted_for p)) &&
    negb (is_some (leader p)) && negb (pending_persist_term p) && negb (pending_persist_voted_for p))).

Definition single_node_raft_commits_after_solo_election : bool := passes (raft "solo" 1) (
  submit "hello";; expect (λ p, role_is Follower p && pending_are ["hello"] p);;
  deadline_before (from_millis 1);; tick;;
  expect (λ p, role_is Leader p && (current_term p =? 1)%N && bool_decide (commit_index p = Some 0%N));;
  let! ds := decisions in expect (λ _, bool_decide (slots ds = [(0%N, "hello")]))).

Definition single_node_raft_no_persist_intent_until_election : bool := passes (raft "solo" 1) (
  let! i := intent in expect (λ _, negb (is_some (i_term i)) && negb (is_some (i_voted_for i)));;
  deadline_before (from_millis 1);; tick;;
  let! i := intent in
  expect (λ p, bool_decide (i_term i = Some 1%N) && bool_decide (i_voted_for i = Some (Some (node_id p))))).

Definition single_node_recover_from_empty_storage_starts_as_follower : bool := passes (raft "solo" 1) (
  restore 0 None [] [] None;;
  expect (λ p, role_is Follower p && (current_term p =? 0)%N && negb (is_some (voted_for p)) &&
    negb (is_some (leader p)));;
  let! i := intent in expect (λ _, negb (is_some (i_term i)) && negb (is_some (i_voted_for i)))).

Definition single_node_recover_preserves_persisted_term_and_log : bool := passes (raft "solo" 1) (
  restore 1 (Some (nid "solo")) [ent 1 "x"] [(0%N, "x")] None;;
  expect (λ p, role_is Leader p && (current_term p =? 1)%N && bool_decide (commit_index p = Some 0%N) &&
    bool_decide (last_applied p = Some 0%N));;
  let! i := intent in expect (λ _, negb (is_some (i_term i)) && negb (is_some (i_voted_for i)))).

(** ** Observation *)
Definition is_idle_false_when_leader : bool := passes (raft "a" 3) (
  modify (λ p, {| p with role := Leader; leader := Some (node_id p) |});; expect (λ p, negb (is_idle p))).
Definition is_idle_false_when_pending_proposals : bool := passes (raft "a" 3) (
  modify (λ p, {| p with pending_proposals := pending_proposals p ++ ["x"] |});; expect (λ p, negb (is_idle p))).
Definition is_idle_false_when_log_nonempty : bool := passes (raft "a" 3) (
  with_log [ent 1 "x"];; expect (λ p, negb (is_idle p))).

Definition peek_state_reports_raft_state : bool := passes (raft "a" 3) (
  with_term 4;; with_log [ent 4 "x"];;
  modify (λ p, {| p with commit_index := Some 0%N; last_applied := Some 0%N |});;
  expect (λ p, let s := peek_state p in
    (s_term s =? 4)%N && (s_log_len s =? 1)%N && bool_decide (s_commit_index s = Some 0%N) &&
    bool_decide (s_last_applied s = Some 0%N) && bool_decide (s_role s = Some NFollower))).

Definition raft_unit_tests : list bool :=
  [new_raft_protocol_starts_as_follower; is_idle_when_log_empty; quorum_for_three_nodes;
   quorum_for_five_nodes; election_timeout_starts_election;
   request_vote_grants_when_term_higher; request_vote_rejects_lower_term;
   request_vote_rejects_stale_log; request_vote_already_voted_in_same_term_rejects_other;
   vote_quorum_promotes_to_leader_and_heartbeats; higher_term_steps_down_to_follower;
   vote_response_for_old_term_ignored; granting_vote_resets_election_deadline;
   append_entries_resets_election_timer_and_accepts_leader; append_entries_rejects_lower_term;
   append_entries_rejects_log_gap; append_entries_rejects_term_mismatch_at_prev;
   append_entries_appends_when_prev_matches; append_entries_truncates_conflicting_suffix;
   empty_heartbeat_match_index_reflects_only_prev_log_index_with_stale_suffix;
   append_entries_match_index_excludes_stale_suffix_beyond_request;
   append_entries_match_index_none_for_empty_initial_heartbeat;
   append_entries_match_index_when_prev_none_with_entries;
   append_entries_idempotent_for_already_present_entries;
   leader_commit_advances_commit_index_and_yields_decisions;
   leader_commit_is_capped_at_last_log_index;
   empty_heartbeat_does_not_commit_unverified_stale_suffix;
   empty_heartbeat_with_no_prev_does_not_commit;
   successful_heartbeat_truncates_unverified_stale_suffix;
   successful_appendentries_truncates_suffix_past_new_entries;
   leader_propose_appends_to_log_and_emits_append_entries;
   leader_advances_commit_on_majority_match; leader_does_not_commit_entry_from_prior_term;
   leader_response_for_old_term_ignored; leader_rewinds_next_index_on_rejection;
   leader_falls_back_to_decrement_when_no_conflict_index_hint;
   leader_uses_conflict_index_to_rewind_next_index_in_one_step;
   leader_uses_conflict_term_to_skip_shared_prefix; leader_ignores_match_index_past_own_log;
   leader_does_not_advance_commit_past_log_end;
   leader_rejects_same_term_appendentries_from_other_leader;
   leader_does_not_heartbeat_within_interval;
   three_node_raft_does_not_commit_immediately_on_propose;
   stale_leader_steps_down_on_higher_term_heartbeat;
   re_election_drains_pending_proposals_to_lost; forward_chain_drops_after_max_hops;
   forward_chain_increments_hops_below_max; follower_forwards_proposal_to_known_leader;
   follower_buffers_proposal_when_no_leader_known;
   leader_handles_forwarded_proposal_as_normal_propose;
   pending_proposals_drained_as_forwards_when_leader_learned;
   non_leader_buffers_received_forward_when_no_leader_known;
   non_leader_chain_forwards_received_forward_to_known_leader;
   non_leader_buffers_forward_when_sender_is_believed_leader;
   old_leader_after_term_bump_chain_forwards; buffered_proposals_drain_when_self_becomes_leader;
   follower_reports_conflict_index_on_log_gap;
   follower_reports_conflict_term_on_term_mismatch_at_prev;
   conflict_hint_uses_first_index_of_term; commit_index_persists_when_advanced;
   drain_persist_intent_returns_pending_state_and_clears_flags;
   drain_persist_intent_returns_empty_when_no_pending;
   append_entries_with_conflict_yields_truncate_and_append_intent;
   become_follower_clears_pending_persist_log_from;
   restore_state_uses_max_of_persisted_and_decisions;
   restore_state_caps_persisted_commit_index_at_log_end; recover_loads_state_correctly;
   recover_with_no_decisions_leaves_commit_index_none;
   recover_with_partial_decisions_sets_commit_index_correctly;
   multi_node_recover_resets_to_follower; single_node_resume_seeds_match_index_for_self;
   single_node_raft_starts_as_follower_with_zero_term;
   single_node_raft_commits_after_solo_election;
   single_node_raft_no_persist_intent_until_election;
   single_node_recover_from_empty_storage_starts_as_follower;
   single_node_recover_preserves_persisted_term_and_log; is_idle_false_when_leader;
   is_idle_false_when_pending_proposals; is_idle_false_when_log_nonempty;
   peek_state_reports_raft_state].
End tests.

Definition test_env (jitter : N) : Env := mkEnv (from_secs 100) jitter.

(** The model passes the unit tests of the Raft protocol, all 80 of
    them, with every election timeout the default configuration can draw. *)
Lemma raft_unit_tests_pass :
  forallb (λ j, forallb id (raft_unit_tests (test_env j))) (N.of_nat <$> seq 0 151) = true.
Proof. vm_compute. reflexivity. Qed.
End RaftTests.
