(* ===== verification/Paxos.v ===== *)
(** * Paxos: the protocol state machine

    Models [PaxosProtocol] of [daccord/src/protocol/paxos.rs], every method of
    it, with and without the [multi-paxos] feature: the feature is the
    parameter [multi_paxos]. A method is a function on the protocol's record;
    [None] is a panic. A method reads the clock and the random generator
    through [PEnv]; the iteration order of a [HashMap] is that of [gmap]. *)

From S2P Require Import Prelude Types Storage.

Module Paxos.

(** The clock, and the random draw made for each slot. *)
Record PEnv := mkPEnv { now : Instant; draw : N → N }.

Inductive LeaderState :=
| LLeader (term : N)
| LFollower (leader : option NodeId) (last_contact : Instant)
| LCandidate.

Record ForwardedProposal (V : Type) := mkForwarded { sent_at : Instant; f_value : V }.
Arguments mkForwarded {V}. Arguments sent_at {V}. Arguments f_value {V}.

Record ElectionState (V : Type) := mkElection {
  e_proposal_number : ProposalNumber;
  e_since_slot : N;
  e_promises_received : gset NodeId;
  e_accepted : list (N * ProposalNumber * V);
}.
Arguments mkElection {V}. Arguments e_proposal_number {V}. Arguments e_since_slot {V}.
Arguments e_promises_received {V}. Arguments e_accepted {V}.

(** One slot: the proposer's and the acceptor's state of it. *)
#[projections(primitive)]
Record PaxosInstance (V : Type) := mkInstance {
  proposal_number : ProposalNumber;
  promises_received : gset NodeId;
  accepts_received : gset NodeId;
  highest_accepted : option (ProposalNumber * V);
  proposed_value : option V;
  highest_promised : option ProposalNumber;
  accepted : option (ProposalNumber * V);
  decided : bool;
  is_proposer : bool;
  nacked : bool;
  highest_seen_nack : option N;
  last_nack_time : option Instant;
  retry_count : N;
  last_send_time : option Instant;
  next_retry_at : option Instant;
}.
Arguments mkInstance {V}. Arguments proposal_number {V}. Arguments promises_received {V}.
Arguments accepts_received {V}. Arguments highest_accepted {V}. Arguments proposed_value {V}.
Arguments highest_promised {V}. Arguments accepted {V}. Arguments decided {V}.
Arguments is_proposer {V}. Arguments nacked {V}. Arguments highest_seen_nack {V}.
Arguments last_nack_time {V}. Arguments retry_count {V}. Arguments last_send_time {V}.
Arguments next_retry_at {V}.

Definition PaxosInstance_new {V} : PaxosInstance V := {|
  proposal_number := (0%N, mkNodeId "" 0);
  promises_received := ∅; accepts_received := ∅;
  highest_accepted := None; proposed_value := None;
  highest_promised := None; accepted := None;
  decided := false; is_proposer := false; nacked := false;
  highest_seen_nack := None; last_nack_time := None; retry_count := 0;
  last_send_time := None; next_retry_at := None |}.

#[projections(primitive)]
Record PaxosProtocol (V St : Type) := mkPaxos {
  node_id : NodeId;
  instances : gmap N (PaxosInstance V);
  next_slot : N;
  p_quorum_size : nat;
  decided_slots : gmap N V;
  pending_decisions : list (Decision V);
  lost_proposals : list V;
  recent_decisions : list (Instant * N * V);
  (* multi-paxos *)
  leader_state : LeaderState;
  highest_seen_round : N;
  last_heartbeat_time : option Instant;
  forwarded_proposals : list (ForwardedProposal V);
  leader_promise : option ProposalNumber;
  election : option (ElectionState V);
  election_started_at : option Instant;
  heartbeat_interval : Duration;
  storage : St;
}.
Arguments mkPaxos {V St}. Arguments node_id {V St}. Arguments instances {V St}.
Arguments next_slot {V St}. Arguments p_quorum_size {V St}. Arguments decided_slots {V St}.
Arguments pending_decisions {V St}. Arguments lost_proposals {V St}.
Arguments recent_decisions {V St}. Arguments leader_state {V St}.
Arguments highest_seen_round {V St}. Arguments last_heartbeat_time {V St}.
Arguments forwarded_proposals {V St}. Arguments leader_promise {V St}.
Arguments election {V St}. Arguments election_started_at {V St}.
Arguments heartbeat_interval {V St}. Arguments storage {V St}.

Section paxos.
Context {V St : Type} `{EqDecision V}.
Context (multi_paxos : bool).
Abbreviation PP := (PaxosProtocol V St).
Abbreviation Out := (list (Outgoing (PaxosMessage V))).
Implicit Types (p : PP) (e : PEnv).

(** ** Construction and observation *)
Definition new_with_config (e : PEnv) (id : NodeId) (total : nat)
    (hb : Duration) (s : St) : PP := {|
  node_id := id; instances := ∅; next_slot := 0;
  p_quorum_size := quorum_size total;
  decided_slots := ∅; pending_decisions := []; lost_proposals := [];
  recent_decisions := [];
  leader_state := LFollower None (now e);
  highest_seen_round := 0; last_heartbeat_time := None;
  forwarded_proposals := []; leader_promise := None;
  election := None; election_started_at := None;
  heartbeat_interval := hb; storage := s |}.

Fixpoint initialize_from_decisions (decisions : list (N * V)) (p : PP) : option PP :=
  match decisions with
  | [] => Some p
  | (slot, v) :: rest =>
      next ← (if (next_slot p <=? slot)%N then u64_add slot 1 else Some (next_slot p));
      initialize_from_decisions rest
        {| p with decided_slots := <[slot := v]> (decided_slots p); next_slot := next |}
  end.

Definition is_idle (p : PP) : bool := bool_decide (instances p = ∅).

Definition peek_state (p : PP) : ProtocolSnapshot := {|
  s_role := None; s_term := 0; s_leader := None; s_voted_for := None;
  s_log_len := 0; s_commit_index := None; s_last_applied := None |}.

Definition take_decisions (p : PP) : PP * list (Decision V) :=
  ({| p with pending_decisions := [] |}, pending_decisions p).
Definition take_lost_proposals (p : PP) : PP * list V :=
  ({| p with lost_proposals := [] |}, lost_proposals p).

Definition get_or_create_instance (p : PP) (slot : N) : PaxosInstance V :=
  default PaxosInstance_new (instances p !! slot).
Definition set_instance (slot : N) (i : PaxosInstance V) (p : PP) : PP :=
  {| p with instances := <[slot := i]> (instances p) |}.
Definition remove_instance (slot : N) (p : PP) : PP :=
  {| p with instances := delete slot (instances p) |}.

(** ** The acceptor *)

Definition handle_prepare (from : NodeId) (slot : N) (pn : ProposalNumber) (p : PP)
    : PP * Out :=
  match decided_slots p !! slot with
  | Some v => (p, [mkOut (Peer from) (Decide slot v)])
  | None =>
      let i := get_or_create_instance p slot in
      match highest_promised i with
      | Some hp =>
          if pn_ltb hp pn
          then (set_instance slot {| i with highest_promised := Some pn |} p,
                [mkOut (Peer from) (Promise slot pn (accepted i))])
          else (set_instance slot i p, [mkOut (Peer from) (NackPrepare slot pn hp)])
      | None =>
          (set_instance slot {| i with highest_promised := Some pn |} p,
           [mkOut (Peer from) (Promise slot pn (accepted i))])
      end
  end.

(** The promise an Accept has to reach: the slot's own and, under
    Multi-Paxos, the leader promise. *)
Definition effective_floor (p : PP) (slot : N) : option ProposalNumber :=
  let per_slot := i ← instances p !! slot; highest_promised i in
  if multi_paxos then
    match per_slot, leader_promise p with
    | Some a, Some b => Some (if pn_leb b a then a else b)
    | Some a, None => Some a
    | None, Some b => Some b
    | None, None => None
    end
  else per_slot.

Definition handle_accept (from : NodeId) (slot : N) (pn : ProposalNumber) (v : V) (p : PP)
    : PP * Out :=
  match decided_slots p !! slot with
  | Some dv => (p, [mkOut (Peer from) (Decide slot dv)])
  | None =>
      let i := get_or_create_instance p slot in
      let granted :=
        (set_instance slot {| i with highest_promised := Some pn; accepted := Some (pn, v) |} p,
         [mkOut (Peer from) (Accepted slot pn v)]) in
      match effective_floor p slot with
      | Some hp =>
          if pn_leb hp pn then granted
          else (set_instance slot i p, [mkOut (Peer from) (NackAccept slot pn hp)])
      | None => granted
      end
  end.

(** ** Deciding *)

(** [forwarded_proposals.remove(position of the value)]. *)
Fixpoint remove_forwarded (v : V) (fs : list (ForwardedProposal V))
    : list (ForwardedProposal V) :=
  match fs with
  | [] => []
  | f :: fs => if bool_decide (f_value f = v) then fs else f :: remove_forwarded v fs
  end.
Definition ack_decided_value (v : V) (p : PP) : PP :=
  {| p with forwarded_proposals := remove_forwarded v (forwarded_proposals p) |}.

Definition decide (e : PEnv) (slot : N) (v : V) (p : PP) : option PP :=
  next ← (if (next_slot p <=? slot)%N then u64_add slot 1 else Some (next_slot p));
  let p := {| p with
    decided_slots := <[slot := v]> (decided_slots p);
    recent_decisions := recent_decisions p ++ [(now e, slot, v)];
    next_slot := next |} in
  let p := if multi_paxos then ack_decided_value v p else p in
  Some {| p with pending_decisions := pending_decisions p ++ [mkDecision slot v] |}.

(** Decide, forget the instance and tell the peers. *)
Definition decide_and_tell (e : PEnv) (slot : N) (v : V) (p : PP) : option (PP * Out) :=
  p ← decide e slot v p;
  Some (remove_instance slot p, [mkOut Broadcast (Decide slot v)]).

(** ** The proposer *)

(** A retry time [ms] milliseconds away, plus up to half of that. *)
Definition retry_after (e : PEnv) (slot ms : N) : Instant :=
  (now e + from_millis (ms + random_range 0 (ms / 2) (draw e slot)))%N.

(** [base_ms.saturating_mul(1 << retry_count.min(3))]. *)
Definition backoff_ms (retries : N) : N :=
  saturating_mul u64_max 100 (N.shiftl 1 (N.min retries 3)).

Definition start_phase2 (e : PEnv) (slot : N) (p : PP) : option (PP * Out) :=
  i ← instances p !! slot;
  v ← match highest_accepted i with
      | Some (_, v) => Some v
      | None => proposed_value i
      end;
  let pn := proposal_number i in
  let can_self_accept := is_none_or (highest_promised i) (λ hp, pn_leb hp pn) in
  let i := if can_self_accept then {| i with
      highest_promised := Some pn; accepted := Some (pn, v);
      accepts_received := {[ node_id p ]} ∪ accepts_received i |}
    else i in
  let p := set_instance slot i p in
  if bool_decide (p_quorum_size p ≤ size (accepts_received i))
  then decide_and_tell e slot v p
  else Some (p, [mkOut Broadcast (Accept slot pn v)]).

Definition handle_promise (e : PEnv) (from : NodeId) (slot : N) (pn : ProposalNumber)
    (acc : option (ProposalNumber * V)) (p : PP) : option (PP * Out) :=
  if bool_decide (is_Some (decided_slots p !! slot)) then Some (p, []) else
  match instances p !! slot with
  | Some i =>
      if bool_decide (proposal_number i = pn) && negb (decided i) then
        let i := {| i with
          promises_received := {[ from ]} ∪ promises_received i;
          highest_accepted :=
            match acc with
            | Some (apn, v) =>
                if is_none_or (highest_accepted i) (λ ha, pn_ltb ha.1 apn)
                then Some (apn, v) else highest_accepted i
            | None => highest_accepted i
            end |} in
        let p := set_instance slot i p in
        if bool_decide (p_quorum_size p ≤ size (promises_received i))
        then start_phase2 e slot p else Some (p, [])
      else Some (p, [])
  | None => Some (p, [])
  end.

Definition handle_accepted (e : PEnv) (from : NodeId) (slot : N) (pn : ProposalNumber)
    (v : V) (p : PP) : option (PP * Out) :=
  if bool_decide (is_Some (decided_slots p !! slot)) then Some (p, []) else
  match instances p !! slot with
  | Some i =>
      if bool_decide (proposal_number i = pn) && negb (decided i) then
        let i := {| i with accepts_received := {[ from ]} ∪ accepts_received i |} in
        if bool_decide (p_quorum_size p ≤ size (accepts_received i)) then
          acc ← accepted i;
          decide_and_tell e slot acc.2 (set_instance slot {| i with decided := true |} p)
        else Some (set_instance slot i p, [])
      else Some (p, [])
  | None => Some (p, [])
  end.

Definition handle_decide (e : PEnv) (from : NodeId) (slot : N) (v : V) (p : PP)
    : option PP :=
  let p := if multi_paxos then
      match leader_state p with
      | LFollower (Some l) t =>
          {| p with leader_state :=
               LFollower (Some l) (if bool_decide (l = from) then now e else t) |}
      | _ => p
      end else p in
  if bool_decide (is_Some (decided_slots p !! slot)) then Some p else
  let p :=
    match instances p !! slot with
    | Some i =>
        match is_proposer i, proposed_value i with
        | true, Some proposed =>
            if bool_decide (proposed ≠ v)
            then {| p with lost_proposals := lost_proposals p ++ [proposed] |} else p
        | _, _ => p
        end
    | None => p
    end in
  p ← decide e slot v p;
  Some (remove_instance slot p).

Definition update_highest_seen_round (round : N) (p : PP) : PP :=
  {| p with highest_seen_round := N.max (highest_seen_round p) round |}.

Definition step_down (e : PEnv) (l : option NodeId) (p : PP) : PP :=
  {| p with leader_state := LFollower l (now e) |}.

Definition is_LLeader (s : LeaderState) : bool :=
  match s with LLeader _ => true | _ => false end.
Definition is_LCandidate (s : LeaderState) : bool :=
  match s with LCandidate => true | _ => false end.

Definition handle_nack (e : PEnv) (slot : N) (hp : ProposalNumber) (p : PP) : PP :=
  let p := match instances p !! slot with
    | Some i =>
        let ms := backoff_ms (retry_count i) in
        set_instance slot {| i with
          nacked := true; last_nack_time := Some (now e);
          highest_seen_nack :=
            if is_none_or (highest_seen_nack i) (λ r, r <? hp.1)%N
            then Some hp.1 else highest_seen_nack i;
          next_retry_at := Some (retry_after e slot ms) |} p
    | None => p
    end in
  if multi_paxos then
    let p := update_highest_seen_round hp.1 p in
    if is_LLeader (leader_state p) then step_down e None p else p
  else p.

(** A Prepare at round 1 with the node's own promise. *)
Definition propose_full_paxos (e : PEnv) (v : V) (p : PP) : option (PP * Out) :=
  let slot := next_slot p in
  next ← u64_add (next_slot p) 1;
  let p := {| p with next_slot := next |} in
  let pn := (1%N, node_id p) in
  let i := get_or_create_instance p slot in
  let i := {| i with
    proposal_number := pn; proposed_value := Some v; is_proposer := true;
    last_send_time := Some (now e); next_retry_at := Some (retry_after e slot 100);
    highest_promised := Some pn;
    promises_received := {[ node_id p ]} ∪ promises_received i |} in
  let p := set_instance slot i p in
  if bool_decide (p_quorum_size p ≤ size (promises_received i))
  then start_phase2 e slot p
  else Some (p, [mkOut Broadcast (Prepare slot pn)]).

Definition propose_fast_path (e : PEnv) (v : V) (t : N) (p : PP) : option (PP * Out) :=
  let slot := next_slot p in
  next ← u64_add (next_slot p) 1;
  let p := {| p with next_slot := next |} in
  let pn := (t, node_id p) in
  let i := get_or_create_instance p slot in
  let i := {| i with
    proposal_number := pn; proposed_value := Some v; is_proposer := true;
    last_send_time := Some (now e); next_retry_at := Some (retry_after e slot 100);
    highest_promised := Some pn; accepted := Some (pn, v);
    accepts_received := {[ node_id p ]} ∪ accepts_received i;
    promises_received := {[ node_id p ]} ∪ promises_received i |} in
  let p := set_instance slot i p in
  if bool_decide (p_quorum_size p ≤ size (accepts_received i))
  then decide_and_tell e slot v p
  else Some (p, [mkOut Broadcast (Accept slot pn v)]).

Definition inner_propose (e : PEnv) (v : V) (p : PP) : option (PP * Out) :=
  if multi_paxos then
    match leader_state p with
    | LLeader t => propose_fast_path e v t p
    | _ => propose_full_paxos e v p
    end
  else propose_full_paxos e v p.

Definition retryable (e : PEnv) (p : PP) (i : PaxosInstance V) : bool :=
  if decided i || negb (is_proposer i) then false else
  match next_retry_at i with
  | None => false
  | Some t =>
      if (now e <? t)%N then false else
      if nacked i then true else
      let in_phase2 := negb (bool_decide (accepts_received i = ∅)) in
      let votes := if in_phase2 then accepts_received i else promises_received i in
      negb (bool_decide (p_quorum_size p ≤ size votes))
  end.

Definition get_retryable_proposals (e : PEnv) (p : PP) : list N :=
  fst <$> filter (λ kv, retryable e p kv.2 = true) (map_to_list (instances p)).

Definition get_decision_rebroadcasts (e : PEnv) (p : PP) : PP * Out :=
  let kept := filter (λ r, (duration_since (now e) r.1.1 < from_secs 5)%N)
                (recent_decisions p) in
  ({| p with recent_decisions := kept |},
   map (λ r, mkOut Broadcast (Decide r.1.2 r.2)) kept).

Definition retry_proposal (e : PEnv) (slot : N) (p : PP) : option (PP * Out) :=
  match instances p !! slot with
  | Some i =>
      if negb (decided i) && is_proposer i then
        let acceptor_round := match highest_promised i with Some hp => hp.1 | None => 0%N end in
        let nack_round := default 0%N (highest_seen_nack i) in
        new_round ← u64_add (N.max (N.max acceptor_round nack_round) (proposal_number i).1) 1;
        retries ← u32_add (retry_count i) 1;
        let pn := (new_round, node_id p) in
        let i := {| i with
          proposal_number := pn;
          promises_received := {[ node_id p ]}; accepts_received := ∅;
          highest_accepted := None; nacked := false; highest_seen_nack := None;
          last_nack_time := None; retry_count := retries;
          last_send_time := Some (now e);
          next_retry_at := Some (retry_after e slot (backoff_ms retries));
          highest_promised := Some pn |} in
        let p := set_instance slot i p in
        if bool_decide (p_quorum_size p ≤ size (promises_received i))
        then start_phase2 e slot p
        else Some (p, [mkOut Broadcast (Prepare slot pn)])
      else Some (p, [])
  | None => Some (p, [])
  end.

(** ** Multi-Paxos: leadership *)

Definition become_leader (t : N) (p : PP) : PP :=
  {| p with leader_state := LLeader t;
            highest_seen_round := N.max (highest_seen_round p) t;
            last_heartbeat_time := None |}.

Definition update_leader_contact (e : PEnv) (from : NodeId) (t : N) (p : PP) : PP :=
  let p := {| p with highest_seen_round := N.max (highest_seen_round p) t |} in
  match leader_state p with
  | LFollower _ _ => {| p with leader_state := LFollower (Some from) (now e) |}
  | LCandidate => {| p with leader_state := LFollower (Some from) (now e) |}
  | LLeader my => if (my <? t)%N then step_down e (Some from) p else p
  end.

Definition get_leader (p : PP) : option NodeId :=
  match leader_state p with
  | LLeader _ => Some (node_id p)
  | LFollower l _ => l
  | LCandidate => None
  end.

Definition should_send_heartbeat (e : PEnv) (p : PP) : bool :=
  is_LLeader (leader_state p) &&
  match last_heartbeat_time p with
  | Some t => (heartbeat_interval p <=? duration_since (now e) t)%N
  | None => true
  end.

Definition make_heartbeat (e : PEnv) (p : PP) : PP * Out :=
  match leader_state p with
  | LLeader t =>
      ({| p with last_heartbeat_time := Some (now e) |}, [mkOut Broadcast (Heartbeat t)])
  | _ => (p, [])
  end.

Definition leader_timeout : Duration := from_millis 500.

Definition check_leader_timeout (e : PEnv) (p : PP) : bool :=
  match leader_state p with
  | LFollower (Some _) t => (leader_timeout <=? duration_since (now e) t)%N
  | LFollower None t =>
      negb (bool_decide (instances p = ∅)) &&
      (leader_timeout <=? duration_since (now e) t)%N
  | _ => false
  end.

Definition keys_min (ks : list N) : option N :=
  foldr (λ k acc, Some (match acc with Some m => N.min k m | None => k end)) None ks.
Definition keys_max (ks : list N) : option N :=
  foldr (λ k acc, Some (match acc with Some m => N.max k m | None => k end)) None ks.

(** The accepted values of undecided slots from [since] on. *)
Definition collect_accepted_for_promise (since : N) (p : PP)
    : list (N * ProposalNumber * V) :=
  omap (λ '(slot, i),
    if (slot <? since)%N then None else
    if bool_decide (is_Some (decided_slots p !! slot)) then None else
    match accepted i with
    | Some (pn, v) => Some (slot, pn, v)
    | None => None
    end) (map_to_list (instances p)).

Definition replay_accept (e : PEnv) (slot : N) (pn : ProposalNumber) (v : V) (p : PP)
    : option (PP * Out) :=
  if bool_decide (is_Some (decided_slots p !! slot)) then Some (p, []) else
  let i := get_or_create_instance p slot in
  let i := {| i with
    proposal_number := pn; proposed_value := Some v; is_proposer := true;
    last_send_time := Some (now e); next_retry_at := Some (retry_after e slot 100);
    highest_promised := Some pn; accepted := Some (pn, v);
    accepts_received := {[ node_id p ]}; promises_received := {[ node_id p ]} |} in
  let p := set_instance slot i p in
  if bool_decide (p_quorum_size p ≤ size (accepts_received i))
  then decide_and_tell e slot v p
  else Some (p, [mkOut Broadcast (Accept slot pn v)]).

Fixpoint replay_all (e : PEnv) (pn : ProposalNumber) (slots : list (N * V)) (p : PP)
    : option (PP * Out) :=
  match slots with
  | [] => Some (p, [])
  | (slot, v) :: rest =>
      '(p, out) ← replay_accept e slot pn v p;
      '(p, out') ← replay_all e pn rest p;
      Some (p, out ++ out')
  end.

(** Per slot, the reported value with the highest number. *)
Definition highest_per_slot (p : PP) (reported : list (N * ProposalNumber * V))
    : gmap N (ProposalNumber * V) :=
  foldl (λ m '(slot, pn, v),
    if bool_decide (is_Some (decided_slots p !! slot)) then m else
    match m !! slot with
    | Some (old, _) => if pn_leb pn old then m else <[slot := (pn, v)]> m
    | None => <[slot := (pn, v)]> m
    end) ∅ reported.

(** [if m + 1 > self.next_slot { self.next_slot = m + 1 }]. *)
Definition advance_past (m : option N) (p : PP) : option PP :=
  match m with
  | Some m =>
      n ← u64_add m 1;
      Some (if (next_slot p <? n)%N then {| p with next_slot := n |} else p)
  | None => Some p
  end.

Definition complete_leader_election (e : PEnv) (p : PP) : option (PP * Out) :=
  match election p with
  | None => Some (p, [])
  | Some el =>
      let p := {| p with election := None; election_started_at := None |} in
      let pn := e_proposal_number el in
      let highest := highest_per_slot p (e_accepted el) in
      p ← advance_past (keys_max (fst <$> map_to_list highest)) p;
      p ← advance_past (keys_max (fst <$> map_to_list (instances p))) p;
      let p := become_leader pn.1 p in
      replay_all e pn (map (λ kv, (kv.1, kv.2.2)) (map_to_list highest)) p
  end.

Definition start_election (e : PEnv) (p : PP) : option (PP * Out) :=
  let p := {| p with leader_state := LCandidate |} in
  round ← u64_add (highest_seen_round p) 1;
  let pn := (round, node_id p) in
  let since := default (next_slot p) (keys_min (fst <$> map_to_list (instances p))) in
  let p := {| p with
    election := Some {|
      e_proposal_number := pn; e_since_slot := since;
      e_promises_received := {[ node_id p ]};
      e_accepted := collect_accepted_for_promise since p |};
    election_started_at := Some (now e);
    leader_promise := if is_none_or (leader_promise p) (λ hp, pn_ltb hp pn)
                      then Some pn else leader_promise p |} in
  let p := update_highest_seen_round round p in
  if bool_decide (p_quorum_size p ≤ size ({[ node_id p ]} : gset NodeId))
  then complete_leader_election e p
  else Some (p, [mkOut Broadcast (PrepareLeader pn since)]).

Definition check_election_timeout (e : PEnv) (p : PP) : PP :=
  match election_started_at p with
  | Some t =>
      if (from_millis 500 <=? duration_since (now e) t)%N && is_some (election p)
      then {| p with election := None; election_started_at := None;
                     leader_state := LFollower None (now e) |}
      else p
  | None => p
  end.

Definition handle_prepare_leader (e : PEnv) (from : NodeId) (pn : ProposalNumber)
    (since : N) (p : PP) : option (PP * Out) :=
  if is_none_or (leader_promise p) (λ hp, pn_ltb hp pn) then
    let p := {| p with leader_promise := Some pn |} in
    let p := update_highest_seen_round pn.1 p in
    let p := if is_LLeader (leader_state p) then step_down e (Some from) p else p in
    let p := match election p with
      | Some el => if pn_ltb (e_proposal_number el) pn
                   then {| p with election := None; election_started_at := None |} else p
      | None => p
      end in
    Some (p, [mkOut (Peer from)
               (PromiseLeader pn (collect_accepted_for_promise since p))])
  else
    hp ← leader_promise p;
    Some (p, [mkOut (Peer from) (NackLeader pn hp)]).

Definition handle_promise_leader (e : PEnv) (from : NodeId) (pn : ProposalNumber)
    (acc : list (N * ProposalNumber * V)) (p : PP) : option (PP * Out) :=
  match election p with
  | Some el =>
      if bool_decide (e_proposal_number el = pn) then
        let el := {| el with
          e_promises_received := {[ from ]} ∪ e_promises_received el;
          e_accepted := e_accepted el ++ acc |} in
        let p := {| p with election := Some el |} in
        if bool_decide (p_quorum_size p ≤ size (e_promises_received el))
        then complete_leader_election e p else Some (p, [])
      else Some (p, [])
  | None => Some (p, [])
  end.

Definition handle_nack_leader (e : PEnv) (hp : ProposalNumber) (p : PP) : PP :=
  let p := update_highest_seen_round hp.1 p in
  {| p with election := None; election_started_at := None;
            leader_state := if is_LCandidate (leader_state p)
                            then LFollower None (now e) else leader_state p |}.

Definition handle_heartbeat (e : PEnv) (from : NodeId) (t : N) (p : PP) : PP :=
  if (highest_seen_round p <=? t)%N then update_leader_contact e from t p else p.

Definition handle_forward (e : PEnv) (v : V) (p : PP) : option (PP * Out) :=
  if is_LLeader (leader_state p) then inner_propose e v p else Some (p, []).

Definition propose_or_forward (e : PEnv) (v : V) (p : PP) : option (PP * Out) :=
  match get_leader p with
  | Some l =>
      if bool_decide (l ≠ node_id p) then
        Some ({| p with forwarded_proposals :=
                   forwarded_proposals p ++ [mkForwarded (now e) v] |},
              [mkOut (Peer l) (PForward v)])
      else inner_propose e v p
  | None => inner_propose e v p
  end.

Fixpoint propose_all (e : PEnv) (vs : list V) (p : PP) : option (PP * Out) :=
  match vs with
  | [] => Some (p, [])
  | v :: vs =>
      '(p, out) ← inner_propose e v p;
      '(p, out') ← propose_all e vs p;
      Some (p, out ++ out')
  end.

Definition handle_forwarded_proposal_timeouts (e : PEnv) (p : PP) : option (PP * Out) :=
  let late := λ f, (from_secs 1 <=? duration_since (now e) (sent_at f))%N in
  let timed_out := filter (λ f, late f = true) (forwarded_proposals p) in
  let p := {| p with forwarded_proposals :=
                filter (λ f, late f = false) (forwarded_proposals p) |} in
  propose_all e (map f_value timed_out) p.

(** ** The [ConsensusProtocol] interface *)

Definition propose (e : PEnv) (v : V) (p : PP) : option (PP * Out) :=
  if multi_paxos then propose_or_forward e v p else inner_propose e v p.

(** The last five messages exist only with the feature. *)
Definition handle_message (e : PEnv) (from : NodeId) (msg : PaxosMessage V) (p : PP)
    : option (PP * Out) :=
  match msg with
  | Prepare slot pn => Some (handle_prepare from slot pn p)
  | Promise slot pn acc => handle_promise e from slot pn acc p
  | Accept slot pn v => Some (handle_accept from slot pn v p)
  | Accepted slot pn v => handle_accepted e from slot pn v p
  | Decide slot v => p ← handle_decide e from slot v p; Some (p, [])
  | NackPrepare slot _ hp | NackAccept slot _ hp => Some (handle_nack e slot hp p, [])
  | PForward v => if multi_paxos then handle_forward e v p else Some (p, [])
  | Heartbeat t => if multi_paxos then Some (handle_heartbeat e from t p, []) else Some (p, [])
  | PrepareLeader pn since =>
      if multi_paxos then handle_prepare_leader e from pn since p else Some (p, [])
  | PromiseLeader pn acc =>
      if multi_paxos then handle_promise_leader e from pn acc p else Some (p, [])
  | NackLeader _ hp => if multi_paxos then Some (handle_nack_leader e hp p, []) else Some (p, [])
  end.

Fixpoint retry_all (e : PEnv) (slots : list N) (p : PP) : option (PP * Out) :=
  match slots with
  | [] => Some (p, [])
  | slot :: rest =>
      '(p, out) ← retry_proposal e slot p;
      '(p, out') ← retry_all e rest p;
      Some (p, out ++ out')
  end.

Definition on_tick (e : PEnv) (p : PP) : option (PP * Out) :=
  '(p, out1) ← retry_all e (get_retryable_proposals e p) p;
  let '(p, out2) := get_decision_rebroadcasts e p in
  if multi_paxos then
    let '(p, out3) := if should_send_heartbeat e p then make_heartbeat e p else (p, []) in
    let p := check_election_timeout e p in
    '(p, out4) ← (if check_leader_timeout e p then start_election e p else Some (p, []));
    '(p, out5) ← handle_forwarded_proposal_timeouts e p;
    Some (p, out1 ++ out2 ++ out3 ++ out4 ++ out5)
  else Some (p, out1 ++ out2).

(** ** Methods that touch storage *)
Context `{PaxosStorage St V}.

Definition recover (p : PP) : option (PP * Result unit StorageError) :=
  match p_load_decisions (storage p) with
  | Err er => Some (p, Err er)
  | Ok ds => p ← initialize_from_decisions ds p; Some (p, Ok tt)
  end.

(** Nothing is persisted before messages are sent. *)
Definition flush_persist (p : PP) : PP * Result unit StorageError := (p, Ok tt).

Fixpoint save_decisions (ds : list (Decision V)) : StorageM St unit :=
  match ds with
  | [] => sret tt
  | d :: ds => sbind (p_save_decision (d_slot d) (d_value d)) (λ _, save_decisions ds)
  end.

Definition drain_decisions (p : PP) : PP * Result (list (Decision V)) StorageError :=
  let '(p, ds) := take_decisions p in
  let '(s, r) := save_decisions ds (storage p) in
  ({| p with storage := s |}, match r with Ok _ => Ok ds | Err er => Err er end).
End paxos.

#[global] Arguments decide : simpl never.
#[global] Arguments decide_and_tell : simpl never.
#[global] Arguments start_phase2 : simpl never.
#[global] Arguments handle_prepare : simpl never.
#[global] Arguments handle_accept : simpl never.
#[global] Arguments handle_promise : simpl never.
#[global] Arguments handle_accepted : simpl never.
#[global] Arguments handle_decide : simpl never.
#[global] Arguments handle_nack : simpl never.
#[global] Arguments propose_full_paxos : simpl never.
#[global] Arguments propose_fast_path : simpl never.
#[global] Arguments inner_propose : simpl never.
#[global] Arguments retry_proposal : simpl never.
#[global] Arguments complete_leader_election : simpl never.
#[global] Arguments start_election : simpl never.
#[global] Arguments replay_accept : simpl never.
#[global] Arguments handle_prepare_leader : simpl never.
#[global] Arguments handle_promise_leader : simpl never.
#[global] Arguments handle_message : simpl never.
#[global] Arguments on_tick : simpl never.

End Paxos.
