(* ===== verification/PaxosLocal.v ===== *)
(** * Paxos: the moves of a node

    Every event of a Paxos node is a sequence of two kinds of move: a change
    that decides nothing, and the decision of one undecided slot. From this
    follow the invariant of a node and that decisions are write-once. *)

From S2P Require Import Prelude Types Storage Paxos.
Import Paxos.

(** The events the event loop feeds a node. *)
Inductive PEvent (V : Type) :=
| PevPropose (v : V)
| PevReceive (from : NodeId) (msg : PaxosMessage V)
| PevTick.
Arguments PevPropose {V}. Arguments PevReceive {V}. Arguments PevTick {V}.

Section local.
Context {V St : Type} `{EqDecision V}.
Context (mp : bool).
Abbreviation PP := (PaxosProtocol V St).
Abbreviation Out := (list (Outgoing (PaxosMessage V))).
Implicit Types (p : PP) (e : PEnv).

Definition run_pevent (e : PEnv) (ev : PEvent V) (p : PP) : option (PP * Out) :=
  match ev with
  | PevPropose v => propose mp e v p
  | PevReceive from msg => handle_message mp e from msg p
  | PevTick => on_tick mp e p
  end.

(** Decided slots lie below [next_slot] and have no instance. *)
Record paxos_inv (p : PP) : Prop := {
  pi_next slot v : decided_slots p !! slot = Some v → (slot < next_slot p)%N;
  pi_open slot : is_Some (instances p !! slot) → decided_slots p !! slot = None;
}.

Inductive move (p p1 : PP) : Prop :=
| mv_quiet :
    node_id p1 = node_id p → p_quorum_size p1 = p_quorum_size p → storage p1 = storage p →
    decided_slots p1 = decided_slots p → pending_decisions p1 = pending_decisions p →
    (next_slot p ≤ next_slot p1)%N →
    (∀ slot, is_Some (instances p1 !! slot) →
       is_Some (instances p !! slot) ∨ decided_slots p !! slot = None) →
    move p p1
| mv_decide slot v :
    node_id p1 = node_id p → p_quorum_size p1 = p_quorum_size p → storage p1 = storage p →
    decided_slots p !! slot = None →
    decided_slots p1 = <[slot := v]> (decided_slots p) →
    pending_decisions p1 = pending_decisions p ++ [mkDecision slot v] →
    (next_slot p ≤ next_slot p1)%N → (slot < next_slot p1)%N →
    (∀ s, is_Some (instances p1 !! s) → s ≠ slot ∧ is_Some (instances p !! s)) →
    move p p1.

Abbreviation moves := (rtc move).

Lemma move_inv p p1 : paxos_inv p → move p p1 → paxos_inv p1.
Proof.
  intros [Hn Ho] [_ _ _ Hd _ Hle Hi|slot v _ _ _ Hnone Hd _ Hle Hlt Hi]; split.
  - intros s v Hs. rewrite Hd in Hs. specialize (Hn _ _ Hs). lia.
  - intros s Hs. rewrite Hd. destruct (Hi s Hs) as [?|?]; auto.
  - intros s v'. rewrite Hd. intros [[<- _]|[_ Hs]]%lookup_insert_Some; [done|].
    specialize (Hn _ _ Hs). lia.
  - intros s Hs. destruct (Hi s Hs) as [Hne Hs']. rewrite Hd, lookup_insert_ne by done. auto.
Qed.

Lemma moves_inv p p1 : paxos_inv p → moves p p1 → paxos_inv p1.
Proof. intros Hi Hm. induction Hm; eauto using move_inv. Qed.

Lemma moves_storage p p1 : moves p p1 → storage p1 = storage p.
Proof. induction 1 as [|p p2 p1 [] _ IH]; congruence. Qed.

(** A quiet move that only touches open slots. *)
Lemma set_instance_moves slot i p p1 :
  node_id p1 = node_id p → p_quorum_size p1 = p_quorum_size p → storage p1 = storage p →
  decided_slots p1 = decided_slots p → pending_decisions p1 = pending_decisions p →
  (next_slot p ≤ next_slot p1)%N → instances p1 = <[slot := i]> (instances p) →
  is_Some (instances p !! slot) ∨ decided_slots p !! slot = None → moves p p1.
Proof.
  intros ? ? ? ? ? ? Hi Hs. apply rtc_once, mv_quiet; try done.
  intros s. rewrite Hi. destruct (decide_rel (=) s slot) as [->|Hne]; [done|].
  rewrite lookup_insert_ne by done. by left.
Qed.

(** A quiet move that touches no instance. *)
Lemma idle_moves p p1 :
  node_id p1 = node_id p → p_quorum_size p1 = p_quorum_size p → storage p1 = storage p →
  decided_slots p1 = decided_slots p → pending_decisions p1 = pending_decisions p →
  (next_slot p ≤ next_slot p1)%N → instances p1 = instances p → moves p p1.
Proof.
  intros ? ? ? ? ? ? Hi. apply rtc_once, mv_quiet; try done. intros s. rewrite Hi. by left.
Qed.

(** ** Deciding *)
Lemma decide_shape e slot v p p1 :
  decide mp e slot v p = Some p1 →
  ∃ next fs, p1 = {| p with
      decided_slots := <[slot := v]> (decided_slots p);
      recent_decisions := recent_decisions p ++ [(now e, slot, v)];
      next_slot := next; forwarded_proposals := fs;
      pending_decisions := pending_decisions p ++ [mkDecision slot v] |} ∧
    (next_slot p ≤ next)%N ∧ (slot < next)%N.
Proof.
  unfold decide. intros Hd.
  destruct (if (next_slot p <=? slot)%N then _ else _) as [next|] eqn:Hn; [|done].
  assert ((next_slot p ≤ next)%N ∧ (slot < next)%N) as Hle.
  { destruct (next_slot p <=? slot)%N eqn:E; breflect.
    - apply checked_add_Some in Hn as [-> _]. lia.
    - injection Hn as <-. lia. }
  simpl in Hd. destruct mp; injection Hd as <-; by eexists next, _.
Qed.

Lemma decide_moves e slot v p p1 :
  decided_slots p !! slot = None → decide mp e slot v p = Some p1 →
  moves p (remove_instance slot p1).
Proof.
  intros Hnone (next & fs & -> & Hle & Hlt)%decide_shape.
  apply rtc_once. apply (mv_decide _ _ slot v); try done. simpl.
  intros s Hs. destruct (decide_rel (=) s slot) as [->|Hne].
  - rewrite lookup_delete_eq in Hs. by destruct Hs.
  - by rewrite lookup_delete_ne in Hs.
Qed.

Lemma decide_and_tell_moves e slot v p p1 out :
  decided_slots p !! slot = None → decide_and_tell mp e slot v p = Some (p1, out) →
  moves p p1 ∧ out = [mkOut Broadcast (Decide slot v)].
Proof.
  unfold decide_and_tell. intros Hnone Hd.
  destruct (decide _ _ _ _ _) as [q|] eqn:Hq; [|done]. simpl in Hd. injection Hd as <- <-.
  split; [by eapply decide_moves|done].
Qed.

(** ** The acceptor *)
Lemma handle_prepare_moves from slot pn p p1 out :
  handle_prepare from slot pn p = (p1, out) → moves p p1.
Proof.
  unfold handle_prepare. destruct (decided_slots p !! slot) eqn:Hd.
  { intros [= <- <-]. done. }
  destruct (highest_promised _) as [hp|]; [destruct (pn_ltb hp pn)|];
    intros [= <- <-]; by eapply set_instance_moves; eauto.
Qed.

Lemma handle_accept_moves from slot pn v p p1 out :
  handle_accept mp from slot pn v p = (p1, out) → moves p p1.
Proof.
  unfold handle_accept. destruct (decided_slots p !! slot) eqn:Hd.
  { intros [= <- <-]. done. }
  destruct (effective_floor _ _ _) as [hp|]; [destruct (pn_leb hp pn)|];
    intros [= <- <-]; by eapply set_instance_moves; eauto.
Qed.

(** ** The proposer *)
Lemma start_phase2_moves e slot p p1 out :
  paxos_inv p → start_phase2 mp e slot p = Some (p1, out) → moves p p1.
Proof.
  unfold start_phase2. intros Hinv Hs.
  destruct (instances p !! slot) as [i|] eqn:Hi; [|done]. simpl in Hs.
  destruct (match highest_accepted i with Some _ => _ | None => _ end) as [v|]; [|done].
  simpl in Hs. assert (decided_slots p !! slot = None) as Hnone by (eapply pi_open; eauto).
  set (i' := if is_none_or _ _ then _ else _) in Hs.
  assert (moves p (set_instance slot i' p)) as Hm.
  { eapply set_instance_moves; eauto; done. }
  case_bool_decide.
  - apply decide_and_tell_moves in Hs as [Hs _]; [|done]. by etransitivity.
  - by injection Hs as <- <-.
Qed.

Lemma handle_promise_moves e from slot pn acc p p1 out :
  paxos_inv p → handle_promise mp e from slot pn acc p = Some (p1, out) → moves p p1.
Proof.
  unfold handle_promise. intros Hinv Hh. case_bool_decide; [by injection Hh as <- <-|].
  destruct (instances p !! slot) as [i|] eqn:Hi; [|by injection Hh as <- <-].
  destruct (_ && _); [|by injection Hh as <- <-]. simpl in Hh.
  match type of Hh with context [set_instance slot ?i' p] =>
    assert (moves p (set_instance slot i' p)) as Hm by (eapply set_instance_moves; eauto; done) end.
  case_bool_decide; [|by injection Hh as <- <-].
  apply start_phase2_moves in Hh; [by etransitivity|by eapply moves_inv].
Qed.

Lemma handle_accepted_moves e from slot pn v p p1 out :
  paxos_inv p → handle_accepted mp e from slot pn v p = Some (p1, out) → moves p p1.
Proof.
  unfold handle_accepted. intros Hinv Hh. case_bool_decide as Hd; [by injection Hh as <- <-|].
  destruct (instances p !! slot) as [i|] eqn:Hi; [|by injection Hh as <- <-].
  destruct (_ && _); [|by injection Hh as <- <-]. simpl in Hh.
  assert (decided_slots p !! slot = None) as Hnone by (eapply pi_open; eauto).
  case_bool_decide.
  - destruct (accepted i) as [acc|]; [|done]. simpl in Hh.
    apply decide_and_tell_moves in Hh as [Hh _]; [|done].
    etransitivity; [|exact Hh]. eapply set_instance_moves; eauto; done.
  - injection Hh as <- <-. eapply set_instance_moves; eauto; done.
Qed.

Lemma handle_decide_moves e from slot v p p1 :
  handle_decide mp e from slot v p = Some p1 → moves p p1.
Proof.
  unfold handle_decide. intros Hh.
  set (p0 := if mp then _ else _) in Hh.
  assert (moves p p0 ∧ decided_slots p0 = decided_slots p) as [Hm0 Hd0].
  { subst p0. destruct mp; [|done]. destruct (leader_state p) as [|[l|] t|]; try done.
    split; [by apply idle_moves|done]. }
  case_bool_decide as Hd; [by injection Hh as <-|].
  set (p2 := match instances p0 !! slot with Some _ => _ | None => _ end) in Hh.
  assert (moves p0 p2 ∧ decided_slots p2 = decided_slots p0) as [Hm2 Hd2].
  { subst p2. destruct (instances p0 !! slot) as [i|]; [|done].
    destruct (is_proposer i); [|done]. destruct (proposed_value i); [|done].
    case_bool_decide; [|done]. split; [by apply idle_moves|done]. }
  destruct (decide _ _ _ _ _) as [q|] eqn:Hq; [|done]. simpl in Hh. injection Hh as <-.
  do 2 (etransitivity; [eassumption|]). eapply decide_moves; [|done].
  rewrite Hd2. by apply eq_None_not_Some.
Qed.

Lemma handle_nack_moves e slot hp p : moves p (handle_nack mp e slot hp p).
Proof.
  unfold handle_nack. set (p0 := match instances p !! slot with Some _ => _ | None => _ end).
  assert (moves p p0) as Hm.
  { subst p0. destruct (instances p !! slot) eqn:Hi; [|done]. eapply set_instance_moves; eauto; done. }
  destruct mp; [|done]. etransitivity; [exact Hm|].
  destruct (is_LLeader _); by apply idle_moves.
Qed.

Lemma next_slot_open p : paxos_inv p → decided_slots p !! next_slot p = None.
Proof.
  intros [Hn _]. destruct (decided_slots p !! next_slot p) eqn:E; [|done].
  specialize (Hn _ _ E). lia.
Qed.

Lemma propose_full_paxos_moves e v p p1 out :
  paxos_inv p → propose_full_paxos mp e v p = Some (p1, out) → moves p p1.
Proof.
  unfold propose_full_paxos. intros Hinv Hh. pose proof (next_slot_open _ Hinv) as Hopen.
  destruct (u64_add _ _) as [next|] eqn:Hn; [|done].
  apply checked_add_Some in Hn as [-> _]. simpl in Hh.
  match type of Hh with context [set_instance ?s ?i' ?p'] =>
    assert (moves p (set_instance s i' p')) as Hm
      by (eapply set_instance_moves; try done; [simpl; lia|by right]) end.
  case_bool_decide; [|by injection Hh as <- <-].
  apply start_phase2_moves in Hh; [by etransitivity|by eapply moves_inv].
Qed.

Lemma propose_fast_path_moves e v t p p1 out :
  paxos_inv p → propose_fast_path mp e v t p = Some (p1, out) → moves p p1.
Proof.
  unfold propose_fast_path. intros Hinv Hh. pose proof (next_slot_open _ Hinv) as Hopen.
  destruct (u64_add _ _) as [next|] eqn:Hn; [|done].
  apply checked_add_Some in Hn as [-> _]. simpl in Hh.
  match type of Hh with context [set_instance ?s ?i' ?p'] =>
    assert (moves p (set_instance s i' p')) as Hm
      by (eapply set_instance_moves; try done; [simpl; lia|by right]) end.
  case_bool_decide; [|by injection Hh as <- <-].
  apply decide_and_tell_moves in Hh as [Hh _]; [|exact Hopen].
  etransitivity; [exact Hm|exact Hh].
Qed.

Lemma inner_propose_cases e v p r :
  inner_propose mp e v p = r →
  propose_full_paxos mp e v p = r ∨
  ∃ t, mp = true ∧ leader_state p = LLeader t ∧ propose_fast_path mp e v t p = r.
Proof.
  unfold inner_propose. destruct mp; [|by left]. destruct (leader_state p); eauto.
Qed.

Lemma inner_propose_moves e v p p1 out :
  paxos_inv p → inner_propose mp e v p = Some (p1, out) → moves p p1.
Proof.
  intros Hinv [Hh|(t & _ & _ & Hh)]%inner_propose_cases;
    [by eapply propose_full_paxos_moves|by eapply propose_fast_path_moves].
Qed.

Lemma retry_proposal_moves e slot p p1 out :
  paxos_inv p → retry_proposal mp e slot p = Some (p1, out) → moves p p1.
Proof.
  unfold retry_proposal. intros Hinv Hh.
  destruct (instances p !! slot) as [i|] eqn:Hi; [|by injection Hh as <- <-].
  destruct (_ && _); [|by injection Hh as <- <-].
  destruct (u64_add _ _) as [r|]; [|done]. destruct (u32_add _ _) as [rc|]; [|done].
  simpl in Hh. match type of Hh with context [set_instance ?s ?i' ?p'] =>
    assert (moves p (set_instance s i' p')) as Hm
      by (eapply set_instance_moves; eauto; done) end.
  case_bool_decide; [|by injection Hh as <- <-].
  apply start_phase2_moves in Hh; [by etransitivity|by eapply moves_inv].
Qed.

(** ** Leadership *)
Lemma replay_accept_moves e slot pn v p p1 out :
  replay_accept mp e slot pn v p = Some (p1, out) → moves p p1.
Proof.
  unfold replay_accept. intros Hh. case_bool_decide as Hd; [by injection Hh as <- <-|].
  simpl in Hh. apply eq_None_not_Some in Hd.
  match type of Hh with context [set_instance ?s ?i' ?p'] =>
    assert (moves p (set_instance s i' p')) as Hm
      by (eapply set_instance_moves; eauto; done) end.
  case_bool_decide; [|by injection Hh as <- <-].
  apply decide_and_tell_moves in Hh as [Hh _]; [|exact Hd].
  etransitivity; [exact Hm|exact Hh].
Qed.

Lemma replay_all_moves e pn slots p p1 out :
  replay_all mp e pn slots p = Some (p1, out) → moves p p1.
Proof.
  revert p out. induction slots as [|[slot v] slots IH]; simpl; intros p out Hh.
  { by injection Hh as <- <-. }
  destruct (replay_accept _ _ _ _ _ _) as [[p2 o]|] eqn:Hr; [|done]. simpl in Hh.
  destruct (replay_all _ _ _ _ _) as [[p3 o']|] eqn:Ha; [|done]. simpl in Hh.
  injection Hh as <- <-. etransitivity; [by eapply replay_accept_moves|by eapply IH].
Qed.

Lemma advance_past_moves m p p1 : advance_past m p = Some p1 → moves p p1.
Proof.
  unfold advance_past. intros Hh. destruct m as [m|]; [|by injection Hh as <-].
  destruct (u64_add _ _) as [n|]; [|done]. simpl in Hh. injection Hh as <-.
  destruct (_ <? _)%N eqn:E; [|done]. breflect. apply idle_moves; try done. simpl. lia.
Qed.

Lemma complete_leader_election_moves e p p1 out :
  complete_leader_election mp e p = Some (p1, out) → moves p p1.
Proof.
  unfold complete_leader_election. intros Hh.
  destruct (election p) as [el|]; [|by injection Hh as <- <-]. simpl in Hh.
  destruct (advance_past _ _) as [p2|] eqn:H2; [|done]. simpl in Hh.
  destruct (advance_past _ p2) as [p3|] eqn:H3; [|done]. simpl in Hh.
  apply advance_past_moves in H2, H3. apply replay_all_moves in Hh.
  etransitivity; [|etransitivity; [exact H2|etransitivity; [exact H3|
    etransitivity; [|exact Hh]]]]; by apply idle_moves.
Qed.

Lemma start_election_moves e p p1 out :
  start_election mp e p = Some (p1, out) → moves p p1.
Proof.
  unfold start_election. intros Hh. destruct (u64_add _ _) as [r|]; [|done]. simpl in Hh.
  case_bool_decide.
  - apply complete_leader_election_moves in Hh. etransitivity; [|exact Hh].
    by apply idle_moves.
  - injection Hh as <- <-. by apply idle_moves.
Qed.

Lemma handle_prepare_leader_moves e from pn since p p1 out :
  handle_prepare_leader e from pn since p = Some (p1, out) → moves p p1.
Proof.
  unfold handle_prepare_leader. intros Hh. destruct (is_none_or _ _).
  - simpl in Hh. injection Hh as <- _. apply idle_moves;
      destruct (is_LLeader _); simpl; destruct (election p) as [el|]; simpl; try done;
      destruct (pn_ltb _ _); done.
  - destruct (leader_promise p); [|done]. simpl in Hh. by injection Hh as <- <-.
Qed.

Lemma handle_promise_leader_moves e from pn acc p p1 out :
  handle_promise_leader mp e from pn acc p = Some (p1, out) → moves p p1.
Proof.
  unfold handle_promise_leader. intros Hh.
  destruct (election p) as [el|]; [|by injection Hh as <- <-].
  case_bool_decide; [|by injection Hh as <- <-]. simpl in Hh. case_bool_decide.
  - apply complete_leader_election_moves in Hh. etransitivity; [|exact Hh].
    by apply idle_moves.
  - injection Hh as <- <-. by apply idle_moves.
Qed.

Lemma handle_heartbeat_moves e from t p : moves p (handle_heartbeat e from t p).
Proof.
  unfold handle_heartbeat. destruct (_ <=? _)%N; [|done]. unfold update_leader_contact.
  simpl. destruct (leader_state p); try by apply idle_moves.
  destruct (_ <? _)%N; by apply idle_moves.
Qed.

Lemma propose_all_moves e vs p p1 out :
  paxos_inv p → propose_all mp e vs p = Some (p1, out) → moves p p1.
Proof.
  revert p out. induction vs as [|v vs IH]; simpl; intros p out Hinv Hh.
  { by injection Hh as <- <-. }
  destruct (inner_propose _ _ _ _) as [[p2 o]|] eqn:Hr; [|done]. simpl in Hh.
  destruct (propose_all _ _ _ _) as [[p3 o']|] eqn:Ha; [|done]. simpl in Hh.
  injection Hh as <- <-. apply inner_propose_moves in Hr; [|done].
  etransitivity; [exact Hr|]. eapply IH; [by eapply moves_inv|done].
Qed.

Lemma retry_all_moves e slots p p1 out :
  paxos_inv p → retry_all mp e slots p = Some (p1, out) → moves p p1.
Proof.
  revert p out. induction slots as [|s slots IH]; simpl; intros p out Hinv Hh.
  { by injection Hh as <- <-. }
  destruct (retry_proposal _ _ _ _) as [[p2 o]|] eqn:Hr; [|done]. simpl in Hh.
  destruct (retry_all _ _ _ _) as [[p3 o']|] eqn:Ha; [|done]. simpl in Hh.
  injection Hh as <- <-. apply retry_proposal_moves in Hr; [|done].
  etransitivity; [exact Hr|]. eapply IH; [by eapply moves_inv|done].
Qed.

Lemma timeouts_moves e p p1 out :
  paxos_inv p → handle_forwarded_proposal_timeouts mp e p = Some (p1, out) → moves p p1.
Proof.
  unfold handle_forwarded_proposal_timeouts. intros Hinv Hh. simpl in Hh.
  match type of Hh with propose_all _ _ _ ?q = _ =>
    assert (moves p q) as Hm by (by apply idle_moves) end.
  apply propose_all_moves in Hh; [by etransitivity|by eapply moves_inv].
Qed.

(** ** The entry points *)
Lemma if_cases {A} (b : bool) (x y z : A) :
  (if b then x else y) = z → (b = true ∧ x = z) ∨ (b = false ∧ y = z).
Proof. destruct b; auto. Qed.

Lemma propose_moves e v p p1 out :
  paxos_inv p → propose mp e v p = Some (p1, out) → moves p p1.
Proof.
  unfold propose. intros Hinv [[_ Hh]|[_ Hh]]%if_cases; [|by eapply inner_propose_moves].
  unfold propose_or_forward in Hh.
  destruct (get_leader p) as [l|]; [|by eapply inner_propose_moves].
  case_bool_decide; [|by eapply inner_propose_moves].
  injection Hh as <- <-. by apply idle_moves.
Qed.

Lemma handle_message_moves e from msg p p1 out :
  paxos_inv p → handle_message mp e from msg p = Some (p1, out) → moves p p1.
Proof.
  unfold handle_message. intros Hinv Hh. destruct msg;
    try (apply if_cases in Hh as [[_ Hh]|[_ Hh]]; [|by injection Hh as <- <-]).
  - apply (inj Some) in Hh. by eapply handle_prepare_moves.
  - by eapply handle_promise_moves.
  - apply (inj Some) in Hh. by eapply handle_accept_moves.
  - by eapply handle_accepted_moves.
  - destruct (handle_decide _ _ _ _ _ _) as [q|] eqn:Hd; [|done]. simpl in Hh.
    injection Hh as <- <-. by eapply handle_decide_moves.
  - apply (inj Some), (inj2 pair) in Hh as [<- _]. apply handle_nack_moves.
  - apply (inj Some), (inj2 pair) in Hh as [<- _]. apply handle_nack_moves.
  - unfold handle_forward in Hh. destruct (is_LLeader _); [by eapply inner_propose_moves|].
    by injection Hh as <- <-.
  - apply (inj Some), (inj2 pair) in Hh as [<- _]. apply handle_heartbeat_moves.
  - by eapply handle_prepare_leader_moves.
  - by eapply handle_promise_leader_moves.
  - injection Hh as <- <-. by apply idle_moves.
Qed.

Lemma on_tick_moves e p p1 out :
  paxos_inv p → on_tick mp e p = Some (p1, out) → moves p p1.
Proof.
  unfold on_tick. intros Hinv Hh.
  destruct (retry_all _ _ _ _) as [[p2 o2]|] eqn:H2; [|done]. cbn [mbind option_bind] in Hh.
  apply retry_all_moves in H2; [|done].
  destruct (get_decision_rebroadcasts e p2) as [p3 o3] eqn:H3.
  assert (moves p p3) as Hm3.
  { injection H3 as <- _. etransitivity; [exact H2|]. by apply idle_moves. }
  clear H2 H3. apply if_cases in Hh as [[_ Hh]|[_ Hh]]; [|by injection Hh as <- <-].
  destruct (if should_send_heartbeat e p3 then make_heartbeat e p3 else (p3, []))
    as [p4 o4] eqn:H4.
  assert (moves p3 p4) as Hm4.
  { destruct (should_send_heartbeat _ _); [|by injection H4 as <- <-].
    unfold make_heartbeat in H4. destruct (leader_state p3); injection H4 as <- <-; try done.
    by apply idle_moves. }
  set (p5 := check_election_timeout e p4) in Hh.
  assert (moves p4 p5) as Hm5.
  { subst p5. unfold check_election_timeout. destruct (election_started_at p4); [|done].
    destruct (_ && _); [by apply idle_moves|done]. }
  destruct (if check_leader_timeout e p5 then _ else _) as [[p6 o6]|] eqn:H6; [|done].
  assert (moves p5 p6) as Hm6.
  { destruct (check_leader_timeout _ _); [by eapply start_election_moves|by injection H6 as <- <-]. }
  assert (moves p p6) as Hm by (do 3 (etransitivity; [eassumption|]); done).
  cbn [mbind option_bind] in Hh.
  destruct (handle_forwarded_proposal_timeouts _ _ _) as [[p7 o7]|] eqn:H7; [|done].
  simpl in Hh. injection Hh as <- _. apply timeouts_moves in H7; [by etransitivity|].
  by eapply moves_inv.
Qed.

Lemma run_pevent_moves e ev p p1 out :
  paxos_inv p → run_pevent e ev p = Some (p1, out) → moves p p1.
Proof.
  destruct ev; simpl;
    [apply propose_moves|apply handle_message_moves|apply on_tick_moves].
Qed.
End local.
