(* ===== verification/PaxosDecisions.v ===== *)
(** * Paxos: decisions of a node

    A slot is decided once, every decision is handed out once, and recovery
    from storage re-establishes the invariant of a node. *)

From S2P Require Import Prelude Types Storage Paxos PaxosLocal.
Import Paxos.

Section decisions.
Context {V St : Type} `{EqDecision V}.
Context (mp : bool).
Abbreviation PP := (PaxosProtocol V St).
Implicit Types (p : PP) (e : PEnv).

(** [p1] has decided what [p] had and the decisions [ds], all new. *)
Record decided_more (p p1 : PP) (ds : list (Decision V)) : Prop := {
  dm_pending : pending_decisions p1 = pending_decisions p ++ ds;
  dm_keep slot v : decided_slots p !! slot = Some v → decided_slots p1 !! slot = Some v;
  dm_new d : d ∈ ds → decided_slots p !! d_slot d = None ∧
                      decided_slots p1 !! d_slot d = Some (d_value d);
  dm_only slot v : decided_slots p1 !! slot = Some v →
    decided_slots p !! slot = Some v ∨ mkDecision slot v ∈ ds;
  dm_once : NoDup (d_slot <$> ds);
}.

Lemma decided_more_nil p p1 :
  pending_decisions p1 = pending_decisions p → decided_slots p1 = decided_slots p →
  decided_more p p1 [].
Proof.
  intros Hp Hd. split; rewrite ?Hp, ?Hd, ?app_nil_r; try done; [set_solver|auto|constructor].
Qed.

Lemma decided_more_trans p p1 p2 ds ds' :
  decided_more p p1 ds → decided_more p1 p2 ds' → decided_more p p2 (ds ++ ds').
Proof.
  intros [P1 K1 N1 O1 U1] [P2 K2 N2 O2 U2]. split.
  - by rewrite P2, P1, app_assoc.
  - auto.
  - intros d [Hd|Hd]%elem_of_app.
    + destruct (N1 _ Hd). split; [done|]. auto.
    + destruct (N2 _ Hd) as [Hn ?]. split; [|done].
      destruct (decided_slots p !! d_slot d) eqn:E; [|done]. apply K1 in E. congruence.
  - intros slot v Hs. destruct (O2 _ _ Hs) as [Hs1|?]; [|set_solver].
    destruct (O1 _ _ Hs1); set_solver.
  - rewrite fmap_app. apply NoDup_app. split_and!; [done| |done].
    intros s (d & -> & Hd)%list_elem_of_fmap (d' & Heq & Hd')%list_elem_of_fmap.
    destruct (N1 _ Hd) as [_ Hs], (N2 _ Hd') as [Hn _]. rewrite <- Heq in Hn. congruence.
Qed.

Lemma move_decided p p1 : move p p1 → ∃ ds, decided_more p p1 ds.
Proof.
  intros [_ _ _ Hd Hp _ _|slot v _ _ _ Hnone Hd Hp _ _ _].
  { exists []. by apply decided_more_nil. }
  exists [mkDecision slot v]. split.
  - done.
  - intros s v' Hs. rewrite Hd. rewrite lookup_insert_ne; congruence.
  - intros d ->%list_elem_of_singleton. simpl. rewrite Hd, lookup_insert_eq. done.
  - intros s v'. rewrite Hd. intros [[<- <-]|[_ ?]]%lookup_insert_Some; [|by left].
    right. by apply list_elem_of_singleton.
  - apply NoDup_singleton.
Qed.

Lemma moves_decided p p1 : rtc move p p1 → ∃ ds, decided_more p p1 ds.
Proof.
  induction 1 as [|p p2 p1 Hm _ (ds' & IH)].
  { exists []. by apply decided_more_nil. }
  destruct (move_decided _ _ Hm) as (ds & Hds). exists (ds ++ ds').
  by eapply decided_more_trans.
Qed.

(** The invariant of a Paxos node: every proposal, message and tick, with
    and without the Multi-Paxos feature, keeps the decided slots below
    [next_slot] and free of proposer and acceptor state. *)
Theorem paxos_event_keeps_inv e ev p p1 out :
  paxos_inv p → run_pevent mp e ev p = Some (p1, out) → paxos_inv p1.
Proof. intros Hi Hr. eapply moves_inv; [done|by eapply run_pevent_moves]. Qed.

(** C29. Decisions are write-once: an event changes no decided value; the
    decisions it queues are for slots undecided before, one per slot, each
    recorded with the queued value, and every newly decided slot is queued. *)
Theorem paxos_decisions_write_once e ev p p1 out :
  paxos_inv p → run_pevent mp e ev p = Some (p1, out) →
  ∃ ds, pending_decisions p1 = pending_decisions p ++ ds ∧ NoDup (d_slot <$> ds) ∧
    (∀ slot v, decided_slots p !! slot = Some v → decided_slots p1 !! slot = Some v) ∧
    (∀ d, d ∈ ds → decided_slots p !! d_slot d = None ∧
                   decided_slots p1 !! d_slot d = Some (d_value d)) ∧
    (∀ slot v, decided_slots p1 !! slot = Some v →
       decided_slots p !! slot = Some v ∨ mkDecision slot v ∈ ds).
Proof.
  intros Hi Hr. apply run_pevent_moves in Hr; [|done].
  destruct (moves_decided _ _ Hr) as (ds & []). by exists ds.
Qed.

(** ** Recovery *)
Lemma initialize_spec ds p p1 :
  initialize_from_decisions ds p = Some p1 →
  (∀ slot v, decided_slots p !! slot = Some v → (slot < next_slot p)%N) →
  instances p1 = instances p ∧ storage p1 = storage p ∧
  pending_decisions p1 = pending_decisions p ∧
  (∀ slot v, decided_slots p1 !! slot = Some v → (slot < next_slot p1)%N) ∧
  decided_slots p1 = list_to_map (reverse ds) ∪ decided_slots p.
Proof.
  revert p. induction ds as [|[slot v] ds IH]; simpl; intros p Hi Hb.
  { injection Hi as <-. simpl. by rewrite map_empty_union. }
  destruct (if (next_slot p <=? slot)%N then _ else _) as [next|] eqn:Hn; [|done].
  simpl in Hi. apply IH in Hi as (Hins & Hst & Hpd & Hnx & Hd).
  - do 4 (split; [done|]). rewrite Hd, reverse_cons, list_to_map_app. simpl.
    rewrite insert_empty, <- map_union_assoc. f_equal. apply insert_union_singleton_l.
  - simpl. intros s v'. assert ((next_slot p ≤ next)%N ∧ (slot < next)%N) as [? ?].
    { destruct (next_slot p <=? slot)%N eqn:E; breflect.
      - apply checked_add_Some in Hn as [-> _]. lia.
      - injection Hn as <-. lia. }
    intros [[<- _]|[_ Hs]]%lookup_insert_Some; [done|]. specialize (Hb _ _ Hs). lia.
Qed.
End decisions.

Section recovery.
Context {V St : Type} `{EqDecision V} `{PaxosStorageSpec St V}.
Implicit Types (p : PaxosProtocol V St) (e : PEnv).

Lemma loaded_map (l : list (N * V)) (m : gmap N V) :
  l ≡ₚ map_to_list m → list_to_map (reverse l) = m.
Proof.
  intros Hl. rewrite <- (list_to_map_to_list m). apply list_to_map_proper.
  - rewrite reverse_Permutation, Hl. apply NoDup_fst_map_to_list.
  - by rewrite reverse_Permutation.
Qed.

Lemma recover_spec e n tot hb s p1 :
  recover (new_with_config e n tot hb s) = Some (p1, Ok tt) →
  paxos_inv p1 ∧ decided_slots p1 = p_view s ∧ instances p1 = ∅ ∧ storage p1 = s.
Proof.
  unfold recover. simpl. intros Hr. destruct (p_load_decisions s) as [l|] eqn:Hl; [|done].
  destruct (initialize_from_decisions l _) as [q|] eqn:Hq; [|done]. simpl in Hr.
  injection Hr as <-. pose proof (initialize_spec _ _ _ Hq) as (Hi & Hst & _ & Hn & Hd); [done|].
  simpl in *. apply p_load_ok in Hl. rewrite map_union_empty, (loaded_map _ _ Hl) in Hd.
  split; [|done].
  split; [done|]. intros slot. rewrite Hi, lookup_empty. by intros [].
Qed.

Lemma save_decisions_view ds (s s' : St) :
  save_decisions ds s = (s', Ok tt) →
  p_view s' = foldl (λ m d, <[d_slot d := p_norm (d_value d)]> m) (p_view s) ds.
Proof.
  revert s. induction ds as [|d ds IH]; simpl; intros s; [by intros [= <-]|].
  unfold sbind. destruct (p_save_decision _ _ _) as [s1 [[]|]] eqn:E; [|done].
  intros ->%IH. by rewrite (p_save_ok _ _ _ _ E).
Qed.

Lemma foldl_insert_keep ds (m : gmap N V) slot v :
  m !! slot = Some v → slot ∉ (d_slot <$> ds) →
  foldl (λ m d, <[d_slot d := p_norm (d_value d)]> m) m ds !! slot = Some v.
Proof.
  revert m. induction ds as [|d ds IH]; simpl; intros m Hm Hn; [done|].
  apply IH; [|set_solver]. rewrite lookup_insert_ne; set_solver.
Qed.

Lemma foldl_insert_in ds (m : gmap N V) d :
  NoDup (d_slot <$> ds) → d ∈ ds →
  foldl (λ m d, <[d_slot d := p_norm (d_value d)]> m) m ds !! d_slot d
    = Some (p_norm (d_value d)).
Proof.
  revert m. induction ds as [|d' ds IH]; simpl; intros m Hnd Hd; [set_solver|].
  apply NoDup_cons in Hnd as [Hn Hnd]. apply elem_of_cons in Hd as [->|Hd]; [|by apply IH].
  apply foldl_insert_keep; [by rewrite lookup_insert_eq|done].
Qed.

(** C33. Decisions survive a restart: once [drain_decisions] has returned a
    node's decisions, a node restarted on the storage it left has decided
    each of them with the same value (as storage keeps values), knows nothing
    else about open slots and satisfies the invariant of a node. *)
Theorem paxos_drained_survive_restart e n tot hb p p1 ds q :
  NoDup (d_slot <$> ds) → drain_decisions p = (p1, Ok ds) →
  recover (new_with_config e n tot hb (storage p1)) = Some (q, Ok tt) →
  paxos_inv q ∧ instances q = ∅ ∧
  ∀ d, d ∈ ds → decided_slots q !! d_slot d = Some (p_norm (d_value d)).
Proof.
  intros Hnd Hdr Hrec. apply recover_spec in Hrec as (Hinv & Hd & Hi & _).
  split; [done|]. split; [done|]. intros d Hin. rewrite Hd.
  unfold drain_decisions in Hdr. simpl in Hdr.
  destruct (save_decisions _ _) as [s [[]|]] eqn:Hs; [|done]. injection Hdr as <- <-. simpl.
  rewrite (save_decisions_view _ _ _ Hs). by apply foldl_insert_in.
Qed.
End recovery.

(** ** A node of a cluster of three, over in-memory storage *)
Module PaxosSample.
Definition a := mkNodeId "a" 1.
Definition b := mkNodeId "b" 1.
Definition c := mkNodeId "c" 1.
Definition env : PEnv := mkPEnv 1000 (λ _, 0%N).
Definition fresh : PaxosProtocol N (PaxosMemoryStorage N) :=
  new_with_config env a 3 (from_millis 100) PaxosMemoryStorage_new.

Lemma fresh_inv : paxos_inv fresh.
Proof. split; simpl; intros ?; [by rewrite lookup_empty|rewrite lookup_empty; by intros []]. Qed.

(** The result of one event. *)
Definition after (mp : bool) (ev : PEvent N) (p : PaxosProtocol N (PaxosMemoryStorage N)) :=
  match run_pevent mp env ev p with Some (q, _) => q | None => p end.
Definition sent (mp : bool) (ev : PEvent N) (p : PaxosProtocol N (PaxosMemoryStorage N)) :=
  match run_pevent mp env ev p with Some (_, o) => o | None => [] end.

Definition told : PEvent N := PevReceive b (Decide 4 7%N).

Lemma paxos_event_keeps_inv_witness : paxos_inv (after false told fresh).
Proof.
  apply (paxos_event_keeps_inv false env told fresh (after false told fresh) (sent false told fresh));
    [apply fresh_inv|vm_compute; reflexivity].
Defined.

Lemma paxos_decisions_write_once_witness :
  decided_slots (after false told fresh) !! 4%N = Some 7%N.
Proof.
  destruct (paxos_decisions_write_once false env told fresh (after false told fresh)
    (sent false told fresh)) as (ds & Hp & _ & _ & Hn & _);
    [apply fresh_inv|vm_compute; reflexivity|].
  apply (Hn (mkDecision 4 7%N)). simpl in Hp. rewrite <- Hp. vm_compute. left.
Defined.

Definition saved : PaxosProtocol N (PaxosMemoryStorage N) :=
  (drain_decisions (after false told fresh)).1.
Definition reborn : PaxosProtocol N (PaxosMemoryStorage N) :=
  match recover (new_with_config env a 3 (from_millis 100) (storage saved)) with
  | Some (q, _) => q | None => fresh end.

Lemma paxos_drained_survive_restart_witness : decided_slots reborn !! 4%N = Some 7%N.
Proof.
  destruct (paxos_drained_survive_restart env a 3 (from_millis 100) (after false told fresh)
    saved [mkDecision 4 7%N] reborn) as (_ & _ & Hd);
    [apply NoDup_singleton|vm_compute; reflexivity|vm_compute; reflexivity|].
  apply (Hd (mkDecision 4 7%N)). left.
Defined.
End PaxosSample.
