(* ===== verification/PaxosAcceptor.v ===== *)
(** * Paxos: the acceptor's promises

    What an acceptor promises it keeps as long as it only handles messages:
    the promise of an open slot never goes down, and no value is accepted
    below it. The node's own proposals do not go through the acceptor: a
    proposal overwrites the promise of its slot, and the last part shows what
    that breaks. *)

From S2P Require Import Prelude Types Storage Paxos PaxosLocal PaxosDecisions.
Import Paxos.

Section acceptor.
Context {V St : Type} `{EqDecision V}.
Context (mp : bool).
Abbreviation PP := (PaxosProtocol V St).
Implicit Types (p : PP) (e : PEnv).

Definition slot_promise p (slot : N) : option ProposalNumber :=
  i ← instances p !! slot; highest_promised i.

Definition floor_le (a b : option ProposalNumber) : Prop :=
  ∀ x, a = Some x → ∃ y, b = Some y ∧ pn_le x y.

#[global] Instance floor_le_preorder : PreOrder floor_le.
Proof.
  split.
  - intros a x ->. exists x. split; [done|reflexivity].
  - intros a b c Hab Hbc x Hx. destruct (Hab _ Hx) as (y & Hy & ?), (Hbc _ Hy) as (z & ? & ?).
    exists z. split; [done|]. by etransitivity.
Qed.

Lemma floor_le_Some a pn : (∀ x, a = Some x → pn_le x pn) → floor_le a (Some pn).
Proof. intros Ha x Hx. eauto. Qed.

(** No promise of an open slot, and no leader promise, was lowered. *)
Record keeps_promises (p p1 : PP) : Prop := {
  kp_slot slot : decided_slots p1 !! slot = None →
    floor_le (slot_promise p slot) (slot_promise p1 slot);
  kp_leader : floor_le (leader_promise p) (leader_promise p1);
  kp_open slot : decided_slots p1 !! slot = None → decided_slots p !! slot = None;
}.

#[global] Instance keeps_promises_preorder : PreOrder keeps_promises.
Proof.
  split.
  - intros p. split; [|reflexivity|done]. intros. reflexivity.
  - intros p p1 p2 [S1 L1 O1] [S2 L2 O2]. split; [|by etransitivity|auto].
    intros slot Hs. etransitivity; [by apply S1, O2|by apply S2].
Qed.

Lemma keeps_idle p p1 :
  instances p1 = instances p → decided_slots p1 = decided_slots p →
  leader_promise p1 = leader_promise p → keeps_promises p p1.
Proof.
  intros Hi Hd Hl. split; unfold slot_promise; rewrite ?Hi, ?Hd, ?Hl; try done;
    intros; reflexivity.
Qed.

Lemma keeps_set slot i p p1 :
  instances p1 = <[slot := i]> (instances p) → decided_slots p1 = decided_slots p →
  leader_promise p1 = leader_promise p →
  floor_le (slot_promise p slot) (highest_promised i) → keeps_promises p p1.
Proof.
  intros Hi Hd Hl Hf. split; unfold slot_promise; rewrite ?Hi, ?Hd, ?Hl; try done.
  intros s _. destruct (decide_rel (=) s slot) as [->|Hne].
  - by rewrite lookup_insert_eq.
  - rewrite lookup_insert_ne by done. reflexivity.
Qed.

Lemma keeps_decide e slot v p p1 :
  decide mp e slot v p = Some p1 → keeps_promises p (remove_instance slot p1).
Proof.
  intros (next & fs & -> & _)%decide_shape. split; unfold slot_promise; simpl; [|reflexivity|].
  - intros s [Hs Hne]%lookup_insert_None. rewrite lookup_delete_ne by done. reflexivity.
  - by intros s [Hs _]%lookup_insert_None.
Qed.

Lemma keeps_decide_and_tell e slot v p p1 out :
  decide_and_tell mp e slot v p = Some (p1, out) → keeps_promises p p1.
Proof.
  unfold decide_and_tell. intros Hd. destruct (decide _ _ _ _ _) as [q|] eqn:Hq; [|done].
  simpl in Hd. injection Hd as <- <-. by eapply keeps_decide.
Qed.

Lemma slot_promise_create p slot :
  slot_promise p slot = highest_promised (get_or_create_instance p slot).
Proof. unfold slot_promise, get_or_create_instance. by destruct (instances p !! slot). Qed.

Lemma slot_promise_at p slot i :
  instances p !! slot = Some i → slot_promise p slot = highest_promised i.
Proof. unfold slot_promise. by intros ->. Qed.

(** ** Message by message *)
Lemma handle_prepare_keeps from slot pn p p1 out :
  handle_prepare from slot pn p = (p1, out) → keeps_promises p p1.
Proof.
  unfold handle_prepare. destruct (decided_slots p !! slot).
  { intros [= <- <-]. reflexivity. }
  pose proof (slot_promise_create p slot) as Hc.
  destruct (highest_promised _) as [hp|] eqn:Hhp; [destruct (pn_ltb hp pn) eqn:E|];
    intros [= <- <-]; (eapply keeps_set; [done..|]); rewrite Hc; simpl.
  - apply floor_le_Some. intros ? [= <-]. right. by apply pn_ltb_lt.
  - rewrite Hhp. reflexivity.
  - by apply floor_le_Some.
Qed.

Lemma effective_floor_slot p slot : floor_le (slot_promise p slot) (effective_floor mp p slot).
Proof.
  unfold effective_floor. fold (slot_promise p slot). destruct mp; [|reflexivity].
  destruct (slot_promise p slot) as [a|]; [|done]. destruct (leader_promise p) as [b|]; [|reflexivity].
  apply floor_le_Some. intros ? [= <-]. destruct (pn_leb b a) eqn:E; [reflexivity|].
  right. apply pn_ltb_lt. unfold pn_ltb. unfold pn_leb in E.
  rewrite pn_compare_antisym. by destruct (pn_compare b a).
Qed.

Lemma handle_accept_keeps from slot pn v p p1 out :
  handle_accept mp from slot pn v p = (p1, out) → keeps_promises p p1.
Proof.
  unfold handle_accept. destruct (decided_slots p !! slot).
  { intros [= <- <-]. reflexivity. }
  pose proof (effective_floor_slot p slot) as Hf.
  destruct (effective_floor mp p slot) as [hp|]; [destruct (pn_leb hp pn) eqn:E|];
    intros [= <- <-]; (eapply keeps_set; [done..|]); simpl.
  - etransitivity; [exact Hf|]. apply floor_le_Some. intros ? [= <-]. by apply pn_leb_le.
  - rewrite slot_promise_create. reflexivity.
  - apply floor_le_Some. intros x Hx. by destruct (Hf _ Hx) as (? & ? & _).
Qed.

Lemma start_phase2_keeps e slot p p1 out :
  start_phase2 mp e slot p = Some (p1, out) → keeps_promises p p1.
Proof.
  unfold start_phase2. intros Hs. destruct (instances p !! slot) as [i|] eqn:Hi; [|done].
  simpl in Hs. destruct (match highest_accepted i with Some _ => _ | None => _ end) as [v|]; [|done].
  simpl in Hs. set (i' := if is_none_or _ _ then _ else _) in Hs.
  assert (keeps_promises p (set_instance slot i' p)) as Hk.
  { eapply keeps_set; [done..|]. rewrite (slot_promise_at _ _ _ Hi). subst i'.
    destruct (is_none_or _ _) eqn:E; [|reflexivity]. simpl. apply floor_le_Some.
    intros x Hx. rewrite Hx in E. simpl in E. by apply pn_leb_le. }
  case_bool_decide.
  - apply keeps_decide_and_tell in Hs. by etransitivity.
  - by injection Hs as <- <-.
Qed.

Lemma handle_promise_keeps e from slot pn acc p p1 out :
  handle_promise mp e from slot pn acc p = Some (p1, out) → keeps_promises p p1.
Proof.
  unfold handle_promise. intros Hh. case_bool_decide; [by injection Hh as <- <-|].
  destruct (instances p !! slot) as [i|] eqn:Hi; [|by injection Hh as <- <-].
  destruct (_ && _); [|by injection Hh as <- <-]. simpl in Hh.
  match type of Hh with context [set_instance slot ?i' p] =>
    assert (keeps_promises p (set_instance slot i' p)) as Hk
      by (eapply keeps_set; [done..|]; rewrite (slot_promise_at _ _ _ Hi); reflexivity) end.
  case_bool_decide; [|by injection Hh as <- <-].
  apply start_phase2_keeps in Hh. by etransitivity.
Qed.

Lemma handle_accepted_keeps e from slot pn v p p1 out :
  handle_accepted mp e from slot pn v p = Some (p1, out) → keeps_promises p p1.
Proof.
  unfold handle_accepted. intros Hh. case_bool_decide; [by injection Hh as <- <-|].
  destruct (instances p !! slot) as [i|] eqn:Hi; [|by injection Hh as <- <-].
  destruct (_ && _); [|by injection Hh as <- <-]. simpl in Hh. case_bool_decide.
  - destruct (accepted i) as [acc|]; [|done]. simpl in Hh. apply keeps_decide_and_tell in Hh.
    etransitivity; [|exact Hh]. eapply keeps_set; [done..|].
    rewrite (slot_promise_at _ _ _ Hi). reflexivity.
  - injection Hh as <- <-. eapply keeps_set; [done..|].
    rewrite (slot_promise_at _ _ _ Hi). reflexivity.
Qed.

Lemma handle_decide_keeps e from slot v p p1 :
  handle_decide mp e from slot v p = Some p1 → keeps_promises p p1.
Proof.
  unfold handle_decide. intros Hh. set (p0 := if mp then _ else _) in Hh.
  assert (keeps_promises p p0) as Hk0.
  { subst p0. destruct mp; [|reflexivity].
    destruct (leader_state p) as [|[l|] t|]; try reflexivity. by apply keeps_idle. }
  case_bool_decide; [by injection Hh as <-|].
  set (p2 := match instances p0 !! slot with Some _ => _ | None => _ end) in Hh.
  assert (keeps_promises p0 p2) as Hk2.
  { subst p2. destruct (instances p0 !! slot) as [i|]; [|reflexivity].
    destruct (is_proposer i); [|reflexivity]. destruct (proposed_value i); [|reflexivity].
    case_bool_decide; [|reflexivity]. by apply keeps_idle. }
  destruct (decide _ _ _ _ _) as [q|] eqn:Hq; [|done]. simpl in Hh. injection Hh as <-.
  apply keeps_decide in Hq. do 2 (etransitivity; [eassumption|]). done.
Qed.

Lemma handle_nack_keeps e slot hp p : keeps_promises p (handle_nack mp e slot hp p).
Proof.
  unfold handle_nack. set (p0 := match instances p !! slot with Some _ => _ | None => _ end).
  assert (keeps_promises p p0) as Hk.
  { subst p0. destruct (instances p !! slot) as [i|] eqn:Hi; [|reflexivity].
    eapply keeps_set; [done..|]. rewrite (slot_promise_at _ _ _ Hi). reflexivity. }
  destruct mp; [|done]. etransitivity; [exact Hk|].
  destruct (is_LLeader _); by apply keeps_idle.
Qed.

Lemma handle_prepare_leader_keeps e from pn since p p1 out :
  handle_prepare_leader e from pn since p = Some (p1, out) → keeps_promises p p1.
Proof.
  unfold handle_prepare_leader. intros Hh. destruct (is_none_or _ _) eqn:E.
  - simpl in Hh. apply (inj Some), (inj2 pair) in Hh as [<- _].
    assert (floor_le (leader_promise p) (Some pn)) as Hf.
    { apply floor_le_Some. intros x Hx. rewrite Hx in E. right. by apply pn_ltb_lt. }
    split; unfold slot_promise; destruct (is_LLeader _); simpl;
      destruct (election p) as [el|]; simpl; try destruct (pn_ltb _ _); simpl; try done;
      intros; reflexivity.
  - destruct (leader_promise p); [|done]. simpl in Hh. by injection Hh as <- <-.
Qed.

Lemma handle_heartbeat_keeps e from t p : keeps_promises p (handle_heartbeat e from t p).
Proof.
  unfold handle_heartbeat. destruct (_ <=? _)%N; [|reflexivity]. unfold update_leader_contact.
  simpl. destruct (leader_state p); try by apply keeps_idle.
  destruct (_ <? _)%N; by apply keeps_idle.
Qed.

(** A message that does not make the node propose. *)
Definition plain (msg : PaxosMessage V) : bool :=
  match msg with PForward _ | PromiseLeader _ _ => false | _ => true end.

Lemma handle_message_keeps e from msg p p1 out :
  plain msg = true → handle_message mp e from msg p = Some (p1, out) → keeps_promises p p1.
Proof.
  unfold handle_message. intros Hpl Hh. destruct msg; try done;
    try (apply if_cases in Hh as [[_ Hh]|[_ Hh]]; [|by injection Hh as <- <-]).
  - apply (inj Some) in Hh. by eapply handle_prepare_keeps.
  - by eapply handle_promise_keeps.
  - apply (inj Some) in Hh. by eapply handle_accept_keeps.
  - by eapply handle_accepted_keeps.
  - destruct (handle_decide _ _ _ _ _ _) as [q|] eqn:Hd; [|done]. simpl in Hh.
    injection Hh as <- <-. by eapply handle_decide_keeps.
  - apply (inj Some), (inj2 pair) in Hh as [<- _]. apply handle_nack_keeps.
  - apply (inj Some), (inj2 pair) in Hh as [<- _]. apply handle_nack_keeps.
  - apply (inj Some), (inj2 pair) in Hh as [<- _]. apply handle_heartbeat_keeps.
  - by eapply handle_prepare_leader_keeps.
  - injection Hh as <- <-. by apply keeps_idle.
Qed.

(** ** What is accepted *)
Definition accepts (slot : N) (pn : ProposalNumber) (o : Outgoing (PaxosMessage V)) : Prop :=
  ∃ v, message o = Accepted slot pn v.

Lemma start_phase2_out e slot p p1 out :
  start_phase2 mp e slot p = Some (p1, out) →
  ∃ pn v, out = [mkOut Broadcast (Decide slot v)] ∨ out = [mkOut Broadcast (Accept slot pn v)].
Proof.
  unfold start_phase2. intros Hs. destruct (instances p !! slot) as [i|]; [|done].
  simpl in Hs. destruct (match highest_accepted i with Some _ => _ | None => _ end) as [v|]; [|done].
  simpl in Hs. exists (proposal_number i), v. case_bool_decide.
  - unfold decide_and_tell in Hs. destruct (decide _ _ _ _ _); [|done]. injection Hs as <- <-. auto.
  - injection Hs as <- <-. auto.
Qed.

(** Only an Accept at or above the floor of an open slot is accepted. *)
Lemma accepts_above_floor e from msg p p1 out o slot pn :
  plain msg = true → handle_message mp e from msg p = Some (p1, out) → o ∈ out →
  accepts slot pn o → decided_slots p !! slot = None ∧
  ∀ x, effective_floor mp p slot = Some x → pn_le x pn.
Proof.
  unfold handle_message. intros Hpl Hh Ho [v Hv]. destruct msg; try done;
    try (apply if_cases in Hh as [[_ Hh]|[_ Hh]]; [|injection Hh as <- <-; set_solver]).
  - apply (inj Some) in Hh. unfold handle_prepare in Hh.
    destruct (decided_slots p !! _); [|destruct (highest_promised _); [destruct (pn_ltb _ _)|]];
      injection Hh as <- <-; apply list_elem_of_singleton in Ho as ->; done.
  - unfold handle_promise in Hh. case_bool_decide; [injection Hh as <- <-; set_solver|].
    destruct (instances p !! _); [|injection Hh as <- <-; set_solver].
    destruct (_ && _); [|injection Hh as <- <-; set_solver]. simpl in Hh.
    case_bool_decide; [|injection Hh as <- <-; set_solver].
    apply start_phase2_out in Hh as (? & ? & [-> | ->]);
      apply list_elem_of_singleton in Ho as ->; done.
  - apply (inj Some) in Hh. unfold handle_accept in Hh.
    destruct (decided_slots p !! slot0) eqn:Hd;
      [injection Hh as <- <-; apply list_elem_of_singleton in Ho as ->; done|].
    destruct (effective_floor mp p slot0) as [hp|] eqn:Hf; [destruct (pn_leb _ _) eqn:E|];
      injection Hh as <- <-; apply list_elem_of_singleton in Ho as ->; simpl in Hv;
      simplify_eq; (split; [done|]); rewrite Hf; [|done].
    intros ? [= <-]. by apply pn_leb_le.
  - unfold handle_accepted in Hh. case_bool_decide; [injection Hh as <- <-; set_solver|].
    destruct (instances p !! _); [|injection Hh as <- <-; set_solver].
    destruct (_ && _); [|injection Hh as <- <-; set_solver]. simpl in Hh.
    case_bool_decide; [|injection Hh as <- <-; set_solver].
    destruct (accepted _); [|done]. simpl in Hh. unfold decide_and_tell in Hh.
    destruct (decide _ _ _ _ _); [|done]. injection Hh as <- <-.
    apply list_elem_of_singleton in Ho as ->. done.
  - destruct (handle_decide _ _ _ _ _ _); [|done]. injection Hh as <- <-. set_solver.
  - apply (inj Some), (inj2 pair) in Hh as [_ <-]. set_solver.
  - apply (inj Some), (inj2 pair) in Hh as [_ <-]. set_solver.
  - apply (inj Some), (inj2 pair) in Hh as [_ <-]. set_solver.
  - unfold handle_prepare_leader in Hh. destruct (is_none_or _ _).
    + apply (inj Some), (inj2 pair) in Hh as [_ <-]. apply list_elem_of_singleton in Ho as ->. done.
    + destruct (leader_promise p); [|done]. simpl in Hh. injection Hh as <- <-.
      apply list_elem_of_singleton in Ho as ->. done.
  - apply (inj Some), (inj2 pair) in Hh as [_ <-]. set_solver.
Qed.

(** A sequence of messages, with everything the node answers. *)
Fixpoint receive_all (msgs : list (PEnv * NodeId * PaxosMessage V)) (p : PP)
    : option (PP * list (Outgoing (PaxosMessage V))) :=
  match msgs with
  | [] => Some (p, [])
  | (e, from, msg) :: msgs =>
      '(p1, out) ← handle_message mp e from msg p;
      '(p2, outs) ← receive_all msgs p1;
      Some (p2, out ++ outs)
  end.

Lemma receive_all_floor pn slot msgs p p2 outs o pn' :
  (∀ q, keeps_promises p q → decided_slots q !! slot = None →
     floor_le (Some pn) (effective_floor mp q slot)) →
  Forall (λ m, plain m.2 = true) msgs → receive_all msgs p = Some (p2, outs) →
  o ∈ outs → accepts slot pn' o → pn_le pn pn'.
Proof.
  intros Hfl Hpl. revert p outs Hfl.
  induction Hpl as [|[[e from] msg] msgs Hm Hpl IH]; simpl; intros p outs Hfl Hr Ho Ha.
  { injection Hr as <- <-. set_solver. }
  destruct (handle_message _ _ _ _ _) as [[p1 out]|] eqn:Hh; [|done]. simpl in Hr.
  destruct (receive_all _ _) as [[p3 rest]|] eqn:Hrest; [|done]. simpl in Hr.
  injection Hr as <- <-. apply elem_of_app in Ho as [Ho|Ho].
  - destruct (accepts_above_floor _ _ _ _ _ _ _ _ _ Hm Hh Ho Ha) as [Hd Hx].
    destruct (Hfl p (reflexivity _) Hd pn eq_refl) as (y & Hy & Hle).
    etransitivity; [exact Hle|by apply Hx].
  - eapply IH; [|done|done|done]. intros q Hq. apply Hfl. etransitivity; [|exact Hq].
    by eapply handle_message_keeps.
Qed.
End acceptor.

Section claims.
Context {V St : Type} `{EqDecision V}.
Implicit Types (p : PaxosProtocol V St) (e : PEnv).

Lemma effective_floor_leader p slot :
  floor_le (leader_promise p) (effective_floor true p slot).
Proof.
  unfold effective_floor. destruct (leader_promise p) as [b|]; [|done].
  destruct (i ← instances p !! slot; highest_promised i) as [a|]; [|reflexivity].
  apply floor_le_Some. intros ? [= <-]. destruct (pn_leb b a) eqn:E; [|reflexivity].
  by apply pn_leb_le.
Qed.

(** C30. A promise is kept: an acceptor that has answered a Prepare of number
    [pn] with a Promise answers no later Accept for the slot with a lower
    number by accepting it, over any sequence of messages that does not make
    the node propose itself; and the Promise reports what it had accepted. *)
Theorem promise_kept mp e from slot pn acc p p1 out msgs p2 outs o pn' :
  handle_message mp e from (Prepare slot pn) p = Some (p1, out) →
  mkOut (Peer from) (Promise slot pn acc) ∈ out →
  Forall (λ m, plain m.2 = true) msgs → receive_all mp msgs p1 = Some (p2, outs) →
  o ∈ outs → accepts slot pn' o →
  pn_le pn pn' ∧ acc = accepted (get_or_create_instance p slot).
Proof.
  unfold handle_message. intros Hp Hin Hpl Hr Ho Ha. apply (inj Some) in Hp.
  assert (slot_promise p1 slot = Some pn ∧ acc = accepted (get_or_create_instance p slot))
    as [Hs ->].
  { unfold handle_prepare in Hp. destruct (decided_slots p !! slot); [|
      destruct (highest_promised _) as [hp|]; [destruct (pn_ltb _ _)|]];
      injection Hp as <- <-; apply list_elem_of_singleton in Hin; simplify_eq;
      unfold slot_promise; simpl; rewrite lookup_insert_eq; done. }
  split; [|done]. eapply receive_all_floor; [|done|done|done|done].
  intros q Hk Hd. rewrite <- Hs.
  etransitivity; [by apply (kp_slot _ _ Hk)|apply effective_floor_slot].
Qed.

(** C31. A leader promise covers every slot: under Multi-Paxos an acceptor
    that has answered a PrepareLeader of number [pn] with a PromiseLeader
    accepts nothing below [pn], in any slot, over any sequence of messages
    that does not make the node propose itself. *)
Theorem leader_promise_kept e from pn since acc p p1 out msgs p2 outs o slot pn' :
  handle_message true e from (PrepareLeader pn since) p = Some (p1, out) →
  mkOut (Peer from) (PromiseLeader pn acc) ∈ out →
  Forall (λ m, plain m.2 = true) msgs → receive_all true msgs p1 = Some (p2, outs) →
  o ∈ outs → accepts slot pn' o → pn_le pn pn'.
Proof.
  unfold handle_message. intros Hp Hin Hpl Hr Ho Ha.
  assert (leader_promise p1 = Some pn) as Hs.
  { unfold handle_prepare_leader in Hp. destruct (is_none_or _ _).
    - apply (inj Some), (inj2 pair) in Hp as [<- _]. simpl.
      destruct (is_LLeader _); simpl; destruct (election p) as [el|]; simpl; try done;
        by destruct (pn_ltb _ _).
    - destruct (leader_promise p); [|done]. simpl in Hp. injection Hp as <- <-.
      apply list_elem_of_singleton in Hin. done. }
  eapply receive_all_floor; [|done|done|done|done].
  intros q Hk Hd. rewrite <- Hs.
  etransitivity; [apply (kp_leader _ _ Hk)|apply effective_floor_leader].
Qed.
End claims.

Module AcceptorRun.
Import PaxosSample.

Definition prep : PaxosMessage N := Prepare 0 (5%N, c).
Definition promised := after false (PevReceive c prep) fresh.
(** An Accept below the promise, then one at it. *)
Definition later : list (PEnv * NodeId * PaxosMessage N) :=
  [(env, b, Accept 0 (3%N, b) 10%N); (env, c, Accept 0 (5%N, c) 11%N)].
Definition final (mp : bool) (p : PaxosProtocol N (PaxosMemoryStorage N)) :=
  match receive_all mp later p with Some (q, _) => q | None => p end.
Definition answers (mp : bool) (p : PaxosProtocol N (PaxosMemoryStorage N)) :=
  match receive_all mp later p with Some (_, o) => o | None => [] end.

Lemma promise_kept_witness : pn_le (5%N, c) (5%N, c).
Proof.
  refine (proj1 (promise_kept false env c 0 (5%N, c) None fresh promised
    [mkOut (Peer c) (Promise 0 (5%N, c) None)] later (final false promised)
    (answers false promised) (mkOut (Peer c) (Accepted 0 (5%N, c) 11%N)) (5%N, c) _ _ _ _ _ _)).
  - vm_compute; reflexivity.
  - left.
  - repeat constructor.
  - vm_compute; reflexivity.
  - vm_compute. right. left.
  - by exists 11%N.
Defined.

Definition prep_leader : PaxosMessage N := PrepareLeader (5%N, c) 0.
Definition led := after true (PevReceive c prep_leader) fresh.

Lemma leader_promise_kept_witness : pn_le (5%N, c) (5%N, c).
Proof.
  refine (leader_promise_kept env c (5%N, c) 0 [] fresh led
    [mkOut (Peer c) (PromiseLeader (5%N, c) [])] later (final true led) (answers true led)
    (mkOut (Peer c) (Accepted 0 (5%N, c) 11%N)) 0 (5%N, c) _ _ _ _ _ _).
  - vm_compute; reflexivity.
  - left.
  - repeat constructor.
  - vm_compute; reflexivity.
  - vm_compute. right. left.
  - by exists 11%N.
Defined.

(** A proposal of one's own lowers a promise: after promising number
    (5, c) for a slot, a node whose client proposes a value uses that very
    slot at round 1, and then accepts an Accept of number (3, b), below what
    it had promised. *)
Theorem own_proposal_breaks_promise :
  ∃ p1 p2 p3 out, run_pevent false env (PevReceive c prep) fresh
      = Some (p1, [mkOut (Peer c) (Promise 0 (5%N, c) None)]) ∧
    run_pevent false env (PevPropose 9%N) p1 = Some (p2, out) ∧
    run_pevent false env (PevReceive b (Accept 0 (3%N, b) 10%N)) p2
      = Some (p3, [mkOut (Peer b) (Accepted 0 (3%N, b) 10%N)]) ∧
    pn_lt (3%N, b) (5%N, c).
Proof.
  exists promised, (after false (PevPropose 9%N) promised),
    (after false (PevReceive b (Accept 0 (3%N, b) 10%N)) (after false (PevPropose 9%N) promised)),
    (sent false (PevPropose 9%N) promised).
  split_and!; vm_compute; reflexivity.
Qed.
End AcceptorRun.
