(* ===== verification/PaxosProposer.v ===== *)
(** * Paxos: the proposer

    Value selection in phase 2, retries, log recovery of a new leader, and
    what a quorum of Accepted messages decides. *)

From S2P Require Import Prelude Types Storage Paxos PaxosLocal PaxosDecisions.
Import Paxos.

Section proposer.
Context {V St : Type} `{EqDecision V}.
Context (mp : bool).
Abbreviation PP := (PaxosProtocol V St).
Abbreviation Report := (option (ProposalNumber * V)).
Implicit Types (p : PP) (e : PEnv).

(** [h] is the highest-numbered value of the reports. *)
Definition is_best (rs : list Report) (h : Report) : Prop :=
  match h with
  | None => ∀ r, r ∈ rs → r = None
  | Some (pn, v) => Some (pn, v) ∈ rs ∧ ∀ pn' v', Some (pn', v') ∈ rs → pn_le pn' pn
  end.

(** What a promise does to the highest accepted value. *)
Definition note (acc h : Report) : Report :=
  match acc with
  | Some (apn, v) => if is_none_or h (λ ha, pn_ltb ha.1 apn) then Some (apn, v) else h
  | None => h
  end.

Lemma note_best rs h acc : is_best rs h → is_best (rs ++ [acc]) (note acc h).
Proof.
  unfold note, is_best. destruct acc as [[apn v]|].
  - destruct h as [[hpn hv]|]; simpl; intros Hb.
    + destruct (pn_ltb hpn apn) eqn:E.
      * split; [set_solver|]. apply pn_ltb_lt in E. intros pn' v' [Hin|Hin]%elem_of_app.
        -- destruct Hb as [_ Hb]. etransitivity; [by eapply Hb|by right].
        -- apply list_elem_of_singleton in Hin as [= -> ->]. reflexivity.
      * split; [set_solver|]. intros pn' v' [Hin|Hin]%elem_of_app; [by eapply Hb|].
        apply list_elem_of_singleton in Hin as [= -> ->]. apply pn_nlt_le.
        rewrite <- pn_ltb_lt. by rewrite E.
    + split; [set_solver|]. intros pn' v' [Hin|Hin]%elem_of_app.
      * by specialize (Hb _ Hin).
      * apply list_elem_of_singleton in Hin as [= -> ->]. reflexivity.
  - destruct h as [[hpn hv]|]; simpl; intros Hb.
    + split; [set_solver|]. intros pn' v' [Hin|Hin]%elem_of_app; [by eapply Hb|].
      by apply list_elem_of_singleton in Hin.
    + intros r [Hin|Hin]%elem_of_app; [by apply Hb|by apply list_elem_of_singleton in Hin].
Qed.

(** The slot is decided, or its proposer has noted exactly the reports [rs]. *)
Definition noted (slot : N) (pn : ProposalNumber) (v0 : V) (rs : list Report) (p : PP) : Prop :=
  is_Some (decided_slots p !! slot) ∨
  ∃ i, instances p !! slot = Some i ∧ proposal_number i = pn ∧
    proposed_value i = Some v0 ∧ decided i = false ∧ is_best rs (highest_accepted i).

(** The value phase 2 must use. *)
Definition chosen (v0 : V) (h : Report) : V := match h with Some (_, v) => v | None => v0 end.

Lemma start_phase2_spec e slot pn v0 rs i p p1 out :
  instances p !! slot = Some i → proposal_number i = pn → proposed_value i = Some v0 →
  decided i = false → is_best rs (highest_accepted i) →
  start_phase2 mp e slot p = Some (p1, out) →
  noted slot pn v0 rs p1 ∧
  (out = [mkOut Broadcast (Decide slot (chosen v0 (highest_accepted i)))] ∨
   out = [mkOut Broadcast (Accept slot pn (chosen v0 (highest_accepted i)))]).
Proof.
  intros Hi <- Hv0 Hdec Hb Hs. unfold start_phase2 in Hs. rewrite Hi in Hs. simpl in Hs.
  assert (match highest_accepted i with Some (_, v) => Some v | None => proposed_value i end
    = Some (chosen v0 (highest_accepted i))) as Hv.
  { unfold chosen. rewrite Hv0. by destruct (highest_accepted i) as [[]|]. }
  rewrite Hv in Hs. simpl in Hs. case_bool_decide.
  - unfold decide_and_tell in Hs. destruct (decide _ _ _ _ _) as [q|] eqn:Hq; [|done].
    simpl in Hs. injection Hs as <- <-. apply decide_shape in Hq as (? & ? & -> & _).
    split; [|by left]. left. simpl. rewrite lookup_insert_eq. eauto.
  - injection Hs as <- <-. split; [|by right]. right.
    eexists. split; [simpl; apply lookup_insert_eq|].
    destruct (is_none_or _ _); exact (conj eq_refl (conj Hv0 (conj Hdec Hb))).
Qed.

Lemma handle_promise_spec e from slot pn v0 rs acc p p1 out :
  noted slot pn v0 rs p → handle_promise mp e from slot pn acc p = Some (p1, out) →
  noted slot pn v0 (rs ++ [acc]) p1 ∧
  ∀ o, o ∈ out → ∃ h, is_best (rs ++ [acc]) h ∧ target o = Broadcast ∧
    (message o = Decide slot (chosen v0 h) ∨ message o = Accept slot pn (chosen v0 h)).
Proof.
  unfold handle_promise. intros Hn Hh. case_bool_decide as Hd.
  { injection Hh as <- <-. split; [by left|set_solver]. }
  destruct Hn as [?|(i & Hi & Hpn & Hv0 & Hdec & Hb)]; [done|]. rewrite Hi in Hh.
  rewrite bool_decide_eq_true_2, Hdec in Hh by done. simpl in Hh.
  pose proof (note_best _ _ acc Hb) as Hb'. fold (note acc (highest_accepted i)) in Hh.
  case_bool_decide.
  - eapply start_phase2_spec in Hh as [Hn Ho];
      [|simpl; apply lookup_insert_eq|done|done|done|exact Hb'].
    split; [done|]. simpl in Ho. intros o Hin. exists (note acc (highest_accepted i)).
    destruct Ho as [-> | ->]; apply list_elem_of_singleton in Hin as ->; auto.
  - injection Hh as <- <-. split; [|set_solver]. right. eexists.
    split; [simpl; apply lookup_insert_eq|]. exact (conj Hpn (conj Hv0 (conj eq_refl Hb'))).
Qed.

(** A sequence of promises for one slot and number. *)
Fixpoint promise_all (slot : N) (pn : ProposalNumber)
    (ps : list (PEnv * NodeId * Report)) (p : PP) : option PP :=
  match ps with
  | [] => Some p
  | (e, from, acc) :: ps =>
      '(p1, _) ← handle_promise mp e from slot pn acc p; promise_all slot pn ps p1
  end.

Lemma promise_all_noted slot pn v0 ps p p1 rs :
  noted slot pn v0 rs p → promise_all slot pn ps p = Some p1 →
  noted slot pn v0 (rs ++ (snd <$> ps)) p1.
Proof.
  revert p rs. induction ps as [|[[e from] acc] ps IH]; simpl; intros p rs Hn Hp.
  { injection Hp as <-. by rewrite app_nil_r. }
  destruct (handle_promise _ _ _ _ _ _ _) as [[p2 out]|] eqn:Hh; [|done]. simpl in Hp.
  destruct (handle_promise_spec _ _ _ _ _ _ _ _ _ _ Hn Hh) as [Hn2 _].
  specialize (IH _ _ Hn2 Hp). by rewrite <- app_assoc in IH.
Qed.

(** C32. Phase 2 value selection: a proposer that has just started a round
    and handles any sequence of promises for it sends, on each of them, only
    Accepts (or a Decide, when it is alone) whose value is that of the
    highest-numbered accepted value reported so far, or its own proposal if
    none was reported. *)
Theorem phase2_selects_highest slot pn v0 ps e from acc p i p1 p2 out o :
  instances p !! slot = Some i → proposal_number i = pn → proposed_value i = Some v0 →
  decided i = false → highest_accepted i = None →
  promise_all slot pn ps p = Some p1 →
  handle_promise mp e from slot pn acc p1 = Some (p2, out) → o ∈ out →
  ∃ h, is_best ((snd <$> ps) ++ [acc]) h ∧ target o = Broadcast ∧
    (message o = Decide slot (chosen v0 h) ∨ message o = Accept slot pn (chosen v0 h)).
Proof.
  intros Hi Hpn Hv0 Hdec Hha Hps Hh Ho.
  assert (noted slot pn v0 [] p) as Hn.
  { right. exists i. split_and!; try done. rewrite Hha. intros r Hr. set_solver. }
  apply (promise_all_noted _ _ _ _ _ _ _ Hn) in Hps. simpl in Hps.
  destruct (handle_promise_spec _ _ _ _ _ _ _ _ _ _ Hps Hh) as [_ Hout]. by apply Hout.
Qed.

(** Retries: a retry of an open proposal uses a number of this node that
    is strictly above the number of the last round, above the promise of the
    node's own acceptor and above every round reported by a nack; it forgets
    the promises, accepts and reports of the last round and keeps what the
    acceptor had accepted. *)
Theorem retry_number_strictly_higher e slot i p p1 out :
  instances p !! slot = Some i → decided i = false → is_proposer i = true →
  2 ≤ p_quorum_size p → retry_proposal mp e slot p = Some (p1, out) →
  ∃ pn i1, out = [mkOut Broadcast (Prepare slot pn)] ∧ pn.2 = node_id p ∧
    pn_lt (proposal_number i) pn ∧
    (∀ hp, highest_promised i = Some hp → pn_lt hp pn) ∧
    (∀ r, highest_seen_nack i = Some r → (r < pn.1)%N) ∧
    instances p1 !! slot = Some i1 ∧ proposal_number i1 = pn ∧
    highest_promised i1 = Some pn ∧ promises_received i1 = {[ node_id p ]} ∧
    accepts_received i1 = ∅ ∧ highest_accepted i1 = None ∧ accepted i1 = accepted i.
Proof.
  intros Hi Hdec Hprop Hq Hr. unfold retry_proposal in Hr. rewrite Hi, Hdec, Hprop in Hr.
  simpl in Hr. destruct (u64_add _ _) as [r|] eqn:E; [|done].
  destruct (u32_add _ _) as [rc|]; [|done]. apply checked_add_Some in E as [-> _]. simpl in Hr.
  case_bool_decide as Hsz.
  { change (p_quorum_size p ≤ size ({[ node_id p ]} : gset NodeId)) in Hsz.
    rewrite size_singleton in Hsz. lia. }
  injection Hr as <- <-.
  eexists _, _. split; [done|]. split; [done|]. simpl.
  split; [destruct (proposal_number i); apply pn_lt_round; simpl; lia|].
  split; [intros [] ->; apply pn_lt_round; simpl; lia|].
  split; [intros r ->; simpl; lia|]. split; [apply lookup_insert_eq|]. done.
Qed.

(** ** Log recovery of a new leader *)
Definition recovery_step p (m : gmap N (ProposalNumber * V)) (r : N * ProposalNumber * V) :=
  let '(slot, pn, v) := r in
  if bool_decide (is_Some (decided_slots p !! slot)) then m else
  match m !! slot with
  | Some (old, _) => if pn_leb pn old then m else <[slot := (pn, v)]> m
  | None => <[slot := (pn, v)]> m
  end.

Lemma highest_per_slot_eq p rs : highest_per_slot p rs = foldl (recovery_step p) ∅ rs.
Proof. done. Qed.

Definition reports_of (slot : N) (rs : list (N * ProposalNumber * V)) : list Report :=
  omap (λ '(s, pn, v), if bool_decide (s = slot) then Some (Some (pn, v)) else None) rs.

Lemma elem_of_reports slot rs pn v :
  Some (pn, v) ∈ reports_of slot rs ↔ (slot, pn, v) ∈ rs.
Proof.
  unfold reports_of. rewrite list_elem_of_omap. split.
  - intros ([[s pn'] v'] & Hin & Heq). case_bool_decide; simplify_eq. done.
  - intros Hin. exists (slot, pn, v). by rewrite bool_decide_eq_true_2.
Qed.

(** What the recovery map holds for a slot after the reports [rs]. *)
Definition recovered p (slot : N) (rs : list (N * ProposalNumber * V)) (h : Report) : Prop :=
  match h with
  | None => is_Some (decided_slots p !! slot) ∨ ∀ pn v, (slot, pn, v) ∉ rs
  | Some (pn, v) => decided_slots p !! slot = None ∧ (slot, pn, v) ∈ rs ∧
      ∀ pn' v', (slot, pn', v') ∈ rs → pn_le pn' pn
  end.

Lemma recovered_skip p slot rs h s pn v :
  s ≠ slot ∨ is_Some (decided_slots p !! slot) →
  recovered p slot rs h → recovered p slot (rs ++ [(s, pn, v)]) h.
Proof.
  intros Hs Hr. destruct h as [[hpn hv]|]; simpl in *.
  - destruct Hr as (Hd & Hin & Hmax). split; [done|]. split; [set_solver|].
    intros pn' v' [?|[= -> -> ->]%list_elem_of_singleton]%elem_of_app; [by eapply Hmax|].
    destruct Hs as [?|[? Hs]]; [done|congruence].
  - destruct Hs as [Hne|?]; [|by left]. destruct Hr as [?|Hr]; [by left|right].
    intros pn' v' [?|[= -> -> ->]%list_elem_of_singleton]%elem_of_app; [by eapply Hr|done].
Qed.

Lemma recovery_fold p slot rs :
  recovered p slot rs (foldl (recovery_step p) ∅ rs !! slot).
Proof.
  induction rs as [|[[s pn] v] rs IH] using rev_ind.
  { simpl. rewrite lookup_empty. right. set_solver. }
  rewrite foldl_snoc. set (m := foldl _ _ _) in *. unfold recovery_step.
  case_bool_decide as Hd.
  { apply recovered_skip; [|done]. destruct (decide_rel (=) s slot) as [->|]; auto. }
  apply eq_None_not_Some in Hd. destruct (decide_rel (=) s slot) as [->|Hne].
  2: { assert (∀ m', m' = m ∨ m' = <[s := (pn, v)]> m → recovered p slot (rs ++ [(s, pn, v)]) (m' !! slot)) as Hm'.
       { intros m' [->| ->]; [|rewrite lookup_insert_ne by done]; apply recovered_skip; auto. }
       destruct (m !! s) as [[old ?]|]; [destruct (pn_leb pn old)|]; auto. }
  destruct (m !! slot) as [[old ov]|] eqn:Hm; simpl in IH.
  - destruct IH as (_ & Hin & Hmax). destruct (pn_leb pn old) eqn:E.
    + rewrite Hm. simpl. split; [done|]. split; [set_solver|].
      intros pn' v' [?|[= -> ->]%list_elem_of_singleton]%elem_of_app; [by eapply Hmax|].
      by apply pn_leb_le.
    + rewrite lookup_insert_eq. simpl. split; [done|]. split; [set_solver|].
      assert (pn_le old pn) as Hle.
      { apply pn_nlt_le. intros Hlt. assert (pn_leb pn old = true); [|congruence].
        apply pn_leb_le. by right. }
      intros pn' v' [?|[= -> ->]%list_elem_of_singleton]%elem_of_app; [|reflexivity].
      etransitivity; [by eapply Hmax|done].
  - destruct IH as [[? ?]|Hnone]; [congruence|]. rewrite lookup_insert_eq. simpl.
    split; [done|]. split; [set_solver|].
    intros pn' v' [?|[= -> ->]%list_elem_of_singleton]%elem_of_app; [|reflexivity].
    by destruct (Hnone pn' v').
Qed.

(** Log recovery: of the accepted values a quorum reported to a new
    leader, the recovery map keeps for each slot the leader has not decided
    exactly the one with the highest number, and nothing for a slot that is
    decided or that nobody reported. *)
Theorem recovery_keeps_highest_per_slot p rs slot :
  match highest_per_slot p rs !! slot with
  | Some (pn, v) => decided_slots p !! slot = None ∧ (slot, pn, v) ∈ rs ∧
      ∀ pn' v', (slot, pn', v') ∈ rs → pn_le pn' pn
  | None => is_Some (decided_slots p !! slot) ∨ ∀ pn v, (slot, pn, v) ∉ rs
  end.
Proof. apply recovery_fold. Qed.

(** What a quorum of Accepted messages decides: an Accepted for the
    current round of an open slot is counted; below a quorum nothing else
    happens; with a quorum the node decides the value its own acceptor holds,
    closes the slot and tells its peers. *)
Theorem accepted_quorum_decides e from slot pn v i apn av p :
  decided_slots p !! slot = None → instances p !! slot = Some i →
  proposal_number i = pn → decided i = false → accepted i = Some (apn, av) →
  (slot < u64_max)%N →
  ∃ p1 out, handle_accepted mp e from slot pn v p = Some (p1, out) ∧
    if bool_decide (p_quorum_size p ≤ size ({[ from ]} ∪ accepts_received i))
    then decided_slots p1 = <[slot := av]> (decided_slots p) ∧ instances p1 !! slot = None ∧
         pending_decisions p1 = pending_decisions p ++ [mkDecision slot av] ∧
         out = [mkOut Broadcast (Decide slot av)]
    else decided_slots p1 = decided_slots p ∧ out = [] ∧
         accepts_received <$> (instances p1 !! slot) = Some ({[ from ]} ∪ accepts_received i).
Proof.
  intros Hd Hi Hpn Hdec Hacc Hmax. unfold handle_accepted.
  rewrite bool_decide_eq_false_2, Hi by (rewrite Hd; by intros []).
  rewrite bool_decide_eq_true_2, Hdec by done. simpl.
  case_bool_decide as Hq.
  - rewrite Hacc. simpl. unfold decide_and_tell.
    destruct (decide mp e slot av _) as [q|] eqn:Hq'.
    2: { unfold decide in Hq'. simpl in Hq'.
         destruct (if (next_slot p <=? slot)%N then _ else _) eqn:E; [by destruct mp|].
         destruct (next_slot p <=? slot)%N; [|done]. unfold u64_add in E.
         apply checked_add_None in E. lia. }
    simpl. apply decide_shape in Hq' as (next & fs & -> & _). eexists _, _. split; [done|].
    simpl. split; [done|]. split; [by rewrite lookup_delete_eq|done].
  - eexists _, _. split; [done|]. simpl. by rewrite lookup_insert_eq.
Qed.
End proposer.

Module ProposerRun.
Import PaxosSample.

(** [a] has proposed 1 in slot 0 and waits for promises. *)
Definition asking := after false (PevPropose 1%N) fresh.
Definition slot0 (p : PaxosProtocol N (PaxosMemoryStorage N)) : PaxosInstance N :=
  default PaxosInstance_new (instances p !! 0%N).
Definition report : option (ProposalNumber * N) := Some ((0%N, b), 8%N).

Lemma phase2_selects_highest_witness :
  ∃ h, is_best [report] h ∧ (8%N = chosen 1%N h ∨ h = None).
Proof.
  destruct (phase2_selects_highest false 0 (1%N, a) 1%N [] env b report asking (slot0 asking) asking
    (after false (PevReceive b (Promise 0 (1%N, a) report)) asking)
    [mkOut Broadcast (Accept 0 (1%N, a) 8%N)] (mkOut Broadcast (Accept 0 (1%N, a) 8%N)))
    as (h & Hb & _ & [Hm|Hm]);
    [vm_compute; reflexivity|vm_compute; reflexivity|vm_compute; reflexivity
    |vm_compute; reflexivity|vm_compute; reflexivity|reflexivity|vm_compute; reflexivity|left| |].
  - simpl in Hm. discriminate.
  - exists h. split; [exact Hb|]. left. simpl in Hm. by injection Hm.
Defined.

(** [a] was refused with round 7. *)
Definition refused := after false (PevReceive b (NackPrepare 0 (1%N, a) (7%N, b))) asking.

Lemma retry_number_strictly_higher_witness :
  ∃ p1 pn, retry_proposal false env 0 refused = Some (p1, [mkOut Broadcast (Prepare 0 pn)]) ∧
    (7 < pn.1)%N ∧ pn.2 = a.
Proof.
  destruct (retry_proposal false env 0 refused) as [[p1 out]|] eqn:Hr;
    [|vm_compute in Hr; discriminate].
  destruct (retry_number_strictly_higher false env 0 (slot0 refused) refused p1 out)
    as (pn & i1 & -> & Hn & _ & _ & Hk & _);
    [vm_compute; reflexivity|vm_compute; reflexivity|vm_compute; reflexivity|vm_compute; lia|exact Hr|].
  exists p1, pn. split; [reflexivity|]. split; [|exact Hn]. apply Hk. vm_compute. reflexivity.
Defined.

(** [a] has sent Accepts for slot 0 and accepted itself. *)
Definition accepting := after false (PevReceive b (Promise 0 (1%N, a) None)) asking.

Lemma accepted_quorum_decides_witness :
  ∃ p1 out, handle_accepted false env b 0 (1%N, a) 1%N accepting = Some (p1, out) ∧
    decided_slots p1 !! 0%N = Some 1%N.
Proof.
  destruct (accepted_quorum_decides false env b 0 (1%N, a) 1%N (slot0 accepting) (1%N, a) 1%N accepting)
    as (p1 & out & Hh & Hd);
    [vm_compute; reflexivity..|].
  exists p1, out. split; [exact Hh|].
  rewrite bool_decide_eq_true_2 in Hd by (vm_compute; lia).
  destruct Hd as [-> _]. reflexivity.
Defined.
End ProposerRun.
