(* ===== verification/PaxosValues.v ===== *)
(** * Paxos: where values come from

    A predicate on values that holds of everything a node stores and of what
    an event brings holds of everything the node stores and sends afterwards:
    no handler makes a value up. *)

From S2P Require Import Prelude Types Storage Paxos PaxosLocal.
Import Paxos.

Section values.
Context {V St : Type} `{EqDecision V}.
Context (mp : bool) (P : V → Prop).
Abbreviation PP := (PaxosProtocol V St).
Abbreviation Out := (list (Outgoing (PaxosMessage V))).
Implicit Types (p : PP) (e : PEnv) (i : PaxosInstance V) (out : Out).

Definition opt_ok (o : option (ProposalNumber * V)) : Prop := ∀ pn v, o = Some (pn, v) → P v.

Record inst_ok i : Prop := {
  io_highest : opt_ok (highest_accepted i);
  io_accepted : opt_ok (accepted i);
  io_proposed v : proposed_value i = Some v → P v;
}.

Record vals_ok p : Prop := {
  vo_inst slot i : instances p !! slot = Some i → inst_ok i;
  vo_decided slot v : decided_slots p !! slot = Some v → P v;
  vo_pending : Forall (λ d, P (d_value d)) (pending_decisions p);
  vo_recent : Forall (λ r, P r.2) (recent_decisions p);
  vo_forwarded : Forall (λ f, P (f_value f)) (forwarded_proposals p);
  vo_election el : election p = Some el → Forall (λ r, P r.2) (e_accepted el);
}.

Definition msg_ok (msg : PaxosMessage V) : Prop :=
  match msg with
  | Promise _ _ acc => opt_ok acc
  | Accept _ _ v | Accepted _ _ v | Decide _ v | PForward v => P v
  | PromiseLeader _ acc => Forall (λ r, P r.2) acc
  | _ => True
  end.
Definition outs_ok out : Prop := Forall (λ o, msg_ok (message o)) out.
Definition res_ok (r : PP * Out) : Prop := vals_ok r.1 ∧ outs_ok r.2.

Lemma res_ok_quiet p : vals_ok p → res_ok (p, []).
Proof. intros Hv. split; [done|constructor]. Qed.

Lemma new_inst_ok : inst_ok PaxosInstance_new.
Proof. by split. Qed.

Lemma create_ok p slot : vals_ok p → inst_ok (get_or_create_instance p slot).
Proof.
  intros Hv. unfold get_or_create_instance. destruct (instances p !! slot) eqn:E; simpl.
  - by eapply vo_inst.
  - apply new_inst_ok.
Qed.

(** A change of the fields that hold no values. *)
Lemma vals_ok_same p p1 :
  vals_ok p → instances p1 = instances p → decided_slots p1 = decided_slots p →
  pending_decisions p1 = pending_decisions p → recent_decisions p1 = recent_decisions p →
  forwarded_proposals p1 = forwarded_proposals p →
  (election p1 = election p ∨ election p1 = None) → vals_ok p1.
Proof.
  intros [] E1 E2 E3 E4 E5 E6. split; rewrite ?E1, ?E2, ?E3, ?E4, ?E5; try done.
  destruct E6 as [->| ->]; done.
Qed.

Lemma vals_ok_set slot i p p1 :
  vals_ok p → inst_ok i → instances p1 = <[slot := i]> (instances p) →
  decided_slots p1 = decided_slots p →
  pending_decisions p1 = pending_decisions p → recent_decisions p1 = recent_decisions p →
  forwarded_proposals p1 = forwarded_proposals p → election p1 = election p → vals_ok p1.
Proof.
  intros [] Hi E1 E2 E3 E4 E5 E6. split; rewrite ?E1, ?E2, ?E3, ?E4, ?E5, ?E6; try done.
  intros s j [[<- <-]|[_ ?]]%lookup_insert_Some; eauto.
Qed.

Lemma remove_forwarded_ok v fs :
  Forall (λ f, P (f_value f)) fs → Forall (λ f, P (f_value f)) (remove_forwarded v fs).
Proof.
  induction 1 as [|f fs Hf Hfs IH]; simpl; [constructor|]. case_bool_decide; [done|by constructor].
Qed.

Lemma decide_ok e slot v p p1 :
  vals_ok p → P v → decide mp e slot v p = Some p1 → vals_ok (remove_instance slot p1).
Proof.
  intros [] Hv Hd.
  assert (Forall (λ f, P (f_value f)) (forwarded_proposals p1)) as Hf.
  { unfold decide in Hd. destruct (if (_ <=? _)%N then _ else _); [|done]. simpl in Hd.
    destruct mp; injection Hd as <-; simpl; [by apply remove_forwarded_ok|done]. }
  apply decide_shape in Hd as (next & fs & -> & _). simpl in Hf. split; simpl; try done.
  - intros s i [_ ?]%lookup_delete_Some. eauto.
  - intros s w [[_ <-]|[_ ?]]%lookup_insert_Some; eauto.
  - apply Forall_app. split; [done|by apply Forall_singleton].
  - apply Forall_app. split; [done|by apply Forall_singleton].
Qed.

Lemma decide_and_tell_ok e slot v p r :
  vals_ok p → P v → decide_and_tell mp e slot v p = Some r → res_ok r.
Proof.
  unfold decide_and_tell. intros Hv Hp Hd. destruct (decide _ _ _ _ _) as [q|] eqn:Hq; [|done].
  simpl in Hd. injection Hd as <-. split; [by eapply decide_ok|by apply Forall_singleton].
Qed.

(** ** The acceptor *)
Lemma handle_prepare_ok from slot pn p : vals_ok p → res_ok (handle_prepare from slot pn p).
Proof.
  intros Hv. unfold handle_prepare. destruct (decided_slots p !! slot) as [v|] eqn:Hd.
  { split; [done|]. apply Forall_singleton. by eapply vo_decided. }
  pose proof (create_ok p slot Hv) as Hi.
  destruct (highest_promised _) as [hp|]; [destruct (pn_ltb _ _)|];
    (split; [eapply vals_ok_set; [done| |done..]; by destruct Hi|]);
    apply Forall_singleton; simpl; try done; by destruct Hi.
Qed.

Lemma handle_accept_ok from slot pn v p :
  vals_ok p → P v → res_ok (handle_accept mp from slot pn v p).
Proof.
  intros Hv Hp. unfold handle_accept. destruct (decided_slots p !! slot) as [dv|] eqn:Hd.
  { split; [done|]. apply Forall_singleton. by eapply vo_decided. }
  pose proof (create_ok p slot Hv) as Hi.
  set (i := get_or_create_instance p slot) in *.
  assert (inst_ok {| i with highest_promised := Some pn; accepted := Some (pn, v) |}) as Hi'.
  { destruct Hi. split; simpl; try done. intros ? ? [= _ <-]. done. }
  destruct (effective_floor _ _ _) as [hp|]; [destruct (pn_leb _ _)|];
    (split; [eapply vals_ok_set; [done| |done..]; done|by apply Forall_singleton]).
Qed.

(** ** The proposer *)
Lemma start_phase2_ok e slot p r :
  vals_ok p → start_phase2 mp e slot p = Some r → res_ok r.
Proof.
  intros Hv Hs. unfold start_phase2 in Hs. destruct (instances p !! slot) as [i|] eqn:Hi; [|done].
  pose proof (vo_inst _ Hv _ _ Hi) as Hio. simpl in Hs.
  destruct (match highest_accepted i with Some _ => _ | None => _ end) as [v|] eqn:Hval; [|done].
  assert (P v) as HP.
  { destruct (highest_accepted i) as [[pn w]|] eqn:Hh.
    - injection Hval as <-. by eapply (io_highest _ Hio).
    - by eapply (io_proposed _ Hio). }
  simpl in Hs. set (i' := if is_none_or _ _ then _ else _) in Hs.
  assert (inst_ok i') as Hio'.
  { subst i'. destruct (is_none_or _ _); [|done]. destruct Hio. split; simpl; try done.
    intros ? ? [= _ <-]. done. }
  assert (vals_ok (set_instance slot i' p)) as Hv' by (by eapply vals_ok_set).
  case_bool_decide; [by eapply decide_and_tell_ok|].
  injection Hs as <-. split; [done|by apply Forall_singleton].
Qed.

Lemma handle_promise_ok e from slot pn acc p r :
  vals_ok p → opt_ok acc → handle_promise mp e from slot pn acc p = Some r → res_ok r.
Proof.
  unfold handle_promise. intros Hv Ha Hh.
  case_bool_decide; [injection Hh as <-; by apply res_ok_quiet|].
  destruct (instances p !! slot) as [i|] eqn:Hi; [|injection Hh as <-; by apply res_ok_quiet].
  destruct (_ && _); [|injection Hh as <-; by apply res_ok_quiet]. simpl in Hh.
  pose proof (vo_inst _ Hv _ _ Hi) as [H1 H2 H3].
  match type of Hh with context [set_instance slot ?i' p] =>
    assert (vals_ok (set_instance slot i' p)) as Hv' end.
  { eapply vals_ok_set; [done| |done..]. split; simpl; try done.
    destruct acc as [[apn v]|]; [|done]. destruct (is_none_or _ _); [|done].
    intros ? ? [= <- <-]. by eapply Ha. }
  case_bool_decide; [by eapply start_phase2_ok|]. injection Hh as <-. by apply res_ok_quiet.
Qed.

Lemma handle_accepted_ok e from slot pn v p r :
  vals_ok p → handle_accepted mp e from slot pn v p = Some r → res_ok r.
Proof.
  unfold handle_accepted. intros Hv Hh.
  case_bool_decide; [injection Hh as <-; by apply res_ok_quiet|].
  destruct (instances p !! slot) as [i|] eqn:Hi; [|injection Hh as <-; by apply res_ok_quiet].
  destruct (_ && _); [|injection Hh as <-; by apply res_ok_quiet]. simpl in Hh.
  pose proof (vo_inst _ Hv _ _ Hi) as [H1 H2 H3]. case_bool_decide.
  - destruct (accepted i) as [[apn av]|] eqn:Hacc; [|done]. simpl in Hh.
    eapply decide_and_tell_ok in Hh; [done| |by eapply H2].
    eapply vals_ok_set; [done| |done..]. split; simpl; try done.
  - injection Hh as <-. apply res_ok_quiet. eapply vals_ok_set; [done| |done..]. by split.
Qed.

Lemma handle_decide_ok e from slot v p p1 :
  vals_ok p → P v → handle_decide mp e from slot v p = Some p1 → vals_ok p1.
Proof.
  unfold handle_decide. intros Hv Hp Hh. set (p0 := if mp then _ else _) in Hh.
  assert (vals_ok p0) as Hv0.
  { subst p0. destruct mp; [|done]. destruct (leader_state p) as [|[l|] t|]; try done.
    eapply vals_ok_same; try done. by left. }
  case_bool_decide; [by injection Hh as <-|].
  set (p2 := match instances p0 !! slot with Some _ => _ | None => _ end) in Hh.
  assert (vals_ok p2) as Hv2.
  { subst p2. destruct (instances p0 !! slot) as [i|]; [|done].
    destruct (is_proposer i); [|done]. destruct (proposed_value i); [|done].
    case_bool_decide; [|done]. eapply vals_ok_same; try done. by left. }
  destruct (decide _ _ _ _ _) as [q|] eqn:Hq; [|done]. simpl in Hh. injection Hh as <-.
  by eapply decide_ok.
Qed.

Lemma handle_nack_ok e slot hp p : vals_ok p → vals_ok (handle_nack mp e slot hp p).
Proof.
  intros Hv. unfold handle_nack.
  set (p0 := match instances p !! slot with Some _ => _ | None => _ end).
  assert (vals_ok p0) as Hv0.
  { subst p0. destruct (instances p !! slot) as [i|] eqn:Hi; [|done].
    pose proof (vo_inst _ Hv _ _ Hi) as [H1 H2 H3].
    eapply vals_ok_set; [done| |done..]. by split. }
  destruct mp; [|done].
  destruct (is_LLeader _); (eapply vals_ok_same; [exact Hv0|done..|by left]).
Qed.

Lemma propose_full_paxos_ok e v p r :
  vals_ok p → P v → propose_full_paxos mp e v p = Some r → res_ok r.
Proof.
  unfold propose_full_paxos. intros Hv Hp Hh.
  destruct (u64_add _ _) as [next|]; [|done]. simpl in Hh.
  match type of Hh with context [set_instance ?s ?i' ?p'] =>
    assert (vals_ok (set_instance s i' p')) as Hv' end.
  { eapply vals_ok_set; [exact Hv| |done..].
    pose proof (create_ok p (next_slot p) Hv) as [H1 H2 H3]. split; simpl; try done.
    by intros ? [= <-]. }
  case_bool_decide; [by eapply start_phase2_ok|].
  injection Hh as <-. split; [done|by apply Forall_singleton].
Qed.

Lemma propose_fast_path_ok e v t p r :
  vals_ok p → P v → propose_fast_path mp e v t p = Some r → res_ok r.
Proof.
  unfold propose_fast_path. intros Hv Hp Hh.
  destruct (u64_add _ _) as [next|]; [|done]. simpl in Hh.
  match type of Hh with context [set_instance ?s ?i' ?p'] =>
    assert (vals_ok (set_instance s i' p')) as Hv' end.
  { eapply vals_ok_set; [exact Hv| |done..].
    pose proof (create_ok p (next_slot p) Hv) as [H1 H2 H3]. split; simpl; try done.
    - by intros ? ? [= _ <-].
    - by intros ? [= <-]. }
  case_bool_decide; [by eapply decide_and_tell_ok|].
  injection Hh as <-. split; [done|by apply Forall_singleton].
Qed.

Lemma inner_propose_ok e v p r :
  vals_ok p → P v → inner_propose mp e v p = Some r → res_ok r.
Proof.
  intros Hv Hp [Hh|(t & _ & _ & Hh)]%inner_propose_cases;
    [by eapply propose_full_paxos_ok|by eapply propose_fast_path_ok].
Qed.

Lemma retry_proposal_ok e slot p r :
  vals_ok p → retry_proposal mp e slot p = Some r → res_ok r.
Proof.
  unfold retry_proposal. intros Hv Hh.
  destruct (instances p !! slot) as [i|] eqn:Hi; [|injection Hh as <-; by apply res_ok_quiet].
  destruct (_ && _); [|injection Hh as <-; by apply res_ok_quiet].
  destruct (u64_add _ _); [|done]. destruct (u32_add _ _); [|done]. simpl in Hh.
  match type of Hh with context [set_instance ?s ?i' ?p'] =>
    assert (vals_ok (set_instance s i' p')) as Hv' end.
  { eapply vals_ok_set; [exact Hv| |done..].
    pose proof (vo_inst _ Hv _ _ Hi) as [H1 H2 H3]. by split. }
  case_bool_decide; [by eapply start_phase2_ok|].
  injection Hh as <-. split; [done|by apply Forall_singleton].
Qed.

(** ** Leadership *)
Lemma collect_ok since p : vals_ok p → Forall (λ r, P r.2) (collect_accepted_for_promise since p).
Proof.
  intros Hv. apply Forall_forall. intros [[s pn] v] Hin.
  apply list_elem_of_omap in Hin as ([s' i] & Hi%elem_of_map_to_list & Heq).
  destruct (_ <? _)%N; [done|]. case_bool_decide; [done|].
  destruct (accepted i) as [[apn av]|] eqn:Hacc; [|done]. injection Heq as <- <- <-.
  by eapply (io_accepted _ (vo_inst _ Hv _ _ Hi)).
Qed.

Lemma replay_accept_ok e slot pn v p r :
  vals_ok p → P v → replay_accept mp e slot pn v p = Some r → res_ok r.
Proof.
  unfold replay_accept. intros Hv Hp Hh.
  case_bool_decide; [injection Hh as <-; by apply res_ok_quiet|]. simpl in Hh.
  match type of Hh with context [set_instance ?s ?i' ?p'] =>
    assert (vals_ok (set_instance s i' p')) as Hv' end.
  { eapply vals_ok_set; [exact Hv| |done..].
    pose proof (create_ok p slot Hv) as [H1 H2 H3]. split; simpl; try done.
    - by intros ? ? [= _ <-].
    - by intros ? [= <-]. }
  case_bool_decide; [by eapply decide_and_tell_ok|].
  injection Hh as <-. split; [done|by apply Forall_singleton].
Qed.

Lemma replay_all_ok e pn slots p r :
  vals_ok p → Forall (λ sv, P sv.2) slots → replay_all mp e pn slots p = Some r → res_ok r.
Proof.
  intros Hv Hs. revert p r Hv. induction Hs as [|[slot v] slots Hp Hs IH]; simpl; intros p r Hv Hh.
  { injection Hh as <-. by apply res_ok_quiet. }
  destruct (replay_accept _ _ _ _ _ _) as [[p2 o]|] eqn:Hr; [|done]. simpl in Hh.
  apply replay_accept_ok in Hr as [Hv2 Ho]; [|done..].
  destruct (replay_all _ _ _ _ _) as [[p3 o']|] eqn:Ha; [|done]. simpl in Hh.
  apply IH in Ha as [Hv3 Ho']; [|done]. injection Hh as <-. split; [done|by apply Forall_app].
Qed.

Lemma highest_per_slot_ok p rs :
  Forall (λ r, P r.2) rs → map_Forall (λ _ h, P h.2) (highest_per_slot p rs).
Proof.
  unfold highest_per_slot. assert (map_Forall (λ _ (h : ProposalNumber * V), P h.2)
    (∅ : gmap N _)) as He by apply map_Forall_empty. revert He. generalize (∅ : gmap N (ProposalNumber * V)).
  intros m Hm Hrs. revert m Hm. induction Hrs as [|[[s pn] v] rs Hv Hrs IH]; simpl; intros m Hm; [done|].
  apply IH. case_bool_decide; [done|].
  destruct (m !! s) as [[old w]|]; [destruct (pn_leb _ _)|]; try done; by apply map_Forall_insert_2.
Qed.

Lemma advance_past_ok m p p1 : vals_ok p → advance_past m p = Some p1 → vals_ok p1.
Proof.
  unfold advance_past. intros Hv Hh. destruct m as [m|]; [|by injection Hh as <-].
  destruct (u64_add _ _); [|done]. simpl in Hh. injection Hh as <-.
  destruct (_ <? _)%N; [|done]. eapply vals_ok_same; [exact Hv|done..|by left].
Qed.

Lemma complete_leader_election_ok e p r :
  vals_ok p → complete_leader_election mp e p = Some r → res_ok r.
Proof.
  unfold complete_leader_election. intros Hv Hh.
  destruct (election p) as [el|] eqn:Hel; [|injection Hh as <-; by apply res_ok_quiet].
  simpl in Hh.
  match type of Hh with context [advance_past _ ?q] =>
    assert (vals_ok q) as Hv0 by (eapply vals_ok_same; [exact Hv|done..|by right]) end.
  destruct (advance_past _ _) as [p2|] eqn:H2; [|done]. simpl in Hh.
  destruct (advance_past _ p2) as [p3|] eqn:H3; [|done]. simpl in Hh.
  apply advance_past_ok in H2; [|done]. apply advance_past_ok in H3; [|done].
  eapply replay_all_ok in Hh; [done| |].
  - eapply vals_ok_same; [exact H3|done..|by left].
  - apply Forall_map, Forall_forall. intros [s [pn v]] Hin%elem_of_map_to_list. simpl.
    by eapply (highest_per_slot_ok _ _ (vo_election _ Hv _ Hel)) in Hin.
Qed.

Lemma start_election_ok e p r : vals_ok p → start_election mp e p = Some r → res_ok r.
Proof.
  unfold start_election. intros Hv Hh. destruct (u64_add _ _) as [rd|]; [|done]. simpl in Hh.
  match type of Hh with context [update_highest_seen_round rd ?q] =>
    assert (vals_ok (update_highest_seen_round rd q)) as Hv' end.
  { destruct Hv. split; simpl; try done. intros el [= <-]. simpl. apply collect_ok. by split. }
  case_bool_decide; [by eapply complete_leader_election_ok|].
  injection Hh as <-. split; [done|by apply Forall_singleton].
Qed.

Lemma handle_prepare_leader_ok e from pn since p r :
  vals_ok p → handle_prepare_leader e from pn since p = Some r → res_ok r.
Proof.
  unfold handle_prepare_leader. intros Hv Hh. destruct (is_none_or _ _).
  - apply (inj Some) in Hh as <-. simpl.
    match goal with |- res_ok (?q, _) => assert (vals_ok q) as Hq end.
    { destruct (is_LLeader _); simpl; destruct (election p) as [el|] eqn:Hel; simpl;
        try destruct (pn_ltb _ _); (eapply vals_ok_same; [exact Hv|done..|auto]). }
    split; [done|]. apply Forall_singleton. simpl. by apply collect_ok.
  - destruct (leader_promise p); [|done]. simpl in Hh. injection Hh as <-.
    split; [done|by apply Forall_singleton].
Qed.

Lemma handle_promise_leader_ok e from pn acc p r :
  vals_ok p → Forall (λ r, P r.2) acc →
  handle_promise_leader mp e from pn acc p = Some r → res_ok r.
Proof.
  unfold handle_promise_leader. intros Hv Ha Hh.
  destruct (election p) as [el|] eqn:Hel; [|injection Hh as <-; by apply res_ok_quiet].
  case_bool_decide; [|injection Hh as <-; by apply res_ok_quiet]. simpl in Hh.
  match type of Hh with context [complete_leader_election _ _ ?q] =>
    assert (vals_ok q) as Hv' end.
  { destruct Hv. split; simpl; try done. intros ? [= <-]. simpl. apply Forall_app.
    split; [by apply vo_election0|done]. }
  case_bool_decide; [by eapply complete_leader_election_ok|].
  injection Hh as <-. by apply res_ok_quiet.
Qed.

Lemma handle_heartbeat_ok e from t p : vals_ok p → vals_ok (handle_heartbeat e from t p).
Proof.
  intros Hv. unfold handle_heartbeat. destruct (_ <=? _)%N; [|done].
  unfold update_leader_contact. simpl.
  destruct (leader_state p); [destruct (_ <? _)%N|..];
    (eapply vals_ok_same; [exact Hv|done..|by left]).
Qed.

(** ** Ticks *)
Lemma propose_all_ok e vs p r :
  vals_ok p → Forall P vs → propose_all mp e vs p = Some r → res_ok r.
Proof.
  intros Hv Hs. revert p r Hv. induction Hs as [|v vs Hp Hs IH]; simpl; intros p r Hv Hh.
  { injection Hh as <-. by apply res_ok_quiet. }
  destruct (inner_propose _ _ _ _) as [[p2 o]|] eqn:Hr; [|done]. simpl in Hh.
  apply inner_propose_ok in Hr as [Hv2 Ho]; [|done..].
  destruct (propose_all _ _ _ _) as [[p3 o']|] eqn:Ha; [|done]. simpl in Hh.
  apply IH in Ha as [Hv3 Ho']; [|done]. injection Hh as <-. split; [done|by apply Forall_app].
Qed.

Lemma retry_all_ok e slots p r : vals_ok p → retry_all mp e slots p = Some r → res_ok r.
Proof.
  revert p r. induction slots as [|s slots IH]; simpl; intros p r Hv Hh.
  { injection Hh as <-. by apply res_ok_quiet. }
  destruct (retry_proposal _ _ _ _) as [[p2 o]|] eqn:Hr; [|done]. simpl in Hh.
  apply retry_proposal_ok in Hr as [Hv2 Ho]; [|done].
  destruct (retry_all _ _ _ _) as [[p3 o']|] eqn:Ha; [|done]. simpl in Hh.
  apply IH in Ha as [Hv3 Ho']; [|done]. injection Hh as <-. split; [done|by apply Forall_app].
Qed.

Lemma rebroadcasts_ok e p : vals_ok p → res_ok (get_decision_rebroadcasts e p).
Proof.
  intros Hv. unfold get_decision_rebroadcasts.
  assert (Forall (λ r, P r.2) (filter (λ r, (duration_since (now e) r.1.1 < from_secs 5)%N)
    (recent_decisions p))) as Hr.
  { apply Forall_forall. intros r [_ Hin]%list_elem_of_filter.
    by eapply Forall_forall in Hin; [|apply vo_recent]. }
  split; simpl; [|by apply Forall_map]. destruct Hv. by split.
Qed.

Lemma timeouts_ok e p r :
  vals_ok p → handle_forwarded_proposal_timeouts mp e p = Some r → res_ok r.
Proof.
  unfold handle_forwarded_proposal_timeouts. intros Hv Hh. simpl in Hh.
  assert (∀ Q (dec : ∀ f, base.Decision (Q f)), Forall (λ f, P (f_value f))
    (filter Q (forwarded_proposals p))) as Hf.
  { intros Q dec. apply Forall_forall. intros f [_ Hin]%list_elem_of_filter.
    by eapply Forall_forall in Hin; [|apply vo_forwarded]. }
  eapply propose_all_ok in Hh; [done| |apply Forall_map, Hf].
  destruct Hv. split; simpl; try done; apply Hf.
Qed.

Lemma propose_ok e v p r : vals_ok p → P v → propose mp e v p = Some r → res_ok r.
Proof.
  unfold propose. intros Hv Hp [[_ Hh]|[_ Hh]]%if_cases; [|by eapply inner_propose_ok].
  unfold propose_or_forward in Hh.
  destruct (get_leader p) as [l|]; [|by eapply inner_propose_ok].
  case_bool_decide; [|by eapply inner_propose_ok].
  injection Hh as <-. split; [|by apply Forall_singleton].
  destruct Hv. split; simpl; try done. apply Forall_app. split; [done|by apply Forall_singleton].
Qed.

Lemma handle_message_ok e from msg p r :
  vals_ok p → msg_ok msg → handle_message mp e from msg p = Some r → res_ok r.
Proof.
  unfold handle_message. intros Hv Hm Hh. destruct msg; simpl in Hm;
    try (apply if_cases in Hh as [[_ Hh]|[_ Hh]]; [|injection Hh as <-; by apply res_ok_quiet]).
  - apply (inj Some) in Hh as <-. by apply handle_prepare_ok.
  - by eapply handle_promise_ok.
  - apply (inj Some) in Hh as <-. by apply handle_accept_ok.
  - by eapply handle_accepted_ok.
  - destruct (handle_decide _ _ _ _ _ _) as [q|] eqn:Hd; [|done]. simpl in Hh.
    injection Hh as <-. apply res_ok_quiet. by eapply handle_decide_ok.
  - apply (inj Some) in Hh as <-. by apply res_ok_quiet, handle_nack_ok.
  - apply (inj Some) in Hh as <-. by apply res_ok_quiet, handle_nack_ok.
  - unfold handle_forward in Hh. destruct (is_LLeader _); [by eapply inner_propose_ok|].
    injection Hh as <-. by apply res_ok_quiet.
  - apply (inj Some) in Hh as <-. by apply res_ok_quiet, handle_heartbeat_ok.
  - by eapply handle_prepare_leader_ok.
  - by eapply handle_promise_leader_ok.
  - apply (inj Some) in Hh as <-. apply res_ok_quiet.
    eapply vals_ok_same; [exact Hv|done..|by right].
Qed.

Lemma on_tick_ok e p r : vals_ok p → on_tick mp e p = Some r → res_ok r.
Proof.
  unfold on_tick. intros Hv Hh.
  destruct (retry_all _ _ _ _) as [[p2 o2]|] eqn:H2; [|done]. cbn [mbind option_bind] in Hh.
  apply retry_all_ok in H2 as [Hv2 Ho2]; [|done]. simpl in Hv2, Ho2.
  pose proof (rebroadcasts_ok e p2 Hv2) as Hv3.
  destruct (get_decision_rebroadcasts e p2) as [p3 o3]. destruct Hv3 as [Hv3 Ho3].
  simpl in Hv3, Ho3. apply if_cases in Hh as [[_ Hh]|[_ Hh]].
  2: { injection Hh as <-. split; [done|by apply Forall_app]. }
  assert (res_ok (if should_send_heartbeat e p3 then make_heartbeat e p3 else (p3, []))) as Hr4.
  { destruct (should_send_heartbeat _ _); [|by apply res_ok_quiet]. unfold make_heartbeat.
    destruct (leader_state p3); try by apply res_ok_quiet.
    split; [eapply vals_ok_same; [exact Hv3|done..|by left]|by apply Forall_singleton]. }
  destruct (if should_send_heartbeat e p3 then make_heartbeat e p3 else (p3, [])) as [p4 o4].
  destruct Hr4 as [Hv4 Ho4]. simpl in Hv4, Ho4.
  set (p5 := check_election_timeout e p4) in Hh.
  assert (vals_ok p5) as Hv5.
  { subst p5. unfold check_election_timeout. destruct (election_started_at p4); [|done].
    destruct (_ && _); [|done]. eapply vals_ok_same; [exact Hv4|done..|by right]. }
  destruct (if check_leader_timeout e p5 then _ else _) as [[p6 o6]|] eqn:H6; [|done].
  assert (res_ok (p6, o6)) as [Hv6 Ho6].
  { destruct (check_leader_timeout _ _); [by eapply start_election_ok|].
    injection H6 as <- <-. by apply res_ok_quiet. }
  cbn [mbind option_bind] in Hh.
  destruct (handle_forwarded_proposal_timeouts _ _ _) as [[p7 o7]|] eqn:H7; [|done].
  apply timeouts_ok in H7 as [Hv7 Ho7]; [|done]. simpl in *. injection Hh as <-.
  split; [done|]. unfold outs_ok. simpl. by repeat (apply Forall_app; split).
Qed.

(** The values an event brings. *)
Definition event_ok (ev : PEvent V) : Prop :=
  match ev with PevPropose v => P v | PevReceive _ msg => msg_ok msg | PevTick => True end.

Lemma run_pevent_ok e ev p p1 out :
  vals_ok p → event_ok ev → run_pevent mp e ev p = Some (p1, out) → vals_ok p1 ∧ outs_ok out.
Proof.
  intros Hv He Hr. change (res_ok (p1, out)). destruct ev; simpl in *;
    [by eapply propose_ok|by eapply handle_message_ok|by eapply on_tick_ok].
Qed.
End values.
