(* ===== verification/PaxosNet.v ===== *)
(** * Paxos: a cluster over an unreliable network

    A cluster of Paxos nodes as a transition system, like the one of
    [RaftNet.v]: a packet once sent may be delivered at any time, any number
    of times or never, and a node may stop and restart from its storage. The
    values clients proposed are recorded. Validity holds in every reachable
    state; agreement does not, as the runs at the end show. *)

From S2P Require Import Prelude Types Network Storage Paxos PaxosLocal PaxosDecisions.
From S2P Require Import PaxosValues.
Import Paxos.

Inductive PStatus (V St : Type) :=
| PUp (p : PaxosProtocol V St)
| PDown (s : St).
Arguments PUp {V St}. Arguments PDown {V St}.

Record PNet (V St : Type) := mkPNet {
  pnodes : gmap NodeId (PStatus V St);
  ppackets : list (Packet (PaxosMessage V));
  pdelivered : list (NodeId * Decision V);
  proposals : list V;
}.
Arguments mkPNet {V St}. Arguments pnodes {V St}. Arguments ppackets {V St}.
Arguments pdelivered {V St}. Arguments proposals {V St}.

Section net.
Context {V St : Type} `{EqDecision V} `{PaxosStorage St V}.
Context (mp : bool) (cluster : gset NodeId) (hb : Duration).
Implicit Types (σ : PNet V St).

Definition penabled σ (n : NodeId) (ev : PEvent V) : Prop :=
  match ev with PevReceive from msg => mkPacket from n msg ∈ ppackets σ | _ => True end.

(** What a client's event adds to the record of proposals. *)
Definition proposed_by (ev : PEvent V) : list V :=
  match ev with PevPropose v => [v] | _ => [] end.

Inductive pstep (σ : PNet V St) : PNet V St → Prop :=
(** One pass of the event loop: handle, send, save and deliver. *)
| pstep_event n p e ev p1 out p2 ds :
    pnodes σ !! n = Some (PUp p) → penabled σ n ev →
    run_pevent mp e ev p = Some (p1, out) → drain_decisions p1 = (p2, Ok ds) →
    pstep σ {| pnodes := <[n := PUp p2]> (pnodes σ);
               ppackets := ppackets σ ++ packets_of cluster n out;
               pdelivered := pdelivered σ ++ map (pair n) ds;
               proposals := proposals σ ++ proposed_by ev |}
(** The node stops after sending, with [k] of its decisions saved. *)
| pstep_crash_deciding n p e ev p1 out k s r :
    pnodes σ !! n = Some (PUp p) → penabled σ n ev →
    run_pevent mp e ev p = Some (p1, out) →
    save_decisions (take k (pending_decisions p1)) (storage p1) = (s, r) →
    pstep σ {| pnodes := <[n := PDown s]> (pnodes σ);
               ppackets := ppackets σ ++ packets_of cluster n out;
               pdelivered := pdelivered σ;
               proposals := proposals σ ++ proposed_by ev |}
| pstep_crash n p :
    pnodes σ !! n = Some (PUp p) →
    pstep σ {| σ with pnodes := <[n := PDown (storage p)]> (pnodes σ) |}
| pstep_take_lost n p :
    pnodes σ !! n = Some (PUp p) →
    pstep σ {| σ with pnodes := <[n := PUp (take_lost_proposals p).1]> (pnodes σ) |}
| pstep_restart n s e p1 :
    pnodes σ !! n = Some (PDown s) →
    recover (new_with_config e n (size cluster) hb s) = Some (p1, Ok tt) →
    pstep σ {| σ with pnodes := <[n := PUp p1]> (pnodes σ) |}.
End net.

Section validity.
Context {V St U : Type} `{EqDecision V} `{PaxosStorageSpec St V}.
Context (mp : bool) (cluster : gset NodeId) (hb : Duration).
Context (obs : V → U) (obs_norm : ∀ v, obs (p_norm v) = obs v).
Implicit Types (σ : PNet V St).

Definition pinitial (σ : PNet V St) : Prop :=
  (∀ n st, pnodes σ !! n = Some st → ∃ s, st = PDown s ∧ p_view s = ∅) ∧
  ppackets σ = [] ∧ pdelivered σ = [] ∧ proposals σ = [].

Definition preachable (σ : PNet V St) : Prop :=
  ∃ σ0, pinitial σ0 ∧ rtc (pstep mp cluster hb) σ0 σ.

(** [v] looks like one of the values [ws]. *)
Definition genuine (ws : list V) (v : V) : Prop := ∃ w, w ∈ ws ∧ obs v = obs w.

Definition store_ok (P : V → Prop) (s : St) : Prop := map_Forall (λ _ v, P v) (p_view s).

Definition pstatus_ok (P : V → Prop) (st : PStatus V St) : Prop :=
  match st with
  | PUp p => paxos_inv p ∧ vals_ok P p ∧ store_ok P (storage p)
  | PDown s => store_ok P s
  end.

Record genuine_net (P : V → Prop) (σ : PNet V St) : Prop := {
  gn_nodes : map_Forall (λ _ st, pstatus_ok P st) (pnodes σ);
  gn_packets : Forall (λ pkt, msg_ok P (body pkt)) (ppackets σ);
  gn_delivered : Forall (λ nd, P (d_value nd.2)) (pdelivered σ);
}.

Lemma save_decisions_ok (P : V → Prop) ds (s s' : St) r :
  (∀ v, P v → P (p_norm v)) → Forall (λ d, P (d_value d)) ds → store_ok P s →
  save_decisions ds s = (s', r) → store_ok P s'.
Proof.
  intros Hn Hds. revert s. induction Hds as [|d ds Hd Hds IH]; simpl; intros s Hs.
  { by intros [= <- <-]. }
  unfold sbind. destruct (p_save_decision _ _ _) as [s1 [[]|er]] eqn:E.
  - apply IH. unfold store_ok. rewrite (p_save_ok _ _ _ _ E). apply map_Forall_insert_2; auto.
  - intros [= <- <-]. unfold store_ok. by rewrite (p_save_err _ _ _ _ _ E).
Qed.

Lemma packets_of_ok (P : V → Prop) n out :
  outs_ok P out → Forall (λ pkt, msg_ok P (body pkt)) (packets_of cluster n out).
Proof.
  intros Ho. apply Forall_forall. intros pkt (_ & _ & _ & o & Hin & -> & _)%packets_of_inv.
  by eapply Forall_forall in Hin; [|exact Ho].
Qed.

Lemma vals_ok_weaken (P Q : V → Prop) p : (∀ v, P v → Q v) → vals_ok (St:=St) P p → vals_ok Q p.
Proof.
  intros Hpq [H1 H2 H3 H4 H5 H6]. split; eauto using Forall_impl.
  intros slot i Hi. destruct (H1 _ _ Hi) as [G1 G2 G3]. split; unfold opt_ok in *; eauto.
Qed.

Lemma msg_ok_weaken (P Q : V → Prop) msg : (∀ v, P v → Q v) → msg_ok P msg → msg_ok Q msg.
Proof.
  intros Hpq. destruct msg; simpl; auto.
  - intros Hm ? ? ?. eapply Hpq, Hm; eauto.
  - intros Hm. eapply Forall_impl; [exact Hm|]. auto.
Qed.

Lemma genuine_net_weaken (P Q : V → Prop) σ :
  (∀ v, P v → Q v) → genuine_net P σ → genuine_net Q σ.
Proof.
  intros Hpq [Hn Hp Hd]. split.
  - intros n st Hst. specialize (Hn _ _ Hst). destruct st; simpl in *.
    + destruct Hn as (Hi & Hv & Hs). split; [done|]. split; [by eapply vals_ok_weaken|].
      intros k v Hk. eauto.
    + intros k v Hk. eauto.
  - eapply Forall_impl; [exact Hp|]. intros pkt. by apply msg_ok_weaken.
  - eapply Forall_impl; [exact Hd|]. auto.
Qed.

Lemma init_vals_ok (P : V → Prop) ds (p p1 : PaxosProtocol V St) :
  vals_ok P p → Forall (λ d, P d.2) ds →
  initialize_from_decisions ds p = Some p1 → vals_ok P p1.
Proof.
  intros Hv Hds. revert p Hv. induction Hds as [|[slot v] ds Hd Hds IH]; simpl; intros p Hv Hi.
  { by injection Hi as <-. }
  destruct (if (_ <=? _)%N then _ else _); [|done]. simpl in Hi. eapply IH; [|exact Hi].
  destruct Hv. split; simpl; try done.
  intros s w [[_ <-]|[_ ?]]%lookup_insert_Some; eauto.
Qed.

Lemma recover_vals_ok (P : V → Prop) e n s p1 :
  store_ok P s → recover (new_with_config e n (size cluster) hb s) = Some (p1, Ok tt) →
  vals_ok P p1.
Proof.
  intros Hs Hr. unfold recover in Hr. simpl in Hr.
  destruct (p_load_decisions s) as [l|] eqn:Hl; [|done]. apply p_load_ok in Hl.
  destruct (initialize_from_decisions l _) as [q|] eqn:Hq; [|done]. simpl in Hr.
  injection Hr as <-. eapply init_vals_ok; [| |exact Hq].
  - by split; simpl; try constructor; intros ? ?; rewrite ?lookup_empty.
  - rewrite Hl. apply Forall_forall. intros [slot v] Hin%elem_of_map_to_list. by eapply Hs.
Qed.

Lemma genuine_event σ n p e ev p1 out :
  genuine_net (genuine (proposals σ)) σ → pnodes σ !! n = Some (PUp p) → penabled σ n ev →
  run_pevent mp e ev p = Some (p1, out) →
  let Q := genuine (proposals σ ++ proposed_by ev) in
  genuine_net Q σ ∧ paxos_inv p1 ∧ vals_ok Q p1 ∧ store_ok Q (storage p1) ∧ outs_ok Q out.
Proof.
  intros Hg Hn Hen Hr Q.
  assert (genuine_net Q σ) as HgQ.
  { eapply genuine_net_weaken; [|exact Hg]. intros v (w & Hw & ?). exists w. split; [set_solver|done]. }
  destruct (gn_nodes _ _ HgQ _ _ Hn) as (Hi & Hv & Hs).
  assert (event_ok Q ev) as He.
  { destruct ev as [v|from msg|]; simpl; [|..|done].
    - exists v. split; [set_solver|done].
    - by eapply Forall_forall in Hen; [|apply (gn_packets _ _ HgQ)]. }
  pose proof (run_pevent_moves _ _ _ _ _ _ Hi Hr) as Hm.
  destruct (run_pevent_ok mp _ _ _ _ _ _ Hv He Hr) as [Hv1 Ho].
  split; [done|]. split; [by eapply moves_inv|]. split; [done|]. split; [|done].
  by rewrite (moves_storage _ _ Hm).
Qed.

Lemma genuine_norm ws v : genuine ws v → genuine ws (p_norm v).
Proof. intros (w & ? & ?). exists w. by rewrite obs_norm. Qed.

Lemma genuine_net_update P σ n st1 :
  genuine_net P σ → pstatus_ok P st1 →
  genuine_net P {| σ with pnodes := <[n := st1]> (pnodes σ) |}.
Proof. intros [] Hst. split; simpl; try done. by apply map_Forall_insert_2. Qed.

Lemma genuine_step σ σ' :
  genuine_net (genuine (proposals σ)) σ → pstep mp cluster hb σ σ' → genuine_net (genuine (proposals σ')) σ'.
Proof.
  intros Hg Hs. destruct Hs as [n p e ev p1 out p2 ds Hn Hen Hr Hd
    |n p e ev p1 out k s r Hn Hen Hr Hw|n p Hn|n p Hn|n s e p1 Hn Hrec].
  - destruct (genuine_event _ _ _ _ _ _ _ Hg Hn Hen Hr) as (HgQ & Hi & Hv & Hst & Ho).
    unfold drain_decisions in Hd. simpl in Hd.
    destruct (save_decisions _ _) as [s' [[]|]] eqn:Hsv; [|done]. injection Hd as <- <-.
    eapply save_decisions_ok in Hsv; [|apply genuine_norm|apply Hv|exact Hst].
    split; simpl.
    + apply map_Forall_insert_2; [|apply HgQ].
      split; [by destruct Hi|]. split; [|done]. destruct Hv. by split.
    + apply Forall_app. split; [apply HgQ|by apply packets_of_ok].
    + apply Forall_app. split; [apply HgQ|]. apply Forall_map. apply Hv.
  - destruct (genuine_event _ _ _ _ _ _ _ Hg Hn Hen Hr) as (HgQ & _ & Hv & Hst & Ho).
    eapply save_decisions_ok in Hw; [|apply genuine_norm|apply Forall_take, Hv|exact Hst].
    split; simpl; [|by apply Forall_app; split; [apply HgQ|apply packets_of_ok]|apply HgQ].
    by apply map_Forall_insert_2; [|apply HgQ].
  - destruct (gn_nodes _ _ Hg _ _ Hn) as (_ & _ & ?). by apply genuine_net_update.
  - destruct (gn_nodes _ _ Hg _ _ Hn) as (Hi & Hv & ?). apply genuine_net_update; [done|].
    split; [by destruct Hi|]. split; [|done]. destruct Hv. by split.
  - pose proof (gn_nodes _ _ Hg _ _ Hn) as Hst. simpl in Hst. apply genuine_net_update; [done|].
    pose proof (recover_vals_ok _ _ _ _ _ Hst Hrec). apply recover_spec in Hrec as (Hi & _ & _ & Hsto).
    split; [done|]. split; [done|]. by rewrite Hsto.
Qed.

Lemma preachable_genuine σ : preachable σ → genuine_net (genuine (proposals σ)) σ.
Proof.
  intros (σ0 & (Hn & Hp & Hd & Hpr) & Hr).
  assert (genuine_net (genuine (proposals σ0)) σ0) as Hg0.
  { split; rewrite ?Hp, ?Hd; try constructor. intros n st Hst.
    destruct (Hn _ _ Hst) as (s & -> & Hs). simpl. unfold store_ok. rewrite Hs.
    apply map_Forall_empty. }
  clear Hn Hp Hd Hpr. induction Hr as [|? ? ? Hs ? IH]; [done|]. apply IH. by eapply genuine_step.
Qed.

(** C28. Validity: whatever a node of a Paxos cluster delivers as decided, in
    any reachable state, with lost, duplicated and reordered messages and
    restarts, and with or without leaders, is a value some client proposed,
    in every observation of values that storage preserves. *)
Theorem paxos_validity σ n d :
  preachable σ → (n, d) ∈ pdelivered σ → ∃ w, w ∈ proposals σ ∧ obs (d_value d) = obs w.
Proof.
  intros Hr Hin. apply preachable_genuine in Hr.
  by eapply Forall_forall in Hin; [|apply (gn_delivered _ _ Hr)].
Qed.
End validity.
