(* ===== verification/PaxosSlot.v ===== *)
(** * Paxos: one slot of one node

    What an event of a plain Paxos node (without the [multi-paxos] feature)
    does to one slot: the slot's proposer and acceptor state, its decision, and
    the messages about it. Every event is one of a few acts on every slot. *)

From S2P Require Import Prelude Types Storage Paxos PaxosLocal PaxosDecisions PaxosProposer.
Import Paxos.

(** The fields of an instance that safety depends on. *)
Record Core (V : Type) := mkCore {
  c_num : ProposalNumber;
  c_proms : gset NodeId;
  c_accs : gset NodeId;
  c_high : option (ProposalNumber * V);
  c_promised : option ProposalNumber;
  c_accepted : option (ProposalNumber * V);
  c_proposer : bool;
}.
Arguments mkCore {V}. Arguments c_num {V}. Arguments c_proms {V}. Arguments c_accs {V}.
Arguments c_high {V}. Arguments c_promised {V}. Arguments c_accepted {V}. Arguments c_proposer {V}.

Record Slot (V : Type) := mkSlot {
  s_core : Core V;
  s_decided : option V;
  s_recent : list V;
  s_next : N;
}.
Arguments mkSlot {V}. Arguments s_core {V}. Arguments s_decided {V}. Arguments s_recent {V}.
Arguments s_next {V}.

Section slot.
Context {V St : Type} `{EqDecision V}.
Abbreviation PP := (PaxosProtocol V St).
Abbreviation Out := (list (Outgoing (PaxosMessage V))).
Implicit Types (p : PP) (e : PEnv) (i : PaxosInstance V) (out : Out) (c : Core V).

Definition core i : Core V :=
  mkCore (proposal_number i) (promises_received i) (accepts_received i) (highest_accepted i)
    (highest_promised i) (accepted i) (is_proposer i).
Definition blank : Core V := core PaxosInstance_new.

Definition slot_of (s : N) p : Slot V :=
  mkSlot (core (get_or_create_instance p s)) (decided_slots p !! s)
    (omap (λ r : Instant * N * V, if bool_decide (r.1.2 = s) then Some r.2 else None) (recent_decisions p))
    (next_slot p).

(** The slot a message of the two phases or a decision is about; a nack
    carries nothing that safety depends on. *)
Definition slot_of_msg (m : PaxosMessage V) : option N :=
  match m with
  | Prepare s _ | Promise s _ _ | Accept s _ _ | Accepted s _ _ | Decide s _ => Some s
  | _ => None
  end.
Definition on (s : N) out : Out := filter (λ o, slot_of_msg (message o) = Some s) out.

(** A new round starts from no promises and no accepts but the node's own. *)
Definition start_core (n : NodeId) (pn : ProposalNumber) c : Core V :=
  mkCore pn {[ n ]} ∅ None (Some pn) (c_accepted c) true.

Definition promise_core (from : NodeId) (acc : option (ProposalNumber * V)) c : Core V :=
  {| c with c_proms := {[ from ]} ∪ c_proms c; c_high := note acc (c_high c) |}.

(** Entering phase 2 with value [v]: the node accepts itself unless it has
    promised a higher number. *)
Definition phase2_core (n : NodeId) (v : V) c : Core V :=
  if is_none_or (c_promised c) (λ hp, pn_leb hp (c_num c)) then
    {| c with c_promised := Some (c_num c); c_accepted := Some (c_num c, v);
              c_accs := {[ n ]} ∪ c_accs c |}
  else c.

(** [slot_act s n q ev c d r x c1 d1 r1 x1 out]: what event [ev] of node [n]
    with quorum [q] may do to slot [s]: its core, decision, recent decisions,
    the node's next slot, and the messages about the slot. *)
Inductive slot_act (s : N) (n : NodeId) (q : nat) (ev : PEvent V) : Slot V → Slot V → Out → Prop :=
| act_idle c d r r1 x x1 out :
    r1 ⊆ r → Forall (λ o, ∃ w, message o = Decide s w ∧ d = Some w) out →
    slot_act s n q ev (mkSlot c d r x) (mkSlot c d r1 x1) out
| act_start c r x x1 pn :
    pn.2 = n → ((c_num c).1 < pn.1)%N → (s < x1)%N →
    slot_act s n q ev (mkSlot c None r x) (mkSlot (start_core n pn c) None r x1)
      [mkOut Broadcast (Prepare s pn)]
| act_promise c r x from pn :
    ev = PevReceive from (Prepare s pn) → (∀ hp, c_promised c = Some hp → pn_lt hp pn) →
    slot_act s n q ev (mkSlot c None r x) (mkSlot {| c with c_promised := Some pn |} None r x)
      [mkOut (Peer from) (Promise s pn (c_accepted c))]
| act_vote c r x from pn v :
    ev = PevReceive from (Accept s pn v) → (∀ hp, c_promised c = Some hp → pn_le hp pn) →
    slot_act s n q ev (mkSlot c None r x)
      (mkSlot {| c with c_promised := Some pn; c_accepted := Some (pn, v) |} None r x)
      [mkOut (Peer from) (Accepted s pn v)]
| act_count c r x from acc :
    ev = PevReceive from (Promise s (c_num c) acc) →
    slot_act s n q ev (mkSlot c None r x) (mkSlot (promise_core from acc c) None r x) []
| act_phase2 c r x from acc v :
    ev = PevReceive from (Promise s (c_num c) acc) →
    let c1 := promise_core from acc c in
    q ≤ size (c_proms c1) → (∀ pn w, c_high c1 = Some (pn, w) → v = w) →
    size (c_accs (phase2_core n v c1)) < q →
    slot_act s n q ev (mkSlot c None r x) (mkSlot (phase2_core n v c1) None r x)
      [mkOut Broadcast (Accept s (c_num c) v)]
| act_phase2_decide c r x x1 from acc v :
    ev = PevReceive from (Promise s (c_num c) acc) →
    q ≤ size (c_accs (phase2_core n v (promise_core from acc c))) →
    slot_act s n q ev (mkSlot c None r x) (mkSlot blank (Some v) (r ++ [v]) x1)
      [mkOut Broadcast (Decide s v)]
| act_tally c r x from v :
    ev = PevReceive from (Accepted s (c_num c) v) → size ({[ from ]} ∪ c_accs c) < q →
    slot_act s n q ev (mkSlot c None r x)
      (mkSlot {| c with c_accs := {[ from ]} ∪ c_accs c |} None r x) []
| act_decide c r x x1 from v pn w :
    ev = PevReceive from (Accepted s (c_num c) v) → q ≤ size ({[ from ]} ∪ c_accs c) →
    c_accepted c = Some (pn, w) →
    slot_act s n q ev (mkSlot c None r x) (mkSlot blank (Some w) (r ++ [w]) x1)
      [mkOut Broadcast (Decide s w)]
| act_learn c r x x1 from v :
    ev = PevReceive from (Decide s v) →
    slot_act s n q ev (mkSlot c None r x) (mkSlot blank (Some v) (r ++ [v]) x1) [].

(** What holds of a slot between events: a node that has not proposed in it
    has no proposer state, one that has will not use it again, and decisions
    are told again as they were made. *)
Record slot_wf (s : N) (x : Slot V) : Prop := {
  wf_blank : c_proposer (s_core x) = false →
    c_num (s_core x) = c_num blank ∧ c_proms (s_core x) = ∅ ∧ c_accs (s_core x) = ∅ ∧
    c_high (s_core x) = None;
  wf_below : c_proposer (s_core x) = true → (s < s_next x)%N;
  wf_recent w : w ∈ s_recent x → s_decided x = Some w;
}.

Definition acts (s : N) (ev : PEvent V) p p1 out : Prop :=
  slot_act s (node_id p) (p_quorum_size p) ev (slot_of s p) (slot_of s p1) (on s out).

(** ** Slots an event leaves alone *)
Definition quiet (s : N) p p1 : Prop :=
  s_core (slot_of s p1) = s_core (slot_of s p) ∧ s_decided (slot_of s p1) = s_decided (slot_of s p) ∧
  s_recent (slot_of s p1) ⊆ s_recent (slot_of s p).

#[local] Instance quiet_preorder s : PreOrder (quiet s).
Proof.
  split; [done|]. intros p1 p2 p3 (H1 & H2 & H3) (G1 & G2 & G3).
  split_and!; [congruence..|by etransitivity].
Qed.

Lemma quiet_acts s ev p p1 out :
  quiet s p p1 → Forall (λ o, ∃ w, message o = Decide s w ∧ decided_slots p !! s = Some w) (on s out) →
  acts s ev p p1 out.
Proof.
  unfold acts. destruct (slot_of s p1) as [c1 d1 r1 x1] eqn:E1.
  intros (H1 & H2 & H3) Ho. rewrite E1 in H1, H2, H3. simpl in *. subst. by constructor.
Qed.

Lemma quiet_acts_nil s ev p p1 out : quiet s p p1 → on s out = [] → acts s ev p p1 out.
Proof. intros Hq Ho. apply quiet_acts; [done|]. rewrite Ho. constructor. Qed.

Lemma on_slot_app s out out' : on s (out ++ out') = on s out ++ on s out'.
Proof. apply filter_app. Qed.

Lemma on_slot_one s t o : slot_of_msg (message o) = Some t → s ≠ t → on s [o] = [].
Proof. intros Ho Hne. unfold on. rewrite filter_cons_False; [done|]. rewrite Ho. congruence. Qed.

Lemma on_same s o : slot_of_msg (message o) = Some s → on s [o] = [o].
Proof. intros Ho. unfold on. by rewrite filter_cons_True. Qed.

Lemma on_none s o : slot_of_msg (message o) = None → on s [o] = [].
Proof. intros Ho. unfold on. rewrite filter_cons_False; [done|]. by rewrite Ho. Qed.

Lemma slot_of_set s i p :
  slot_of s (set_instance s i p) = mkSlot (core i) (decided_slots p !! s) (s_recent (slot_of s p)) (next_slot p).
Proof. unfold slot_of, get_or_create_instance. simpl. by rewrite lookup_insert_eq. Qed.

Lemma slot_of_set_ne s t i p : s ≠ t → slot_of s (set_instance t i p) = slot_of s p.
Proof. intros Hne. unfold slot_of, get_or_create_instance. simpl. by rewrite lookup_insert_ne. Qed.

Lemma quiet_set_ne s t i p : s ≠ t → quiet s p (set_instance t i p).
Proof. intros Hne. unfold quiet. by rewrite slot_of_set_ne. Qed.

Lemma quiet_set s i p : core i = core (get_or_create_instance p s) → quiet s p (set_instance s i p).
Proof. intros Hc. unfold quiet. rewrite slot_of_set. by simpl. Qed.

Lemma moves_same p p1 : rtc move p p1 → node_id p1 = node_id p ∧ p_quorum_size p1 = p_quorum_size p.
Proof. induction 1 as [|p p2 p1 [] _ []]; split; congruence. Qed.

Lemma moves_next p p1 : rtc move p p1 → (next_slot p ≤ next_slot p1)%N.
Proof. induction 1 as [|p p2 p1 [] _ ?]; lia. Qed.

(** ** Deciding *)
Lemma slot_of_decided e s v p p1 :
  decide false e s v p = Some p1 →
  slot_of s (remove_instance s p1) = mkSlot blank (Some v) (s_recent (slot_of s p) ++ [v]) (next_slot p1).
Proof.
  intros (next & fs & -> & _)%decide_shape. unfold slot_of, get_or_create_instance. simpl.
  rewrite lookup_delete_eq, lookup_insert_eq, omap_app. simpl.
  by rewrite bool_decide_eq_true_2.
Qed.

Lemma quiet_decided_ne e s t v p p1 :
  s ≠ t → decide false e t v p = Some p1 → quiet s p (remove_instance t p1).
Proof.
  intros Hne (next & fs & -> & _)%decide_shape. unfold quiet, slot_of, get_or_create_instance. simpl.
  rewrite lookup_delete_ne, lookup_insert_ne, omap_app by done. simpl.
  rewrite bool_decide_eq_false_2 by done. by rewrite app_nil_r.
Qed.

Lemma decide_and_tell_ne e s t v p p1 out :
  s ≠ t → decide_and_tell false e t v p = Some (p1, out) → quiet s p p1 ∧ on s out = [].
Proof.
  unfold decide_and_tell. intros Hne Hd. destruct (decide _ _ _ _ _) as [q|] eqn:Hq; [|done].
  simpl in Hd. injection Hd as <- <-.
  split; [by eapply quiet_decided_ne|by apply (on_slot_one s t)].
Qed.

Lemma decide_and_tell_eq e s v p p1 out :
  decide_and_tell false e s v p = Some (p1, out) →
  slot_of s p1 = mkSlot blank (Some v) (s_recent (slot_of s p) ++ [v]) (next_slot p1) ∧
  on s out = [mkOut Broadcast (Decide s v)].
Proof.
  unfold decide_and_tell. intros Hd. destruct (decide _ _ _ _ _) as [q|] eqn:Hq; [|done].
  simpl in Hd. injection Hd as <- <-.
  split; [by rewrite (slot_of_decided _ _ _ _ _ Hq)|by apply on_same].
Qed.

(** ** The acceptor *)
Lemma slot_of_open s p :
  decided_slots p !! s = None →
  slot_of s p = mkSlot (core (get_or_create_instance p s)) None (s_recent (slot_of s p)) (next_slot p).
Proof. intros Hd. unfold slot_of. simpl. by rewrite Hd. Qed.

Lemma quiet_told s from t v p :
  decided_slots p !! t = Some v →
  Forall (λ o, ∃ w, message o = Decide s w ∧ decided_slots p !! s = Some w)
    (on s [mkOut (Peer from) (Decide t v)]).
Proof.
  intros Hd. destruct (decide_rel (=) s t) as [->|Hne].
  - rewrite on_same by done. constructor; [|constructor]. eauto.
  - rewrite (on_slot_one s t) by done. constructor.
Qed.

Lemma handle_prepare_acts s from t pn p p1 out :
  handle_prepare from t pn p = (p1, out) →
  acts s (PevReceive from (Prepare t pn)) p p1 out.
Proof.
  unfold handle_prepare. destruct (decided_slots p !! t) as [v|] eqn:Hd.
  { intros [= <- <-]. apply quiet_acts; [done|by apply quiet_told]. }
  destruct (decide_rel (=) s t) as [->|Hne].
  2: { destruct (highest_promised _) as [hp|]; [destruct (pn_ltb hp pn)|]; intros [= <- <-];
       (apply quiet_acts_nil; [by apply quiet_set_ne|]); first [by apply (on_slot_one s t)|by apply on_none]. }
  destruct (highest_promised _) as [hp|] eqn:Hp; [destruct (pn_ltb hp pn) eqn:Hlt|];
    intros [= <- <-].
  2: { apply quiet_acts_nil; [by apply quiet_set|by apply on_none]. }
  all: unfold acts; rewrite slot_of_set, on_same, (slot_of_open t p Hd), Hd by done;
    apply (act_promise t _ _ _ (core (get_or_create_instance p t))); [done|];
    simpl; rewrite Hp; intros ? [= <-]; by apply pn_ltb_lt.
Qed.

Lemma handle_accept_acts s from t pn v p p1 out :
  handle_accept false from t pn v p = (p1, out) →
  acts s (PevReceive from (Accept t pn v)) p p1 out.
Proof.
  unfold handle_accept. destruct (decided_slots p !! t) as [w|] eqn:Hd.
  { intros [= <- <-]. apply quiet_acts; [done|by apply quiet_told]. }
  assert (effective_floor false p t = c_promised (core (get_or_create_instance p t))) as ->.
  { unfold effective_floor, get_or_create_instance. by destruct (instances p !! t). }
  destruct (decide_rel (=) s t) as [->|Hne].
  2: { destruct (c_promised _) as [hp|]; [destruct (pn_leb hp pn)|]; intros [= <- <-];
       (apply quiet_acts_nil; [by apply quiet_set_ne|]); first [by apply (on_slot_one s t)|by apply on_none]. }
  destruct (c_promised _) as [hp|] eqn:Hp; [destruct (pn_leb hp pn) eqn:Hle|];
    intros [= <- <-].
  2: { apply quiet_acts_nil; [by apply quiet_set|by apply on_none]. }
  all: unfold acts; rewrite slot_of_set, on_same, (slot_of_open t p Hd), Hd by done;
    apply (act_vote t _ _ _ (core (get_or_create_instance p t))); [done|];
    rewrite Hp; intros ? [= <-]; by apply pn_leb_le.
Qed.

(** ** The proposer *)
Lemma get_at s i p : instances p !! s = Some i → get_or_create_instance p s = i.
Proof. unfold get_or_create_instance. by intros ->. Qed.

Lemma start_phase2_ne e s t p p1 out :
  s ≠ t → start_phase2 false e t p = Some (p1, out) → quiet s p p1 ∧ on s out = [].
Proof.
  intros Hne. unfold start_phase2. intros Hs. destruct (instances p !! t) as [i|] eqn:Hi; [|done].
  simpl in Hs. destruct (match highest_accepted i with Some _ => _ | None => _ end) as [v|]; [|done].
  simpl in Hs. case_bool_decide.
  - destruct (decide_and_tell_ne _ _ _ _ _ _ _ Hne Hs) as [Hq Ho]. split; [|done].
    etransitivity; [by apply quiet_set_ne|exact Hq].
  - injection Hs as <- <-. split; [by apply quiet_set_ne|by apply (on_slot_one s t)].
Qed.

Lemma phase2_core_eq n v i :
  core (if is_none_or (highest_promised i) (λ hp, pn_leb hp (proposal_number i)) then
      {| i with highest_promised := Some (proposal_number i); accepted := Some (proposal_number i, v);
                accepts_received := {[ n ]} ∪ accepts_received i |} else i)
  = phase2_core n v (core i).
Proof. unfold phase2_core. simpl. by destruct (is_none_or _ _). Qed.

(** Phase 2 of the slot: an Accept, or at once the decision. *)
Lemma start_phase2_eq e s i p p1 out :
  instances p !! s = Some i → decided_slots p !! s = None → start_phase2 false e s p = Some (p1, out) →
  ∃ v, (∀ pn w, highest_accepted i = Some (pn, w) → v = w) ∧
    let c := phase2_core (node_id p) v (core i) in
    if bool_decide (p_quorum_size p ≤ size (c_accs c))
    then slot_of s p1 = mkSlot blank (Some v) (s_recent (slot_of s p) ++ [v]) (next_slot p1) ∧
         on s out = [mkOut Broadcast (Decide s v)]
    else slot_of s p1 = mkSlot c None (s_recent (slot_of s p)) (next_slot p) ∧
         on s out = [mkOut Broadcast (Accept s (proposal_number i) v)].
Proof.
  intros Hi Hd. unfold start_phase2. rewrite Hi. simpl. intros Hs.
  destruct (match highest_accepted i with Some _ => _ | None => _ end) as [v|] eqn:Hv; [|done].
  simpl in Hs. exists v. split; [intros pn w Hw; rewrite Hw in Hv; congruence|].
  rewrite <- phase2_core_eq. simpl. case_bool_decide.
  - apply decide_and_tell_eq in Hs as [-> ->]. rewrite slot_of_set. done.
  - injection Hs as <- <-. rewrite slot_of_set, on_same, Hd by done. done.
Qed.

Lemma open_slot s p : ¬ is_Some (decided_slots p !! s) → decided_slots p !! s = None.
Proof. apply eq_None_not_Some. Qed.

Lemma handle_promise_acts s e from t pn acc p p1 out :
  handle_promise false e from t pn acc p = Some (p1, out) →
  acts s (PevReceive from (Promise t pn acc)) p p1 out.
Proof.
  unfold handle_promise. intros Hh.
  case_bool_decide as Hd; [injection Hh as <- <-; by apply quiet_acts_nil|].
  destruct (instances p !! t) as [i|] eqn:Hi; [|injection Hh as <- <-; by apply quiet_acts_nil].
  destruct (_ && _) eqn:Hb; [|injection Hh as <- <-; by apply quiet_acts_nil].
  breflect. subst pn. apply open_slot in Hd. simpl in Hh.
  fold (note acc (highest_accepted i)) in Hh.
  destruct (decide_rel (=) s t) as [->|Hne].
  2: { case_bool_decide.
       - destruct (start_phase2_ne _ _ _ _ _ _ Hne Hh) as [Hq Ho]. apply quiet_acts_nil; [|done].
         etransitivity; [by apply quiet_set_ne|exact Hq].
       - injection Hh as <- <-. apply quiet_acts_nil; [by apply quiet_set_ne|done]. }
  unfold acts. rewrite (slot_of_open t p Hd), (get_at _ _ _ Hi).
  case_bool_decide as Hq.
  - eapply start_phase2_eq in Hh as (v & Hv & Hr); [|simpl; apply lookup_insert_eq|exact Hd].
    simpl in Hr. change (core _) with (promise_core from acc (core i)) in Hr.
    case_bool_decide as Hsz; destruct Hr as [-> ->].
    + by eapply (act_phase2_decide t _ _ _ (core i)).
    + apply (act_phase2 t _ _ _ (core i) _ _ from acc v); [done|exact Hq|exact Hv|].
      by apply not_le.
  - injection Hh as <- <-. rewrite slot_of_set, Hd. by apply (act_count t _ _ _ (core i)).
Qed.

Lemma handle_accepted_acts s e from t pn v p p1 out :
  handle_accepted false e from t pn v p = Some (p1, out) →
  acts s (PevReceive from (Accepted t pn v)) p p1 out.
Proof.
  unfold handle_accepted. intros Hh.
  case_bool_decide as Hd; [injection Hh as <- <-; by apply quiet_acts_nil|].
  destruct (instances p !! t) as [i|] eqn:Hi; [|injection Hh as <- <-; by apply quiet_acts_nil].
  destruct (_ && _) eqn:Hb; [|injection Hh as <- <-; by apply quiet_acts_nil].
  breflect. subst pn. apply open_slot in Hd. simpl in Hh.
  destruct (decide_rel (=) s t) as [->|Hne].
  2: { case_bool_decide.
       - destruct (accepted i) as [[apn w]|]; [|done]. simpl in Hh.
         destruct (decide_and_tell_ne _ _ _ _ _ _ _ Hne Hh) as [Hq Ho].
         apply quiet_acts_nil; [|done]. etransitivity; [by apply quiet_set_ne|exact Hq].
       - injection Hh as <- <-. apply quiet_acts_nil; [by apply quiet_set_ne|done]. }
  unfold acts. rewrite (slot_of_open t p Hd), (get_at _ _ _ Hi).
  case_bool_decide as Hq.
  - destruct (accepted i) as [[apn w]|] eqn:Ha; [|done]. simpl in Hh.
    apply decide_and_tell_eq in Hh as [-> ->]. rewrite slot_of_set. simpl.
    by eapply (act_decide t _ _ _ (core i) _ _ _ from v apn w).
  - injection Hh as <- <-. rewrite slot_of_set, Hd. apply (act_tally t _ _ _ (core i) _ _ from v); [done|].
    by apply not_le.
Qed.

Lemma handle_decide_acts s e from t v p p1 :
  handle_decide false e from t v p = Some p1 →
  acts s (PevReceive from (Decide t v)) p p1 [].
Proof.
  unfold handle_decide. intros Hh.
  case_bool_decide as Hd; [injection Hh as <-; by apply quiet_acts_nil|]. apply open_slot in Hd.
  set (p2 := match instances p !! t with Some _ => _ | None => _ end) in Hh.
  assert (∀ s, slot_of s p2 = slot_of s p) as Hs2.
  { intros s'. subst p2. destruct (instances p !! t) as [i|]; [|done].
    destruct (is_proposer i); [|done]. destruct (proposed_value i); [|done].
    by case_bool_decide. }
  destruct (decide _ _ _ _ _) as [q|] eqn:Hq; [|done]. simpl in Hh. injection Hh as <-.
  destruct (decide_rel (=) s t) as [->|Hne].
  - unfold acts. rewrite (slot_of_decided _ _ _ _ _ Hq), Hs2, (slot_of_open t p Hd).
    by eapply act_learn.
  - apply quiet_acts_nil; [|done]. apply (quiet_decided_ne _ _ _ _ _ _ Hne) in Hq.
    unfold quiet in Hq. by rewrite Hs2 in Hq.
Qed.

Lemma handle_nack_acts s ev e t hp p : acts s ev p (handle_nack false e t hp p) [].
Proof.
  apply quiet_acts_nil; [|done]. unfold handle_nack.
  destruct (instances p !! t) as [i|] eqn:Hi; [|done].
  destruct (decide_rel (=) s t) as [->|Hne]; [|by apply quiet_set_ne].
  apply quiet_set. by rewrite (get_at _ _ _ Hi).
Qed.

(** ** Starting a round *)
Lemma own_no_quorum p (Q : gset NodeId) :
  2 ≤ p_quorum_size p → Q = {[ node_id p ]} → ¬ p_quorum_size p ≤ size Q.
Proof. intros Hq ->. rewrite size_singleton. lia. Qed.

Lemma propose_full_paxos_acts s ev e v p p1 out :
  slot_wf s (slot_of s p) → slot_wf (next_slot p) (slot_of (next_slot p) p) → paxos_inv p → 2 ≤ p_quorum_size p →
  propose_full_paxos false e v p = Some (p1, out) → acts s ev p p1 out.
Proof.
  intros Hwf Hwfn Hinv Hq. unfold propose_full_paxos. intros Hh.
  pose proof (next_slot_open _ Hinv) as Hopen.
  destruct (u64_add _ _) as [next|] eqn:Hn; [|done]. apply checked_add_Some in Hn as [-> _].
  cbn [mbind option_bind] in Hh. set (t := next_slot p) in *.
  assert (c_proposer (s_core (slot_of t p)) = false) as Hnp.
  { destruct (c_proposer _) eqn:E; [|done]. apply (wf_below _ _ Hwfn) in E. simpl in E. lia. }
  destruct (wf_blank _ _ Hwfn Hnp) as (Hnum & Hpr & Hac & Hhi).
  change (promises_received (get_or_create_instance p t) = ∅) in Hpr.
  change (accepts_received (get_or_create_instance p t) = ∅) in Hac.
  change (highest_accepted (get_or_create_instance p t) = None) in Hhi.
  change (proposal_number (get_or_create_instance p t) = (0%N, mkNodeId (String.EmptyString) 0)) in Hnum.
  rewrite bool_decide_eq_false_2 in Hh.
  2: { change (¬ p_quorum_size p ≤ size ({[ node_id p ]} ∪
         promises_received (get_or_create_instance p t))).
       apply own_no_quorum; [done|]. rewrite Hpr. apply union_empty_r_L. }
  injection Hh as <- <-. destruct (decide_rel (=) s t) as [->|Hne].
  - unfold acts. rewrite slot_of_set, on_same by done. rewrite (slot_of_open t p Hopen).
    match goal with |- slot_act _ _ _ _ _ (mkSlot ?c' _ _ _) _ =>
      assert (c' = start_core (node_id p) (1%N, node_id p) (core (get_or_create_instance p t))) as ->
    end.
    { set (i := get_or_create_instance p t) in *.
      change (mkCore (1%N, node_id p) ({[ node_id p ]} ∪ promises_received i) (accepts_received i)
        (highest_accepted i) (Some (1%N, node_id p)) (accepted i) true
        = start_core (node_id p) (1%N, node_id p) (core i)).
      rewrite Hpr, Hac, Hhi, union_empty_r_L. done. }
    simpl. rewrite Hopen. apply act_start; simpl; [done|rewrite Hnum; simpl; lia|lia].
  - apply quiet_acts_nil; [|by apply (on_slot_one s t)]. etransitivity; [|by apply quiet_set_ne].
    done.
Qed.

Lemma retry_proposal_ne e s t p p1 out :
  s ≠ t → retry_proposal false e t p = Some (p1, out) → quiet s p p1 ∧ on s out = [].
Proof.
  intros Hne. unfold retry_proposal. intros Hh.
  destruct (instances p !! t) as [i|]; [|by injection Hh as <- <-].
  destruct (_ && _); [|by injection Hh as <- <-].
  destruct (u64_add _ _) as [r|]; [|done]. destruct (u32_add _ _) as [rc|]; [|done]. simpl in Hh.
  case_bool_decide.
  - destruct (start_phase2_ne _ _ _ _ _ _ Hne Hh) as [Hq Ho]. split; [|done].
    etransitivity; [by apply quiet_set_ne|exact Hq].
  - injection Hh as <- <-. split; [by apply quiet_set_ne|by apply (on_slot_one s t)].
Qed.

(** The slot starts a round. *)
Definition starts (s : N) p p1 out : Prop :=
  decided_slots p !! s = None ∧ c_proposer (s_core (slot_of s p)) = true ∧
  ∃ pn, pn.2 = node_id p ∧ ((c_num (s_core (slot_of s p))).1 < pn.1)%N ∧
    s_core (slot_of s p1) = start_core (node_id p) pn (s_core (slot_of s p)) ∧
    decided_slots p1 !! s = None ∧ s_recent (slot_of s p1) ⊆ s_recent (slot_of s p) ∧
    on s out = [mkOut Broadcast (Prepare s pn)].

Lemma starts_acts s ev p p1 out :
  slot_wf s (slot_of s p) → (next_slot p ≤ next_slot p1)%N → starts s p p1 out → acts s ev p p1 out.
Proof.
  intros Hwf Hn (Hd & Hp & pn & Hid & Hlt & Hc & Hd1 & Hr & Ho). unfold acts. rewrite Ho.
  assert (s_recent (slot_of s p) = []) as Hr0.
  { destruct (s_recent (slot_of s p)) as [|w l] eqn:E; [done|].
    assert (w ∈ s_recent (slot_of s p)) as Hw by (rewrite E; left).
    apply (wf_recent _ _ Hwf) in Hw. simpl in Hw. congruence. }
  assert (s_recent (slot_of s p1) = []) as Hr1.
  { rewrite Hr0 in Hr. by apply list_nil_subseteq. }
  apply (wf_below _ _ Hwf) in Hp.
  rewrite (slot_of_open s p Hd), (slot_of_open s p1 Hd1), Hr0, Hr1.
  change (core (get_or_create_instance p1 s)) with (s_core (slot_of s p1)). rewrite Hc.
  apply act_start; [done|done|]. simpl in Hp. lia.
Qed.

Lemma starts_around s p p0 p1 p2 out :
  node_id p0 = node_id p → quiet s p p0 → starts s p0 p1 out → quiet s p1 p2 → starts s p p2 out.
Proof.
  intros Hid (Hc0 & Hd0 & Hr0) (Hd & Hp & pn & Hn & Hlt & Hc & Hd1 & Hr & Ho) (Hc2 & Hd2 & Hr2).
  rewrite Hc0 in *. simpl in Hd0, Hd2. rewrite Hid in *. rewrite Hd0 in Hd. rewrite Hd1 in Hd2.
  split_and!; try done. exists pn. split_and!; try done; [congruence|].
  do 2 (etransitivity; [eassumption|]). done.
Qed.

(** A retry leaves its slot alone or starts a round in it. *)
Lemma retry_proposal_eq e s p p1 out :
  paxos_inv p → 2 ≤ p_quorum_size p → retry_proposal false e s p = Some (p1, out) →
  quiet s p p1 ∧ on s out = [] ∨ starts s p p1 out.
Proof.
  intros Hinv Hq. unfold retry_proposal. intros Hh.
  destruct (instances p !! s) as [i|] eqn:Hi; [|left; by injection Hh as <- <-].
  destruct (_ && _) eqn:Hb; [|left; by injection Hh as <- <-]. breflect.
  destruct (u64_add _ _) as [r|] eqn:Hr; [|done]. destruct (u32_add _ _) as [rc|]; [|done].
  apply checked_add_Some in Hr as [-> _]. cbn [mbind option_bind] in Hh.
  rewrite bool_decide_eq_false_2 in Hh by (by apply own_no_quorum).
  injection Hh as <- <-. assert (decided_slots p !! s = None) as Hd by (eapply pi_open; eauto).
  right. unfold starts. rewrite slot_of_set, on_same by done.
  change (s_core (slot_of s p)) with (core (get_or_create_instance p s)). rewrite (get_at _ _ _ Hi).
  split_and!; [done|done|]. eexists. split_and!; [..|done|done|reflexivity]; simpl; [done|lia|].
  unfold core, start_core. simpl. by f_equal.
Qed.

Lemma retry_all_ne e s ts p p1 out :
  s ∉ ts → retry_all false e ts p = Some (p1, out) → quiet s p p1 ∧ on s out = [].
Proof.
  revert p out. induction ts as [|t ts IH]; simpl; intros p out Hs Hh; [by injection Hh as <- <-|].
  destruct (retry_proposal _ _ _ _) as [[p2 o]|] eqn:Hr; [|done]. simpl in Hh.
  destruct (retry_all _ _ _ _) as [[p3 o']|] eqn:Ha; [|done]. simpl in Hh. injection Hh as <- <-.
  apply retry_proposal_ne with (s := s) in Hr as [Hq1 Ho1]; [|set_solver].
  apply IH in Ha as [Hq2 Ho2]; [|set_solver].
  split; [by etransitivity|by rewrite on_slot_app, Ho1, Ho2].
Qed.

Lemma retry_all_app e ts us p p1 out :
  retry_all false e (ts ++ us) p = Some (p1, out) →
  ∃ p0 o o', retry_all false e ts p = Some (p0, o) ∧ retry_all false e us p0 = Some (p1, o') ∧ out = o ++ o'.
Proof.
  revert p out. induction ts as [|t ts IH]; simpl; intros p out Hh; [by exists p, [], out|].
  destruct (retry_proposal _ _ _ _) as [[p2 o]|]; [|done]. simpl in *.
  destruct (retry_all _ _ _ _) as [[p3 o']|] eqn:Ha; [|done]. simpl in Hh. injection Hh as <- <-.
  apply IH in Ha as (p0 & oa & ob & -> & Hb & ->). exists p0, (o ++ oa), ob. by rewrite app_assoc.
Qed.

Lemma retry_all_acts e s ts p p1 out :
  NoDup ts → paxos_inv p → 2 ≤ p_quorum_size p → retry_all false e ts p = Some (p1, out) →
  quiet s p p1 ∧ on s out = [] ∨ starts s p p1 out.
Proof.
  intros Hnd Hinv Hq Hh. destruct (decide_rel elem_of s ts) as [Hs|Hs];
    [|left; by eapply retry_all_ne].
  apply list_elem_of_split in Hs as (l1 & l2 & ->).
  apply NoDup_app in Hnd as (_ & Hs1 & [Hs2 _]%NoDup_cons).
  apply retry_all_app in Hh as (p0 & o & o' & H1 & H2 & ->).
  pose proof (retry_all_moves _ _ _ _ _ _ Hinv H1) as Hm.
  apply retry_all_ne with (s := s) in H1 as [Hq1 Ho1]; [|set_solver].
  simpl in H2. destruct (retry_proposal _ _ _ _) as [[p2 o2]|] eqn:Hr; [|done]. simpl in H2.
  destruct (retry_all _ _ l2 _) as [[p3 o3]|] eqn:Ha; [|done]. simpl in H2. injection H2 as <- <-.
  apply retry_all_ne with (s := s) in Ha as [Hq3 Ho3]; [|done].
  rewrite !on_slot_app, Ho1, Ho3, app_nil_r. simpl.
  apply retry_proposal_eq in Hr as [[Hq2 Ho2]|Hst].
  - left. split; [|done]. by do 2 (etransitivity; [eassumption|]).
  - right. assert (starts s p p3 o2) as Hst' by (by eapply starts_around; [apply moves_same|..]).
    unfold starts in *. by rewrite !on_slot_app, Ho1, Ho3, app_nil_r.
  - by eapply moves_inv.
  - by rewrite (proj2 (moves_same _ _ Hm)).
Qed.

(** ** The entry points *)
Lemma retryable_nodup e p : NoDup (get_retryable_proposals e p).
Proof.
  apply NoDup_fmap_fst; [|apply NoDup_filter, NoDup_map_to_list].
  intros s i j [_ Hi%elem_of_map_to_list]%list_elem_of_filter
    [_ Hj%elem_of_map_to_list]%list_elem_of_filter. congruence.
Qed.

Lemma rebroadcasts_quiet s e p p1 out :
  get_decision_rebroadcasts e p = (p1, out) →
  quiet s p p1 ∧ Forall (λ o, ∃ w, message o = Decide s w ∧ w ∈ s_recent (slot_of s p)) (on s out).
Proof.
  unfold get_decision_rebroadcasts. intros [= <- <-]. split.
  - split_and!; [done..|]. simpl. intros w (r & Hr & Hw)%list_elem_of_omap.
    apply list_elem_of_omap. exists r. split; [|done].
    by apply list_elem_of_filter in Hr as [_ ?].
  - apply Forall_forall. intros o [Ho (r & -> & Hr)%list_elem_of_fmap]%list_elem_of_filter.
    simpl in Ho. injection Ho as <-. exists r.2. split; [done|].
    apply list_elem_of_filter in Hr as [_ Hr]. apply list_elem_of_omap. exists r.
    split; [done|]. by rewrite bool_decide_eq_true_2.
Qed.

Lemma on_tick_acts s e p p1 out :
  slot_wf s (slot_of s p) → paxos_inv p → 2 ≤ p_quorum_size p →
  on_tick false e p = Some (p1, out) → acts s PevTick p p1 out.
Proof.
  intros Hwf Hinv Hq Hh. pose proof (on_tick_moves _ _ _ _ _ Hinv Hh) as Hm%moves_next.
  unfold on_tick in Hh. destruct (retry_all _ _ _ _) as [[p2 o2]|] eqn:H2; [|done].
  cbn [mbind option_bind] in Hh. destruct (get_decision_rebroadcasts e p2) as [p3 o3] eqn:H3.
  injection Hh as <- <-. apply retry_all_acts with (s := s) in H2; [|apply retryable_nodup|done..].
  apply rebroadcasts_quiet with (s := s) in H3 as [Hq3 Ho3].
  assert (∀ w, w ∈ s_recent (slot_of s p2) → decided_slots p !! s = Some w) as Hrec.
  { intros w Hw. apply (wf_recent _ _ Hwf).
    destruct H2 as [[(_ & _ & Hr) _]|(_ & _ & pn & _ & _ & _ & _ & Hr & _)]; by apply Hr. }
  destruct H2 as [[Hq2 Ho2]|Hst].
  - apply quiet_acts; [by etransitivity|]. rewrite on_slot_app, Ho2. simpl.
    eapply Forall_impl; [exact Ho3|]. intros o (w & -> & Hw). eauto.
  - assert (on s o3 = []) as Ho.
    { destruct (on s o3) as [|o l]; [done|]. apply Forall_cons in Ho3 as [(w & _ & Hw) _].
      apply Hrec in Hw. destruct Hst as [Hd _]. congruence. }
    apply starts_acts; [done|done|]. eapply starts_around in Hst; [|done|reflexivity|exact Hq3].
    unfold starts. by rewrite on_slot_app, Ho, app_nil_r.
Qed.

Lemma ignored_acts s ev p p1 out : Some (p, []) = Some (p1, out) → acts s ev p p1 out.
Proof. intros [= <- <-]. by apply quiet_acts_nil. Qed.

(** Every event of a plain Paxos node is an act on every slot. *)
Theorem run_pevent_acts s e ev p p1 out :
  (∀ t, slot_wf t (slot_of t p)) → paxos_inv p → 2 ≤ p_quorum_size p →
  run_pevent false e ev p = Some (p1, out) → acts s ev p p1 out.
Proof.
  intros Hwf Hinv Hq. destruct ev as [v|from msg|]; simpl.
  - by apply propose_full_paxos_acts.
  - unfold handle_message. intros Hh. destruct msg.
    + apply (inj Some) in Hh. by apply handle_prepare_acts.
    + by eapply handle_promise_acts.
    + apply (inj Some) in Hh. by apply handle_accept_acts.
    + by eapply handle_accepted_acts.
    + destruct (handle_decide _ _ _ _ _ _) as [q|] eqn:Hd; [|done]. simpl in Hh.
      injection Hh as <- <-. by eapply handle_decide_acts.
    + apply (inj Some), (inj2 pair) in Hh as [<- <-]. apply handle_nack_acts.
    + apply (inj Some), (inj2 pair) in Hh as [<- <-]. apply handle_nack_acts.
    + by apply ignored_acts.
    + by apply ignored_acts.
    + by apply ignored_acts.
    + by apply ignored_acts.
    + by apply ignored_acts.
  - by apply on_tick_acts.
Qed.

Lemma wf_proposer s c c1 d r x :
  slot_wf s (mkSlot c d r x) → (0 < (c_num c).1)%N → c_proposer c1 = c_proposer c →
  slot_wf s (mkSlot c1 d r x).
Proof.
  intros [Hb Hl Hr] Hlt Hc. simpl in *.
  destruct (c_proposer c) eqn:E; [|by destruct (Hb eq_refl) as [Hn _]; rewrite Hn in Hlt].
  split; simpl; [congruence|auto|auto].
Qed.

Lemma wf_decided s c r x x1 v :
  slot_wf s (mkSlot c None r x) → slot_wf s (mkSlot blank (Some v) (r ++ [v]) x1).
Proof.
  intros [_ _ Hr]. split; simpl; [done|done|].
  intros w [Hw|Hw]%elem_of_app; [by apply Hr in Hw|]. by apply list_elem_of_singleton in Hw as ->.
Qed.

(** Acts keep a slot well formed, as long as only rounds that were started are
    answered. *)
Lemma act_wf s n q ev x x1 out :
  (∀ from pn acc, ev = PevReceive from (Promise s pn acc) → (0 < pn.1)%N) →
  (∀ from pn v, ev = PevReceive from (Accepted s pn v) → (0 < pn.1)%N) →
  (s_next x ≤ s_next x1)%N → slot_wf s x → slot_act s n q ev x x1 out → slot_wf s x1.
Proof.
  intros Hpr Hac Hn Hwf Ha. destruct Ha as
    [c d r r1 x x1 out Hr1 _|c r x x1 pn _ _ Hlt|c r x from pn _ _|c r x from pn v _ _
    |c r x from acc Hev|c r x from acc v Hev c1 _ _ _|c r x x1 from acc v _ _
    |c r x from v Hev _|c r x x1 from v pn w _ _ _|c r x x1 from v _]; simpl in Hn.
  - destruct Hwf as [Hb Hl Hr]. split; simpl; [done| |auto]. intros ?%Hl. simpl in *. lia.
  - destruct Hwf as [_ _ Hr]. by split; simpl.
  - destruct Hwf as [Hb Hl Hr]. by split.
  - destruct Hwf as [Hb Hl Hr]. by split.
  - eapply wf_proposer; [exact Hwf|by eapply Hpr|done].
  - eapply wf_proposer; [exact Hwf|by eapply Hpr|]. unfold phase2_core. by destruct (is_none_or _ _).
  - by eapply wf_decided.
  - eapply wf_proposer; [exact Hwf|by eapply Hac|done].
  - by eapply wf_decided.
  - by eapply wf_decided.
Qed.
End slot.
