(* ===== verification/PaxosBallots.v ===== *)
(** * Paxos: ballots

    The safety argument of a slot on the messages that were ever sent, without
    the nodes: which rounds were started, which values they proposed, who
    promised and who voted. If every round picked its value from the reports
    of a quorum, a settled value is the value of every later round. *)

From S2P Require Import Prelude Types Network.

Lemma filter_length_lt {A} (P Q : A → Prop) `{∀ y, base.Decision (P y), ∀ y, base.Decision (Q y)} l (x : A) :
  (∀ y, P y → Q y) → x ∈ l → Q x → ¬ P x → length (filter P l) < length (filter Q l).
Proof.
  intros HPQ Hin HQ HP.
  assert (∀ k, length (filter P k) ≤ length (filter Q k)) as Hle.
  { induction k as [|y k IH]; [done|]. rewrite !filter_cons.
    repeat case_decide; simpl; try lia. by exfalso; auto. }
  induction l as [|y l IH]; [by apply elem_of_nil in Hin|]. rewrite !filter_cons.
  apply elem_of_cons in Hin as [->|Hin].
  - rewrite decide_False, decide_True by done. simpl. specialize (Hle l). lia.
  - specialize (IH Hin). repeat case_decide; simpl; try lia. by exfalso; auto.
Qed.

Section ballots.
Context {V : Type}.
Context (cluster : gset NodeId) (s : N).
Abbreviation Sent := (list (Packet (PaxosMessage V))).
Implicit Types (K : Sent) (b c : ProposalNumber) (n x : NodeId) (v w : V).

(** Round [b] was started by its node. *)
Definition started K b : Prop := ∃ d, mkPacket b.2 d (Prepare s b) ∈ K.
(** Round [b] proposed [v]; its node votes for what it proposes. *)
Definition proposed K b v : Prop := ∃ d, mkPacket b.2 d (Accept s b v) ∈ K.
Definition promised K x b (acc : option (ProposalNumber * V)) : Prop :=
  mkPacket x b.2 (Promise s b acc) ∈ K.
Definition voted K x b v : Prop :=
  (x = b.2 ∧ proposed K b v) ∨ (x ≠ b.2 ∧ mkPacket x b.2 (Accepted s b v) ∈ K).

(** A quorum voted for [v] in round [b], and the node of the round started no
    later one. *)
Definition settled K b v : Prop :=
  (∃ Q : gset NodeId, Q ⊆ cluster ∧ quorum_size (size cluster) ≤ size Q ∧
     ∀ x, x ∈ Q → voted K x b v) ∧
  ∀ c, started K c → c.2 = b.2 → pn_le c b.

(** Every round has one value. *)
Definition one_value K : Prop :=
  ∀ b v w, proposed K b v → proposed K b w → v = w.

Record ballots_ok K : Prop := {
  (* a promise reports a vote at least as high as any below its round *)
  bo_promise x b acc c v : promised K x b acc → voted K x c v → pn_lt c b →
    ∃ a w, acc = Some (a, w) ∧ pn_le c a;
  bo_report x b a w : promised K x b (Some (a, w)) → pn_lt a b ∧ proposed K a w;
  (* a proposed value is that of the highest report of a quorum *)
  bo_propose b v : proposed K b v → started K b ∧
    ∃ Q : gset NodeId, Q ⊆ cluster ∧ quorum_size (size cluster) ≤ size Q ∧
      ∀ x, x ∈ Q → x ≠ b.2 → ∃ acc, promised K x b acc ∧
        ∀ a w, acc = Some (a, w) → ∃ m y, pn_le a m ∧ promised K y b (Some (m, v));
  (* a node that starts a round last voted in a round of its own *)
  bo_own b c v : started K b → voted K b.2 c v → pn_lt c b →
    ∃ d w, d.2 = b.2 ∧ pn_le c d ∧ pn_lt d b ∧ proposed K d w;
}.

Lemma voted_proposed K x b v :
  (∀ x b v, mkPacket x b.2 (Accepted s b v) ∈ K → proposed K b v) → voted K x b v → proposed K b v.
Proof. intros Hw [[_ ?]|[_ ?]]; eauto. Qed.

(** Rounds proposed in [K] below [b]. *)
Definition below K b : nat :=
  length (filter (λ pkt : Packet (PaxosMessage V),
    match body pkt with Accept t c _ => bool_decide (t = s) && pn_ltb c b | _ => false end = true) K).

Lemma below_lt K b c v : proposed K c v → pn_lt c b → below K c < below K b.
Proof.
  intros [d Hd] Hlt. eapply filter_length_lt; [|exact Hd| |]; simpl.
  - intros [? ? []]; simpl; try done. intros [Ht Hc%pn_ltb_lt]%andb_true_iff.
    apply andb_true_iff. split; [done|]. apply pn_ltb_lt. by etransitivity.
  - rewrite bool_decide_eq_true_2 by done. by apply pn_ltb_lt.
  - intros [_ Hc%pn_ltb_lt]%andb_true_iff. by apply pn_lt_irrefl in Hc.
Qed.

Section safety.
Context (K : Sent) (Hok : ballots_ok K) (Hone : one_value K).
Context (Hvotes : ∀ x b v, mkPacket x b.2 (Accepted s b v) ∈ K → proposed K b v).

(** The node of a later round cast none of the votes that settled the value. *)
Lemma settled_not_own b v r n :
  settled K b v → voted K n b v → started K (r, n) → pn_lt b (r, n) → False.
Proof.
  intros Hst Hv. induction r as [r IH] using (well_founded_induction N.lt_wf_0). intros Hs Hlt.
  destruct (bo_own _ Hok (r, n) b v Hs Hv Hlt) as ([r' n'] & w & Hn & Hle & Hlt' & Hp).
  simpl in Hn. subst n'. destruct (bo_propose _ Hok _ _ Hp) as [Hs' _].
  assert (r' < r)%N as Hr.
  { apply N.nle_gt. intros Hr. apply (pn_lt_irrefl (r', n)).
    eapply pn_lt_le_trans; [exact Hlt'|]. destruct (decide (r = r')) as [->|]; [by left|].
    right. apply pn_lt_round. lia. }
  destruct Hle as [->|Hlt2]; [|by eapply IH].
  destruct Hst as [_ Hlast]. specialize (Hlast (r, n) Hs eq_refl).
  eapply pn_lt_irrefl, pn_lt_le_trans; [exact Hlt|exact Hlast].
Qed.

(** A settled value is the value of every later round. *)
Lemma settled_later b v c w : settled K b v → proposed K c w → pn_lt b c → w = v.
Proof.
  intros Hst. remember (below K c) as k eqn:Hk. revert c w Hk.
  induction k as [k IH] using (well_founded_induction Nat.lt_wf_0). intros c w -> Hp Hlt.
  destruct (bo_propose _ Hok _ _ Hp) as (Hs & Q' & HQ' & Hsz' & Hrep).
  pose proof Hst as [(Q & HQ & Hsz & Hvt) _].
  destruct (quorum_intersect cluster Q Q') as (x & Hx & Hx'); [done..|].
  destruct (decide (x = c.2)) as [->|Hne].
  { exfalso. destruct c as [r n]. by eapply settled_not_own; eauto. }
  destruct (Hrep x Hx' Hne) as (acc & Hpr & Hhigh).
  destruct (bo_promise _ Hok _ _ _ _ _ Hpr (Hvt _ Hx) Hlt) as (a & u & -> & Hle).
  destruct (Hhigh _ _ eq_refl) as (m & y & Ham & Hy).
  destruct (bo_report _ Hok _ _ _ _ Hy) as [Hmc Hm].
  assert (pn_le b m) as [->|Hbm] by (by etransitivity).
  - eapply Hone; [exact Hm|]. eapply voted_proposed; [exact Hvotes|by apply Hvt].
  - eapply IH; [by eapply below_lt|reflexivity|done|done].
Qed.

(** At most one value is settled. *)
Lemma settled_agree b v c w : settled K b v → settled K c w → v = w.
Proof.
  assert (∀ b v c w, settled K b v → settled K c w → pn_le b c → v = w) as Hle.
  { clear b v c w. intros b v c w Hb Hc Hbc.
    assert (∀ b v, settled K b v → proposed K b v) as Hpr.
    { intros b' v' [(Q & _ & Hsz & Hv) _]. destruct (set_choose_L Q) as [x Hx].
      { intros ->. rewrite size_empty in Hsz. pose proof (quorum_size_pos (size cluster)). lia. }
      eapply voted_proposed; eauto. }
    destruct Hbc as [->|Hlt]; [by eapply Hone; eauto|]. symmetry. eapply settled_later; eauto. }
  intros Hb Hc. destruct (pn_ltb c b) eqn:E.
  - symmetry. eapply Hle; [done..|]. right. by apply pn_ltb_lt.
  - eapply Hle; [done..|]. apply pn_nlt_le. rewrite <- pn_ltb_lt. by rewrite E.
Qed.
End safety.
End ballots.
