(* ===== verification/PaxosVotes.v ===== *)
(** * Paxos: a node's slot and what was sent

    What an open slot of a node has to do with the messages of the cluster:
    what the node holds it has from messages ([backed]), what it has sent it
    still holds ([covers]). Every act of [PaxosSlot.v] that Paxos allows keeps
    both and keeps the ballots of [PaxosBallots.v] in order. *)

From S2P Require Import Prelude Types Network Storage Paxos PaxosLocal.
From S2P Require Import PaxosProposer PaxosSlot PaxosBallots.
Import Paxos.

Section votes.
Context {V : Type} (cluster : gset NodeId) (s : N).
Abbreviation Sent := (list (Packet (PaxosMessage V))).
Implicit Types (K : Sent) (n x : NodeId).

(** What the node holds it has from messages. *)
Record backed K n (c : Core V) : Prop := {
  bk_accepted a w : c_accepted c = Some (a, w) →
    voted s K n a w ∧ ∃ hp, c_promised c = Some hp ∧ pn_le a hp;
  bk_round : c_proposer c = true → (c_num c).2 = n ∧ started s K (c_num c) ∧
    ∃ hp, c_promised c = Some hp ∧ pn_le (c_num c) hp;
  bk_proms x : x ∈ c_proms c → x ∈ cluster ∧
    (x ≠ n → ∃ acc, promised s K x (c_num c) acc ∧
       ∀ a w, acc = Some (a, w) → ∃ m u, c_high c = Some (m, u) ∧ pn_le a m);
  bk_high m u : c_high c = Some (m, u) → ∃ y, promised s K y (c_num c) (Some (m, u));
  bk_accs x : x ∈ c_accs c → x ∈ cluster ∧ ∃ v, voted s K x (c_num c) v;
  bk_few : size (c_accs c) < quorum_size (size cluster);
}.

(** What the node has sent it holds. *)
Record covers K n (c : Core V) : Prop := {
  cv_promised b acc : promised s K n b acc → ∃ hp, c_promised c = Some hp ∧ pn_le b hp;
  cv_voted b v : voted s K n b v → ∃ a w, c_accepted c = Some (a, w) ∧ pn_le b a;
  cv_started b : started s K b → b.2 = n → (b.1 ≤ (c_num c).1)%N ∧ c_proposer c = true;
  cv_self v : proposed s K (c_num c) v → (c_num c).2 = n → n ∈ c_accs c;
}.

(** What was sent on the slot is well formed. *)
Record sent_ok K : Prop := {
  so_prepare x d b : mkPacket x d (Prepare s b) ∈ K → x = b.2 ∧ (0 < b.1)%N;
  so_promise x d b acc : mkPacket x d (Promise s b acc) ∈ K →
    d = b.2 ∧ x ≠ d ∧ x ∈ cluster ∧ started s K b;
  so_accept x d b v : mkPacket x d (Accept s b v) ∈ K → x = b.2;
  so_accepted x d b v : mkPacket x d (Accepted s b v) ∈ K →
    d = b.2 ∧ x ≠ d ∧ x ∈ cluster ∧ proposed s K b v;
}.

Lemma sent_votes K x b v : sent_ok K → voted s K x b v → proposed s K b v.
Proof.
  intros Hs. apply voted_proposed. intros y c w Hin. by apply (so_accepted _ Hs) in Hin as (_ & _ & _ & ?).
Qed.

Lemma own_le (b c : ProposalNumber) n : b.2 = n → c.2 = n → (b.1 ≤ c.1)%N → pn_le b c.
Proof.
  destruct b as [r m], c as [r' m']. simpl. intros -> -> Hle.
  destruct (decide_rel (=) r r') as [->|]; [by left|]. right. apply pn_lt_round. lia.
Qed.

(** ** More messages *)
Section grow.
Context (K K' : Sent) (Hsub : K ⊆ K').

Lemma started_mono b : started s K b → started s K' b.
Proof. intros [d Hd]. exists d. by apply Hsub. Qed.
Lemma proposed_mono b v : proposed s K b v → proposed s K' b v.
Proof. intros [d Hd]. exists d. by apply Hsub. Qed.
Lemma promised_mono x b acc : promised s K x b acc → promised s K' x b acc.
Proof. apply Hsub. Qed.
Lemma voted_mono x b v : voted s K x b v → voted s K' x b v.
Proof. intros [[-> ?]|[? ?]]; [left|right]; split; auto using proposed_mono. Qed.

Lemma ballots_grow :
  ballots_ok cluster s K →
  (∀ x b acc c v, promised s K' x b acc → voted s K' x c v → pn_lt c b →
     promised s K x b acc ∧ voted s K x c v ∨ ∃ a w, acc = Some (a, w) ∧ pn_le c a) →
  (∀ x b a w, promised s K' x b (Some (a, w)) →
     promised s K x b (Some (a, w)) ∨ pn_lt a b ∧ proposed s K' a w) →
  (∀ b v, proposed s K' b v → proposed s K b v ∨ started s K' b ∧
     ∃ Q : gset NodeId, Q ⊆ cluster ∧ quorum_size (size cluster) ≤ size Q ∧
       ∀ x, x ∈ Q → x ≠ b.2 → ∃ acc, promised s K' x b acc ∧
         ∀ a w, acc = Some (a, w) → ∃ m y, pn_le a m ∧ promised s K' y b (Some (m, v))) →
  (∀ b c v, started s K' b → voted s K' b.2 c v → pn_lt c b →
     started s K b ∧ voted s K b.2 c v ∨
     ∃ d w, d.2 = b.2 ∧ pn_le c d ∧ pn_lt d b ∧ proposed s K' d w) →
  ballots_ok cluster s K'.
Proof.
  intros [B1 B2 B3 B4] P1 P2 P3 P4. split.
  - intros x b acc c v Hp Hv Hlt. destruct (P1 _ _ _ _ _ Hp Hv Hlt) as [[? ?]|?]; eauto.
  - intros x b a w Hp. destruct (P2 _ _ _ _ Hp) as [Hp'|?]; [|done].
    destruct (B2 _ _ _ _ Hp'). auto using proposed_mono.
  - intros b v Hp. destruct (P3 _ _ Hp) as [Hp'|?]; [|done].
    destruct (B3 _ _ Hp') as (? & Q & ? & ? & HQ). split; [by apply started_mono|].
    exists Q. split_and!; [done..|]. intros x Hx Hne. destruct (HQ x Hx Hne) as (acc & ? & G).
    exists acc. split; [by apply promised_mono|]. intros a w (m & y & ? & ?)%G.
    exists m, y. auto using promised_mono.
  - intros b c v Hs Hv Hlt. destruct (P4 _ _ _ Hs Hv Hlt) as [[Hs' Hv']|?]; [|done].
    destruct (B4 _ _ _ Hs' Hv' Hlt) as (d & w & ? & ? & ? & ?). exists d, w. auto using proposed_mono.
Qed.

Lemma backed_mono n c : backed K n c → backed K' n c.
Proof.
  intros [H3 H5 H6 H7 H8 H10]. split; [..|done].
  - intros a w Ha. destruct (H3 _ _ Ha). auto using voted_mono.
  - intros Hc. destruct (H5 Hc) as (? & ? & ?). auto using started_mono.
  - intros x Hx. destruct (H6 _ Hx) as [? G]. split; [done|]. intros (acc & ? & ?)%G.
    eauto using promised_mono.
  - intros m u Hm. destruct (H7 _ _ Hm) as [y ?]. eauto using promised_mono.
  - intros x Hx. destruct (H8 _ Hx) as [? [v ?]]. eauto using voted_mono.
Qed.

(** A node none of whose messages is new. *)
Lemma covers_grow n c :
  (∀ d m, mkPacket n d m ∈ K' → slot_of_msg m = Some s → (∀ v, m ≠ Decide s v) → mkPacket n d m ∈ K) →
  covers K n c → covers K' n c.
Proof.
  intros Hold [H1 H2 H4 H9].
  assert (∀ b v, proposed s K' b v → b.2 = n → proposed s K b v) as Hp.
  { intros b v [d Hd] <-. exists d. by apply Hold. }
  split.
  - intros b acc Hb. eapply H1, Hold; [exact Hb|done..].
  - intros b v [[-> Hb]|[Hne Hb]]; apply (H2 b v); [left; auto|right; split; [done|by apply Hold]].
  - intros b [d Hd] <-. apply H4; [|done]. exists d. by apply Hold.
  - intros v Hv Hn. eauto.
Qed.
End grow.

(** ** The messages of one act *)
Section act.
Context (K K' : Sent) (n : NodeId) (os : list (Outgoing (PaxosMessage V))).
Context (Hsub : K ⊆ K') (Hcl : n ∈ cluster) (Htwo : 2 ≤ size cluster).

Definition from_act (x d : NodeId) (m : PaxosMessage V) : Prop :=
  x = n ∧ d ∈ cluster ∧ d ≠ n ∧ ∃ o, o ∈ os ∧ message o = m ∧ (target o = Peer d ∨ target o = Broadcast).
Definition sends : Prop := ∀ x d m, slot_of_msg m = Some s →
  (mkPacket x d m ∈ K' ↔ mkPacket x d m ∈ K ∨ from_act x d m).

Lemma other_node : ∃ d, d ∈ cluster ∧ d ≠ n.
Proof.
  destruct (set_choose_L (cluster ∖ {[ n ]})) as [d Hd].
  - intros He. assert (cluster ⊆ {[ n ]}) as Hle%subseteq_size.
    { intros x Hx. apply elem_of_singleton. destruct (decide_rel (=) x n) as [|Hne]; [done|].
      exfalso. apply (not_elem_of_empty (C:=gset NodeId) x). rewrite <- He.
      apply elem_of_difference. by rewrite not_elem_of_singleton. }
    rewrite size_singleton in Hle. lia.
  - exists d. apply elem_of_difference in Hd as [? ?%not_elem_of_singleton]. done.
Qed.

(** What the act adds to each relation. *)
Lemma from_act_one x d m o : os = [o] → from_act x d m → x = n ∧ d ∈ cluster ∧ d ≠ n ∧ m = message o ∧
  (target o = Peer d ∨ target o = Broadcast).
Proof.
  intros Hos (-> & ? & ? & o' & Ho & <- & ?). rewrite Hos in Ho.
  by apply list_elem_of_singleton in Ho as ->.
Qed.

Lemma from_act_nil x d m : os = [] → ¬ from_act x d m.
Proof. intros Hos (_ & _ & _ & o & Ho & _). rewrite Hos in Ho. by apply elem_of_nil in Ho. Qed.

Context (Hnews : sends).

Lemma started_new b : started s K' b → started s K b ∨ b.2 = n ∧ ∃ d, from_act n d (Prepare s b).
Proof.
  intros [d [?|Hf]%Hnews]; [|right|done]; [left; by exists d|]. pose proof Hf as [<- _]. eauto.
Qed.
Lemma proposed_new b v :
  proposed s K' b v → proposed s K b v ∨ b.2 = n ∧ ∃ d, from_act n d (Accept s b v).
Proof.
  intros [d [?|Hf]%Hnews]; [|right|done]; [left; by exists d|]. pose proof Hf as [<- _]. eauto.
Qed.
Lemma promised_new x b acc :
  promised s K' x b acc → promised s K x b acc ∨ x = n ∧ from_act n b.2 (Promise s b acc).
Proof. intros [?|Hf]%Hnews; [by left|right|done]. pose proof Hf as [-> _]. done. Qed.
Lemma accepted_new x b v :
  mkPacket x b.2 (Accepted s b v) ∈ K' →
  mkPacket x b.2 (Accepted s b v) ∈ K ∨ x = n ∧ from_act n b.2 (Accepted s b v).
Proof. intros [?|Hf]%Hnews; [by left|right|done]. pose proof Hf as [-> _]. done. Qed.
Lemma voted_new x b v :
  voted s K' x b v → voted s K x b v ∨
  x = n ∧ (b.2 = n ∧ (∃ d, from_act n d (Accept s b v)) ∨ b.2 ≠ n ∧ from_act n b.2 (Accepted s b v)).
Proof.
  intros [[-> [?|[-> ?]]%proposed_new]|[Hne [?|[-> ?]]%accepted_new]].
  - by left; left.
  - right. auto.
  - by left; right.
  - right. auto.
Qed.

Context (Hsent : sent_ok K) (Hball : ballots_ok cluster s K).
Context (Hhome : ∀ b, started s K b → b.2 ∈ cluster).

(** What an act sends is well formed. *)
Definition sound_msg (x d : NodeId) (m : PaxosMessage V) : Prop :=
  match m with
  | Prepare _ b => x = b.2 ∧ (0 < b.1)%N
  | Promise _ b _ => d = b.2 ∧ started s K' b
  | Accept _ b v => x = b.2
  | Accepted _ b v => d = b.2 ∧ proposed s K' b v
  | _ => True
  end.

Lemma sent_grow : (∀ x d m, from_act x d m → sound_msg x d m) → sent_ok K'.
Proof.
  intros Hf. destruct Hsent as [S1 S2 S3 S4]. split.
  - intros x d b [Hin|Hin]%Hnews; [by eapply S1|by apply (Hf _ _ _ Hin)|done].
  - intros x d b acc [Hin|Hin]%Hnews; [|..|done].
    + destruct (S2 _ _ _ _ Hin) as (? & ? & ? & ?). split_and!; [done..|by apply (started_mono K K')].
    + destruct (Hf _ _ _ Hin) as [? ?], Hin as (-> & ? & ? & _). by split_and!.
  - intros x d b v [Hin|Hin]%Hnews; [by eapply S3|by apply (Hf _ _ _ Hin)|done].
  - intros x d b v [Hin|Hin]%Hnews; [|..|done].
    + destruct (S4 _ _ _ _ Hin) as (? & ? & ? & ?). split_and!; [done..|by apply (proposed_mono K K')].
    + destruct (Hf _ _ _ Hin) as [? ?], Hin as (-> & ? & ? & _). by split_and!.
Qed.

(** *** Acts that send no more than decisions *)
Lemma silent_act :
  Forall (λ o, ∃ w, message o = Decide s w) os →
  sent_ok K' ∧ ballots_ok cluster s K' ∧ ∀ c, covers K n c → covers K' n c.
Proof.
  intros Ho. assert (∀ x d m, from_act x d m → ∃ w, m = Decide s w) as Hd.
  { intros x d m (_ & _ & _ & o & Hin & <- & _). rewrite Forall_forall in Ho. eauto. }
  assert (∀ x d m, slot_of_msg m = Some s → (∀ w, m ≠ Decide s w) →
    mkPacket x d m ∈ K' → mkPacket x d m ∈ K) as Hold.
  { intros x d m Hm Hne [?|[w ->]%Hd]%Hnews; [done|by destruct (Hne w)|done]. }
  split_and!.
  - apply sent_grow. by intros x d m [w ->]%Hd.
  - assert (∀ x b v, voted s K' x b v → voted s K x b v) as Hvt.
    { intros x b v [[-> [d ?]]|[? ?]]; [left; split; [done|exists d]|right; split; [done|]]; by apply Hold. }
    apply (ballots_grow K K' Hsub Hball).
    + intros x b acc c v Hp Hv _. left. split; [by apply Hold|auto].
    + intros x b a w Hp. left. by apply Hold.
    + intros b v [d Hp]. left. exists d. by apply Hold.
    + intros b c v [d Hst] Hv _. left. split; [exists d; by apply Hold|auto].
  - intros c. apply covers_grow. eauto.
Qed.

(** *** Starting a round *)
Lemma start_act pn c :
  pn.2 = n → os = [mkOut Broadcast (Prepare s pn)] → ((c_num c).1 < pn.1)%N →
  (∀ hp, c_promised c = Some hp → pn_lt hp pn) → (∀ a w, c_accepted c = Some (a, w) → a.2 = n) →
  backed K n c → covers K n c →
  sent_ok K' ∧ ballots_ok cluster s K' ∧ backed K' n (start_core n pn c) ∧ covers K' n (start_core n pn c).
Proof.
  intros Hn Ho Hlt Hhp Hacc Hbk Hcv.
  assert (∀ x d m, from_act x d m → x = n ∧ m = Prepare s pn) as Hf.
  { intros x d m (-> & _ & _ & -> & _)%(from_act_one _ _ _ _ Ho). done. }
  assert (∀ b v, proposed s K' b v → proposed s K b v) as Hpr.
  { intros b v [?|[_ [d [_ ?]%Hf]]]%proposed_new; done. }
  assert (∀ x b acc, promised s K' x b acc → promised s K x b acc) as Hpm.
  { intros x b acc [?|[_ [_ ?]%Hf]]%promised_new; done. }
  assert (∀ x b v, voted s K' x b v → voted s K x b v) as Hvt.
  { intros x b v [?|[_ [[_ [d [_ ?]%Hf]]|[_ [_ ?]%Hf]]]]%voted_new; done. }
  assert (started s K' pn) as Hst.
  { destruct other_node as (d & ? & ?). exists d. apply Hnews; [done|]. right. rewrite Hn.
    split_and!; [done..|]. exists (mkOut Broadcast (Prepare s pn)). rewrite Ho. auto using list_elem_of_here. }
  assert (∀ b, started s K' b → started s K b ∨ b = pn) as Hsn.
  { intros b [?|[_ [d [_ [= ->]]%Hf]]]%started_new; auto. }
  split_and!.
  - apply sent_grow. intros x d m [-> ->]%Hf. simpl. split; [done|lia].
  - apply (ballots_grow K K' Hsub Hball); auto.
    intros b a v [?| ->]%Hsn Hv Hab; [auto|]. right. apply Hvt in Hv. rewrite Hn in *.
    destruct (cv_voted _ _ _ Hcv _ _ Hv) as (d & w & Hd & Had).
    destruct (bk_accepted _ _ _ Hbk _ _ Hd) as [Hvd (hp & Hp & Hle)].
    exists d, w. split_and!; [by eapply Hacc|done|by eapply pn_le_lt_trans; eauto|].
    apply (proposed_mono K K' Hsub). by eapply sent_votes.
  - split; simpl.
    + intros a w Ha. destruct (bk_accepted _ _ _ Hbk _ _ Ha) as [Hv (hp & Hp & Hle)].
      split; [by apply (voted_mono K K')|]. exists pn. split; [done|]. right.
      by eapply pn_le_lt_trans; eauto.
    + intros _. split_and!; [done..|]. exists pn. by split; [|left].
    + intros x ->%elem_of_singleton. by split.
    + done.
    + intros x Hx. by apply not_elem_of_empty in Hx.
    + apply quorum_size_pos.
  - split; simpl.
    + intros b acc (hp & Hp & Hle)%Hpm%(cv_promised _ _ _ Hcv). exists pn. split; [done|].
      right. by eapply pn_le_lt_trans; eauto.
    + intros b v Hv%Hvt. by eapply cv_voted.
    + intros b [Hb| ->]%Hsn Hbn; [|by split; [lia|]].
      destruct (cv_started _ _ _ Hcv _ Hb Hbn). by split; [lia|].
    + intros v Hv%Hpr _. destruct (bo_propose _ _ _ Hball _ _ Hv) as [Hs _].
      destruct (cv_started _ _ _ Hcv _ Hs Hn). lia.
Qed.

(** *** Promising *)
Lemma promise_act pn c :
  started s K pn → os = [mkOut (Peer pn.2) (Promise s pn (c_accepted c))] →
  (∀ hp, c_promised c = Some hp → pn_lt hp pn) → backed K n c → covers K n c →
  let c1 := {| c with c_promised := Some pn |} in
  sent_ok K' ∧ ballots_ok cluster s K' ∧ backed K' n c1 ∧ covers K' n c1.
Proof.
  intros Hstd Ho Hhp Hbk Hcv c1.
  assert (∀ x d m, from_act x d m → x = n ∧ d = pn.2 ∧ m = Promise s pn (c_accepted c)) as Hf.
  { intros x d m (-> & _ & _ & -> & [Ht|Ht])%(from_act_one _ _ _ _ Ho); [|done]. by injection Ht as ->. }
  assert (∀ b, started s K' b → started s K b) as Hst.
  { intros b [?|[_ [d (_ & _ & ?)%Hf]]]%started_new; done. }
  assert (∀ b v, proposed s K' b v → proposed s K b v) as Hpr.
  { intros b v [?|[_ [d (_ & _ & ?)%Hf]]]%proposed_new; done. }
  assert (∀ x b v, voted s K' x b v → voted s K x b v) as Hvt.
  { intros x b v [?|[_ [[_ [d (_ & _ & ?)%Hf]]|[_ (_ & _ & ?)%Hf]]]]%voted_new; done. }
  assert (∀ x b acc, promised s K' x b acc →
    promised s K x b acc ∨ x = n ∧ b = pn ∧ acc = c_accepted c) as Hpm.
  { intros x b acc [?|[-> (_ & _ & [= -> ->])%Hf]]%promised_new; auto. }
  assert (∀ a w, c_accepted c = Some (a, w) → pn_lt a pn) as Hacc.
  { intros a w Ha. destruct (bk_accepted _ _ _ Hbk _ _ Ha) as [_ (hp & Hp & Hle)].
    by eapply pn_le_lt_trans; eauto. }
  split_and!.
  - apply sent_grow. intros x d m (-> & -> & ->)%Hf. split; [done|by apply (started_mono K K')].
  - apply (ballots_grow K K' Hsub Hball); auto.
    + intros x b acc a v [?|(-> & -> & ->)]%Hpm Hv%Hvt _; [auto|]. right. by eapply cv_voted.
    + intros x b a w [?|(-> & -> & Ha)]%Hpm; [auto|]. right. symmetry in Ha. split; [by eapply Hacc|].
      apply (proposed_mono K K' Hsub). destruct (bk_accepted _ _ _ Hbk _ _ Ha). by eapply sent_votes.
  - apply (backed_mono K K' Hsub). destruct Hbk as [B1 B2 B3 B4 B5 B6]. split; simpl; try done.
    + intros a w Ha. destruct (B1 _ _ Ha) as [? _]. split; [done|]. exists pn.
      split; [done|]. right. eauto.
    + intros Hc. destruct (B2 Hc) as (? & ? & hp & ? & Hle). split_and!; [done..|].
      exists pn. split; [done|]. right. by eapply pn_le_lt_trans; eauto.
  - destruct Hcv as [C1 C2 C3 C4]. split; simpl; eauto.
    intros b acc [(hp & ? & Hle)%C1|(_ & -> & _)]%Hpm; [|by exists pn; split; [|left]].
    exists pn. split; [done|]. right. by eapply pn_le_lt_trans; eauto.
Qed.

(** *** Voting for another node's proposal *)
Lemma vote_act pn v c :
  proposed s K pn v → pn.2 ≠ n → os = [mkOut (Peer pn.2) (Accepted s pn v)] →
  (∀ hp, c_promised c = Some hp → pn_le hp pn) → backed K n c → covers K n c →
  let c1 := {| c with c_promised := Some pn; c_accepted := Some (pn, v) |} in
  sent_ok K' ∧ ballots_ok cluster s K' ∧ backed K' n c1 ∧ covers K' n c1.
Proof.
  intros Hprop Hne Ho Hhp Hbk Hcv c1.
  assert (∀ x d m, from_act x d m → x = n ∧ d = pn.2 ∧ m = Accepted s pn v) as Hf.
  { intros x d m (-> & _ & _ & -> & [Ht|Ht])%(from_act_one _ _ _ _ Ho); [|done]. by injection Ht as ->. }
  assert (∀ b, started s K' b → started s K b) as Hst.
  { intros b [?|[_ [d (_ & _ & ?)%Hf]]]%started_new; done. }
  assert (∀ b v, proposed s K' b v → proposed s K b v) as Hpr.
  { intros b w [?|[_ [d (_ & _ & ?)%Hf]]]%proposed_new; done. }
  assert (∀ x b acc, promised s K' x b acc → promised s K x b acc) as Hpm.
  { intros x b acc [?|[_ (_ & _ & ?)%Hf]]%promised_new; done. }
  assert (∀ x b w, voted s K' x b w → voted s K x b w ∨ x = n ∧ b = pn ∧ w = v) as Hvt.
  { intros x b w [?|[-> [[_ [d (_ & _ & ?)%Hf]]|[_ (_ & _ & [= -> ->])%Hf]]]]%voted_new; auto; done. }
  assert (voted s K' n pn v) as Hnv.
  { destruct (bo_propose _ _ _ Hball _ _ Hprop) as [Hs _].
    right. split; [done|]. apply Hnews; [done|]. right. split_and!; [done|by apply Hhome|done|].
    exists (mkOut (Peer pn.2) (Accepted s pn v)). rewrite Ho. auto using list_elem_of_here. }
  split_and!.
  - apply sent_grow. intros x d m (-> & -> & ->)%Hf. split; [done|by apply (proposed_mono K K')].
  - apply (ballots_grow K K' Hsub Hball); auto.
    + intros x b acc a w Hp%Hpm [?|(-> & -> & ->)]%Hvt Hlt; [auto|]. exfalso.
      destruct (cv_promised _ _ _ Hcv _ _ Hp) as (hp & Hhp' & Hle).
      eapply pn_lt_irrefl, pn_lt_le_trans; [exact Hlt|]. etransitivity; [exact Hle|eauto].
    + intros b a w Hs%Hst [?|(Hbn & -> & ->)]%Hvt Hlt; [auto|]. exfalso.
      destruct (cv_started _ _ _ Hcv _ Hs Hbn) as [Hle Hc].
      destruct (bk_round _ _ _ Hbk Hc) as (Hn & _ & hp & Hhp' & Hle').
      eapply pn_lt_irrefl, pn_lt_le_trans; [exact Hlt|]. etransitivity; [by apply (own_le _ _ n)|].
      etransitivity; [exact Hle'|eauto].
  - destruct (backed_mono K K' Hsub _ _ Hbk) as [B1 B2 B3 B4 B5 B6]. split; simpl; try done.
    + intros a w [= <- <-]. split; [done|]. exists pn. by split; [|left].
    + intros Hc. destruct (B2 Hc) as (? & ? & hp & ? & Hle). split_and!; [done..|].
      exists pn. split; [done|]. etransitivity; eauto.
  - destruct Hcv as [C1 C2 C3 C4]. split; simpl; eauto.
    + intros b acc (hp & ? & Hle)%Hpm%C1. exists pn. split; [done|]. etransitivity; eauto.
    + intros b w [Hw|(_ & -> & ->)]%Hvt; [|by exists pn, v; split; [|left]].
      destruct (C2 _ _ Hw) as (a & u & Ha & Hle). exists pn, v. split; [done|].
      destruct (bk_accepted _ _ _ Hbk _ _ Ha) as [_ (hp & Hp & Hle')].
      etransitivity; [exact Hle|]. etransitivity; eauto.
Qed.

(** *** Counting promises and proposing *)
Lemma note_high acc h m u : note (V:=V) acc h = Some (m, u) → acc = Some (m, u) ∨ h = Some (m, u).
Proof.
  destruct acc as [[a w]|]; simpl; [|auto]. destruct (is_none_or _ _); [|auto].
  intros [= -> ->]. auto.
Qed.

Lemma note_above acc h a w :
  acc = Some (a, w) ∨ h = Some (a, w) → ∃ m u, note (V:=V) acc h = Some (m, u) ∧ pn_le a m.
Proof.
  unfold note. destruct acc as [[a' w']|]; [|intros [?| ->]; [done|exists a, w; by split; [|left]]].
  destruct h as [[m u]|]; simpl.
  - destruct (pn_ltb m a') eqn:E.
    + apply pn_ltb_lt in E. intros [[= -> ->]|[= -> ->]]; eexists _, _; (split; [done|]); [by left|by right].
    + intros [[= -> ->]|[= -> ->]]; eexists _, _; (split; [done|]); [|by left].
      apply pn_nlt_le. rewrite <- pn_ltb_lt. by rewrite E.
  - intros [[= -> ->]|?]; [|done]. eexists _, _. split; [done|by left].
Qed.

Lemma count_backed from acc c :
  promised s K from (c_num c) acc → from ∈ cluster → backed K n c →
  backed K n (promise_core from acc c).
Proof.
  intros Hp Hcf [B1 B2 B3 B4 B5 B6]. split; simpl; try done.
  - intros x [->%elem_of_singleton|Hx]%elem_of_union.
    + split; [done|]. intros _. exists acc. split; [done|]. intros a w Ha. apply (note_above _ _ a w). auto.
    + destruct (B3 _ Hx) as [? G]. split; [done|]. intros (acc' & ? & Hr)%G. exists acc'. split; [done|].
      intros a w (m & u & Hm & Hle)%Hr. destruct (note_above acc (c_high c) m u) as (m' & u' & ? & ?); [auto|].
      exists m', u'. split; [done|]. by etransitivity.
  - intros m u [->|?]%note_high; eauto.
Qed.

Lemma count_covers from acc c : covers K n c → covers K n (promise_core from acc c).
Proof. intros [C1 C2 C3 C4]. by split. Qed.

(** A core that has counted a quorum of promises. *)
Lemma quorum_reports c v :
  quorum_size (size cluster) ≤ size (c_proms c) → (∀ m w, c_high c = Some (m, w) → v = w) →
  (c_num c).2 = n → backed K n c →
  ∃ Q : gset NodeId, Q ⊆ cluster ∧ quorum_size (size cluster) ≤ size Q ∧
    ∀ x, x ∈ Q → x ≠ (c_num c).2 → ∃ acc, promised s K x (c_num c) acc ∧
      ∀ a w, acc = Some (a, w) → ∃ m y, pn_le a m ∧ promised s K y (c_num c) (Some (m, v)).
Proof.
  intros Hq Hv Hn [_ _ B3 B4 _ _]. exists (c_proms c). split_and!; [|done|].
  - intros x Hx. by apply B3.
  - intros x Hx. rewrite Hn. intros (acc & ? & Hr)%(proj2 (B3 _ Hx)). exists acc. split; [done|].
    intros a w (m & u & Hm & ?)%Hr. pose proof (Hv _ _ Hm) as ->.
    destruct (B4 _ _ Hm) as [y ?]. eauto.
Qed.

(** Nothing the node promised is above its round: it votes for itself. *)
Lemma phase2_backed v c :
  proposed s K' (c_num c) v → (c_num c).2 = n → backed K n c →
  size (c_accs (phase2_core n v c)) < quorum_size (size cluster) →
  backed K' n (phase2_core n v c).
Proof.
  intros Hp Hn Hbk. unfold phase2_core. apply (backed_mono K K' Hsub) in Hbk.
  destruct (is_none_or _ _) eqn:E; [|done]. destruct Hbk as [B1 B2 B3 B4 B5 B6].
  intros Hfew. split; simpl; try done.
  - intros a w [= <- <-]. split; [by left|]. exists (c_num c). by split; [|left].
  - intros Hc. destruct (B2 Hc) as (? & ? & _). split_and!; [done..|]. exists (c_num c). by split; [|left].
  - intros x [->%elem_of_singleton|Hx]%elem_of_union; [|by apply B5].
    split; [done|]. exists v. by left.
Qed.

Lemma phase2_covers v c :
  (∀ b acc, promised s K' n b acc → promised s K n b acc) →
  (∀ b, started s K' b → started s K b) →
  (∀ b w, voted s K' n b w → voted s K n b w ∨ b = c_num c) →
  (is_none_or (c_promised c) (λ hp, pn_leb hp (c_num c)) = true ∨
     (∀ b w, proposed s K' b w → proposed s K b w) ∧ (∀ b w, voted s K' n b w → voted s K n b w)) →
  backed K n c → covers K n c → covers K' n (phase2_core n v c).
Proof.
  intros Hpm Hst Hvt Hcan Hbk [C1 C2 C3 C4]. unfold phase2_core.
  destruct (is_none_or _ _) eqn:E.
  - assert (∀ hp, c_promised c = Some hp → pn_le hp (c_num c)) as Hhp.
    { intros hp Hp. rewrite Hp in E. by apply pn_leb_le. }
    split; simpl; eauto.
    + intros b acc (hp & Hp & Hle)%Hpm%C1. exists (c_num c). split; [done|]. etransitivity; eauto.
    + intros b w [(a & u & Ha & Hle)%C2| ->]%Hvt; exists (c_num c), v; (split; [done|]); [|by left].
      destruct (bk_accepted _ _ _ Hbk _ _ Ha) as [_ (hp & Hp & Hle')].
      etransitivity; [exact Hle|]. etransitivity; eauto.
    + intros w _ _. apply elem_of_union_l. by apply elem_of_singleton.
  - destruct Hcan as [?|[Hpr Hv]]; [done|]. split; eauto.
Qed.

Lemma phase2_act v c :
  let c1 := phase2_core n v c in
  os = [mkOut Broadcast (Accept s (c_num c) v)] → c_proposer c = true →
  quorum_size (size cluster) ≤ size (c_proms c) → (∀ m w, c_high c = Some (m, w) → v = w) →
  size (c_accs c1) < quorum_size (size cluster) →
  c_accepted c1 = Some (c_num c, v) ∨ proposed s K (c_num c) v →
  backed K n c → covers K n c →
  sent_ok K' ∧ ballots_ok cluster s K' ∧ backed K' n c1 ∧ covers K' n c1.
Proof.
  intros c1 Ho Hc Hq Hv Hfew Hvote Hbk Hcv. destruct (bk_round _ _ _ Hbk Hc) as (Hn & Hs & _).
  assert (∀ x d m, from_act x d m → x = n ∧ m = Accept s (c_num c) v) as Hf.
  { intros x d m (-> & _ & _ & -> & _)%(from_act_one _ _ _ _ Ho). done. }
  assert (proposed s K' (c_num c) v) as Hprop.
  { destruct other_node as (d & ? & ?). exists d. apply Hnews; [done|]. right. rewrite Hn.
    split_and!; [done..|]. exists (mkOut Broadcast (Accept s (c_num c) v)). rewrite Ho.
    auto using list_elem_of_here. }
  assert (∀ b, started s K' b → started s K b) as Hst.
  { intros b [?|[_ [d [_ ?]%Hf]]]%started_new; done. }
  assert (∀ x b acc, promised s K' x b acc → promised s K x b acc) as Hpm.
  { intros x b acc [?|[_ [_ ?]%Hf]]%promised_new; done. }
  assert (∀ b w, proposed s K' b w → proposed s K b w ∨ b = c_num c ∧ w = v) as Hpr.
  { intros b w [?|[_ [d [_ [= -> ->]]%Hf]]]%proposed_new; auto. }
  assert (∀ x b w, voted s K' x b w → voted s K x b w ∨ x = n ∧ b = c_num c ∧ w = v) as Hvt.
  { intros x b w [?|[-> [[_ [d [_ [= -> ->]]%Hf]]|[_ [_ ?]%Hf]]]]%voted_new; auto; done. }
  (* the node votes now, or the proposal was sent before *)
  assert (is_none_or (c_promised c) (λ hp, pn_leb hp (c_num c)) = true ∨ proposed s K (c_num c) v) as Hcan.
  { unfold c1, phase2_core in Hvote. destruct (is_none_or _ _) eqn:E; [by left|]. right.
    destruct Hvote as [Ha|?]; [|done]. destruct (bk_accepted _ _ _ Hbk _ _ Ha). by eapply sent_votes. }
  split_and!.
  - apply sent_grow. by intros x d m [-> ->]%Hf.
  - apply (ballots_grow K K' Hsub Hball); auto.
    + intros x b acc a w Hp%Hpm [?|(-> & -> & ->)]%Hvt Hlt; [auto|].
      destruct Hcan as [E|?]; [|left; by split; [|left]]. exfalso.
      destruct (cv_promised _ _ _ Hcv _ _ Hp) as (hp & Hhp & Hle). rewrite Hhp in E. apply pn_leb_le in E.
      eapply pn_lt_irrefl, pn_lt_le_trans; [exact Hlt|]. by etransitivity.
    + intros b w [?|[-> ->]]%Hpr; [by left|]. right. split; [by apply (started_mono K K')|].
      destruct (quorum_reports c v Hq Hv Hn Hbk) as (Q & ? & ? & HQ). exists Q. split_and!; [done..|].
      intros x Hx Hne. destruct (HQ x Hx Hne) as (acc & ? & G). exists acc.
      split; [by apply (promised_mono K K')|]. intros a w (m & y & ? & ?)%G.
      exists m, y. split; [done|by apply (promised_mono K K')].
    + intros b a w Hb%Hst [?|(Hbn & -> & ->)]%Hvt Hlt; [auto|]. exfalso.
      destruct (cv_started _ _ _ Hcv _ Hb Hbn) as [Hle _].
      eapply pn_lt_irrefl, pn_lt_le_trans; [exact Hlt|]. by apply (own_le _ _ n).
  - by apply phase2_backed.
  - apply phase2_covers; auto.
    + intros b w [?|(_ & -> & _)]%Hvt; auto.
    + destruct Hcan as [?|Hp]; [by left|right]. split.
      * by intros b w [?|[-> ->]]%Hpr.
      * intros b w [?|(_ & -> & ->)]%Hvt; [done|by left].
Qed.
End act.
End votes.
