(* ===== verification/PaxosAgreement.v ===== *)
(** * Paxos: agreement of careful runs

    The runs of [PaxosRuns.v] in which agreement fails have in common that a
    proposer does what Paxos forbids: it starts a round below its own promise
    or over a value of another node that it has accepted, sends two values
    under one number, proposes without voting, or comes back without its
    acceptor's state. Runs of a plain Paxos cluster in which none of this
    happens agree, whatever is lost, duplicated, delayed and reordered. *)

From S2P Require Import Prelude Types Network Storage Paxos PaxosLocal PaxosDecisions.
From S2P Require Import PaxosProposer PaxosValues PaxosNet PaxosSlot PaxosBallots PaxosVotes.
Import Paxos.

Section careful.
Context {V St : Type} `{EqDecision V} `{PaxosStorage St V}.
Context (cluster : gset NodeId) (hb : Duration).
Implicit Types (σ : PNet V St) (p : PaxosProtocol V St).

(** A round is started above what the node has promised, and over nothing that
    it has accepted from another node. *)
Definition starts_above (n : NodeId) p p1 : Prop :=
  ∀ s, decided_slots p1 !! s = None →
    let i := get_or_create_instance p s in
    let i1 := get_or_create_instance p1 s in
    proposal_number i1 ≠ proposal_number i →
    (∀ hp, highest_promised i = Some hp → pn_lt hp (proposal_number i1)) ∧
    (∀ a w, accepted i = Some (a, w) → a.2 = n).

(** A proposal is one the node has voted for, or has sent before. *)
Definition votes_first σ (n : NodeId) p1 (out : list (Outgoing (PaxosMessage V))) : Prop :=
  ∀ s b v, mkOut Broadcast (Accept s b v) ∈ out →
    accepted (get_or_create_instance p1 s) = Some (b, v) ∨
    ∃ d, mkPacket n d (Accept s b v) ∈ ppackets σ.

(** Steps of a cluster whose nodes start once and then run with care; a node
    that stops for good is one that takes no more steps. *)
Inductive careful_step (σ : PNet V St) : PNet V St → Prop :=
| careful_event n p e ev p1 out p2 ds :
    pnodes σ !! n = Some (PUp p) → penabled σ n ev →
    run_pevent false e ev p = Some (p1, out) → drain_decisions p1 = (p2, Ok ds) →
    starts_above n p p1 → votes_first σ n p1 out →
    careful_step σ {| pnodes := <[n := PUp p2]> (pnodes σ);
                      ppackets := ppackets σ ++ packets_of cluster n out;
                      pdelivered := pdelivered σ ++ map (pair n) ds;
                      proposals := proposals σ ++ proposed_by ev |}
| careful_take_lost n p :
    pnodes σ !! n = Some (PUp p) →
    careful_step σ {| σ with pnodes := <[n := PUp (take_lost_proposals p).1]> (pnodes σ) |}
| careful_start n s e p1 :
    pnodes σ !! n = Some (PDown s) →
    recover (new_with_config e n (size cluster) hb s) = Some (p1, Ok tt) →
    careful_step σ {| σ with pnodes := <[n := PUp p1]> (pnodes σ) |}.

Lemma careful_pstep σ σ' : careful_step σ σ' → pstep false cluster hb σ σ'.
Proof.
  intros []; [by eapply pstep_event|by apply pstep_take_lost|by eapply pstep_restart].
Qed.

(** No number was used for two values. *)
Definition single_valued σ : Prop := ∀ s, one_value s (ppackets σ).
End careful.


(** ** One act in a cluster *)
Section act.
Context {V : Type} (cluster : gset NodeId) (s : N).
Abbreviation Sent := (list (Packet (PaxosMessage V))).
Context (K K' : Sent) (n : NodeId) (os : list (Outgoing (PaxosMessage V))).
Context (Hsub : K ⊆ K') (Hcl : n ∈ cluster) (Htwo : 2 ≤ size cluster).
Context (Hnews : sends cluster s K K' n os) (Hsent : sent_ok cluster s K).
Context (Hball : ballots_ok cluster s K) (Hone : one_value s K).
Context (Hhome : ∀ b, started s K b → b.2 ∈ cluster).
Context (Hself : ∀ x m, mkPacket x x m ∉ K).

(** An answer to a round of this node. *)
Lemma own_round c b :
  covers s K n c → started s K b → b.2 = n → c_proposer c = true.
Proof. intros Hcv Hs Hn. by destruct (cv_started _ _ _ _ Hcv _ Hs Hn). Qed.

Lemma few_accs c v :
  backed cluster s K n c → covers s K n c → (c_num c).2 = n →
  size (c_accs (phase2_core n v c)) < quorum_size (size cluster).
Proof.
  intros Hbk Hcv Hn. pose proof (bk_few _ _ _ _ _ Hbk) as Hfew. unfold phase2_core.
  destruct (is_none_or _ _); [|done]. simpl.
  destruct (decide_rel elem_of n (c_accs c)) as [Hin|Hin].
  { replace ({[ n ]} ∪ c_accs c) with (c_accs c); [done|]. apply leibniz_equiv. set_solver. }
  assert (c_accs c = ∅) as ->.
  { destruct (set_choose_or_empty (c_accs c)) as [[x Hx]|He]; [|by apply leibniz_equiv].
    destruct (bk_accs _ _ _ _ _ Hbk _ Hx) as [_ [w Hw]]. destruct Hin.
    eapply cv_self; [exact Hcv| |exact Hn]. by eapply sent_votes. }
  rewrite union_empty_r_L, size_singleton. unfold quorum_size.
  pose proof (Nat.div_le_mono 2 (size cluster) 2 ltac:(lia) Htwo). change (2 / 2) with 1 in *. lia.
Qed.

(** A quorum of Accepted messages settles the value the node has accepted. *)
Lemma decide_settled c from v a w :
  mkPacket from n (Accepted s (c_num c) v) ∈ K → backed cluster s K n c → covers s K n c →
  quorum_size (size cluster) ≤ size ({[ from ]} ∪ c_accs c) → c_accepted c = Some (a, w) →
  (c_num c).2 = n ∧ settled cluster s K (c_num c) w.
Proof.
  intros Hin Hbk Hcv Hq Ha.
  destruct (so_accepted _ _ _ Hsent _ _ _ _ Hin) as (Hn & Hne & Hfc & Hp). symmetry in Hn.
  assert (∀ x b u, mkPacket x b.2 (Accepted s b u) ∈ K → proposed s K b u) as Hvotes.
  { intros x b u Hx. by destruct (so_accepted _ _ _ Hsent _ _ _ _ Hx) as (_ & _ & _ & ?). }
  assert (settled cluster s K (c_num c) v) as Hst.
  { split.
    - exists ({[ from ]} ∪ c_accs c). split_and!; [|done|].
      + intros x [->%elem_of_singleton|Hx]%elem_of_union; [done|by apply (bk_accs _ _ _ _ _ Hbk)].
      + intros x [->%elem_of_singleton|Hx]%elem_of_union.
        * right. by rewrite Hn.
        * destruct (bk_accs _ _ _ _ _ Hbk _ Hx) as [_ [u Hu]].
          by rewrite (Hone _ _ _ Hp (sent_votes _ _ _ _ _ _ Hsent Hu)).
    - intros b Hb Hbn. rewrite Hn in Hbn. destruct (cv_started _ _ _ _ Hcv _ Hb Hbn).
      by apply (own_le _ _ n). }
  split; [done|]. replace w with v; [done|].
  assert (voted s K n (c_num c) v) as Hv by (by left).
  destruct (cv_voted _ _ _ _ Hcv _ _ Hv) as (a' & w' & Ha' & Hle).
  rewrite Ha in Ha'. injection Ha' as <- <-.
  destruct (bk_accepted _ _ _ _ _ Hbk _ _ Ha) as [Hva _]. apply (sent_votes _ _ _ _ _ _ Hsent) in Hva.
  destruct Hle as [<-|Hlt]; [by eapply Hone|]. symmetry. by eapply settled_later; eauto.
Qed.

(** What an act leaves of the slot: the messages are in order, an open slot
    matches them, a decision was known, was told or is settled. *)
Definition act_result (x x1 : Slot V) : Prop :=
  sent_ok cluster s K' ∧ ballots_ok cluster s K' ∧
  (s_decided x1 = None → backed cluster s K' n (s_core x1) ∧ covers s K' n (s_core x1)) ∧
  (∀ w, s_decided x1 = Some w → s_decided x = Some w ∨
     (∃ b, b.2 = n ∧ settled cluster s K b w) ∨ ∃ from, mkPacket from n (Decide s w) ∈ K) ∧
  (∀ b, started s K' b → started s K b ∨ b.2 = n ∧ s_decided x = None ∧ s_decided x1 = None) ∧
  (∀ d w, from_act cluster n os n d (Decide s w) → s_decided x1 = Some w).

(** An act that starts no round. *)
Lemma no_start o :
  os = [o] → (∀ b, message o ≠ Prepare s b) → ∀ b, started s K' b → started s K b.
Proof.
  intros Ho Hne b [?|(_ & d & (_ & _ & _ & Hm & _)%(from_act_one _ _ _ _ _ _ _ Ho))]%(started_new cluster s K K' n os Hcl Hnews);
    [done|]. by destruct (Hne b).
Qed.

Lemma silent_result x x1 :
  Forall (λ o, ∃ w, message o = Decide s w ∧ s_decided x1 = Some w) os →
  (s_decided x1 = None → backed cluster s K n (s_core x1) ∧ covers s K n (s_core x1)) →
  (∀ w, s_decided x1 = Some w → s_decided x = Some w ∨
     (∃ b, b.2 = n ∧ settled cluster s K b w) ∨ ∃ from, mkPacket from n (Decide s w) ∈ K) →
  act_result x x1.
Proof.
  intros Ho Hopen Hdec.
  destruct (silent_act cluster s K K' n os Hsub Hcl Hnews Hsent Hball) as (Hs & Hb & Hc).
  { eapply Forall_impl; [exact Ho|]. intros o (w & ? & _). eauto. }
  assert (∀ m d, from_act cluster n os n d m → ∃ w, m = Decide s w ∧ s_decided x1 = Some w) as Hf.
  { intros m d (_ & _ & _ & o & Hin & <- & _). rewrite Forall_forall in Ho. eauto. }
  split_and!; [done|done| |done| |].
  - intros Hn. destruct (Hopen Hn). split; [by apply (backed_mono cluster s K K')|by apply Hc].
  - intros b [?|[_ [d (w & ? & _)%Hf]]]%(started_new cluster s K K' n os Hcl Hnews); [by left|done].
  - intros d w (w' & [= <-] & ?)%Hf. done.
Qed.

Lemma sent_result o x x1 :
  os = [o] → (∀ b, message o ≠ Prepare s b) → (∀ w, message o ≠ Decide s w) →
  s_decided x1 = None →
  sent_ok cluster s K' ∧ ballots_ok cluster s K' ∧
    backed cluster s K' n (s_core x1) ∧ covers s K' n (s_core x1) →
  act_result x x1.
Proof.
  intros Ho Hp Hd Hn (? & ? & ? & ?). split_and!; try done; [congruence| |].
  - intros b Hb. left. by eapply no_start.
  - intros d w (_ & _ & _ & Hm & _)%(from_act_one _ _ _ _ _ _ _ Ho). by destruct (Hd w).
Qed.

Lemma act_keeps ev x x1 :
  slot_act s n (quorum_size (size cluster)) ev x x1 os →
  (∀ from msg, ev = PevReceive from msg → mkPacket from n msg ∈ K) →
  (s_decided x = None → backed cluster s K n (s_core x) ∧ covers s K n (s_core x)) →
  (s_decided x1 = None → c_num (s_core x1) ≠ c_num (s_core x) →
     (∀ hp, c_promised (s_core x) = Some hp → pn_lt hp (c_num (s_core x1))) ∧
     (∀ a w, c_accepted (s_core x) = Some (a, w) → a.2 = n)) →
  (∀ b v, mkOut Broadcast (Accept s b v) ∈ os →
     c_accepted (s_core x1) = Some (b, v) ∨ proposed s K b v) →
  act_result x x1.
Proof.
  intros Ha Hen Hopen Hg1 Hg2. remember os as os' eqn:Hos in Ha. symmetry in Hos. destruct Ha as
    [c d r r1 y y1 out _ Ho|c r y y1 pn Hn Hlt _|c r y from pn Hev Hhp|c r y from pn v Hev Hhp
    |c r y from acc Hev|c r y from acc v Hev c1 Hq Hv Hfew|c r y y1 from acc v Hev Hq
    |c r y from v Hev Hfew|c r y y1 from v pn w Hev Hq Hacc|c r y y1 from v Hev]; simpl in *.
  - apply silent_result; rewrite ?Hos; simpl; auto.
  - destruct (Hopen eq_refl) as [Hbk Hcv].
    destruct (Hg1 eq_refl) as [Hhp Hacc]; [intros Heq; rewrite Heq in Hlt; lia|].
    destruct (start_act cluster s K K' n os Hsub Hcl Htwo Hnews Hsent Hball pn c) as (? & ? & ? & ?); try done.
    split_and!; try done; simpl.
    + intros b [?|[? _]]%(started_new cluster s K K' n os Hcl Hnews); auto.
    + intros d w (_ & _ & _ & ? & _)%(from_act_one _ _ _ _ _ _ _ Hos). done.
  - destruct (Hopen eq_refl) as [Hbk Hcv]. pose proof (Hen _ _ Hev) as Hin.
    destruct (so_prepare _ _ _ Hsent _ _ _ Hin) as [-> _].
    eapply sent_result; [exact Hos|done..|]. eapply (promise_act cluster s K K'); eauto. by eexists.
  - destruct (Hopen eq_refl) as [Hbk Hcv]. pose proof (Hen _ _ Hev) as Hin.
    pose proof (so_accept _ _ _ Hsent _ _ _ _ Hin) as ->.
    eapply sent_result; [exact Hos|done..|]. eapply (vote_act cluster s K K'); eauto; [by eexists|].
    intros Hn. rewrite Hn in Hin. by eapply Hself.
  - destruct (Hopen eq_refl) as [Hbk Hcv]. pose proof (Hen _ _ Hev) as Hin.
    destruct (so_promise _ _ _ Hsent _ _ _ _ Hin) as (Hn & _ & ? & _).
    apply silent_result; rewrite ?Hos; simpl; [constructor| |done]. intros _.
    split; [apply count_backed; try done|by apply count_covers]. unfold promised. by rewrite <- Hn.
  - destruct (Hopen eq_refl) as [Hbk Hcv]. pose proof (Hen _ _ Hev) as Hin.
    destruct (so_promise _ _ _ Hsent _ _ _ _ Hin) as (Hn & _ & ? & Hst). symmetry in Hn.
    pose proof (own_round _ _ Hcv Hst Hn) as Hc.
    assert (backed cluster s K n c1) as Hbk1.
    { apply count_backed; try done. unfold promised. by rewrite Hn. }
    eapply sent_result; [exact Hos|done..|]. eapply (phase2_act cluster s K K'); eauto.
    + apply Hg2. rewrite Hos. left.
    + by apply count_covers.
  - exfalso. destruct (Hopen eq_refl) as [Hbk Hcv]. pose proof (Hen _ _ Hev) as Hin.
    destruct (so_promise _ _ _ Hsent _ _ _ _ Hin) as (Hn & _ & ? & _). symmetry in Hn.
    apply (Nat.lt_irrefl (quorum_size (size cluster))). eapply Nat.le_lt_trans; [exact Hq|].
    apply few_accs; [|by apply count_covers|done]. apply count_backed; try done. unfold promised. by rewrite Hn.
  - destruct (Hopen eq_refl) as [Hbk Hcv]. pose proof (Hen _ _ Hev) as Hin.
    destruct (so_accepted _ _ _ Hsent _ _ _ _ Hin) as (Hn & Hne & ? & Hp). symmetry in Hn.
    apply silent_result; rewrite ?Hos; simpl; [constructor| |done]. intros _.
    destruct Hbk as [B1 B2 B3 B4 B5 B6], Hcv as [C1 C2 C3 C4]. split; split; simpl; try done.
    + intros x [->%elem_of_singleton|Hx]%elem_of_union; [|by apply B5]. split; [done|].
      exists v. right. by rewrite Hn.
    + intros w Hw Hcn. apply elem_of_union_r. eauto.
  - destruct (Hopen eq_refl) as [Hbk Hcv]. pose proof (Hen _ _ Hev) as Hin.
    destruct (decide_settled _ _ _ _ _ Hin Hbk Hcv Hq Hacc) as [Hn Hst].
    apply silent_result; rewrite ?Hos; simpl; [|done|].
    + repeat constructor. eauto.
    + intros ? [= <-]. right. left. eauto.
  - pose proof (Hen _ _ Hev) as Hin. apply silent_result; rewrite ?Hos; simpl; [constructor|done|].
    intros ? [= <-]. eauto.
Qed.
End act.

(** ** The invariant of careful runs *)
Section net.
Context {V St : Type} `{EqDecision V} `{PaxosStorageSpec St V}.
Context (cluster : gset NodeId) (hb : Duration) (Htwo : 2 ≤ size cluster).
Implicit Types (σ : PNet V St) (p : PaxosProtocol V St).

(** [v] is settled in slot [s], and the node of its round knows. *)
Definition fixed (s : N) σ (v : V) : Prop :=
  ∃ b, settled cluster s (ppackets σ) b v ∧
    ∃ p, pnodes σ !! b.2 = Some (PUp p) ∧ is_Some (decided_slots p !! s).

Record slot_inv (s : N) σ : Prop := {
  iv_sent : sent_ok cluster s (ppackets σ);
  iv_ballots : ballots_ok cluster s (ppackets σ);
  iv_told x d v : mkPacket x d (Decide s v) ∈ ppackets σ → fixed s σ v;
  iv_decided n p v : pnodes σ !! n = Some (PUp p) → decided_slots p !! s = Some v → fixed s σ v;
  iv_open n p : pnodes σ !! n = Some (PUp p) → decided_slots p !! s = None →
    backed cluster s (ppackets σ) n (s_core (slot_of s p)) ∧
    covers s (ppackets σ) n (s_core (slot_of s p));
  iv_wf n p : pnodes σ !! n = Some (PUp p) → slot_wf s (slot_of s p);
}.

Record nodes_inv σ : Prop := {
  ni_up n p : pnodes σ !! n = Some (PUp p) →
    node_id p = n ∧ p_quorum_size p = quorum_size (size cluster) ∧ paxos_inv p ∧
    pending_decisions p = [];
  ni_down n st : pnodes σ !! n = Some (PDown st) →
    p_view st = ∅ ∧ ∀ d m, mkPacket n d m ∉ ppackets σ;
  ni_cluster n : is_Some (pnodes σ !! n) → n ∈ cluster;
  ni_sent x d m : mkPacket x d m ∈ ppackets σ → x ∈ cluster ∧ x ≠ d;
  ni_delivered n d : (n, d) ∈ pdelivered σ →
    ∃ p, pnodes σ !! n = Some (PUp p) ∧ decided_slots p !! d_slot d = Some (d_value d);
}.

Lemma elem_of_packets_of (n x d : NodeId) (m : PaxosMessage V) out :
  mkPacket x d m ∈ packets_of cluster n out ↔
  x = n ∧ d ∈ cluster ∧ d ≠ n ∧ ∃ o, o ∈ out ∧ message o = m ∧ (target o = Peer d ∨ target o = Broadcast).
Proof.
  split; [intros (? & ? & ? & o & ? & ? & ?)%packets_of_inv; simpl in *; eauto 10|].
  intros (-> & Hd & Hne & o & Ho & <- & Ht). unfold packets_of.
  apply list_elem_of_In, in_flat_map. exists o. split; [by apply list_elem_of_In|].
  assert (d ∈ cluster ∖ {[ n ]}) as Hin by (apply elem_of_difference; by rewrite elem_of_singleton).
  destruct Ht as [-> | ->].
  - rewrite bool_decide_eq_true_2 by done. by left.
  - apply (in_map (λ d, mkPacket n d (message o))). by apply list_elem_of_In, elem_of_elements.
Qed.

(** The packets of an event on a slot are those of its act. *)
Lemma event_sends s (K : list (Packet (PaxosMessage V))) n out :
  sends cluster s K (K ++ packets_of cluster n out) n (on s out).
Proof.
  intros x d m Hm. rewrite elem_of_app, elem_of_packets_of. unfold from_act, on.
  split; (intros [?|(-> & ? & ? & o & Ho & <- & ?)]; [by left|]); right; (split_and!; [done..|]); exists o.
  - by rewrite list_elem_of_filter.
  - apply list_elem_of_filter in Ho as [_ ?]. done.
Qed.

Lemma one_value_prefix s (K L : list (Packet (PaxosMessage V))) :
  one_value s (K ++ L) → one_value s K.
Proof.
  intros Ho b v w Hv Hw. apply (Ho b); (eapply proposed_mono; [|eassumption]); intros ? ?; set_solver.
Qed.

(** *** One event *)
Section event.
Context (σ : PNet V St) (n : NodeId) (p : PaxosProtocol V St) (e : PEnv) (ev : PEvent V).
Context (p1 p2 : PaxosProtocol V St) (out : list (Outgoing (PaxosMessage V))) (ds : list (Decision V)).
Context (Hn : pnodes σ !! n = Some (PUp p)) (Hen : penabled σ n ev).
Context (Hrun : run_pevent false e ev p = Some (p1, out)) (Hdr : drain_decisions p1 = (p2, Ok ds)).
Context (Hst : starts_above n p p1) (Hvf : votes_first σ n p1 out).
Context (Hni : nodes_inv σ) (Hsi : ∀ s, slot_inv s σ) (Hone : single_valued σ).

Let σ' : PNet V St := {| pnodes := <[n := PUp p2]> (pnodes σ);
  ppackets := ppackets σ ++ packets_of cluster n out;
  pdelivered := pdelivered σ ++ map (pair n) ds; proposals := proposals σ ++ proposed_by ev |}.

Lemma event_drain : ds = pending_decisions p1 ∧ ∃ s', p2 = {| p1 with pending_decisions := []; storage := s' |}.
Proof.
  unfold drain_decisions in Hdr. simpl in Hdr. destruct (save_decisions _ _) as [s' [[]|]]; [|done].
  injection Hdr as <- <-. eauto.
Qed.

Lemma event_node : n ∈ cluster ∧ node_id p = n ∧ p_quorum_size p = quorum_size (size cluster) ∧
  paxos_inv p ∧ pending_decisions p = [].
Proof. split; [apply (ni_cluster _ Hni); eauto|]. by apply (ni_up _ Hni). Qed.

Lemma event_slot s : slot_of s p2 = slot_of s p1.
Proof. destruct event_drain as (_ & s' & ->). done. Qed.

Lemma event_acts s :
  slot_act s n (quorum_size (size cluster)) ev (slot_of s p) (slot_of s p1) (on s out).
Proof.
  destruct event_node as (_ & Hid & Hq & Hinv & _).
  pose proof (run_pevent_acts s e ev p p1 out) as Ha. unfold acts in Ha. rewrite Hid, Hq in Ha.
  apply Ha; try done.
  - intros t. by apply (iv_wf _ _ (Hsi t) n).
  - unfold quorum_size. pose proof (Nat.div_le_mono 2 (size cluster) 2 ltac:(lia) Htwo).
    change (2 / 2) with 1 in *. lia.
Qed.

Lemma event_keep s v : decided_slots p !! s = Some v → decided_slots p2 !! s = Some v.
Proof.
  destruct event_node as (_ & _ & _ & Hinv & _), event_drain as (_ & s' & ->). simpl.
  destruct (moves_decided _ _ (run_pevent_moves _ _ _ _ _ _ Hinv Hrun)) as (ds' & Hm).
  apply (dm_keep _ _ _ Hm).
Qed.

Lemma event_result s :
  act_result cluster s (ppackets σ) (ppackets σ') n (on s out) (slot_of s p) (slot_of s p1).
Proof.
  destruct event_node as (Hcl & _). pose proof (Hsi s) as [S1 S2 S3 S4 S5 S6].
  apply (act_keeps cluster s (ppackets σ) (ppackets σ') n (on s out)) with ev; try done.
  - intros ? ?. simpl. set_solver.
  - apply event_sends.
  - intros b [d Hd]. by apply (ni_sent _ Hni) in Hd as [? _].
  - intros x m Hx. by apply (ni_sent _ Hni) in Hx as [_ ?].
  - apply event_acts.
  - intros from msg ->. done.
  - apply (S5 _ _ Hn).
  - intros Hd Hne. by apply (Hst s).
  - intros b v Hin. apply list_elem_of_filter in Hin as [_ Hin].
    destruct (Hvf _ _ _ Hin) as [?|[d Hd]]; [by left|right].
    pose proof (so_accept _ _ _ S1 _ _ _ _ Hd) as ->. by exists d.
Qed.

Lemma event_sub : ppackets σ ⊆ ppackets σ'.
Proof. intros ? ?. simpl. set_solver. Qed.

Lemma event_settled s b v :
  settled cluster s (ppackets σ) b v →
  (∀ c, started s (ppackets σ') c → c.2 = b.2 → started s (ppackets σ) c) →
  settled cluster s (ppackets σ') b v.
Proof.
  intros [(Q & ? & ? & Hv) Hl] Hs. split; [|eauto].
  exists Q. split_and!; [done..|]. intros x Hx.
  apply (voted_mono s _ _ event_sub). by apply Hv.
Qed.

Lemma event_fixed s v : fixed s σ v → fixed s σ' v.
Proof.
  intros (b & Hb & q & Hq & Hd). destruct (event_result s) as (_ & _ & _ & _ & Hnew & _).
  exists b. split.
  - apply event_settled; [done|]. intros c [?|(Hc & Hnone & _)]%Hnew Hcb; [done|].
    rewrite <- Hcb, Hc, Hn in Hq. injection Hq as <-. simpl in Hnone. rewrite Hnone in Hd. by destruct Hd.
  - simpl. destruct (decide_rel (=) b.2 n) as [Hbn|Hne].
    + rewrite Hbn in *. rewrite lookup_insert_eq. exists p2. split; [done|]. rewrite Hn in Hq. injection Hq as <-.
      destruct Hd as [w Hw]. exists w. by apply event_keep.
    + rewrite lookup_insert_ne by done. eauto.
Qed.

Lemma event_decided s v : decided_slots p2 !! s = Some v → fixed s σ' v.
Proof.
  intros Hd. destruct (event_result s) as (_ & _ & _ & Hdec & Hnew & _).
  assert (s_decided (slot_of s p1) = Some v) as Hd1 by (by rewrite <- (event_slot s)).
  destruct (Hdec v Hd1) as [Hold|[(b & Hb & Hset)|[from Hin]]].
  - apply event_fixed. by apply (iv_decided _ _ (Hsi s) n p).
  - exists b. split.
    + apply event_settled; [done|]. intros c [?|(_ & _ & Hnone)]%Hnew _; [done|congruence].
    + rewrite Hb. simpl. rewrite lookup_insert_eq. eauto.
  - apply event_fixed. by eapply (iv_told _ _ (Hsi s)).
Qed.

Lemma event_slot_inv s : slot_inv s σ'.
Proof.
  destruct (event_result s) as (Hs & Hb & Hopen & _ & _ & Htold). pose proof (Hsi s) as [S1 S2 S3 S4 S5 S6].
  split; [done|done|..].
  - intros x d v Hin. apply (event_sends s _ n out) in Hin as [Hin|Hf]; [| |done].
    + by eapply event_fixed, S3.
    + apply event_decided. pose proof Hf as [-> _]. pose proof (Htold _ _ Hf) as Hd.
      by rewrite <- (event_slot s) in Hd.
  - intros m q v Hq Hd. simpl in Hq. destruct (decide_rel (=) m n) as [->|Hne].
    + rewrite lookup_insert_eq in Hq. injection Hq as <-. by apply event_decided.
    + rewrite lookup_insert_ne in Hq by done. eapply event_fixed, S4; eauto.
  - intros m q Hq Hd. simpl in Hq. destruct (decide_rel (=) m n) as [->|Hne].
    + rewrite lookup_insert_eq in Hq. injection Hq as <-. rewrite event_slot. apply Hopen.
      by rewrite <- (event_slot s).
    + rewrite lookup_insert_ne in Hq by done. destruct (S5 _ _ Hq Hd) as [Hbk Hcv].
      split; [by apply (backed_mono cluster s _ _ event_sub)|].
      eapply covers_grow; [|exact Hcv]. intros d msg Hin _ _.
      simpl in Hin. apply elem_of_app in Hin as [?|[-> _]%elem_of_packets_of]; done.
  - intros m q Hq. simpl in Hq. destruct (decide_rel (=) m n) as [->|Hne];
      [|rewrite lookup_insert_ne in Hq by done; eauto].
    rewrite lookup_insert_eq in Hq. injection Hq as <-. rewrite event_slot.
    destruct event_node as (_ & _ & _ & Hinv & _).
    eapply act_wf; [..|apply (S6 _ _ Hn)|apply event_acts].
    + intros from pn acc ->. apply (so_promise _ _ _ S1) in Hen as (_ & _ & _ & [d Hd]).
      by apply (so_prepare _ _ _ S1) in Hd as [_ ?].
    + intros from pn v ->. apply (so_accepted _ _ _ S1) in Hen as (_ & _ & _ & Hp).
      destruct (bo_propose _ _ _ S2 _ _ Hp) as [[d Hd] _].
      by apply (so_prepare _ _ _ S1) in Hd as [_ ?].
    + apply moves_next. by eapply run_pevent_moves.
Qed.

Lemma event_nodes_inv : nodes_inv σ'.
Proof.
  destruct event_node as (Hcl & Hid & Hq & Hinv & Hpend), event_drain as (Hds & s' & Hp2).
  pose proof (run_pevent_moves _ _ _ _ _ _ Hinv Hrun) as Hm.
  destruct (moves_decided _ _ Hm) as (ds' & Hmore). destruct Hni as [N1 N2 N3 N4 N5].
  split; simpl.
  - intros m q Hm'. destruct (decide_rel (=) m n) as [->|Hne];
      [|rewrite lookup_insert_ne in Hm' by done; eauto].
    rewrite lookup_insert_eq in Hm'. injection Hm' as <-. rewrite Hp2. simpl. destruct (moves_same _ _ Hm) as [-> ->].
    split_and!; [done..| |done]. by destruct (moves_inv _ _ Hinv Hm).
  - intros m st Hm'. destruct (decide_rel (=) m n) as [->|Hne]; [by rewrite lookup_insert_eq in Hm'|].
    rewrite lookup_insert_ne in Hm' by done. destruct (N2 _ _ Hm') as [? Hno]. split; [done|].
    intros d msg [Hin|[-> _]%elem_of_packets_of]%elem_of_app; [by eapply Hno|done].
  - intros m Hm'. destruct (decide_rel (=) m n) as [->|Hne]; [done|].
    rewrite lookup_insert_ne in Hm' by done. auto.
  - intros x d msg [Hin|(-> & _ & Hne & _)%elem_of_packets_of]%elem_of_app; [by eapply N4|done].
  - intros m d [Hin|Hin]%elem_of_app.
    + destruct (N5 _ _ Hin) as (q & Hq' & Hd). destruct (decide_rel (=) m n) as [->|Hne].
      * rewrite lookup_insert_eq. exists p2. split; [done|]. rewrite Hn in Hq'. injection Hq' as <-.
        rewrite Hp2. apply (dm_keep _ _ _ Hmore _ _ Hd).
      * rewrite lookup_insert_ne by done. eauto.
    + apply list_elem_of_fmap in Hin as (d' & [= -> ->] & Hd'). rewrite lookup_insert_eq.
      exists p2. split; [done|]. rewrite Hp2. simpl. rewrite Hds, (dm_pending _ _ _ Hmore), Hpend in Hd'.
      by apply (dm_new _ _ _ Hmore).
Qed.
End event.

(** *** Every careful run *)
Definition careful_inv σ : Prop := nodes_inv σ ∧ ∀ s, slot_inv s σ.

(** A node is replaced by one that holds at least as much. *)
Lemma replace_inv σ n p1 :
  n ∈ cluster → careful_inv σ →
  (∀ p, pnodes σ !! n = Some (PUp p) → ∀ s, slot_of s p1 = slot_of s p) →
  node_id p1 = n → p_quorum_size p1 = quorum_size (size cluster) → paxos_inv p1 →
  pending_decisions p1 = [] →
  (∀ s v, decided_slots p1 !! s = Some v → fixed s σ v) →
  (∀ s, slot_wf s (slot_of s p1) ∧ (decided_slots p1 !! s = None →
     backed cluster s (ppackets σ) n (s_core (slot_of s p1)) ∧
     covers s (ppackets σ) n (s_core (slot_of s p1)))) →
  careful_inv {| σ with pnodes := <[n := PUp p1]> (pnodes σ) |}.
Proof.
  intros Hcl [[N1 N2 N3 N4 N5] Hsi] Hsame Hid Hq Hinv Hpd Hdec Hslot.
  assert (∀ p s v, pnodes σ !! n = Some (PUp p) → decided_slots p !! s = Some v →
    decided_slots p1 !! s = Some v) as Hkeep.
  { intros p s v Hp Hd. pose proof (f_equal s_decided (Hsame _ Hp s)) as Heq. simpl in Heq. congruence. }
  assert (∀ m q, pnodes σ !! m = Some (PUp q) →
    ∃ q1, <[n := PUp p1]> (pnodes σ) !! m = Some (PUp q1) ∧
      ∀ s v, decided_slots q !! s = Some v → decided_slots q1 !! s = Some v) as Hup.
  { intros m q Hm. destruct (decide_rel (=) m n) as [->|Hne].
    - rewrite lookup_insert_eq. eauto.
    - rewrite lookup_insert_ne by done. eauto. }
  assert (∀ s v, fixed s σ v → fixed s {| σ with pnodes := <[n := PUp p1]> (pnodes σ) |} v) as Hfix.
  { intros s v (b & Hb & q & Hm & w & Hw). exists b. split; [done|].
    destruct (Hup _ _ Hm) as (q1 & ? & ?). eauto 10. }
  split.
  - split; simpl; [..|done|].
    + intros m q Hm. destruct (decide_rel (=) m n) as [->|Hne]; [|rewrite lookup_insert_ne in Hm by done; eauto].
      rewrite lookup_insert_eq in Hm. injection Hm as <-. done.
    + intros m st Hm. destruct (decide_rel (=) m n) as [->|Hne]; [by rewrite lookup_insert_eq in Hm|].
      rewrite lookup_insert_ne in Hm by done. eauto.
    + intros m Hm. destruct (decide_rel (=) m n) as [->|Hne]; [done|].
      rewrite lookup_insert_ne in Hm by done. auto.
    + intros m d (q & Hm & Hd)%N5. destruct (Hup _ _ Hm) as (q1 & ? & ?). eauto.
  - intros s. destruct (Hsi s) as [S1 S2 S3 S4 S5 S6], (Hslot s) as [Hwf Hopen].
    assert (∀ m q, <[n := PUp p1]> (pnodes σ) !! m = Some (PUp q) →
      m = n ∧ q = p1 ∨ pnodes σ !! m = Some (PUp q)) as Hq1.
    { intros m q Hm. destruct (decide_rel (=) m n) as [->|Hne].
      - rewrite lookup_insert_eq in Hm. injection Hm as <-. auto.
      - rewrite lookup_insert_ne in Hm by done. auto. }
    split; simpl; [done|done|eauto|..].
    + intros m q v [[-> ->]|Hm]%Hq1 Hd; eauto.
    + intros m q [[-> ->]|Hm]%Hq1 Hd; [by apply Hopen|by apply S5].
    + intros m q [[-> ->]|Hm]%Hq1; eauto.
Qed.

(** A node that starts on empty storage knows nothing. *)
Lemma start_fresh n e st p1 :
  recover (new_with_config e n (size cluster) hb st) = Some (p1, Ok tt) → p_view st = ∅ →
  p1 = new_with_config e n (size cluster) hb st.
Proof.
  unfold recover. simpl. intros Hr Hv. destruct (p_load_decisions st) as [l|] eqn:Hl; [|done].
  apply p_load_ok in Hl. rewrite Hv, map_to_list_empty in Hl. apply Permutation_nil_r in Hl as ->.
  simpl in Hr. by injection Hr as <-.
Qed.

Lemma fresh_slot s σ n e (st : St) :
  (∀ d m, mkPacket n d m ∉ ppackets σ) →
  let p1 := new_with_config (V:=V) e n (size cluster) hb st in
  slot_wf s (slot_of s p1) ∧ backed cluster s (ppackets σ) n (s_core (slot_of s p1)) ∧
  covers s (ppackets σ) n (s_core (slot_of s p1)).
Proof.
  intros Hno p1. assert (slot_of s p1 = mkSlot blank None [] 0) as ->.
  { unfold slot_of, get_or_create_instance. simpl. by rewrite !lookup_empty. }
  assert (∀ b, b.2 = n → ¬ started s (ppackets σ) b) as Hs by (intros b <- [d Hd]; by eapply Hno).
  assert (∀ b v, b.2 = n → ¬ proposed s (ppackets σ) b v) as Hp by (intros b v <- [d Hd]; by eapply Hno).
  split_and!; [split; simpl; [done|done|]; intros w Hw; by apply elem_of_nil in Hw|..].
  - split; simpl; try done; try (intros x Hx; by apply not_elem_of_empty in Hx).
    change (size (∅ : gset NodeId) < quorum_size (size cluster)). rewrite size_empty. apply quorum_size_pos.
  - split; simpl.
    + intros b acc Hb. by apply Hno in Hb.
    + intros b v [[Hb Hv]|[_ Hb]]; [by apply Hp in Hv|by apply Hno in Hb].
    + intros b Hb Hn. by apply Hs in Hb.
    + intros v Hv Hn. by apply Hp in Hv.
Qed.

Lemma careful_step_inv σ σ' :
  careful_inv σ → single_valued σ → careful_step cluster hb σ σ' → careful_inv σ'.
Proof.
  intros Hinv Hone Hs. pose proof Hinv as [Hni Hsi].
  destruct Hs as [n p e ev p1 out p2 ds Hn Hen Hr Hd Ha Hv|n p Hn|n st e p1 Hn Hrec].
  - split; [by eapply event_nodes_inv|]. intros s. by eapply event_slot_inv.
  - destruct (ni_up _ Hni _ _ Hn) as (Hid & Hq & [Hi1 Hi2] & Hpd).
    apply replace_inv; try done.
    + apply (ni_cluster _ Hni). eauto.
    + intros q Hq'. rewrite Hn in Hq'. by injection Hq' as <-.
    + intros s v Hd. by apply (iv_decided _ _ (Hsi s) _ _ _ Hn).
    + intros s. split; [by apply (iv_wf _ _ (Hsi s) _ _ Hn)|by apply (iv_open _ _ (Hsi s) _ _ Hn)].
  - destruct (ni_down _ Hni _ _ Hn) as [Hst Hno].
    pose proof (recover_spec _ _ _ _ _ _ Hrec) as (Hpi & _). apply start_fresh in Hrec as ->; [|done].
    assert (n ∈ cluster) as Hcl by (apply (ni_cluster _ Hni); eauto).
    apply replace_inv; [done|done|..|exact Hpi|done| |]; try done.
    + intros q Hq. congruence.
    + intros s. destruct (fresh_slot s σ n e st) as (? & ? & ?); try done.
Qed.

Lemma initial_inv σ0 : pinitial σ0 → dom (pnodes σ0) ⊆ cluster → careful_inv σ0.
Proof.
  intros (Hn & Hp & Hd & _) Hdom.
  assert (∀ n p, pnodes σ0 !! n ≠ Some (PUp p)) as Hup.
  { intros n p Hnp. by destruct (Hn _ _ Hnp) as (? & ? & _). }
  assert (∀ pkt, pkt ∉ ppackets σ0) as Hno by (intros pkt; rewrite Hp; apply not_elem_of_nil).
  split.
  - split.
    + intros n p Hnp. by apply Hup in Hnp.
    + intros n st Hst. destruct (Hn _ _ Hst) as (s & [= ->] & ?). split; [done|]. intros ? ?. apply Hno.
    + intros n Hs. by apply Hdom, elem_of_dom.
    + intros x d m Hin. by apply Hno in Hin.
    + intros n d. rewrite Hd. intros Hin. by apply elem_of_nil in Hin.
  - intros s. assert (∀ b, ¬ started s (ppackets σ0) b) as Hs by (intros b [d Hin]; by apply Hno in Hin).
    assert (∀ b v, ¬ proposed s (ppackets σ0) b v) as Hpr by (intros b v [d Hin]; by apply Hno in Hin).
    assert (∀ x b acc, ¬ promised s (ppackets σ0) x b acc) as Hpm by (intros x b acc Hin; by apply Hno in Hin).
    split.
    + split; intros; exfalso; by eapply Hno.
    + split.
      * intros x b acc c v Hb. by apply Hpm in Hb.
      * intros x b a w Hb. by apply Hpm in Hb.
      * intros b v Hb. by apply Hpr in Hb.
      * intros b c v Hb. by apply Hs in Hb.
    + intros x d v Hin. by apply Hno in Hin.
    + intros n p v Hnp. by apply Hup in Hnp.
    + intros n p Hnp. by apply Hup in Hnp.
    + intros n p Hnp. by apply Hup in Hnp.
Qed.

Lemma careful_packets σ σ' : careful_step cluster hb σ σ' → ∃ L, ppackets σ' = ppackets σ ++ L.
Proof. intros []; simpl; eauto; exists []; by rewrite app_nil_r. Qed.

Lemma careful_run_inv σ0 σ :
  careful_inv σ0 → rtc (careful_step cluster hb) σ0 σ → single_valued σ → careful_inv σ.
Proof.
  intros Hinv0 Hr. revert σ Hr.
  apply (rtc_ind_r (λ σ, single_valued σ → careful_inv σ) σ0); [done|]. intros σ1 σ2 _ Hs IH Hone.
  assert (single_valued σ1) as Hone1.
  { intros s. destruct (careful_packets _ _ Hs) as [L HL]. eapply one_value_prefix. rewrite <- HL. apply Hone. }
  by eapply careful_step_inv; [apply IH| |].
Qed.

(** C8. Agreement of plain Paxos, in a cluster of at least two nodes over a
    network that loses, duplicates, delays and reorders messages, under four
    conditions on the run: every node starts once, on empty storage, and none
    is restarted; a node starts a round in a slot only above what its own
    acceptor has promised there, and not after that acceptor has accepted
    another node's proposal there; a node asks for a value to be accepted only
    if it has accepted it itself under that number or has asked for it before;
    and no proposal number is sent with two values for a slot. Then any two
    decisions delivered for a slot are of the same value. *)
Theorem paxos_agreement σ0 σ n1 n2 s v1 v2 :
  pinitial σ0 → dom (pnodes σ0) ⊆ cluster → rtc (careful_step cluster hb) σ0 σ → single_valued σ →
  (n1, mkDecision s v1) ∈ pdelivered σ → (n2, mkDecision s v2) ∈ pdelivered σ → v1 = v2.
Proof.
  intros Hi Hdom Hr Hone H1 H2.
  destruct (careful_run_inv σ0 σ) as [Hni Hsi]; [by apply initial_inv|done|done|].
  apply (ni_delivered _ Hni) in H1 as (p1 & Hp1 & Hd1), H2 as (p2 & Hp2 & Hd2). simpl in *.
  pose proof (Hsi s) as [S1 S2 _ S4 _ _].
  destruct (S4 _ _ _ Hp1 Hd1) as (b1 & Hb1 & _), (S4 _ _ _ Hp2 Hd2) as (b2 & Hb2 & _).
  eapply settled_agree; eauto.
  intros x b v Hx. by destruct (so_accepted _ _ _ S1 _ _ _ _ Hx) as (_ & _ & _ & ?).
Qed.
End net.
