(* ===== verification/PaxosRuns.v ===== *)
(** * Paxos: concrete runs

    An executable scheduler for the network of [PaxosNet.v] with its
    soundness, and the runs that show where the implementation departs from
    Paxos: agreement fails without any crash. *)

From S2P Require Import Prelude Types Network Storage Paxos PaxosLocal PaxosDecisions.
From S2P Require Import PaxosValues PaxosNet.
Import Paxos.

Inductive PAction (V : Type) :=
| DoPropose (n : NodeId) (v : V)
| DoTick (n : NodeId) (at_ : Instant)
| DoDeliver (k : nat)  (* the k-th packet ever sent *)
| DoRestart (n : NodeId).
Arguments DoPropose {V}. Arguments DoTick {V}. Arguments DoDeliver {V}. Arguments DoRestart {V}.

Section exec.
Context {V St : Type} `{EqDecision V} `{PaxosStorage St V}.
Context (mp : bool) (cluster : gset NodeId) (hb : Duration).
Implicit Types (σ : PNet V St).

(** Proposals, deliveries and restarts happen at time 0 with no jitter. *)
Definition at_time (t : Instant) : PEnv := mkPEnv t (λ _, 0%N).

Definition pexec_event (e : PEnv) (n : NodeId) (ev : PEvent V) (σ : PNet V St)
    : option (PNet V St) :=
  match pnodes σ !! n with
  | Some (PUp p) =>
      '(p1, out) ← run_pevent mp e ev p;
      match drain_decisions p1 with
      | (p2, Ok ds) =>
          Some {| pnodes := <[n := PUp p2]> (pnodes σ);
                  ppackets := ppackets σ ++ packets_of cluster n out;
                  pdelivered := pdelivered σ ++ map (pair n) ds;
                  proposals := proposals σ ++ proposed_by ev |}
      | _ => None
      end
  | _ => None
  end.

Definition pexec1 (a : PAction V) (σ : PNet V St) : option (PNet V St) :=
  match a with
  | DoPropose n v => pexec_event (at_time 0) n (PevPropose v) σ
  | DoTick n t => pexec_event (at_time t) n PevTick σ
  | DoDeliver k =>
      pkt ← ppackets σ !! k;
      pexec_event (at_time 0) (dst pkt) (PevReceive (src pkt) (body pkt)) σ
  | DoRestart n =>
      match pnodes σ !! n with
      | Some (PDown s) =>
          match recover (new_with_config (at_time 0) n (size cluster) hb s) with
          | Some (p1, Ok _) => Some {| σ with pnodes := <[n := PUp p1]> (pnodes σ) |}
          | _ => None
          end
      | _ => None
      end
  end.

Fixpoint pexec (acts : list (PAction V)) (σ : PNet V St) : option (PNet V St) :=
  match acts with
  | [] => Some σ
  | a :: acts => σ' ← pexec1 a σ; pexec acts σ'
  end.

Lemma pexec_event_sound e n ev σ σ' :
  penabled σ n ev → pexec_event e n ev σ = Some σ' → pstep mp cluster hb σ σ'.
Proof.
  intros Hen. unfold pexec_event. destruct (pnodes σ !! n) as [[p|]|] eqn:Hn; [|done..].
  destruct (run_pevent _ _ _ _) as [[p1 out]|] eqn:Hr; [|done]. simpl.
  destruct (drain_decisions p1) as [p2 [ds|]] eqn:Hd; [|done].
  intros [= <-]. by eapply pstep_event.
Qed.

Lemma pexec1_sound a σ σ' : pexec1 a σ = Some σ' → pstep mp cluster hb σ σ'.
Proof.
  destruct a as [n v|n t|k|n]; simpl; intros Hx.
  - by apply (pexec_event_sound (at_time 0) n (PevPropose v)).
  - by apply (pexec_event_sound (at_time t) n PevTick).
  - destruct (ppackets σ !! k) as [[s d b]|] eqn:Hk; [|done]. simpl in Hx.
    eapply pexec_event_sound; [|done]. simpl. by eapply list_elem_of_lookup_2.
  - destruct (pnodes σ !! n) as [[|s]|] eqn:Hn; simplify_eq/=.
    destruct (recover _) as [[p1 [[]|]]|] eqn:Hp1; simplify_eq/=. by eapply pstep_restart.
Qed.

Lemma pexec_sound acts σ σ' : pexec acts σ = Some σ' → rtc (pstep mp cluster hb) σ σ'.
Proof.
  revert σ. induction acts as [|a acts IH]; simpl; intros σ Hx; [by simplify_eq|].
  destruct (pexec1 a σ) as [σ1|] eqn:E; [|done]. simpl in Hx.
  eapply rtc_l; [by eapply pexec1_sound|by apply IH].
Qed.

Lemma pexec_app acts more σ : pexec (acts ++ more) σ = σ1 ← pexec acts σ; pexec more σ1.
Proof.
  revert σ. induction acts as [|a acts IH]; simpl; intros σ; [done|].
  destruct (pexec1 a σ); simpl; auto.
Qed.
End exec.

(** ** Runs without crashes *)
Section crash_free.
Context {V St : Type} `{EqDecision V} `{PaxosStorageSpec St V}.
Context (mp : bool) (cluster : gset NodeId) (hb : Duration).
Implicit Types (σ : PNet V St).

(** Node [n] handles event [ev], with all that follows in its loop. *)
Definition handles (n : NodeId) (ev : PEvent V) σ σ' : Prop :=
  ∃ p e p1 out p2 ds, pnodes σ !! n = Some (PUp p) ∧ penabled σ n ev ∧
    run_pevent mp e ev p = Some (p1, out) ∧ drain_decisions p1 = (p2, Ok ds) ∧
    σ' = {| pnodes := <[n := PUp p2]> (pnodes σ);
            ppackets := ppackets σ ++ packets_of cluster n out;
            pdelivered := pdelivered σ ++ map (pair n) ds;
            proposals := proposals σ ++ proposed_by ev |}.

(** A stopped node is started. *)
Definition starts (n : NodeId) σ σ' : Prop :=
  ∃ s e p1, pnodes σ !! n = Some (PDown s) ∧
    recover (new_with_config e n (size cluster) hb s) = Some (p1, Ok tt) ∧
    σ' = {| σ with pnodes := <[n := PUp p1]> (pnodes σ) |}.

Definition goes_on σ σ' : Prop := rtc (λ σ σ', ∃ n ev, handles n ev σ σ') σ σ'.

(** A run without crashes: nodes that were never up are started on empty
    storage, then there are only events. *)
Definition crash_free σ : Prop :=
  ∃ σi σ0, pinitial σi ∧ rtc (λ σ σ', ∃ n, starts n σ σ') σi σ0 ∧ goes_on σ0 σ.

Lemma goes_on_steps σ σ' : goes_on σ σ' → rtc (pstep mp cluster hb) σ σ'.
Proof.
  induction 1 as [|σ1 σ2 σ3 (n & ev & p & e & p1 & out & p2 & ds & ? & ? & ? & ? & ->) _ IH];
    [done|]. eapply rtc_l; [by eapply pstep_event|done].
Qed.

Lemma crash_free_reachable σ : crash_free σ → preachable mp cluster hb σ.
Proof.
  intros (σi & σ0 & Hi & Hst & Hgo). exists σi. split; [done|].
  transitivity σ0; [|by apply goes_on_steps]. clear Hi Hgo.
  induction Hst as [|σ1 σ2 σ3 (n & s & e & p1 & ? & ? & ->) _ IH]; [done|].
  eapply rtc_l; [by eapply pstep_restart|done].
Qed.

(** *** The scheduler makes them *)
Lemma pexec_event_handles e n ev σ σ' :
  penabled σ n ev → pexec_event mp cluster e n ev σ = Some σ' → handles n ev σ σ'.
Proof.
  intros Hen. unfold pexec_event. destruct (pnodes σ !! n) as [[p|]|] eqn:Hn; [|done..].
  destruct (run_pevent _ _ _ _) as [[p1 out]|] eqn:Hr; [|done]. simpl.
  destruct (drain_decisions p1) as [p2 [ds|]] eqn:Hd; [|done].
  intros [= <-]. by eexists _, _, _, _, _, _.
Qed.

Lemma pexec1_deliver k pkt σ σ' :
  ppackets σ !! k = Some pkt → pexec1 mp cluster hb (DoDeliver k) σ = Some σ' →
  handles (dst pkt) (PevReceive (src pkt) (body pkt)) σ σ'.
Proof.
  intros Hk. simpl. rewrite Hk. simpl. apply pexec_event_handles. simpl.
  destruct pkt. by eapply list_elem_of_lookup_2.
Qed.

Lemma pexec1_propose n v σ σ' :
  pexec1 mp cluster hb (DoPropose n v) σ = Some σ' → handles n (PevPropose v) σ σ'.
Proof. by apply pexec_event_handles. Qed.

Definition is_event (a : PAction V) : bool :=
  match a with DoRestart _ => false | _ => true end.

Lemma pexec_goes_on acts σ σ' :
  forallb is_event acts = true → pexec mp cluster hb acts σ = Some σ' → goes_on σ σ'.
Proof.
  revert σ. induction acts as [|a acts IH]; cbn [forallb pexec]; intros σ Hl Hx.
  { injection Hx as ->. apply rtc_refl. }
  apply andb_true_iff in Hl as [Ha Hl].
  destruct (pexec1 mp cluster hb a σ) as [σ1|] eqn:E; [|done]. cbn [mbind option_bind] in Hx.
  eapply rtc_l; [|by apply IH]. destruct a as [n v|n t|k|n]; [| | |done].
  - eexists _, _. by eapply pexec1_propose.
  - eexists _, _. eapply (pexec_event_handles (at_time t) n PevTick); done.
  - destruct (ppackets σ !! k) as [pkt|] eqn:Hk; [|simpl in E; by rewrite Hk in E].
    eexists _, _. by eapply pexec1_deliver.
Qed.

Lemma pexec_starts ns σ σ' :
  pexec mp cluster hb (map DoRestart ns) σ = Some σ' →
  rtc (λ σ σ', ∃ n, starts n σ σ') σ σ'.
Proof.
  revert σ. induction ns as [|n ns IH]; cbn [map pexec]; intros σ Hx.
  { injection Hx as ->. apply rtc_refl. }
  destruct (pexec1 mp cluster hb (DoRestart n) σ) as [σ1|] eqn:E; [|done].
  cbn [mbind option_bind] in Hx. eapply rtc_l; [|by apply IH]. exists n. simpl in E.
  destruct (pnodes σ !! n) as [[|s]|] eqn:Hn; simplify_eq/=.
  destruct (recover _) as [[p1 [[]|]]|] eqn:Hp1; simplify_eq/=. by eexists _, _, _.
Qed.
End crash_free.

(** ** Clusters over in-memory storage *)
Module Clusters.
Definition a := mkNodeId "a" 1.
Definition b := mkNodeId "b" 1.
Definition c := mkNodeId "c" 1.
Definition d := mkNodeId "d" 1.
Definition z := mkNodeId "z" 1.
Definition three := [a; b; c].
Definition five := [a; b; c; d; z].
Definition hb : Duration := from_millis 100.

Definition pstart (ns : list NodeId) : PNet N (PaxosMemoryStorage N) := {|
  pnodes := list_to_map (map (λ n, (n, PDown PaxosMemoryStorage_new)) ns);
  ppackets := []; pdelivered := []; proposals := [] |}.

Lemma pstart_initial ns : pinitial (pstart ns).
Proof.
  split_and!; try done. intros n st Hst.
  apply elem_of_list_to_map_2, list_elem_of_fmap in Hst as (m & [= -> ->] & _). eauto.
Qed.

Definition prun (mp : bool) (ns : list NodeId) (acts : list (PAction N)) :=
  pexec mp (list_to_set ns) hb (map DoRestart ns ++ acts) (pstart ns).
Definition pstate (mp : bool) (ns : list NodeId) (acts : list (PAction N)) :=
  default (pstart ns) (prun mp ns acts).

Lemma pstate_reachable mp ns acts :
  is_some (prun mp ns acts) = true →
  preachable mp (list_to_set ns) hb (pstate mp ns acts).
Proof.
  unfold pstate. destruct (prun mp ns acts) eqn:Hr; [|done]. intros _.
  exists (pstart ns). split; [apply pstart_initial|by eapply pexec_sound].
Qed.

(** The run with more actions after it. *)
Lemma pstate_app mp ns acts more :
  is_some (prun mp ns (acts ++ more)) = true →
  pexec mp (list_to_set ns) hb more (pstate mp ns acts) = Some (pstate mp ns (acts ++ more)).
Proof.
  unfold pstate, prun. rewrite app_assoc, pexec_app.
  destruct (pexec _ _ _ (_ ++ acts) _) as [σ|]; [|done]. simpl.
  by destruct (pexec _ _ _ more σ).
Qed.

Lemma pstate_goes_on mp ns acts more :
  is_some (prun mp ns (acts ++ more)) = true → forallb is_event more = true →
  goes_on mp (list_to_set ns) (pstate mp ns acts) (pstate mp ns (acts ++ more)).
Proof. intros Hr Hl. eapply pexec_goes_on; [exact Hl|]. by apply pstate_app. Qed.

Lemma pstate_crash_free mp ns acts :
  is_some (prun mp ns acts) = true → forallb is_event acts = true →
  crash_free mp (list_to_set ns) hb (pstate mp ns acts).
Proof.
  unfold pstate, prun. rewrite pexec_app. intros Hr Hl.
  destruct (pexec _ _ _ (map DoRestart ns) _) as [σ0|] eqn:H0; [|done]. simpl in Hr |- *.
  exists (pstart ns), σ0. split; [apply pstart_initial|]. split; [by eapply pexec_starts|].
  destruct (pexec _ _ _ acts σ0) as [σ|] eqn:H1; [|done]. by eapply pexec_goes_on.
Qed.

Lemma pstate_delivers mp ns acts k pkt :
  is_some (prun mp ns (acts ++ [DoDeliver k])) = true →
  ppackets (pstate mp ns acts) !! k = Some pkt →
  handles mp (list_to_set ns) (dst pkt) (PevReceive (src pkt) (body pkt))
    (pstate mp ns acts) (pstate mp ns (acts ++ [DoDeliver k])).
Proof.
  intros Hr Hk. apply (pexec1_deliver mp _ hb k); [done|].
  apply pstate_app in Hr. cbn [pexec] in Hr. by destruct (pexec1 _ _ _ _ _).
Qed.

Lemma pstate_proposes mp ns acts n v :
  is_some (prun mp ns (acts ++ [DoPropose n v])) = true →
  handles mp (list_to_set ns) n (PevPropose v)
    (pstate mp ns acts) (pstate mp ns (acts ++ [DoPropose n v])).
Proof.
  intros Hr. apply (pexec1_propose mp _ hb).
  apply pstate_app in Hr. cbn [pexec] in Hr. by destruct (pexec1 _ _ _ _ _).
Qed.
End Clusters.

(** ** Where agreement fails *)
Module Disagreement.
Import Clusters.

(** [a] decides 1 in slot 0 with [b]. [b], which has accepted 1 but not heard
    of the decision, proposes 2 in the same slot; [c] has accepted nothing
    and [b] does not count what it has accepted itself. *)
Definition before_promise : list (PAction N) :=
  [DoPropose a 1%N] ++ map DoDeliver [1; 2; 4; 5] ++ [DoPropose b 2%N; DoDeliver 8].
Definition after_promise : list (PAction N) := before_promise ++ [DoDeliver 10].
Definition own_accept_ignored : list (PAction N) := after_promise ++ map DoDeliver [11; 13].

(** [z] starts phase 2 with its own value 2 on the promises of [b] and [c];
    the promise of [d], which reports 1, makes it start phase 2 again with 1
    under the same number. [b] and [c] accept 2, [z] counts their answers and
    decides 1; [a] retries, learns 2 from [b] and [c] and decides 2. *)
Definition late_promise : list (PAction N) :=
  [DoPropose a 1%N; DoPropose z 2%N] ++
  map DoDeliver [2; 3; 8; 9; 13; 4; 6; 7; 15; 16; 17; 18; 20; 26; 27] ++
  [DoTick a (from_secs 1)] ++ map DoDeliver [32; 34; 36; 37; 38; 40; 42; 43].

(** [a] accepts its own value 1 in its first round. In its second round it
    learns 2 from [z], but has promised (3, c) by the time it has a quorum and
    does not accept 2 itself; [b], [d] and [z] do, and [a] decides what its
    acceptor holds, 1. [c] learns 2 from [b] and [z] and decides it. *)
Definition stale_vote : list (PAction N) :=
  [DoPropose a 1%N] ++ map DoDeliver [2; 0; 4; 5] ++ [DoPropose d 2%N] ++
  map DoDeliver [12; 13; 14; 15; 18] ++ [DoTick a (from_secs 1)] ++ map DoDeliver [23; 22; 25] ++
  [DoPropose c 3%N] ++ map DoDeliver [27; 31] ++ [DoTick c (from_secs 1)] ++
  map DoDeliver [32; 26; 38; 39; 40; 41; 42; 43; 33; 34; 48; 49; 51; 52; 54; 55].

(** The leader [z] decides 1 in slot 1 with [b] and [c], and [b] hears of it.
    [a] is elected leader by [b] and [d]: [b] has decided the slot and reports
    nothing for it, and [a] uses slot 1 for 6, which [c] and [d] accept. *)
Definition slot_decided : list (PAction N) :=
  [DoPropose z 9%N; DoTick z (from_millis 600)] ++ map DoDeliver [8; 10; 12; 13] ++
  [DoPropose z 1%N] ++ map DoDeliver [14; 16; 18; 19; 22] ++
  [DoTick z (from_millis 601); DoDeliver 29; DoTick a (from_millis 700)].
Definition not_reported : list (PAction N) := slot_decided ++ [DoDeliver 34].
Definition elected : list (PAction N) :=
  not_reported ++ map DoDeliver [35; 36; 37] ++ [DoPropose a 5%N].
Definition slot_reused : list (PAction N) := elected ++ [DoPropose a 6%N].
Definition decided_not_reported : list (PAction N) :=
  slot_reused ++ map DoDeliver [42; 45; 46; 47].

(** [a] promises (1, c) before it has its quorum and does not accept its own
    value; then [b], [d] and [z] accept it. *)
Definition before_unwrap : list (PAction N) :=
  [DoPropose a 1%N; DoPropose c 2%N] ++ map DoDeliver [2; 3; 4; 8; 9; 12; 13; 14; 15; 16].

Lemma in_delivered (l : list (NodeId * Decision N)) n s v :
  bool_decide ((name n, incarnation n, s, v) ∈
    map (λ nd, (name nd.1, incarnation nd.1, d_slot nd.2, d_value nd.2)) l) = true →
  (n, mkDecision s v) ∈ l.
Proof.
  intros Hb%bool_decide_eq_true. apply list_elem_of_fmap in Hb as ([[] []] & Heq & Hin).
  destruct n. simpl in Heq. by simplify_eq.
Qed.

(** What a running node holds. *)
Lemma up_with {A} (st : option (PStatus N (PaxosMemoryStorage N)))
    (f : PaxosProtocol N (PaxosMemoryStorage N) → A) x :
  (match st with Some (PUp p) => Some (f p) | _ => None end) = Some x →
  ∃ p, st = Some (PUp p) ∧ f p = x.
Proof. destruct st as [[p|]|]; [|done..]. intros [= <-]. eauto. Qed.

(** C39. Agreement fails in plain Paxos because a proposer leaves what its own
    acceptor has accepted out of its promises. Three nodes run without a
    crash. [a] has decided 1 in slot 0, and [b], which accepted it, runs its
    own proposal of 2 there: it counts its own promise and has taken no
    accepted value from it. On the promise of [c], which has accepted nothing,
    it has a quorum and asks for 2 to be accepted; events that follow make it
    decide 2 in the slot, still without a crash. *)
Theorem paxos_own_accept_breaks_agreement :
  ∃ σ1 σ2 σ3 p i,
    crash_free false (list_to_set three) hb σ1 ∧ (a, mkDecision 0 1%N) ∈ pdelivered σ1 ∧
    pnodes σ1 !! b = Some (PUp p) ∧ instances p !! 0%N = Some i ∧
    proposal_number i = (1%N, b) ∧ b ∈ promises_received i ∧
    accepted i = Some (1%N, a, 1%N) ∧ highest_accepted i = None ∧
    handles false (list_to_set three) b (PevReceive c (Promise 0 (1%N, b) None)) σ1 σ2 ∧
    ppackets σ2 = ppackets σ1 ++
      [mkPacket b c (Accept 0 (1%N, b) 2%N); mkPacket b a (Accept 0 (1%N, b) 2%N)] ∧
    goes_on false (list_to_set three) σ2 σ3 ∧ (b, mkDecision 0 2%N) ∈ pdelivered σ3.
Proof.
  destruct (up_with (pnodes (pstate false three before_promise) !! b)
    (λ p, (λ i, (proposal_number i, bool_decide (b ∈ promises_received i), accepted i,
             highest_accepted i)) <$> instances p !! 0%N)
    (Some (1%N, b, true, Some (1%N, a, 1%N), None))) as (p & Hp & Hi); [vm_compute; reflexivity|].
  destruct (instances p !! 0%N) as [i|] eqn:Hpi; [|done]. injection Hi as H1 H2 H3 H4.
  exists (pstate false three before_promise), (pstate false three after_promise),
    (pstate false three own_accept_ignored), p, i.
  split_and!; [apply pstate_crash_free; vm_compute; reflexivity
    |apply in_delivered; vm_compute; reflexivity|done|done|done|by apply bool_decide_eq_true in H2
    |done|done| |vm_compute; reflexivity| |apply in_delivered; vm_compute; reflexivity].
  - apply (pstate_delivers false three before_promise 10
      (mkPacket c b (Promise 0 (1%N, b) None))); vm_compute; reflexivity.
  - apply pstate_goes_on; vm_compute; reflexivity.
Qed.

(** Agreement fails in plain Paxos without crashes for a second reason: in
    [late_promise] a promise that arrives after the quorum starts phase 2 again, with another value under
    the same number. *)
Theorem paxos_late_promise_breaks_agreement :
  ∃ σ, crash_free false (list_to_set five) hb σ ∧
    (z, mkDecision 0 1%N) ∈ pdelivered σ ∧ (a, mkDecision 0 2%N) ∈ pdelivered σ.
Proof.
  exists (pstate false five late_promise). split_and!;
    [apply pstate_crash_free|apply in_delivered..]; vm_compute; reflexivity.
Qed.

(** Agreement fails in plain Paxos without crashes for a third reason: in
    [stale_vote], on a quorum of Accepted messages, a proposer decides what its own acceptor holds, which can be the
    value of an earlier round. *)
Theorem paxos_stale_vote_breaks_agreement :
  ∃ σ, crash_free false (list_to_set five) hb σ ∧
    (a, mkDecision 0 1%N) ∈ pdelivered σ ∧ (c, mkDecision 0 2%N) ∈ pdelivered σ.
Proof.
  exists (pstate false five stale_vote). split_and!;
    [apply pstate_crash_free|apply in_delivered..]; vm_compute; reflexivity.
Qed.

(** C40. Agreement fails in Multi-Paxos because a decided slot is not
    reported to a new leader. Five nodes run without a crash. [z] has
    delivered 1 for slot 1 and [b] holds that decision; [b] handles the
    PrepareLeader of [a], which asks for the slots from 0 on, and its promise
    lists nothing. [a] is then leader under that number with slot 1 as its
    next slot, and when 6 is proposed it asks at once, on the fast path, for 6
    to be accepted in slot 1; events that follow make it deliver 6 for slot 1,
    still without a crash. *)
Theorem multi_paxos_decided_slot_reused :
  ∃ σ1 σ2 σ3 σ4 σ5 q p,
    crash_free true (list_to_set five) hb σ1 ∧ (z, mkDecision 1 1%N) ∈ pdelivered σ1 ∧
    pnodes σ1 !! b = Some (PUp q) ∧ decided_slots q !! 1%N = Some 1%N ∧
    handles true (list_to_set five) b (PevReceive a (PrepareLeader (2%N, a) 0)) σ1 σ2 ∧
    ppackets σ2 = ppackets σ1 ++ [mkPacket b a (PromiseLeader (2%N, a) [])] ∧
    goes_on true (list_to_set five) σ2 σ3 ∧
    pnodes σ3 !! a = Some (PUp p) ∧ leader_state p = LLeader 2 ∧ next_slot p = 1%N ∧
    handles true (list_to_set five) a (PevPropose 6%N) σ3 σ4 ∧
    ppackets σ4 = ppackets σ3 ++
      map (λ n, mkPacket a n (Accept 1 (2%N, a) 6%N)) [c; z; b; d] ∧
    goes_on true (list_to_set five) σ4 σ5 ∧ (a, mkDecision 1 6%N) ∈ pdelivered σ5.
Proof.
  destruct (up_with (pnodes (pstate true five slot_decided) !! b)
    (λ p, decided_slots p !! 1%N) (Some 1%N)) as (q & Hq & Hqd); [vm_compute; reflexivity|].
  destruct (up_with (pnodes (pstate true five elected) !! a)
    (λ p, (leader_state p, next_slot p)) (LLeader 2, 1%N)) as (p & Hp & [= Hpl Hpn]);
    [vm_compute; reflexivity|].
  exists (pstate true five slot_decided), (pstate true five not_reported),
    (pstate true five elected), (pstate true five slot_reused),
    (pstate true five decided_not_reported), q, p.
  split_and!; [apply pstate_crash_free; vm_compute; reflexivity
    |apply in_delivered; vm_compute; reflexivity|done|done| |vm_compute; reflexivity|
    |done|done|done| |vm_compute; reflexivity| |apply in_delivered; vm_compute; reflexivity].
  - apply (pstate_delivers true five slot_decided 34
      (mkPacket a b (PrepareLeader (2%N, a) 0))); vm_compute; reflexivity.
  - apply pstate_goes_on; vm_compute; reflexivity.
  - apply pstate_proposes; vm_compute; reflexivity.
  - apply pstate_goes_on; vm_compute; reflexivity.
Qed.

(** A panic is reachable: a proposer whose acceptor has promised a higher
    number before phase 2 has accepted nothing itself when a quorum of
    Accepted messages arrives, and unwraps its own accepted value. *)
Theorem paxos_accepted_can_panic :
  ∃ σ p, preachable false (list_to_set five) hb σ ∧ pnodes σ !! a = Some (PUp p) ∧
    penabled σ a (PevReceive d (Accepted 0 (1%N, a) 1%N)) ∧
    run_pevent false (at_time 0) (PevReceive d (Accepted 0 (1%N, a) 1%N)) p = None.
Proof.
  set (σ := pstate false five before_unwrap).
  assert (match pnodes σ !! a with
          | Some (PUp p) => negb (is_some (run_pevent false (at_time 0)
                              (PevReceive d (Accepted 0 (1%N, a) 1%N)) p))
          | _ => false end = true) as Hp by (vm_compute; reflexivity).
  destruct (pnodes σ !! a) as [[p|]|] eqn:Hn; [|done..].
  exists σ, p. split_and!; [apply pstate_reachable; vm_compute; reflexivity|done| |].
  - simpl. apply (list_elem_of_lookup_2 _ 17). vm_compute. reflexivity.
  - by destruct (run_pevent _ _ _ p).
Qed.

(** [a] decides 1 in slot 0 with [b]. *)
Definition decide_one : list (PAction N) :=
  [DoPropose a 1%N] ++ map DoDeliver [1; 2; 4; 5].

Lemma paxos_validity_witness : ∃ w, w ∈ proposals (pstate false three decide_one) ∧ id 1%N = id w.
Proof.
  refine (paxos_validity false (list_to_set three) hb id _ (pstate false three decide_one)
    a (mkDecision 0 1%N) _ _); [intros v; reflexivity|..].
  - apply pstate_reachable. vm_compute. reflexivity.
  - apply in_delivered. vm_compute. reflexivity.
Defined.
End Disagreement.
