(* ===== verification/PaxosCarefulRuns.v ===== *)
(** * Paxos: careful runs

    An executable scheduler for the careful steps of [PaxosAgreement.v], sound
    for them, and a run of three nodes with two competing proposers. *)

From S2P Require Import Prelude Types Network Storage Paxos PaxosLocal PaxosDecisions.
From S2P Require Import PaxosNet PaxosRuns PaxosBallots PaxosAgreement.
Import Paxos.

Section exec.
Context {V St : Type} `{EqDecision V} `{PaxosStorage St V}.
Context (cluster : gset NodeId) (hb : Duration).
Implicit Types (σ : PNet V St) (p : PaxosProtocol V St).

(** The conditions of a careful step, over the slots either state mentions. *)
Definition starts_aboveb (n : NodeId) p p1 : bool :=
  forallb (λ s,
    let i := get_or_create_instance p s in
    let i1 := get_or_create_instance p1 s in
    bool_decide (is_Some (decided_slots p1 !! s)) ||
    bool_decide (proposal_number i1 = proposal_number i) ||
    is_none_or (highest_promised i) (λ hp, pn_ltb hp (proposal_number i1)) &&
    is_none_or (accepted i) (λ a, bool_decide (a.1.2 = n)))
  (elements (dom (instances p) ∪ dom (instances p1))).

Definition is_accept (n : NodeId) (s : N) (b : ProposalNumber) (v : V)
    (pkt : Packet (PaxosMessage V)) : bool :=
  match body pkt with
  | Accept t c w => bool_decide (src pkt = n ∧ t = s ∧ c = b ∧ w = v)
  | _ => false
  end.

Definition votes_firstb σ (n : NodeId) p1 (out : list (Outgoing (PaxosMessage V))) : bool :=
  forallb (λ o,
    match message o with
    | Accept s b v => bool_decide (accepted (get_or_create_instance p1 s) = Some (b, v)) ||
        existsb (is_accept n s b v) (ppackets σ)
    | _ => true
    end) out.

Definition single_valuedb σ : bool :=
  forallb (λ pkt : Packet (PaxosMessage V),
    match body pkt with
    | Accept s b v => forallb (λ pkt' : Packet (PaxosMessage V),
        match body pkt' with
        | Accept s' b' v' => negb (bool_decide (s' = s ∧ b' = b)) || bool_decide (v' = v)
        | _ => true
        end) (ppackets σ)
    | _ => true
    end) (ppackets σ).

Lemma starts_aboveb_sound n p p1 : starts_aboveb n p p1 = true → starts_above n p p1.
Proof.
  unfold starts_aboveb. rewrite forallb_forall. intros Hb s Hd i i1 Hne.
  destruct (decide_rel elem_of s (dom (instances p) ∪ dom (instances p1))) as [Hin|Hin].
  - apply elem_of_elements, list_elem_of_In, Hb in Hin. fold i i1 in Hin.
    rewrite (bool_decide_eq_false_2 (is_Some _)) in Hin by (rewrite Hd; by intros []).
    rewrite (bool_decide_eq_false_2 (proposal_number i1 = _)) in Hin by done. simpl in Hin.
    apply andb_true_iff in Hin as [H1 H2]. split.
    + intros hp Hhp. rewrite Hhp in H1. by apply pn_ltb_lt.
    + intros a w Ha. rewrite Ha in H2. by apply bool_decide_eq_true in H2.
  - apply not_elem_of_union in Hin as [H1%not_elem_of_dom H2%not_elem_of_dom].
    subst i i1. unfold get_or_create_instance in Hne. by rewrite H1, H2 in Hne.
Qed.

Lemma votes_firstb_sound σ n p1 out : votes_firstb σ n p1 out = true → votes_first σ n p1 out.
Proof.
  unfold votes_firstb. rewrite forallb_forall. intros Hb s b v Hin%list_elem_of_In%Hb. simpl in Hin.
  apply orb_true_iff in Hin as [Hv%bool_decide_eq_true|Hv]; [by left|right].
  apply existsb_exists in Hv as ([x d m] & Hx%list_elem_of_In & Hm). unfold is_accept in Hm. simpl in Hm.
  destruct m; try done. apply bool_decide_eq_true in Hm as (-> & -> & -> & ->). eauto.
Qed.

Lemma single_valuedb_sound σ : single_valuedb σ = true → single_valued σ.
Proof.
  unfold single_valuedb. rewrite forallb_forall. intros Hb s b v w [d Hv%list_elem_of_In%Hb] [d' Hw].
  simpl in Hv. rewrite forallb_forall in Hv. apply list_elem_of_In, Hv in Hw. simpl in Hw.
  rewrite (bool_decide_eq_true_2 (s = s ∧ b = b)) in Hw by done. simpl in Hw.
  by apply bool_decide_eq_true in Hw.
Qed.

Definition cexec_event (e : PEnv) (n : NodeId) (ev : PEvent V) σ : option (PNet V St) :=
  match pnodes σ !! n with
  | Some (PUp p) =>
      '(p1, out) ← run_pevent false e ev p;
      if starts_aboveb n p p1 && votes_firstb σ n p1 out then
        match drain_decisions p1 with
        | (p2, Ok ds) =>
            Some {| pnodes := <[n := PUp p2]> (pnodes σ);
                    ppackets := ppackets σ ++ packets_of cluster n out;
                    pdelivered := pdelivered σ ++ map (pair n) ds;
                    proposals := proposals σ ++ proposed_by ev |}
        | _ => None
        end
      else None
  | _ => None
  end.

Definition cexec1 (a : PAction V) σ : option (PNet V St) :=
  match a with
  | DoPropose n v => cexec_event (at_time 0) n (PevPropose v) σ
  | DoTick n t => cexec_event (at_time t) n PevTick σ
  | DoDeliver k =>
      pkt ← ppackets σ !! k;
      cexec_event (at_time 0) (dst pkt) (PevReceive (src pkt) (body pkt)) σ
  | DoRestart n =>
      match pnodes σ !! n with
      | Some (PDown s) =>
          match recover (new_with_config (at_time 0) n (size cluster) hb s) with
          | Some (p1, Ok _) => Some {| σ with pnodes := <[n := PUp p1]> (pnodes σ) |}
          | _ => None
          end
      | _ => None
      end
  end.

Fixpoint cexec (acts : list (PAction V)) σ : option (PNet V St) :=
  match acts with
  | [] => Some σ
  | a :: acts => σ' ← cexec1 a σ; cexec acts σ'
  end.

Lemma cexec_event_sound e n ev σ σ' :
  penabled σ n ev → cexec_event e n ev σ = Some σ' → careful_step cluster hb σ σ'.
Proof.
  intros Hen. unfold cexec_event. destruct (pnodes σ !! n) as [[p|]|] eqn:Hn; [|done..].
  destruct (run_pevent _ _ _ _) as [[p1 out]|] eqn:Hr; [|done]. simpl.
  destruct (_ && _) eqn:Hb; [|done]. apply andb_true_iff in Hb as [H1 H2].
  destruct (drain_decisions p1) as [p2 [ds|]] eqn:Hd; [|done].
  intros [= <-]. eapply careful_event; eauto using starts_aboveb_sound, votes_firstb_sound.
Qed.

Lemma cexec1_sound a σ σ' : cexec1 a σ = Some σ' → careful_step cluster hb σ σ'.
Proof.
  destruct a as [n v|n t|k|n]; simpl; intros Hx.
  - by apply (cexec_event_sound (at_time 0) n (PevPropose v)).
  - by apply (cexec_event_sound (at_time t) n PevTick).
  - destruct (ppackets σ !! k) as [[s d b]|] eqn:Hk; [|done]. simpl in Hx.
    eapply cexec_event_sound; [|done]. simpl. by eapply list_elem_of_lookup_2.
  - destruct (pnodes σ !! n) as [[|s]|] eqn:Hn; simplify_eq/=.
    destruct (recover _) as [[p1 [[]|]]|] eqn:Hp1; simplify_eq/=. by eapply careful_start.
Qed.

Lemma cexec_sound acts σ σ' : cexec acts σ = Some σ' → rtc (careful_step cluster hb) σ σ'.
Proof.
  revert σ. induction acts as [|a acts IH]; simpl; intros σ Hx; [by simplify_eq|].
  destruct (cexec1 a σ) as [σ1|] eqn:E; [|done]. simpl in Hx.
  eapply rtc_l; [by eapply cexec1_sound|by apply IH].
Qed.
End exec.

Module CarefulRun.
Import Clusters Disagreement.

(** [a] decides 1 with [b]; [c], which has heard nothing, proposes 2 in the
    same slot, learns 1 from [b] and decides it. *)
Definition competing : list (PAction N) :=
  [DoPropose a 1%N] ++ map DoDeliver [1; 2; 4; 5] ++ [DoPropose c 2%N] ++
  map DoDeliver [9; 10; 12; 13].

Definition crun (ns : list NodeId) (acts : list (PAction N)) :=
  cexec (list_to_set ns) hb (map DoRestart ns ++ acts) (pstart ns).
Definition cfinal (ns : list NodeId) (acts : list (PAction N)) := default (pstart ns) (crun ns acts).

Lemma cfinal_run ns acts :
  is_some (crun ns acts) = true →
  rtc (careful_step (list_to_set ns) hb) (pstart ns) (cfinal ns acts).
Proof.
  unfold cfinal. destruct (crun ns acts) eqn:Hr; [|done]. intros _. by eapply cexec_sound.
Qed.

Lemma paxos_agreement_witness :
  (a, mkDecision 0 1%N) ∈ pdelivered (cfinal three competing) ∧
  (c, mkDecision 0 1%N) ∈ pdelivered (cfinal three competing) ∧
  ∀ v, (c, mkDecision 0 v) ∈ pdelivered (cfinal three competing) → 1%N = v.
Proof.
  assert ((a, mkDecision 0 1%N) ∈ pdelivered (cfinal three competing)) as Ha
    by (apply in_delivered; vm_compute; reflexivity).
  split; [exact Ha|]. split; [apply in_delivered; vm_compute; reflexivity|].
  intros v Hv. refine (paxos_agreement (list_to_set three) hb _ (pstart three) (cfinal three competing)
    a c 0 1%N v _ _ _ _ Ha Hv).
  - vm_compute. lia.
  - apply pstart_initial.
  - apply (proj1 (bool_decide_eq_true (dom (pnodes (pstart three)) ⊆ list_to_set three))). vm_compute. reflexivity.
  - apply cfinal_run. vm_compute. reflexivity.
  - apply single_valuedb_sound. vm_compute. reflexivity.
Defined.

(** The conditions tell the runs that disagree from those that do not: each of
    the runs of [PaxosRuns.v] stops being careful, or has two values under one
    number. *)
Example disagreeing_runs_not_careful :
  is_some (crun three own_accept_ignored) = false ∧
  is_some (crun five stale_vote) = false ∧
  (is_some (crun five late_promise) && single_valuedb (cfinal five late_promise)) = false ∧
  is_some (crun three competing) = true.
Proof. vm_compute. done. Qed.
End CarefulRun.
