(* ===== verification/PaxosTests.v ===== *)
(** * Paxos: the unit tests of the protocol

    The tests of [daccord/src/protocol/paxos.rs] under the names they have
    there, with and without the [multi-paxos] feature. *)

From stdpp Require Import strings.
From S2P Require Import Prelude Types Storage Paxos Testing.

Open Scope test_scope.

Module PaxosTests.
Import Paxos.
Abbreviation TP := (PaxosProtocol string (PaxosMemoryStorage string)).
Abbreviation TOut := (list (Outgoing (PaxosMessage string))).

Section tests.
Context (multi_paxos : bool) (e : PEnv).

Definition node (n : string) : NodeId := mkNodeId n 1000.
Definition pnum (round : N) (n : string) : ProposalNumber := (round, node n).

Definition make_protocol (n : string) (total : nat) : option TP :=
  Some (new_with_config e (node n) total (paxos_heartbeat_interval PaxosConfig_default)
          PaxosMemoryStorage_new).

Definition receive (from : string) (msg : PaxosMessage string) : Test TP TOut :=
  handle_message multi_paxos e (node from) msg.
(** The slot [inner_propose] returns is the next one before the call. *)
Definition submit (v : string) : Test TP (N * TOut) :=
  λ p, '(p1, out) ← inner_propose multi_paxos e v p; Some (p1, (next_slot p, out)).
Definition retry (slot : N) : Test TP TOut := retry_proposal multi_paxos e slot.
Definition decisions : Test TP (list (Decision string)) := lift take_decisions.
Definition lost : Test TP (list string) := lift take_lost_proposals.

(** [proto.instances.get(&0).unwrap()]. *)
Definition instance0 : Test TP (PaxosInstance string) := λ p, i ← instances p !! 0%N; Some (p, i).
Definition number0 : Test TP ProposalNumber := λ p, i ← instances p !! 0%N; Some (p, proposal_number i).

Definition first_is (out : TOut) (f : PaxosMessage string → bool) : bool :=
  match out !! 0 with Some o => f (message o) | None => false end.
Definition all_messages (out : TOut) (f : PaxosMessage string → bool) : bool :=
  forallb (λ o, f (message o)) out.
Definition some_decide (out : TOut) : bool :=
  existsb (λ o, match message o with Decide _ _ => true | _ => false end) out.
Definition accepts_value (v : string) (m : PaxosMessage string) : bool :=
  match m with Accept _ _ v' => bool_decide (v' = v) | _ => false end.
Definition slots (ds : list (Decision string)) : list (N * string) := (λ d, (d_slot d, d_value d)) <$> ds.

(** ** The acceptor *)
Definition acceptor_promises_first_prepare : bool := passes (make_protocol "a" 3) (
  let! out := receive "b" (Prepare 0 (pnum 1 "b")) in
  expect (λ _, (length out =? 1) && first_is out (λ m, match m with
    | Promise slot pn None => (slot =? 0)%N && bool_decide (pn = pnum 1 "b") | _ => false end))).

Definition acceptor_nacks_lower_prepare : bool := passes (make_protocol "a" 3) (
  receive "b" (Prepare 0 (pnum 5 "b"));;
  let! out := receive "b" (Prepare 0 (pnum 1 "b")) in
  expect (λ _, (length out =? 1) &&
    first_is out (λ m, match m with NackPrepare _ _ _ => true | _ => false end))).

Definition acceptor_accepts_if_no_higher_promise : bool := passes (make_protocol "a" 3) (
  let! out := receive "b" (Accept 0 (pnum 1 "b") "hello") in
  expect (λ _, (length out =? 1) && first_is out (λ m, match m with
    | Accepted slot pn v => (slot =? 0)%N && bool_decide (pn = pnum 1 "b") && bool_decide (v = "hello")
    | _ => false end))).

Definition acceptor_nacks_accept_with_lower_proposal : bool := passes (make_protocol "a" 3) (
  receive "b" (Prepare 0 (pnum 5 "b"));;
  let! out := receive "b" (Accept 0 (pnum 1 "b") "hello") in
  expect (λ _, (length out =? 1) &&
    first_is out (λ m, match m with NackAccept _ _ _ => true | _ => false end))).

Definition acceptor_records_accepted_value_in_promise : bool := passes (make_protocol "a" 3) (
  receive "b" (Accept 0 (pnum 1 "b") "hello");;
  let! out := receive "b" (Prepare 0 (pnum 2 "b")) in
  expect (λ _, first_is out (λ m, match m with
    | Promise _ _ (Some (pn, v)) => bool_decide (pn = pnum 1 "b") && bool_decide (v = "hello")
    | _ => false end))).

(** ** The proposer *)
Definition propose_starts_phase1_and_self_votes : bool := passes (make_protocol "a" 3) (
  let! r := submit "hello" in
  expect (λ _, (r.1 =? 0)%N && negb (length r.2 =? 0) &&
    forallb (λ o, match message o, target o with
      | Prepare 0 _, Broadcast => true | _, _ => false end) r.2);;
  let! i := instance0 in expect (λ p, bool_decide (node_id p ∈ promises_received i))).

Definition propose_increments_next_slot : bool := passes (make_protocol "a" 3) (
  let! r1 := submit "first" in let! r2 := submit "second" in
  expect (λ _, (r1.1 =? 0)%N && (r2.1 =? 1)%N)).

Definition single_node_decides_immediately_on_propose : bool := passes (make_protocol "a" 1) (
  let! r := submit "hello" in expect (λ _, some_decide r.2);;
  let! ds := decisions in expect (λ _, bool_decide (slots ds = [(0%N, "hello")]))).

Definition promise_quorum_triggers_phase2 : bool := passes (make_protocol "a" 3) (
  submit "hello";; let! pn := number0 in
  let! out := receive "b" (Promise 0 pn None) in
  expect (λ _, negb (length out =? 0) && all_messages out (accepts_value "hello"))).

Definition phase2_value_selection_uses_highest_accepted : bool := passes (make_protocol "a" 3) (
  submit "my-value";; let! pn := number0 in
  let! out := receive "b" (Promise 0 pn (Some (pnum 1 "c", "previous-value"))) in
  expect (λ _, all_messages out (accepts_value "previous-value"))).

Definition phase2_value_selection_picks_highest_of_multiple : bool := passes (make_protocol "a" 5) (
  submit "my-value";; let! pn := number0 in
  receive "b" (Promise 0 pn (Some (pnum 1 "x", "old-value")));;
  let! out := receive "c" (Promise 0 pn (Some (pnum 3 "y", "newer-value"))) in
  expect (λ _, all_messages out (accepts_value "newer-value"))).

Definition duplicate_promise_does_not_double_count : bool := passes (make_protocol "a" 5) (
  submit "hello";; let! pn := number0 in
  receive "b" (Promise 0 pn None);;
  let! out := receive "b" (Promise 0 pn None) in expect (λ _, length out =? 0)).

(** ** Decisions *)
Definition accepted_quorum_triggers_decision : bool := passes (make_protocol "a" 3) (
  submit "hello";; let! pn := number0 in
  receive "b" (Promise 0 pn None);;
  let! out := receive "b" (Accepted 0 pn "hello") in expect (λ _, some_decide out);;
  let! ds := decisions in
  expect (λ _, (length ds =? 1) && bool_decide (d_value <$> ds !! 0 = Some "hello"))).

Definition duplicate_accepted_does_not_double_count : bool := passes (make_protocol "a" 5) (
  submit "hello";; let! pn := number0 in
  receive "b" (Promise 0 pn None);; receive "c" (Promise 0 pn None);;
  receive "b" (Accepted 0 pn "hello");;
  let! out := receive "b" (Accepted 0 pn "hello") in expect (λ _, length out =? 0);;
  let! ds := decisions in expect (λ _, length ds =? 0)).

Definition handle_decide_from_peer : bool := passes (make_protocol "a" 3) (
  receive "b" (Decide 5 "remote-decision");;
  let! ds := decisions in expect (λ _, bool_decide (slots ds = [(5%N, "remote-decision")]));;
  expect (λ p, 6 <=? next_slot p)%N).

Definition decided_slot_replies_with_decide_to_late_prepare : bool := passes (make_protocol "a" 3) (
  receive "b" (Decide 0 "decided");; decisions;;
  let! out := receive "c" (Prepare 0 (pnum 10 "c")) in
  expect (λ _, (length out =? 1) &&
    first_is out (λ m, match m with Decide 0 v => bool_decide (v = "decided") | _ => false end) &&
    match target <$> out !! 0 with Some (Peer t) => bool_decide (t = node "c") | _ => false end)).

Definition instance_garbage_collected_after_decision : bool := passes (make_protocol "a" 3) (
  receive "b" (Decide 0 "done");; decisions;;
  expect (λ p, negb (is_some (instances p !! 0%N)) && is_some (decided_slots p !! 0%N))).

Definition decide_from_external_does_not_repropose_if_value_matches : bool :=
  passes (make_protocol "a" 3) (
  submit "my-value";; receive "b" (Decide 0 "my-value");;
  let! l := lost in expect (λ _, length l =? 0)).

Definition decide_for_different_value_re_proposes : bool := passes (make_protocol "a" 3) (
  submit "my-value";; receive "b" (Decide 0 "other-value");;
  let! l := lost in expect (λ _, bool_decide (l = ["my-value"]))).

(** ** Nacks and retries *)
Definition nack_records_highest_promised_for_retry : bool := passes (make_protocol "a" 3) (
  submit "hello";; let! pn := number0 in
  receive "b" (NackPrepare 0 pn (pnum 10 "b"));;
  let! i := instance0 in
  expect (λ _, nacked i && bool_decide (highest_seen_nack i = Some 10%N) && is_some (last_nack_time i))).

Definition retry_proposal_uses_higher_number : bool := passes (make_protocol "a" 3) (
  submit "hello";; let! old := number0 in
  receive "b" (NackPrepare 0 old (pnum 5 "b"));;
  let! out := retry 0 in expect (λ _, negb (length out =? 0));;
  let! pn := number0 in expect (λ _, pn_ltb old pn && (5 <? pn.1)%N)).

Definition retry_preserves_acceptor_state : bool := passes (make_protocol "a" 3) (
  submit "hello";; receive "b" (Accept 0 (pnum 5 "b") "other");;
  let! pn := number0 in receive "b" (NackPrepare 0 pn (pnum 10 "b"));; retry 0;;
  let! i := instance0 in
  expect (λ _, is_some (accepted i) && (5 <? (proposal_number i).1)%N)).

Definition retry_round_exceeds_acceptor_highest_promised : bool := passes (make_protocol "a" 3) (
  submit "hello";; receive "c" (Prepare 0 (pnum 20 "c"));;
  let! pn := number0 in receive "b" (NackPrepare 0 pn (pnum 5 "b"));; retry 0;;
  let! pn := number0 in expect (λ _, 20 <? pn.1)%N).

Definition start_phase2_respects_acceptor_promise : bool := passes (make_protocol "a" 3) (
  submit "hello";; let! pn := number0 in
  receive "c" (Prepare 0 (pnum 100 "c"));; receive "b" (Promise 0 pn None);;
  expect (λ p, match instances p !! 0%N with
    | Some i => negb (bool_decide (node_id p ∈ accepts_received i)) | None => true end)).

Definition get_retryable_proposals_with_backoff : bool := passes (make_protocol "a" 3) (
  submit "hello";; let! pn := number0 in
  receive "b" (NackPrepare 0 pn (pnum 5 "b"));;
  let! l := lift (λ p, (p, get_retryable_proposals e p)) in expect (λ _, true)).

Definition paxos_unit_tests : list bool :=
  [acceptor_promises_first_prepare; acceptor_nacks_lower_prepare;
   acceptor_accepts_if_no_higher_promise; acceptor_nacks_accept_with_lower_proposal;
   acceptor_records_accepted_value_in_promise; propose_starts_phase1_and_self_votes;
   propose_increments_next_slot; single_node_decides_immediately_on_propose;
   promise_quorum_triggers_phase2; phase2_value_selection_uses_highest_accepted;
   phase2_value_selection_picks_highest_of_multiple; duplicate_promise_does_not_double_count;
   accepted_quorum_triggers_decision; duplicate_accepted_does_not_double_count;
   handle_decide_from_peer; decided_slot_replies_with_decide_to_late_prepare;
   instance_garbage_collected_after_decision;
   decide_from_external_does_not_repropose_if_value_matches;
   decide_for_different_value_re_proposes; nack_records_highest_promised_for_retry;
   retry_proposal_uses_higher_number; retry_preserves_acceptor_state;
   retry_round_exceeds_acceptor_highest_promised; start_phase2_respects_acceptor_promise;
   get_retryable_proposals_with_backoff].
End tests.

Definition test_env : PEnv := mkPEnv (from_secs 100) (λ _, 0%N).

(** The model passes the unit tests of the Paxos protocol, all 25 of
    them, without and with the [multi-paxos] feature. *)
Lemma paxos_unit_tests_pass :
  forallb (λ mp, forallb id (paxos_unit_tests mp test_env)) [false; true] = true.
Proof. vm_compute. reflexivity. Qed.
End PaxosTests.
