(* ===== verification/Protocol.v ===== *)
(** * The protocol behind a node

    Models [ProtocolImpl] of [daccord/src/protocol/mod.rs]: a node runs one of
    the two protocols, its messages travel in a common envelope, and a message
    of the other protocol is dropped. *)

From S2P Require Import Prelude Types Storage Raft Paxos.

(** What a call reads of the clock and the random generator. *)
Record NEnv := mkNEnv { ne_now : Instant; ne_rand : N; ne_draw : N → N }.
Definition raft_env (e : NEnv) : Env := mkEnv (ne_now e) (ne_rand e).
Definition paxos_env (e : NEnv) : Paxos.PEnv := Paxos.mkPEnv (ne_now e) (ne_draw e).

Inductive ProtocolImpl (V PS RS : Type) :=
| IPaxos (p : Paxos.PaxosProtocol V PS)
| IRaft (r : RaftProtocol V RS).
Arguments IPaxos {V PS RS}. Arguments IRaft {V PS RS}.

Section protocol.
Context {V PS RS : Type} `{EqDecision V}.
Context (mp : bool).
Abbreviation Impl := (ProtocolImpl V PS RS).
Abbreviation Out := (list (Outgoing (WireVariant V))).

Definition wrap_paxos (o : Outgoing (PaxosMessage V)) : Outgoing (WireVariant V) :=
  mkOut (target o) (WPaxos (message o)).
Definition wrap_raft (o : Outgoing (RaftMessage V)) : Outgoing (WireVariant V) :=
  mkOut (target o) (WRaft (message o)).

Definition of_paxos (r : option (Paxos.PaxosProtocol V PS * list (Outgoing (PaxosMessage V))))
    : option (Impl * Out) :=
  '(p, out) ← r; Some (IPaxos p, map wrap_paxos out).
Definition of_raft (r : option (RaftProtocol V RS * list (Outgoing (RaftMessage V))))
    : option (Impl * Out) :=
  '(p, out) ← r; Some (IRaft p, map wrap_raft out).

Definition impl_propose (e : NEnv) (v : V) (i : Impl) : option (Impl * Out) :=
  match i with
  | IPaxos p => of_paxos (Paxos.propose mp (paxos_env e) v p)
  | IRaft r => of_raft (propose (raft_env e) v r)
  end.

Definition handle_wire_message (e : NEnv) (from : NodeId) (msg : WireVariant V) (i : Impl)
    : option (Impl * Out) :=
  match i, msg with
  | IPaxos p, WPaxos m => of_paxos (Paxos.handle_message mp (paxos_env e) from m p)
  | IRaft r, WRaft m => of_raft (handle_message (raft_env e) from m r)
  | IPaxos _, WRaft _ => Some (i, [])
  | IRaft _, WPaxos _ => Some (i, [])
  end.

Definition impl_on_tick (e : NEnv) (i : Impl) : option (Impl * Out) :=
  match i with
  | IPaxos p => of_paxos (Paxos.on_tick mp (paxos_env e) p)
  | IRaft r => of_raft (on_tick (raft_env e) (ne_now e) r)
  end.

Definition impl_take_lost_proposals (i : Impl) : Impl * list V :=
  match i with
  | IPaxos p => let '(p, l) := Paxos.take_lost_proposals p in (IPaxos p, l)
  | IRaft r => let '(r, l) := take_lost_proposals r in (IRaft r, l)
  end.

Definition impl_is_idle (i : Impl) : bool :=
  match i with IPaxos p => Paxos.is_idle p | IRaft r => is_idle r end.

Definition impl_peek_state (i : Impl) : ProtocolSnapshot :=
  match i with IPaxos p => Paxos.peek_state p | IRaft r => peek_state r end.

Context `{PaxosStorage PS V, RaftStorage RS V}.

Definition impl_recover (e : NEnv) (i : Impl) : option (Impl * Result unit StorageError) :=
  match i with
  | IPaxos p => '(p, r) ← Paxos.recover p; Some (IPaxos p, r)
  | IRaft p => '(p, r) ← recover (raft_env e) p; Some (IRaft p, r)
  end.

Definition impl_flush_persist (i : Impl) : option (Impl * Result unit StorageError) :=
  match i with
  | IPaxos p => let '(p, r) := Paxos.flush_persist p in Some (IPaxos p, r)
  | IRaft p => '(p, r) ← flush_persist p; Some (IRaft p, r)
  end.

Definition impl_drain_decisions (i : Impl) : Impl * Result (list (Decision V)) StorageError :=
  match i with
  | IPaxos p => let '(p, r) := Paxos.drain_decisions p in (IPaxos p, r)
  | IRaft p => let '(p, r) := drain_decisions p in (IRaft p, r)
  end.
End protocol.
