(* ===== verification/Node.v ===== *)
(** * The node and its event loop

    Models [Node], [NodeHandle] and [PendingMap] of [daccord/src/node.rs]: how
    submissions, incoming bytes and ticks drive the protocol, in which order
    state is persisted, messages are sent, decisions are stored and callers
    are answered, and how the loop ends. A caller waiting for its proposal is
    a token; what the node does is a list of effects. *)

From S2P Require Import Prelude Types Storage Raft Paxos Protocol.

Inductive NodeAlgorithm := AlgPaxos | AlgRaft.

Record NodeState := mkNodeState {
  st_node_id : NodeId;
  st_algorithm : NodeAlgorithm;
  st_role : option NodeRole;
  st_cur_term : N;
  st_leader : option NodeId;
  st_voted_for : option NodeId;
  st_log_len : N;
  st_commit : option N;
  st_applied : option N;
}.

Definition initial_state (id : NodeId) (alg : NodeAlgorithm) : NodeState := {|
  st_node_id := id; st_algorithm := alg;
  st_role := match alg with AlgRaft => Some NFollower | AlgPaxos => None end;
  st_cur_term := 0; st_leader := None; st_voted_for := None; st_log_len := 0;
  st_commit := None; st_applied := None |}.

Record Decided (V : Type) := mkDecided { dc_slot : N; dc_value : V }.
Arguments mkDecided {V}. Arguments dc_slot {V}. Arguments dc_value {V}.

Definition PROPOSAL_CHANNEL_CAPACITY : nat := 1024.
Definition DECISION_CHANNEL_CAPACITY : nat := 1024.

(** The caller of [NodeHandle::propose] that waits on a oneshot. *)
Abbreviation Token := N (only parsing).

Record PendingEntry (V : Type) := mkPendingEntry { pe_value : V; completion : Token }.
Arguments mkPendingEntry {V}. Arguments pe_value {V}. Arguments completion {V}.

Abbreviation PendingMap V := (gmap N (PendingEntry V)).

Record Submission (V : Type) := mkSubmission { s_pending : Pending V; s_completion : Token }.
Arguments mkSubmission {V}. Arguments s_pending {V}. Arguments s_completion {V}.

(** What the outside sees of the event loop. *)
Inductive Effect (V B : Type) :=
| EffFlush                                          (* the intent is durable *)
| EffSend (to : NodeId) (data : B)
| EffComplete (tok : Token) (r : Result (Decided V) ProposeError)
| EffDeliver (d : Decided V).                       (* on the decision channel *)
Arguments EffFlush {V B}. Arguments EffSend {V B}. Arguments EffComplete {V B}.
Arguments EffDeliver {V B}.

(** The decision channel: what is queued and whether its receiver is alive. *)
Record Channel (A : Type) := mkChannel { queued : list A; closed : bool }.
Arguments mkChannel {A}. Arguments queued {A}. Arguments closed {A}.

(** [mpsc::Sender::try_send]. *)
Definition try_send {A} (cap : nat) (x : A) (ch : Channel A) : Channel A * bool :=
  if closed ch then (ch, false)
  else if bool_decide (cap ≤ length (queued ch)) then (ch, false)
  else (mkChannel (queued ch ++ [x]) false, true).

Record NodeS (V PS RS : Type) := mkNode {
  nd_id : NodeId;
  senders : list NodeId;
  protocol : ProtocolImpl (Pending V) PS RS;
  decision_ch : Channel (Decided V);
  state : NodeState;
  algorithm : NodeAlgorithm;
  pending : PendingMap V;
}.
Arguments mkNode {V PS RS}. Arguments nd_id {V PS RS}. Arguments senders {V PS RS}.
Arguments protocol {V PS RS}. Arguments decision_ch {V PS RS}. Arguments state {V PS RS}.
Arguments algorithm {V PS RS}. Arguments pending {V PS RS}.

(** What arrives at the event loop: a submission or the closing of the
    proposal channel, bytes or an error from the transport, a tick. *)
Inductive Input (V B : Type) :=
| InSubmit (s : Submission V)
| InHandlesDropped
| InBytes (data : B)
| InReceiverError
| InTick.
Arguments InSubmit {V B}. Arguments InHandlesDropped {V B}. Arguments InBytes {V B}.
Arguments InReceiverError {V B}. Arguments InTick {V B}.

Section node.
Context {V PS RS B : Type} `{EqDecision V}.
Context `{PaxosStorage PS (Pending V), RaftStorage RS (Pending V)}.
Context (mp : bool).
(** [serde_json] behind [Message::to_bytes] and [Message::from_bytes]. *)
Context (encode : Message (Pending V) → option B) (decode : B → option (Message (Pending V))).
Abbreviation Nd := (NodeS V PS RS).
Abbreviation Eff := (list (Effect V B)).
Abbreviation Outs := (list (Outgoing (WireVariant (Pending V)))).
(** A handler panics, or returns with its effects. *)
Abbreviation HandlerResult := (option (Nd * Eff * Result unit NodeError)).

(** ** Pending proposals *)

(** [PendingMap::insert]: an entry under the same nonce is dropped, and with
    it its oneshot. *)
Definition pending_insert (pv : Pending V) (tok : Token) (m : PendingMap V)
    : PendingMap V * Eff :=
  (<[nonce pv := mkPendingEntry (pvalue pv) tok]> m,
   match m !! nonce pv with
   | Some old => [EffComplete (completion old) (Err Cancelled)]
   | None => []
   end).

Definition remove_nonce (k : N) (m : PendingMap V) : PendingMap V * option Token :=
  (delete k m, completion <$> m !! k).

Definition remove_for_decision (k : N) (v : V) (m : PendingMap V)
    : PendingMap V * option Token :=
  if negb (k =? 0)%N then remove_nonce k m
  else match list_find (λ kv, pe_value kv.2 = v) (map_to_list m) with
       | Some (_, (k', _)) => remove_nonce k' m
       | None => (m, None)
       end.

(** [Drop for PendingMap]. *)
Definition pending_drop (m : PendingMap V) : Eff :=
  map (λ kv, EffComplete (completion kv.2) (Err Cancelled)) (map_to_list m).

(** ** State *)
Definition compute_state (nd : Nd) : NodeState :=
  let snap := impl_peek_state (protocol nd) in
  {| st_node_id := nd_id nd; st_algorithm := algorithm nd; st_role := s_role snap;
     st_cur_term := s_term snap; st_leader := s_leader snap;
     st_voted_for := s_voted_for snap; st_log_len := s_log_len snap;
     st_commit := s_commit_index snap; st_applied := s_last_applied snap |}.
Definition publish_state (nd : Nd) : Nd := {| nd with state := compute_state nd |}.

(** ** Sending *)
Definition send_one (nd : Nd) (o : Outgoing (WireVariant (Pending V))) : Eff :=
  match encode (mkMessage (nd_id nd) (message o)) with
  | None => []
  | Some data =>
      match target o with
      | Peer n => if bool_decide (n ∈ senders nd) then [EffSend n data] else []
      | Broadcast => map (λ n, EffSend n data) (senders nd)
      end
  end.
Definition send_outgoing (nd : Nd) (out : Outs) : Eff := flat_map (send_one nd) out.

(** ** Decisions *)
Definition process_decision (d : Decision (Pending V)) (nd : Nd) : Nd * Eff :=
  let public := mkDecided (d_slot d) (pvalue (d_value d)) in
  let '(m, tok) := remove_for_decision (nonce (d_value d)) (pvalue (d_value d)) (pending nd) in
  let answer := match tok with Some t => [EffComplete t (Ok public)] | None => [] end in
  let '(ch, sent) := try_send DECISION_CHANNEL_CAPACITY public (decision_ch nd) in
  ({| nd with pending := m; decision_ch := ch |},
   answer ++ if sent then [EffDeliver public] else []).

Fixpoint process_each (ds : list (Decision (Pending V))) (nd : Nd) : Nd * Eff :=
  match ds with
  | [] => (nd, [])
  | d :: ds =>
      let '(nd, eff) := process_decision d nd in
      let '(nd, eff') := process_each ds nd in
      (nd, eff ++ eff')
  end.

Definition process_decisions (nd : Nd) : Nd * Eff * Result unit NodeError :=
  let '(i, r) := impl_drain_decisions (protocol nd) in
  let nd := {| nd with protocol := i |} in
  match r with
  | Err er => (nd, [], Err (NodeStorage er))
  | Ok ds => let '(nd, eff) := process_each ds nd in (nd, eff, Ok tt)
  end.

(** Persist, send, deliver: what follows every call of the protocol. *)
Definition after_protocol (r : option (ProtocolImpl (Pending V) PS RS * Outs)) (nd : Nd)
    : HandlerResult :=
  '(i, out) ← r;
  '(i, fr) ← impl_flush_persist i;
  let nd := {| nd with protocol := i |} in
  match fr with
  | Err er => Some (nd, [], Err (NodeStorage er))
  | Ok _ =>
      let '(nd', eff, dr) := process_decisions nd in
      Some (nd', EffFlush :: send_outgoing nd out ++ eff, dr)
  end.

(** ** The handlers *)
Definition publish_if_ok (r : HandlerResult) : HandlerResult :=
  '(nd, eff, res) ← r;
  Some (match res with Ok _ => publish_state nd | Err _ => nd end, eff, res).

Definition handle_submission (e : NEnv) (s : Submission V) (nd : Nd) : HandlerResult :=
  let '(m, eff0) := pending_insert (s_pending s) (s_completion s) (pending nd) in
  let nd := {| nd with pending := m |} in
  '(nd, eff, res) ← publish_if_ok
     (after_protocol (impl_propose mp e (s_pending s) (protocol nd)) nd);
  Some (nd, eff0 ++ eff, res).

Fixpoint repropose (e : NEnv) (vs : list (Pending V)) (nd : Nd) : HandlerResult :=
  match vs with
  | [] => Some (nd, [], Ok tt)
  | v :: vs =>
      '(nd, eff, res) ← after_protocol (impl_propose mp e v (protocol nd)) nd;
      match res with
      | Err er => Some (nd, eff, Err er)
      | Ok _ => '(nd, eff', res) ← repropose e vs nd; Some (nd, eff ++ eff', res)
      end
  end.

Definition handle_incoming_bytes (e : NEnv) (data : B) (nd : Nd) : HandlerResult :=
  match decode data with
  | None => Some (nd, [], Ok tt)
  | Some msg =>
      '(nd, eff, res) ← after_protocol
         (handle_wire_message mp e (sender msg) (variant msg) (protocol nd)) nd;
      match res with
      | Err er => Some (nd, eff, Err er)
      | Ok _ =>
          let '(i, lost) := impl_take_lost_proposals (protocol nd) in
          let nd := {| nd with protocol := i |} in
          '(nd, eff', res) ← publish_if_ok (repropose e lost nd);
          Some (nd, eff ++ eff', res)
      end
  end.

Definition handle_retries (e : NEnv) (nd : Nd) : HandlerResult :=
  publish_if_ok (after_protocol (impl_on_tick mp e (protocol nd)) nd).

(** ** The loop *)

(** How a run of the loop stands: running (with the transport alive or not)
    or returned, the pending map dropped; of the node it returned from only
    the storage survives. *)
Inductive LoopState :=
| Running (nd : Nd) (receiver_alive : bool)
| Returned (nd : Nd) (r : Result unit NodeError).

(** The pending map is dropped when the loop returns. *)
Definition return_with (nd : Nd) (eff : Eff) (r : Result unit NodeError) : LoopState * Eff :=
  (Returned nd r, eff ++ pending_drop (pending nd)).

Definition continue_with (alive : bool) (r : HandlerResult) : option (LoopState * Eff) :=
  '(nd, eff, res) ← r;
  Some (match res with
        | Ok _ => (Running nd alive, eff)
        | Err er => return_with nd eff (Err er)
        end).

(** One iteration of [run]'s loop: the branch [select!] takes. Once the
    transport has failed nothing is received from it any more. *)
Definition loop_step (e : NEnv) (inp : Input V B) (nd : Nd) (alive : bool)
    : option (LoopState * Eff) :=
  match inp with
  | InSubmit s => continue_with alive (handle_submission e s nd)
  | InHandlesDropped => Some (return_with nd [] (Ok tt))
  | InBytes data =>
      if alive then continue_with alive (handle_incoming_bytes e data nd)
      else Some (Running nd alive, [])
  | InReceiverError =>
      if alive then
        if bool_decide (1 < quorum_size (length (senders nd) + 1)) &&
           negb (impl_is_idle (protocol nd))
        then Some (return_with nd [] (Err NoQuorum))
        else Some (Running nd false, [])
      else Some (Running nd alive, [])
  | InTick => continue_with alive (handle_retries e nd)
  end.

Fixpoint loop (ins : list (NEnv * Input V B)) (nd : Nd) (alive : bool)
    : option (LoopState * Eff) :=
  match ins with
  | [] => Some (Running nd alive, [])
  | (e, inp) :: ins =>
      '(ls, eff) ← loop_step e inp nd alive;
      match ls with
      | Returned nd r => Some (Returned nd r, eff)
      | Running nd alive => '(ls, eff') ← loop ins nd alive; Some (ls, eff ++ eff')
      end
  end.

(** [run]: recover, publish, loop. Without peers the transport is not used. *)
Definition run (e : NEnv) (ins : list (NEnv * Input V B)) (nd : Nd)
    : option (LoopState * Eff) :=
  '(i, r) ← impl_recover e (protocol nd);
  let nd := {| nd with protocol := i |} in
  match r with
  | Err er => Some (Returned nd (Err (NodeStorage er)), [])
  | Ok _ =>
      loop ins (publish_state {| nd with pending := ∅ |})
        (negb (bool_decide (senders nd = [])))
  end.
End node.

(** ** Construction *)
Section construct.
Context {V PS RS : Type}.

Definition raft_with_id_inner (e : NEnv) (id : NodeId) (cfg : RaftConfig)
    (peers : list NodeId) (s : RS) : option (NodeS V PS (PendingRaftStorage V RS)) :=
  r ← new (raft_env e) id (length peers + 1) cfg (mkPendingRaft s);
  Some {| nd_id := id; senders := peers; protocol := IRaft r;
          decision_ch := mkChannel [] false; state := initial_state id AlgRaft;
          algorithm := AlgRaft; pending := ∅ |}.

Definition paxos_with_id_inner (e : NEnv) (id : NodeId) (hb : Duration)
    (peers : list NodeId) (s : PS) : NodeS V (PendingPaxosStorage V PS) RS :=
  {| nd_id := id; senders := peers;
     protocol := IPaxos (Paxos.new_with_config (paxos_env e) id (length peers + 1) hb
                           (mkPendingPaxos s));
     decision_ch := mkChannel [] false; state := initial_state id AlgPaxos;
     algorithm := AlgPaxos; pending := ∅ |}.

(** [Node::raft] and [Node::paxos]: the incarnation is the time since the UNIX
    epoch in seconds; a clock before it is a panic. *)
Definition Node_raft (clock : option N) (e : NEnv) (nm : string) (cfg : RaftConfig)
    (peers : list NodeId) (s : RS) : option (NodeS V PS (PendingRaftStorage V RS)) :=
  secs ← clock; raft_with_id_inner e (mkNodeId nm secs) cfg peers s.

Definition Node_paxos (clock : option N) (e : NEnv) (nm : string) (cfg : PaxosConfig)
    (peers : list NodeId) (s : PS) : option (NodeS V (PendingPaxosStorage V PS) RS) :=
  secs ← clock; Some (paxos_with_id_inner e (mkNodeId nm secs) (paxos_heartbeat_interval cfg) peers s).

(** [live_nonce]: the first draw that is not 0. *)
Fixpoint live_nonce (draws : list N) : option N :=
  match draws with
  | [] => None
  | n :: draws => if negb (n =? 0)%N then Some n else live_nonce draws
  end.

(** [NodeHandle::propose] up to the await: the nonce and the queue. *)
Definition handle_propose (draws : list N) (v : V) (tok : Token)
    (ch : Channel (Submission V)) : option (Channel (Submission V) * option ProposeError) :=
  n ← live_nonce draws;
  let s := mkSubmission (mkPending n v) tok in
  let '(ch', ok) := try_send PROPOSAL_CHANNEL_CAPACITY s ch in
  Some (ch', if ok then None else Some (if closed ch then NotRunning else ChannelFull)).
End construct.
