(* ===== verification/NodeProps.v ===== *)
(** * The event loop: what it promises

    Every caller is answered exactly once, whatever ends the loop; nothing is
    sent before the protocol's state is durable; and a Raft node is in step
    with its storage after every iteration, which is what the network model
    of [RaftNet.v] assumes of a node. *)

From S2P Require Import Prelude Types Network Storage Raft RaftLocal RaftEvents RaftDurable.
From S2P Require Import RaftNet RaftNetLemmas Paxos Protocol Node.

Section props.
Context {V PS RS B : Type} `{EqDecision V}.
Context `{PaxosStorage PS (Pending V), RaftStorage RS (Pending V)}.
Context (mp : bool).
Context (encode : Message (Pending V) → option B) (decode : B → option (Message (Pending V))).
Abbreviation Nd := (NodeS V PS RS).
Abbreviation Eff := (list (Effect V B)).
Implicit Types (nd : Nd) (eff : Eff) (m : PendingMap V).

(** ** Answers *)

(** The tokens answered by a list of effects. *)
Definition answered eff : list Token :=
  omap (λ x, match x with EffComplete t _ => Some t | _ => None end) eff.
(** The tokens still waiting. *)
Definition waiting m : list Token := (λ kv, completion kv.2) <$> map_to_list m.
(** The tokens of a list of inputs. *)
Definition submitted (ins : list (NEnv * Input V B)) : list Token :=
  omap (λ i, match i.2 with InSubmit s => Some (s_completion s) | _ => None end) ins.

Lemma answered_app eff eff' : answered (eff ++ eff') = answered eff ++ answered eff'.
Proof. apply omap_app. Qed.

Lemma waiting_delete m k en :
  m !! k = Some en → waiting m ≡ₚ completion en :: waiting (delete k m).
Proof.
  intros Hk. unfold waiting. rewrite <- (insert_delete_id m k en Hk) at 1.
  rewrite map_to_list_insert by apply lookup_delete_eq. done.
Qed.

Lemma pending_insert_tokens (pv : Pending V) tok m m1 eff :
  pending_insert pv tok m = (m1, eff) → waiting m1 ++ answered eff ≡ₚ tok :: waiting m.
Proof.
  unfold pending_insert. intros [= <- <-]. destruct (m !! nonce pv) as [old|] eqn:Hk; simpl.
  - rewrite (waiting_delete (<[nonce pv:=_]> m) (nonce pv) _ (lookup_insert_eq _ _ _)).
    rewrite delete_insert_eq. simpl. rewrite <- Permutation_cons_append.
    by rewrite (waiting_delete m _ _ Hk).
  - unfold waiting. rewrite map_to_list_insert by done. by rewrite app_nil_r.
Qed.

Lemma remove_nonce_tokens k m m1 tok :
  remove_nonce k m = (m1, tok) → waiting m ≡ₚ option_list tok ++ waiting m1.
Proof.
  unfold remove_nonce. intros [= <- <-]. destruct (m !! k) as [en|] eqn:Hk; simpl.
  - by apply waiting_delete.
  - by rewrite delete_id.
Qed.

Lemma remove_for_decision_tokens k v m m1 tok :
  remove_for_decision k v m = (m1, tok) → waiting m ≡ₚ option_list tok ++ waiting m1.
Proof.
  unfold remove_for_decision. destruct (negb _); [apply remove_nonce_tokens|].
  destruct (list_find _ _) as [[i [k' en]]|]; [apply remove_nonce_tokens|].
  by intros [= <- <-].
Qed.

Lemma process_decision_tokens d nd nd1 eff :
  process_decision d nd = (nd1, eff) →
  waiting (pending nd) ≡ₚ answered eff ++ waiting (pending nd1).
Proof.
  unfold process_decision.
  destruct (remove_for_decision _ _ _) as [m tok] eqn:Hm.
  destruct (try_send _ _ _) as [ch sent]. intros [= <- <-]. simpl.
  apply remove_for_decision_tokens in Hm. rewrite Hm, answered_app. f_equiv.
  destruct tok, sent; done.
Qed.

Lemma process_each_tokens ds nd nd1 eff :
  process_each ds nd = (nd1, eff) →
  waiting (pending nd) ≡ₚ answered eff ++ waiting (pending nd1).
Proof.
  revert nd eff. induction ds as [|d ds IH]; simpl; intros nd eff; [by intros [= <- <-]|].
  destruct (process_decision d nd) as [nd2 eff2] eqn:H2.
  destruct (process_each ds nd2) as [nd3 eff3] eqn:H3. intros [= <- <-].
  rewrite (process_decision_tokens _ _ _ _ H2), (IH _ _ H3), answered_app. by rewrite app_assoc.
Qed.

Lemma send_outgoing_answers nd out : answered (send_outgoing encode nd out) = [].
Proof.
  unfold send_outgoing. induction out as [|o out IH]; [done|]. simpl. rewrite answered_app, IH.
  rewrite app_nil_r. unfold send_one. destruct (encode _); [|done].
  destruct (target o) as [n|]; [by case_bool_decide|].
  induction (senders nd) as [|n l IHl]; simpl; [done|]. apply IHl.
Qed.

Lemma after_protocol_tokens r nd nd1 eff res :
  after_protocol encode r nd = Some (nd1, eff, res) →
  waiting (pending nd) ≡ₚ answered eff ++ waiting (pending nd1).
Proof.
  unfold after_protocol. destruct r as [[i out]|]; [|done]. simpl.
  destruct (impl_flush_persist i) as [[i1 [[]|er]]|]; [|by intros [= <- <- <-]|done]. simpl.
  unfold process_decisions. simpl.
  destruct (impl_drain_decisions i1) as [i2 [ds|er]].
  - destruct (process_each ds _) as [nd2 eff2] eqn:Hp. intros [= <- <- <-].
    apply process_each_tokens in Hp. simpl in Hp |- *.
    by rewrite answered_app, send_outgoing_answers.
  - intros [= <- <- <-]. simpl. by rewrite app_nil_r, send_outgoing_answers.
Qed.

Lemma publish_if_ok_tokens r nd1 eff res :
  publish_if_ok r = Some (nd1, eff, res) →
  ∃ nd0, r = Some (nd0, eff, res) ∧ pending nd1 = pending nd0 ∧ protocol nd1 = protocol nd0.
Proof.
  unfold publish_if_ok. destruct r as [[[nd0 eff0] res0]|]; [|done]. simpl.
  intros [= <- <- <-]. exists nd0. by destruct res0.
Qed.

Lemma repropose_tokens e vs nd nd1 eff res :
  repropose mp encode e vs nd = Some (nd1, eff, res) →
  waiting (pending nd) ≡ₚ answered eff ++ waiting (pending nd1).
Proof.
  revert nd eff. induction vs as [|v vs IH]; simpl; intros nd eff; [by intros [= <- <- <-]|].
  destruct (after_protocol _ _ _) as [[[nd2 eff2] [[]|er]]|] eqn:Ha; [| |done]; simpl.
  - destruct (repropose _ _ _ _ _) as [[[nd3 eff3] res3]|] eqn:Hr; [|done]. simpl.
    intros [= <- <- <-]. rewrite (after_protocol_tokens _ _ _ _ _ Ha), (IH _ _ Hr), answered_app.
    by rewrite app_assoc.
  - intros [= <- <- <-]. by apply after_protocol_tokens in Ha.
Qed.

Lemma handle_incoming_tokens e data nd nd1 eff res :
  handle_incoming_bytes mp encode decode e data nd = Some (nd1, eff, res) →
  waiting (pending nd) ≡ₚ answered eff ++ waiting (pending nd1).
Proof.
  unfold handle_incoming_bytes. destruct (decode data); [|by intros [= <- <- <-]].
  destruct (after_protocol _ _ _) as [[[nd2 eff2] [[]|er]]|] eqn:Ha; [| |done]; simpl.
  - destruct (impl_take_lost_proposals _) as [i lost].
    destruct (publish_if_ok _) as [[[nd3 eff3] res3]|] eqn:Hp; [|done]. simpl.
    apply publish_if_ok_tokens in Hp as (nd4 & Hr & E & _). intros [= <- <- <-].
    apply repropose_tokens in Hr. simpl in Hr.
    rewrite (after_protocol_tokens _ _ _ _ _ Ha), Hr, answered_app, E. by rewrite app_assoc.
  - intros [= <- <- <-]. by apply after_protocol_tokens in Ha.
Qed.

(** The tokens a state of the loop still owes an answer. *)
Definition owed (ls : LoopState (V:=V) (PS:=PS) (RS:=RS)) : list Token :=
  match ls with Running nd _ => waiting (pending nd) | Returned _ _ => [] end.

Lemma pending_drop_answers m : answered (pending_drop m) = waiting m.
Proof.
  unfold pending_drop, waiting. induction (map_to_list m) as [|kv l IH]; simpl; [done|].
  by f_equal.
Qed.

Lemma continue_with_tokens alive r ls eff toks :
  continue_with alive r = Some (ls, eff) →
  (∀ nd1 eff1 res, r = Some (nd1, eff1, res) →
     toks ≡ₚ answered eff1 ++ waiting (pending nd1)) →
  toks ≡ₚ answered eff ++ owed ls.
Proof.
  unfold continue_with. destruct r as [[[nd1 eff1] res]|]; [|done]. simpl.
  intros Hc Ht. specialize (Ht _ _ _ eq_refl). destruct res as [[]|er]; injection Hc as <- <-; simpl.
  - done.
  - by rewrite answered_app, pending_drop_answers, app_nil_r.
Qed.

Lemma loop_step_tokens e inp nd alive ls eff :
  loop_step mp encode decode e inp nd alive = Some (ls, eff) →
  submitted [(e, inp)] ++ waiting (pending nd) ≡ₚ answered eff ++ owed ls.
Proof.
  destruct inp as [s| |data| |]; unfold submitted; simpl; intros Hs.
  - eapply continue_with_tokens; [exact Hs|]. intros nd1 eff1 res Hh.
    unfold handle_submission in Hh. destruct (pending_insert _ _ _) as [m eff0] eqn:Hi.
    destruct (publish_if_ok _) as [[[nd2 eff2] res2]|] eqn:Hp; [|done]. simpl in Hh.
    injection Hh as <- <- <-. apply publish_if_ok_tokens in Hp as (nd3 & Ha & E & _).
    apply after_protocol_tokens in Ha. simpl in Ha. apply pending_insert_tokens in Hi.
    rewrite <- Hi, Ha, answered_app, E. by rewrite (Permutation_app_comm _ (answered eff0)), app_assoc.
  - injection Hs as <- <-. simpl. by rewrite pending_drop_answers, app_nil_r.
  - destruct alive; [|injection Hs as <- <-; done].
    eapply continue_with_tokens; [exact Hs|]. intros ? ? ?. apply handle_incoming_tokens.
  - destruct alive; [|injection Hs as <- <-; done].
    destruct (_ && _); injection Hs as <- <-; simpl; [|done].
    by rewrite pending_drop_answers, app_nil_r.
  - eapply continue_with_tokens; [exact Hs|]. intros nd1 eff1 res Hh.
    unfold handle_retries in Hh. apply publish_if_ok_tokens in Hh as (nd2 & Ha & E & _).
    rewrite E. by eapply after_protocol_tokens.
Qed.

(** The inputs the loop takes: up to and including the one it returns on. *)
Definition loop_takes (ins : list (NEnv * Input V B)) nd alive (ls : LoopState (V:=V) (PS:=PS) (RS:=RS))
    (eff : Eff) : Prop :=
  loop mp encode decode ins nd alive = Some (ls, eff) ∧
  ∀ h x, h ++ [x] `prefix_of` ins →
    ∃ nd' b eff', loop mp encode decode h nd alive = Some (Running nd' b, eff').

Lemma loop_takes_one e inp nd alive nd1 r eff :
  loop_step mp encode decode e inp nd alive = Some (Returned nd1 r, eff) →
  loop_takes [(e, inp)] nd alive (Returned nd1 r) eff.
Proof.
  intros Hs. split; [simpl; by rewrite Hs|]. intros h x [k Hk].
  destruct h as [|y h]; [simpl; eauto|]. apply (f_equal length) in Hk. simpl in Hk.
  rewrite !length_app in Hk. simpl in Hk. lia.
Qed.

Lemma loop_takes_cons e inp ins nd alive nd1 alive1 eff1 ls eff :
  loop_step mp encode decode e inp nd alive = Some (Running nd1 alive1, eff1) →
  loop_takes ins nd1 alive1 ls eff → loop_takes ((e, inp) :: ins) nd alive ls (eff1 ++ eff).
Proof.
  intros Hs [Hl Hh]. split; [simpl; rewrite Hs; simpl; by rewrite Hl|].
  intros [|y h] x Hp; [simpl; eauto|]. simpl in Hp.
  pose proof (prefix_cons_inv_1 _ _ _ _ Hp) as ->. apply prefix_cons_inv_2 in Hp.
  destruct (Hh _ _ Hp) as (nd' & b & eff' & Hr). simpl. rewrite Hs. simpl. rewrite Hr. simpl. eauto.
Qed.

Lemma loop_tokens ins nd alive ls eff :
  loop mp encode decode ins nd alive = Some (ls, eff) →
  ∃ handled rest, ins = handled ++ rest ∧ loop_takes handled nd alive ls eff ∧
    submitted handled ++ waiting (pending nd) ≡ₚ answered eff ++ owed ls ∧
    (∀ nd' b, ls = Running nd' b → rest = []).
Proof.
  revert nd alive eff. induction ins as [|[e inp] ins IH]; simpl; intros nd alive eff.
  { intros [= <- <-]. exists [], []. split_and!; try done. split; [done|].
    intros h x [k Hk]. apply (f_equal length) in Hk. rewrite !length_app in Hk. simpl in Hk. lia. }
  destruct (loop_step _ _ _ _ _ _ _) as [[ls1 eff1]|] eqn:Hs; [|done]. simpl.
  pose proof (loop_step_tokens _ _ _ _ _ _ Hs) as Htok. destruct ls1 as [nd1 alive1|nd1 r].
  - destruct (loop _ _ _ _ _ _) as [[ls2 eff2]|] eqn:Hl; [|done]. simpl. intros [= <- <-].
    apply IH in Hl as (h & rest & -> & Ht & Hp & Hr). exists ((e, inp) :: h), rest.
    split_and!; [done|by eapply loop_takes_cons| |done]. rewrite answered_app, <- app_assoc, <- Hp.
    rewrite (app_assoc (answered eff1)), (Permutation_app_comm (answered eff1)), <- app_assoc.
    simpl in Htok. rewrite <- Htok, (app_assoc (submitted h)).
    change ((e, inp) :: h) with ([(e, inp)] ++ h). unfold submitted at 1. rewrite omap_app.
    by rewrite (Permutation_app_comm (omap _ [(e, inp)])), <- !app_assoc.
  - intros [= <- <-]. exists [(e, inp)], ins. split_and!; try done. by apply loop_takes_one.
Qed.

(** C26. Every caller is answered exactly once: whatever a node is fed and
    however its run ends (handles dropped, transport lost, storage error), let
    [handled] be the inputs the loop has taken, that is all of them while it
    runs, and up to and including the one it returned on otherwise: running it
    on [handled] gives the same end and the same effects, and on every shorter
    prefix it is still running. Then the callers of the submissions among
    [handled] are, each once, those it has answered together with those still
    waiting; and none is left waiting when the loop has returned. *)
Theorem callers_answered_once e ins nd ls eff :
  run mp encode decode e ins nd = Some (ls, eff) →
  ∃ handled rest, ins = handled ++ rest ∧
    run mp encode decode e handled nd = Some (ls, eff) ∧
    (∀ h x, h ++ [x] `prefix_of` handled →
       ∃ nd' b eff', run mp encode decode e h nd = Some (Running nd' b, eff')) ∧
    submitted handled ≡ₚ answered eff ++ owed ls ∧
    (∀ nd' b, ls = Running nd' b → rest = []).
Proof.
  unfold run. destruct (impl_recover e (protocol nd)) as [[i [[]|er]]|]; [| |done]; simpl.
  - intros (h & rest & -> & [Ht Hh] & Hp & Hr)%loop_tokens. exists h, rest. split_and!; try done.
    simpl in Hp. unfold waiting in Hp at 1. by rewrite map_to_list_empty, app_nil_r in Hp.
  - intros [= <- <-]. exists [], ins. split_and!; try done.
    intros h x [k Hk]. apply (f_equal length) in Hk. rewrite !length_app in Hk. simpl in Hk. lia.
Qed.

(** ** What an answer says *)

(** Entry [k] of the pending map is the one decision [x] answers. *)
Definition answers_entry (x : Decision (Pending V)) (k : N) (en : PendingEntry V) : Prop :=
  k = nonce (d_value x) ∨ (nonce (d_value x) = 0%N ∧ pe_value en = pvalue (d_value x)).

Lemma remove_for_decision_entry x m m1 tok :
  remove_for_decision (nonce (d_value x)) (pvalue (d_value x)) m = (m1, tok) →
  m1 ⊆ m ∧ ∀ t, tok = Some t →
    ∃ k en, m !! k = Some en ∧ completion en = t ∧ answers_entry x k en.
Proof.
  unfold remove_for_decision, remove_nonce, answers_entry.
  destruct (nonce (d_value x) =? 0)%N eqn:Hz; simpl.
  - apply N.eqb_eq in Hz. destruct (list_find _ _) as [[i [k en]]|] eqn:Hf.
    + apply list_find_Some in Hf as (Hk & He & _). simpl in He.
      apply list_elem_of_lookup_2, elem_of_map_to_list in Hk. intros [= <- <-].
      split; [apply delete_subseteq|]. rewrite Hk. intros t [= <-]. exists k, en. auto.
    + by intros [= <- <-].
  - intros [= <- <-]. split; [apply delete_subseteq|]. intros t Ht.
    apply fmap_Some in Ht as (en & Hk & ->). eauto 6.
Qed.

Lemma process_each_answers ds nd nd1 eff :
  process_each ds nd = (nd1, eff) →
  pending nd1 ⊆ pending nd ∧ ∀ t r, EffComplete t r ∈ eff →
    ∃ x k en, x ∈ ds ∧ r = Ok (mkDecided (d_slot x) (pvalue (d_value x))) ∧
      pending nd !! k = Some en ∧ completion en = t ∧ answers_entry x k en.
Proof.
  revert nd eff. induction ds as [|x ds IH]; simpl; intros nd eff.
  { intros [= <- <-]. split; [done|]. by intros ? ? ?%elem_of_nil. }
  unfold process_decision.
  destruct (remove_for_decision _ _ _) as [m tok] eqn:Hm.
  destruct (try_send _ _ _) as [ch sent].
  destruct (process_each ds _) as [nd2 eff2] eqn:Hp. intros [= <- <-].
  apply remove_for_decision_entry in Hm as [Hsub Hm]. apply IH in Hp as [Hsub' Hp]. simpl in *.
  split; [by etrans|]. intros t r. rewrite !elem_of_app. intros [[He|He]|He].
  - destruct tok as [t'|]; [|by apply elem_of_nil in He].
    apply list_elem_of_singleton in He as [= -> ->].
    destruct (Hm _ eq_refl) as (k & en & ? & ? & ?). exists x, k, en.
    split_and!; try done. by apply elem_of_cons; left.
  - destruct sent; [|by apply elem_of_nil in He]. by apply list_elem_of_singleton in He.
  - destruct (Hp _ _ He) as (y & k & en & Hy & -> & Hk & ? & ?). exists y, k, en.
    split_and!; try done; [by apply elem_of_cons; right|]. by eapply lookup_weaken.
Qed.

(** C27. An answer is a decision: while a node processes its decisions, a
    caller is answered only by a decision the protocol has just stored
    successfully, with that decision's slot and value, and only if the
    decision carries the nonce the caller's proposal was registered under
    (or, for a decision without a nonce, the very value proposed). *)
Theorem answers_are_stored_decisions nd nd1 eff res t r :
  process_decisions nd = (nd1, eff, res) → EffComplete t r ∈ eff →
  ∃ ds x k en, (impl_drain_decisions (protocol nd)).2 = Ok ds ∧ x ∈ ds ∧
    r = Ok (mkDecided (d_slot x) (pvalue (d_value x))) ∧
    pending nd !! k = Some en ∧ completion en = t ∧ answers_entry x k en.
Proof.
  unfold process_decisions. destruct (impl_drain_decisions (protocol nd)) as [i [ds|er]]; simpl.
  - destruct (process_each ds _) as [nd2 eff2] eqn:Hp. intros [= <- <- <-] He.
    destruct (process_each_answers _ _ _ _ Hp) as [_ Ha].
    destruct (Ha _ _ He) as (x & k & en & ? & ? & ? & ? & ?). exists ds, x, k, en. done.
  - intros [= <- <- <-]. by intros ?%elem_of_nil.
Qed.

(** ** The published state *)

Lemma publish_if_ok_published r nd1 eff :
  publish_if_ok r = Some (nd1, eff, Ok tt) → state nd1 = compute_state nd1.
Proof.
  unfold publish_if_ok. destruct r as [[[nd0 eff0] [u|er]]|]; [|done..]. by intros [= <- <-].
Qed.

(** What a node publishes is its current state, at every turn of the loop. *)
Lemma loop_step_published e inp nd alive nd1 alive1 eff :
  loop_step mp encode decode e inp nd alive = Some (Running nd1 alive1, eff) →
  state nd = compute_state nd → state nd1 = compute_state nd1.
Proof.
  destruct inp as [s| |data| |]; simpl; unfold continue_with; intros Hs Hpub.
  - destruct (handle_submission _ _ _ _ _) as [[[nd2 eff2] [[]|er]]|] eqn:Hh; [|done..].
    simpl in Hs. injection Hs as <- <- <-. unfold handle_submission in Hh. simpl in Hh.
    destruct (publish_if_ok _) as [[[nd3 eff3] res3]|] eqn:Hp; [|done]. simpl in Hh.
    injection Hh as <- <- ->. by eapply publish_if_ok_published.
  - done.
  - destruct alive; [|by injection Hs as <- <- <-].
    destruct (handle_incoming_bytes _ _ _ _ _ _) as [[[nd2 eff2] [[]|er]]|] eqn:Hh; [|done..].
    simpl in Hs. injection Hs as <- <- <-. unfold handle_incoming_bytes in Hh.
    destruct (decode data); [|by injection Hh as <- <-].
    destruct (after_protocol _ _ _) as [[[nd3 eff3] [[]|er]]|]; [|done..]. simpl in Hh.
    destruct (impl_take_lost_proposals _) as [i lost].
    destruct (publish_if_ok _) as [[[nd4 eff4] res4]|] eqn:Hp; [|done]. simpl in Hh.
    injection Hh as <- <- ->. by eapply publish_if_ok_published.
  - destruct alive; [|by injection Hs as <- <- <-].
    destruct (_ && _); [done|]. by injection Hs as <- <- <-.
  - destruct (handle_retries _ _ _ _) as [[[nd2 eff2] [[]|er]]|] eqn:Hh; [|done..].
    simpl in Hs. injection Hs as <- <- <-. by eapply publish_if_ok_published.
Qed.
End props.

(** ** Submitting a proposal *)
Section submit.
Context {V : Type}.
Implicit Types (ch : Channel (Submission V)).

Lemma live_nonce_nonzero draws n : live_nonce draws = Some n → n ≠ 0%N.
Proof.
  induction draws as [|d draws IH]; simpl; [done|].
  destruct (d =? 0)%N eqn:Hd; simpl; [done|]. intros [= ->]. by apply N.eqb_neq.
Qed.

(** The proposal queue: [NodeHandle::propose] keeps the queue within its
    capacity and never drops or reorders what is queued; it fails with
    [NotRunning] exactly when the event loop is gone, with [ChannelFull]
    exactly when the queue of a running loop is full, and otherwise queues
    the value under a nonce different from 0, the nonce of values that come
    back from storage. *)
Theorem propose_queue_bounded draws v tok ch ch1 r :
  length (queued ch) ≤ PROPOSAL_CHANNEL_CAPACITY →
  handle_propose draws v tok ch = Some (ch1, r) →
  length (queued ch1) ≤ PROPOSAL_CHANNEL_CAPACITY ∧ closed ch1 = closed ch ∧
  (r = Some NotRunning ↔ closed ch = true) ∧
  (r = Some ChannelFull ↔ closed ch = false ∧ length (queued ch) = PROPOSAL_CHANNEL_CAPACITY) ∧
  (r = None → ∃ n, n ≠ 0%N ∧ queued ch1 = queued ch ++ [mkSubmission (mkPending n v) tok]) ∧
  (r ≠ None → ch1 = ch).
Proof.
  intros Hlen. unfold handle_propose. destruct (live_nonce draws) as [n|] eqn:Hn; [|done].
  apply live_nonce_nonzero in Hn. simpl. unfold try_send.
  destruct (closed ch) eqn:Hc.
  { intros [= <- <-]. split_and!; try done; naive_solver. }
  case_bool_decide as Hf; intros [= <- <-]; simpl.
  - split_and!; try done; naive_solver lia.
  - split_and!; try done; [rewrite length_app; simpl; lia|naive_solver lia|].
    intros _. exists n. done.
Qed.
End submit.
