(* ===== verification/NodeCluster.v ===== *)
(** * Event loops over the network: the nodes refine the cluster

    [RaftNet.v] is a transition system over protocol objects. Here the nodes
    are whole event loops exchanging bytes, and every iteration of a loop is
    shown to be a sequence of steps of that system, so that its theorems hold
    of what nodes publish. *)

From S2P Require Import Prelude Types Network Storage Raft RaftLocal RaftEvents RaftDurable.
From S2P Require Import RaftNet RaftNetLemmas RaftElection RaftLogs RaftExec RaftSafety RaftFifo.
From S2P Require Import Paxos Protocol Node NodeProps.

Section iteration.
Context {V PS St B : Type} `{EqDecision V}.
Context `{PaxosStorage PS (Pending V), RaftStorageSpec St (Pending V)}.
Context (mp : bool).
Context (encode : Message (Pending V) → option B) (decode : B → option (Message (Pending V))).
Context (cluster : gset NodeId) (cfg : RaftConfig).
Abbreviation Nd := (NodeS V PS St).
Abbreviation Eff := (list (Effect V B)).
Implicit Types (σ : Net (Pending V) St) (nd : Nd) (eff : Eff) (p : RaftProtocol (Pending V) St).

(** What users see of a decision. *)
Definition public (x : Decision (Pending V)) : Decided V :=
  mkDecided (d_slot x) (pvalue (d_value x)).

(** [eff] tells a user that [d] was decided. *)
Definition tells eff (d : Decided V) : Prop :=
  EffDeliver d ∈ eff ∨ ∃ t, EffComplete t (Ok d) ∈ eff.

(** What a loop does of its own: events that are no message, and the steps
    between events. *)
Definition local_step (n : NodeId) σ σ' : Prop :=
  quiet_step cluster cfg n σ σ' ∨ ∃ ev, is_local ev = true ∧ event_step cluster n ev σ σ'.

(** What it does after it has received a message, or none. *)
Definition input_steps (n : NodeId) (recv : option (NodeId * RaftMessage (Pending V))) σ σ' : Prop :=
  match recv with
  | None => rtc (local_step n) σ σ'
  | Some (from, m) =>
      ∃ σ1, event_step cluster n (EvReceive from m) σ σ1 ∧ rtc (local_step n) σ1 σ'
  end.

(** The messages among the effects are packets, those to the same node in the
    same order. *)
Definition embeds (n : NodeId) eff (new : list (Packet (RaftMessage (Pending V)))) : Prop :=
  ∃ g : nat → nat,
    (∀ i to data, eff !! i = Some (EffSend to data) →
       ∃ m, encode (mkMessage n (WRaft m)) = Some data ∧ new !! g i = Some (mkPacket n to m)) ∧
    ∀ i j to d d', i < j → eff !! i = Some (EffSend to d) → eff !! j = Some (EffSend to d') → g i < g j.

(** Node [n] has gone from [σ] to [σ'] with the given effects: nobody else
    moved, what it sent is on the network, what it told users was delivered. *)
Record moves (n : NodeId) recv σ σ' (st : NodeStatus (Pending V) St) eff : Prop := {
  mv_steps : input_steps n recv σ σ';
  mv_nodes : nodes σ' = <[n := st]> (nodes σ);
  mv_packets : ∃ new, packets σ' = packets σ ++ new ∧ embeds n eff new;
  mv_delivered : delivered σ ⊆ delivered σ';
  mv_told d : tells eff d → ∃ x, (n, x) ∈ delivered σ' ∧ d = public x;
}.

Lemma embeds_none n eff new : (∀ to data, EffSend to data ∉ eff) → embeds n eff new.
Proof.
  intros Hn. exists id. split.
  - intros i to data Hi. by apply list_elem_of_lookup_2, Hn in Hi.
  - intros i j to d d' _ Hi. by apply list_elem_of_lookup_2, Hn in Hi.
Qed.

Lemma embeds_app n eff1 eff2 new1 new2 :
  embeds n eff1 new1 → embeds n eff2 new2 → embeds n (eff1 ++ eff2) (new1 ++ new2).
Proof.
  intros (g1 & L1 & O1) (g2 & L2 & O2).
  exists (λ i, if decide (i < length eff1) then g1 i else length new1 + g2 (i - length eff1)).
  assert (∀ i to d, i < length eff1 → (eff1 ++ eff2) !! i = Some (EffSend to d) →
    eff1 !! i = Some (EffSend to d)) as Hl by (intros i to d Hi; by rewrite lookup_app_l).
  assert (∀ i to d, ¬ i < length eff1 → (eff1 ++ eff2) !! i = Some (EffSend to d) →
    eff2 !! (i - length eff1) = Some (EffSend to d)) as Hr
    by (intros i to d Hi; by rewrite lookup_app_r by lia).
  split.
  - intros i to data Hi. destruct (decide (i < length eff1)) as [Hlt|Hge].
    + destruct (L1 _ _ _ (Hl _ _ _ Hlt Hi)) as (m & ? & Hm). exists m. split; [done|].
      rewrite lookup_app_l; [done|]. by eapply lookup_lt_Some.
    + destruct (L2 _ _ _ (Hr _ _ _ Hge Hi)) as (m & ? & Hm). exists m. split; [done|].
      rewrite lookup_app_r by lia. by replace (_ - _) with (g2 (i - length eff1)) by lia.
  - intros i j to d d' Hij Hi Hj.
    destruct (decide (i < length eff1)) as [Hli|Hgi], (decide (j < length eff1)) as [Hlj|Hgj]; [..|lia|].
    + eapply O1; [done|by apply Hl|by apply Hl].
    + destruct (L1 _ _ _ (Hl _ _ _ Hli Hi)) as (m & _ & Hm). apply lookup_lt_Some in Hm. lia.
    + assert (g2 (i - length eff1) < g2 (j - length eff1)); [|lia].
      eapply O2; [|by apply Hr|by apply Hr]. lia.
Qed.

Lemma embeds_sent n eff new to data :
  embeds n eff new → EffSend to data ∈ eff →
  ∃ m, encode (mkMessage n (WRaft m)) = Some data ∧ mkPacket n to m ∈ new.
Proof.
  intros (g & Hg & _) [i Hi]%list_elem_of_lookup_1. destruct (Hg _ _ _ Hi) as (m & ? & Hm).
  exists m. split; [done|]. by eapply list_elem_of_lookup_2.
Qed.

Lemma input_steps_trans n recv σ σ1 σ2 :
  input_steps n recv σ σ1 → input_steps n None σ1 σ2 → input_steps n recv σ σ2.
Proof.
  destruct recv as [[from m]|]; simpl; [|by etrans].
  intros (σ0 & He & Hl) Hl2. exists σ0. split; [done|by etrans].
Qed.

(** The message an event is the arrival of. *)
Definition received_of (ev : Event (Pending V)) : option (NodeId * RaftMessage (Pending V)) :=
  match ev with EvReceive from m => Some (from, m) | _ => None end.

Lemma event_input_steps n ev σ σ' :
  event_step cluster n ev σ σ' → input_steps n (received_of ev) σ σ'.
Proof.
  intros He. destruct ev as [v|from m|now]; simpl.
  - apply rtc_once. right. by exists (EvPropose v).
  - exists σ'. split; [done|apply rtc_refl].
  - apply rtc_once. right. by exists (EvTick now).
Qed.

Lemma tells_app eff eff' d : tells (eff ++ eff') d → tells eff d ∨ tells eff' d.
Proof. unfold tells. set_unfold. naive_solver. Qed.

Lemma moves_trans n recv σ σ1 σ2 st1 st2 eff1 eff2 :
  moves n recv σ σ1 st1 eff1 → moves n None σ1 σ2 st2 eff2 → moves n recv σ σ2 st2 (eff1 ++ eff2).
Proof.
  intros [S1 N1 (new1 & P1 & E1) D1 T1] [S2 N2 (new2 & P2 & E2) D2 T2]. split.
  - by eapply input_steps_trans.
  - by rewrite N2, N1, insert_insert_eq.
  - exists (new1 ++ new2). split; [by rewrite P2, P1, app_assoc|by apply embeds_app].
  - by etrans.
  - intros d [Ht|Ht]%tells_app; [|by apply T2].
    destruct (T1 _ Ht) as (x & ? & ?). eauto.
Qed.

(** No effect that tells anybody anything. *)
Definition silent eff : Prop :=
  (∀ to data, EffSend to data ∉ eff) ∧ ∀ d, ¬ tells eff d.

Lemma moves_silent n recv σ σ' st eff eff' :
  silent eff' → moves n recv σ σ' st eff → moves n recv σ σ' st (eff ++ eff').
Proof.
  intros [Hs Ht] [S1 N1 (new & P1 & E1) D1 T1]. split; try done.
  - exists new. split; [done|]. rewrite <- (app_nil_r new). apply embeds_app; [done|by apply embeds_none].
  - intros d [He|He]%tells_app; [by apply T1|]. by destruct (Ht d).
Qed.

Lemma tells_nil d : ¬ tells [] d.
Proof. by intros [?%elem_of_nil|[? ?%elem_of_nil]]. Qed.

Lemma moves_refl n σ p : nodes σ !! n = Some (Up p) → moves n None σ σ (Up p) [].
Proof.
  intros Hn. split; [apply rtc_refl|by rewrite insert_id| |done|by intros d ?%tells_nil].
  exists []. split; [by rewrite app_nil_r|]. apply embeds_none. by intros ? ? ?%elem_of_nil.
Qed.

(** Steps that only touch node [n], for a loop that says nothing. *)
Lemma moves_quiet n recv σ st :
  input_steps n recv σ {| σ with nodes := <[n := st]> (nodes σ) |} →
  moves n recv σ {| σ with nodes := <[n := st]> (nodes σ) |} st [].
Proof.
  intros Hs. split; [done|done| |done|by intros d ?%tells_nil].
  exists []. split; [by rewrite app_nil_r|]. apply embeds_none. by intros ? ? ?%elem_of_nil.
Qed.

Lemma quiet_moves n σ st :
  quiet_step cluster cfg n σ {| σ with nodes := <[n := st]> (nodes σ) |} →
  moves n None σ {| σ with nodes := <[n := st]> (nodes σ) |} st [].
Proof. intros Hq. apply moves_quiet. apply rtc_once. by left. Qed.

(** The peers of a node of the cluster. *)
Definition member (n : NodeId) nd : Prop :=
  nd_id nd = n ∧ NoDup (senders nd) ∧ list_to_set (senders nd) = cluster ∖ {[ n ]}.

Lemma member_frame n nd nd1 :
  nd_id nd1 = nd_id nd → senders nd1 = senders nd → member n nd → member n nd1.
Proof. unfold member. by intros -> ->. Qed.

(** ** Sending and telling *)
Lemma member_peer n nd to : member n nd → to ∈ senders nd ↔ to ∈ cluster ∖ {[ n ]}.
Proof. intros (_ & _ & <-). by rewrite elem_of_list_to_set. Qed.

(** One message: at most one packet per peer. *)
Lemma send_one_embeds n nd o :
  member n nd → embeds n (send_one encode nd (wrap_raft o)) (packets_of cluster n [o]).
Proof.
  intros Hm. pose proof Hm as (<- & Hnd & _). unfold send_one. simpl.
  destruct (encode _) as [b|] eqn:He; [|apply embeds_none; by intros ? ? ?%elem_of_nil].
  unfold packets_of. simpl. rewrite app_nil_r. destruct (target o) as [d|].
  - case_bool_decide as Hd; [|apply embeds_none; by intros ? ? ?%elem_of_nil].
    apply (member_peer _ _ _ Hm) in Hd. rewrite bool_decide_eq_true_2 by done. exists (λ _, 0). split.
    + intros i to data Hi. destruct i; simplify_eq/=. eauto.
    + intros i j to x y Hij Hi Hj. destruct j; simplify_eq/=. lia.
  - exists (λ i, match senders nd !! i with
      | Some to => default 0 (fst <$> list_find (λ x, x = to) (elements (cluster ∖ {[nd_id nd]})))
      | None => 0 end). split.
    + intros i to data Hi. change (map ?f ?l) with (f <$> l) in Hi.
      rewrite list_lookup_fmap in Hi. destruct (senders nd !! i) as [to'|] eqn:Hs; simplify_eq/=.
      exists (message o). split; [done|].
      destruct (list_find_elem_of (λ x, x = to) (elements (cluster ∖ {[nd_id nd]})) to) as [[k x] Hk].
      * apply elem_of_elements, (member_peer _ _ _ Hm). by eapply list_elem_of_lookup_2.
      * done.
      * rewrite Hk. simpl. apply list_find_Some in Hk as (Hk & -> & _).
        change (map ?f ?l) with (f <$> l). by rewrite list_lookup_fmap, Hk.
    + intros i j to x y Hij Hi Hj. change (map ?f ?l) with (f <$> l) in Hi, Hj.
      rewrite list_lookup_fmap in Hi, Hj.
      destruct (senders nd !! i) eqn:Hsi, (senders nd !! j) eqn:Hsj; simplify_eq/=.
      pose proof (NoDup_lookup _ _ _ _ Hnd Hsi Hsj). lia.
Qed.

Lemma send_outgoing_embeds n nd out :
  member n nd → embeds n (send_outgoing encode nd (map wrap_raft out)) (packets_of cluster n out).
Proof.
  intros Hm. induction out as [|o out IH]; [apply embeds_none; by intros ? ? ?%elem_of_nil|].
  assert (packets_of cluster n (o :: out) = packets_of cluster n [o] ++ packets_of cluster n out) as ->
    by (unfold packets_of; simpl; by rewrite app_nil_r).
  apply (embeds_app n (send_one encode nd (wrap_raft o))); [by apply send_one_embeds|done].
Qed.

Lemma send_outgoing_mute d nd out :
  ¬ tells (EffFlush :: send_outgoing encode nd out) d.
Proof.
  assert (∀ x, x ∈ send_outgoing encode nd out → ∃ to data, x = EffSend to data) as Hall.
  { intros x. unfold send_outgoing. rewrite list_elem_of_In, in_flat_map.
    intros (o & _ & Hin). unfold send_one in Hin. destruct (encode _); [|done].
    destruct (target o) as [t|].
    - case_bool_decide; [|done]. destruct Hin as [<-|[]]. eauto.
    - apply in_map_iff in Hin as (t & <- & _). eauto. }
  intros [Hd|[t Hd]]; apply elem_of_cons in Hd as [|Hd]; try done;
    by destruct (Hall _ Hd) as (? & ? & ?).
Qed.

Lemma process_each_frame ds nd nd1 eff :
  process_each ds nd = (nd1, eff) →
  protocol nd1 = protocol nd ∧ nd_id nd1 = nd_id nd ∧ senders nd1 = senders nd ∧
  (∀ to data, EffSend to data ∉ eff) ∧ (∀ d, tells eff d → ∃ x, x ∈ ds ∧ d = public x).
Proof.
  revert nd eff. induction ds as [|x ds IH]; simpl; intros nd eff.
  { intros [= <- <-]. split_and!; [done..| |].
    - by intros ? ? ?%elem_of_nil.
    - by intros d [?%elem_of_nil|[? ?%elem_of_nil]]. }
  unfold process_decision. destruct (remove_for_decision _ _ _) as [m tok].
  destruct (try_send _ _ _) as [ch sent].
  destruct (process_each ds _) as [nd2 eff2] eqn:Hp. intros [= <- <-].
  apply IH in Hp as (? & ? & ? & Hs & Ht). split_and!; [done..| |].
  - intros to data. rewrite !elem_of_app. intros [[He|He]|He]; [..|by eapply Hs].
    + destruct tok; set_solver.
    + destruct sent; set_solver.
  - intros d [[Hd|Hd]%tells_app|Hd]%tells_app.
    + exists x. split; [set_solver|]. destruct Hd as [Hd|[t Hd]], tok; set_solver.
    + exists x. split; [set_solver|]. destruct Hd as [Hd|[t Hd]], sent; set_solver.
    + destruct (Ht _ Hd) as (y & ? & ->). exists y. split; [set_solver|done].
Qed.

(** ** One call of the protocol *)

(** Where a handler leaves node [n]: up, or down with the storage it had when
    an error ended it. *)
Definition status_after (res : Result unit NodeError) p : NodeStatus (Pending V) St :=
  match res with Ok _ => Up p | Err _ => Down (storage p) end.

Definition handled (n : NodeId) recv σ nd1 eff (res : Result unit NodeError) : Prop :=
  ∃ σ' p1, moves n recv σ σ' (status_after res p1) eff ∧
    protocol nd1 = IRaft p1 ∧ member n nd1.

(** Saving the decisions after the flush, and what the loop tells of them. *)
Lemma deciding_moves n nd nd' p e ev p1 out p2 effd dr σ :
  nodes σ !! n = Some (Up p) → member n nd → protocol nd = IRaft p2 →
  run_event e ev p = Some (p1, out) → flush_persist p1 = Some (p2, Ok tt) →
  process_decisions nd = (nd', effd, dr) →
  handled n (received_of ev) σ nd' (EffFlush :: send_outgoing encode nd (map wrap_raft out) ++ effd) dr.
Proof.
  intros Hn Hm Hp2 Hr Hf. unfold process_decisions. rewrite Hp2. simpl.
  assert (∀ effd : Eff, (∀ to data, EffSend to data ∉ effd) →
    embeds n (EffFlush :: send_outgoing encode nd (map wrap_raft out) ++ effd)
      (packets_of cluster n out)) as Hemb.
  { intros eff' Hns. change (EffFlush :: ?l) with ([EffFlush] ++ l).
    rewrite <- (app_nil_r (packets_of cluster n out)).
    apply (embeds_app _ [EffFlush] _ []); [apply embeds_none; set_solver|].
    apply embeds_app; [by apply send_outgoing_embeds|by apply embeds_none]. }
  pose proof (λ d, send_outgoing_mute d nd (map wrap_raft out)) as Hmute.
  destruct (drain_decisions p2) as [p3 [ds|er]] eqn:Hd; simpl.
  - destruct (process_each ds _) as [nd3 eff3] eqn:Hp. intros [= <- <- <-].
    apply process_each_frame in Hp as (Hpr & Hid & Hse & Hns & Ht). simpl in *.
    eexists _, p3. split; [split|split; [done|by eapply member_frame]].
    + eapply event_input_steps. by eapply ev_done.
    + done.
    + eexists. split; [reflexivity|by apply Hemb].
    + simpl. set_solver.
    + intros d [Hd'|Hd']%(tells_app (_ :: _)); [by destruct (Hmute d)|].
      destruct (Ht _ Hd') as (x & Hx & ->). exists x. split; [|done]. simpl.
      apply elem_of_app. right. by apply (list_elem_of_fmap_2 (pair n)).
  - intros [= <- <- <-]. eexists _, p3. split; [split|split; [done|exact Hm]].
    + eapply event_input_steps. eapply (ev_crash_deciding cluster n ev σ p e p1 out p2
        (length (pending_decisions p2)) (storage p3) (Err er)); try done.
      rewrite take_ge by done. unfold drain_decisions in Hd. simpl in Hd.
      rewrite save_decisions_writes in Hd. destruct (do_writes _ _) as [s [[]|er']]; [done|].
      by injection Hd as <- ->.
    + done.
    + eexists. split; [reflexivity|]. apply Hemb. by intros ? ? ?%elem_of_nil.
    + done.
    + rewrite app_nil_r. intros d Hd'. by destruct (Hmute d).
Qed.

Lemma after_protocol_moves n nd nd1 p e ev eff res σ :
  nodes σ !! n = Some (Up p) → member n nd →
  after_protocol encode (of_raft (run_event e ev p)) nd = Some (nd1, eff, res) →
  handled n (received_of ev) σ nd1 eff res.
Proof.
  intros Hn Hm. unfold after_protocol, of_raft.
  destruct (run_event e ev p) as [[p1 out]|] eqn:Hr; [|done]. simpl.
  destruct (flush_persist p1) as [[p2 [[]|er]]|] eqn:Hf; [| |done]; simpl.
  - destruct (process_decisions _) as [[nd' effd] dr] eqn:Hd. intros [= <- <- <-].
    by eapply deciding_moves.
  - intros [= <- <- <-]. apply flush_shape in Hf as (s & Hw & ->).
    exists {| σ with nodes := <[n := Down s]> (nodes σ) |}, (drained p1 s).
    split; [|split; [done|exact Hm]]. apply moves_quiet, event_input_steps.
    eapply (ev_crash_flushing _ _ _ _ _ _ _ _ (length (intent_writes p1))); try done.
    by rewrite take_ge.
Qed.

(** The network relation of an iteration only depends on these fields. *)
Lemma handled_publish n recv σ nd nd1 eff res :
  protocol nd1 = protocol nd → nd_id nd1 = nd_id nd → senders nd1 = senders nd →
  handled n recv σ nd eff res → handled n recv σ nd1 eff res.
Proof.
  intros E1 E2 E3 (σ' & p1 & Hmv & Hp & Hm). exists σ', p1. split; [done|].
  split; [congruence|by eapply member_frame].
Qed.

Lemma publish_if_ok_handled n recv σ r nd1 eff res :
  publish_if_ok r = Some (nd1, eff, res) →
  (∀ nd0, r = Some (nd0, eff, res) → handled n recv σ nd0 eff res) → handled n recv σ nd1 eff res.
Proof.
  unfold publish_if_ok. destruct r as [[[nd0 eff0] res0]|]; [|done]. simpl.
  intros [= <- <- <-] Hh. eapply handled_publish; [..|by apply Hh]; by destruct res0.
Qed.

Lemma handled_seq n recv σ σ1 st1 nd2 eff1 eff2 res :
  moves n recv σ σ1 st1 eff1 → handled n None σ1 nd2 eff2 res → handled n recv σ nd2 (eff1 ++ eff2) res.
Proof.
  intros Hm1 (σ2 & p2 & Hm2 & ?). exists σ2, p2. split; [|done]. by eapply moves_trans.
Qed.

Lemma moves_up n recv σ σ' st eff : moves n recv σ σ' st eff → nodes σ' !! n = Some st.
Proof. intros Hmv. rewrite (mv_nodes _ _ _ _ _ _ Hmv). apply lookup_insert_eq. Qed.

Lemma repropose_moves n nd nd1 p e vs eff res σ :
  nodes σ !! n = Some (Up p) → protocol nd = IRaft p → member n nd →
  repropose mp encode e vs nd = Some (nd1, eff, res) → handled n None σ nd1 eff res.
Proof.
  revert σ nd p eff. induction vs as [|v vs IH]; simpl; intros σ nd p eff Hn Hp Hm.
  { intros [= <- <- <-]. exists σ, p. split; [by apply moves_refl|done]. }
  rewrite Hp. simpl.
  destruct (after_protocol _ _ _) as [[[nd2 eff2] res2]|] eqn:Ha; [|done]. simpl.
  apply (after_protocol_moves n nd nd2 p (raft_env e) (EvPropose v)) with (σ := σ) in Ha;
    [|done..].
  destruct res2 as [[]|er]; [|by intros [= <- <- <-]].
  destruct (repropose _ _ _ _ _) as [[[nd3 eff3] res3]|] eqn:Hr; [|done]. simpl.
  intros [= <- <- <-]. destruct Ha as (σ1 & p1 & Hmv & Hp1 & Hm1).
  eapply handled_seq; [done|]. eapply IH; [|done..]. by apply moves_up in Hmv.
Qed.

(** The bytes that reach a node are not a message, or a message of the
    protocol. *)
Definition input_ok (inp : Input V B) : Prop :=
  match inp with
  | InBytes data => ∀ msg, decode data = Some msg → ∃ m, variant msg = WRaft m
  | _ => True
  end.

Definition received (inp : Input V B) : option (NodeId * RaftMessage (Pending V)) :=
  match inp with
  | InBytes data => msg ← decode data;
      match variant msg with WRaft m => Some (sender msg, m) | _ => None end
  | _ => None
  end.

Lemma handle_incoming_moves n nd nd1 p e data eff res σ :
  nodes σ !! n = Some (Up p) → protocol nd = IRaft p → member n nd → input_ok (InBytes data) →
  handle_incoming_bytes mp encode decode e data nd = Some (nd1, eff, res) →
  handled n (received (InBytes data)) σ nd1 eff res.
Proof.
  intros Hn Hp Hm Hin. unfold handle_incoming_bytes. simpl in *.
  destruct (decode data) as [msg|].
  2: { intros [= <- <- <-]. exists σ, p. split; [by apply moves_refl|done]. }
  simpl. destruct (Hin _ eq_refl) as (m & ->). rewrite Hp. simpl.
  destruct (after_protocol _ _ _) as [[[nd2 eff2] res2]|] eqn:Ha; [|done]. simpl.
  apply (after_protocol_moves n nd nd2 p (raft_env e) (EvReceive (sender msg) m))
    with (σ := σ) in Ha; [|done..].
  destruct res2 as [[]|er]; [|by intros [= <- <- <-]].
  destruct Ha as (σ1 & p1 & Hmv & Hp1 & Hm1). rewrite Hp1. simpl.
  destruct (publish_if_ok _) as [[[nd3 eff3] res3]|] eqn:Hr; [|done]. simpl.
  intros [= <- <- <-]. eapply handled_seq; [done|]. pose proof (moves_up _ _ _ _ _ _ Hmv) as Hup.
  eapply publish_if_ok_handled; [exact Hr|]. intros nd0 Hre.
  change eff3 with ([] ++ eff3). eapply handled_seq.
  - apply quiet_moves. by apply qs_take_lost.
  - eapply repropose_moves with (4 := Hre); [apply lookup_insert_eq|done|exact Hm1].
Qed.

(** ** One iteration of the loop *)
Definition loop_node (ls : LoopState (V:=V) (PS:=PS) (RS:=St)) : Nd :=
  match ls with Running nd _ => nd | Returned nd _ => nd end.
Definition loop_status (ls : LoopState (V:=V) (PS:=PS) (RS:=St)) p : NodeStatus (Pending V) St :=
  match ls with Running _ _ => Up p | Returned _ _ => Down (storage p) end.

Definition iterated (n : NodeId) recv σ (ls : LoopState (V:=V) (PS:=PS) (RS:=St)) eff : Prop :=
  ∃ σ' p1, moves n recv σ σ' (loop_status ls p1) eff ∧
    protocol (loop_node ls) = IRaft p1 ∧ member n (loop_node ls).

Lemma cancelled_silent ts : silent (map (λ t, EffComplete t (Err Cancelled)) ts).
Proof.
  assert (∀ x, x ∈ map (λ t, EffComplete (V:=V) (B:=B) t (Err Cancelled)) ts →
    ∃ t, x = EffComplete t (Err Cancelled)) as Hall.
  { intros x. rewrite list_elem_of_In, in_map_iff. intros (t & <- & _). eauto. }
  split.
  - intros to data Hin. by destruct (Hall _ Hin).
  - intros d [Hin|[t Hin]]; by destruct (Hall _ Hin).
Qed.

Lemma pending_drop_silent m : silent (pending_drop m).
Proof.
  unfold pending_drop.
  rewrite <- (map_map (λ kv, completion kv.2) (λ t, EffComplete t (Err Cancelled))).
  apply cancelled_silent.
Qed.

Lemma pending_insert_silent pv tok m : silent (pending_insert (V:=V) (B:=B) pv tok m).2.
Proof.
  simpl. destruct (m !! nonce pv) as [old|].
  - apply (cancelled_silent [completion old]).
  - apply (cancelled_silent []).
Qed.

Lemma continue_with_moves n recv σ alive r ls eff :
  (∀ nd1 eff1 res, r = Some (nd1, eff1, res) → handled n recv σ nd1 eff1 res) →
  continue_with alive r = Some (ls, eff) → iterated n recv σ ls eff.
Proof.
  unfold continue_with. destruct r as [[[nd1 eff1] res]|]; [|done]. simpl.
  intros Hh. destruct (Hh _ _ _ eq_refl) as (σ' & p1 & Hmv & Hp & Hm).
  destruct res as [[]|er]; intros [= <- <-]; exists σ', p1; split; try done.
  apply moves_silent; [apply pending_drop_silent|done].
Qed.

Lemma stop_moves n nd p eff r σ :
  nodes σ !! n = Some (Up p) → protocol nd = IRaft p → member n nd → silent eff →
  iterated n None σ (Returned nd r) eff.
Proof.
  intros Hn Hp Hm Hs. eexists _, p. split; [|done]. simpl. change eff with ([] ++ eff).
  apply moves_silent; [done|]. apply quiet_moves. by apply qs_crash.
Qed.

(** An iteration of the loop of a Raft node that stands at node [n] of the
    cluster (a submission, bytes that are no message or a message of the
    protocol, a transport error, a tick, the shutdown) is a sequence of steps
    that moves only [n], starting with the arrival of the message if one is
    handled: the protocol the loop goes on with is [n]'s new state, or, if
    the loop returned, [n] is down with its storage; every message it sent
    is a packet of [n] on the network, and everything it told a caller or
    the decision channel was delivered by [n]. *)
Lemma loop_step_refines n nd p e inp alive ls eff σ :
  nodes σ !! n = Some (Up p) → protocol nd = IRaft p → member n nd → input_ok inp →
  loop_step mp encode decode e inp nd alive = Some (ls, eff) →
  iterated n (received inp) σ ls eff ∨ iterated n None σ ls eff.
Proof.
  intros Hn Hp Hm Hin. assert (∀ b, iterated n None σ (Running nd b) []) as Hstay.
  { intros b. exists σ, p. split; [by apply moves_refl|done]. }
  destruct inp as [s| |data| |].
  - intros Hl. right. revert Hl. simpl.
    apply continue_with_moves. intros nd1 eff1 res. unfold handle_submission. simpl.
    destruct (publish_if_ok _) as [[[nd2 eff2] res2]|] eqn:Hr; [|done]. simpl.
    intros [= <- <- <-]. eapply handled_seq.
    + apply (moves_silent n None σ σ (Up p) [] _
        (pending_insert_silent (s_pending s) (s_completion s) (pending nd))). by apply moves_refl.
    + eapply publish_if_ok_handled; [exact Hr|]. intros nd0. rewrite Hp. simpl.
      by apply (after_protocol_moves n _ nd0 p (raft_env e) (EvPropose (s_pending s))).
  - intros [= <- <-]. right. eapply stop_moves; eauto using pending_drop_silent.
  - intros Hl. simpl in Hl. destruct alive; [|injection Hl as <- <-; right; apply Hstay].
    left. revert Hl.
    apply continue_with_moves. intros nd1 eff1 res. by apply handle_incoming_moves with (p := p).
  - simpl. intros Hl. right. revert Hl. destruct alive; [|intros [= <- <-]; apply Hstay].
    destruct (_ && _); intros [= <- <-]; [|apply Hstay].
    eapply stop_moves; eauto using pending_drop_silent.
  - intros Hl. right. revert Hl. simpl.
    apply continue_with_moves. intros nd1 eff1 res Hr. unfold handle_retries in Hr.
    eapply publish_if_ok_handled; [exact Hr|]. intros nd0. rewrite Hp. simpl.
    by apply (after_protocol_moves n _ nd0 p (raft_env e) (EvTick (ne_now e))).
Qed.

(** ** A kill inside an iteration *)

(** A call of the protocol, cut short by the end of the process: while its
    intent is being written, while its messages go out, while its decisions are
    being saved, or while callers and the decision channel are told of them.
    The arguments are what is left in storage and what was done before. *)
Inductive cut_call (r : option (ProtocolImpl (Pending V) PS St * list (Outgoing (WireVariant (Pending V)))))
    nd : St → Eff → Prop :=
| cut_flushing p1 out k s res :
    r = Some (IRaft p1, out) →
    do_writes (take k (intent_writes p1)) (storage p1) = (s, res) → cut_call r nd s []
| cut_sending p1 out p2 eff :
    r = Some (IRaft p1, out) → flush_persist p1 = Some (p2, Ok tt) →
    eff `prefix_of` EffFlush :: send_outgoing encode nd out → cut_call r nd (storage p2) eff
| cut_deciding p1 out p2 k s res :
    r = Some (IRaft p1, out) → flush_persist p1 = Some (p2, Ok tt) →
    do_writes (decision_writes (take k (pending_decisions p2))) (storage p2) = (s, res) →
    cut_call r nd s (EffFlush :: send_outgoing encode nd out)
| cut_telling p1 out p2 nd1 p3 effd eff :
    r = Some (IRaft p1, out) → flush_persist p1 = Some (p2, Ok tt) →
    process_decisions {| nd with protocol := IRaft p2 |} = (nd1, effd, Ok tt) →
    protocol nd1 = IRaft p3 → eff `prefix_of` effd →
    cut_call r nd (storage p3) (EffFlush :: send_outgoing encode nd out ++ eff).

(** The loop that proposes lost values again, cut in one of its calls. *)
Inductive cut_repropose (e : NEnv) : list (Pending V) → Nd → St → Eff → Prop :=
| cut_here v vs nd s eff :
    cut_call (impl_propose mp e v (protocol nd)) nd s eff → cut_repropose e (v :: vs) nd s eff
| cut_later v vs nd nd1 eff1 s eff :
    after_protocol encode (impl_propose mp e v (protocol nd)) nd = Some (nd1, eff1, Ok tt) →
    cut_repropose e vs nd1 s eff → cut_repropose e (v :: vs) nd s (eff1 ++ eff).

(** An iteration, cut in one of the calls its handler makes. *)
Inductive cut_step (e : NEnv) nd : Input V B → bool → St → Eff → Prop :=
| cut_submission sub alive m eff0 s eff :
    pending_insert (s_pending sub) (s_completion sub) (pending nd) = (m, eff0) →
    cut_call (impl_propose mp e (s_pending sub) (protocol nd)) {| nd with pending := m |} s eff →
    cut_step e nd (InSubmit sub) alive s (eff0 ++ eff)
| cut_message data msg s eff :
    decode data = Some msg →
    cut_call (handle_wire_message mp e (sender msg) (variant msg) (protocol nd)) nd s eff →
    cut_step e nd (InBytes data) true s eff
| cut_lost data msg nd1 eff1 i lost s eff :
    decode data = Some msg →
    after_protocol encode (handle_wire_message mp e (sender msg) (variant msg) (protocol nd)) nd =
      Some (nd1, eff1, Ok tt) →
    impl_take_lost_proposals (protocol nd1) = (i, lost) →
    cut_repropose e lost {| nd1 with protocol := i |} s eff →
    cut_step e nd (InBytes data) true s (eff1 ++ eff)
| cut_tick alive s eff :
    cut_call (impl_on_tick mp e (protocol nd)) nd s eff → cut_step e nd InTick alive s eff.

Lemma embeds_prefix n eff eff' new : eff `prefix_of` eff' → embeds n eff' new → embeds n eff new.
Proof.
  intros Hp (g & L & O). exists g. split.
  - intros i to data Hi. eapply L, prefix_lookup_Some; [exact Hi|exact Hp].
  - intros i j to d d' Hij Hi Hj.
    eapply O; [exact Hij|eapply prefix_lookup_Some; [exact Hi|exact Hp]
      |eapply prefix_lookup_Some; [exact Hj|exact Hp]].
Qed.

Lemma moves_prefix n recv σ σ' st eff eff' :
  eff `prefix_of` eff' → moves n recv σ σ' st eff' → moves n recv σ σ' st eff.
Proof.
  intros Hp [S1 N1 (new & P1 & E1) D1 T1]. split; try done.
  - exists new. split; [done|by eapply embeds_prefix].
  - intros d Hd. apply T1. destruct Hp as [k ->]. unfold tells in *. set_solver.
Qed.

(** What follows a complete move: the node stops. *)
Lemma moves_stop n recv σ σ' p eff :
  moves n recv σ σ' (Up p) eff → ∃ σ2, moves n recv σ σ2 (Down (storage p)) eff.
Proof.
  intros Hmv. pose proof (moves_up _ _ _ _ _ _ Hmv) as Hup.
  eexists. rewrite <- (app_nil_r eff). eapply moves_trans; [exact Hmv|]. apply quiet_moves. by apply qs_crash.
Qed.

Lemma cut_call_moves n nd p e ev s eff σ :
  nodes σ !! n = Some (Up p) → member n nd → cut_call (of_raft (run_event e ev p)) nd s eff →
  ∃ σ', moves n (received_of ev) σ σ' (Down s) eff.
Proof.
  intros Hn Hm Hc. unfold of_raft in Hc.
  destruct (run_event e ev p) as [[p1 out]|] eqn:Hr; [|by destruct Hc]. simpl in Hc.
  assert (∀ p2 k s' res, flush_persist p1 = Some (p2, Ok tt) →
    do_writes (decision_writes (take k (pending_decisions p2))) (storage p2) = (s', res) →
    moves n (received_of ev) σ {| nodes := <[n := Down s']> (nodes σ);
      packets := packets σ ++ packets_of cluster n out; delivered := delivered σ |}
      (Down s') (EffFlush :: send_outgoing encode nd (map wrap_raft out))) as Hdeciding.
  { intros p2 k s' res Hf Hw. split; [|done| |done|].
    - eapply event_input_steps. by eapply ev_crash_deciding.
    - eexists. split; [reflexivity|]. change (EffFlush :: ?l) with ([EffFlush] ++ l).
      apply (embeds_app _ [EffFlush] _ []); [apply embeds_none; set_solver|by apply send_outgoing_embeds].
    - intros d Hd. by destruct (send_outgoing_mute d nd (map wrap_raft out)). }
  destruct Hc as [q1 o1 k s res [= <- <-] Hw|q1 o1 q2 eff [= <- <-] Hf Hp
    |q1 o1 q2 k s res [= <- <-] Hf Hw|q1 o1 q2 nd1 q3 effd eff [= <- <-] Hf Hpd Hp3 Hp].
  - eexists. apply moves_quiet, event_input_steps. by eapply ev_crash_flushing.
  - eexists. eapply moves_prefix; [exact Hp|]. by eapply (Hdeciding q2 0).
  - eexists. by eapply Hdeciding.
  - destruct (deciding_moves n {| nd with protocol := IRaft q2 |} nd1 p e ev p1 out q2 effd (Ok tt) σ)
      as (σ1 & p' & Hmv & Hp' & _); [done..|].
    assert (p' = q3) as -> by congruence. destruct (moves_stop _ _ _ _ _ _ Hmv) as [σ2 Hs].
    exists σ2. eapply moves_prefix; [|exact Hs]. destruct Hp as [k ->]. exists k.
    change (send_outgoing encode {| nd with protocol := IRaft q2 |}) with (send_outgoing encode nd).
    simpl. by rewrite <- app_assoc.
Qed.

Lemma cut_repropose_moves n nd p e vs s eff σ :
  nodes σ !! n = Some (Up p) → protocol nd = IRaft p → member n nd → cut_repropose e vs nd s eff →
  ∃ σ', moves n None σ σ' (Down s) eff.
Proof.
  intros Hn Hp Hm Hc. revert σ p Hn Hp Hm.
  induction Hc as [v vs nd s eff Hc|v vs nd nd1 eff1 s eff Ha _ IH]; intros σ p Hn Hp Hm.
  - rewrite Hp in Hc. by apply (cut_call_moves n nd p (raft_env e) (EvPropose v)) with (σ := σ) in Hc.
  - rewrite Hp in Ha.
    apply (after_protocol_moves n nd nd1 p (raft_env e) (EvPropose v)) with (σ := σ) in Ha
      as (σ1 & p1 & Hmv & Hp1 & Hm1); [|done..].
    destruct (IH σ1 p1) as [σ2 H2]; [by apply moves_up in Hmv|done..|].
    exists σ2. by eapply moves_trans.
Qed.

(** The steps of a cut iteration: those of the calls before, and of the cut
    one a crash of the network. *)
Lemma cut_step_moves n nd p e inp alive s eff σ :
  nodes σ !! n = Some (Up p) → protocol nd = IRaft p → member n nd → input_ok inp →
  cut_step e nd inp alive s eff → ∃ σ', moves n (received inp) σ σ' (Down s) eff.
Proof.
  intros Hn Hp Hm Hin Hc.
  destruct Hc as [sub alive m eff0 s eff Hi Hc|data msg s eff Hd Hc
    |data msg nd1 eff1 i lost s eff Hd Ha Hl Hc|alive s eff Hc]; rewrite Hp in *; simpl in Hin |- *.
  - apply (cut_call_moves n _ p (raft_env e) (EvPropose (s_pending sub))) with (σ := σ) in Hc
      as [σ1 Hcut]; [|done|exact Hm]. exists σ1.
    pose proof (pending_insert_silent (s_pending sub) (s_completion sub) (pending nd)) as Hs.
    rewrite Hi in Hs. eapply moves_trans; [|exact Hcut].
    apply (moves_silent n None σ σ (Up p) [] _ Hs). by apply moves_refl.
  - destruct (Hin _ Hd) as (m & Hv). rewrite Hd. simpl. rewrite Hv in Hc |- *.
    by apply (cut_call_moves n nd p (raft_env e) (EvReceive (sender msg) m)) with (σ := σ) in Hc.
  - destruct (Hin _ Hd) as (m & Hv). rewrite Hd. simpl. rewrite Hv in Ha |- *.
    apply (after_protocol_moves n nd nd1 p (raft_env e) (EvReceive (sender msg) m)) with (σ := σ) in Ha
      as (σ1 & p1 & Hmv & Hp1 & Hm1); [|done..].
    pose proof (moves_up _ _ _ _ _ _ Hmv) as Hup. rewrite Hp1 in Hl. simpl in Hl. injection Hl as <- Hlost.
    eapply (cut_repropose_moves n _ (take_lost_proposals p1).1 e lost s eff
      {| σ1 with nodes := <[n := Up (take_lost_proposals p1).1]> (nodes σ1) |}) in Hc as [σ2 Hcut];
      [|apply lookup_insert_eq|done|exact Hm1].
    exists σ2. eapply moves_trans; [exact Hmv|]. change eff with ([] ++ eff).
    eapply moves_trans; [|exact Hcut]. apply quiet_moves. by apply qs_take_lost.
  - by apply (cut_call_moves n nd p (raft_env e) (EvTick (ne_now e))) with (σ := σ) in Hc.
Qed.

(** Such steps are steps of the unordered network, if the message was sent. *)
Lemma local_step_step n σ σ' : local_step n σ σ' → step cluster cfg σ σ'.
Proof.
  intros [Hq|(ev & Hl & He)]; [by eapply quiet_step_step|].
  eapply event_step_step; [|done]. by destruct ev.
Qed.

Lemma input_steps_steps n recv σ σ' :
  (∀ from m, recv = Some (from, m) → mkPacket from n m ∈ packets σ) →
  input_steps n recv σ σ' → rtc (step cluster cfg) σ σ'.
Proof.
  intros Hen. assert (∀ σ σ', rtc (local_step n) σ σ' → rtc (step cluster cfg) σ σ') as Hl.
  { intros x y. apply rtc_subrel. apply local_step_step. }
  destruct recv as [[from m]|]; simpl; [|apply Hl].
  intros (σ1 & He & Hr). eapply rtc_l; [|by apply Hl].
  eapply event_step_step; [|done]. simpl. by apply Hen.
Qed.
End iteration.

(** ** A cluster of event loops *)

(** A host runs the event loop of its node, or only has its storage. *)
Inductive Host (V PS RS : Type) :=
| Live (nd : NodeS V PS (PendingRaftStorage V RS)) (receiver_alive : bool)
| Halted (s : RS).
Arguments Live {V PS RS}. Arguments Halted {V PS RS}.

(** The hosts and everything the loops have done. *)
Record Loops (V PS RS B : Type) := mkLoops {
  hosts : gmap NodeId (Host V PS RS);
  trace : list (NodeId * Effect V B);
}.
Arguments mkLoops {V PS RS B}. Arguments hosts {V PS RS B}. Arguments trace {V PS RS B}.

Section cluster.
Context {V PS RS B : Type} `{EqDecision V}.
Context `{PaxosStorage PS (Pending V), RaftStorageSpec RS V}.
Context (mp : bool).
Context (encode : Message (Pending V) → option B) (decode : B → option (Message (Pending V))).
Context (cluster : gset NodeId) (cfg : RaftConfig).
Implicit Types (C : Loops V PS RS B) (nd : NodeS V PS (PendingRaftStorage V RS)).

(** Bytes reach a node if they were sent to it, or if they are no message. *)
Definition arrives C (n : NodeId) (inp : Input V B) : Prop :=
  match inp with
  | InBytes data => decode data = None ∨ ∃ from, (from, EffSend n data) ∈ trace C
  | _ => True
  end.

(** The loop of host [n] handles an input. *)
Inductive iterates C (n : NodeId) (inp : Input V B) : Loops V PS RS B → Prop :=
| it_running nd alive e nd1 alive1 eff :
    hosts C !! n = Some (Live nd alive) →
    loop_step mp encode decode e inp nd alive = Some (Running nd1 alive1, eff) →
    iterates C n inp {| hosts := <[n := Live nd1 alive1]> (hosts C); trace := trace C ++ map (pair n) eff |}
(** The last iteration of a loop. *)
| it_returned nd alive e nd1 r p eff :
    hosts C !! n = Some (Live nd alive) →
    loop_step mp encode decode e inp nd alive = Some (Returned nd1 r, eff) →
    protocol nd1 = IRaft p →
    iterates C n inp {| hosts := <[n := Halted (pr_inner (storage p))]> (hosts C);
                        trace := trace C ++ map (pair n) eff |}
(** The process is killed inside an iteration. *)
| it_killed nd alive e s eff :
    hosts C !! n = Some (Live nd alive) →
    cut_step mp encode decode e nd inp alive s eff →
    iterates C n inp {| hosts := <[n := Halted (pr_inner s)]> (hosts C);
                        trace := trace C ++ map (pair n) eff |}.

Inductive lifecycle C (n : NodeId) : Loops V PS RS B → Prop :=
(** The process is killed between two iterations. *)
| lc_kill nd alive p :
    hosts C !! n = Some (Live nd alive) → protocol nd = IRaft p →
    lifecycle C n {| hosts := <[n := Halted (pr_inner (storage p))]> (hosts C); trace := trace C |}
(** A node is built and its loop entered. *)
| lc_start s e peers nd nd1 alive eff :
    hosts C !! n = Some (Halted s) → NoDup peers → list_to_set peers = cluster ∖ {[ n ]} →
    raft_with_id_inner e n cfg peers s = Some nd →
    run mp encode decode e [] nd = Some (Running nd1 alive, eff) →
    lifecycle C n {| hosts := <[n := Live nd1 alive]> (hosts C); trace := trace C ++ map (pair n) eff |}.

(** The holder of the [DecisionReceiver] of host [n] receives the next queued
    decision, or drops its end of the channel. *)
Inductive dequeues C (n : NodeId) : option (Decided V) → Loops V PS RS B → Prop :=
| dq_take nd alive d q :
    hosts C !! n = Some (Live nd alive) → queued (decision_ch nd) = d :: q →
    dequeues C n (Some d)
      {| hosts := <[n := Live {| nd with decision_ch := mkChannel q (closed (decision_ch nd)) |} alive]>
                    (hosts C);
         trace := trace C |}
| dq_close nd alive :
    hosts C !! n = Some (Live nd alive) →
    dequeues C n None
      {| hosts := <[n := Live {| nd with decision_ch := mkChannel [] true |} alive]> (hosts C);
         trace := trace C |}.

Inductive cstep C : Loops V PS RS B → Prop :=
| cs_iterate n inp C1 : arrives C n inp → iterates C n inp C1 → cstep C C1
| cs_lifecycle n C1 : lifecycle C n C1 → cstep C C1
| cs_dequeue n r C1 : dequeues C n r C1 → cstep C C1.

(** Nothing runs and every storage is empty. *)
Definition cinitial C : Prop :=
  dom (hosts C) = cluster ∧
  (∀ n h, hosts C !! n = Some h → ∃ s, h = Halted s ∧ view s = RaftMemoryStorage_new) ∧
  trace C = [].

Definition creachable C : Prop := ∃ C0, cinitial C0 ∧ rtc cstep C0 C.

(** ** The simulation *)
Implicit Types (σ : Net (Pending V) (PendingRaftStorage V RS)).

Definition host_matches (n : NodeId) (h : Host V PS RS)
    (st : NodeStatus (Pending V) (PendingRaftStorage V RS)) : Prop :=
  match h, st with
  | Live nd _, Up p => protocol nd = IRaft p ∧ member cluster n nd ∧ state nd = compute_state nd
  | Halted s, Down s' => s' = mkPendingRaft s
  | _, _ => False
  end.

(** Node [n] has told a user that [d] was decided. *)
Definition told_by C (n : NodeId) (d : Decided V) : Prop :=
  (n, EffDeliver d) ∈ trace C ∨ ∃ t, (n, EffComplete t (Ok d)) ∈ trace C.

Record simulates C σ : Prop := {
  sim_hosts n : option_Forall2 (host_matches n) (hosts C !! n) (nodes σ !! n);
  sim_wire from to data : (from, EffSend to data) ∈ trace C →
    ∃ m, encode (mkMessage from (WRaft m)) = Some data ∧ mkPacket from to m ∈ packets σ;
  sim_told n d : told_by C n d → ∃ x, (n, x) ∈ delivered σ ∧ d = public x;
}.

Lemma pair_in (n n' : NodeId) (x : Effect V B) eff : (n', x) ∈ map (pair n) eff → n' = n ∧ x ∈ eff.
Proof. rewrite !list_elem_of_In, in_map_iff. by intros (y & [= <- <-] & ?). Qed.

Lemma told_by_app C C' n m d (eff : list (Effect V B)) :
  trace C' = trace C ++ map (pair m) eff → told_by C' n d →
  told_by C n d ∨ n = m ∧ tells eff d.
Proof.
  unfold told_by, tells. intros ->. setoid_rewrite elem_of_app.
  intros [[?|[? ?]%pair_in]|[t [?|[? ?]%pair_in]]]; eauto 6.
Qed.

Lemma sim_move C σ n h st recv σ' eff :
  simulates C σ → moves encode cluster cfg n recv σ σ' st eff → host_matches n h st →
  simulates {| hosts := <[n := h]> (hosts C); trace := trace C ++ map (pair n) eff |} σ'.
Proof.
  intros [Sh Sw St] Hmv Hh. destruct (mv_packets _ _ _ _ _ _ _ _ _ Hmv) as (new & Hps & Hemb).
  split; simpl.
  - intros n'. rewrite (mv_nodes _ _ _ _ _ _ _ _ _ Hmv).
    destruct (decide (n = n')) as [<-|Hne].
    + rewrite !lookup_insert_eq. by constructor.
    + by rewrite !lookup_insert_ne by done.
  - intros from to data [Hin|[-> Hin]%pair_in]%elem_of_app; rewrite Hps.
    + destruct (Sw _ _ _ Hin) as (m & ? & ?). exists m. split; [done|]. apply elem_of_app. by left.
    + destruct (embeds_sent _ _ _ _ _ _ Hemb Hin) as (m & ? & ?). exists m. split; [done|].
      apply elem_of_app. by right.
  - intros n' d [Ht|[-> Ht]]%(told_by_app C _ n' n d eff); [..|done].
    + destruct (St _ _ Ht) as (x & ? & ?). exists x. split; [|done].
      by apply (mv_delivered _ _ _ _ _ _ _ _ _ Hmv).
    + by apply (mv_told _ _ _ _ _ _ _ _ _ Hmv).
Qed.

Lemma sim_live C σ n nd alive :
  simulates C σ → hosts C !! n = Some (Live nd alive) →
  ∃ p, nodes σ !! n = Some (Up p) ∧ protocol nd = IRaft p ∧ member cluster n nd ∧
    state nd = compute_state nd.
Proof.
  intros [Sh _ _] Hn. specialize (Sh n). rewrite Hn in Sh. inversion Sh as [? st Hm E|].
  subst. destruct st as [p|]; [|done]. destruct Hm as (? & ? & ?). eauto.
Qed.

Context (serde : ∀ msg data, encode msg = Some data → decode data = Some msg).

Lemma arrives_input_ok C σ n inp :
  simulates C σ → arrives C n inp → input_ok decode inp ∧
    ∀ from m, received decode inp = Some (from, m) → mkPacket from n m ∈ packets σ.
Proof.
  intros Hs. destruct inp as [| |data| |]; simpl; try done. intros [Hd|[from Hin]].
  - by rewrite Hd.
  - destruct (sim_wire _ _ Hs _ _ _ Hin) as (m & He & ?). apply serde in He. rewrite He. simpl.
    split; [intros msg [= <-]; by exists m|]. by intros ? ? [= <- <-].
Qed.

Lemma start_moves σ n s e peers nd nd1 alive eff :
  n ∈ cluster → nodes σ !! n = Some (Down (mkPendingRaft s)) →
  NoDup peers → list_to_set peers = cluster ∖ {[ n ]} →
  raft_with_id_inner e n cfg peers s = Some nd →
  run mp encode decode e [] nd = Some (Running nd1 alive, eff) →
  ∃ σ' st, moves encode cluster cfg n None σ σ' st eff ∧ host_matches n (Live nd1 alive) st.
Proof.
  intros Hcl Hn Hnd Hset Hnew Hrun.
  assert (length peers + 1 = size cluster) as Hsz.
  { rewrite <- (size_list_to_set (C := gset NodeId) peers Hnd), Hset.
    rewrite size_difference by set_solver. rewrite size_singleton.
    assert (size cluster ≠ 0) by (apply size_non_empty_iff; set_solver). lia. }
  unfold raft_with_id_inner in Hnew. rewrite Hsz in Hnew.
  destruct (new _ _ _ _ _) as [p0|] eqn:Hp0; [|done]. simpl in Hnew. injection Hnew as <-.
  unfold run in Hrun. simpl in Hrun.
  destruct (recover _ _) as [[p1 [[]|er]]|] eqn:Hrec; [|done..]. simpl in Hrun.
  injection Hrun as <- <- <-. eexists _, (Up p1). split.
  - apply quiet_moves. by eapply qs_restart.
  - done.
Qed.

(** What a step of a loop is to the cluster: some moves of its node. *)
Definition moved C σ (n : NodeId) recv C1 : Prop :=
  ∃ σ1 h st eff, moves encode cluster cfg n recv σ σ1 st eff ∧
    C1 = {| hosts := <[n := h]> (hosts C); trace := trace C ++ map (pair n) eff |} ∧
    is_Some (hosts C !! n) ∧ simulates C1 σ1.

Lemma iterates_moved C σ n inp C1 :
  simulates C σ → input_ok decode inp → iterates C n inp C1 →
  moved C σ n (received decode inp) C1 ∨ moved C σ n None C1.
Proof.
  intros Hs Hin [nd alive e nd1 alive1 eff Hn Hl|nd alive e nd1 r p eff Hn Hl Hp|nd alive e s eff Hn Hc];
    destruct (sim_live _ _ _ _ _ Hs Hn) as (q & Hq & Hpq & Hm & Hpub).
  - assert (∀ recv, iterated encode cluster cfg n recv σ (Running nd1 alive1) eff →
      moved C σ n recv {| hosts := <[n := Live nd1 alive1]> (hosts C);
                          trace := trace C ++ map (pair n) eff |}) as Hgo.
    { intros recv (σ1 & p1 & Hmv & Hp1 & Hm1). exists σ1, (Live nd1 alive1), (Up p1), eff.
      split_and!; [done|done|by eexists|]. eapply sim_move; [done..|]. simpl in *.
      split_and!; [done..|]. by eapply loop_step_published. }
    destruct (loop_step_refines mp encode decode cluster cfg n nd q e inp alive
      (Running nd1 alive1) eff σ); eauto.
  - assert (∀ recv, iterated encode cluster cfg n recv σ (Returned nd1 r) eff →
      moved C σ n recv {| hosts := <[n := Halted (pr_inner (storage p))]> (hosts C);
                          trace := trace C ++ map (pair n) eff |}) as Hgo.
    { intros recv (σ1 & p1 & Hmv & Hp1 & _). simpl in Hp1, Hmv. assert (p1 = p) as -> by congruence.
      exists σ1, (Halted (pr_inner (storage p))), (Down (storage p)), eff.
      split_and!; [done|done|by eexists|]. eapply sim_move; [done..|]. simpl. by destruct (storage p). }
    destruct (loop_step_refines mp encode decode cluster cfg n nd q e inp alive
      (Returned nd1 r) eff σ); eauto.
  - left. destruct (cut_step_moves mp encode decode cluster cfg n nd q e inp alive s eff σ)
      as [σ1 Hmv]; [done..|].
    exists σ1, (Halted (pr_inner s)), (Down s), eff. split_and!; [done|done|by eexists|].
    eapply sim_move; [done..|]. simpl. by destruct s.
Qed.

Lemma lifecycle_moved C σ n C1 :
  dom (hosts C) = cluster → simulates C σ → lifecycle C n C1 → moved C σ n None C1.
Proof.
  intros Hdom Hs [nd alive p Hn Hp|s e peers nd nd1 alive eff Hn Hnd Hset Hnew Hrun].
  - destruct (sim_live _ _ _ _ _ Hs Hn) as (q & Hq & Hpq & Hm & _).
    assert (q = p) as -> by congruence.
    eexists _, (Halted (pr_inner (storage p))), (Down (storage p)), [].
    assert (moves encode cluster cfg n None σ {| σ with nodes := <[n := Down (storage p)]> (nodes σ) |}
      (Down (storage p)) []) as Hmv by (apply quiet_moves; by apply qs_crash).
    split_and!; [exact Hmv|simpl; by rewrite app_nil_r|by eexists|].
    rewrite <- (app_nil_r (trace C)). eapply (sim_move C σ n _ _ None _ []); [done|exact Hmv|].
    simpl. by destruct (storage p).
  - assert (n ∈ cluster) as Hcl by (rewrite <- Hdom; by eapply elem_of_dom_2).
    assert (nodes σ !! n = Some (Down (mkPendingRaft s))) as Hd.
    { pose proof (sim_hosts _ _ Hs n) as Sh. rewrite Hn in Sh.
      inversion Sh as [? st Hm E|]. subst. destruct st; [done|]. simpl in Hm. by subst. }
    destruct (start_moves σ n s e peers nd nd1 alive eff) as (σ1 & st & Hmv & Hh); [done..|].
    exists σ1, (Live nd1 alive), st, eff. split_and!; [done|done|by eexists|]. by eapply sim_move.
Qed.

(** The protocol does not see the decision channel. *)
Lemma channel_moved C σ n nd alive ch :
  simulates C σ → hosts C !! n = Some (Live nd alive) →
  moved C σ n None {| hosts := <[n := Live {| nd with decision_ch := ch |} alive]> (hosts C);
                      trace := trace C |}.
Proof.
  intros Hs Hn. destruct (sim_live _ _ _ _ _ Hs Hn) as (q & Hq & Hpq & Hm & Hpub).
  pose proof (moves_refl encode cluster cfg n σ q Hq) as Hmv.
  eexists σ, _, (Up q), []. split_and!; [exact Hmv|simpl; by rewrite app_nil_r|by eexists|].
  rewrite <- (app_nil_r (trace C)). by eapply (sim_move C σ n _ _ None _ []).
Qed.

Lemma dequeues_moved C σ n r C1 : simulates C σ → dequeues C n r C1 → moved C σ n None C1.
Proof. intros Hs [nd alive d q Hn _|nd alive Hn]; by apply channel_moved. Qed.

Lemma moved_dom C σ n recv C1 :
  dom (hosts C) = cluster → moved C σ n recv C1 → dom (hosts C1) = cluster.
Proof. intros Hd (σ1 & h & st & eff & _ & -> & Hn & _). simpl. by rewrite dom_insert_lookup_L. Qed.

Lemma moved_steps C σ n recv C1 :
  (∀ from m, recv = Some (from, m) → mkPacket from n m ∈ packets σ) → moved C σ n recv C1 →
  ∃ σ1, rtc (step cluster cfg) σ σ1 ∧ simulates C1 σ1.
Proof.
  intros Hen (σ1 & h & st & eff & Hmv & _ & _ & Hs). exists σ1. split; [|done].
  eapply input_steps_steps; [done|]. by eapply mv_steps.
Qed.

Lemma cstep_simulates C C1 σ :
  dom (hosts C) = cluster → simulates C σ → cstep C C1 →
  dom (hosts C1) = cluster ∧ ∃ σ1, rtc (step cluster cfg) σ σ1 ∧ simulates C1 σ1.
Proof.
  intros Hdom Hs [n inp C' Ha Hi|n C' Hl|n r C' Hq].
  - destruct (arrives_input_ok _ _ _ _ Hs Ha) as [Hin Hen].
    destruct (iterates_moved _ _ _ _ _ Hs Hin Hi) as [Hm|Hm];
      (split; [by eapply moved_dom|eapply moved_steps; [|exact Hm]; solve [exact Hen|by intros]]).
  - pose proof (lifecycle_moved _ _ _ _ Hdom Hs Hl) as Hm.
    split; [by eapply moved_dom|eapply moved_steps; [|exact Hm]; by intros].
  - pose proof (dequeues_moved _ _ _ _ _ Hs Hq) as Hm.
    split; [by eapply moved_dom|eapply moved_steps; [|exact Hm]; by intros].
Qed.

Lemma cinitial_simulates C :
  cinitial C → ∃ σ, initial cluster σ ∧ simulates C σ.
Proof.
  intros (Hd & Hh & Ht).
  set (down := λ h : Host V PS RS, match h with
    | Live _ _ => None | Halted s => Some (Down (V:=Pending V) (mkPendingRaft s : PendingRaftStorage V RS)) end).
  exists {| nodes := omap down (hosts C); packets := []; delivered := [] |}. split.
  - split_and!; [|simpl|done|done].
    + simpl. rewrite <- Hd. apply set_eq. intros n. rewrite !elem_of_dom, lookup_omap.
      destruct (hosts C !! n) as [h|] eqn:Hn; [|split; by intros []].
      destruct (Hh _ _ Hn) as (s & -> & _). simpl. split; by eexists.
    + intros n st Hn. rewrite lookup_omap in Hn.
      destruct (hosts C !! n) as [h|] eqn:Hc; [|done]. destruct (Hh _ _ Hc) as (s & -> & Hv).
      injection Hn as <-. eexists. split; [done|]. simpl. rewrite Hv.
      unfold wrap_durable. simpl. by rewrite fmap_empty.
  - split; simpl.
    + intros n. rewrite lookup_omap. destruct (hosts C !! n) as [h|] eqn:Hc; [|constructor].
      destruct (Hh _ _ Hc) as (s & -> & _). simpl. by constructor.
    + rewrite Ht. by intros ? ? ? ?%elem_of_nil.
    + unfold told_by. rewrite Ht. by intros ? ? [?%elem_of_nil|[? ?%elem_of_nil]].
Qed.

Lemma creachable_simulated C :
  creachable C → ∃ σ, reachable cluster cfg σ ∧ simulates C σ.
Proof.
  intros (C0 & Hi & Hr). pose proof Hi as (Hd & _).
  apply cinitial_simulates in Hi as (σ0 & Hi & Hs).
  assert (reachable cluster cfg σ0) as Hre by (exists σ0; split; [done|apply rtc_refl]).
  clear Hi. revert σ0 Hs Hre. induction Hr as [C|C C1 C2 Hst _ IH]; intros σ Hs Hre; [eauto|].
  destruct (cstep_simulates _ _ _ Hd Hs Hst) as (Hd1 & σ1 & Hrt & Hs1).
  apply (IH Hd1 σ1 Hs1). destruct Hre as (σi & Hi & Hri). exists σi. split; [done|]. by etrans.
Qed.

(** C4. The event loops refine the cluster: however the loops of a cluster
    of Raft nodes interleave, whatever they are fed (bytes that no node sent
    included, as long as they do not decode), however their decision channels
    are read, wherever they are killed, between two iterations or inside one,
    and started again, there is a reachable state of the cluster of
    protocols in which every running node's protocol is that node's state
    and every other node's storage is its storage, every message a loop sent
    is a packet, and every decision a loop told a user of was delivered. *)
Theorem loops_refine_cluster C :
  creachable C →
  ∃ σ, reachable cluster cfg σ ∧ simulates C σ.
Proof. apply creachable_simulated. Qed.

(** C20. Published leaders: two nodes of a cluster whose event loops publish
    the role of leader for the same term are the same node. *)
Theorem published_leader_unique C a b nda ndb x y :
  creachable C →
  hosts C !! a = Some (Live nda x) → hosts C !! b = Some (Live ndb y) →
  st_role (state nda) = Some NLeader → st_role (state ndb) = Some NLeader →
  st_cur_term (state nda) = st_cur_term (state ndb) → a = b.
Proof.
  intros (σ & Hr & Hs)%creachable_simulated Ha Hb.
  destruct (sim_live _ _ _ _ _ Hs Ha) as (p & Hpa & Ea & _ & ->).
  destruct (sim_live _ _ _ _ _ Hs Hb) as (q & Hqb & Eb & _ & ->).
  unfold compute_state. rewrite Ea, Eb. simpl. intros Ra Rb Ht.
  refine (one_leader_per_term (V:=Pending V) (St:=PendingRaftStorage V RS)
    cluster cfg σ a b p q Hr Hpa Hqb _ _ Ht).
  - by destruct (role p).
  - by destruct (role q).
Qed.
End cluster.

