(* ===== verification/NodeFifo.v ===== *)
(** * Event loops over ordered links: users agree

    The clusters of event loops of [NodeCluster.v] with links that may lose
    messages but keep their order, as one connection between two nodes does.
    They refine the ordered network of [RaftFifo.v], so what nodes tell their
    users of a slot is the same everywhere. *)

From S2P Require Import Prelude Types Network Storage Raft RaftLocal RaftEvents RaftDurable.
From S2P Require Import RaftNet RaftNetLemmas RaftFifo RaftAgreement.
From S2P Require Import Paxos Protocol Node NodeProps NodeCluster.

Section ordered.
Context {V PS RS B : Type} `{EqDecision V}.
Context `{PaxosStorage PS (Pending V), RaftStorageSpec RS V}.
Context (mp : bool).
Context (encode : Message (Pending V) → option B) (decode : B → option (Message (Pending V))).
Context (cluster : gset NodeId) (cfg : RaftConfig).
Abbreviation Links := (gmap (NodeId * NodeId) nat).
Implicit Types (C : Loops V PS RS B) (σ : Net (Pending V) (PendingRaftStorage V RS)) (rd links : Links).

(** Per link, the length of the trace up to and including the send its
    receiver has read last. *)
Inductive iteration : Loops V PS RS B * Links → Loops V PS RS B * Links → Prop :=
| it_receive C rd C1 i from n data :
    trace C !! i = Some (from, EffSend n data) → unread rd from n ≤ i →
    iterates mp encode decode C n (InBytes data) C1 →
    iteration (C, rd) (C1, <[(from, n) := S i]> rd)
| it_input C rd C1 n inp :
    (∀ data, inp = InBytes data → decode data = None) →
    iterates mp encode decode C n inp C1 → iteration (C, rd) (C1, rd).

Inductive ostep : Loops V PS RS B * Links → Loops V PS RS B * Links → Prop :=
| os_iteration y y1 : iteration y y1 → ostep y y1
| os_lifecycle C rd C1 n :
    lifecycle mp encode decode cluster cfg C n C1 → ostep (C, rd) (C1, rd)
| os_dequeue C rd C1 n r : dequeues C n r C1 → ostep (C, rd) (C1, rd).

Definition oreachable (y : Loops V PS RS B * Links) : Prop :=
  ∃ C0, cinitial cluster C0 ∧ rtc ostep (C0, ∅) y.

(** The sends of the trace are packets, those of one link in the same order,
    and what a link has not read in the trace it has not read in the network. *)
Record in_order C rd σ links (f : nat → nat) : Prop := {
  io_packet i from to data : trace C !! i = Some (from, EffSend to data) →
    ∃ m, encode (mkMessage from (WRaft m)) = Some data ∧ packets σ !! f i = Some (mkPacket from to m);
  io_mono i j from to d d' : i < j → trace C !! i = Some (from, EffSend to d) →
    trace C !! j = Some (from, EffSend to d') → f i < f j;
  io_unread i from to d : trace C !! i = Some (from, EffSend to d) → unread rd from to ≤ i →
    unread links from to ≤ f i;
  io_bound from to : unread links from to ≤ length (packets σ);
}.

Lemma lookup_effects (n from to : NodeId) (eff : list (Effect V B)) k data :
  map (pair n) eff !! k = Some (from, EffSend to data) → from = n ∧ eff !! k = Some (EffSend to data).
Proof.
  change (map (pair n) eff) with (pair n <$> eff). rewrite list_lookup_fmap.
  destruct (eff !! k); naive_solver.
Qed.

(** A move of one node extends the order. *)
Lemma in_order_move C rd σ links f n eff new h σ1 :
  in_order C rd σ links f → packets σ1 = packets σ ++ new → embeds encode n eff new →
  ∃ f1, in_order (mkLoops (<[n := h]> (hosts C)) (trace C ++ map (pair n) eff)) rd σ1 links f1 ∧
    ∀ i, i < length (trace C) → f1 i = f i.
Proof.
  intros [P1 M1 U1 B1] Hps (g & G1 & G2).
  set (f1 := λ i, if decide (i < length (trace C)) then f i
                  else length (packets σ) + g (i - length (trace C))).
  assert (∀ i, i < length (trace C) → f1 i = f i) as Hold.
  { intros i Hi. unfold f1. by rewrite decide_True. }
  assert (∀ i, ¬ i < length (trace C) → f1 i = length (packets σ) + g (i - length (trace C))) as Hnew.
  { intros i Hi. unfold f1. by rewrite decide_False. }
  assert (∀ i x, (trace C ++ map (pair n) eff) !! i = Some x → i < length (trace C) →
    trace C !! i = Some x) as Hl by (intros i x Hx Hi; by rewrite lookup_app_l in Hx).
  assert (∀ i from to d, (trace C ++ map (pair n) eff) !! i = Some (from, EffSend to d) →
    ¬ i < length (trace C) → from = n ∧ eff !! (i - length (trace C)) = Some (EffSend to d)) as Hr.
  { intros i from to d Hx Hi. rewrite lookup_app_r in Hx by lia. by apply lookup_effects. }
  exists f1. split; [|exact Hold]. split; simpl.
  - intros i from to data Hi. rewrite Hps. destruct (decide (i < length (trace C))) as [Hlt|Hge].
    + rewrite Hold by done. destruct (P1 _ _ _ _ (Hl _ _ Hi Hlt)) as (m & ? & Hm). exists m.
      split; [done|]. rewrite lookup_app_l; [done|]. by eapply lookup_lt_Some.
    + rewrite Hnew by done. destruct (Hr _ _ _ _ Hi Hge) as [-> He].
      destruct (G1 _ _ _ He) as (m & ? & Hm). exists m. split; [done|].
      rewrite lookup_app_r by lia. by replace (_ - _) with (g (i - length (trace C))) by lia.
  - intros i j from to d d' Hij Hi Hj.
    destruct (decide (i < length (trace C))) as [Hli|Hgi], (decide (j < length (trace C))) as [Hlj|Hgj];
      [..|lia|].
    + rewrite !Hold by done. eapply M1; eauto.
    + rewrite Hold, Hnew by done. destruct (P1 _ _ _ _ (Hl _ _ Hi Hli)) as (m & _ & Hm).
      apply lookup_lt_Some in Hm. lia.
    + rewrite !Hnew by done. destruct (Hr _ _ _ _ Hi Hgi) as [_ Ei], (Hr _ _ _ _ Hj Hgj) as [_ Ej].
      assert (g (i - length (trace C)) < g (j - length (trace C))); [|lia].
      eapply G2; [|exact Ei|exact Ej]. lia.
  - intros i from to d Hi Hu. destruct (decide (i < length (trace C))) as [Hli|Hgi].
    + rewrite Hold by done. eapply U1; eauto.
    + rewrite Hnew by done. pose proof (B1 from to). lia.
  - intros from to. rewrite Hps, length_app. pose proof (B1 from to). lia.
Qed.

Lemma unread_insert rd (a b c d : NodeId) k :
  unread (<[(a, b) := k]> rd) c d = if decide ((a, b) = (c, d)) then k else unread rd c d.
Proof.
  unfold unread. destruct (decide ((a, b) = (c, d))) as [<-|Hne].
  - by rewrite lookup_insert_eq.
  - by rewrite lookup_insert_ne.
Qed.

(** Reading a send of the trace and its packet. *)
Lemma in_order_read C rd σ links f i from n data :
  in_order C rd σ links f → trace C !! i = Some (from, EffSend n data) →
  in_order C (<[(from, n) := S i]> rd) σ (<[(from, n) := S (f i)]> links) f.
Proof.
  intros [P1 M1 U1 B1] Hi. split; [done|done| |].
  - intros j a b d Hj. rewrite !unread_insert. destruct (decide _) as [[= <- <-]|]; [|by eapply U1].
    intros Hlt. eapply M1; [|exact Hi|exact Hj]. lia.
  - intros a b. rewrite unread_insert. destruct (decide _); [|done].
    destruct (P1 _ _ _ _ Hi) as (m & _ & Hm). apply lookup_lt_Some in Hm. lia.
Qed.

(** Reading it in the trace only: the loop ignored it. *)
Lemma in_order_skip C rd σ links f i from n :
  in_order C rd σ links f → unread rd from n ≤ i → in_order C (<[(from, n) := S i]> rd) σ links f.
Proof.
  intros [P1 M1 U1 B1] Hi. split; [done|done| |done].
  intros j a b d Hj. rewrite unread_insert. destruct (decide _) as [[= <- <-]|]; [|by eapply U1].
  intros Hlt. eapply U1; [exact Hj|lia].
Qed.

(** The steps of a loop are steps of the ordered network. *)
Lemma local_fifo n σ σ' links :
  rtc (local_step cluster cfg n) σ σ' → rtc (fifo_step cluster cfg) (σ, links) (σ', links).
Proof.
  induction 1 as [|σ σ1 σ2 [Hq|(ev & Hl & He)] _ IH]; [apply rtc_refl|..]; (eapply rtc_l; [|exact IH]).
  - by eapply fifo_quiet.
  - by eapply fifo_local.
Qed.

Lemma received_fifo n from m σ σ' links k :
  packets σ !! k = Some (mkPacket from n m) → unread links from n ≤ k →
  input_steps cluster cfg n (Some (from, m)) σ σ' →
  rtc (fifo_step cluster cfg) (σ, links) (σ', <[(from, n) := S k]> links).
Proof.
  intros Hk Hu (σ1 & He & Hl). eapply rtc_l; [by eapply fifo_receive|by eapply local_fifo].
Qed.

Context (serde : ∀ msg data, encode msg = Some data → decode data = Some msg).

Record osim C rd σ links : Prop := {
  os_dom : dom (hosts C) = cluster;
  os_sim : simulates encode cluster C σ;
  os_order : ∃ f, in_order C rd σ links f;
}.

(** A move without a message. *)
Lemma osim_local C rd σ links n C1 :
  osim C rd σ links → moved encode cluster cfg C σ n None C1 →
  ∃ σ1, rtc (fifo_step cluster cfg) (σ, links) (σ1, links) ∧ osim C1 rd σ1 links.
Proof.
  intros [Hd Hs [f Hf]] Hm. pose proof (moved_dom _ _ _ _ _ _ _ _ Hd Hm) as Hd1.
  destruct Hm as (σ1 & h & st & eff & [Hst _ (new & Hps & He) _ _] & -> & _ & Hs1).
  destruct (in_order_move _ _ _ _ _ n eff new h σ1 Hf Hps He) as (f1 & Hf1 & _).
  exists σ1. split; [by apply (local_fifo n)|]. split; [done|done|by exists f1].
Qed.

Lemma iteration_sim C rd C1 rd1 σ links :
  osim C rd σ links → iteration (C, rd) (C1, rd1) →
  ∃ σ1 links1, rtc (fifo_step cluster cfg) (σ, links) (σ1, links1) ∧ osim C1 rd1 σ1 links1.
Proof.
  intros Ho Hst. inversion Hst as [? ? ? i from n data Hi Hu Hit|? ? ? n inp Hin Hit]; subst.
  - pose proof Ho as [Hd Hs [f Hf]]. destruct (io_packet _ _ _ _ _ Hf _ _ _ _ Hi) as (m & He & Hk).
    pose proof (serde _ _ He) as Hdec.
    destruct (iterates_moved mp encode decode cluster cfg C σ n (InBytes data) C1) as [Hm|Hm]; try done.
    { intros msg. rewrite Hdec. intros [= <-]. by exists m. }
    + simpl in Hm. rewrite Hdec in Hm. simpl in Hm.
      pose proof (moved_dom _ _ _ _ _ _ _ _ Hd Hm) as Hd1.
      destruct Hm as (σ1 & h & st & eff & [Hst1 _ (new & Hps & Hemb) _ _] & -> & _ & Hs1).
      destruct (in_order_move _ _ _ _ _ n eff new h σ1
        (in_order_read _ _ _ _ _ _ _ _ _ Hf Hi) Hps Hemb) as (f1 & Hf1 & _).
      exists σ1, (<[(from, n) := S (f i)]> links). split.
      * eapply received_fifo; [exact Hk| |exact Hst1]. by eapply io_unread.
      * split; [done|done|by exists f1].
    + destruct (osim_local C (<[(from, n) := S i]> rd) σ links n C1) as (σ1 & ? & ?); [|done|by eauto].
      split; [done|done|]. exists f. by apply in_order_skip.
  - assert (received decode inp = None ∧ input_ok decode inp) as [Hrec Hok].
    { destruct inp as [| |data| |]; try done. simpl. rewrite (Hin data eq_refl). by split. }
    pose proof (iterates_moved mp encode decode cluster cfg C σ n inp C1 (os_sim _ _ _ _ Ho) Hok Hit) as Hm.
    rewrite Hrec in Hm. assert (moved encode cluster cfg C σ n None C1) as Hm' by (by destruct Hm).
    destruct (osim_local _ _ _ _ _ _ Ho Hm') as (σ1 & ? & ?). eauto.
Qed.

Lemma ostep_sim C rd C1 rd1 σ links :
  osim C rd σ links → ostep (C, rd) (C1, rd1) →
  ∃ σ1 links1, rtc (fifo_step cluster cfg) (σ, links) (σ1, links1) ∧ osim C1 rd1 σ1 links1.
Proof.
  intros Ho Hst. inversion Hst as [? ? Hit|? ? ? n Hl|? ? ? n r Hq]; subst.
  - by eapply iteration_sim.
  - pose proof (lifecycle_moved mp encode decode cluster cfg serde C σ n C1 (os_dom _ _ _ _ Ho) (os_sim _ _ _ _ Ho) Hl) as Hm.
    destruct (osim_local _ _ _ _ _ _ Ho Hm) as (σ1 & ? & ?). eauto.
  - pose proof (dequeues_moved encode cluster cfg C σ n r C1 (os_sim _ _ _ _ Ho) Hq) as Hm.
    destruct (osim_local _ _ _ _ _ _ Ho Hm) as (σ1 & ? & ?). eauto.
Qed.

Lemma oreachable_simulated y :
  oreachable y → ∃ x, fifo_reachable cluster cfg x ∧ simulates encode cluster y.1 x.1.
Proof.
  intros (C0 & Hi & Hr). pose proof Hi as (Hd & _ & Htr).
  destruct (cinitial_simulates encode cluster C0 Hi) as (σ0 & Hi0 & Hs0).
  assert (∃ x, rtc (fifo_step cluster cfg) (σ0, ∅) x ∧ osim y.1 y.2 x.1 x.2) as (x & Hx & Ho).
  2: { exists x. split; [by exists σ0|]. by apply os_sim in Ho. }
  assert (osim C0 ∅ σ0 ∅) as H00.
  { split; [done|done|]. exists id. split; rewrite ?Htr; try done.
    intros from to. unfold unread. rewrite lookup_empty. simpl. lia. }
  assert (∀ y0 x0, rtc ostep y0 y → osim y0.1 y0.2 x0.1 x0.2 →
    ∃ x, rtc (fifo_step cluster cfg) x0 x ∧ osim y.1 y.2 x.1 x.2) as Hgo.
  { clear -serde. intros y0 x0 Hr. revert x0. induction Hr as [y|[C rd] [C1 rd1] y Hst _ IH]; intros [σ links] Ho.
    - exists (σ, links). split; [apply rtc_refl|done].
    - destruct (ostep_sim _ _ _ _ _ _ Ho Hst) as (σ1 & links1 & Hr1 & Ho1).
      destruct (IH (σ1, links1) Ho1) as (x & Hx & Hox). exists x. split; [by etrans|done]. }
  exact (Hgo (C0, ∅) (σ0, ∅) Hr H00).
Qed.

(** ** What users are told *)
Context {U : Type} (obs : V → U) (obs_norm : ∀ v, obs (norm v) = obs v).

Lemma told_agree y a b d d' :
  oreachable y → told_by y.1 a d → told_by y.1 b d' → dc_slot d = dc_slot d' →
  obs (dc_value d) = obs (dc_value d').
Proof.
  intros (x & Hx & Hs)%oreachable_simulated Ha Hb.
  destruct (sim_told _ _ _ _ Hs _ _ Ha) as (da & Hda & ->).
  destruct (sim_told _ _ _ _ Hs _ _ Hb) as (db & Hdb & ->).
  apply (delivered_agree cluster cfg (obs ∘ pvalue)) with (x := x) (a := a) (b := b); try done.
  intros v. apply obs_norm.
Qed.

(** C1. Users agree: however the event loops of a cluster of Raft nodes
    interleave over links that keep order but may lose messages, however
    their decision channels are read, wherever they return, are killed,
    between two iterations or inside one, and are started again, two decisions that any
    two nodes have told a caller or the decision channel for the same slot
    carry the same value, in every observation of the values that storage
    preserves. *)
Theorem users_agree y a b d d' :
  oreachable y → told_by y.1 a d → told_by y.1 b d' → dc_slot d = dc_slot d' →
  obs (dc_value d) = obs (dc_value d').
Proof. apply told_agree. Qed.
End ordered.
