(* ===== verification/NodeRuns.v ===== *)
(** * Event loops: concrete runs

    An executable scheduler for the clusters of event loops of
    [NodeCluster.v], sound for its steps, and the runs on which the theorems
    on nodes are evaluated. Values are numbers; a message is its own encoding. *)

From S2P Require Import Prelude Types Network Storage Raft RaftLocal RaftEvents RaftDurable.
From S2P Require Import RaftNet RaftExec RaftFifo Paxos Protocol Node NodeProps NodeCluster NodeFifo.

Module Run.
Abbreviation Msg := (Message (Pending N)).
Abbreviation PS := (PaxosMemoryStorage (Pending N)).
Abbreviation Cl := (Loops N PS (RaftMemoryStorage N) Msg).
Abbreviation Nd := (NodeS N PS (PendingRaftStorage N (RaftMemoryStorage N))).

Definition enc (m : Msg) : option Msg := Some m.
Definition dec (m : Msg) : option Msg := Some m.

Lemma serde msg data : enc msg = Some data → dec data = Some msg.
Proof. by intros [= ->]. Qed.

Definition env (now : N) := mkNEnv now 0 (λ x, x).

Section exec.
Context (cluster : list NodeId) (cfg : RaftConfig).

Inductive Act :=
| AStart (n : NodeId)
| AInput (now : N) (n : NodeId) (inp : Input N Msg)
| ARecv (now : N) (k : nat)       (* the k-th effect, which is a send *)
| AKill (n : NodeId).

Definition host_of (ls : LoopState (V:=N) (PS:=PS)
    (RS:=PendingRaftStorage N (RaftMemoryStorage N))) : option (Host N PS (RaftMemoryStorage N)) :=
  match ls with
  | Running nd alive => Some (Live nd alive)
  | Returned nd _ =>
      match protocol nd with
      | IRaft p => Some (Halted (pr_inner (storage p)))
      | IPaxos _ => None
      end
  end.

Definition iterate (now : N) (inp : Input N Msg) (nd : Nd) (alive : bool) :=
  loop_step true enc dec (env now) inp nd alive.

Definition feed (now : N) (n : NodeId) (inp : Input N Msg) (C : Cl) : option Cl :=
  match hosts C !! n with
  | Some (Live nd alive) =>
      '(ls, eff) ← iterate now inp nd alive;
      h ← host_of ls;
      Some {| hosts := <[n := h]> (hosts C); trace := trace C ++ map (pair n) eff |}
  | _ => None
  end.

Definition act (a : Act) (C : Cl) : option Cl :=
  match a with
  | AStart n =>
      match hosts C !! n with
      | Some (Halted s) =>
          nd ← raft_with_id_inner (env 0) n cfg (filter (λ m, m ≠ n) cluster) s;
          match run true enc dec (env 0) [] nd with
          | Some (Running nd alive, eff) =>
              Some {| hosts := <[n := Live nd alive]> (hosts C);
                      trace := trace C ++ map (pair n) eff |}
          | _ => None
          end
      | _ => None
      end
  | AInput now n inp =>
      match inp with InBytes _ => None | _ => feed now n inp C end
  | ARecv now k =>
      match trace C !! k with
      | Some (_, EffSend to data) => feed now to (InBytes data) C
      | _ => None
      end
  | AKill n =>
      match hosts C !! n with
      | Some (Live nd alive) =>
          match protocol nd with
          | IRaft p => Some {| hosts := <[n := Halted (pr_inner (storage p))]> (hosts C);
                               trace := trace C |}
          | IPaxos _ => None
          end
      | _ => None
      end
  end.

Fixpoint acts (l : list Act) (C : Cl) : option Cl :=
  match l with
  | [] => Some C
  | a :: l => C ← act a C; acts l C
  end.

Abbreviation cset := (list_to_set (C := gset NodeId) cluster).
Context (Hdup : NoDup cluster).

Lemma feed_iterates now n inp C C1 :
  feed now n inp C = Some C1 → iterates true enc dec C n inp C1.
Proof.
  unfold feed, iterate. destruct (hosts C !! n) as [[nd alive|]|] eqn:Hn; [|done..].
  destruct (loop_step _ _ _ _ _ _ _) as [[[nd1 al|nd1 r] eff]|] eqn:Hl; [..|done]; simpl.
  - intros [= <-]. by eapply it_running.
  - destruct (protocol nd1) as [|p] eqn:Hp; [done|]. simpl. intros [= <-]. by eapply it_returned.
Qed.

Lemma feed_sound now n inp C C1 :
  arrives dec C n inp → feed now n inp C = Some C1 → cstep true enc dec cset cfg C C1.
Proof. intros Ha Hf. eapply cs_iterate; [done|by eapply feed_iterates]. Qed.

Lemma start_lifecycle n C C1 :
  act (AStart n) C = Some C1 → lifecycle true enc dec cset cfg C n C1.
Proof.
  simpl. destruct (hosts C !! n) as [[|s]|] eqn:Hn; [done| |done].
  destruct (raft_with_id_inner _ _ _ _ _) as [nd|] eqn:Hr; [|done]. simpl.
  destruct (run _ _ _ _ _ _) as [[[nd1 al|] eff]|] eqn:Hrun; [|done..]. intros [= <-].
  eapply lc_start; [done| | |exact Hr|exact Hrun]; [by apply NoDup_filter|].
  apply set_eq. intros m. set_unfold. rewrite list_elem_of_filter. naive_solver.
Qed.

Lemma kill_lifecycle n C C1 :
  act (AKill n) C = Some C1 → lifecycle true enc dec cset cfg C n C1.
Proof.
  simpl. destruct (hosts C !! n) as [[nd al|]|] eqn:Hn; [|done..].
  destruct (protocol nd) as [|p] eqn:Hp; [done|]. intros [= <-]. by eapply lc_kill.
Qed.

Lemma act_sound a C C1 : act a C = Some C1 → cstep true enc dec cset cfg C C1.
Proof.
  destruct a as [n|now n inp|now k|n].
  - intros Ha. by eapply cs_lifecycle, start_lifecycle.
  - simpl. destruct inp; try done; by apply feed_sound.
  - simpl. destruct (trace C !! k) as [[from [| to data| |]]|] eqn:Hk; try done.
    apply feed_sound. simpl. right. exists from. by eapply list_elem_of_lookup_2.
  - intros Ha. by eapply cs_lifecycle, kill_lifecycle.
Qed.

Lemma acts_sound l C C1 : acts l C = Some C1 → rtc (cstep true enc dec cset cfg) C C1.
Proof.
  revert C. induction l as [|a l IH]; simpl; intros C; [intros [= ->]; apply rtc_refl|].
  destruct (act a C) as [C2|] eqn:Ha; [|done]. simpl. intros Hl.
  eapply rtc_l; [by apply act_sound in Ha|by apply IH].
Qed.
End exec.
End Run.

(** ** Three nodes and their loops *)
Module ThreeLoops.
Import Run.
Definition n1 := mkNodeId "a" 1.
Definition n2 := mkNodeId "b" 1.
Definition n3 := mkNodeId "c" 1.
Definition ids := [n1; n2; n3].
Definition cfg := RaftConfig_default.
Definition late : N := 100000000000.

Definition start : Cl :=
  {| hosts := list_to_map (map (λ n, (n, Halted RaftMemoryStorage_new)) ids); trace := [] |}.

Lemma start_cinitial : cinitial (list_to_set ids) start.
Proof.
  split_and!; [by refine (bool_decide_unpack _ _)| |done].
  intros n st Hst. simpl in Hst.
  repeat (apply lookup_insert_Some in Hst as [[_ <-]|[_ Hst]]; [eauto|]).
  by rewrite lookup_empty in Hst.
Qed.

Definition state (l : list Act) : Cl := default start (acts ids cfg l start).

Lemma state_creachable l :
  is_some (acts ids cfg l start) = true →
  creachable true enc dec (list_to_set ids) cfg (state l).
Proof.
  unfold state. destruct (acts ids cfg l start) as [C|] eqn:Hr; [|done]. intros _.
  exists start. split; [apply start_cinitial|]. eapply acts_sound; [|done].
  by refine (bool_decide_unpack _ _).
Qed.

(** [n1] times out, [n2] votes for it, a caller of [n1] proposes 77 and is
    answered once [n2] has the entry. *)
Definition caller : Submission N := mkSubmission (mkPending 5 77%N) 9.
Definition served : list Act :=
  [AStart n1; AStart n2; AStart n3; AInput late n1 InTick; ARecv late 1; ARecv late 4;
   AInput late n1 (InSubmit caller); ARecv late 9; ARecv late 12].

(** What host [n] publishes in a state. *)
Definition publishes (C : Cl) (n : NodeId) (r : NodeRole) (t : N) : bool :=
  match hosts C !! n with
  | Some (Live nd _) =>
      bool_decide (st_role (Node.state nd) = Some r) && (st_cur_term (Node.state nd) =? t)%N
  | _ => false
  end.

Lemma publishes_spec C n r t :
  publishes C n r t = true →
  ∃ nd b, hosts C !! n = Some (Live nd b) ∧ st_role (Node.state nd) = Some r ∧
    st_cur_term (Node.state nd) = t.
Proof.
  unfold publishes. destruct (hosts C !! n) as [[nd b|]|]; [|done..].
  intros Hb. breflect. eauto 6.
Qed.

Lemma loops_refine_cluster_witness :
  ∃ (σ : Net (Pending N) (PendingRaftStorage N (RaftMemoryStorage N))) x,
    reachable (list_to_set ids) cfg σ ∧ (n1, x) ∈ delivered σ ∧
    mkDecided 0 77%N = public x.
Proof.
  destruct (loops_refine_cluster true enc dec (list_to_set ids) cfg serde (state served))
    as (σ & Hr & Hs).
  { apply state_creachable. vm_compute. reflexivity. }
  destruct (sim_told _ _ _ _ Hs n1 (mkDecided 0 77%N)) as (x & Hx & Hd).
  { right. exists 9%N. refine (list_elem_of_lookup_2 _ 14 _ _). vm_compute. reflexivity. }
  exists σ, x. auto.
Defined.

Lemma published_leader_unique_witness :
  ∃ nd b, hosts (state served) !! n1 = Some (Live nd b) ∧
    st_role (Node.state nd) = Some NLeader ∧ n1 = n1.
Proof.
  destruct (publishes_spec (state served) n1 NLeader 1) as (nd & b & Hn & Hr & _).
  { vm_compute. reflexivity. }
  exists nd, b. split; [exact Hn|]. split; [exact Hr|].
  refine (published_leader_unique true enc dec (list_to_set ids) cfg serde (state served)
    n1 n1 nd nd b b _ Hn Hn Hr Hr eq_refl).
  apply state_creachable. vm_compute. reflexivity.
Defined.
End ThreeLoops.

(** ** The same over ordered links *)
Module OrderedLoops.
Import Run ThreeLoops.
Abbreviation OCl := (Cl * gmap (NodeId * NodeId) nat)%type.
Abbreviation cset := (list_to_set (C := gset NodeId) ids).

(** An action; a message is received only if its link has not passed it. *)
Definition oact (a : Act) (y : OCl) : option OCl :=
  match a with
  | ARecv now k =>
      match trace y.1 !! k with
      | Some (from, EffSend to data) =>
          if bool_decide (unread y.2 from to ≤ k) then
            C ← feed now to (InBytes data) y.1; Some (C, <[(from, to) := S k]> y.2)
          else None
      | _ => None
      end
  | _ => C ← act ids cfg a y.1; Some (C, y.2)
  end.

Fixpoint oacts (l : list Act) (y : OCl) : option OCl :=
  match l with
  | [] => Some y
  | a :: l => y ← oact a y; oacts l y
  end.

Lemma ids_nodup : NoDup ids.
Proof. by refine (bool_decide_unpack _ _). Qed.

Lemma oact_cases a y y1 :
  oact a y = Some y1 →
  match a with
  | AStart n | AKill n => lifecycle true enc dec cset cfg y.1 n y1.1 ∧ y1.2 = y.2
  | _ => iteration true enc dec y y1
  end.
Proof.
  destruct y as [C rd], a as [n|now n inp|now k|n]; intros Ha.
  - apply bind_Some in Ha as (C1 & Ha & [= <-]). split; [|done].
    exact (start_lifecycle _ _ ids_nodup _ _ _ Ha).
  - apply bind_Some in Ha as (C1 & Ha & [= <-]). simpl in Ha.
    apply (it_input _ _ _ _ _ _ n inp).
    + by intros data ->.
    + eapply (feed_iterates now). by destruct inp.
  - simpl in Ha. destruct (trace C !! k) as [[from [| to data| |]]|] eqn:Hk; try done.
    case_bool_decide; [|done]. apply bind_Some in Ha as (C1 & Ha & [= <-]).
    eapply it_receive; [exact Hk|done|by eapply feed_iterates].
  - apply bind_Some in Ha as (C1 & Ha & [= <-]). split; [|done].
    exact (kill_lifecycle _ _ _ _ _ Ha).
Qed.

Lemma oact_sound a y y1 : oact a y = Some y1 → ostep true enc dec cset cfg y y1.
Proof.
  intros Ha%oact_cases. destruct y as [C rd], y1 as [C1 rd1].
  destruct a as [n|now n inp|now k|n]; [| | |]; try by apply os_iteration.
  - destruct Ha as [Ha E]. simpl in E. subst. by eapply os_lifecycle.
  - destruct Ha as [Ha E]. simpl in E. subst. by eapply os_lifecycle.
Qed.

Lemma oacts_sound l y y1 : oacts l y = Some y1 → rtc (ostep true enc dec cset cfg) y y1.
Proof.
  revert y. induction l as [|a l IH]; simpl; intros y; [intros [= ->]; apply rtc_refl|].
  destruct (oact a y) as [y2|] eqn:Ha; [|done]. simpl. intros Hl.
  eapply rtc_l; [by apply oact_sound in Ha|by apply IH].
Qed.

(** After [served], [n1]'s heartbeat tells [n2] that the slot is committed. *)
Definition told : list Act := served ++ [AInput (2 * late) n1 InTick; ARecv (2 * late) 17].
Definition final : OCl := default (start, ∅) (oacts told (start, ∅)).

Lemma ordered_final_reachable : oreachable true enc dec cset cfg final.
Proof.
  exists start. split; [apply start_cinitial|]. apply (oacts_sound told).
  assert (is_some (oacts told (start, ∅)) = true) as Hs by (vm_compute; reflexivity).
  unfold final. by destruct (oacts told (start, ∅)).
Qed.

Lemma users_agree_witness :
  told_by final.1 n1 (mkDecided 0 77%N) ∧ told_by final.1 n2 (mkDecided 0 77%N) ∧
  id (dc_value (mkDecided 0 77%N)) = id (dc_value (mkDecided 0 77%N)).
Proof.
  assert (told_by final.1 n1 (mkDecided 0 77%N)) as H1.
  { right. exists 9%N. refine (list_elem_of_lookup_2 _ 14 _ _). vm_compute. reflexivity. }
  assert (told_by final.1 n2 (mkDecided 0 77%N)) as H2.
  { left. refine (list_elem_of_lookup_2 _ 21 _ _). vm_compute. reflexivity. }
  split; [exact H1|]. split; [exact H2|].
  exact (users_agree true enc dec cset cfg serde id (λ _, eq_refl) final n1 n2 _ _
    ordered_final_reachable H1 H2 eq_refl).
Defined.
End OrderedLoops.

(** ** A node on its own *)
Module Alone.
Import Run ThreeLoops.

Definition built : option Nd := raft_with_id_inner (env 0) n1 cfg [] RaftMemoryStorage_new.

(** It elects itself on a tick, serves a caller, takes another submission
    under the same nonce and is shut down. *)
Definition inputs : list (NEnv * Input N Msg) :=
  [(env late, InSubmit (mkSubmission (mkPending 6 66%N) 8)); (env late, InTick);
   (env late, InSubmit caller); (env late, InHandlesDropped)].
Definition ran : option (LoopState * list (Effect N Msg)) :=
  nd ← built; run true enc dec (env 0) inputs nd.
Definition ran_eff : list (Effect N Msg) := match ran with Some (_, eff) => eff | None => [] end.

Lemma callers_answered_once_witness :
  answered ran_eff = [8; 9]%N ∧
  ∃ handled rest, inputs = handled ++ rest ∧ submitted handled ≡ₚ answered ran_eff.
Proof.
  split; [vm_compute; reflexivity|].
  destruct ran as [[[nd b|nd r] eff]|] eqn:Hran; [vm_compute in Hran; discriminate| |
    vm_compute in Hran; discriminate].
  assert (ran_eff = eff) as -> by (unfold ran_eff; by rewrite Hran).
  unfold ran in Hran. destruct built as [nd0|] eqn:Hb; [|discriminate].
  destruct (callers_answered_once true enc dec (env 0) inputs nd0 (Returned nd r) eff Hran)
    as (h & rest & Hi & _ & _ & Hp & _).
  exists h, rest. split; [exact Hi|]. simpl in Hp. by rewrite app_nil_r in Hp.
Defined.

(** A node about to process the decision its caller waits for. *)
Definition deciding : Nd :=
  let p := {| node_id := n1; total_nodes := 1; config := cfg;
     current_term := 1; voted_for := Some n1; log := [mkEntry 1 (mkPending 5 77%N)];
     commit_index := Some 0%N; last_applied := Some 0%N; role := Leader; leader := Some n1;
     next_index := ∅; match_index := ∅; election_deadline := 0; votes_received := ∅;
     last_heartbeat_sent := None; pending_decisions := [mkDecision 0 (mkPending 5 77%N)];
     pending_persist_term := false; pending_persist_voted_for := false;
     pending_persist_log_from := None; pending_truncate_from := None;
     pending_persist_commit_index := false; pending_proposals := []; lost_proposals := [];
     storage := mkPendingRaft RaftMemoryStorage_new |} in
  {| nd_id := n1; senders := []; protocol := IRaft p; decision_ch := mkChannel [] false;
     Node.state := initial_state n1 AlgRaft; algorithm := AlgRaft;
     pending := {[ 5%N := mkPendingEntry 77%N 9%N ]} |}.

Lemma answers_are_stored_decisions_witness :
  ∃ k en, pending deciding !! k = Some en ∧ completion en = 9%N.
Proof.
  destruct (process_decisions (B := Msg) deciding) as [[nd1 eff] res] eqn:Hd.
  assert (EffComplete 9%N (Ok (mkDecided 0 77%N)) ∈ eff) as Hin.
  { apply (f_equal (λ x, x.1.2)) in Hd. vm_compute in Hd. rewrite <- Hd. by left. }
  destruct (answers_are_stored_decisions deciding nd1 eff res 9%N _ Hd Hin)
    as (ds & x & k & en & _ & _ & _ & Hk & Hc & _).
  exists k, en. split; [exact Hk|exact Hc].
Defined.

Lemma propose_queue_bounded_witness :
  ∃ ch1 : Channel (Submission N),
    handle_propose [0; 5]%N 77%N 9%N (mkChannel [] false) = Some (ch1, None) ∧
    length (queued ch1) ≤ PROPOSAL_CHANNEL_CAPACITY.
Proof.
  exists (mkChannel [caller] false). split; [vm_compute; reflexivity|].
  apply (propose_queue_bounded [0; 5]%N 77%N 9%N (mkChannel [] false) _ None).
  - simpl. unfold PROPOSAL_CHANNEL_CAPACITY. lia.
  - vm_compute. reflexivity.
Defined.
End Alone.
