(* ===== verification/NodeTests.v ===== *)
(** * The unit tests of the node

    The tests of [daccord/src/node.rs] under the names they have there. A test
    that spawns the event loop drives it one iteration at a time: the order of
    the inputs is the one the test waits for. A message is its own encoding;
    the one test on cloning a handle asserts nothing and is left out. *)

From stdpp Require Import strings.
From S2P Require Import Prelude Types Storage Testing Raft Paxos Protocol Node NodeProps.

Open Scope test_scope.

Section tests.
Context (mp : bool).

Abbreviation VS := string.
Abbreviation Msg := (Message (Pending VS)).
Abbreviation PSt := (PendingPaxosStorage VS (PaxosMemoryStorage VS)).
Abbreviation RSt := (PendingRaftStorage VS (RaftMemoryStorage VS)).
Abbreviation Nd := (NodeS VS PSt RSt).
Abbreviation Eff := (list (Effect VS Msg)).

Definition enc (m : Msg) : option Msg := Some m.
Definition dec (m : Msg) : option Msg := Some m.
Definition env : NEnv := mkNEnv 0 0 (λ _, 0%N).
Definition clock : option N := Some 1710412800%N.

(** ** A node under test: its proposal queue, the loop, what it did *)
Record UnderTest := mkUnderTest {
  queue : Channel (Submission VS);
  looping : LoopState (V:=VS) (PS:=PSt) (RS:=RSt);
  did : Eff;
  calls : N;
}.

Definition idle_node (nd : Nd) : UnderTest := mkUnderTest (mkChannel [] false) (Running nd true) [] 0.

(** [tokio::spawn(node.run())]. *)
Definition spawn (nd : option Nd) : option UnderTest :=
  nd ← nd; '(ls, eff) ← run mp enc dec env [] nd;
  Some (mkUnderTest (mkChannel [] false) ls eff 0).

(** [NodeHandle::propose] up to the await; the call is numbered and draws its
    number plus one as nonce. *)
Definition start_propose (v : VS) : Test UnderTest (Token * option ProposeError) := λ u,
  '(ch, err) ← handle_propose [(calls u + 1)%N] v (calls u) (queue u);
  Some ({| u with queue := ch; calls := (calls u + 1)%N |}, (calls u, err)).

(** The loop takes one input. *)
Definition feed (inp : Input VS Msg) : Test UnderTest unit := λ u,
  match looping u with
  | Running nd alive =>
      '(ls, eff) ← loop_step mp enc dec env inp nd alive;
      Some ({| u with looping := ls; did := did u ++ eff |}, tt)
  | Returned _ _ => None
  end.
(** The loop takes a submission from the queue. *)
Definition serve : Test UnderTest unit := λ u,
  match queued (queue u) with
  | s :: rest => feed (InSubmit s) {| u with queue := mkChannel rest (closed (queue u)) |}
  | [] => None
  end.

Definition answer_of (tok : Token) (eff : Eff) : option (Result (Decided VS) ProposeError) :=
  head (omap (λ ef, match ef with EffComplete t r => if (t =? tok)%N then Some r else None | _ => None end) eff).

(** [handle.propose(v).await.unwrap()]. *)
Definition propose_decided (v : VS) : Test UnderTest (Decided VS) :=
  let! call := start_propose v in
  serve;;
  λ u, match call.2, answer_of call.1 (did u) with
       | None, Some (Ok d) => Some (u, d)
       | _, _ => None
       end.

Definition decisions_of (u : UnderTest) : list (Decided VS) :=
  match looping u with Running nd _ | Returned nd _ => queued (decision_ch nd) end.
Definition still_running (u : UnderTest) : bool :=
  match looping u with Running _ _ => true | Returned _ _ => false end.

(** [run_handle.abort()]: the node and its pending map are dropped. *)
Definition abort_run : Test UnderTest unit := λ u,
  match looping u with
  | Running nd _ => Some ({| u with did := did u ++ pending_drop (pending nd) |}, tt)
  | Returned _ _ => Some (u, tt)
  end.

(** ** Construction *)
Definition solo_paxos (nm : string) : option Nd :=
  Node_paxos clock env nm PaxosConfig_default [] PaxosMemoryStorage_new.
Definition solo_raft (id : NodeId) : option Nd :=
  raft_with_id_inner env id RaftConfig_default [] RaftMemoryStorage_new.

Definition node_paxos_returns_node_handle_and_receiver : bool := is_some (solo_paxos "test-node").
Definition paxos_constructor_works : bool := is_some (solo_paxos "test").
Definition raft_constructor_works : bool :=
  is_some (Node_raft clock env "test" RaftConfig_default [] RaftMemoryStorage_new : option Nd).

(** ** The proposal channel *)

(** Proposals to a node whose loop does not run. *)
Fixpoint enqueue_all (k : nat) : Test UnderTest unit :=
  match k with
  | O => λ u, Some (u, tt)
  | S k => let! _ := start_propose "msg" in enqueue_all k
  end.

Definition propose_returns_channel_full_when_full : bool := passes (idle_node <$> solo_paxos "test-node") (
  enqueue_all 1024;;
  let! r := start_propose "overflow" in
  expect (λ _, match r.2 with Some ChannelFull => true | _ => false end)).

Definition propose_channel_full : bool := passes (idle_node <$> solo_paxos "test-node") (
  enqueue_all 1024;;
  let! r := start_propose "overflow" in
  expect (λ _, match r.2 with Some ChannelFull => true | _ => false end)).

(** ** Proposals that are decided *)
Definition propose_returns_decided_value : bool := passes (spawn (solo_paxos "solo")) (
  let! d := propose_decided "hello" in
  expect (λ _, (dc_slot d =? 0)%N && bool_decide (dc_value d = "hello"))).

(** Proposals [v-i], [v-(i+1)], ..., each decided in the slot of its number. *)
Fixpoint decide_in_turn (check_value : bool) (i : N) (k : nat) : Test UnderTest unit :=
  match k with
  | O => λ u, Some (u, tt)
  | S k =>
      let! d := propose_decided ("v-" +:+ pretty i) in
      expect (λ _, (dc_slot d =? i)%N && (negb check_value || bool_decide (dc_value d = "v-" +:+ pretty i)));;
      decide_in_turn check_value (i + 1) k
  end.

Definition propose_resolves_when_decision_receiver_is_full : bool := passes (spawn (solo_paxos "solo")) (
  decide_in_turn false 0 (DECISION_CHANNEL_CAPACITY + 1)).

Definition pending_does_not_leak : bool := passes (spawn (solo_paxos "solo")) (
  decide_in_turn true 0 5).

Definition single_node_consensus : bool := passes (spawn (solo_paxos "solo")) (
  let! d := propose_decided "hello" in
  expect (λ _, (dc_slot d =? 0)%N && bool_decide (dc_value d = "hello"));;
  expect (λ u, match decisions_of u with
               | d :: _ => (dc_slot d =? 0)%N && bool_decide (dc_value d = "hello")
               | [] => false
               end)).

(** ** Pending proposals *)
Definition propose_cancelled_on_drop : bool :=
  passes (spawn (Some (paxos_with_id_inner env (mkNodeId "solo" 1) (paxos_heartbeat_interval PaxosConfig_default)
    [mkNodeId "never" 1] PaxosMemoryStorage_new))) (
  let! call := start_propose "never-decides" in
  serve;; abort_run;;
  expect (λ u, match answer_of call.1 (did u) with Some (Err Cancelled) => true | _ => false end)).

Definition pending_map_drop_fires_cancelled : bool :=
  let '(m, _) := pending_insert (B:=Msg) (mkPending 1 "a") 0 ∅ in
  let '(m, _) := pending_insert (B:=Msg) (mkPending 2 "b") 1 m in
  let cancelled tok := match answer_of tok (pending_drop m) with Some (Err Cancelled) => true | _ => false end in
  (size m =? 2) && cancelled 0%N && cancelled 1%N.

Definition pending_map_matches_recovered_nonce_by_value : bool :=
  let '(m, _) := pending_insert (B:=Msg) (mkPending 42 "recovered") 0 ∅ in
  let '(m, tok) := remove_for_decision 0 "recovered" m in
  bool_decide (tok = Some 0%N) && (size m =? 0).

(** ** Three nodes on channels *)
Record Three := mkThree { members : list (NodeId * UnderTest); wires : list (NodeId * Msg) }.

Definition sends_of (eff : Eff) : list (NodeId * Msg) :=
  omap (λ ef, match ef with EffSend n m => Some (n, m) | _ => None end) eff.

(** Runs a step of the node [id] and puts what it sends on the wires. *)
Definition at_node {A} (id : NodeId) (t : Test UnderTest A) : Test Three A := λ c,
  '(k, (_, u)) ← list_find (λ m, m.1 = id) (members c);
  '(u', x) ← t {| u with did := [] |};
  Some (mkThree (<[k := (id, {| u' with did := did u ++ did u' |})]> (members c))
          (wires c ++ sends_of (did u')), x).

(** Every wire is read in the order it was written. *)
Fixpoint pump (fuel : nat) : Test Three unit := λ c,
  match fuel, wires c with
  | S fuel, (n, m) :: rest =>
      '(c', _) ← at_node n (feed (InBytes m)) (mkThree (members c) rest);
      pump fuel c'
  | _, _ => Some (c, tt)
  end.

Definition three_ids := [mkNodeId "a" 1000; mkNodeId "b" 1000; mkNodeId "c" 1000].
Definition three_nodes : option Three :=
  us ← mapM (λ id, (pair id) <$> spawn (Some (paxos_with_id_inner env id
         (paxos_heartbeat_interval PaxosConfig_default) (filter (λ m, m ≠ id) three_ids) PaxosMemoryStorage_new)))
       three_ids;
  Some (mkThree us []).

Definition three_node_consensus : bool := passes three_nodes (
  let! call := at_node (mkNodeId "a" 1000) (let! call := start_propose "hello" in serve;; λ u, Some (u, call)) in
  pump 100;;
  expect (λ c, match wires c with [] => true | _ => false end);;
  expect (λ c, forallb (λ m, match decisions_of m.2 with
                             | d :: _ => bool_decide (dc_value d = "hello") && (dc_slot d =? 0)%N
                             | [] => false
                             end) (members c));;
  expect (λ c, match members c with
               | (_, u) :: _ => match answer_of call.1 (did u) with Some (Ok _) => true | _ => false end
               | [] => false
               end)).

(** ** Other messages *)
Definition paxos_node_drops_raft_messages_silently : bool :=
  let attacker := mkNodeId "attacker" 1 in
  passes (spawn (Some (paxos_with_id_inner env (mkNodeId "paxos-node" 1)
    (paxos_heartbeat_interval PaxosConfig_default) [mkNodeId "dummy-peer" 1] PaxosMemoryStorage_new))) (
  feed (InBytes (mkMessage attacker (WRaft (RequestVote 99 attacker None 0))));;
  expect (λ u, bool_decide (length (decisions_of u) = 0));;
  expect still_running).

(** ** State *)
Definition node_state_is_constructible : bool :=
  let s := mkNodeState (mkNodeId "a" 1) AlgRaft (Some NFollower) 3 None None 0 None None in
  (st_cur_term s =? 3)%N && match st_role s with Some NFollower => true | _ => false end.

Definition is_fresh_raft (id : NodeId) (s : NodeState) : bool :=
  bool_decide (st_node_id s = id) && match st_algorithm s with AlgRaft => true | _ => false end &&
  (st_cur_term s =? 0)%N && match st_role s with Some NFollower => true | _ => false end.

Definition node_peek_state_returns_snapshot : bool :=
  let id := mkNodeId "solo" 1 in
  match solo_raft id with Some nd => is_fresh_raft id (compute_state nd) | None => false end.

Definition node_handle_status_returns_initial_state : bool :=
  let id := mkNodeId "solo" 1 in
  match solo_raft id with Some nd => is_fresh_raft id (state nd) | None => false end.

(** [live_nonce] for any streams of random draws. *)
Definition live_nonce_is_never_zero (draws : list (list N)) : bool :=
  forallb (λ ds, is_none_or (live_nonce ds) (λ n, negb (n =? 0)%N)) draws.

Definition node_unit_tests : list bool :=
  [node_paxos_returns_node_handle_and_receiver; paxos_constructor_works; raft_constructor_works;
   propose_returns_channel_full_when_full; propose_channel_full; propose_returns_decided_value;
   propose_resolves_when_decision_receiver_is_full; pending_does_not_leak; single_node_consensus;
   propose_cancelled_on_drop; pending_map_drop_fires_cancelled;
   pending_map_matches_recovered_nonce_by_value; three_node_consensus;
   paxos_node_drops_raft_messages_silently; node_state_is_constructible;
   node_peek_state_returns_snapshot; node_handle_status_returns_initial_state].
End tests.

(** The model passes the unit tests of the node, with and without the
    [multi-paxos] feature, and draws no zero nonce from any random stream. *)
Lemma node_unit_tests_pass mp draws :
  forallb id (node_unit_tests mp) = true ∧ live_nonce_is_never_zero draws = true.
Proof.
  split; [destruct mp; vm_compute; reflexivity|].
  apply forallb_forall. intros ds _. destruct (live_nonce ds) as [n|] eqn:E; [|done]. simpl.
  apply live_nonce_nonzero in E. by apply negb_true_iff, N.eqb_neq.
Qed.
