(* ===== verification/Transport.v ===== *)
(** * Transports

    Models the byte transports of [daccord/src/transport/tcp.rs] and
    [transport/uds.rs], which share their wire format and differ only in the
    kind of socket, and the in-memory transport of [transport/channel.rs]: how
    a message becomes a frame, the sender with its lazily opened connection,
    the task that reads one connection, the queue all connections feed, and
    the delays of the listener's rebind loop. The operating system is the
    argument of the operations: whether a connect succeeds, how much of a
    write goes out before it fails. *)

From S2P Require Import Prelude Types.
From Stdlib Require Import Strings.Byte.

Abbreviation bytes := (list Byte.byte) (only parsing).

Definition MAX_MESSAGE_SIZE : N := 16 * 1024 * 1024.
Definition LISTENER_CHANNEL_CAPACITY : nat := 1024.
Definition INITIAL_REBIND_DELAY_MS : N := 100.
Definition MAX_REBIND_DELAY_MS : N := 5000.

(** ** Frames *)

(** [n as u8]. *)
Definition byte_of (n : N) : Byte.byte := default x00 (Byte.of_N (n mod 256)).

(** [u32::to_be_bytes] and [u32::from_be_bytes]. *)
Definition to_be_bytes (n : N) : bytes :=
  [byte_of (n / 2 ^ 24); byte_of (n / 2 ^ 16); byte_of (n / 2 ^ 8); byte_of n].
Definition from_be_bytes (bs : bytes) : N :=
  foldl (λ acc b, acc * 256 + Byte.to_N b)%N 0%N bs.

(** [data.len() as u32]: the cast keeps the low 32 bits. *)
Definition len_u32 (data : bytes) : N := vlen data mod 2 ^ 32.

Definition frame (data : bytes) : bytes := to_be_bytes (len_u32 data) ++ data.

(** ** The sender *)

(** What the socket does with a [write_all]: all of it goes out, or the first
    [n] bytes do and the call fails. *)
Inductive WriteResult := Written | Broken (n : nat).

(** What the operating system answers to one [send]. *)
Record Io := mkIo {
  io_connect : bool;
  io_len : WriteResult;
  io_payload : WriteResult;
  io_flush : bool;
}.

Definition write_all (r : WriteResult) (bs : bytes) : bytes * bool :=
  match r with Written => (bs, true) | Broken n => (take n bs, false) end.

(** [TcpSender] and [UdsSender]: the connection, if one is open. *)
Record Sender := mkSender { conn : option nat }.

(** What a [send] did: the result, the connection it used (with whether it
    opened it) and the bytes it put there. *)
Record Sent := mkSent {
  sent_result : Result unit TransportError;
  sent_on : option (nat * bool);
  sent_bytes : bytes;
}.

(** [MessageSender::send]; [fresh] is the connection a connect would open. *)
Definition send (io : Io) (fresh : nat) (data : bytes) (s : Sender) : Sender * Sent :=
  match (match conn s with
         | Some c => Some (c, false)
         | None => if io_connect io then Some (fresh, true) else None
         end) with
  | None => (s, mkSent (Err TransportOther) None [])
  | Some (c, opened) =>
      let '(b1, ok1) := write_all (io_len io) (to_be_bytes (len_u32 data)) in
      if negb ok1 then (mkSender None, mkSent (Err Closed) (Some (c, opened)) b1) else
      let '(b2, ok2) := write_all (io_payload io) data in
      if negb ok2 then (mkSender None, mkSent (Err Closed) (Some (c, opened)) (b1 ++ b2)) else
      if negb (io_flush io)
      then (mkSender None, mkSent (Err Closed) (Some (c, opened)) (b1 ++ b2))
      else (mkSender (Some c), mkSent (Ok tt) (Some (c, opened)) (b1 ++ b2))
  end.

(** ** The transports

    The trait [MessageSender] of [transport.rs], its two socket
    implementations with the address each keeps, and the factories. *)
Class MessageSender (S : Type) := {
  message_send : Io → nat → bytes → S → S * Sent;
}.

Record TcpSender := mkTcpSender { tcp_addr : string; tcp_conn : Sender }.
Definition TcpSender_new (addr : string) : TcpSender := mkTcpSender addr (mkSender None).
#[export] Instance TcpSender_impl : MessageSender TcpSender := {|
  message_send io fresh data s :=
    let '(c, r) := send io fresh data (tcp_conn s) in (mkTcpSender (tcp_addr s) c, r);
|}.

Record UdsSender := mkUdsSender { uds_path : string; uds_conn : Sender }.
Definition UdsSender_new (path : string) : UdsSender := mkUdsSender path (mkSender None).
#[export] Instance UdsSender_impl : MessageSender UdsSender := {|
  message_send io fresh data s :=
    let '(c, r) := send io fresh data (uds_conn s) in (mkUdsSender (uds_path s) c, r);
|}.

(** [create]: the senders, once the listener is bound. *)
Definition TcpTransport_create (bind : Result unit TransportError) (peers : list (NodeId * string))
    : Result (list (NodeId * TcpSender)) TransportError :=
  match bind with
  | Err e => Err e
  | Ok _ => Ok (map (λ '(id, addr), (id, TcpSender_new addr)) peers)
  end.

(** [UdsReceiver::bind]: a file left at the path is removed first; binding
    fails while one is there. *)
Definition uds_bind (stale removable os_ok : bool) : Result unit TransportError :=
  let there := if removable then false else stale in
  if there then Err TransportOther else if os_ok then Ok tt else Err TransportOther.

Definition UdsTransport_create (bind : Result unit TransportError) (peers : list (NodeId * string))
    : Result (list (NodeId * UdsSender)) TransportError :=
  match bind with
  | Err e => Err e
  | Ok _ => Ok (map (λ '(id, path), (id, UdsSender_new path)) peers)
  end.

(** ** The reader of a connection *)

(** [reader_task] between two bytes: in the length prefix, in the payload, or
    ended. [read_exact] collects bytes until its buffer is full. *)
Inductive Reader :=
| InLength (got : bytes)
| InPayload (len : N) (got : bytes)
| Ended.

Definition reader_start : Reader := InLength [].

(** The loop once the buffer of the current [read_exact] may be full: a
    buffer of length 0 is full at once. *)
Definition start_payload (len : N) : Reader * option bytes :=
  if (MAX_MESSAGE_SIZE <? len)%N then (Ended, None)
  else if (len =? 0)%N then (reader_start, Some [])
  else (InPayload len [], None).

Definition read_byte (r : Reader) (b : Byte.byte) : Reader * option bytes :=
  match r with
  | InLength got =>
      let got := got ++ [b] in
      if (vlen got =? 4)%N then start_payload (from_be_bytes got) else (InLength got, None)
  | InPayload len got =>
      let got := got ++ [b] in
      if (vlen got =? len)%N then (reader_start, Some got) else (InPayload len got, None)
  | Ended => (Ended, None)
  end.

(** The messages a stretch of bytes completes. *)
Fixpoint read_all (r : Reader) (bs : bytes) : Reader * list bytes :=
  match bs with
  | [] => (r, [])
  | b :: bs =>
      let '(r, m) := read_byte r b in
      let '(r', ms) := read_all r bs in
      (r', option_list m ++ ms)
  end.

(** ** The rebind loop of the listener *)

(** The delay is doubled after a failed bind, up to the maximum. *)
Definition next_delay (delay_ms : N) : N := N.min (delay_ms * 2) MAX_REBIND_DELAY_MS.

(** [(delay_ms as i64 + jitter).max(10) as u64]. *)
Definition actual_delay (delay_ms : N) (jitter : Z) : N :=
  Z.to_N (Z.max (Z.of_N delay_ms + jitter) 10).

(** One attempt: the jitter drawn, and whether the bind succeeds. *)
Record Attempt := mkAttempt { at_jitter : Z; at_bind : bool; at_closed : bool }.

(** The sleeps of the loop, and whether it ended with a new listener; [None]
    when the attempts given do not end it. *)
Fixpoint rebind (delay_ms : N) (attempts : list Attempt) : list N * option bool :=
  match attempts with
  | [] => ([], None)
  | a :: rest =>
      if at_closed a then ([], Some false) else
      let d := actual_delay delay_ms (at_jitter a) in
      if at_bind a then ([d], Some true) else
      let '(ds, r) := rebind (next_delay delay_ms) rest in
      (d :: ds, r)
  end.

(** The loop of [UdsReceiver::accept_loop]: the socket file is removed before
    every attempt to bind. *)
Record UdsAttempt := mkUdsAttempt {
  ua_jitter : Z; ua_stale : bool; ua_removable : bool; ua_os_ok : bool; ua_closed : bool }.

Fixpoint uds_rebind (delay_ms : N) (attempts : list UdsAttempt) : list N * option bool :=
  match attempts with
  | [] => ([], None)
  | a :: rest =>
      if ua_closed a then ([], Some false) else
      let d := actual_delay delay_ms (ua_jitter a) in
      match uds_bind (ua_stale a) (ua_removable a) (ua_os_ok a) with
      | Ok _ => ([d], Some true)
      | Err _ => let '(ds, r) := uds_rebind (next_delay delay_ms) rest in (d :: ds, r)
      end
  end.

(** ** A link: one sender, the receiver's connections and its queue *)

(** A connection accepted by the listener: the bytes still to be read, and
    its reader task. *)
Record Pipe := mkPipe { unread : bytes; reader : Reader }.

(** [attempts] and [reads] record what [send] was called with and what the
    reader tasks put on the queue, each with its connection; [taken] is the
    part of [reads] that [recv] has returned. *)
Record Link := mkLink {
  sender_end : Sender;
  pipes : list Pipe;
  queue : list bytes;
  attempts : list (nat * bytes);
  reads : list (nat * bytes);
  taken : list bytes;
}.

Definition link_start : Link := mkLink (mkSender None) [] [] [] [] [].

(** What happens on a link: a [send], a reader task reading a byte (it waits
    while the queue is full), a connection lost with all that is unread, a
    [recv]. *)
Inductive LinkAct :=
| LSend (io : Io) (data : bytes)
| LRead (c : nat)
| LLose (c : nat)
| LRecv.

Definition write_pipe (c : nat) (opened : bool) (bs : bytes) (ps : list Pipe) : list Pipe :=
  let ps := if opened then ps ++ [mkPipe [] reader_start] else ps in
  alter (λ p, mkPipe (unread p ++ bs) (reader p)) c ps.

Definition link_act (a : LinkAct) (l : Link) : option Link :=
  match a with
  | LSend io data =>
      let '(s, r) := send io (length (pipes l)) data (sender_end l) in
      match sent_on r with
      | None => Some {| l with sender_end := s |}
      | Some (c, opened) => Some {| l with
          sender_end := s; pipes := write_pipe c opened (sent_bytes r) (pipes l);
          attempts := attempts l ++ [(c, data)] |}
      end
  | LRead c =>
      p ← pipes l !! c;
      match unread p with
      | [] => None
      | b :: rest =>
          let '(r, m) := read_byte (reader p) b in
          if bool_decide (is_Some m ∧ LISTENER_CHANNEL_CAPACITY ≤ length (queue l)) then None
          else Some {| l with
            pipes := <[c := mkPipe rest r]> (pipes l);
            queue := queue l ++ option_list m;
            reads := reads l ++ (pair c <$> option_list m) |}
      end
  | LLose c =>
      p ← pipes l !! c;
      Some {| l with pipes := <[c := mkPipe [] Ended]> (pipes l) |}
  | LRecv =>
      match queue l with
      | [] => None
      | m :: q => Some {| l with queue := q; taken := taken l ++ [m] |}
      end
  end.

Definition link_run (acts : list LinkAct) (l : Link) : option Link :=
  foldl (λ o a, l ← o; link_act a l) (Some l) acts.

(** ** The in-memory transport *)

(** [channel] (bounded) and [unbounded_channel]: what is queued, the number of
    sender clones and whether the receiver is alive. *)
Record ChannelTransport := mkChannelTransport {
  ct_queue : list bytes;
  ct_capacity : option nat;
  ct_senders : nat;
  ct_receiver : bool;
}.

Definition channel (capacity : nat) : ChannelTransport :=
  mkChannelTransport [] (Some capacity) 1 true.
Definition unbounded_channel : ChannelTransport := mkChannelTransport [] None 1 true.

Definition clone_sender (ch : ChannelTransport) : ChannelTransport :=
  {| ch with ct_senders := S (ct_senders ch) |}.
Definition drop_sender (ch : ChannelTransport) : ChannelTransport :=
  {| ch with ct_senders := pred (ct_senders ch) |}.
Definition drop_receiver (ch : ChannelTransport) : ChannelTransport :=
  {| ch with ct_receiver := false; ct_queue := [] |}.

(** [ChannelSender::send]; [None] while a bounded channel is full. *)
Definition channel_send (data : bytes) (ch : ChannelTransport)
    : option (ChannelTransport * Result unit TransportError) :=
  if negb (ct_receiver ch) then Some (ch, Err Closed) else
  if is_some_and (ct_capacity ch) (λ cap, bool_decide (cap ≤ length (ct_queue ch))) then None
  else Some ({| ch with ct_queue := ct_queue ch ++ [data] |}, Ok tt).

(** [ChannelReceiver::recv]; [None] while it waits. *)
Definition channel_recv (ch : ChannelTransport)
    : option (ChannelTransport * Result bytes TransportError) :=
  match ct_queue ch with
  | m :: q => Some ({| ch with ct_queue := q |}, Ok m)
  | [] => if bool_decide (ct_senders ch = 0) then Some (ch, Err Closed) else None
  end.
