(* ===== verification/TransportProps.v ===== *)
(** * Transports: framing and order

    A frame survives the wire however the bytes are split; over one
    connection messages arrive in order, each once and unchanged, up to a
    point; across a reconnect they may overtake each other; and a message
    over the size limit is accepted by the sender and ends the connection at
    the receiver. *)

From S2P Require Import Prelude Types Transport.
From Stdlib Require Import Strings.Byte.

#[local] Arguments frame : simpl never.

(** ** Bytes *)
Lemma byte_of_N n : Byte.to_N (byte_of n) = (n mod 256)%N.
Proof.
  unfold byte_of. destruct (Byte.of_N (n mod 256)) as [b|] eqn:Hb; simpl.
  - by apply Byte.to_of_N.
  - apply Byte.of_N_None_iff in Hb. pose proof (N.mod_lt n 256). lia.
Qed.

Lemma from_to_be_bytes n : (n < 2 ^ 32)%N → from_be_bytes (to_be_bytes n) = n.
Proof.
  intros Hn. unfold from_be_bytes, to_be_bytes. simpl. rewrite !byte_of_N.
  change (2 ^ 24)%N with (256 * 256 * 256)%N. change (2 ^ 16)%N with (256 * 256)%N.
  change (2 ^ 8)%N with 256%N. rewrite <- !N.Div0.div_div.
  pose proof (N.div_mod' n 256). pose proof (N.div_mod' (n / 256) 256).
  pose proof (N.div_mod' (n / 256 / 256) 256).
  rewrite (N.mod_small (n / 256 / 256 / 256)); [lia|].
  rewrite !N.Div0.div_div. apply N.Div0.div_lt_upper_bound. lia.
Qed.

Lemma length_to_be_bytes n : length (to_be_bytes n) = 4.
Proof. done. Qed.

(** ** Reading *)
Definition sized (data : bytes) : Prop := (vlen data ≤ MAX_MESSAGE_SIZE)%N.

Lemma sized_u32 data : sized data → len_u32 data = vlen data.
Proof. unfold sized, MAX_MESSAGE_SIZE, len_u32. intros. apply N.mod_small. lia. Qed.

Lemma read_all_app r bs bs' :
  read_all r (bs ++ bs') =
  let '(r1, ms) := read_all r bs in
  let '(r2, ms') := read_all r1 bs' in (r2, ms ++ ms').
Proof.
  revert r. induction bs as [|b bs IH]; intros r; simpl; [by destruct (read_all r bs')|].
  destruct (read_byte r b) as [r1 m]. rewrite IH.
  destruct (read_all r1 bs) as [r2 ms]. destruct (read_all r2 bs') as [r3 ms'].
  by rewrite app_assoc.
Qed.

Lemma read_all_ended bs : read_all Ended bs = (Ended, []).
Proof. induction bs as [|b bs IH]; simpl; [done|]. by rewrite IH. Qed.

Lemma read_length a b c d :
  read_all reader_start [a; b; c; d] =
  let '(r, m) := start_payload (from_be_bytes [a; b; c; d]) in (r, option_list m).
Proof. simpl. destruct (start_payload _) as [r [m|]]; done. Qed.

Lemma read_payload_part len got bs :
  (vlen got + vlen bs < len)%N → read_all (InPayload len got) bs = (InPayload len (got ++ bs), []).
Proof.
  revert got. induction bs as [|b bs IH]; intros got Hl; simpl; [by rewrite app_nil_r|].
  assert (vlen (b :: bs) = 1 + vlen bs)%N as Hc by (unfold vlen; simpl; lia).
  rewrite vlen_app. change (vlen [b]) with 1%N.
  destruct (N.eqb_spec (vlen got + 1) len) as [He|He]; [lia|].
  rewrite IH by (rewrite vlen_app; change (vlen [b]) with 1%N; lia). by rewrite <- app_assoc.
Qed.

Lemma read_payload_whole len got bs :
  bs ≠ [] → (vlen got + vlen bs = len)%N →
  read_all (InPayload len got) bs = (reader_start, [got ++ bs]).
Proof.
  intros Hne Hl. destruct (exists_last Hne) as (bs' & b & ->).
  rewrite vlen_app in Hl. change (vlen [b]) with 1%N in Hl.
  rewrite read_all_app, read_payload_part by lia. simpl. rewrite !vlen_app.
  change (vlen [b]) with 1%N. destruct (N.eqb_spec (vlen got + vlen bs' + 1) len) as [He|He]; [|lia].
  simpl. by rewrite app_assoc.
Qed.

Lemma start_payload_sized data :
  sized data → data ≠ [] → start_payload (vlen data) = (InPayload (vlen data) [], None).
Proof.
  unfold sized, start_payload. intros Hs Hne.
  destruct (N.ltb_spec MAX_MESSAGE_SIZE (vlen data)); [lia|].
  destruct (N.eqb_spec (vlen data) 0) as [He|]; [|done]. by destruct data.
Qed.

Lemma read_header data :
  sized data → data ≠ [] →
  read_all reader_start (to_be_bytes (len_u32 data)) = (InPayload (vlen data) [], []).
Proof.
  intros Hs Hne. unfold to_be_bytes. rewrite read_length.
  change [byte_of (len_u32 data / 2 ^ 24); byte_of (len_u32 data / 2 ^ 16);
    byte_of (len_u32 data / 2 ^ 8); byte_of (len_u32 data)] with (to_be_bytes (len_u32 data)).
  rewrite from_to_be_bytes by (unfold len_u32; apply N.mod_lt; done).
  by rewrite sized_u32, start_payload_sized.
Qed.

Lemma read_frame data : sized data → read_all reader_start (frame data) = (reader_start, [data]).
Proof.
  intros Hs. destruct (decide (data = [])) as [->|Hne]; [done|].
  unfold frame. rewrite read_all_app, read_header by done.
  by rewrite read_payload_whole by (done || simpl; lia).
Qed.

(** A proper part of a frame completes nothing. *)
Lemma read_part data bs :
  sized data → bs `prefix_of` frame data → length bs < length (frame data) →
  (read_all reader_start bs).2 = [].
Proof.
  intros Hs Hpre Hlen. unfold frame in Hpre. destruct (decide (length bs < 4)) as [H4|H4].
  { do 4 (destruct bs as [|? bs]; [done|]). simpl in H4. lia. }
  destruct Hpre as [k Hk].
  assert (∃ bs', bs = to_be_bytes (len_u32 data) ++ bs' ∧ data = bs' ++ k) as (bs' & -> & ->).
  { exists (drop 4 bs). apply app_eq_inv in Hk as [(j & E & Hj)|(j & E & Hj)].
    - assert (j = []) as ->.
      { apply (f_equal length) in E. rewrite length_app, length_to_be_bytes in E.
        destruct j; [done|simpl in E; lia]. }
      rewrite app_nil_r in E. subst bs. by simpl in Hj |- *.
    - subst bs. by rewrite drop_app_length' by done. }
  unfold frame in Hlen. rewrite !length_app in Hlen.
  rewrite read_all_app, read_header.
  - rewrite read_payload_part; [done|]. unfold vlen. rewrite length_app. simpl. lia.
  - done.
  - intros E. apply (f_equal length) in E. rewrite length_app in E. simpl in E. lia.
Qed.

Definition stream (ms : list bytes) : bytes := concat (frame <$> ms).

Lemma stream_snoc ms m : stream (ms ++ [m]) = stream ms ++ frame m.
Proof. unfold stream. rewrite fmap_app, concat_app. simpl. by rewrite app_nil_r. Qed.

Lemma read_stream ms bs :
  Forall sized ms → bs `prefix_of` stream ms →
  (read_all reader_start bs).2 `prefix_of` ms ∧
  (bs = stream ms → read_all reader_start bs = (reader_start, ms)).
Proof.
  intros Hs. revert bs. induction Hs as [|m ms Hm Hms IH]; intros bs Hpre.
  { apply prefix_nil_inv in Hpre as ->. done. }
  change (stream (m :: ms)) with (frame m ++ stream ms) in *.
  destruct (decide (length bs < length (frame m))) as [Hl|Hl].
  - split.
    + rewrite (read_part m); [apply prefix_nil|done| |done].
      destruct Hpre as [k Hk]. apply app_eq_inv in Hk as [(j & E & _)|(j & E & _)].
      * exists j. done.
      * apply (f_equal length) in E. rewrite length_app in E. lia.
    + intros ->. rewrite length_app in Hl. lia.
  - destruct Hpre as [k Hk].
    assert (∃ bs', bs = frame m ++ bs' ∧ stream ms = bs' ++ k) as (bs' & -> & Hk').
    { apply app_eq_inv in Hk as [(j & E & Hj)|(j & E & Hj)]; [|eauto].
      assert (j = []) as ->.
      { apply (f_equal length) in E. rewrite length_app in E.
        destruct j; [done|]. cbn [length] in E. lia. }
      rewrite app_nil_r in E. exists []. rewrite E, app_nil_r. by simpl in Hj |- *. }
    destruct (IH bs') as [Hp Heq]; [by exists k|].
    rewrite read_all_app, read_frame by done.
    destruct (read_all reader_start bs') as [r ms'] eqn:Hr. cbn [fst snd] in *. split.
    + by apply prefix_cons.
    + intros E. apply app_inv_head in E. by injection (Heq E) as -> ->.
Qed.

Lemma frames_prefix ms bs :
  Forall sized ms → bs `prefix_of` stream ms → (read_all reader_start bs).2 `prefix_of` ms.
Proof. intros. by apply read_stream. Qed.

(** Frames survive the wire: whatever messages within the size limit are
    sent over a connection and however much of the byte stream has arrived,
    the reader has delivered a prefix of those messages, unchanged and in
    order; and all of them once all bytes have arrived. *)
Theorem frames_round_trip ms bs :
  Forall sized ms → bs `prefix_of` stream ms →
  (read_all reader_start bs).2 `prefix_of` ms ∧
  (bs = stream ms → read_all reader_start bs = (reader_start, ms)).
Proof. apply read_stream. Qed.

(** ** The sender *)

(** What [send] reports: a success means the whole frame is on the
    connection, which stays open; a failed write leaves part of the frame and
    no connection; a failed connect changes nothing. *)
Lemma send_spec io fresh data s s1 r :
  send io fresh data s = (s1, r) →
  match sent_on r with
  | None => s1 = s ∧ conn s = None ∧ sent_result r = Err TransportOther
  | Some (c, opened) =>
      (if opened then conn s = None ∧ c = fresh else conn s = Some c) ∧
      sent_bytes r `prefix_of` frame data ∧
      ((sent_result r = Ok tt ∧ sent_bytes r = frame data ∧ conn s1 = Some c) ∨
       (sent_result r = Err Closed ∧ conn s1 = None))
  end.
Proof.
  unfold send, frame. generalize (to_be_bytes (len_u32 data)) as hd. intros hd.
  assert (∀ c opened,
    (let '(b1, ok1) := write_all (io_len io) hd in
      if negb ok1 then (mkSender None, mkSent (Err Closed) (Some (c, opened)) b1) else
      let '(b2, ok2) := write_all (io_payload io) data in
      if negb ok2 then (mkSender None, mkSent (Err Closed) (Some (c, opened)) (b1 ++ b2)) else
      if negb (io_flush io)
      then (mkSender None, mkSent (Err Closed) (Some (c, opened)) (b1 ++ b2))
      else (mkSender (Some c), mkSent (Ok tt) (Some (c, opened)) (b1 ++ b2))) = (s1, r) →
    sent_on r = Some (c, opened) ∧ sent_bytes r `prefix_of` hd ++ data ∧
    ((sent_result r = Ok tt ∧ sent_bytes r = hd ++ data ∧ conn s1 = Some c) ∨
     (sent_result r = Err Closed ∧ conn s1 = None))) as Hw.
  { intros c opened. unfold write_all. destruct (io_len io) as [|n]; cbn [negb].
    - destruct (io_payload io) as [|n]; cbn [negb]; [destruct (io_flush io); cbn [negb]|];
        intros [= <- <-]; cbn [sent_on sent_bytes sent_result conn]; split_and!; auto.
      apply prefix_app, prefix_take.
    - intros [= <- <-]. cbn [sent_on sent_bytes sent_result conn]. split_and!; auto.
      apply prefix_app_r, prefix_take. }
  destruct (conn s) as [c|] eqn:Hc.
  - intros (-> & ? & ?)%Hw. auto.
  - destruct (io_connect io).
    + intros (-> & ? & ?)%Hw. auto.
    + intros [= <- <-]. done.
Qed.

(** ** Links *)
Definition on (c : nat) (l : list (nat * bytes)) : list bytes :=
  omap (λ x, if bool_decide (x.1 = c) then Some x.2 else None) l.

Lemma on_app c l l' : on c (l ++ l') = on c l ++ on c l'.
Proof. apply omap_app. Qed.
Lemma on_one c c' m : on c [(c', m)] = if bool_decide (c' = c) then [m] else [].
Proof. unfold on. simpl. by case_bool_decide. Qed.
Lemma on_opt c c' m :
  on c (pair c' <$> option_list m) = if bool_decide (c' = c) then option_list m else [].
Proof. destruct m; simpl; [apply on_one|by case_bool_decide]. Qed.

(** What is known of connection [c] with pipe [p]: [R] is what its reader has
    read. *)
Definition pipe_ok (l : Link) (c : nat) (p : Pipe) : Prop :=
  ∃ R r, read_all reader_start R = (r, on c (reads l)) ∧
    R `prefix_of` stream (on c (attempts l)) ∧
    (reader p = Ended ∨
     reader p = r ∧ R ++ unread p `prefix_of` stream (on c (attempts l)) ∧
     (conn (sender_end l) = Some c → R ++ unread p = stream (on c (attempts l)))).

Record link_inv (l : Link) : Prop := {
  li_pipes c p : pipes l !! c = Some p → pipe_ok l c p;
  li_fresh c : length (pipes l) ≤ c → on c (attempts l) = [] ∧ on c (reads l) = [];
  li_conn c : conn (sender_end l) = Some c → c < length (pipes l);
  li_queue : snd <$> reads l = taken l ++ queue l;
}.

Lemma stream_grow ms k : stream ms `prefix_of` stream (ms ++ k).
Proof. unfold stream. rewrite fmap_app, concat_app. by eexists. Qed.

Lemma link_inv_start : link_inv link_start.
Proof. by split. Qed.

Lemma pipe_ok_write l c p opened s1 data bs :
  pipe_ok l c p → conn (sender_end l) = Some c →
  bs `prefix_of` frame data → (conn s1 = Some c → bs = frame data) →
  pipe_ok {| l with sender_end := s1; pipes := write_pipe c opened bs (pipes l);
                    attempts := attempts l ++ [(c, data)] |} c (mkPipe (unread p ++ bs) (reader p)).
Proof.
  intros (R & r & Hr & Hp & Hcase) Hc Hbs Hok. exists R, r. cbn [reads attempts sender_end].
  rewrite on_app, on_one, bool_decide_eq_true_2 by done. split_and!; [done| |].
  - etrans; [done|]. apply stream_grow.
  - destruct Hcase as [?|(He & _ & Heq)]; [by left|right]. cbn [reader unread].
    rewrite stream_snoc, app_assoc, (Heq Hc). split_and!; [done|by apply prefix_app|].
    intros H1. by rewrite (Hok H1).
Qed.

Lemma pipe_ok_other l l1 c p :
  on c (attempts l1) = on c (attempts l) → on c (reads l1) = on c (reads l) →
  (conn (sender_end l1) = Some c → conn (sender_end l) = Some c) →
  pipe_ok l c p → pipe_ok l1 c p.
Proof.
  intros Ha Hr Hc (R & r & ?). exists R, r. rewrite Ha, Hr. naive_solver.
Qed.

Lemma link_inv_open l :
  link_inv l → conn (sender_end l) = None →
  link_inv {| l with sender_end := mkSender (Some (length (pipes l)));
                     pipes := pipes l ++ [mkPipe [] reader_start] |}.
Proof.
  intros [Hp Hf Hc Hq] Hn. split; cbn [pipes sender_end attempts reads conn taken queue]; [| | |done].
  - intros c p [Hl|[Hge Hl]]%lookup_app_Some.
    + pose proof (lookup_lt_Some _ _ _ Hl). eapply (pipe_ok_other l); [done|done| |by apply Hp].
      cbn [sender_end conn]. intros [= E]. lia.
    + apply list_lookup_singleton_Some in Hl as [Hz <-].
      destruct (Hf c) as [Ha Hr]; [lia|]. exists [], reader_start. cbn [reads attempts].
      rewrite Ha, Hr. split_and!; [done|done|right]. by split_and!.
  - intros c. rewrite length_app. simpl. intros. apply Hf. lia.
  - intros c [= <-]. rewrite length_app. simpl. lia.
Qed.

Lemma link_inv_write l c s1 data bs :
  link_inv l → conn (sender_end l) = Some c →
  bs `prefix_of` frame data → (conn s1 = Some c ∧ bs = frame data ∨ conn s1 = None) →
  link_inv {| l with sender_end := s1; pipes := write_pipe c false bs (pipes l);
                     attempts := attempts l ++ [(c, data)] |}.
Proof.
  intros [Hp Hf Hc Hq] Hn Hbs Hs1. pose proof (Hc _ Hn) as Hlt. unfold write_pipe.
  split; cbn [pipes sender_end attempts reads taken queue]; [| | |done].
  - intros c' p Hl. destruct (decide (c' = c)) as [->|Hne].
    + rewrite list_lookup_alter_eq in Hl. apply fmap_Some in Hl as (p0 & Hl & ->).
      apply (pipe_ok_write l c p0 false); [by apply Hp|done|done|].
      intros. destruct Hs1 as [[_ ?]|?]; [done|congruence].
    + rewrite list_lookup_alter_ne in Hl by done.
      eapply (pipe_ok_other l); cbn [attempts reads sender_end]; [|done| |by apply Hp].
      * rewrite on_app, on_one, bool_decide_eq_false_2 by done. by rewrite app_nil_r.
      * intros. destruct Hs1 as [[? _]|?]; congruence.
  - intros c'. rewrite length_alter. intros Hge. destruct (Hf c' Hge) as [Ha Hr].
    rewrite on_app, on_one, Ha, Hr, bool_decide_eq_false_2 by lia. done.
  - intros c' Hc'. rewrite length_alter. destruct Hs1 as [[? _]|?]; [|congruence].
    apply Hc. congruence.
Qed.

Lemma link_inv_read l c p b rest r m q :
  link_inv l → pipes l !! c = Some p → unread p = b :: rest → read_byte (reader p) b = (r, m) →
  q = queue l ++ option_list m →
  link_inv {| l with pipes := <[c := mkPipe rest r]> (pipes l); queue := q;
                     reads := reads l ++ (pair c <$> option_list m) |}.
Proof.
  intros [Hp Hf Hc Hq] Hl Hu Hr ->. pose proof (lookup_lt_Some _ _ _ Hl) as Hlt.
  split; cbn [pipes sender_end attempts reads taken queue].
  - intros c' p' Hl'. destruct (decide (c' = c)) as [->|Hne].
    + rewrite list_lookup_insert_eq in Hl' by done. injection Hl' as <-.
      destruct (Hp _ _ Hl) as (R & r0 & HR & Hpre & Hcase). cbn [unread reader].
      destruct Hcase as [He|(He & Hpre' & Heq)].
      * rewrite He in Hr. injection Hr as <- <-. exists R, r0. cbn [reads attempts].
        rewrite on_app. simpl. rewrite app_nil_r. auto.
      * rewrite He in Hr. rewrite Hu in *. exists (R ++ [b]), r. cbn [reads attempts sender_end].
        rewrite on_app, on_opt, bool_decide_eq_true_2 by done.
        rewrite read_all_app, HR. simpl. rewrite Hr.
        assert (R ++ b :: rest = (R ++ [b]) ++ rest) as E by (by rewrite <- app_assoc).
        rewrite E in *. split_and!; [by rewrite app_nil_r| |right; by split_and!].
        etrans; [|exact Hpre']. by apply prefix_app_r.
    + rewrite list_lookup_insert_ne in Hl' by done.
      eapply (pipe_ok_other l); cbn [attempts reads sender_end]; [done| |done|by apply Hp].
      rewrite on_app, on_opt, bool_decide_eq_false_2 by done. by rewrite app_nil_r.
  - intros c'. rewrite length_insert. intros Hge. destruct (Hf c' Hge) as [Ha Hre].
    rewrite on_app, on_opt, bool_decide_eq_false_2 by lia. by rewrite Hre, app_nil_r.
  - intros c'. rewrite length_insert. apply Hc.
  - rewrite fmap_app, Hq, <- app_assoc. f_equal. f_equal. by destruct m.
Qed.

Lemma link_inv_act a l l1 : link_inv l → link_act a l = Some l1 → link_inv l1.
Proof.
  intros Hi. destruct a as [io data|c|c|]; simpl.
  - destruct (send io (length (pipes l)) data (sender_end l)) as [s r] eqn:Hs.
    apply send_spec in Hs. destruct (sent_on r) as [[c opened]|]; intros [= <-].
    + destruct Hs as (Hc & Hpre & Hr).
      assert (conn s = Some c ∧ sent_bytes r = frame data ∨ conn s = None) as Hs1 by naive_solver.
      destruct opened.
      * destruct Hc as [Hc ->]. apply link_inv_open in Hi; [|done].
        by apply (link_inv_write _ (length (pipes l)) s data (sent_bytes r)) in Hi.
      * by apply link_inv_write.
    + destruct Hs as (-> & _). by destruct l.
  - destruct (pipes l !! c) as [p|] eqn:Hl; [|done]. simpl.
    destruct (unread p) as [|b rest] eqn:Hu; [done|].
    destruct (read_byte (reader p) b) as [r m] eqn:Hr. case_bool_decide; [done|]. intros [= <-].
    by eapply link_inv_read.
  - destruct (pipes l !! c) as [p|] eqn:Hl; [|done]. simpl. intros [= <-].
    destruct Hi as [Hp Hf Hc Hq]. split; cbn [pipes sender_end attempts reads taken queue]; [| | |done].
    + intros c' p' Hl'. destruct (decide (c' = c)) as [->|Hne].
      * rewrite list_lookup_insert_eq in Hl' by (by eapply lookup_lt_Some). injection Hl' as <-.
        destruct (Hp _ _ Hl) as (R & r & ? & ? & _). exists R, r. auto.
      * rewrite list_lookup_insert_ne in Hl' by done. by apply (pipe_ok_other l), Hp.
    + intros c'. rewrite length_insert. apply Hf.
    + intros c'. rewrite length_insert. apply Hc.
  - destruct (queue l) as [|m q] eqn:Hq; [done|]. intros [= <-].
    destruct Hi as [Hp Hf Hc Hqq]. split; cbn [pipes sender_end attempts reads taken queue]; [|done..|].
    + intros c p Hl. by apply (pipe_ok_other l), Hp.
    + by rewrite Hqq, Hq, <- app_assoc.
Qed.

Lemma link_inv_run acts l l1 : link_inv l → link_run acts l = Some l1 → link_inv l1.
Proof.
  unfold link_run. revert l. induction acts as [|a acts IH]; simpl; intros l Hi; [by intros [= <-]|].
  destruct (link_act a l) as [l2|] eqn:Ha; simpl.
  - apply IH. by eapply link_inv_act.
  - intros Hn. exfalso. clear -Hn. induction acts; simpl in Hn; auto. done.
Qed.

(** C16. One connection keeps order: over any run of a link (partial writes,
    failed flushes, lost connections, reconnects) in which all messages are
    within the size limit, what the reader of a connection has put on the
    queue is a prefix of the messages [send] was called with on that
    connection, in order, each once and unchanged; and what [recv] returned
    followed by the queue is what the readers produced. *)
Theorem connection_keeps_order acts l c :
  link_run acts link_start = Some l → Forall (λ x, sized x.2) (attempts l) →
  on c (reads l) `prefix_of` on c (attempts l) ∧ snd <$> reads l = taken l ++ queue l.
Proof.
  intros Hrun Hs. apply link_inv_run in Hrun as [Hp Hf _ Hq]; [|apply link_inv_start].
  split; [|done]. destruct (pipes l !! c) as [p|] eqn:Hl.
  - destruct (Hp _ _ Hl) as (R & r & HR & Hpre & _).
    apply frames_prefix in Hpre; [by rewrite HR in Hpre|].
    apply Forall_forall. intros m ([c' m'] & Hin & Hm)%list_elem_of_omap.
    rewrite Forall_forall in Hs. specialize (Hs _ Hin). simpl in *.
    by case_bool_decide; simplify_eq.
  - apply lookup_ge_None in Hl. destruct (Hf _ Hl) as [_ ->]. apply prefix_nil.
Qed.

(** ** Reconnects *)

Definition io_fine : Io := mkIo true Written Written true.
Definition msg1 : bytes := [x01].
Definition msg2 : bytes := [x02].
Definition msg3 : bytes := [x03].

(** [msg1] is written whole on connection 0; the write of [msg2] fails and
    drops the connection; [msg3] goes out on connection 1, whose reader task
    runs before that of connection 0. *)
Definition reconnect_acts : list LinkAct :=
  [LSend io_fine msg1; LSend (mkIo true (Broken 0) Written true) msg2; LSend io_fine msg3] ++
  replicate 5 (LRead 1) ++ replicate 5 (LRead 0) ++ [LRecv; LRecv].

(** Across a reconnect order is lost: there is a run in which [msg1] is
    sent before [msg3] by the same sender, both [send]s report success, and
    [recv] returns [msg3] before [msg1], because each connection has its own
    reader task feeding the shared queue. *)
Theorem reconnect_reorders :
  ∃ l, link_run reconnect_acts link_start = Some l ∧
       snd <$> attempts l = [msg1; msg2; msg3] ∧ taken l = [msg3; msg1].
Proof. eexists. split; [vm_compute; reflexivity|done]. Qed.

(** ** The size limit *)

Definition oversize (data : bytes) : Prop := (MAX_MESSAGE_SIZE < vlen data)%N.

(** The reader never completes a message over the limit. *)
Definition reader_ok (r : Reader) : Prop :=
  match r with InPayload len _ => (len ≤ MAX_MESSAGE_SIZE)%N | _ => True end.

Lemma read_byte_sized r b r1 m :
  reader_ok r → read_byte r b = (r1, m) → reader_ok r1 ∧ ∀ x, m = Some x → sized x.
Proof.
  intros Hr Hb. destruct r as [got|len got|]; simpl in Hb.
  - destruct (_ =? 4)%N; [|by injection Hb as <- <-]. unfold start_payload in Hb.
    destruct (N.ltb_spec MAX_MESSAGE_SIZE (from_be_bytes (got ++ [b]))); [by injection Hb as <- <-|].
    destruct (_ =? 0)%N; injection Hb as <- <-; split; try done. by intros x [= <-].
  - destruct (N.eqb_spec (vlen (got ++ [b])) len) as [<-|]; injection Hb as <- <-; [|done].
    split; [done|]. by intros x [= <-].
  - by injection Hb as <- <-.
Qed.

Lemma read_all_sized r bs : reader_ok r → Forall sized (read_all r bs).2.
Proof.
  revert r. induction bs as [|b bs IH]; simpl; intros r Hr; [done|].
  destruct (read_byte r b) as [r1 m] eqn:Hb. apply read_byte_sized in Hb as [Hr1 Hm]; [|done].
  specialize (IH r1 Hr1). destruct (read_all r1 bs) as [r2 ms]. simpl in *.
  destruct m as [x|]; [constructor; auto|done].
Qed.

(** What it makes of the frame of any message: the length prefix decides. *)
Lemma read_prefix data rest :
  read_all reader_start (frame data ++ rest) =
  let '(r, m) := start_payload (len_u32 data) in
  let '(r1, ms) := read_all r (data ++ rest) in (r1, option_list m ++ ms).
Proof.
  unfold frame. rewrite <- app_assoc, read_all_app.
  unfold to_be_bytes at 1. rewrite read_length.
  change [byte_of (len_u32 data / 2 ^ 24); byte_of (len_u32 data / 2 ^ 16);
    byte_of (len_u32 data / 2 ^ 8); byte_of (len_u32 data)] with (to_be_bytes (len_u32 data)).
  rewrite from_to_be_bytes by (unfold len_u32; apply N.mod_lt; done).
  by destruct (start_payload _).
Qed.

Lemma read_over data rest :
  (MAX_MESSAGE_SIZE < len_u32 data)%N →
  read_all reader_start (frame data ++ rest) = (Ended, []).
Proof.
  intros Hlo. rewrite read_prefix. unfold start_payload.
  destruct (N.ltb_spec MAX_MESSAGE_SIZE (len_u32 data)); [|lia]. by rewrite read_all_ended.
Qed.

Lemma read_wrapped data rest :
  (len_u32 data ≤ MAX_MESSAGE_SIZE)%N →
  ∃ ms, (read_all reader_start (frame data ++ rest)).2 =
    take (N.to_nat (len_u32 data)) data :: ms.
Proof.
  intros Hle. rewrite read_prefix. unfold start_payload.
  destruct (N.ltb_spec MAX_MESSAGE_SIZE (len_u32 data)); [lia|].
  destruct (N.eqb_spec (len_u32 data) 0) as [E|Hnz].
  { rewrite E. destruct (read_all reader_start _) as [r1 ms]. by exists ms. }
  set (n := N.to_nat (len_u32 data)) in *.
  assert (n ≤ length data) as Hn.
  { assert (len_u32 data ≤ vlen data)%N by (unfold len_u32; apply N.Div0.mod_le).
    unfold n, vlen in *. lia. }
  replace (data ++ rest) with (take n data ++ drop n data ++ rest)
    by (by rewrite app_assoc, take_drop).
  rewrite read_all_app.
  rewrite (read_payload_whole (len_u32 data) [] (take n data)); simpl.
  - destruct (read_all reader_start _) as [r1 ms]. by exists ms.
  - intros E. apply (f_equal length) in E. rewrite length_take in E. simpl in E. lia.
  - unfold vlen. rewrite length_take. simpl. lia.
Qed.

(** C35. A message over the size limit is reported sent and lost: [send] does
    not check the size. Whether the connection was open or is opened by this
    call, when the connect, the writes and the flush succeed it puts the whole
    frame on the connection and returns [Ok]. The reader task that has read
    the messages before it (all within the limit) delivers those, and never
    delivers it, whatever follows on the connection. If the length it writes,
    [data.len() as u32], is over the limit, the reader ends at that prefix
    and delivers nothing more. If that length has wrapped round below the
    limit, a message of 4 GiB or more, the reader delivers the first bytes
    of the message, as many as the wrapped length says, as if they were one. *)
Theorem oversize_sent_never_read data fresh s ms rest :
  oversize data → Forall sized ms →
  let '(s1, r) := send io_fine fresh data s in
  let '(rd, got) := read_all reader_start (stream ms ++ sent_bytes r ++ rest) in
  sent_result r = Ok tt ∧ conn s1 = Some (default fresh (conn s)) ∧
  sent_bytes r = frame data ∧ data ∉ got ∧
  ((MAX_MESSAGE_SIZE < len_u32 data)%N → rd = Ended ∧ got = ms) ∧
  ((len_u32 data ≤ MAX_MESSAGE_SIZE)%N →
     ms ++ [take (N.to_nat (len_u32 data)) data] `prefix_of` got).
Proof.
  intros Ho Hms.
  assert (send io_fine fresh data s = (mkSender (Some (default fresh (conn s))),
    mkSent (Ok tt) (Some (default fresh (conn s), negb (is_some (conn s)))) (frame data))) as ->.
  { unfold send, io_fine. by destruct (conn s). }
  cbn [sent_result conn sent_bytes].
  pose proof (read_all_sized reader_start (stream ms ++ frame data ++ rest) I) as Hall.
  rewrite read_all_app in Hall |- *. destruct (read_stream ms (stream ms)) as [_ Hr]; [done|done|].
  rewrite Hr in Hall |- * by done.
  pose proof (read_over data rest) as Hov. pose proof (read_wrapped data rest) as Hwr.
  destruct (read_all reader_start (frame data ++ rest)) as [rd got]. simpl in *.
  split_and!; [done..| | |].
  - intros Hin. eapply Forall_forall in Hall; [|exact Hin]. unfold sized, oversize in *. lia.
  - intros Hlo. injection (Hov Hlo) as -> ->. by rewrite app_nil_r.
  - intros Hle. destruct (Hwr Hle) as [k ->]. apply prefix_app. by exists k.
Qed.

Definition big_message : bytes := replicate (N.to_nat (MAX_MESSAGE_SIZE + 1)) x00.

Lemma oversize_big : oversize big_message.
Proof.
  unfold oversize, big_message, vlen. rewrite length_replicate, N2Nat.id.
  by apply N.lt_add_pos_r.
Qed.

Lemma big_length : len_u32 big_message = (MAX_MESSAGE_SIZE + 1)%N.
Proof. unfold len_u32, big_message, vlen. by rewrite length_replicate, N2Nat.id. Qed.

Lemma oversize_sent_never_read_witness :
  let '(s1, r) := send io_fine 1 big_message (mkSender (Some 0)) in
  sent_result r = Ok tt ∧ conn s1 = Some 0 ∧ sent_bytes r = frame big_message ∧
  read_all reader_start (stream [msg1] ++ sent_bytes r ++ frame msg2) = (Ended, [msg1]).
Proof.
  pose proof (oversize_sent_never_read big_message 1 (mkSender (Some 0)) [msg1] (frame msg2)
    oversize_big) as Hs.
  destruct (send io_fine 1 big_message (mkSender (Some 0))) as [s1 r].
  destruct (read_all reader_start (stream [msg1] ++ sent_bytes r ++ frame msg2)) as [rd got].
  destruct Hs as (-> & -> & -> & _ & Hover & _); [by apply Forall_singleton|].
  destruct Hover as [-> ->]; [rewrite big_length; by apply N.lt_add_pos_r|done].
Defined.

Lemma frames_round_trip_witness :
  Forall sized [msg1; msg2] ∧ stream [msg1; msg2] `prefix_of` stream [msg1; msg2] ∧
  read_all reader_start (stream [msg1; msg2]) = (reader_start, [msg1; msg2]).
Proof.
  assert (Forall sized [msg1; msg2]) as H by (repeat constructor; done).
  split; [exact H|]. split; [done|]. by apply (frames_round_trip [msg1; msg2] _ H).
Defined.

Lemma connection_keeps_order_witness :
  ∃ l, link_run reconnect_acts link_start = Some l ∧ Forall (λ x, sized x.2) (attempts l) ∧
       on 0 (reads l) = [msg1] ∧ on 0 (reads l) `prefix_of` on 0 (attempts l).
Proof.
  eexists. split; [vm_compute; reflexivity|].
  split; [repeat constructor; vm_compute; discriminate|]. split; [done|].
  apply (connection_keeps_order reconnect_acts _ 0).
  - vm_compute. reflexivity.
  - repeat constructor; vm_compute; discriminate.
Defined.

(** ** The rebind loop *)

(** A jitter of at most a quarter of the delay. *)
Definition jitter_ok (delay_ms : N) (j : Z) : Prop :=
  (Z.abs j * 4 ≤ Z.of_N delay_ms)%Z.

(** The jitters drawn along the loop are within a quarter of its delays. *)
Fixpoint jitters_ok (delay_ms : N) (l : list Attempt) : Prop :=
  match l with
  | [] => True
  | a :: l => jitter_ok delay_ms (at_jitter a) ∧ jitters_ok (next_delay delay_ms) l
  end.

Lemma rebind_delays_from delay_ms l :
  (INITIAL_REBIND_DELAY_MS ≤ delay_ms ≤ MAX_REBIND_DELAY_MS)%N → jitters_ok delay_ms l →
  Forall (λ d, 75 ≤ d ≤ 6250)%N (rebind delay_ms l).1.
Proof.
  revert delay_ms. unfold INITIAL_REBIND_DELAY_MS, MAX_REBIND_DELAY_MS.
  induction l as [|a l IH]; intros d Hd; simpl; [constructor|]. intros [Hj Hl].
  destruct (at_closed a); [constructor|].
  assert (75 ≤ actual_delay d (at_jitter a) ≤ 6250)%N.
  { unfold actual_delay, jitter_ok in *. lia. }
  destruct (at_bind a); [by apply Forall_singleton|].
  specialize (IH (next_delay d)). destruct (rebind (next_delay d) l) as [ds r]. simpl in *.
  constructor; [done|]. apply IH; [|done]. unfold next_delay, MAX_REBIND_DELAY_MS. lia.
Qed.

(** The loop goes on exactly while binds fail and the receiver is alive. *)
Lemma rebind_ends delay_ms l :
  (rebind delay_ms l).2 = None ↔ Forall (λ a, at_closed a = false ∧ at_bind a = false) l.
Proof.
  revert delay_ms. induction l as [|a l IH]; intros d; simpl; [done|]. rewrite Forall_cons.
  destruct (at_closed a) eqn:Hc; [naive_solver|].
  destruct (at_bind a) eqn:Hb; [naive_solver|].
  specialize (IH (next_delay d)). destruct (rebind (next_delay d) l) as [ds r]. simpl in *.
  rewrite IH. naive_solver.
Qed.

(** The loop of the Unix sockets is that of TCP with the outcome of its
    bind, which a stale file that can be removed does not hinder. *)
Definition tcp_attempt (a : UdsAttempt) : Attempt :=
  mkAttempt (ua_jitter a) (ua_os_ok a && (ua_removable a || negb (ua_stale a))) (ua_closed a).

Lemma uds_rebind_is_rebind delay_ms l : uds_rebind delay_ms l = rebind delay_ms (tcp_attempt <$> l).
Proof.
  revert delay_ms. induction l as [|a l IH]; intros d; [done|]. rewrite fmap_cons. cbn [rebind uds_rebind].
  rewrite IH. cbn [tcp_attempt at_closed at_jitter at_bind]. unfold uds_bind.
  destruct (ua_closed a), (ua_stale a), (ua_removable a), (ua_os_ok a); done.
Qed.

(** ** The in-memory transport is one queue *)

Definition channel_step (a : bytes + unit) (ch : ChannelTransport) (out : list bytes)
    : option (ChannelTransport * list bytes) :=
  match a with
  | inl m => '(ch, _) ← channel_send m ch; Some (ch, out)
  | inr _ => '(ch, r) ← channel_recv ch;
      Some (ch, match r with Ok m => out ++ [m] | Err _ => out end)
  end.

(** While the receiver lives a send that returns queues its message last, and
    a receive takes the oldest. *)
Lemma channel_fifo a ch ch1 out out1 sent :
  ct_receiver ch = true → sent = out ++ ct_queue ch →
  channel_step a ch out = Some (ch1, out1) →
  ct_receiver ch1 = true ∧
  (sent ++ match a with inl m => [m] | inr _ => [] end) = out1 ++ ct_queue ch1.
Proof.
  intros Hr -> . destruct a as [m|[]]; simpl.
  - unfold channel_send. rewrite Hr. simpl.
    destruct (is_some_and _ _); intros [= <- <-]. cbn [ct_receiver ct_queue]. by rewrite <- app_assoc.
  - unfold channel_recv. destruct (ct_queue ch) as [|m q] eqn:Hq; [case_bool_decide|];
      intros [= <- <-]; cbn [ct_receiver ct_queue]; rewrite ?Hq, ?app_nil_r; [done|].
    split; [done|]. by rewrite <- app_assoc.
Qed.
