(* ===== verification/TransportTests.v ===== *)
(** * The unit tests of the transports

    The tests of [transport.rs], [transport/channel.rs], [transport/tcp.rs] and
    [transport/uds.rs] under the names they have there, on the model of
    [Transport]. A test over sockets runs while the operating system answers
    every call: connects succeed and writes go out whole. The directory and
    the process id in the path of a test's socket file are arguments. *)

From stdpp Require Import strings.
From Stdlib Require Import Strings.Byte.
From S2P Require Import Prelude Types Testing Transport.

Open Scope test_scope.

#[local] Instance byte_eq_dec : EqDecision Byte.byte := Byte.byte_eq_dec.

(** [Bytes::from]. *)
Definition bytes_from (s : string) : bytes := String.list_byte_of_string s.

(** ** Channels *)
Module ChannelTests.

(** [send(..).await.unwrap()] and [recv().await]; a call that waits for ever is
    a failed test. *)
Definition send_ok (data : bytes) : Test ChannelTransport unit := λ ch,
  '(ch, r) ← channel_send data ch; match r with Ok _ => Some (ch, tt) | Err _ => None end.
Definition recv : Test ChannelTransport (Result bytes TransportError) := channel_recv.
Definition recv_ok : Test ChannelTransport bytes := λ ch,
  '(ch, r) ← channel_recv ch; match r with Ok m => Some (ch, m) | Err _ => None end.

Definition roundtrip (ch : ChannelTransport) : bool := passes (Some ch) (
  let payload := bytes_from "hello" in
  send_ok payload;; let! received := recv_ok in expect (λ _, bool_decide (received = payload))).

Definition bounded_channel_roundtrip : bool := roundtrip (channel 16).
Definition unbounded_channel_roundtrip : bool := roundtrip unbounded_channel.

Definition sender_is_cloneable : bool := passes (Some (channel 16)) (
  modify clone_sender;;
  send_ok (bytes_from "from-1");; send_ok (bytes_from "from-2");;
  let! msg1 := recv_ok in
  let! msg2 := recv_ok in
  expect (λ _, (bool_decide (msg1 = bytes_from "from-1") || bool_decide (msg1 = bytes_from "from-2")) &&
               (bool_decide (msg2 = bytes_from "from-1") || bool_decide (msg2 = bytes_from "from-2")) &&
               negb (bool_decide (msg1 = msg2)))).

Definition is_closed (r : Result bytes TransportError) : bool :=
  match r with Err Closed => true | _ => false end.
Definition closed_without_sender (ch : ChannelTransport) : bool := passes (Some ch) (
  modify drop_sender;; let! result := recv in expect (λ _, is_closed result)).

Definition receiver_returns_closed_when_all_senders_dropped : bool := closed_without_sender (channel 16).
Definition unbounded_receiver_returns_closed_when_all_senders_dropped : bool :=
  closed_without_sender unbounded_channel.

(** The mocks of [transport.rs] are a bounded [mpsc] channel, as a
    [ChannelSender] is. *)
Definition mock_sender_receiver_roundtrip : bool := roundtrip (channel 16).
Definition receiver_returns_closed_on_drop : bool := closed_without_sender (channel 16).

Definition channel_unit_tests : list bool :=
  [bounded_channel_roundtrip; unbounded_channel_roundtrip; sender_is_cloneable;
   receiver_returns_closed_when_all_senders_dropped;
   unbounded_receiver_returns_closed_when_all_senders_dropped;
   mock_sender_receiver_roundtrip; receiver_returns_closed_on_drop].
End ChannelTests.

(** ** Sockets *)
Module SocketTests.
Section sockets.
Context {Snd : Type} `{!MessageSender Snd} (clear : Snd → Snd).

(** A listener with its accept loop, the sender of the test and the receiver. *)
Record Session := mkSession { sess_sender : Snd; sess_pipes : list Pipe; sess_queue : list bytes }.

Definition quiet : Io := mkIo true Written Written true.

(** [sender.send(..).await.unwrap()]. *)
Definition send_ok (data : bytes) : Test Session unit := λ t,
  let '(s, r) := message_send quiet (length (sess_pipes t)) data (sess_sender t) in
  match sent_result r, sent_on r with
  | Ok _, Some (c, opened) =>
      Some (mkSession s (write_pipe c opened (sent_bytes r) (sess_pipes t)) (sess_queue t), tt)
  | _, _ => None
  end.

(** A connection of the test's own: [write_all], [flush], and [drop]. *)
Definition raw_connection (bs : bytes) : Test Session unit := modify (λ t,
  mkSession (sess_sender t) (write_pipe (length (sess_pipes t)) true bs (sess_pipes t)) (sess_queue t)).

(** [*sender.conn.lock().await = None]. *)
Definition clear_connection : Test Session unit := modify (λ t,
  mkSession (clear (sess_sender t)) (sess_pipes t) (sess_queue t)).

(** Every reader task reads what its connection holds. *)
Definition drain_pipe (p : Pipe) : Pipe * list bytes :=
  let '(r, ms) := read_all (reader p) (unread p) in (mkPipe [] r, ms).
Definition readers_run (t : Session) : Session :=
  let rs := drain_pipe <$> sess_pipes t in
  mkSession (sess_sender t) rs.*1 (sess_queue t ++ concat rs.*2).

(** [receiver.recv().await.unwrap()] once the reader tasks have run; [None] is
    a timeout. *)
Definition recv_ok : Test Session bytes := λ t,
  let t := readers_run t in
  match sess_queue t with
  | [] => None
  | m :: q => Some (mkSession (sess_sender t) (sess_pipes t) q, m)
  end.

Definition session (s : Snd) : option Session := Some (mkSession s [] []).

Definition roundtrip (text : string) (s : Snd) : bool := passes (session s) (
  let payload := bytes_from text in
  send_ok payload;; let! received := recv_ok in expect (λ _, bool_decide (received = payload))).

Definition reconnects_after_failure (s : Snd) : bool := passes (session s) (
  send_ok (bytes_from "msg-1");;
  let! r1 := recv_ok in expect (λ _, bool_decide (r1 = bytes_from "msg-1"));;
  clear_connection;;
  send_ok (bytes_from "msg-2");;
  let! r2 := recv_ok in expect (λ _, bool_decide (r2 = bytes_from "msg-2"))).

Definition rejects_oversized_message (s : Snd) : bool := passes (session s) (
  raw_connection (to_be_bytes (MAX_MESSAGE_SIZE + 1));;
  send_ok (bytes_from "valid");;
  let! received := recv_ok in expect (λ _, bool_decide (received = bytes_from "valid"))).
End sockets.
Arguments Session : clear implicits.

Definition tcp_clear (s : TcpSender) : TcpSender := mkTcpSender (tcp_addr s) (mkSender None).
Definition uds_clear (s : UdsSender) : UdsSender := mkUdsSender (uds_path s) (mkSender None).

(** The port the system gives a listener bound to port 0. *)
Section tcp.
Context (bound_addr : string).

Definition tcp_sender_receiver_roundtrip : bool := roundtrip "hello-tcp" (TcpSender_new bound_addr).
Definition tcp_sender_reconnects_after_failure : bool :=
  reconnects_after_failure tcp_clear (TcpSender_new bound_addr).
Definition tcp_rejects_oversized_message : bool := rejects_oversized_message (TcpSender_new bound_addr).
Definition tcp_transport_factory : bool :=
  let id_peer := mkNodeId "peer" 1000 in
  match TcpTransport_create (Ok tt) [(id_peer, "127.0.0.1:9999")] with
  | Ok peers => (length peers =? 1) && bool_decide (fst <$> peers !! 0 = Some id_peer)
  | Err _ => false
  end.
End tcp.

Section uds.
Context (temp_dir pid : string).

Definition temp_socket_path (nm : string) : string :=
  temp_dir +:+ "/daccord-test-" +:+ nm +:+ "-" +:+ pid.

Definition uds_sender_receiver_roundtrip : bool :=
  roundtrip "hello-uds" (UdsSender_new (temp_socket_path "roundtrip")).
Definition uds_sender_reconnects_after_failure : bool :=
  reconnects_after_failure uds_clear (UdsSender_new (temp_socket_path "reconnect")).
Definition uds_rejects_oversized_message : bool :=
  rejects_oversized_message (UdsSender_new (temp_socket_path "oversize")).
(** The test removes the file first, so that none is there. *)
Definition uds_transport_factory : bool :=
  let id_peer := mkNodeId "peer" 1000 in
  match UdsTransport_create (uds_bind false true true) [(id_peer, temp_socket_path "factory-peer")] with
  | Ok peers => (length peers =? 1) && bool_decide (fst <$> peers !! 0 = Some id_peer)
  | Err _ => false
  end.
End uds.

Definition socket_unit_tests (bound_addr temp_dir pid : string) : list bool :=
  [tcp_sender_receiver_roundtrip bound_addr; tcp_sender_reconnects_after_failure bound_addr;
   tcp_rejects_oversized_message bound_addr; tcp_transport_factory;
   uds_sender_receiver_roundtrip temp_dir pid; uds_sender_reconnects_after_failure temp_dir pid;
   uds_rejects_oversized_message temp_dir pid; uds_transport_factory temp_dir pid].
End SocketTests.

(** The tests of the transports pass, whatever address the listener is bound
    to and wherever the socket files are. *)
Lemma transport_unit_tests_pass bound_addr temp_dir pid :
  forallb id (ChannelTests.channel_unit_tests ++ SocketTests.socket_unit_tests bound_addr temp_dir pid) = true.
Proof. vm_compute. reflexivity. Qed.
