(* ===== verification/Backend.v ===== *)
(** * What the durable backends share

    The parts common to [daccord/src/redb_storage.rs] and
    [daccord/src/duckdb_storage.rs]: JSON serialisation of values (a
    parameter), the loops that decode rows, the content of the tables of
    either backend as a [Disk], when a [Disk] is well formed, and what it
    means as the durable state of a Raft node. A backend whose laws hold of
    well-formed states is a lawful storage once its states are restricted to
    those. *)

From S2P Require Import Prelude Types Storage.

(** [serde_json::to_string] and [from_str] at the value type. *)
Class Json (V : Type) := {
  to_string : V → Result string string;
  from_str : string → Result V string;
}.

(** What is written is read back. *)
Class JsonSpec (V : Type) `{Json V} := {
  json_round v s : to_string v = Ok s → from_str s = Ok v;
}.

(** [persist] and [load]: an error of a library as a [StorageError]. *)
Definition persist (e : string) : StorageError := Persist e.
Definition load (e : string) : StorageError := Load e.

Definition map_err {A E F} (f : E → F) (r : Result A E) : Result A F :=
  match r with Ok a => Ok a | Err e => Err (f e) end.

#[export] Instance Ok_inj {A E} : Inj (=) (=) (@Ok A E).
Proof. by intros ?? [= ->]. Qed.

(** The [?] operator. *)
Definition rbind {A B E} (r : Result A E) (k : A → Result B E) : Result B E :=
  match r with Ok a => k a | Err e => Err e end.
Notation "x ←? c1 ; c2" := (rbind c1 (λ x, c2))
  (at level 20, c1 at level 100, c2 at level 200, right associativity) : storage_scope.
Open Scope storage_scope.

(** The loop over the rows of a query or a table: a row that cannot be read
    or decoded ends it with an error. *)
Fixpoint collect_rows {A B} (decode : A → Result B StorageError)
    (rows : list (Result A string)) : Result (list B) StorageError :=
  match rows with
  | [] => Ok []
  | row :: rows =>
      a ←? map_err load row; b ←? decode a; out ←? collect_rows decode rows; Ok (b :: out)
  end.

(** A row that cannot be decoded is never passed over. *)
Lemma collect_rows_refuses {A B} (decode : A → Result B StorageError) rows :
  (∀ a e, decode a = Err e → ∃ s, e = Load s) →
  (∀ l, rows = Ok <$> l → ∃ a, a ∈ l ∧ ∃ e, decode a = Err e) →
  ∃ s, collect_rows decode rows = Err (Load s).
Proof.
  intros Hd. induction rows as [|row rows IH]; intros Hr; simpl.
  { destruct (Hr []) as (a & Ha & _); [done|]. by apply not_elem_of_nil in Ha. }
  destruct row as [a|e]; simpl; [|by eexists].
  destruct (decode a) as [b|e] eqn:Ha; simpl; [|destruct (Hd a e Ha) as [s ->]; by eexists].
  destruct IH as [s ->]; [|by eexists]. intros l ->.
  destruct (Hr (a :: l)) as (a' & [->|?]%elem_of_cons & ? & ?); [done|congruence|by eauto].
Qed.

Section codec.
Context {V : Type} `{Json V}.

Definition decode_decision (row : N * string) : Result (N * V) StorageError :=
  v ←? map_err load (from_str row.2); Ok (row.1, v).

Definition decode_entry (row : N * string) : Result (LogEntry V) StorageError :=
  v ←? map_err load (from_str row.2); Ok (mkEntry row.1 v).

(** A text that is no JSON of the value type is an error of the load, and the
    only one. *)
Lemma decode_decision_err k s e : from_str s = Err e → decode_decision (k, s) = Err (Load e).
Proof. unfold decode_decision. simpl. by intros ->. Qed.
Lemma decode_entry_err t s e : from_str s = Err e → decode_entry (t, s) = Err (Load e).
Proof. unfold decode_entry. simpl. by intros ->. Qed.
Lemma decode_decision_load row e : decode_decision row = Err e → ∃ s, e = Load s.
Proof. unfold decode_decision. destruct (from_str _); simpl; [done|]. intros [= <-]. by eexists. Qed.
Lemma decode_entry_load row e : decode_entry row = Err e → ∃ s, e = Load s.
Proof. unfold decode_entry. destruct (from_str _); simpl; [done|]. intros [= <-]. by eexists. Qed.

(** The [collect::<Result<_, _>>] of [append_log]. *)
Fixpoint serialize_entries (entries : list (LogEntry V))
    : Result (list (N * string)) StorageError :=
  match entries with
  | [] => Ok []
  | e :: es =>
      v ←? map_err persist (to_string (value e)); rest ←? serialize_entries es;
      Ok ((term e, v) :: rest)
  end.
End codec.

Lemma rbind_ok {A B E} (r : Result A E) (k : A → Result B E) b :
  rbind r k = Ok b → ∃ a, r = Ok a ∧ k a = Ok b.
Proof. destruct r; naive_solver. Qed.

Lemma map_err_ok {A E F} (f : E → F) (r : Result A E) a : map_err f r = Ok a → r = Ok a.
Proof. destruct r; naive_solver. Qed.

(** A loop over rows that ends well read every row. *)
Lemma collect_all_ok {A B} (dec : A → Result B StorageError) l out :
  collect_rows dec l = Ok out → ∃ l', l = Ok <$> l'.
Proof.
  revert out. induction l as [|[a|] l IH]; simpl; intros out; [by exists []| |done].
  destruct (dec a); [|done]. simpl. destruct (collect_rows dec l); [|done]. intros [= <-].
  destruct (IH _ eq_refl) as [l' ->]. by exists (a :: l').
Qed.

Lemma collect_snd {A} (l : list (N * A)) {B} (dec : A → Result B StorageError) :
  collect_rows (λ kv, dec kv.2) (Ok <$> l) = collect_rows dec (Ok <$> l.*2).
Proof.
  induction l as [|[k a] l IH]; [done|]. rewrite !fmap_cons. cbn [collect_rows]. by rewrite IH.
Qed.

(** ** Tables indexed from 0 *)
Section contiguous.
Context {W : Type}.
Implicit Types (m : gmap N W) (l : list W).

Definition contiguous m l : Prop := ∀ i, m !! i = vget l i.

(** The rows in key order, when the keys are those below the size. *)
Definition rows_of m : list W := omap (λ i, m !! N.of_nat i) (seq 0 (size m)).

Definition indexed l : list (N * W) := imap (λ i w, (N.of_nat i, w)) l.

Lemma contiguous_nil : contiguous ∅ [].
Proof. intros i. unfold vget. by rewrite lookup_nil. Qed.

Lemma elem_of_indexed l k w : (k, w) ∈ indexed l ↔ vget l k = Some w.
Proof.
  unfold indexed, vget. rewrite elem_of_lookup_imap. split.
  - intros (i & y & [= -> ->] & Hy). by rewrite Nat2N.id.
  - intros Hl. exists (N.to_nat k), w. by rewrite N2Nat.id.
Qed.

Lemma indexed_fst l : (indexed l).*1 = N.of_nat <$> seq 0 (length l).
Proof.
  unfold indexed. apply list_eq. intros i. rewrite !list_lookup_fmap, list_lookup_imap.
  destruct (l !! i) as [w|] eqn:Hi; simpl.
  - rewrite lookup_seq_lt by (by eapply lookup_lt_Some). done.
  - rewrite lookup_seq_ge by (by apply lookup_ge_None). done.
Qed.

Lemma indexed_snd l : (indexed l).*2 = l.
Proof. unfold indexed. rewrite fmap_imap. apply list_eq. intros i. rewrite list_lookup_imap. by destruct (l !! i). Qed.

Lemma indexed_NoDup l : NoDup (indexed l).*1.
Proof. rewrite indexed_fst. apply NoDup_fmap_2; [apply _|apply NoDup_seq]. Qed.

Lemma indexed_perm m l : contiguous m l → indexed l ≡ₚ map_to_list m.
Proof.
  intros Hc. apply NoDup_Permutation.
  - apply (NoDup_fmap_1 fst), indexed_NoDup.
  - apply NoDup_map_to_list.
  - intros [k w]. by rewrite elem_of_indexed, elem_of_map_to_list, Hc.
Qed.

Lemma contiguous_size m l : contiguous m l → size m = length l.
Proof.
  intros Hc. rewrite <- (length_map_to_list m), <- (indexed_perm m l Hc).
  unfold indexed. apply length_imap.
Qed.

Lemma omap_seq_lookup (k l : list W) :
  omap (λ i, (k ++ l) !! i) (seq (length k) (length l)) = l.
Proof.
  revert k. induction l as [|w l IH]; intros k; [done|]. simpl. rewrite list_lookup_middle by done.
  f_equal. specialize (IH (k ++ [w])). rewrite length_app, Nat.add_1_r, <- app_assoc in IH. done.
Qed.

Lemma rows_of_contiguous m l : contiguous m l → rows_of m = l.
Proof.
  intros Hc. unfold rows_of. rewrite (contiguous_size _ _ Hc).
  etrans; [|apply (omap_seq_lookup [] l)]. apply list_omap_ext, Forall2_same_length_lookup.
  split; [done|]. intros i x y Hx Hy. simpl in Hy. simplify_eq. rewrite Hc. unfold vget. by rewrite Nat2N.id.
Qed.

Lemma contiguous_snoc m l w : contiguous m l → contiguous (<[vlen l := w]> m) (l ++ [w]).
Proof.
  intros Hc i. unfold vget, vlen. destruct (decide (i = N.of_nat (length l))) as [->|Hne].
  - by rewrite lookup_insert_eq, Nat2N.id, list_lookup_middle.
  - rewrite lookup_insert_ne by done. rewrite Hc. unfold vget.
    destruct (decide (N.to_nat i < length l)).
    + by rewrite lookup_app_l.
    + rewrite !lookup_ge_None_2; [done|rewrite length_app; simpl; lia|lia].
Qed.

Lemma contiguous_truncate m l n :
  contiguous m l → contiguous (filter (λ '(k, _), (k < n)%N) m) (vtruncate l n).
Proof.
  intros Hc i. unfold vget, vtruncate. destruct (decide (i < n)%N) as [Hi|Hi].
  - rewrite lookup_take_lt by lia. specialize (Hc i). unfold vget in Hc.
    destruct (l !! N.to_nat i) as [w|] eqn:Hl.
    + by apply map_lookup_filter_Some.
    + apply map_lookup_filter_None. by left.
  - rewrite lookup_take_ge by lia. apply map_lookup_filter_None. right. intros w _. lia.
Qed.

(** A listing of the map in increasing key order is the vector. *)
Lemma sorted_listing m l rows :
  contiguous m l → rows ≡ₚ map_to_list m → StronglySorted N.lt rows.*1 → rows = indexed l.
Proof.
  intros Hc Hp Hs. set (R := λ a b : N * W, (a.1 ≤ b.1)%N).
  assert (rows ≡ₚ indexed l) as Hpi by (by rewrite Hp, indexed_perm).
  assert (rows.*1 = (indexed l).*1) as Hk.
  { apply (StronglySorted_unique N.le).
    - clear -Hs. induction Hs as [|k ks Hs IH Hf]; constructor; [done|].
      eapply Forall_impl; [exact Hf|]. simpl. lia.
    - rewrite indexed_fst. generalize 0 at 1. induction (length l) as [|n IH]; intros j; simpl;
        constructor; [apply IH|]. apply Forall_forall. intros x (y & -> & Hy)%list_elem_of_fmap.
      apply elem_of_seq in Hy. lia.
    - by apply fmap_Permutation. }
  assert (∀ k w, (k, w) ∈ rows → vget l k = Some w) as Hin.
  { intros k w. rewrite Hpi. by rewrite elem_of_indexed. }
  clear Hp Hpi Hs Hc. revert Hk Hin. rewrite indexed_fst.
  intros Hk Hin. apply list_eq. intros i. unfold indexed. rewrite list_lookup_imap.
  assert (rows.*1 !! i = (N.of_nat <$> seq 0 (length l)) !! i) as Hi by (by rewrite Hk).
  rewrite !list_lookup_fmap in Hi. destruct (rows !! i) as [[k w]|] eqn:Hr; simpl in Hi.
  - destruct (seq 0 (length l) !! i) as [j|] eqn:Hj; [|done]. simpl in Hi. injection Hi as ->.
    apply lookup_seq in Hj as [-> _]. apply list_elem_of_lookup_2, Hin in Hr. unfold vget in Hr.
    rewrite Nat2N.id in Hr. simpl in Hr. by rewrite Hr.
  - destruct (seq 0 (length l) !! i) as [j|] eqn:Hj; [done|].
    apply lookup_ge_None in Hj. rewrite length_seq in Hj. by rewrite lookup_ge_None_2.
Qed.
(** The last key of a log of [n] entries is [n - 1]. *)
Lemma last_key m l k w :
  contiguous m l → m !! k = Some w → (∀ j, is_Some (m !! j) → (j ≤ k)%N) →
  N.of_nat (size m) = (k + 1)%N.
Proof.
  intros Hc Hk Hmax. rewrite (contiguous_size _ _ Hc). rewrite Hc in Hk. unfold vget in Hk.
  apply lookup_lt_Some in Hk. specialize (Hmax (N.of_nat (length l - 1))).
  rewrite Hc in Hmax. unfold vget in Hmax. rewrite Nat2N.id in Hmax.
  assert (is_Some (l !! (length l - 1))) as Hl by (apply lookup_lt_is_Some; lia).
  specialize (Hmax Hl). lia.
Qed.
End contiguous.

(** ** Disks *)

(** The content of the tables of one Raft node. *)
Record Disk := mkDisk {
  d_decisions : gmap N string;
  d_log : gmap N (N * string);
  d_term : N;
  d_voted_for : option NodeId;
  d_commit_index : option N;
}.

Section disks.
Context {V : Type} `{JsonSpec V}.
Implicit Types (d : Disk).

Definition decode (s : string) : option V :=
  match from_str s with Ok v => Some v | Err _ => None end.
Definition decode_row (row : N * string) : option (LogEntry V) := mkEntry row.1 <$> decode row.2.

Lemma decode_to_string v s : to_string v = Ok s → decode s = Some v.
Proof. unfold decode. by intros ->%json_round. Qed.

Lemma decode_ok s v : from_str s = Ok v → decode s = Some v.
Proof. unfold decode. by intros ->. Qed.

Definition decisions_wf (m : gmap N string) : Prop := map_Forall (λ _ s, is_Some (decode s)) m.
Definition log_wf (m : gmap N (N * string)) : Prop :=
  ∃ rows es, contiguous m rows ∧ Forall2 (λ row e, decode_row row = Some e) rows es.

(** Every stored value can be read, and the log has the indexes below its
    length. *)
Definition disk_wf d : Prop := decisions_wf (d_decisions d) ∧ log_wf (d_log d).

Definition disk_view d : RaftMemoryStorage V :=
  {| m_decisions := omap decode (d_decisions d);
     m_term := d_term d; m_voted_for := d_voted_for d;
     m_log := omap decode_row (rows_of (d_log d));
     m_commit_index := d_commit_index d |}.

Lemma omap_Forall2 {A B} (f : A → option B) l k :
  Forall2 (λ a b, f a = Some b) l k → omap f l = k.
Proof. induction 1 as [|a b l k Hab _ IH]; simpl; [done|]. rewrite Hab. f_equal. apply IH. Qed.

Lemma log_view m rows es :
  contiguous m rows → Forall2 (λ row e, decode_row row = Some e) rows es →
  omap decode_row (rows_of m) = es.
Proof. intros Hc Hf. rewrite (rows_of_contiguous _ _ Hc). by apply omap_Forall2. Qed.

(** *** Writing *)
Lemma disk_decision m slot v s :
  to_string v = Ok s → decisions_wf m →
  decisions_wf (<[slot := s]> m) ∧ omap decode (<[slot := s]> m) = <[slot := v]> (omap decode m).
Proof.
  intros Hs%decode_to_string Hw. split.
  - apply map_Forall_insert_2; [by eexists|done].
  - by apply omap_insert_Some.
Qed.

Lemma serialize_ok (es : list (LogEntry V)) rows :
  serialize_entries es = Ok rows → Forall2 (λ row e, decode_row row = Some e) rows es.
Proof.
  revert rows. induction es as [|e es IH]; intros rows; simpl; [intros [= <-]; constructor|].
  destruct (to_string (value e)) as [s|] eqn:Hs; [|done]. simpl.
  destruct (serialize_entries es) as [rest|]; [|done]. intros [= <-].
  constructor; [|by apply IH]. unfold decode_row. simpl.
  rewrite (decode_to_string _ _ Hs). by destruct e.
Qed.

(** The rows written by [append_log], one after the other from [next]. *)
Fixpoint insert_from {W} (next : N) (rows : list W) (m : gmap N W) : gmap N W :=
  match rows with
  | [] => m
  | row :: rows => insert_from (next + 1) rows (<[next := row]> m)
  end.

Lemma contiguous_insert_from {W} (rows l : list W) m :
  contiguous m l → contiguous (insert_from (vlen l) rows m) (l ++ rows).
Proof.
  revert l m. induction rows as [|row rows IH]; intros l m Hc; simpl; [by rewrite app_nil_r|].
  specialize (IH _ _ (contiguous_snoc _ _ row Hc)). rewrite vlen_app, <- app_assoc in IH. done.
Qed.

Lemma disk_append m es rows :
  serialize_entries es = Ok rows → log_wf m →
  let m' := insert_from (N.of_nat (size m)) rows m in
  log_wf m' ∧ omap decode_row (rows_of m') = omap decode_row (rows_of m) ++ es.
Proof.
  intros Hs%serialize_ok (rows0 & es0 & Hc & Hf). cbv zeta. rewrite (contiguous_size _ _ Hc).
  pose proof (contiguous_insert_from rows _ _ Hc) as Hc'. unfold vlen in Hc'.
  assert (Forall2 (λ row e, decode_row row = Some e) (rows0 ++ rows) (es0 ++ es)) as Hf'
    by (by apply Forall2_app).
  split; [by eexists _, _|]. by rewrite (log_view _ _ _ Hc' Hf'), (log_view _ _ _ Hc Hf).
Qed.

Lemma disk_truncate m n :
  log_wf m →
  let m' := filter (λ '(k, _), (k < n)%N) m in
  log_wf m' ∧ omap decode_row (rows_of m') = vtruncate (omap decode_row (rows_of m)) n.
Proof.
  intros (rows & es & Hc & Hf). cbv zeta. pose proof (contiguous_truncate _ _ n Hc) as Hc'.
  assert (Forall2 (λ row e, decode_row row = Some e) (vtruncate rows n) (vtruncate es n)) as Hf'
    by (by apply Forall2_take).
  split; [by eexists _, _|]. by rewrite (log_view _ _ _ Hc' Hf'), (log_view _ _ _ Hc Hf).
Qed.

(** *** Reading *)
Lemma collect_rows_ok {A B} (dec : A → Result B StorageError) (f : A → option B) rows out :
  (∀ a b, dec a = Ok b → f a = Some b) → collect_rows dec rows = Ok out →
  ∃ as_, rows = Ok <$> as_ ∧ Forall2 (λ a b, f a = Some b) as_ out.
Proof.
  intros Hd. revert out. induction rows as [|row rows IH]; intros out; simpl.
  { intros [= <-]. by exists []. }
  destruct row as [a|]; [|done]. simpl. destruct (dec a) as [b|] eqn:Hb; [|done]. simpl.
  destruct (collect_rows dec rows) as [out'|]; [|done]. intros [= <-].
  destruct (IH out' eq_refl) as (as_ & -> & Hf). exists (a :: as_).
  split; [done|]. constructor; [by apply Hd|done].
Qed.

Lemma decode_entry_ok row e : decode_entry row = Ok e → decode_row row = Some e.
Proof.
  unfold decode_entry, decode_row, decode. destruct (from_str row.2); [|done]. by intros [= <-].
Qed.

Lemma decode_decision_ok row (p : N * V) :
  decode_decision row = Ok p → (λ v, (row.1, v)) <$> decode row.2 = Some p.
Proof.
  unfold decode_decision, decode. destruct (from_str row.2); [|done]. by intros [= <-].
Qed.

Lemma disk_load_log m rows es :
  log_wf m → rows ≡ₚ map_to_list m → StronglySorted N.lt rows.*1 →
  collect_rows decode_entry (Ok <$> rows.*2) = Ok es → es = omap decode_row (rows_of m).
Proof.
  intros (rows0 & es0 & Hc & Hf) Hp Hs Hl. rewrite (log_view _ _ _ Hc Hf).
  rewrite (sorted_listing _ _ _ Hc Hp Hs), indexed_snd in Hl.
  apply (collect_rows_ok _ decode_row) in Hl as (as_ & Ha & Hf'); [|apply decode_entry_ok].
  apply (inj (fmap Ok)) in Ha as <-. apply omap_Forall2 in Hf, Hf'. congruence.
Qed.

Definition decode_pair (row : N * string) : option (N * V) := pair row.1 <$> decode row.2.

Lemma decode_pair_listing m : omap decode_pair (map_to_list m) ≡ₚ map_to_list (omap decode m).
Proof.
  induction m as [|k s m Hk IH] using map_ind.
  { by rewrite omap_empty, !map_to_list_empty. }
  assert (omap decode m !! k = None) as Hk' by (by rewrite lookup_omap, Hk).
  rewrite (omap_Permutation decode_pair _ _ (map_to_list_insert _ _ _ Hk)).
  destruct (decode s) as [v|] eqn:Hs.
  - rewrite (omap_insert_Some _ _ _ _ v) by done. rewrite map_to_list_insert by done.
    simpl. unfold decode_pair at 1. simpl. rewrite Hs. simpl. by f_equiv.
  - rewrite omap_insert_None by done. rewrite delete_id by done.
    simpl. unfold decode_pair at 1. simpl. by rewrite Hs.
Qed.

Lemma disk_load_decisions m rows (out : list (N * V)) :
  rows ≡ₚ map_to_list m →
  collect_rows decode_decision (Ok <$> rows) = Ok out → out ≡ₚ map_to_list (omap decode m).
Proof.
  intros Hp Hl. apply (collect_rows_ok _ decode_pair) in Hl as (as_ & Ha & Hf);
    [|apply decode_decision_ok].
  apply (inj (fmap Ok)) in Ha as <-. apply omap_Forall2 in Hf as <-.
  by rewrite (omap_Permutation decode_pair _ _ Hp), decode_pair_listing.
Qed.
End disks.

(** ** Backends with an invariant

    The laws of a backend on the states that satisfy [wf], which every method
    preserves. *)
Class RaftStorageSpecOn (St V : Type) `{RaftStorage St V} (wf : St → Prop) := {
  view_on : St → RaftMemoryStorage V;
  on_write w s s' r :
    wf s → do_write w s = (s', r) →
    wf s' ∧ view_on s' = match r with Ok _ => spec_write (λ v, v) w (view_on s)
                                    | Err _ => view_on s end;
  on_load_term s t : wf s → load_term s = Ok t → t = m_term (view_on s);
  on_load_voted_for s vf : wf s → load_voted_for s = Ok vf → vf = m_voted_for (view_on s);
  on_load_log s l : wf s → load_log s = Ok l → l = m_log (view_on s);
  on_load_commit_index s ci :
    wf s → load_commit_index s = Ok ci → ci = m_commit_index (view_on s);
  on_load_decisions s l :
    wf s → load_decisions s = Ok l → l ≡ₚ map_to_list (m_decisions (view_on s));
}.

(** What the loads of a backend return, when they return, is the durable
    state [d]. *)
Definition loads_are {St V} `{RaftStorage St V} (s : St) (d : RaftMemoryStorage V) : Prop :=
  (∀ t, load_term s = Ok t → t = m_term d) ∧
  (∀ vf, load_voted_for s = Ok vf → vf = m_voted_for d) ∧
  (∀ l, load_log s = Ok l → l = m_log d) ∧
  (∀ ci, load_commit_index s = Ok ci → ci = m_commit_index d) ∧
  (∀ l, load_decisions s = Ok l → l ≡ₚ map_to_list (m_decisions d)).

Section spec_on.
Context {St V : Type} `{RaftStorage St V} {wf : St → Prop} `{!RaftStorageSpecOn St V wf}.

Lemma on_loads s : wf s → loads_are s (view_on s).
Proof.
  intros Hw. split_and!; intros ? Hl; [by apply on_load_term in Hl|by apply on_load_voted_for in Hl
    |by apply on_load_log in Hl|by apply on_load_commit_index in Hl|by apply on_load_decisions in Hl].
Qed.

(** A run of writes leaves the state of some prefix of them, of all when it
    reports success. *)
Lemma on_writes ws s s' r :
  wf s → do_writes ws s = (s', r) →
  wf s' ∧ ∃ k, k ≤ length ws ∧ (r = Ok tt → k = length ws) ∧
    view_on s' = spec_writes (λ v, v) (take k ws) (view_on s).
Proof.
  revert s. induction ws as [|w ws IH]; intros s Hw; simpl.
  { intros [= <- <-]. split; [done|]. by exists 0. }
  unfold sbind. destruct (do_write w s) as [s1 [[]|e]] eqn:E; apply on_write in E as [Hw1 Hv]; [|done| |done].
  - intros (Hw' & k & Hk & Hr & Hv')%IH; [|done]. split; [done|]. exists (S k).
    split_and!; [simpl; lia|intros; by rewrite Hr|]. simpl. by rewrite Hv', Hv.
  - intros [= <- <-]. split; [done|]. exists 0. split_and!; [lia|done|done].
Qed.

Lemma on_writes_ok ws s s' :
  wf s → do_writes ws s = (s', Ok tt) →
  wf s' ∧ view_on s' = spec_writes (λ v, v) ws (view_on s).
Proof.
  intros Hw (Hw' & k & _ & Hk & Hv)%on_writes; [|done]. split; [done|].
  by rewrite Hv, Hk, firstn_all.
Qed.
End spec_on.

(** The states of a backend that satisfy its invariant. *)
Record Guarded {St : Type} (wf : St → Prop) := mkGuarded { g_state : St; g_wf : wf g_state }.
Arguments mkGuarded {St wf}. Arguments g_state {St wf}. Arguments g_wf {St wf}.

Section guarded.
Context {St V : Type} `{RaftStorage St V} (wf : St → Prop) `{!RaftStorageSpecOn St V wf}.

Lemma on_write_wf w s : wf s → wf (do_write w s).1.
Proof. intros Hw. by destruct (on_write w s _ _ Hw (surjective_pairing _)). Qed.

Definition g_write (w : Write V) : StorageM (Guarded wf) unit := λ s,
  (mkGuarded (do_write w (g_state s)).1 (on_write_wf w _ (g_wf s)), (do_write w (g_state s)).2).

#[export] Instance Guarded_impl : RaftStorage (Guarded wf) V := {|
  save_decision slot v := g_write (WDecision slot v);
  load_decisions s := load_decisions (g_state s);
  save_term t := g_write (WTerm t);
  load_term s := load_term (g_state s);
  save_voted_for vf := g_write (WVote vf);
  load_voted_for s := load_voted_for (g_state s);
  append_log es := g_write (WAppend es);
  truncate_log_from i := g_write (WTruncate i);
  load_log s := load_log (g_state s);
  save_commit_index ci := g_write (WCommit ci);
  load_commit_index s := load_commit_index (g_state s);
|}.

Lemma g_do_write w s s' r :
  do_write w s = (s', r) → do_write w (g_state s) = (g_state s', r).
Proof. by destruct w; intros [= <- <-]; apply surjective_pairing. Qed.

#[export] Program Instance Guarded_spec : RaftStorageSpec (Guarded wf) V := {|
  view s := view_on (g_state s);
  norm v := v;
|}.
Next Obligation. done. Qed.
Next Obligation. intros w s s' E%g_do_write. apply on_write in E; [apply E|apply g_wf]. Qed.
Next Obligation. intros w s s' e E%g_do_write. apply on_write in E; [apply E|apply g_wf]. Qed.
Next Obligation. intros s t E. eapply on_load_term, E. apply g_wf. Qed.
Next Obligation. intros s t E. eapply on_load_voted_for, E. apply g_wf. Qed.
Next Obligation. intros s t E. eapply on_load_log, E. apply g_wf. Qed.
Next Obligation. intros s t E. eapply on_load_commit_index, E. apply g_wf. Qed.
Next Obligation. intros s t E. eapply on_load_decisions, E. apply g_wf. Qed.
End guarded.
