(* ===== verification/RedbStorage.v ===== *)
(** * Durable storage on redb

    Models [daccord/src/redb_storage.rs]. The redb library is a parameter:
    the class [Redb] holds the calls the file makes, with their error
    results, and [RedbSpec] what its documentation promises of them. The
    tables are ordered maps; a table exists once it was opened in a committed
    write transaction. *)

From S2P Require Import Prelude Types Storage Backend.

(** ** The tables *)
Record Tables := mkTables {
  t_paxos_decisions : option (gmap N string);
  t_raft_decisions : option (gmap N string);
  t_raft_log : option (gmap N (N * string));
  t_raft_term : option (gmap string N);
  t_raft_voted_for : option (gmap string (string * N));
  t_raft_commit_index : option (gmap string N);
}.

(** A table definition says where its table is. *)
Record TableDefinition (K W : Type) `{Countable K} := mkTable {
  table : Tables → option (gmap K W);
  set_table : gmap K W → Tables → Tables;
}.
Arguments mkTable {K W _ _}. Arguments table {K W _ _}. Arguments set_table {K W _ _}.

Definition PAXOS_DECISIONS : TableDefinition N string :=
  mkTable t_paxos_decisions (λ m t, {| t with t_paxos_decisions := Some m |}).
Definition RAFT_DECISIONS : TableDefinition N string :=
  mkTable t_raft_decisions (λ m t, {| t with t_raft_decisions := Some m |}).
Definition RAFT_LOG : TableDefinition N (N * string) :=
  mkTable t_raft_log (λ m t, {| t with t_raft_log := Some m |}).
Definition RAFT_TERM : TableDefinition string N :=
  mkTable t_raft_term (λ m t, {| t with t_raft_term := Some m |}).
Definition RAFT_VOTED_FOR : TableDefinition string (string * N) :=
  mkTable t_raft_voted_for (λ m t, {| t with t_raft_voted_for := Some m |}).
Definition RAFT_COMMIT_INDEX : TableDefinition string N :=
  mkTable t_raft_commit_index (λ m t, {| t with t_raft_commit_index := Some m |}).

Definition META_KEY : string := "k".

(** What a table holds: nothing before it exists. *)
Definition rows {K W} `{Countable K} (d : TableDefinition K W) (t : Tables) : gmap K W :=
  default ∅ (table d t).

(** ** The library *)

(** [insert], [remove], [extract_from_if] act on a table opened in a write
    transaction; [get] and [iter] on one opened in a read transaction. Calls
    on a [Database] return it, since it may change. *)
Class Redb (Database WriteTransaction ReadTransaction : Type) := {
  begin_write : Database → Database * Result WriteTransaction string;
  open_table {K W} `{Countable K} :
    TableDefinition K W → WriteTransaction → WriteTransaction * Result unit string;
  insert {K W} `{Countable K} :
    TableDefinition K W → K → W → WriteTransaction → WriteTransaction * Result unit string;
  remove {K W} `{Countable K} :
    TableDefinition K W → K → WriteTransaction → WriteTransaction * Result unit string;
  last {W} : TableDefinition N W → WriteTransaction → Result (option (N * W)) string;
  extract_from_if {W} :
    TableDefinition N W → N → (N → W → bool) → WriteTransaction →
    WriteTransaction * Result (list (Result (N * W) string)) string;
  commit : WriteTransaction → Database → Database * Result unit string;
  begin_read : Database → Result ReadTransaction string;
  read_table {K W} `{Countable K} : TableDefinition K W → ReadTransaction → Result unit string;
  get {K W} `{Countable K} :
    TableDefinition K W → K → ReadTransaction → Result (option W) string;
  iter {W} : TableDefinition N W → ReadTransaction → Result (list (Result (N * W) string)) string;
}.

(** What redb documents: transactions are atomic and isolated (a write
    transaction starts from the committed tables and only a successful commit
    makes its changes visible; a dropped one changes nothing), a table is an
    ordered map, a table not yet created cannot be opened for reading. *)
Class RedbSpec (Database WriteTransaction ReadTransaction : Type)
    `{Redb Database WriteTransaction ReadTransaction} := {
  committed : Database → Tables;
  pending : WriteTransaction → Tables;
  snapshot : ReadTransaction → Tables;
  begin_write_spec db db' r :
    begin_write db = (db', r) →
    committed db' = committed db ∧ ∀ x, r = Ok x → pending x = committed db;
  open_table_spec {K W} `{Countable K} (d : TableDefinition K W) x x' :
    open_table d x = (x', Ok tt) →
    pending x' = set_table d (rows d (pending x)) (pending x);
  insert_spec {K W} `{Countable K} (d : TableDefinition K W) k w x x' :
    insert d k w x = (x', Ok tt) →
    pending x' = set_table d (<[k := w]> (rows d (pending x))) (pending x);
  remove_spec {K W} `{Countable K} (d : TableDefinition K W) k x x' :
    remove d k x = (x', Ok tt) →
    pending x' = set_table d (delete k (rows d (pending x))) (pending x);
  last_spec {W} (d : TableDefinition N W) x r :
    last d x = Ok r →
    match r with
    | None => rows d (pending x) = ∅
    | Some (k, w) => rows d (pending x) !! k = Some w ∧
                     ∀ j, is_Some (rows d (pending x) !! j) → (j ≤ k)%N
    end;
  extract_spec {W} (d : TableDefinition N W) from pred x x' taken :
    extract_from_if d from pred x = (x', Ok (Ok <$> taken)) →
    pending x' =
      set_table d (filter (λ '(k, w), ¬ ((from ≤ k)%N ∧ pred k w = true)) (rows d (pending x)))
                (pending x);
  commit_spec x db db' r :
    commit x db = (db', r) →
    committed db' = match r with Ok _ => pending x | Err _ => committed db end;
  begin_read_spec db x : begin_read db = Ok x → snapshot x = committed db;
  read_table_spec {K W} `{Countable K} (d : TableDefinition K W) x :
    read_table d x = Ok tt → is_Some (table d (snapshot x));
  get_spec {K W} `{Countable K} (d : TableDefinition K W) k x r :
    get d k x = Ok r → r = rows d (snapshot x) !! k;
  iter_spec {W} (d : TableDefinition N W) x l :
    iter d x = Ok (Ok <$> l) →
    l ≡ₚ map_to_list (rows d (snapshot x)) ∧ StronglySorted N.lt l.*1;
}.

Section redb_storage.
Context {Database WriteTransaction ReadTransaction : Type}.
Context `{!Redb Database WriteTransaction ReadTransaction}.
Context {V : Type} `{Json V}.

(** ** Transactions *)

(** The body of a write transaction; [None] is a panic. *)
Definition TxM (A : Type) : Type :=
  WriteTransaction → option (WriteTransaction * Result A string).

Definition tx_ret {A} (a : A) : TxM A := λ x, Some (x, Ok a).
Definition tx_bind {A B} (c : TxM A) (k : A → TxM B) : TxM B :=
  λ x, match c x with
       | None => None
       | Some (x', Err e) => Some (x', Err e)
       | Some (x', Ok a) => k a x'
       end.
(** A call of the library. *)
Definition call {A} (c : WriteTransaction → WriteTransaction * Result A string) : TxM A :=
  λ x, Some (c x).
(** A call that does not change the transaction. *)
Definition query {A} (c : WriteTransaction → Result A string) : TxM A := λ x, Some (x, c x).
(** Overflow-checked arithmetic. *)
Definition checked {A} (o : option A) : TxM A := λ x, a ← o; Some (x, Ok a).

(** [begin_write], the body, [commit]: an error in between drops the
    transaction. *)
Definition write_txn (body : TxM unit) (db : Database)
    : option (Database * Result unit StorageError) :=
  match begin_write db with
  | (db, Err e) => Some (db, Err (persist e))
  | (db, Ok x) =>
      match body x with
      | None => None
      | Some (_, Err e) => Some (db, Err (persist e))
      | Some (x, Ok _) =>
          let '(db, r) := commit x db in Some (db, map_err persist r)
      end
  end.

(** [run_blocking]: a panic of the closure is an error of the call. The text
    of the panic is left out of the message. *)
Definition run_blocking {A} (f : Database → option (Database * Result A StorageError))
    : StorageM Database A :=
  λ db, match f db with
        | None => (db, Err (Persist "blocking task panicked"))
        | Some r => r
        end.

(** [begin_read], [open_table] and a body of reads. *)
Definition read_txn {K W A} `{Countable K} (d : TableDefinition K W)
    (body : ReadTransaction → Result A StorageError) (db : Database) : Result A StorageError :=
  x ←? map_err load (begin_read db); _ ←? map_err load (read_table d x); body x.

(** ** Opening *)
Definition RedbPaxosStorage_from_database (db : Database)
    : option (Database * Result unit StorageError) :=
  write_txn (call (open_table PAXOS_DECISIONS)) db.

Definition create_raft_tables : TxM unit :=
  tx_bind (call (open_table RAFT_DECISIONS)) (λ _,
  tx_bind (call (open_table RAFT_LOG)) (λ _,
  tx_bind (call (open_table RAFT_TERM)) (λ _,
  tx_bind (call (open_table RAFT_VOTED_FOR)) (λ _,
  call (open_table RAFT_COMMIT_INDEX))))).

Definition RedbRaftStorage_from_database (db : Database)
    : option (Database * Result unit StorageError) :=
  write_txn create_raft_tables db.

(** ** Decisions, for either protocol *)
Definition save_decision_in (d : TableDefinition N string) (slot : N) (v : V)
    : StorageM Database unit := λ db,
  match map_err persist (to_string v) with
  | Err e => (db, Err e)
  | Ok serialized =>
      run_blocking (write_txn
        (tx_bind (call (open_table d)) (λ _, call (insert d slot serialized)))) db
  end.

Definition load_decisions_in (d : TableDefinition N string) (db : Database)
    : Result (list (N * V)) StorageError :=
  read_txn d (λ x, l ←? map_err load (iter d x); collect_rows decode_decision l) db.

#[export] Instance RedbPaxosStorage_impl : PaxosStorage Database V := {|
  p_save_decision := save_decision_in PAXOS_DECISIONS;
  p_load_decisions := load_decisions_in PAXOS_DECISIONS;
|}.

(** ** The Raft methods *)
Definition redb_save_term (t : N) : StorageM Database unit :=
  run_blocking (write_txn
    (tx_bind (call (open_table RAFT_TERM)) (λ _, call (insert RAFT_TERM META_KEY t)))).

Definition redb_load_term : Database → Result N StorageError :=
  read_txn RAFT_TERM (λ x,
    o ←? map_err load (get RAFT_TERM META_KEY x); Ok (default 0%N o)).

Definition redb_save_voted_for (voted_for : option NodeId) : StorageM Database unit :=
  let value := (λ id, (name id, incarnation id)) <$> voted_for in
  run_blocking (write_txn
    (tx_bind (call (open_table RAFT_VOTED_FOR)) (λ _,
      match value with
      | Some row => call (insert RAFT_VOTED_FOR META_KEY row)
      | None => call (remove RAFT_VOTED_FOR META_KEY)
      end))).

Definition redb_load_voted_for : Database → Result (option NodeId) StorageError :=
  read_txn RAFT_VOTED_FOR (λ x,
    o ←? map_err load (get RAFT_VOTED_FOR META_KEY x);
    match o with
    | Some (nm, inc) => Ok (Some (mkNodeId nm inc))
    | None => Ok None
    end).

(** [for (i, (term, json)) in serialized.iter().enumerate()]. *)
Fixpoint insert_rows (next_index i : N) (serialized : list (N * string)) : TxM unit :=
  match serialized with
  | [] => tx_ret tt
  | row :: rest =>
      tx_bind (checked (u64_add next_index i)) (λ idx,
      tx_bind (call (insert RAFT_LOG idx row)) (λ _,
      insert_rows next_index (i + 1) rest))
  end.

Definition redb_append_log (entries : list (LogEntry V)) : StorageM Database unit := λ db,
  match serialize_entries entries with
  | Err e => (db, Err e)
  | Ok [] => (db, Ok tt)
  | Ok serialized =>
      run_blocking (write_txn
        (tx_bind (call (open_table RAFT_LOG)) (λ _,
         tx_bind (query (last RAFT_LOG)) (λ o,
         tx_bind (match o with
                  | Some (k, _) => checked (u64_add k 1)
                  | None => tx_ret 0%N
                  end) (λ next_index,
         insert_rows next_index 0 serialized))))) db
  end.

(** The loop that drains [extracted]. *)
Fixpoint drain {A} (extracted : list (Result A string)) : TxM unit :=
  match extracted with
  | [] => tx_ret tt
  | entry :: rest => tx_bind (query (λ _, entry)) (λ _, drain rest)
  end.

Definition redb_truncate_log_from (index : N) : StorageM Database unit :=
  run_blocking (write_txn
    (tx_bind (call (open_table RAFT_LOG)) (λ _,
     tx_bind (call (extract_from_if RAFT_LOG index (λ _ _, true))) (λ extracted,
     drain extracted)))).

Definition redb_load_log : Database → Result (list (LogEntry V)) StorageError :=
  read_txn RAFT_LOG (λ x,
    l ←? map_err load (iter RAFT_LOG x);
    collect_rows (λ kv, decode_entry kv.2) l).

Definition redb_save_commit_index (commit_index : option N) : StorageM Database unit :=
  run_blocking (write_txn
    (tx_bind (call (open_table RAFT_COMMIT_INDEX)) (λ _,
      match commit_index with
      | Some n => call (insert RAFT_COMMIT_INDEX META_KEY n)
      | None => call (remove RAFT_COMMIT_INDEX META_KEY)
      end))).

Definition redb_load_commit_index : Database → Result (option N) StorageError :=
  read_txn RAFT_COMMIT_INDEX (λ x, map_err load (get RAFT_COMMIT_INDEX META_KEY x)).

#[export] Instance RedbRaftStorage_impl : RaftStorage Database V := {|
  save_decision := save_decision_in RAFT_DECISIONS;
  load_decisions := load_decisions_in RAFT_DECISIONS;
  save_term := redb_save_term;
  load_term := redb_load_term;
  save_voted_for := redb_save_voted_for;
  load_voted_for := redb_load_voted_for;
  append_log := redb_append_log;
  truncate_log_from := redb_truncate_log_from;
  load_log := redb_load_log;
  save_commit_index := redb_save_commit_index;
  load_commit_index := redb_load_commit_index;
|}.
End redb_storage.
