(* ===== verification/RedbProps.v ===== *)
(** * The redb backends refine the abstract durable state

    From what redb documents: every method of [RedbRaftStorage] and
    [RedbPaxosStorage] is one atomic change of the abstract state, an error
    changes nothing, loads return it; opening keeps it; the two backends can
    share a database. *)

From S2P Require Import Prelude Types Storage Backend RedbStorage.

Section redb_props.
Context {Database WriteTransaction ReadTransaction : Type}.
Context `{RedbSpec Database WriteTransaction ReadTransaction}.
Context {V : Type} `{JsonSpec V}.
Implicit Types (db : Database) (x : WriteTransaction) (t : Tables).

(** ** Transactions *)

(** On tables that satisfy [P] the body, when it succeeds, changes them by
    [f]. *)
Definition body_does (P : Tables → Prop) (body : TxM unit) (f : Tables → Tables) : Prop :=
  ∀ x x', P (pending x) → body x = Some (x', Ok tt) → pending x' = f (pending x).

(** A call that makes the change [f] when it succeeds and none otherwise. *)
Definition atomic (f : Tables → Tables) db (p : Database * Result unit StorageError) : Prop :=
  committed p.1 = match p.2 with Ok _ => f (committed db) | Err _ => committed db end.

Lemma write_txn_spec P body f db p :
  body_does P body f → P (committed db) → write_txn body db = Some p → atomic f db p.
Proof.
  intros Hb HP. unfold write_txn, atomic. destruct (begin_write db) as [db1 [x|e]] eqn:Hw;
    apply begin_write_spec in Hw as [Hc Hp]; [|by intros [= <-]].
  destruct (body x) as [[x1 [[]|e]]|] eqn:Hbody; [|by intros [= <-]|done].
  destruct (commit x1 db1) as [db2 r2] eqn:Hcm. intros [= <-]. apply commit_spec in Hcm.
  simpl. rewrite Hcm. specialize (Hp x eq_refl). destruct r2; simpl; [|done].
  rewrite <- Hp. apply Hb; [by rewrite Hp|done].
Qed.

Lemma run_blocking_spec P body f db :
  body_does P body f → P (committed db) → atomic f db (run_blocking (write_txn body) db).
Proof.
  intros Hb HP. unfold run_blocking. destruct (write_txn body db) as [p|] eqn:Hw; [|done].
  by eapply write_txn_spec.
Qed.

Lemma atomic_same f db e : atomic f db (db, Err e).
Proof. done. Qed.

Lemma bind_inv {A B} (c : TxM A) (k : A → TxM B) x x2 b :
  tx_bind c k x = Some (x2, Ok b) → ∃ x1 a, c x = Some (x1, Ok a) ∧ k a x1 = Some (x2, Ok b).
Proof. unfold tx_bind. destruct (c x) as [[x1 [a|e]]|]; [eauto|done..]. Qed.

Lemma open_does {K W} `{Countable K} (d : TableDefinition K W) P k f :
  (∀ t, P t → P (set_table d (rows d t) t)) →
  body_does P k f →
  body_does P (tx_bind (call (open_table d)) (λ _, k)) (λ t, f (set_table d (rows d t) t)).
Proof.
  intros HP Hk x x2 Hx (x1 & [] & [= Ho]%eq_sym & Hb)%bind_inv. apply eq_sym, open_table_spec in Ho.
  rewrite <- Ho. apply Hk; [|done]. rewrite Ho. by apply HP.
Qed.

Lemma insert_does {K W} `{Countable K} (d : TableDefinition K W) P k w :
  body_does P (call (insert d k w)) (λ t, set_table d (<[k := w]> (rows d t)) t).
Proof. intros x x' _. unfold call. intros [= Hi]. by apply insert_spec in Hi. Qed.

Lemma remove_does {K W} `{Countable K} (d : TableDefinition K W) P k :
  body_does P (call (remove d k)) (λ t, set_table d (delete k (rows d t)) t).
Proof. intros x x' _. unfold call. intros [= Hi]. by apply remove_spec in Hi. Qed.

(** ** The abstract state *)
Definition disk_of t : Disk :=
  {| d_decisions := rows RAFT_DECISIONS t;
     d_log := rows RAFT_LOG t;
     d_term := default 0%N (rows RAFT_TERM t !! META_KEY);
     d_voted_for := (λ row, mkNodeId row.1 row.2) <$> rows RAFT_VOTED_FOR t !! META_KEY;
     d_commit_index := rows RAFT_COMMIT_INDEX t !! META_KEY |}.

Definition redb_wf db : Prop := disk_wf (V := V) (disk_of (committed db)).

(** ** The log *)
Fixpoint rows_effect (next : N) (l : list (N * string)) t : Tables :=
  match l with
  | [] => t
  | row :: l => rows_effect (next + 1) l (set_table RAFT_LOG (<[next := row]> (rows RAFT_LOG t)) t)
  end.

Lemma insert_rows_does next i l P :
  body_does P (insert_rows next i l) (rows_effect (next + i) l).
Proof.
  intros x x' _. revert i x. induction l as [|row l IH]; intros i x; cbn [insert_rows rows_effect].
  { by intros [= <-]. }
  intros (x1 & idx & Hc & (x2 & [] & Hi & Hr)%bind_inv)%bind_inv.
  apply bind_Some in Hc as (? & [-> _]%checked_add_Some & [= -> <-]).
  unfold call in Hi. injection Hi as Hi.
  apply insert_spec in Hi. rewrite <- Hi. rewrite (IH _ _ Hr). f_equal. lia.
Qed.

Lemma rows_effect_disk next l t :
  disk_of (rows_effect next l t) =
  let d := disk_of t in {| d with d_log := insert_from next l (d_log d) |}.
Proof.
  revert next t. induction l as [|row l IH]; intros next t; cbn [rows_effect insert_from]; [done|].
  by rewrite IH.
Qed.


Lemma rows_effect_paxos next l t :
  rows PAXOS_DECISIONS (rows_effect next l t) = rows PAXOS_DECISIONS t.
Proof.
  revert next t. induction l as [|row l IH]; intros next t; cbn [rows_effect]; [done|]. by rewrite IH.
Qed.

Definition log_of_wf t : Prop := log_wf (V := V) (rows RAFT_LOG t).

Definition append_body (serialized : list (N * string)) : TxM unit :=
  tx_bind (call (open_table RAFT_LOG)) (λ _,
  tx_bind (query (last RAFT_LOG)) (λ o,
  tx_bind (match o with
           | Some (k, _) => checked (u64_add k 1)
           | None => tx_ret 0%N
           end) (λ next_index,
  insert_rows next_index 0 serialized))).

Lemma append_does serialized :
  body_does log_of_wf (append_body serialized)
    (λ t, rows_effect (N.of_nat (size (rows RAFT_LOG t))) serialized
            (set_table RAFT_LOG (rows RAFT_LOG t) t)).
Proof.
  apply (open_does RAFT_LOG _ _ (λ t, rows_effect (N.of_nat (size (rows RAFT_LOG t))) serialized t)).
  { done. }
  intros x x' (l & es & Hc & _)
    (x1 & o & [= <- Hl] & (x2 & next & Hn & Hi)%bind_inv)%bind_inv.
  apply last_spec in Hl. apply (insert_rows_does _ _ _ (λ _, True)) in Hi; [|done].
  rewrite Hi, N.add_0_r. destruct o as [[k w]|].
  - apply bind_Some in Hn as (? & [-> _]%checked_add_Some & [= -> <-]). destruct Hl as [Hk Hmax].
    by rewrite (last_key _ _ _ _ Hc Hk Hmax).
  - injection Hn as -> <-. by rewrite Hl, map_size_empty.
Qed.

Lemma drain_ok {A} (l : list (Result A string)) x x' :
  drain l x = Some (x', Ok tt) → x' = x ∧ ∃ taken, l = Ok <$> taken.
Proof.
  revert x. induction l as [|e l IH]; intros x; cbn [drain].
  { intros [= <-]. split; [done|]. by exists []. }
  intros (x1 & a & [= <- ->] & (-> & taken & ->)%IH)%bind_inv. split; [done|]. by exists (a :: taken).
Qed.

Lemma filter_below (m : gmap N (N * string)) n :
  filter (λ '(k, w), ¬ ((n ≤ k)%N ∧ true = true)) m = filter (λ '(k, _), (k < n)%N) m.
Proof. apply map_filter_ext. intros k w _. simpl. split; [intros; lia|intros ? []; lia]. Qed.

Lemma truncate_does n :
  body_does (λ _, True)
    (tx_bind (call (open_table RAFT_LOG)) (λ _,
     tx_bind (call (extract_from_if RAFT_LOG n (λ _ _, true))) (λ extracted, drain extracted)))
    (λ t, set_table RAFT_LOG (filter (λ '(k, _), (k < n)%N) (rows RAFT_LOG t))
            (set_table RAFT_LOG (rows RAFT_LOG t) t)).
Proof.
  apply (open_does RAFT_LOG _ _
    (λ t, set_table RAFT_LOG (filter (λ '(k, _), (k < n)%N) (rows RAFT_LOG t)) t)); [done|].
  intros x x' _ (x1 & l & [= He] & (-> & taken & ->)%drain_ok)%bind_inv.
  apply extract_spec in He. rewrite He. f_equal. apply filter_below.
Qed.

(** ** Writes *)

(** [f] means [w] on well-formed tables, and leaves the table of Paxos. *)
Definition means (f : Tables → Tables) (w : Write V) t : Prop :=
  disk_wf (V := V) (disk_of t) →
  rows PAXOS_DECISIONS (f t) = rows PAXOS_DECISIONS t ∧
  disk_wf (V := V) (disk_of (f t)) ∧
  disk_view (disk_of (f t)) = spec_write (λ v, v) w (disk_view (disk_of t)).

Definition lawful (w : Write V) db (p : Database * Result unit StorageError) : Prop :=
  rows PAXOS_DECISIONS (committed p.1) = rows PAXOS_DECISIONS (committed db) ∧
  redb_wf p.1 ∧ disk_view (disk_of (committed p.1)) =
    match p.2 with Ok _ => spec_write (λ v, v) w (disk_view (disk_of (committed db)))
                 | Err _ => disk_view (disk_of (committed db)) end.

Lemma atomic_lawful f w db p :
  redb_wf db → means f w (committed db) → atomic f db p → lawful w db p.
Proof.
  intros Hw Hm Ha. unfold lawful, redb_wf. rewrite Ha. destruct p.2; [by apply Hm|done].
Qed.

Lemma lawful_same w db e : redb_wf db → lawful w db (db, Err e).
Proof. done. Qed.

Lemma redb_save_decision_lawful slot v db :
  redb_wf db → lawful (WDecision slot v) db (save_decision_in RAFT_DECISIONS slot v db).
Proof.
  intros Hw. unfold save_decision_in. destruct (to_string v) as [s|e] eqn:Hs; [|done].
  eapply atomic_lawful; [done| |eapply (run_blocking_spec (λ _, True)); [|done]].
  2: { eapply open_does; [done|apply insert_does]. }
  intros [Hd Hl]. destruct (disk_decision _ slot _ _ Hs Hd) as [Hd' Hv].
  split_and!; [done|by split|]. unfold spec_write, disk_view. by f_equal.
Qed.

Lemma redb_save_term_lawful (t : N) db : redb_wf db → lawful (WTerm t) db (redb_save_term t db).
Proof.
  intros Hw. eapply atomic_lawful; [done| |eapply (run_blocking_spec (λ _, True)); [|done]].
  2: { eapply open_does; [done|apply insert_does]. }
  intros [Hd Hl]. split_and!; [done|done|]. unfold disk_view, disk_of, rows. simpl. by rewrite lookup_insert_eq.
Qed.

Lemma redb_save_voted_for_lawful vf db :
  redb_wf db → lawful (WVote vf) db (redb_save_voted_for vf db).
Proof.
  intros Hw. unfold redb_save_voted_for. destruct vf as [id|]; simpl fmap; cbv iota;
    (eapply atomic_lawful; [done| |eapply (run_blocking_spec (λ _, True)); [|done]]).
  2, 4: eapply open_does; [done|apply insert_does || apply remove_does].
  - intros [Hd Hl]. split_and!; [done|done|]. unfold disk_view, disk_of, rows. simpl. rewrite lookup_insert_eq.
    by destruct id.
  - intros [Hd Hl]. split_and!; [done|done|]. unfold disk_view, disk_of, rows. simpl. by rewrite lookup_delete_eq.
Qed.

Lemma redb_save_commit_index_lawful ci db :
  redb_wf db → lawful (WCommit ci) db (redb_save_commit_index ci db).
Proof.
  intros Hw. unfold redb_save_commit_index. destruct ci as [n|];
    (eapply atomic_lawful; [done| |eapply (run_blocking_spec (λ _, True)); [|done]]).
  2, 4: eapply open_does; [done|apply insert_does || apply remove_does].
  - intros [Hd Hl]. split_and!; [done|done|]. unfold disk_view, disk_of, rows. simpl. by rewrite lookup_insert_eq.
  - intros [Hd Hl]. split_and!; [done|done|]. unfold disk_view, disk_of, rows. simpl. by rewrite lookup_delete_eq.
Qed.

Lemma redb_append_lawful es db : redb_wf db → lawful (WAppend es) db (redb_append_log es db).
Proof.
  intros Hw. unfold redb_append_log. destruct (serialize_entries es) as [l|e] eqn:Hs; [|done].
  destruct l as [|row l].
  { split_and!; [done|done|]. apply serialize_ok in Hs. apply Forall2_nil_inv_l in Hs as ->.
    unfold spec_write. simpl. by rewrite app_nil_r. }
  eapply atomic_lawful; [done| |].
  2: { eapply (run_blocking_spec log_of_wf); [apply (append_does (row :: l))|]. apply Hw. }
  intros [Hd Hl]. destruct (disk_append _ _ _ Hs Hl) as [Hl' Hv].
  unfold disk_view. rewrite rows_effect_disk, rows_effect_paxos. split_and!; [done|by split|].
  unfold spec_write, disk_view. cbn [disk_of d_log d_decisions d_term d_voted_for d_commit_index m_log].
  rewrite map_entry_id. by f_equal.
Qed.

Lemma redb_truncate_lawful n db :
  redb_wf db → lawful (WTruncate n) db (redb_truncate_log_from n db).
Proof.
  intros Hw. eapply atomic_lawful; [done| |].
  2: { eapply (run_blocking_spec (λ _, True)); [apply truncate_does|done]. }
  intros [Hd Hl]. destruct (disk_truncate _ n Hl) as [Hl' Hv].
  split_and!; [done|by split|]. unfold spec_write, disk_view. by f_equal.
Qed.

Lemma redb_write_lawful w db : redb_wf db → lawful w db (do_write w db).
Proof.
  intros Hw. destruct w; simpl; [by apply redb_save_term_lawful
    |by apply redb_save_voted_for_lawful|by apply redb_truncate_lawful|by apply redb_append_lawful
    |by apply redb_save_commit_index_lawful|by apply redb_save_decision_lawful].
Qed.

(** ** Reads *)
Lemma read_txn_ok {K W A} `{Countable K} (d : TableDefinition K W) body db (a : A) :
  read_txn d body db = Ok a →
  ∃ y : ReadTransaction, snapshot y = committed db ∧ body y = Ok a.
Proof.
  unfold read_txn. destruct (begin_read db) as [x|] eqn:Hb; [|done]. simpl.
  destruct (read_table d x); [|done]. simpl. intros Hx. apply begin_read_spec in Hb. eauto.
Qed.

#[export] Program Instance RedbRaftStorage_on : RaftStorageSpecOn Database V redb_wf := {|
  view_on db := disk_view (disk_of (committed db));
|}.
Next Obligation.
  intros w db db' r Hw Hr.
  assert (lawful w db (db', r)) as (_ & Hw' & Hv); [|by split].
  rewrite <- Hr. by apply redb_write_lawful.
Qed.
Next Obligation.
  intros db t _ (x & Hx & (o & Ho%map_err_ok & [= <-])%rbind_ok)%read_txn_ok.
  apply get_spec in Ho as ->. by rewrite Hx.
Qed.
Next Obligation.
  intros db vf _ (x & Hx & (o & Ho%map_err_ok & Hr)%rbind_ok)%read_txn_ok.
  apply get_spec in Ho. rewrite Hx in Ho. simpl. rewrite <- Ho. by destruct o as [[]|]; injection Hr as <-.
Qed.
Next Obligation.
  intros db l [_ Hl] (x & Hx & (rs & Hr%map_err_ok & Hc)%rbind_ok)%read_txn_ok.
  destruct (collect_all_ok _ _ _ Hc) as [l' ->]. apply iter_spec in Hr as [Hp Hs].
  rewrite Hx in Hp. rewrite collect_snd in Hc. by eapply disk_load_log.
Qed.
Next Obligation.
  intros db ci _ (x & Hx & Ho%map_err_ok)%read_txn_ok. apply get_spec in Ho as ->. by rewrite Hx.
Qed.
Next Obligation.
  intros db l _ (x & Hx & (rs & Hr%map_err_ok & Hc)%rbind_ok)%read_txn_ok.
  destruct (collect_all_ok _ _ _ Hc) as [l' ->]. apply iter_spec in Hr as [Hp Hs].
  rewrite Hx in Hp. by eapply disk_load_decisions.
Qed.

(** ** The Paxos backend *)
Lemma redb_paxos_save slot v str db :
  to_string v = Ok str →
  atomic (λ t, set_table PAXOS_DECISIONS (<[slot := str]> (rows PAXOS_DECISIONS t))
                 (set_table PAXOS_DECISIONS (rows PAXOS_DECISIONS t) t)) db
    (save_decision_in PAXOS_DECISIONS slot v db).
Proof.
  intros Hs. unfold save_decision_in. rewrite Hs. cbn [map_err].
  apply (run_blocking_spec (λ _, True)); [|done].
  apply (open_does PAXOS_DECISIONS _ _ (λ t, set_table PAXOS_DECISIONS
    (<[slot := str]> (rows PAXOS_DECISIONS t)) t)); [done|apply insert_does].
Qed.

#[export] Program Instance RedbPaxosStorage_spec : PaxosStorageSpec Database V := {|
  p_view db := omap decode (rows PAXOS_DECISIONS (committed db));
  p_norm v := v;
|}.
Next Obligation. done. Qed.
Next Obligation.
  intros slot v db db' E. simpl in E. destruct (to_string v) as [str|] eqn:Hs.
  - pose proof (redb_paxos_save slot v str db Hs) as Ha. rewrite E in Ha. simpl in Ha. rewrite Ha.
    by apply omap_insert_Some, decode_to_string.
  - unfold save_decision_in in E. by rewrite Hs in E.
Qed.
Next Obligation.
  intros slot v db db' e E. simpl in E. destruct (to_string v) as [str|] eqn:Hs.
  - pose proof (redb_paxos_save slot v str db Hs) as Ha. rewrite E in Ha. simpl in Ha. by rewrite Ha.
  - unfold save_decision_in in E. rewrite Hs in E. by injection E as <- _.
Qed.
Next Obligation.
  intros db l (x & Hx & (rs & Hr%map_err_ok & Hc)%rbind_ok)%read_txn_ok.
  destruct (collect_all_ok _ _ _ Hc) as [l' ->]. apply iter_spec in Hr as [Hp Hs].
  rewrite Hx in Hp. by eapply disk_load_decisions.
Qed.

Lemma redb_writes_paxos ws db :
  redb_wf db → rows PAXOS_DECISIONS (committed (do_writes (V := V) ws db).1) =
               rows PAXOS_DECISIONS (committed db).
Proof.
  revert db. induction ws as [|w ws IH]; intros db Hw; cbn [do_writes]; [done|]. unfold sbind.
  pose proof (redb_write_lawful w db Hw) as (Hp & Hw1 & _).
  destruct (do_write w db) as [db1 [[]|e]]; cbn [fst] in *; [|done]. by rewrite IH.
Qed.

(** ** Opening *)
Definition raft_tables_exist t : Prop :=
  is_Some (t_raft_decisions t) ∧ is_Some (t_raft_log t) ∧ is_Some (t_raft_term t) ∧
  is_Some (t_raft_voted_for t) ∧ is_Some (t_raft_commit_index t).

Definition create_effect t : Tables :=
  let t := set_table RAFT_DECISIONS (rows RAFT_DECISIONS t) t in
  let t := set_table RAFT_LOG (rows RAFT_LOG t) t in
  let t := set_table RAFT_TERM (rows RAFT_TERM t) t in
  let t := set_table RAFT_VOTED_FOR (rows RAFT_VOTED_FOR t) t in
  set_table RAFT_COMMIT_INDEX (rows RAFT_COMMIT_INDEX t) t.

Lemma create_does : body_does (λ _, True) create_raft_tables create_effect.
Proof.
  intros x x5 _ (x1 & [] & [= Ho1] & (x2 & [] & [= Ho2] & (x3 & [] & [= Ho3] &
    (x4 & [] & [= Ho4] & [= Ho5])%bind_inv)%bind_inv)%bind_inv)%bind_inv.
  apply open_table_spec in Ho1, Ho2, Ho3, Ho4, Ho5. by rewrite Ho5, Ho4, Ho3, Ho2, Ho1.
Qed.

Lemma create_disk t :
  disk_of (create_effect t) = disk_of t ∧ raft_tables_exist (create_effect t) ∧
  rows PAXOS_DECISIONS (create_effect t) = rows PAXOS_DECISIONS t.
Proof. split_and!; [done|repeat split; by eexists|done]. Qed.

Lemma disk_of_empty_wf t :
  t_raft_decisions t = None → t_raft_log t = None → disk_wf (V := V) (disk_of t).
Proof.
  intros Hd Hl. unfold disk_wf, disk_of, rows. simpl. rewrite Hd, Hl. split.
  - intros ? ?. simpl. by rewrite lookup_empty.
  - exists [], []. split; [apply contiguous_nil|constructor].
Qed.
End redb_props.
