(* ===== verification/DuckdbStorage.v ===== *)
(** * Durable storage on DuckDB

    Models [daccord/src/duckdb_storage.rs]. The SQL the file contains is
    modelled statement by statement: [stmt_effect], [row_result] and
    [rows_result] say what each means on the tables of the two schemas. The
    engine is a parameter: the class [Duckdb] holds the calls the file makes,
    with their error results, and [DuckdbSpec] says that a statement that
    succeeds does what it means, that one that fails changes nothing (of a
    batch that fails the first statements may have been done), and that a
    transaction is atomic. *)

From S2P Require Import Prelude Types Storage Backend.

(** ** The schemas *)
Record RaftMeta := mkMeta {
  rm_term : N;
  rm_voted_for_name : option string;
  rm_voted_for_incarnation : option N;
  rm_commit_index : option N;
}.

(** The tables of [PAXOS_SCHEMA] and [RAFT_SCHEMA] by their primary keys;
    [None] before a table is created. *)
Record Schema := mkSchema {
  paxos_decisions : option (gmap N string);
  raft_decisions : option (gmap N string);
  raft_meta : option (gmap N RaftMeta);
  raft_log : option (gmap N (N * string));
}.

Inductive DecisionTable := InPaxosDecisions | InRaftDecisions.

Definition decisions_of (t : DecisionTable) (c : Schema) : option (gmap N string) :=
  match t with InPaxosDecisions => paxos_decisions c | InRaftDecisions => raft_decisions c end.
Definition set_decisions (t : DecisionTable) (m : gmap N string) (c : Schema) : Schema :=
  match t with
  | InPaxosDecisions => {| c with paxos_decisions := Some m |}
  | InRaftDecisions => {| c with raft_decisions := Some m |}
  end.

(** ** Statements *)

(** The statements of the file with their parameters, in the order in which
    they appear. *)
Inductive Statement :=
| CreateDecisions (t : DecisionTable)
| CreateMeta
| CreateLog
| RAFT_META_SEED
| UpsertDecision (t : DecisionTable) (slot : N) (value : string)
| UpdateTerm (t : N)
| UpdateVotedFor (nm : option string) (inc : option N)
| InsertLog (idx t : N) (value : string)
| DeleteLogFrom (index : N)
| UpdateCommitIndex (ci : option N).

Definition meta_empty : RaftMeta := mkMeta 0 None None None.

(** [UPDATE raft_meta SET ... WHERE id = 0]: nothing happens without the
    row. *)
Definition update_meta (f : RaftMeta → RaftMeta) (c : Schema) : option Schema :=
  m ← raft_meta c; Some {| c with raft_meta := Some (alter f 0%N m) |}.

(** [INSERT ... VALUES (0, 0, NULL, NULL, NULL) ON CONFLICT (id) DO NOTHING]. *)
Definition seed_meta (c : Schema) : option Schema :=
  m ← raft_meta c;
  Some {| c with raft_meta := Some (partial_alter (λ o, Some (default meta_empty o)) 0%N m) |}.

(** [INSERT ... ON CONFLICT (slot) DO UPDATE SET value = excluded.value]. *)
Definition upsert_decision (t : DecisionTable) (slot : N) (value : string) (c : Schema)
    : option Schema :=
  m ← decisions_of t c; Some (set_decisions t (<[slot := value]> m) c).

(** [INSERT INTO raft_log]: a duplicate primary key is an error. *)
Definition insert_log (idx t : N) (value : string) (c : Schema) : option Schema :=
  m ← raft_log c;
  if is_some (m !! idx) then None
  else Some {| c with raft_log := Some (<[idx := (t, value)]> m) |}.

(** [DELETE FROM raft_log WHERE log_index >= ?]. *)
Definition delete_log_from (index : N) (c : Schema) : option Schema :=
  m ← raft_log c; Some {| c with raft_log := Some (filter (λ '(k, _), (k < index)%N) m) |}.

(** [CREATE TABLE IF NOT EXISTS]. *)
Definition create_decisions (t : DecisionTable) (c : Schema) : Schema :=
  set_decisions t (default ∅ (decisions_of t c)) c.
Definition create_meta (c : Schema) : Schema :=
  {| c with raft_meta := Some (default ∅ (raft_meta c)) |}.
Definition create_log (c : Schema) : Schema :=
  {| c with raft_log := Some (default ∅ (raft_log c)) |}.

(** What a statement does; [None] where it is an error (a missing table, a
    duplicate primary key). *)
Definition stmt_effect (st : Statement) (c : Schema) : option Schema :=
  match st with
  | CreateDecisions t => Some (create_decisions t c)
  | CreateMeta => Some (create_meta c)
  | CreateLog => Some (create_log c)
  | RAFT_META_SEED => seed_meta c
  | UpsertDecision t slot value => upsert_decision t slot value c
  | UpdateTerm t => update_meta (λ r, {| r with rm_term := t |}) c
  | UpdateVotedFor nm inc => update_meta (λ r, {| r with
      rm_voted_for_name := nm; rm_voted_for_incarnation := inc |}) c
  | InsertLog idx t value => insert_log idx t value c
  | DeleteLogFrom index => delete_log_from index c
  | UpdateCommitIndex ci => update_meta (λ r, {| r with rm_commit_index := ci |}) c
  end.

(** The statements of a batch, one after the other. *)
Fixpoint batch_effect (sts : list Statement) (c : Schema) : option Schema :=
  match sts with
  | [] => Some c
  | st :: sts => c ← stmt_effect st c; batch_effect sts c
  end.

Definition PAXOS_SCHEMA : list Statement := [CreateDecisions InPaxosDecisions].
Definition RAFT_SCHEMA : list Statement := [CreateDecisions InRaftDecisions; CreateMeta; CreateLog].

(** The greatest key of a table. *)
Definition max_key {W} (m : gmap N W) : option N :=
  map_fold (λ k _ o, Some (match o with None => k | Some j => N.max j k end)) None m.

(** Queries of one row ([query_row]): an error when there is none. *)
Inductive RowQuery : Type → Type :=
| SelectTerm : RowQuery N
| SelectVotedFor : RowQuery (option string * option N)
| SelectCommitIndex : RowQuery (option N)
| SelectNextIndex : RowQuery N.

(** [SELECT COALESCE(MAX(log_index) + 1, 0)], read as a [u64]. *)
Definition select_next_index (c : Schema) : option N :=
  m ← raft_log c; match max_key m with None => Some 0%N | Some k => u64_add k 1 end.

Definition row_result {A} (q : RowQuery A) (c : Schema) : option A :=
  match q with
  | SelectTerm => m ← raft_meta c; rm_term <$> m !! 0%N
  | SelectVotedFor =>
      m ← raft_meta c; (λ r, (rm_voted_for_name r, rm_voted_for_incarnation r)) <$> m !! 0%N
  | SelectCommitIndex => m ← raft_meta c; rm_commit_index <$> m !! 0%N
  | SelectNextIndex => select_next_index c
  end.

(** Queries of many rows ([query_map]). *)
Inductive RowsQuery : Type → Type :=
| SelectDecisions (t : DecisionTable) : RowsQuery (N * string)
| SelectLog : RowsQuery (N * string).

(** What the rows of a query may be: in any order, or by [log_index]. *)
Definition rows_result {A} (q : RowsQuery A) : Schema → list A → Prop :=
  match q with
  | SelectDecisions t => λ c l, ∃ m, decisions_of t c = Some m ∧ l ≡ₚ map_to_list m
  | SelectLog => λ c l, ∃ m rows, raft_log c = Some m ∧ rows ≡ₚ map_to_list m ∧
                   StronglySorted N.lt rows.*1 ∧ l = rows.*2
  end.

(** ** The engine *)
Class Duckdb (Connection Transaction : Type) := {
  execute : Statement → Connection → Connection * Result unit string;
  execute_batch : list Statement → Connection → Connection * Result unit string;
  query_row {A} : RowQuery A → Connection → Result A string;
  query_map {A} : RowsQuery A → Connection → Result (list (Result A string)) string;
  transaction : Connection → Connection * Result Transaction string;
  tx_execute : Statement → Transaction → Transaction * Result unit string;
  tx_query_row {A} : RowQuery A → Transaction → Result A string;
  tx_commit : Transaction → Connection → Connection * Result unit string;
}.

Class DuckdbSpec (Connection Transaction : Type) `{Duckdb Connection Transaction} := {
  content : Connection → Schema;
  tx_content : Transaction → Schema;
  execute_spec st c c' r :
    execute st c = (c', r) →
    match r with Ok _ => stmt_effect st (content c) = Some (content c')
               | Err _ => content c' = content c end;
  execute_batch_spec sts c c' r :
    execute_batch sts c = (c', r) →
    ∃ k, batch_effect (take k sts) (content c) = Some (content c') ∧
         (r = Ok tt → k = length sts);
  query_row_spec {A} (q : RowQuery A) c a :
    query_row q c = Ok a → row_result q (content c) = Some a;
  query_map_spec {A} (q : RowsQuery A) c l :
    query_map q c = Ok (Ok <$> l) → rows_result q (content c) l;
  transaction_spec c c' r :
    transaction c = (c', r) →
    content c' = content c ∧ ∀ x, r = Ok x → tx_content x = content c;
  tx_execute_spec st x x' :
    tx_execute st x = (x', Ok tt) → stmt_effect st (tx_content x) = Some (tx_content x');
  tx_query_row_spec {A} (q : RowQuery A) x a :
    tx_query_row q x = Ok a → row_result q (tx_content x) = Some a;
  tx_commit_spec x c c' r :
    tx_commit x c = (c', r) →
    content c' = match r with Ok _ => tx_content x | Err _ => content c end;
}.

Section duckdb_storage.
Context {Connection Transaction : Type} `{!Duckdb Connection Transaction}.
Context {V : Type} `{Json V}.

(** [Arc<Mutex<Connection>>]: a closure that panics poisons the mutex. *)
Record Shared := mkShared { conn : Connection; poisoned : bool }.

Definition run_blocking {A} (f : Connection → option (Connection * Result A StorageError))
    : StorageM Shared A := λ s,
  if poisoned s then (s, Err (Persist "duckdb storage mutex poisoned")) else
  match f (conn s) with
  | None => (mkShared (conn s) true, Err (Persist "blocking task panicked"))
  | Some (c, r) => (mkShared c false, r)
  end.

Definition run_query {A} (f : Connection → Result A StorageError) (s : Shared)
    : Result A StorageError :=
  if poisoned s then Err (Persist "duckdb storage mutex poisoned") else f (conn s).

(** [conn.execute(...).map(|_| ()).map_err(persist)]. *)
Definition exec (st : Statement) (c : Connection)
    : option (Connection * Result unit StorageError) :=
  let '(c, r) := execute st c in Some (c, map_err persist r).

(** ** Opening *)
Definition DuckdbPaxosStorage_from_connection (c : Connection) : Result Shared StorageError :=
  let '(c, r) := execute_batch PAXOS_SCHEMA c in
  _ ←? map_err persist r; Ok (mkShared c false).

Definition DuckdbRaftStorage_from_connection (c : Connection) : Result Shared StorageError :=
  let '(c, r) := execute_batch RAFT_SCHEMA c in
  _ ←? map_err persist r;
  let '(c, r) := execute RAFT_META_SEED c in
  _ ←? map_err persist r; Ok (mkShared c false).

(** ** Decisions, for either protocol *)
Definition duck_save_decision (t : DecisionTable) (slot : N) (v : V) : StorageM Shared unit := λ s,
  match map_err persist (to_string v) with
  | Err e => (s, Err e)
  | Ok serialized => run_blocking (exec (UpsertDecision t slot serialized)) s
  end.

Definition duck_load_decisions (t : DecisionTable) : Shared → Result (list (N * V)) StorageError :=
  run_query (λ c, l ←? map_err load (query_map (SelectDecisions t) c);
                  collect_rows decode_decision l).

#[export] Instance DuckdbPaxosStorage_impl : PaxosStorage Shared V := {|
  p_save_decision := duck_save_decision InPaxosDecisions;
  p_load_decisions := duck_load_decisions InPaxosDecisions;
|}.

(** ** The Raft methods *)
Definition duck_save_term (t : N) : StorageM Shared unit := run_blocking (exec (UpdateTerm t)).

Definition duck_load_term : Shared → Result N StorageError :=
  run_query (λ c, map_err load (query_row SelectTerm c)).

Definition duck_save_voted_for (voted_for : option NodeId) : StorageM Shared unit :=
  let '(nm, inc) := match voted_for with
                    | Some id => (Some (name id), Some (incarnation id))
                    | None => (None, None)
                    end in
  run_blocking (exec (UpdateVotedFor nm inc)).

Definition duck_load_voted_for : Shared → Result (option NodeId) StorageError :=
  run_query (λ c,
    row ←? map_err load (query_row SelectVotedFor c);
    match row with
    | (Some nm, Some inc) => Ok (Some (mkNodeId nm inc))
    | (None, None) => Ok None
    | _ => Err (Load "raft_meta.voted_for_name and voted_for_incarnation are inconsistent")
    end).

(** [for (i, (term, value)) in serialized.into_iter().enumerate()]; [None] is
    a panic. *)
Fixpoint insert_log_rows (next_index i : N) (serialized : list (N * string)) (x : Transaction)
    : option (Transaction * Result unit string) :=
  match serialized with
  | [] => Some (x, Ok tt)
  | (t, v) :: rest =>
      idx ← u64_add next_index i;
      match tx_execute (InsertLog idx t v) x with
      | (x, Err e) => Some (x, Err e)
      | (x, Ok _) => insert_log_rows next_index (i + 1) rest x
      end
  end.

Definition append_txn (serialized : list (N * string)) (c : Connection)
    : option (Connection * Result unit StorageError) :=
  match transaction c with
  | (c, Err e) => Some (c, Err (persist e))
  | (c, Ok x) =>
      match tx_query_row SelectNextIndex x with
      | Err e => Some (c, Err (persist e))
      | Ok next_index =>
          '(x, r) ← insert_log_rows next_index 0 serialized x;
          match r with
          | Err e => Some (c, Err (persist e))
          | Ok _ => let '(c, r) := tx_commit x c in Some (c, map_err persist r)
          end
      end
  end.

Definition duck_append_log (entries : list (LogEntry V)) : StorageM Shared unit := λ s,
  match serialize_entries entries with
  | Err e => (s, Err e)
  | Ok [] => (s, Ok tt)
  | Ok serialized => run_blocking (append_txn serialized) s
  end.

Definition duck_truncate_log_from (index : N) : StorageM Shared unit :=
  run_blocking (exec (DeleteLogFrom index)).

Definition duck_load_log : Shared → Result (list (LogEntry V)) StorageError :=
  run_query (λ c, l ←? map_err load (query_map SelectLog c); collect_rows decode_entry l).

Definition duck_save_commit_index (commit_index : option N) : StorageM Shared unit :=
  run_blocking (exec (UpdateCommitIndex commit_index)).

Definition duck_load_commit_index : Shared → Result (option N) StorageError :=
  run_query (λ c, map_err load (query_row SelectCommitIndex c)).

#[export] Instance DuckdbRaftStorage_impl : RaftStorage Shared V := {|
  save_decision := duck_save_decision InRaftDecisions;
  load_decisions := duck_load_decisions InRaftDecisions;
  save_term := duck_save_term;
  load_term := duck_load_term;
  save_voted_for := duck_save_voted_for;
  load_voted_for := duck_load_voted_for;
  append_log := duck_append_log;
  truncate_log_from := duck_truncate_log_from;
  load_log := duck_load_log;
  save_commit_index := duck_save_commit_index;
  load_commit_index := duck_load_commit_index;
|}.
End duckdb_storage.
Arguments Shared : clear implicits.
