(* ===== verification/DuckdbProps.v ===== *)
(** * The DuckDB backends refine the abstract durable state

    From the meaning of the SQL of the file: once opened, every method of
    [DuckdbRaftStorage] is one atomic change of the abstract state, an error
    changes nothing, loads return it. The seed row is what this rests on; a
    half-written vote is refused; after a panic every call fails. *)

From S2P Require Import Prelude Types Storage Backend DuckdbStorage.

(** ** The greatest key *)
Lemma max_key_spec {W} (m : gmap N W) :
  match max_key m with
  | None => m = ∅
  | Some k => is_Some (m !! k) ∧ ∀ j, is_Some (m !! j) → (j ≤ k)%N
  end.
Proof.
  unfold max_key.
  apply (map_fold_weak_ind (λ o (m : gmap N W), match o with
    | None => m = ∅
    | Some k => is_Some (m !! k) ∧ ∀ j, is_Some (m !! j) → (j ≤ k)%N end)); [done|].
  intros k w m' o Hk IH. split.
  - destruct o as [j|]; [|by rewrite lookup_insert_eq].
    destruct IH as [Hj _]. destruct (N.max_spec j k) as [[_ ->]|[_ ->]].
    + by rewrite lookup_insert_eq.
    + destruct (decide (k = j)) as [->|]; [by rewrite lookup_insert_eq|].
      by rewrite lookup_insert_ne.
  - intros i. destruct (decide (i = k)) as [->|Hne].
    + intros _. destruct o; lia.
    + rewrite lookup_insert_ne by done. destruct o as [j|]; [|subst; by intros [? ?]].
      intros Hi%IH. lia.
Qed.

Lemma next_index_size (m : gmap N (N * string)) l n :
  contiguous m l → match max_key m with None => Some 0%N | Some k => u64_add k 1 end = Some n →
  n = N.of_nat (size m).
Proof.
  intros Hc. pose proof (max_key_spec m) as Hm. destruct (max_key m) as [k|].
  - intros [-> _]%checked_add_Some. destruct Hm as [[w Hk] Hmax].
    symmetry. by eapply last_key.
  - intros [= <-]. subst m. by rewrite map_size_empty.
Qed.

Section duckdb_props.
Context {Connection Transaction : Type} `{DuckdbSpec Connection Transaction}.
Context {V : Type} `{JsonSpec V}.
Implicit Types (c : Connection) (s : Shared Connection) (a : Schema).

(** ** The abstract state *)

(** The row of [raft_meta] with [id = 0]. *)
Definition meta_row a : option RaftMeta := m ← raft_meta a; m !! 0%N.

Definition meta_vote (r : RaftMeta) : option NodeId :=
  match rm_voted_for_name r, rm_voted_for_incarnation r with
  | Some nm, Some inc => Some (mkNodeId nm inc)
  | _, _ => None
  end.

Definition duck_disk a : Disk :=
  let r := default meta_empty (meta_row a) in
  {| d_decisions := default ∅ (raft_decisions a);
     d_log := default ∅ (raft_log a);
     d_term := rm_term r; d_voted_for := meta_vote r; d_commit_index := rm_commit_index r |}.

(** The tables exist, the seed row is there, the vote is whole or absent,
    and what is stored can be read. *)
Definition schema_wf a : Prop :=
  is_Some (raft_decisions a) ∧ is_Some (raft_log a) ∧
  (∃ r, meta_row a = Some r ∧ (is_Some (rm_voted_for_name r) ↔ is_Some (rm_voted_for_incarnation r))) ∧
  disk_wf (V := V) (duck_disk a).

Definition duck_wf s : Prop := schema_wf (content (conn s)).
Definition duck_view s : RaftMemoryStorage V := disk_view (duck_disk (content (conn s))).

(** ** Statements *)

(** A change from [a] to [a'] that means [w] and leaves the table of Paxos. *)
Definition means_to (w : Write V) a a' : Prop :=
  paxos_decisions a' = paxos_decisions a ∧
  schema_wf a' ∧ disk_view (V := V) (duck_disk a') = spec_write (λ v, v) w (disk_view (duck_disk a)).

Definition duck_lawful (w : Write V) s (p : Shared Connection * Result unit StorageError) : Prop :=
  paxos_decisions (content (conn p.1)) = paxos_decisions (content (conn s)) ∧
  duck_wf p.1 ∧ duck_view p.1 =
    match p.2 with Ok _ => spec_write (λ v, v) w (duck_view s) | Err _ => duck_view s end.

Lemma run_blocking_lawful f w s :
  duck_wf s →
  (∀ c' r, f (conn s) = Some (c', r) →
     match r with Ok _ => means_to w (content (conn s)) (content c')
                | Err _ => content c' = content (conn s) end) →
  duck_lawful w s (run_blocking f s).
Proof.
  intros Hw Hf. unfold run_blocking. destruct (poisoned s); [done|].
  destruct (f (conn s)) as [[c' r]|]; [|done]. specialize (Hf c' r eq_refl).
  unfold duck_lawful, duck_wf, duck_view in *. simpl. destruct r; [done|]. by rewrite Hf.
Qed.

Lemma exec_lawful st w s :
  duck_wf s →
  (∀ a', stmt_effect st (content (conn s)) = Some a' → means_to w (content (conn s)) a') →
  duck_lawful w s (run_blocking (exec st) s).
Proof.
  intros Hw Hm. apply run_blocking_lawful; [done|]. intros c' r. unfold exec.
  destruct (execute st (conn s)) as [c1 r1] eqn:He. intros [= <- <-].
  apply execute_spec in He. destruct r1; [by apply Hm|done].
Qed.

Lemma update_meta_row f a a' :
  update_meta f a = Some a' →
  paxos_decisions a' = paxos_decisions a ∧ meta_row a' = f <$> meta_row a ∧
  raft_decisions a' = raft_decisions a ∧ raft_log a' = raft_log a.
Proof.
  unfold update_meta, meta_row. destruct (raft_meta a) as [m|]; [|done]. intros [= <-].
  simpl. by rewrite lookup_alter_eq.
Qed.

(** An update of the seed row. *)
Lemma update_meta_means f w a a' :
  schema_wf a → update_meta f a = Some a' →
  (∀ r, (is_Some (rm_voted_for_name r) ↔ is_Some (rm_voted_for_incarnation r)) →
        (is_Some (rm_voted_for_name (f r)) ↔ is_Some (rm_voted_for_incarnation (f r)))) →
  (∀ r m l, let d := mkDisk m l (rm_term r) (meta_vote r) (rm_commit_index r) in
    let d' := mkDisk m l (rm_term (f r)) (meta_vote (f r)) (rm_commit_index (f r)) in
    disk_view d' = spec_write (λ v, v) w (disk_view d)) →
  means_to w a a'.
Proof.
  intros (Hd & Hl & (r & Hr & Hv) & Hdisk) (Hp & Hr' & Hd' & Hl')%update_meta_row Hf Hm.
  rewrite Hr in Hr'. simpl in Hr'. unfold means_to, schema_wf, duck_disk in *.
  rewrite Hd', Hl', Hr', Hr in *. split_and!; eauto.
Qed.

Lemma duck_save_term_lawful t s : duck_wf s → duck_lawful (WTerm t) s (duck_save_term t s).
Proof. intros Hw. apply exec_lawful; [done|]. intros a' Ha. by eapply update_meta_means. Qed.

Lemma duck_save_commit_index_lawful ci s :
  duck_wf s → duck_lawful (WCommit ci) s (duck_save_commit_index ci s).
Proof. intros Hw. apply exec_lawful; [done|]. intros a' Ha. by eapply update_meta_means. Qed.

Lemma duck_save_voted_for_lawful vf s :
  duck_wf s → duck_lawful (WVote vf) s (duck_save_voted_for vf s).
Proof.
  intros Hw. unfold duck_save_voted_for. destruct vf as [[nm inc]|]; simpl;
    (apply exec_lawful; [done|]; intros a' Ha; eapply update_meta_means; [done|exact Ha| |done]);
    simpl; naive_solver.
Qed.

Lemma duck_save_decision_lawful slot v s :
  duck_wf s → duck_lawful (WDecision slot v) s (duck_save_decision InRaftDecisions slot v s).
Proof.
  intros Hw. unfold duck_save_decision. destruct (to_string v) as [str|e] eqn:Hs; [|done].
  apply exec_lawful; [done|]. destruct Hw as (Hd & Hl & Hr & Hdw & Hlw).
  destruct Hd as [m Hm]. simpl. unfold upsert_decision. simpl. rewrite Hm. intros a' [= <-].
  unfold duck_disk in Hdw. rewrite Hm in Hdw. destruct (disk_decision _ slot _ _ Hs Hdw) as [Hd' Hv].
  split; [done|]. split; [by split_and!|]. unfold spec_write, disk_view, duck_disk. simpl. rewrite Hm. by f_equal.
Qed.

Lemma duck_truncate_lawful n s :
  duck_wf s → duck_lawful (WTruncate n) s (duck_truncate_log_from n s).
Proof.
  intros Hw. apply exec_lawful; [done|]. destruct Hw as (Hd & Hl & Hr & Hdw & Hlw).
  destruct Hl as [m Hm]. simpl. unfold delete_log_from. rewrite Hm. intros a' [= <-].
  unfold duck_disk in Hlw. rewrite Hm in Hlw. destruct (disk_truncate _ n Hlw) as [Hl' Hv].
  split; [done|]. split; [by split_and!|]. unfold spec_write, disk_view, duck_disk. simpl. rewrite Hm. by f_equal.
Qed.

(** ** Appending *)
Lemma insert_log_rows_ok next i l x x' m :
  raft_log (tx_content x) = Some m → insert_log_rows next i l x = Some (x', Ok tt) →
  let a := tx_content x in
  tx_content x' = {| a with raft_log := Some (insert_from (next + i) l m) |}.
Proof.
  revert i x m. induction l as [|[t v] l IH]; intros i x m Hm; simpl.
  { intros [= <-]. destruct (tx_content x). simpl in *. by subst. }
  intros (idx & [-> _]%checked_add_Some & Hr)%bind_Some.
  destruct (tx_execute (InsertLog (next + i) t v) x) as [x1 [[]|e]] eqn:He; [|done].
  apply tx_execute_spec in He. simpl in He. unfold insert_log in He. rewrite Hm in He. simpl in He.
  destruct (is_some (m !! (next + i)%N)); [done|]. injection He as He.
  apply (IH _ _ (<[(next + i)%N := (t, v)]> m)) in Hr; [|by rewrite <- He].
  rewrite Hr, <- He. simpl. by rewrite N.add_assoc.
Qed.

Lemma append_txn_spec l c c' r m :
  raft_log (content c) = Some m → log_wf (V := V) m → append_txn l c = Some (c', r) →
  match r with
  | Ok _ => let a := content c in
            content c' = {| a with raft_log := Some (insert_from (N.of_nat (size m)) l m) |}
  | Err _ => content c' = content c
  end.
Proof.
  intros Hm (rows & es & Hc & _). unfold append_txn.
  destruct (transaction c) as [c1 [x|e]] eqn:Ht; apply transaction_spec in Ht as [Hc1 Hx];
    [|by intros [= <- <-]]. specialize (Hx x eq_refl).
  destruct (tx_query_row SelectNextIndex x) as [n|e] eqn:Hq; [|by intros [= <- <-]].
  apply tx_query_row_spec in Hq. simpl in Hq. unfold select_next_index in Hq. rewrite Hx, Hm in Hq.
  apply (next_index_size _ _ _ Hc) in Hq as ->.
  intros ([x1 r1] & Hi & Hr)%bind_Some. destruct r1 as [[]|e]; [|by injection Hr as <- <-].
  destruct (tx_commit x1 c1) as [c2 r2] eqn:Hcm. injection Hr as <- <-. apply tx_commit_spec in Hcm.
  destruct r2; simpl; [|congruence]. rewrite Hcm.
  rewrite (insert_log_rows_ok _ _ _ _ _ m ltac:(by rewrite Hx) Hi). by rewrite N.add_0_r, Hx.
Qed.

Lemma duck_append_lawful es s : duck_wf s → duck_lawful (WAppend es) s (duck_append_log es s).
Proof.
  intros Hw. unfold duck_append_log. destruct (serialize_entries es) as [l|e] eqn:Hs; [|done].
  destruct l as [|row l].
  { split_and!; [done|done|]. apply serialize_ok in Hs. apply Forall2_nil_inv_l in Hs as ->.
    unfold spec_write. simpl. by rewrite app_nil_r. }
  apply run_blocking_lawful; [done|]. intros c' r Hr.
  destruct Hw as (Hd & [m Hm] & Hrow & Hdw & Hlw). unfold duck_disk in Hlw. rewrite Hm in Hlw.
  apply (append_txn_spec _ _ _ _ m Hm Hlw) in Hr. destruct r as [[]|]; [|done]. rewrite Hr.
  destruct (disk_append _ _ _ Hs Hlw) as [Hl' Hv].
  split; [done|]. split; [by split_and!|]. unfold spec_write, disk_view, duck_disk. rewrite Hm.
  cbn [raft_log raft_decisions raft_meta default m_log d_log]. rewrite map_entry_id. by f_equal.
Qed.

Lemma duck_write_lawful w s : duck_wf s → duck_lawful w s (do_write w s).
Proof.
  intros Hw. destruct w; simpl; [by apply duck_save_term_lawful
    |by apply duck_save_voted_for_lawful|by apply duck_truncate_lawful|by apply duck_append_lawful
    |by apply duck_save_commit_index_lawful|by apply duck_save_decision_lawful].
Qed.

(** ** Reads *)
Lemma run_query_ok {A} (f : Connection → Result A StorageError) s r :
  run_query f s = Ok r → poisoned s = false ∧ f (conn s) = Ok r.
Proof. unfold run_query. by destruct (poisoned s). Qed.

#[export] Program Instance DuckdbRaftStorage_on :
    RaftStorageSpecOn (Shared Connection) V duck_wf := {| view_on := duck_view |}.
Next Obligation.
  intros w s s' r Hw Hr.
  assert (duck_lawful w s (s', r)) as (_ & Hw' & Hv); [|by split].
  rewrite <- Hr. by apply duck_write_lawful.
Qed.
Next Obligation.
  intros s t (_ & _ & (r & Hr & _) & _) [_ Hq%map_err_ok]%run_query_ok. apply query_row_spec in Hq.
  unfold duck_view, duck_disk. unfold meta_row in *. simpl in Hq. 
  destruct (raft_meta (content (conn s))); [|done]. simpl in *. rewrite Hr in *. by injection Hq as <-.
Qed.
Next Obligation.
  intros s vf (_ & _ & (r & Hr & _) & _) [_ (row & Hq%map_err_ok & Hv)%rbind_ok]%run_query_ok.
  apply query_row_spec in Hq. unfold duck_view, duck_disk. unfold meta_row in *. simpl in Hq.
  destruct (raft_meta (content (conn s))); [|done]. simpl in *. rewrite Hr in *. injection Hq as <-.
  unfold meta_vote. simpl. by destruct (rm_voted_for_name r), (rm_voted_for_incarnation r); simplify_eq/=.
Qed.
Next Obligation.
  intros s l (_ & _ & _ & _ & Hlw) [_ (rs & Hq%map_err_ok & Hc)%rbind_ok]%run_query_ok.
  destruct (collect_all_ok _ _ _ Hc) as [l' ->].
  apply query_map_spec in Hq as (m & rows & Hm & Hp & Hs & ->).
  unfold duck_view, duck_disk in *. rewrite Hm in *. by eapply disk_load_log.
Qed.
Next Obligation.
  intros s ci (_ & _ & (r & Hr & _) & _) [_ Hq%map_err_ok]%run_query_ok. apply query_row_spec in Hq.
  unfold duck_view, duck_disk. unfold meta_row in *. simpl in Hq.
  destruct (raft_meta (content (conn s))); [|done]. simpl in *. rewrite Hr in *. by injection Hq as <-.
Qed.
Next Obligation.
  intros s l _ [_ (rs & Hq%map_err_ok & Hc)%rbind_ok]%run_query_ok.
  destruct (collect_all_ok _ _ _ Hc) as [l' ->].
  apply query_map_spec in Hq as (m & Hm & Hp). simpl in Hm.
  unfold duck_view, duck_disk. rewrite Hm. by eapply disk_load_decisions.
Qed.

(** ** Opening *)
Lemma batch_app sts1 sts2 a :
  batch_effect (sts1 ++ sts2) a = (batch_effect sts1 a ≫= batch_effect sts2).
Proof.
  revert a. induction sts1 as [|st sts1 IH]; intros a; simpl; [done|].
  destruct (stmt_effect st a); simpl; [apply IH|done].
Qed.

Lemma raft_open_effect c s :
  DuckdbRaftStorage_from_connection c = Ok s →
  poisoned s = false ∧ batch_effect (RAFT_SCHEMA ++ [RAFT_META_SEED]) (content c) = Some (content (conn s)).
Proof.
  unfold DuckdbRaftStorage_from_connection.
  destruct (execute_batch RAFT_SCHEMA c) as [c1 [[]|]] eqn:Hb; [|done]. cbn [map_err rbind].
  destruct (execute RAFT_META_SEED c1) as [c2 [[]|]] eqn:He; [|done]. cbn [map_err rbind]. intros [= <-].
  apply execute_batch_spec in Hb as (k & Hb & Hk). rewrite Hk, firstn_all in Hb by done.
  apply execute_spec in He. split; [done|].
  rewrite batch_app, Hb. cbn [mbind option_bind batch_effect]. by rewrite He.
Qed.

(** What a file may hold before it is opened: no table yet, or what an
    earlier run left. *)
Definition openable a : Prop :=
  (raft_decisions a = None ∧ raft_meta a = None ∧ raft_log a = None) ∨ schema_wf a.

Lemma raft_open_wf c s :
  openable (content c) → DuckdbRaftStorage_from_connection c = Ok s →
  duck_wf s ∧ duck_disk (content (conn s)) = duck_disk (content c) ∧ poisoned s = false.
Proof.
  intros Ho [Hp He]%raft_open_effect. simpl in He. injection He as He.
  unfold duck_wf. rewrite <- He. destruct Ho as [(Hd & Hm & Hl)|(Hd & Hl & (r & Hr & Hv) & Hw)].
  - rewrite Hd, Hm, Hl. unfold duck_disk, schema_wf, meta_row. simpl.
    rewrite Hd, Hm, Hl, lookup_partial_alter_eq. simpl. split_and!; [eauto|eauto| | |done|done].
    + exists meta_empty. split; [done|]. simpl. split; by intros [? ?].
    + split; [intros ? ?; simpl; by rewrite lookup_empty|]. exists [], []. split; [apply contiguous_nil|constructor].
  - unfold meta_row in Hr. destruct (raft_meta (content c)) as [m|] eqn:Hm; [|done].
    destruct Hd as [md Hd], Hl as [ml Hl]. simpl in Hr. simpl.
    assert (duck_disk {| paxos_decisions := paxos_decisions (content c);
      raft_decisions := Some md;
      raft_meta := Some (partial_alter (λ o, Some (default meta_empty o)) 0%N m);
      raft_log := Some ml |} = duck_disk (content c)) as Heq.
    { unfold duck_disk, meta_row. simpl. rewrite Hd, Hm, Hl, lookup_partial_alter_eq, Hr.
      simpl. by rewrite Hr. }
    rewrite Hd, Hl. simpl. split_and!; [|exact Heq|done].
    unfold schema_wf. rewrite Heq. simpl. split_and!; [eauto|eauto| |apply Hw].
    exists r. unfold meta_row. simpl. by rewrite lookup_partial_alter_eq, Hr.
Qed.

(** ** The Paxos backend *)
Definition duck_paxos_view s : gmap N V :=
  omap decode (default ∅ (paxos_decisions (content (conn s)))).

#[export] Program Instance DuckdbPaxosStorage_spec : PaxosStorageSpec (Shared Connection) V := {|
  p_view := duck_paxos_view;
  p_norm v := v;
|}.
Next Obligation. done. Qed.
Next Obligation.
  intros slot v s s'. simpl. unfold duck_save_decision.
  destruct (to_string v) as [str|] eqn:Hs; [|done]. simpl. unfold run_blocking, exec.
  destruct (poisoned s); [done|]. destruct (execute _ (conn s)) as [c' [[]|]] eqn:He; [|done].
  intros [= <-]. apply execute_spec in He. simpl in He. unfold duck_paxos_view.
  unfold upsert_decision in He. simpl in He.
  destruct (paxos_decisions (content (conn s))) as [m|]; [|done]. simpl in He. injection He as He.
  simpl. rewrite <- He. simpl. by apply omap_insert_Some, decode_to_string.
Qed.
Next Obligation.
  intros slot v s s' e. simpl. unfold duck_save_decision.
  destruct (to_string v) as [str|] eqn:Hs; [|by intros [= <- _]]. simpl. unfold run_blocking, exec.
  destruct (poisoned s); [by intros [= <- _]|].
  destruct (execute _ (conn s)) as [c' [[]|]] eqn:He; [done|]. intros [= <- _].
  apply execute_spec in He. unfold duck_paxos_view. simpl. by rewrite He.
Qed.
Next Obligation.
  intros s l [_ (rs & Hq%map_err_ok & Hc)%rbind_ok]%run_query_ok.
  destruct (collect_all_ok _ _ _ Hc) as [l' ->].
  apply query_map_spec in Hq as (m & Hm & Hp). simpl in Hm.
  unfold duck_paxos_view. rewrite Hm. by eapply disk_load_decisions.
Qed.

Lemma duck_paxos_save_disk slot v s :
  duck_disk (content (conn (duck_save_decision (V := V) InPaxosDecisions slot v s).1)) =
  duck_disk (content (conn s)).
Proof.
  unfold duck_save_decision. destruct (to_string v) as [str|]; [|done]. simpl.
  unfold run_blocking, exec. destruct (poisoned s); [done|].
  destruct (execute _ (conn s)) as [c' [[]|]] eqn:He; apply execute_spec in He; simpl;
    [|by rewrite He]. simpl in He. unfold upsert_decision in He. simpl in He.
  destruct (paxos_decisions (content (conn s))); [|done]. injection He as He. by rewrite <- He.
Qed.

Lemma duck_writes_paxos ws s :
  duck_wf s → paxos_decisions (content (conn (do_writes (V := V) ws s).1)) =
              paxos_decisions (content (conn s)).
Proof.
  revert s. induction ws as [|w ws IH]; intros s Hw; cbn [do_writes]; [done|]. unfold sbind.
  pose proof (duck_write_lawful w s Hw) as (Hp & Hw1 & _).
  destruct (do_write w s) as [s1 [[]|e]]; cbn [fst] in *; [|done]. by rewrite IH.
Qed.

(** ** Failing *)

(** A poisoned backend answers every call with an error and never changes. *)
Lemma poisoned_stays w s :
  poisoned s = true → ∃ r, do_write w s = (s, r) ∧
    match w with WAppend [] => True | _ => ∃ e, r = Err e end.
Proof.
  intros Hp. assert (∀ A (f : Connection → option (Connection * Result A StorageError)),
    run_blocking f s = (s, Err (Persist "duckdb storage mutex poisoned"))) as Hr.
  { intros A f. unfold run_blocking. by rewrite Hp. }
  destruct w as [t|vf|n|es|ci|slot v]; simpl; unfold duck_save_term, duck_save_voted_for,
    duck_truncate_log_from, duck_save_commit_index, duck_save_decision, duck_append_log; eauto.
  - destruct vf; simpl; eauto.
  - destruct (serialize_entries es) as [[|row l]|] eqn:Hs; [|destruct es; eauto..].
    exists (Ok tt). apply serialize_ok, Forall2_nil_inv_l in Hs as ->. done.
  - destruct (to_string v); simpl; eauto.
Qed.

Lemma partial_vote_refused s r :
  poisoned s = false → meta_row (content (conn s)) = Some r →
  is_some (rm_voted_for_name r) ≠ is_some (rm_voted_for_incarnation r) →
  ∃ e, duck_load_voted_for s = Err (Load e).
Proof.
  intros Hp Hr Hne. unfold duck_load_voted_for, run_query. rewrite Hp.
  destruct (query_row SelectVotedFor (conn s)) as [row|] eqn:Hq; simpl; [|eauto].
  apply query_row_spec in Hq. unfold meta_row in Hr. simpl in Hq.
  destruct (raft_meta (content (conn s))); [|done]. simpl in *. rewrite Hr in Hq. injection Hq as <-.
  destruct (rm_voted_for_name r), (rm_voted_for_incarnation r); eauto; done.
Qed.
End duckdb_props.
