(* ===== verification/Backends.v ===== *)
(** * The durable backends: refinement, equivalence, errors

    The claims about [RedbRaftStorage] and [DuckdbRaftStorage], with an
    engine for each that satisfies what is assumed of the libraries: tables
    held in memory, every call successful. *)

From S2P Require Import Prelude Types Storage Backend.
From S2P Require RedbStorage RedbProps DuckdbStorage DuckdbProps.
Import RedbStorage RedbProps DuckdbStorage DuckdbProps.

(** ** Values that are strings *)
#[local] Instance string_json : Json string := {| to_string s := Ok s; from_str s := Ok s |}.
#[local] Instance string_json_spec : JsonSpec string.
Proof. split. by intros v s [= ->]. Qed.

(** ** Rows in key order *)
Section sorted.
Context {W : Type}.

Definition key_le (p q : N * W) : Prop := (p.1 ≤ q.1)%N.
#[local] Instance key_le_dec : RelDecision key_le.
Proof. intros p q. unfold key_le. apply _. Defined.
#[local] Instance key_le_total : Total key_le.
Proof. intros p q. unfold key_le. lia. Qed.
#[local] Instance key_le_trans : Transitive key_le.
Proof. intros p q r. unfold key_le. lia. Qed.

Definition sorted_rows (m : gmap N W) : list (N * W) := merge_sort key_le (map_to_list m).

Lemma strictly_sorted (l : list (N * W)) :
  StronglySorted key_le l → NoDup l.*1 → StronglySorted N.lt l.*1.
Proof.
  induction 1 as [|p l Hs IH Hf]; simpl; [constructor|]. inversion_clear 1 as [|?? Hp Hd].
  constructor; [by apply IH|]. apply Forall_forall. intros k Hk.
  assert (k ≠ p.1) by (by intros ->). apply list_elem_of_fmap in Hk as (q & -> & Hq).
  rewrite Forall_forall in Hf. specialize (Hf q Hq). unfold key_le in Hf. lia.
Qed.

Lemma sorted_rows_spec (m : gmap N W) :
  sorted_rows m ≡ₚ map_to_list m ∧ StronglySorted N.lt (sorted_rows m).*1.
Proof.
  assert (sorted_rows m ≡ₚ map_to_list m) as Hp by apply merge_sort_Permutation. split; [done|].
  apply strictly_sorted; [apply StronglySorted_merge_sort; apply _|].
  rewrite Hp. apply NoDup_fst_map_to_list.
Qed.
End sorted.

(** ** redb in memory *)
Definition opened {K W} `{Countable K} (d : TableDefinition K W) (t : Tables) : Tables :=
  set_table d (rows d t) t.

#[local] Instance mem_redb : Redb Tables Tables Tables := {|
  begin_write t := (t, Ok t);
  open_table _ _ _ _ d t := (opened d t, Ok tt);
  RedbStorage.insert _ _ _ _ d k w t := (set_table d (<[k := w]> (rows d t)) t, Ok tt);
  remove _ _ _ _ d k t := (set_table d (delete k (rows d t)) t, Ok tt);
  RedbStorage.last _ d t := Ok (list.last (sorted_rows (rows d t)));
  extract_from_if _ d from pred t :=
    (set_table d (filter (λ '(k, w), ¬ ((from ≤ k)%N ∧ pred k w = true)) (rows d t)) t,
     Ok (Ok <$> filter (λ '(k, w), (from ≤ k)%N ∧ pred k w = true) (sorted_rows (rows d t))));
  commit x _ := (x, Ok tt);
  begin_read t := Ok t;
  read_table _ _ _ _ d t := if is_some (table d t) then Ok tt else Err "no such table"%string;
  get _ _ _ _ d k t := Ok (rows d t !! k);
  iter _ d t := Ok (Ok <$> sorted_rows (rows d t));
|}.

#[local] Program Instance mem_redb_spec : RedbSpec Tables Tables Tables := {|
  committed t := t; pending t := t; snapshot t := t |}.
Next Obligation. naive_solver. Qed.
Next Obligation. by intros K W ??? x x' [= <-]. Qed.
Next Obligation. by intros K W ????? x x' [= <-]. Qed.
Next Obligation. by intros K W ???? x x' [= <-]. Qed.
Next Obligation.
  intros W d t r [= <-]. destruct (sorted_rows_spec (rows d t)) as [Hp Hs].
  destruct (list.last (sorted_rows (rows d t))) as [[k w]|] eqn:Hl.
  - apply last_Some in Hl as [l' Hl]. rewrite Hl in Hp, Hs. split.
    + apply elem_of_map_to_list. rewrite <- Hp. set_solver.
    + intros j [w' Hj]. apply elem_of_map_to_list in Hj. rewrite <- Hp in Hj.
      apply elem_of_app in Hj as [Hj|Hj].
      * rewrite fmap_app in Hs. simpl in Hs. apply N.lt_le_incl.
        eapply StronglySorted_app_1_elem_of; [exact Hs| |set_solver].
        apply list_elem_of_fmap. by exists (j, w').
      * apply list_elem_of_singleton in Hj. simplify_eq. done.
  - apply last_None in Hl. rewrite Hl in Hp. apply Permutation_nil_l in Hp.
    by apply map_to_list_empty_iff.
Qed.
Next Obligation. by intros W d from pred x x' taken [= <- _]. Qed.
Next Obligation. by intros x db db' r [= <- <-]. Qed.
Next Obligation. by intros db x [= <-]. Qed.
Next Obligation. intros K W ?? d x. simpl. destruct (table d x); [eauto|done]. Qed.
Next Obligation. by intros K W ?? d k x r [= <-]. Qed.
Next Obligation.
  intros W d x l [= Hl]. apply (inj (fmap Ok)) in Hl as <-. apply sorted_rows_spec.
Qed.

(** ** DuckDB in memory *)
Definition stmt_run (st : Statement) (c : Schema) : Schema * Result unit string :=
  match stmt_effect st c with Some c' => (c', Ok tt) | None => (c, Err "sql error"%string) end.

(** A batch stops at the first statement that fails. *)
Fixpoint batch_run (sts : list Statement) (c : Schema) : Schema * Result unit string :=
  match sts with
  | [] => (c, Ok tt)
  | st :: sts =>
      match stmt_effect st c with
      | Some c' => batch_run sts c'
      | None => (c, Err "sql error"%string)
      end
  end.

Definition row_run {A} (q : RowQuery A) (c : Schema) : Result A string :=
  match row_result q c with Some a => Ok a | None => Err "no row"%string end.

Definition rows_run {A} (q : RowsQuery A) : Schema → Result (list (Result A string)) string :=
  match q with
  | SelectDecisions t => λ c,
      match decisions_of t c with
      | Some m => Ok (Ok <$> sorted_rows m)
      | None => Err "no such table"%string
      end
  | SelectLog => λ c,
      match raft_log c with
      | Some m => Ok (Ok <$> (sorted_rows m).*2)
      | None => Err "no such table"%string
      end
  end.

#[local] Instance mem_duckdb : Duckdb Schema Schema := {|
  execute := stmt_run;
  execute_batch := batch_run;
  query_row _ := row_run;
  query_map _ := rows_run;
  transaction c := (c, Ok c);
  tx_execute := stmt_run;
  tx_query_row _ := row_run;
  tx_commit x _ := (x, Ok tt);
|}.

Lemma row_run_ok {A} (q : RowQuery A) c a : row_run q c = Ok a → row_result q c = Some a.
Proof. unfold row_run. destruct (row_result q c); naive_solver. Qed.

#[local] Program Instance mem_duckdb_spec : DuckdbSpec Schema Schema := {|
  content c := c; tx_content c := c |}.
Next Obligation.
  intros st c c' r. simpl. unfold stmt_run. by destruct (stmt_effect st c) eqn:E; intros [= <- <-].
Qed.
Next Obligation.
  intros sts c. simpl. revert c. induction sts as [|st sts IH]; intros c c' r; simpl.
  { intros [= <- <-]. by exists 0. }
  destruct (stmt_effect st c) as [c1|] eqn:He.
  - intros (k & Hk & Hr)%IH. exists (S k). split; [simpl; by rewrite He|]. intros. f_equal. by apply Hr.
  - intros [= <- <-]. by exists 0.
Qed.
Next Obligation. intros A q c a. apply row_run_ok. Qed.
Next Obligation.
  intros A q c l. simpl. destruct q as [t|]; simpl.
  - destruct (decisions_of t c) as [m|]; [|done]. intros [= Hl]. apply (inj (fmap Ok)) in Hl as <-.
    exists m. split; [done|]. apply sorted_rows_spec.
  - destruct (raft_log c) as [m|]; [|done]. intros [= Hl]. apply (inj (fmap Ok)) in Hl as <-.
    exists m, (sorted_rows m). split; [done|]. destruct (sorted_rows_spec m). done.
Qed.
Next Obligation. naive_solver. Qed.
Next Obligation.
  intros st x x'. simpl. unfold stmt_run. destruct (stmt_effect st x) eqn:E; [|done]. by intros [= <-].
Qed.
Next Obligation. intros A q x a. apply row_run_ok. Qed.
Next Obligation. by intros x c c' r [= <- <-]. Qed.

(** ** The claims *)
Lemma mem_do_writes {V} (ws : list (Write V)) (d : RaftMemoryStorage V) :
  do_writes ws d = (spec_writes (λ v, v) ws d, Ok tt).
Proof.
  revert d. induction ws as [|w ws IH]; intros d; [done|]. cbn [do_writes]. unfold sbind.
  assert (do_write w d = (spec_write (λ v, v) w d, Ok tt)) as ->; [|apply IH].
  destruct w; simpl; rewrite ?map_entry_id, ?mem_truncate_eq; done.
Qed.

Section claims.
Context {V : Type} `{JsonSpec V}.
Context {Database WriteTransaction ReadTransaction : Type}.
Context `{RedbSpec Database WriteTransaction ReadTransaction}.
Context {Connection Transaction : Type} `{DuckdbSpec Connection Transaction}.

Definition redb_view (db : Database) : RaftMemoryStorage V := disk_view (disk_of (committed db)).

(** C14. The redb backend refines the abstract durable state: from a
    well-formed database any run of storage calls, wherever it stops on an
    error of the library, of the serialiser or on a panic, leaves a well-formed
    database whose loads return the abstract state after a prefix of the
    calls, after all of them when all report success; and the table of Paxos
    decisions in the same file is untouched. *)
Theorem redb_refines_durable (ws : list (Write V)) (db db' : Database) r :
  redb_wf (V := V) db → do_writes ws db = (db', r) →
  redb_wf (V := V) db' ∧
  (∃ k, k ≤ length ws ∧ (r = Ok tt → k = length ws) ∧
    loads_are db' (spec_writes (λ v, v) (take k ws) (redb_view db))) ∧
  rows PAXOS_DECISIONS (committed db') = rows PAXOS_DECISIONS (committed db).
Proof.
  intros Hw Hr. pose proof (redb_writes_paxos ws db Hw) as Hp. rewrite Hr in Hp.
  apply (on_writes (wf := redb_wf)) in Hr as (Hw' & k & Hk & Hok & Hv); [|done].
  split_and!; [done| |done]. exists k. split_and!; [done..|].
  change (redb_view db) with (view_on (RaftStorageSpecOn := RedbRaftStorage_on) db).
  rewrite <- Hv. by apply on_loads.
Qed.

(** C15. The DuckDB backend refines the abstract durable state in the same
    sense: from an opened, well-formed connection any run of storage calls
    leaves one whose loads return the abstract state after a prefix of them,
    and the Paxos table of the same file is untouched. *)
Theorem duckdb_refines_durable (ws : list (Write V)) (s s' : Shared Connection) r :
  duck_wf (V := V) s → do_writes ws s = (s', r) →
  duck_wf (V := V) s' ∧
  (∃ k, k ≤ length ws ∧ (r = Ok tt → k = length ws) ∧
    loads_are s' (spec_writes (λ v, v) (take k ws) (duck_view s))) ∧
  paxos_decisions (content (conn s')) = paxos_decisions (content (conn s)).
Proof.
  intros Hw Hr. pose proof (duck_writes_paxos ws s Hw) as Hp. rewrite Hr in Hp.
  apply (on_writes (wf := duck_wf)) in Hr as (Hw' & k & Hk & Hok & Hv); [|done].
  split_and!; [done| |done]. exists k. split_and!; [done..|].
  change (duck_view s) with (view_on (RaftStorageSpecOn := DuckdbRaftStorage_on) s).
  rewrite <- Hv. by apply on_loads.
Qed.

(** C23. The three backends are interchangeable: the same calls, all
    successful, made on a redb database, a DuckDB connection and the
    in-memory storage that start from the same state end in states whose
    loads return the same term, vote, log, commit index and decisions, those
    of the in-memory storage. *)
Theorem backends_equivalent (ws : list (Write V)) (db db' : Database) (s s' : Shared Connection)
    (d d' : RaftMemoryStorage V) :
  redb_wf (V := V) db → duck_wf (V := V) s → redb_view db = d → duck_view s = d →
  do_writes ws db = (db', Ok tt) → do_writes ws s = (s', Ok tt) → do_writes ws d = (d', Ok tt) →
  loads_are db' d' ∧ loads_are s' d' ∧ loads_are d' d'.
Proof.
  intros Hw1 Hw2 Hd1 Hd2 Hr1 Hr2 Hr3.
  apply (on_writes_ok (wf := redb_wf)) in Hr1 as [Hw1' Hv1]; [|done].
  apply (on_writes_ok (wf := duck_wf)) in Hr2 as [Hw2' Hv2]; [|done].
  rewrite mem_do_writes in Hr3. injection Hr3 as <-.
  change (view_on (RaftStorageSpecOn := RedbRaftStorage_on) db) with (redb_view db) in Hv1.
  change (view_on (RaftStorageSpecOn := DuckdbRaftStorage_on) s) with (duck_view s) in Hv2.
  rewrite Hd1 in Hv1. rewrite Hd2 in Hv2. split_and!.
  - rewrite <- Hv1. by apply on_loads.
  - rewrite <- Hv2. by apply on_loads.
  - split_and!; by intros ? [= <-].
Qed.

(** Opening keeps what is stored: opening a redb database that holds no
    Raft table or what an earlier run left creates the missing tables and
    keeps the state; opening a DuckDB file does, and its seed row exists
    afterwards, which the updates of term, vote and commit index need. *)
Theorem opening_keeps_state (db db' : Database) (c : Connection) (s : Shared Connection) :
  RedbRaftStorage_from_database db = Some (db', Ok tt) →
  openable (V := V) (content c) → DuckdbRaftStorage_from_connection c = Ok s →
  (raft_tables_exist (committed db') ∧ disk_of (committed db') = disk_of (committed db)) ∧
  (duck_wf (V := V) s ∧ is_Some (meta_row (content (conn s))) ∧ poisoned s = false ∧
   duck_disk (content (conn s)) = duck_disk (content c)).
Proof.
  intros Hr Ho Hc. split.
  - apply (write_txn_spec (λ _, True) _ create_effect) in Hr; [|apply create_does|done].
    unfold atomic in Hr. simpl fst in Hr. simpl snd in Hr. rewrite Hr.
    destruct (create_disk (committed db)) as (? & ? & _). done.
  - destruct (raft_open_wf c s Ho Hc) as (Hw & Hd & Hp). split_and!; [done| |done|done].
    destruct Hw as (_ & _ & (r & Hr' & _) & _). by eexists.
Qed.

(** The DuckDB backend stops rather than forget: a vote of which only the
    name or only the incarnation is stored is refused by [load_voted_for],
    and after a panic inside a call (a poisoned mutex) every later write
    changes nothing, and fails unless it appends no entry. *)
Theorem duckdb_fails_stop (s : Shared Connection) (r : RaftMeta) (w : Write V) :
  (poisoned s = false → meta_row (content (conn s)) = Some r →
   is_some (rm_voted_for_name r) ≠ is_some (rm_voted_for_incarnation r) →
   ∃ e, load_voted_for (V := V) s = Err (Load e)) ∧
  (poisoned s = true → ∃ res, do_write w s = (s, res) ∧
     match w with WAppend [] => True | _ => ∃ e, res = Err e end).
Proof. split; [apply partial_vote_refused|apply poisoned_stays]. Qed.
End claims.

(** ** Witnesses *)
Definition no_tables : Tables := mkTables None None None None None None.
Definition no_schema : Schema := mkSchema None None None None.

Definition sample_writes : list (Write string) :=
  [WTerm 3; WVote (Some (mkNodeId "a" 1)); WAppend [mkEntry 1 "x"; mkEntry 2 "y"; mkEntry 3 "z"];
   WTruncate 2; WAppend [mkEntry 3 "w"]; WCommit (Some 0%N); WDecision 0 "x"].

(** The file after opening, and after the sample calls. *)
Definition opened_redb : Tables :=
  match RedbRaftStorage_from_database no_tables with Some (t, _) => t | None => no_tables end.
Definition opened_duckdb : Shared Schema :=
  match DuckdbRaftStorage_from_connection no_schema with
  | Ok s => s
  | Err _ => mkShared no_schema false
  end.

Lemma opened_redb_wf : redb_wf (V := string) opened_redb.
Proof. apply (disk_of_empty_wf (V := string) no_tables); done. Qed.

Lemma opened_duckdb_wf : duck_wf (V := string) opened_duckdb.
Proof.
  apply (raft_open_wf (V := string) no_schema opened_duckdb); [by left|done].
Qed.

Lemma run_ok {A B} (p : A * B) b : p.2 = b → p = (p.1, b).
Proof. destruct p. by intros <-. Qed.

Lemma redb_sample_ok : (do_writes sample_writes opened_redb).2 = Ok tt.
Proof. vm_compute. reflexivity. Qed.
Lemma duckdb_sample_ok : (do_writes sample_writes opened_duckdb).2 = Ok tt.
Proof. vm_compute. reflexivity. Qed.

Lemma redb_refines_durable_witness :
  redb_wf (V := string) opened_redb ∧
  let db' := (do_writes sample_writes opened_redb).1 in
  do_writes sample_writes opened_redb = (db', Ok tt) ∧
  load_log db' = Ok [mkEntry 1 "x"; mkEntry 2 "y"; mkEntry 3 "w"] ∧ redb_wf (V := string) db'.
Proof.
  split; [apply opened_redb_wf|]. split; [apply run_ok, redb_sample_ok|].
  split; [vm_compute; reflexivity|].
  apply (redb_refines_durable sample_writes opened_redb _ (Ok tt));
    [apply opened_redb_wf|apply run_ok, redb_sample_ok].
Defined.

Lemma duckdb_refines_durable_witness :
  duck_wf (V := string) opened_duckdb ∧
  let s' := (do_writes sample_writes opened_duckdb).1 in
  do_writes sample_writes opened_duckdb = (s', Ok tt) ∧
  load_log s' = Ok [mkEntry 1 "x"; mkEntry 2 "y"; mkEntry 3 "w"] ∧ duck_wf (V := string) s'.
Proof.
  split; [apply opened_duckdb_wf|]. split; [apply run_ok, duckdb_sample_ok|].
  split; [vm_compute; reflexivity|].
  apply (duckdb_refines_durable sample_writes opened_duckdb _ (Ok tt));
    [apply opened_duckdb_wf|apply run_ok, duckdb_sample_ok].
Defined.

Lemma backends_equivalent_witness :
  let db' := (do_writes sample_writes opened_redb).1 in
  let s' := (do_writes sample_writes opened_duckdb).1 in
  let d' := (do_writes sample_writes RaftMemoryStorage_new).1 in
  loads_are db' d' ∧ loads_are s' d' ∧ loads_are d' d'.
Proof.
  apply (backends_equivalent sample_writes opened_redb _ opened_duckdb _ RaftMemoryStorage_new);
    [apply opened_redb_wf|apply opened_duckdb_wf|vm_compute; reflexivity|vm_compute; reflexivity
    |apply run_ok, redb_sample_ok|apply run_ok, duckdb_sample_ok|apply run_ok; reflexivity].
Defined.

Lemma opening_keeps_state_witness :
  RedbRaftStorage_from_database no_tables = Some (opened_redb, Ok tt) ∧
  duck_wf (V := string) opened_duckdb ∧ is_Some (meta_row (content (conn opened_duckdb))).
Proof.
  split; [reflexivity|].
  destruct (opening_keeps_state (V := string) no_tables opened_redb no_schema opened_duckdb)
    as (_ & ? & ? & _); [reflexivity|by left|reflexivity|]. done.
Defined.

Definition half_vote : Shared Schema :=
  mkShared (mkSchema None (Some ∅) (Some {[ 0%N := mkMeta 4 (Some "a"%string) None None ]})
                     (Some ∅)) false.

Lemma duckdb_fails_stop_witness :
  (∃ e, load_voted_for (V := string) half_vote = Err (Load e)) ∧
  (∃ res, do_write (WTerm (V := string) 5) (mkShared no_schema true) = (mkShared no_schema true, res)
          ∧ ∃ e, res = Err e).
Proof.
  split.
  - apply (duckdb_fails_stop half_vote (mkMeta 4 (Some "a"%string) None None) (WTerm 5)); done.
  - apply (duckdb_fails_stop (mkShared no_schema true) meta_empty (WTerm (V := string) 5)); done.
Defined.

(** Without the seed row an update reports success and stores nothing. *)
Lemma unseeded_update_is_lost :
  let s := mkShared (mkSchema None (Some ∅) (Some ∅) (Some ∅)) false in
  do_write (WTerm (V := string) 5) s = (s, Ok tt).
Proof. vm_compute. reflexivity. Qed.
