(* ===== verification/RedbTests.v ===== *)
(** * The unit tests of the redb backend

    The tests of [redb_storage.rs] under the names they have there, on the
    in-memory engine of [Backends]: a row that is not JSON is written behind
    the storage's back and the load is an error. That the text the tests write
    is no JSON is what they assume of [serde_json]. Below, the same for any
    engine, any table content and any value type. *)

From stdpp Require Import strings.
From S2P Require Import Prelude Types Storage Backend RedbStorage RedbProps Backends Testing.

#[local] Existing Instance mem_redb.
Open Scope test_scope.

Definition malformed : string := "{not valid json".

Section tests.
Context `{Json string}.

Definition is_load_err {A} (r : Result A StorageError) : bool :=
  match r with Err (Load _) => true | _ => false end.
Definition assert_load_err {A} (load : Tables → Result A StorageError) : Test Tables unit :=
  expect (λ db, is_load_err (load db)).

(** [open_in_memory().unwrap()]. *)
Definition opened_by (from_database : Tables → option (Tables * Result unit StorageError)) : option Tables :=
  match from_database no_tables with Some (db, Ok _) => Some db | _ => None end.

(** The block that writes a row in a transaction of its own. *)
Definition write_row {W} (d : TableDefinition N W) (k : N) (w : W) : Test Tables unit := λ db,
  match write_txn (tx_bind (call (open_table d)) (λ _, call (RedbStorage.insert d k w))) db with
  | Some (db, Ok _) => Some (db, tt)
  | _ => None
  end.

Definition paxos_load_decisions_returns_err_on_malformed_json : bool :=
  passes (opened_by RedbPaxosStorage_from_database) (
    write_row PAXOS_DECISIONS 0 malformed;; assert_load_err (p_load_decisions (V := string))).

Definition raft_load_decisions_returns_err_on_malformed_json : bool :=
  passes (opened_by RedbRaftStorage_from_database) (
    write_row RAFT_DECISIONS 0 malformed;; assert_load_err (load_decisions (V := string))).

Definition raft_load_log_returns_err_on_malformed_json : bool :=
  passes (opened_by RedbRaftStorage_from_database) (
    write_row RAFT_LOG 0 (1%N, malformed);; assert_load_err (load_log (V := string))).
End tests.

(** The tests of the redb backend pass for any decoder that refuses the text
    they write. *)
Theorem redb_unit_tests_pass (J : Json string) e :
  from_str malformed = Err e →
  paxos_load_decisions_returns_err_on_malformed_json &&
  raft_load_decisions_returns_err_on_malformed_json &&
  raft_load_log_returns_err_on_malformed_json = true.
Proof. destruct J as [ts fs]. simpl. unfold malformed. intros He. vm_compute in He |- *. by rewrite He. Qed.

(** ** Any engine *)
Section engine.
Context {V : Type} `{Json V} {Database WriteTransaction ReadTransaction : Type}.
Context `{RedbSpec Database WriteTransaction ReadTransaction}.

Lemma read_iter_refuses {W B} (d : TableDefinition N W) (decode : N * W → Result B StorageError)
    (db : Database) k w e :
  rows d (committed db) !! k = Some w → decode (k, w) = Err (Load e) →
  (∀ kw e', decode kw = Err e' → ∃ s, e' = Load s) →
  ∃ e', read_txn d (λ x, l ←? map_err load (iter d x); collect_rows decode l) db = Err (Load e').
Proof.
  intros Hk Hd Hl. unfold read_txn.
  destruct (begin_read db) as [x|] eqn:Hx; simpl; [|by eexists].
  destruct (read_table d x) as [|]; simpl; [|by eexists].
  destruct (iter d x) as [l|] eqn:Hi; simpl; [|by eexists].
  apply collect_rows_refuses; [done|].
  intros l' ->. apply iter_spec in Hi as [Hp _]. apply begin_read_spec in Hx.
  exists (k, w). split; [|by eexists]. rewrite Hp, Hx. by apply elem_of_map_to_list.
Qed.

(** A row that cannot be decoded is never passed over: with such a row in a
    table of decisions or in the log, loading it is an error, whatever else
    the database does. *)
Theorem redb_malformed_refused (db : Database) k t s e :
  from_str (V := V) s = Err e →
  (rows PAXOS_DECISIONS (committed db) !! k = Some s → ∃ e', p_load_decisions (V := V) db = Err (Load e')) ∧
  (rows RAFT_DECISIONS (committed db) !! k = Some s → ∃ e', load_decisions (V := V) db = Err (Load e')) ∧
  (rows RAFT_LOG (committed db) !! k = Some (t, s) → ∃ e', load_log (V := V) db = Err (Load e')).
Proof.
  intros He. split_and!; intros Hk.
  - apply (read_iter_refuses _ _ _ _ _ e Hk); [by apply decode_decision_err|apply decode_decision_load].
  - apply (read_iter_refuses _ _ _ _ _ e Hk); [by apply decode_decision_err|apply decode_decision_load].
  - apply (read_iter_refuses _ _ _ _ _ e Hk); [by apply decode_entry_err|intros ?; apply decode_entry_load].
Qed.
End engine.
