(* ===== verification/DuckdbTests.v ===== *)
(** * The unit tests of the DuckDB backend

    The tests of [duckdb_storage.rs] under the names they have there, on the
    in-memory engine of [Backends], and below what they test of any engine.
    The rows are written by statements of the test's own; its plain [INSERT]
    into an empty table is the upsert. *)

From stdpp Require Import strings.
From S2P Require Import Prelude Types Storage Backend DuckdbStorage DuckdbProps Backends Testing.

#[local] Existing Instance mem_duckdb.
Open Scope test_scope.

Definition malformed : string := "{not valid json".

Section tests.
Context `{Json string}.

Abbreviation St := (Shared Schema).

Definition is_load_err {A} (r : Result A StorageError) : bool :=
  match r with Err (Load _) => true | _ => false end.
Definition assert_load_err {A} (load : St → Result A StorageError) : Test St unit :=
  expect (λ s, is_load_err (load s)).

(** [open_in_memory().unwrap()]. *)
Definition opened_by (from_connection : Schema → Result St StorageError) : option St :=
  match from_connection no_schema with Ok s => Some s | Err _ => None end.

(** [storage.conn.lock().unwrap()], [conn.execute(..).unwrap()]. *)
Definition run_statement (st : Statement) : Test St unit := λ s,
  if poisoned s then None else
  match execute st (conn s) with
  | (c, Ok _) => Some (mkShared c false, tt)
  | (_, Err _) => None
  end.

Definition paxos_load_decisions_returns_err_on_malformed_json : bool :=
  passes (opened_by DuckdbPaxosStorage_from_connection) (
    run_statement (UpsertDecision InPaxosDecisions 0 malformed);;
    assert_load_err (p_load_decisions (V := string))).

Definition raft_load_decisions_returns_err_on_malformed_json : bool :=
  passes (opened_by DuckdbRaftStorage_from_connection) (
    run_statement (UpsertDecision InRaftDecisions 0 malformed);;
    assert_load_err (load_decisions (V := string))).

Definition raft_load_log_returns_err_on_malformed_json : bool :=
  passes (opened_by DuckdbRaftStorage_from_connection) (
    run_statement (InsertLog 0 1 malformed);; assert_load_err (load_log (V := string))).

Definition raft_load_voted_for_returns_err_on_partial_state : bool :=
  passes (opened_by DuckdbRaftStorage_from_connection) (
    run_statement (UpdateVotedFor (Some "a") None);;
    assert_load_err (load_voted_for (V := string))) &&
  passes (opened_by DuckdbRaftStorage_from_connection) (
    run_statement (UpdateVotedFor None (Some 5%N));;
    assert_load_err (load_voted_for (V := string))).
End tests.

(** The tests of the DuckDB backend pass for any decoder that refuses the text
    they write. *)
Theorem duckdb_unit_tests_pass (J : Json string) e :
  from_str malformed = Err e →
  paxos_load_decisions_returns_err_on_malformed_json &&
  raft_load_decisions_returns_err_on_malformed_json &&
  raft_load_log_returns_err_on_malformed_json &&
  raft_load_voted_for_returns_err_on_partial_state = true.
Proof. destruct J as [ts fs]. simpl. unfold malformed. intros He. vm_compute in He |- *. by rewrite He. Qed.

(** ** Any engine *)
Section engine.
Context {V : Type} `{Json V} {Connection Transaction : Type} `{DuckdbSpec Connection Transaction}.

Lemma query_refuses {A B} (q : RowsQuery A) (decode : A → Result B StorageError)
    (s : Shared Connection) :
  poisoned s = false →
  (∀ l, rows_result q (content (conn s)) l → ∃ a, a ∈ l ∧ ∃ e, decode a = Err e) →
  (∀ a e, decode a = Err e → ∃ t, e = Load t) →
  ∃ e, run_query (λ c, l ←? map_err load (query_map q c); collect_rows decode l) s = Err (Load e).
Proof.
  intros Hp Hr Hl. unfold run_query. rewrite Hp.
  destruct (query_map q (conn s)) as [l|] eqn:Hq; simpl; [|by eexists].
  apply collect_rows_refuses; [done|]. intros l' ->. by eapply Hr, query_map_spec.
Qed.

(** A row that cannot be decoded is never passed over: with such a row in a
    table of decisions or in the log, loading it is an error, whatever else
    the engine does. *)
Theorem duckdb_malformed_refused (s : Shared Connection) m l k t txt e :
  poisoned s = false → from_str (V := V) txt = Err e → m !! k = Some txt → l !! k = Some (t, txt) →
  (paxos_decisions (content (conn s)) = Some m → ∃ e', p_load_decisions (V := V) s = Err (Load e')) ∧
  (raft_decisions (content (conn s)) = Some m → ∃ e', load_decisions (V := V) s = Err (Load e')) ∧
  (raft_log (content (conn s)) = Some l → ∃ e', load_log (V := V) s = Err (Load e')).
Proof.
  intros Hp He Hm Hl. assert (∀ (q : DecisionTable), decisions_of q (content (conn s)) = Some m →
    ∃ e', duck_load_decisions (V := V) q s = Err (Load e')) as Hdec.
  { intros q Hq. apply query_refuses; [done| |apply decode_decision_load].
    intros rows (m' & Hm' & Hrows). simplify_eq. exists (k, txt). split.
    - rewrite Hrows. by apply elem_of_map_to_list.
    - eexists. by apply decode_decision_err. }
  split_and!; intros Ht; [by apply (Hdec InPaxosDecisions)|by apply (Hdec InRaftDecisions)|].
  apply query_refuses; [done| |apply decode_entry_load].
  intros rows (l' & ks & Hl' & Hks & _ & ->). simplify_eq. exists (t, txt). split.
  - apply list_elem_of_fmap. exists (k, (t, txt)). split; [done|]. rewrite Hks. by apply elem_of_map_to_list.
  - eexists. by apply decode_entry_err.
Qed.
End engine.
