(* ===== verification/Wire.v ===== *)
(** * Messages on the wire

    [Message::to_bytes] and [from_bytes] of [message/mod.rs] and the hand-written
    serde implementation of [NodeId] in [config.rs]. [serde_json] and the code
    [derive] generates are a parameter: the class [Serde], of which is assumed
    that what was written is read back. The unit tests of the [message]
    modules, of which only that is needed, are at the end. *)

From stdpp Require Import strings.
From S2P Require Import Prelude Types Backend Testing.

Open Scope storage_scope.

(** [serde_json::to_vec] and [from_slice], or [to_string] and [from_str], at a
    type; [B] is the bytes. *)
Class Serde (B A : Type) := {
  to_vec : A → Result B string;
  from_slice : B → Result A string;
}.
Class SerdeSpec (B A : Type) `{Serde B A} := {
  serde_round a b : to_vec a = Ok b → from_slice b = Ok a;
}.

(** ** [NodeId] *)
Record NodeIdHelper := mkNodeIdHelper { h_name : string; h_incarnation : N }.

Section node_id.
Context {B : Type} `{Serde B NodeIdHelper}.

Definition NodeId_serialize (id : NodeId) : Result B string :=
  to_vec (mkNodeIdHelper (name id) (incarnation id)).
Definition NodeId_deserialize (data : B) : Result NodeId string :=
  helper ←? from_slice (A := NodeIdHelper) data;
  Ok (mkNodeId (h_name helper) (h_incarnation helper)).

#[export] Instance NodeId_serde : Serde B NodeId :=
  {| to_vec := NodeId_serialize; from_slice := NodeId_deserialize |}.

(** An identity survives the wire when its helper does. *)
#[export] Instance NodeId_serde_spec `{!SerdeSpec B NodeIdHelper} : SerdeSpec B NodeId.
Proof.
  split. intros [nm inc] b. simpl. unfold NodeId_serialize, NodeId_deserialize. simpl.
  by intros ->%serde_round.
Qed.
End node_id.

(** ** [Message] *)
Section message.
Context {V B : Type} `{Serde B (Message V)}.

Definition to_bytes (m : Message V) : Result B string := json ←? to_vec m; Ok json.
Definition from_bytes (data : B) : Result (Message V) string := from_slice data.

(** What the event loop makes of an error of either: the message is dropped. *)
Definition ok {A E} (r : Result A E) : option A := match r with Ok a => Some a | Err _ => None end.
Definition node_encode (m : Message V) : option B := ok (to_bytes m).
Definition node_decode (data : B) : option (Message V) := ok (from_bytes data).

(** What the theorems on running nodes assume of the two functions. *)
Lemma node_serde `{!SerdeSpec B (Message V)} m data :
  node_encode m = Some data → node_decode data = Some m.
Proof.
  unfold node_encode, node_decode, to_bytes, from_bytes.
  destruct (to_vec m) as [b|] eqn:Hb; simpl; [|done]. intros [= ->].
  by rewrite (serde_round _ _ Hb).
Qed.
End message.

(** ** The unit tests *)
Module MessageTests.
Open Scope test_scope.

Definition test_node_id : NodeId := mkNodeId "node-1" 1000.

(** Writing never fails at the types of the tests. *)
Class SerdeTotal (B A : Type) `{Serde B A} := {
  serde_total a : ∃ b, to_vec a = Ok b ∧ from_slice b = Ok a;
}.

Section tests.
Context {B : Type} `{Serde B (Message string), Serde B (WireVariant string)}.
Context `{Serde B (PaxosMessage string), Serde B (PaxosMessage N)} `{Serde B NodeIdHelper}.

(** [to_string], [unwrap], [from_str], [unwrap], and a condition on what comes
    back. *)
Definition there_and_back {A} `{Serde B A} (a : A) (check : A → bool) : bool :=
  match to_vec a with
  | Ok b => match from_slice b with Ok a => check a | Err _ => false end
  | Err _ => false
  end.
Definition message_there_and_back (m : Message string) (check : Message string → bool) : bool :=
  match to_bytes m with
  | Ok b => match from_bytes b with Ok m => check m | Err _ => false end
  | Err _ => false
  end.

Definition message_to_bytes_and_back : bool :=
  message_there_and_back (mkMessage test_node_id (WPaxos (Accept 3 (1%N, test_node_id) "test")))
    (λ m, match variant m with
          | WPaxos (Accept slot _ value) => (slot =? 3)%N && bool_decide (value = "test")
          | _ => false
          end).

Definition message_wrapper_roundtrip : bool :=
  message_there_and_back (mkMessage test_node_id (WPaxos (Prepare 7 (2%N, test_node_id))))
    (λ m, bool_decide (sender m = test_node_id) &&
          match variant m with WPaxos (Prepare slot _) => (slot =? 7)%N | _ => false end).

Definition raft_request_vote_serde_roundtrip : bool :=
  there_and_back (WRaft (RequestVote 5 test_node_id None 0) : WireVariant string)
    (λ v, match v with WRaft (RequestVote t _ _ _) => (t =? 5)%N | _ => false end).

Definition raft_append_entries_serde_roundtrip : bool :=
  there_and_back (WRaft (AppendEntries 7 test_node_id (Some 2%N) 6 [mkEntry 7 "x"] (Some 2%N)))
    (λ v, match v with
          | WRaft (AppendEntries t _ _ _ entries _) =>
              (t =? 7)%N && (length entries =? 1) && bool_decide (value <$> entries !! 0 = Some "x")
          | _ => false
          end).

Definition raft_log_entry_eq : bool :=
  let a := mkEntry 1 "x" in let b := mkEntry 1 "x" in let c := mkEntry 2 "x" in
  bool_decide (a = b) && negb (bool_decide (a = c)).

Definition proposal_number_ordering : bool :=
  let n2 := mkNodeId "node-2" 1000 in
  pn_ltb (1%N, test_node_id) (2%N, test_node_id) && pn_ltb (1%N, test_node_id) (1%N, n2).

Definition prepare_message_serde_roundtrip : bool :=
  there_and_back (Prepare 0 (1%N, test_node_id) : PaxosMessage string)
    (λ m, match m with Prepare slot _ => (slot =? 0)%N | _ => false end).

Definition promise_with_accepted_value_serde_roundtrip : bool :=
  there_and_back (Promise 0 (1%N, test_node_id) (Some ((0%N, test_node_id), "hello")))
    (λ m, match m with Promise _ _ (Some (_, val)) => bool_decide (val = "hello") | _ => false end).

Definition decide_message_serde_roundtrip : bool :=
  there_and_back (Decide 5 42%N)
    (λ m, match m with Decide slot value => (slot =? 5)%N && (value =? 42)%N | _ => false end).

Definition nack_prepare_serde_roundtrip : bool :=
  there_and_back (NackPrepare 0 (1%N, test_node_id) (2%N, test_node_id) : PaxosMessage string)
    (λ m, match m with NackPrepare _ _ _ => true | _ => false end).

Definition nack_accept_serde_roundtrip : bool :=
  there_and_back (NackAccept 0 (1%N, test_node_id) (2%N, test_node_id) : PaxosMessage string)
    (λ m, match m with NackAccept _ _ _ => true | _ => false end).

Definition node_id_serde_roundtrip : bool :=
  let id := mkNodeId "node-1" 1710412800 in
  there_and_back id (λ deserialized, bool_decide (id = deserialized)).

Definition message_unit_tests : list bool :=
  [message_to_bytes_and_back; message_wrapper_roundtrip; raft_request_vote_serde_roundtrip;
   raft_append_entries_serde_roundtrip; raft_log_entry_eq; proposal_number_ordering;
   prepare_message_serde_roundtrip; promise_with_accepted_value_serde_roundtrip;
   decide_message_serde_roundtrip; nack_prepare_serde_roundtrip; nack_accept_serde_roundtrip;
   node_id_serde_roundtrip].
End tests.

Lemma there_and_back_total {B A} `{SerdeTotal B A} (a : A) check : there_and_back a check = check a.
Proof. unfold there_and_back. destruct (serde_total a) as (b & -> & ->). done. Qed.
Lemma message_there_and_back_total {B} `{SerdeTotal B (Message string)} m check :
  message_there_and_back m check = check m.
Proof.
  unfold message_there_and_back, to_bytes, from_bytes.
  destruct (serde_total m) as (b & -> & Hb). simpl. by rewrite Hb.
Qed.
#[export] Instance NodeId_serde_total {B} `{SerdeTotal B NodeIdHelper} : SerdeTotal B NodeId.
Proof.
  split. intros [nm inc]. destruct (serde_total (mkNodeIdHelper nm inc)) as (b & Hb & Hr).
  exists b. split; [exact Hb|]. simpl. unfold NodeId_deserialize. by rewrite Hr.
Qed.
End MessageTests.

Import MessageTests.

(** The tests of the messages and of the serde form of an identity pass for
    any serialiser that reads back what it writes. *)
Theorem message_unit_tests_pass {B}
    `{SerdeTotal B (Message string), SerdeTotal B (WireVariant string),
      SerdeTotal B (PaxosMessage string), SerdeTotal B (PaxosMessage N),
      SerdeTotal B NodeIdHelper} :
  forallb id (message_unit_tests (B := B)) = true.
Proof.
  unfold message_unit_tests. cbn [forallb]. unfold id.
  rewrite !andb_true_iff. split_and!; try reflexivity.
  all: etransitivity; [first [apply there_and_back_total|apply message_there_and_back_total]|done].
Qed.
