(* ===== verification/Service.v ===== *)
(** * The gRPC service of the demo

    Models [daccord-demo/src/service.rs]: the in-memory log of decisions and
    its broadcast channel, the stream behind [Watch], the paging of
    [GetDecisions], the replies to [Propose] and [Status], and the task that
    feeds the log. Payloads are of an arbitrary type. *)

From S2P Require Import Prelude Types Node.

(** [consensus_proto::Decision]. *)
Record WireDecision (P : Type) := mkWire { slot : N; payload : P }.
Arguments mkWire {P}. Arguments slot {P}. Arguments payload {P}.

#[export] Instance WireDecision_eq_dec `{EqDecision P} : EqDecision (WireDecision P).
Proof. solve_decision. Defined.

Definition DEFAULT_GET_LIMIT : N := 1000.
Definition DECISION_BROADCAST_CAPACITY : nat := 4096.

(** The gRPC codes the two sides use. *)
Inductive Code :=
| ResourceExhausted | Unavailable | Aborted | DeadlineExceeded | InvalidArgument | OtherCode.
#[export] Instance Code_eq_dec : EqDecision Code.
Proof. solve_decision. Defined.

Record Status := mkStatus { code : Code; status_message : string }.

Section service.
Context {P : Type}.
Abbreviation Dec := (WireDecision P).

(** ** The log *)

(** [binary_search_by_key] on a vector sorted by slot: the position of the
    slot, or the one at which it is to be inserted. *)
Fixpoint binary_search (s : N) (entries : list Dec) : nat + nat :=
  match entries with
  | [] => inr 0
  | d :: entries =>
      if (slot d <? s)%N then
        match binary_search s entries with inl pos => inl (S pos) | inr pos => inr (S pos) end
      else if (slot d =? s)%N then inl 0 else inr 0
  end.

Definition insert_at (pos : nat) (d : Dec) (entries : list Dec) : list Dec :=
  take pos entries ++ d :: drop pos entries.

(** [append] under the write lock: the entries, and what is sent to the
    subscribers once the lock is released. *)
Definition append (d : Dec) (entries : list Dec) : list Dec * option Dec :=
  match binary_search (slot d) entries with
  | inl _ => (entries, None)
  | inr pos => (insert_at pos d entries, Some d)
  end.

(** The loop of [range]. *)
Fixpoint take_run (limit : N) (next_slot : N) (out : list Dec) (entries : list Dec)
    : list Dec * N :=
  match entries with
  | [] => (out, next_slot)
  | d :: entries =>
      if (limit <=? vlen out)%N || negb (slot d =? next_slot)%N then (out, next_slot)
      else take_run limit (saturating_add u64_max next_slot 1) (out ++ [d]) entries
  end.

Definition range (start_slot limit : N) (entries : list Dec) : list Dec * N :=
  match binary_search start_slot entries with
  | inr _ => ([], start_slot)
  | inl start => take_run limit start_slot [] (drop start entries)
  end.

Record GetDecisionsRequest := mkGetReq { start_index : N; limit : option N }.

(** [get_decisions]: a limit that is absent or 0 is the default. *)
Definition get_decisions (req : GetDecisionsRequest) (entries : list Dec) : list Dec * N :=
  let limit := match limit req with
               | Some n => if (n =? 0)%N then DEFAULT_GET_LIMIT else n
               | None => DEFAULT_GET_LIMIT
               end in
  range (start_index req) limit entries.

(** ** The stream behind [Watch] *)
Record Watch := mkWatch { next_slot : N; buffered : gmap N Dec }.

(** [while let Some(d) = buffered.remove(&next_slot)]: every round removes
    an element. *)
Fixpoint release (fuel : nat) (w : Watch) : Watch * list Dec :=
  match fuel, buffered w !! next_slot w with
  | S fuel, Some d =>
      let '(w, out) := release fuel (mkWatch (saturating_add u64_max (next_slot w) 1)
                                              (delete (next_slot w) (buffered w))) in
      (w, d :: out)
  | _, _ => (w, [])
  end.

(** The body of both loops: what is yielded for one decision. *)
Definition offer (d : Dec) (w : Watch) : Watch * list Dec :=
  if (slot d <? next_slot w)%N then (w, [])
  else if (slot d =? next_slot w)%N then
    let w := mkWatch (saturating_add u64_max (next_slot w) 1) (buffered w) in
    let '(w, out) := release (size (buffered w)) w in (w, d :: out)
  else (mkWatch (next_slot w)
          (match buffered w !! slot d with
           | Some _ => buffered w
           | None => <[slot d := d]> (buffered w)
           end), []).

(** A subscription: what was broadcast and not yet received; a subscriber
    that falls behind by more than the capacity loses the oldest and is told
    so by its next [recv]. *)
Record Subscription := mkSub { unreceived : list Dec; lagged : bool }.

Definition deliver (capacity : nat) (d : Dec) (r : Subscription) : Subscription :=
  let q := unreceived r ++ [d] in
  if bool_decide (capacity < length q) then mkSub (tail q) true else mkSub q (lagged r).

(** Where a watch is: subscribed, in the snapshot, in the live loop, ended
    (with the status it yielded last, if any). *)
Inductive Phase :=
| Subscribed
| InSnapshot (rest : list Dec)
| Live
| Finished (st : option Status).

Record Watcher := mkWatcher {
  from_index : N;
  phase : Phase;
  subscription : Subscription;
  watch : Watch;
  yielded : list Dec;
}.

(** The log with one subscriber: [in_flight] is a decision inserted by
    [append] and not yet broadcast. *)
Record Log := mkLog {
  entries : list Dec;
  in_flight : option Dec;
  capacity : nat;
  watcher : option Watcher;
}.

Definition DecisionLog_new (capacity : nat) : Log := mkLog [] None capacity None.

(** What happens: the collector appends under the lock and then broadcasts; a
    watch subscribes, reads the snapshot, takes a decision from the snapshot
    or the channel. The stream holds the log, so the channel is not closed
    while it runs. *)
Inductive LogAct :=
| ActInsert (d : Dec)
| ActBroadcast
| ActWatch (start : N)
| ActSnapshot
| ActNext.

Definition lag_status : Status := mkStatus ResourceExhausted
  "watch lagged behind, reconnect with start_index = next expected slot".

Definition take_decision (d : Dec) (w : Watcher) : Watcher :=
  let '(wt, out) := offer d (watch w) in
  {| w with watch := wt; yielded := yielded w ++ out |}.

(** One turn of the stream; [None] while it waits. *)
Definition watch_next (closed : bool) (w : Watcher) : option Watcher :=
  match phase w with
  | InSnapshot (d :: rest) =>
      let w := take_decision d w in Some {| w with phase := InSnapshot rest |}
  | InSnapshot [] => Some {| w with phase := Live |}
  | Live =>
      if lagged (subscription w) then Some {| w with phase := Finished (Some lag_status) |}
      else match unreceived (subscription w) with
           | d :: q =>
               let w := take_decision d w in Some {| w with subscription := mkSub q false |}
           | [] => if closed then Some {| w with phase := Finished None |} else None
           end
  | _ => None
  end.

Definition log_act (a : LogAct) (l : Log) : option Log :=
  match a with
  | ActInsert d =>
      match in_flight l with
      | Some _ => None
      | None =>
          let '(es, sent) := append d (entries l) in
          Some {| l with entries := es; in_flight := sent |}
      end
  | ActBroadcast =>
      d ← in_flight l;
      Some {| l with in_flight := None;
        watcher := (λ w, {| w with
          subscription := deliver (capacity l) d (subscription w) |}) <$> watcher l |}
  | ActWatch start =>
      match watcher l with
      | Some _ => None
      | None => Some {| l with
          watcher := Some (mkWatcher start Subscribed (mkSub [] false) (mkWatch start ∅) []) |}
      end
  | ActSnapshot =>
      w ← watcher l;
      match phase w with
      | Subscribed => Some {| l with
          watcher := Some {| w with phase := InSnapshot (entries l) |} |}
      | _ => None
      end
  | ActNext => w ← watcher l; w ← watch_next false w; Some {| l with watcher := Some w |}
  end.

Definition log_run (acts : list LogAct) (l : Log) : option Log :=
  foldl (λ o a, l ← o; log_act a l) (Some l) acts.

(** ** [collect_decisions] *)
Definition collect_decisions (decided : list (Decided P)) (es : list Dec) : list Dec :=
  foldl (λ es d, (append (mkWire (dc_slot d) (dc_value d)) es).1) es decided.

(** ** [propose] *)
Definition propose_reply (r : Result (Decided P) ProposeError) : Result Dec Status :=
  match r with
  | Ok decided => Ok (mkWire (dc_slot decided) (dc_value decided))
  | Err ChannelFull => Err (mkStatus ResourceExhausted "proposal channel full")
  | Err NotRunning => Err (mkStatus Unavailable "node is not running")
  | Err Cancelled =>
      Err (mkStatus Unavailable "node was shut down before proposal was decided")
  | Err Superseded => Err (mkStatus Aborted "proposal was superseded by another leader")
  end.
End service.
Arguments Watch : clear implicits. Arguments Watcher : clear implicits.
Arguments Log : clear implicits. Arguments LogAct : clear implicits.
Arguments Phase : clear implicits. Arguments Subscription : clear implicits.

(** ** [status] *)
Record StatusResponse := mkStatusResponse {
  sr_node_id : string; sr_algorithm : string; sr_role : string; sr_term : N;
  sr_leader_id : string; sr_log_len : N; sr_commit_index : option N; sr_last_applied : option N;
}.

Definition project_status (st : NodeState) : StatusResponse := {|
  sr_node_id := NodeId_display (st_node_id st);
  sr_algorithm := match st_algorithm st with AlgPaxos => "paxos" | AlgRaft => "raft" end;
  sr_role := match st_role st with
             | Some NFollower => "follower"
             | Some NCandidate => "candidate"
             | Some NLeader => "leader"
             | None => "n/a"
             end;
  sr_term := st_cur_term st;
  sr_leader_id := match st_leader st with Some n => NodeId_display n | None => "" end;
  sr_log_len := st_log_len st;
  sr_commit_index := st_commit st;
  sr_last_applied := st_applied st;
|}%string.

(** ** The remaining methods of the service

    [health] is constant; [status] projects what the handle's watch channel
    holds; [watch] opens a watch over the shared log. *)
Definition health : string := "ok".
Definition status_reply (published : NodeState) : Result StatusResponse Status :=
  Ok (project_status published).
Definition watch_reply {P} (start_index : N) (log : Log P) : option (Log P) :=
  log_act (ActWatch start_index) log.
