(* ===== verification/ServiceProps.v ===== *)
(** * The service: order and completeness of what clients see

    The log stays sorted and keeps the first value of a slot; a watch yields
    the consecutive slots from its start, each once, and when nothing is on
    the way to it has yielded as many as the log allows, which is what paging
    returns; a missing slot stops both. *)

From S2P Require Import Prelude Types Node Service.

Section service_props.
Context {P : Type}.
Abbreviation Dec := (WireDecision P).
Implicit Types (es : list Dec) (d e : Dec).

Definition slot_lt d e : Prop := (slot d < slot e)%N.
Definition sorted_slots es : Prop := StronglySorted slot_lt es.
Definition below_max (es : list Dec) : Prop := Forall (λ d, (slot d < u64_max)%N) es.

(** ** The log *)
Lemma search_spec s es :
  sorted_slots es →
  match binary_search s es with
  | inl pos => ∃ d, es !! pos = Some d ∧ slot d = s
  | inr pos => pos ≤ length es ∧ Forall (λ d, (slot d < s)%N) (take pos es) ∧
               Forall (λ d, (s < slot d)%N) (drop pos es)
  end.
Proof.
  induction 1 as [|d es Hs IH Hf]; simpl; [auto|].
  destruct (N.ltb_spec (slot d) s) as [Hlt|Hge].
  - destruct (binary_search s es) as [pos|pos]; simpl; [done|].
    destruct IH as (Hp & H1 & H2). split_and!; [lia|by constructor|done].
  - destruct (N.eqb_spec (slot d) s) as [He|Hne]; simpl; [eauto|].
    split_and!; [lia|constructor|]. constructor; [lia|].
    eapply Forall_impl; [exact Hf|]. unfold slot_lt. simpl. lia.
Qed.

Lemma same_slot es d e : sorted_slots es → d ∈ es → e ∈ es → slot d = slot e → d = e.
Proof.
  intros Hs. revert d e. induction Hs as [|x es Hs IH Hf]; intros d e Hd He Heq.
  { by apply not_elem_of_nil in Hd. }
  rewrite Forall_forall in Hf. unfold slot_lt in Hf.
  apply elem_of_cons in Hd as [->|Hd], He as [->|He]; [done| | |by apply IH].
  - specialize (Hf e He). lia.
  - specialize (Hf d Hd). lia.
Qed.

Lemma append_spec d es es' sent :
  sorted_slots es → append d es = (es', sent) →
  sorted_slots es' ∧
  match sent with
  | Some d' => d' = d ∧ (∀ e, e ∈ es → slot e ≠ slot d) ∧ (∀ e, e ∈ es' ↔ e = d ∨ e ∈ es)
  | None => es' = es ∧ ∃ e, e ∈ es ∧ slot e = slot d
  end.
Proof.
  intros Hs. unfold append. pose proof (search_spec (slot d) es Hs) as Hb.
  destruct (binary_search (slot d) es) as [pos|pos]; intros [= <- <-].
  - split; [done|]. destruct Hb as (e & He & ?). split; [done|]. exists e.
    split; [by eapply list_elem_of_lookup_2|done].
  - destruct Hb as (Hp & H1 & H2). unfold insert_at.
    rewrite Forall_forall in H1, H2. split_and!; [|done| |].
    + unfold sorted_slots in *. rewrite <- (take_drop pos es) in Hs.
      apply StronglySorted_app in Hs as (Hx & Ha & Hb).
      apply StronglySorted_app. split_and!; [|done|].
      * intros x y Hxi [->|Hy]%elem_of_cons; [by apply H1|by apply Hx].
      * constructor; [done|]. apply Forall_forall. intros y Hy. by apply H2.
    + intros e He. rewrite <- (take_drop pos es) in He.
      apply elem_of_app in He as [He|He]; [specialize (H1 e He)|specialize (H2 e He)]; simpl in *; lia.
    + intros e. rewrite <- (take_drop pos es) at 3. set_solver.
Qed.

(** ** Consecutive decisions *)

(** [out] holds entries of [es] for the slots from [start] on. *)
Definition run_from (start : N) es (out : list Dec) : Prop :=
  ∀ i d, out !! i = Some d → slot d = (start + N.of_nat i)%N ∧ d ∈ es.

(** ... as many as there are. *)
Definition maximal_run (start : N) es (out : list Dec) : Prop :=
  run_from start es out ∧ ∀ d, d ∈ es → slot d ≠ (start + vlen out)%N.

Lemma run_from_nil start es : run_from start es [].
Proof. by intros i d. Qed.

Lemma run_from_snoc start es out d :
  run_from start es out → d ∈ es → slot d = (start + vlen out)%N → run_from start es (out ++ [d]).
Proof.
  intros Hr Hd Hs i e [Hi|[Hi He]]%lookup_app_Some; [by apply Hr|].
  apply list_lookup_singleton_Some in He as [Hz <-]. unfold vlen in Hs. split; [lia|done].
Qed.

Lemma run_from_mono start es es' out :
  (∀ d, d ∈ es → d ∈ es') → run_from start es out → run_from start es' out.
Proof. intros Hs Hr i d Hi. destruct (Hr i d Hi). auto. Qed.

(** A maximal run is unique, and holds every other run. *)
Lemma run_within start es out out' i d :
  sorted_slots es → run_from start es out → maximal_run start es out' →
  out !! i = Some d → out' !! i = Some d.
Proof.
  intros Hs Hr [Hr' Hm]. revert d. induction i as [i IH] using lt_wf_ind. intros d Hi.
  destruct (Hr i d Hi) as [Hd Hin]. destruct (out' !! i) as [d'|] eqn:Hi'.
  - destruct (Hr' i d' Hi') as [Hd' Hin']. f_equal. apply (same_slot es); [done..|congruence].
  - exfalso. apply lookup_ge_None in Hi'. destruct (decide (length out' = i)) as [<-|Hne].
    + by apply (Hm d Hin).
    + assert (is_Some (out !! length out')) as [x Hx].
      { apply lookup_lt_is_Some. apply lookup_lt_Some in Hi. lia. }
      specialize (IH (length out') ltac:(lia) x Hx). apply lookup_lt_Some in IH. lia.
Qed.

Lemma maximal_unique start es out out' :
  sorted_slots es → maximal_run start es out → maximal_run start es out' → out = out'.
Proof.
  intros Hs Hm Hm'. apply list_eq. intros i. apply option_eq. intros d.
  split; (eapply run_within; [done| |done]); [apply Hm|apply Hm'].
Qed.

Lemma vlen_snoc {A} (l : list A) x : vlen (l ++ [x]) = (vlen l + 1)%N.
Proof. by rewrite vlen_app. Qed.

Lemma saturating_succ n : (n < u64_max)%N → saturating_add u64_max n 1 = (n + 1)%N.
Proof. unfold saturating_add. lia. Qed.

(** ** Paging *)
Lemma take_run_spec limit start es pre out rest out' n :
  es = pre ++ rest → sorted_slots es → below_max es → (vlen out ≤ limit)%N →
  run_from start es out → Forall (λ d, (slot d < start + vlen out)%N) pre →
  Forall (λ d, (start + vlen out ≤ slot d)%N) rest →
  take_run limit (start + vlen out) out rest = (out', n) →
  run_from start es out' ∧ n = (start + vlen out')%N ∧ (vlen out' ≤ limit)%N ∧
  (vlen out' = limit ∨ ∀ d, d ∈ es → slot d ≠ n).
Proof.
  intros Hes Hs Hb. revert pre out Hes. induction rest as [|d rest IH];
    intros pre out Hes Hlim Hr Hpre Hrest; simpl.
  { intros [= <- <-]. split_and!; [done..|]. right. intros e He. subst es. rewrite app_nil_r in He.
    rewrite Forall_forall in Hpre. specialize (Hpre e He). simpl in Hpre. lia. }
  assert (d ∈ es) as Hd by (subst es; set_solver).
  assert (Forall (λ e, (slot d < slot e)%N) rest) as Hf.
  { subst es. unfold sorted_slots in Hs. apply StronglySorted_app in Hs as (_ & _ & Hs).
    by apply StronglySorted_inv in Hs as [_ Hf]. }
  apply Forall_cons in Hrest as [Hge Hrest].
  destruct (N.leb_spec limit (vlen out)) as [Hl|Hl]; simpl.
  { intros [= <- <-]. split_and!; [done..|]. left. lia. }
  destruct (N.eqb_spec (slot d) (start + vlen out)) as [He|Hne]; simpl.
  - assert (slot d < u64_max)%N by (unfold below_max in Hb; rewrite Forall_forall in Hb; by apply Hb).
    rewrite saturating_succ by lia. rewrite <- N.add_assoc, <- (vlen_snoc out d).
    apply (IH (pre ++ [d])); [by rewrite <- app_assoc|rewrite vlen_snoc; lia|by apply run_from_snoc| |].
    + rewrite vlen_snoc. apply Forall_app. split; [|constructor; [lia|constructor]].
      eapply Forall_impl; [exact Hpre|]. simpl. lia.
    + rewrite vlen_snoc. eapply Forall_impl; [exact Hf|]. simpl. lia.
  - intros [= <- <-]. split_and!; [done..|]. right. intros e Hin Heq. subst es.
    rewrite Forall_forall in Hpre, Hf. apply elem_of_app in Hin as [Hin|[->|Hin]%elem_of_cons]; [|done|].
    + specialize (Hpre e Hin). simpl in Hpre. lia.
    + specialize (Hf e Hin). simpl in Hf. lia.
Qed.

Lemma range_spec start limit es out n :
  sorted_slots es → below_max es → range start limit es = (out, n) →
  run_from start es out ∧ n = (start + vlen out)%N ∧ (vlen out ≤ limit)%N ∧
  (vlen out = limit ∨ ∀ d, d ∈ es → slot d ≠ n).
Proof.
  intros Hs Hb. unfold range. pose proof (search_spec start es Hs) as Hsp.
  destruct (binary_search start es) as [pos|pos].
  - destruct Hsp as (d & Hd & Hsl). rewrite <- (N.add_0_r start) at 1.
    change 0%N with (vlen (@nil Dec)). pose proof (drop_S _ _ _ Hd) as Hdrop.
    assert (es = take pos es ++ d :: drop (S pos) es) as Hes by (by rewrite <- Hdrop, take_drop).
    assert (Hs' := Hs). unfold sorted_slots in Hs'. rewrite Hes in Hs'.
    apply StronglySorted_app in Hs' as (Hx & _ & [_ Hf]%StronglySorted_inv).
    rewrite Hdrop. apply (take_run_spec limit start es (take pos es)); [done..|apply N.le_0_l
      |apply run_from_nil| |].
    + apply Forall_forall. intros e He. specialize (Hx e d He). unfold slot_lt in Hx.
      change (vlen []) with 0%N. specialize (Hx ltac:(set_solver)). lia.
    + change (vlen []) with 0%N. constructor; [lia|]. eapply Forall_impl; [exact Hf|].
      unfold slot_lt. simpl. lia.
  - intros [= <- <-]. change (vlen []) with 0%N. split_and!; [apply run_from_nil|lia|lia|].
    right. intros e He Heq. destruct Hsp as (_ & H1 & H2). rewrite Forall_forall in H1, H2.
    rewrite <- (take_drop pos es) in He. apply elem_of_app in He as [He|He].
    + specialize (H1 e He). simpl in H1. lia.
    + specialize (H2 e He). simpl in H2. lia.
Qed.

(** ** One turn of a watch *)

(** What a watch that started at [start] and has yielded [ys] holds back. *)
Record watch_ok (start : N) es (w : Watch P) (ys : list Dec) : Prop := {
  wo_run : run_from start es ys;
  wo_next : next_slot w = (start + vlen ys)%N;
  wo_buffered s d : buffered w !! s = Some d → slot d = s ∧ d ∈ es ∧ (next_slot w < s)%N;
}.

(** [e] was yielded, skipped, or is held back. *)
Definition covers (w : Watch P) e : Prop :=
  buffered w !! slot e = Some e ∨ (slot e < next_slot w)%N.

Lemma release_spec start es fuel w ys w' out :
  below_max es → run_from start es ys → next_slot w = (start + vlen ys)%N →
  (∀ s d, buffered w !! s = Some d → slot d = s ∧ d ∈ es ∧ (next_slot w ≤ s)%N) →
  size (buffered w) ≤ fuel → release fuel w = (w', out) →
  watch_ok start es w' (ys ++ out) ∧ (∀ e, covers w e → covers w' e).
Proof.
  intros Hb. revert w ys w' out. induction fuel as [|fuel IH]; intros w ys w' out Hr Hn Hbuf Hsz.
  - assert (buffered w = ∅) as Hemp by (apply map_size_empty_iff; lia).
    simpl. intros [= <- <-]. rewrite app_nil_r. split; [|done]. split; [done|done|].
    intros s d. by rewrite Hemp, lookup_empty.
  - simpl. destruct (buffered w !! next_slot w) as [d|] eqn:Hd.
    + destruct (Hbuf _ _ Hd) as (Hds & Hin & _).
      assert (slot d < u64_max)%N by (unfold below_max in Hb; rewrite Forall_forall in Hb; by apply Hb).
      rewrite saturating_succ by lia.
      destruct (release fuel _) as [w1 out1] eqn:Hrel. intros [= <- <-].
      apply (IH _ (ys ++ [d])) in Hrel as [Hok Hcov]; cbn [next_slot buffered].
      * rewrite <- app_assoc in Hok. split; [done|]. intros e He. apply Hcov.
        unfold covers in *. cbn [next_slot buffered]. destruct (decide (slot e = next_slot w)) as [->|Hne];
          [right; lia|]. rewrite lookup_delete_ne by done. destruct He; [by left|right; lia].
      * apply run_from_snoc; [done|done|congruence].
      * rewrite vlen_snoc. lia.
      * intros s e. destruct (decide (s = next_slot w)) as [->|Hne]; [by rewrite lookup_delete_eq|].
        rewrite lookup_delete_ne by done. intros He. destruct (Hbuf _ _ He) as (? & ? & ?).
        split_and!; [done|done|lia].
      * rewrite map_size_delete, Hd. simpl. lia.
    + intros [= <- <-]. rewrite app_nil_r. split; [|done]. split; [done|done|].
      intros s d Hs. destruct (Hbuf _ _ Hs) as (? & ? & ?). split_and!; [done|done|].
      destruct (decide (s = next_slot w)) as [->|]; [congruence|lia].
Qed.

Lemma offer_spec start es d w ys w' out :
  sorted_slots es → below_max es → d ∈ es → watch_ok start es w ys → offer d w = (w', out) →
  watch_ok start es w' (ys ++ out) ∧ (∀ e, covers w e ∨ e = d → covers w' e).
Proof.
  intros Hs Hb Hd [Hr Hn Hbuf]. unfold offer.
  assert (slot d < u64_max)%N by (unfold below_max in Hb; rewrite Forall_forall in Hb; by apply Hb).
  destruct (N.ltb_spec (slot d) (next_slot w)) as [Hlt|Hge].
  { intros [= <- <-]. rewrite app_nil_r. split; [done|]. intros e [?| ->]; [done|by right]. }
  destruct (N.eqb_spec (slot d) (next_slot w)) as [He|Hne].
  - rewrite saturating_succ by lia. destruct (release _ _) as [w1 out1] eqn:Hrel. intros [= <- <-].
    apply (release_spec start es _ _ (ys ++ [d])) in Hrel as [Hok Hcov]; cbn [next_slot buffered];
      [|done|apply run_from_snoc; [done|done|congruence]|rewrite vlen_snoc; lia| |done].
    + rewrite <- app_assoc in Hok. split; [done|]. intros e Hc. apply Hcov. unfold covers in *.
      cbn [next_slot buffered]. destruct Hc as [[?|?]| ->]; [by left|right; lia|right; lia].
    + intros s e Hse. destruct (Hbuf _ _ Hse) as (? & ? & ?). split_and!; [done|done|lia].
  - intros [= <- <-]. rewrite app_nil_r. unfold covers. cbn [next_slot buffered].
    destruct (buffered w !! slot d) as [d'|] eqn:Hbd.
    + split; [by destruct w|]. intros e [?| ->]; [done|]. destruct (Hbuf _ _ Hbd) as (? & ? & ?).
      rewrite Hbd. left. f_equal. by apply (same_slot es).
    + split; [split|]; cbn [next_slot buffered]; [done|done| |].
      * intros s e [[<- <-]|[_ Hse]]%lookup_insert_Some; [split_and!; [done|done|lia]|by apply Hbuf].
      * intros e [[Hc|Hc]| ->]; [|by right|left; by rewrite lookup_insert_eq].
        left. rewrite lookup_insert_ne; [done|]. intros Heq. congruence.
Qed.

(** ** Runs of the log and a watch *)
Definition rest_of (ph : Phase P) : list Dec :=
  match ph with InSnapshot rest => rest | _ => [] end.

(** The watch is reading the snapshot or the channel. *)
Definition reading (ph : Phase P) : bool :=
  match ph with InSnapshot _ | Live => true | _ => false end.

Record watcher_inv (l : Log P) (w : Watcher P) : Prop := {
  wi_ok : watch_ok (from_index w) (entries l) (watch w) (yielded w);
  wi_known d : d ∈ rest_of (phase w) ++ unreceived (subscription w) → d ∈ entries l;
  wi_cover e : reading (phase w) = true → lagged (subscription w) = false → e ∈ entries l →
    covers (watch w) e ∨ e ∈ rest_of (phase w) ++ unreceived (subscription w) ∨
    in_flight l = Some e;
  wi_finished st : phase w = Finished st → st = Some lag_status ∧ lagged (subscription w) = true;
}.

Record log_inv (l : Log P) : Prop := {
  lg_sorted : sorted_slots (entries l);
  lg_in_flight d : in_flight l = Some d → d ∈ entries l;
  lg_watcher w : watcher l = Some w → watcher_inv l w;
}.

Lemma watch_ok_mono start es es' w ys :
  (∀ d, d ∈ es → d ∈ es') → watch_ok start es w ys → watch_ok start es' w ys.
Proof.
  intros Hs [Hr Hn Hb]. split; [by eapply run_from_mono|done|].
  intros s d Hsd. destruct (Hb s d Hsd) as (? & ? & ?). auto.
Qed.

Lemma log_act_grows a (l l1 : Log P) :
  sorted_slots (entries l) → log_act a l = Some l1 →
  sorted_slots (entries l1) ∧ ∀ d, d ∈ entries l → d ∈ entries l1.
Proof.
  intros Hs. destruct a as [x| |start| |]; simpl.
  - destruct (in_flight l); [done|]. destruct (append x (entries l)) as [es sent] eqn:Ha.
    intros [= <-]. cbn [entries]. destruct (append_spec _ _ _ _ Hs Ha) as [Hs' Hm]. split; [done|].
    destruct sent; [|by destruct Hm as [-> _]]. destruct Hm as (_ & _ & Hm). intros. apply Hm. by right.
  - destruct (in_flight l); [|done]. by intros [= <-].
  - destruct (watcher l); [done|]. by intros [= <-].
  - destruct (watcher l) as [w|]; [|done]. simpl. destruct (phase w); try done. by intros [= <-].
  - destruct (watcher l) as [w|]; [|done]. simpl. destruct (watch_next _ _); [|done]. by intros [= <-].
Qed.

Lemma log_inv_insert x l l1 : log_inv l → log_act (ActInsert x) l = Some l1 → log_inv l1.
Proof.
  intros [Hs Hf Hw]. simpl. destruct (in_flight l) as [|] eqn:Hfl; [done|].
  destruct (append x (entries l)) as [es sent] eqn:Ha. intros [= <-].
  destruct (append_spec _ _ _ _ Hs Ha) as [Hs' Hm]. destruct sent as [x'|].
  - destruct Hm as (-> & Hnew & Hm). split; cbn [entries in_flight watcher]; [done| |].
    + intros d [= <-]. apply Hm. by left.
    + intros w Hwl. destruct (Hw w Hwl) as [Hok Hk Hc Hfin].
      assert (∀ d, d ∈ entries l → d ∈ es) as Hsub by (intros; apply Hm; by right).
      split; cbn [entries in_flight watcher]; [by eapply watch_ok_mono|auto| |done].
      intros e Hrd Hlag [->|He]%Hm; [by right; right|]. destruct (Hc e Hrd Hlag He) as [?|[?|?]]; auto.
      congruence.
  - destruct Hm as [-> _]. split; cbn [entries in_flight watcher]; [done|done|].
    intros w Hwl. destruct (Hw w Hwl) as [Hok Hk Hc Hfin].
    split; cbn [entries in_flight]; [done|done| |done]. rewrite Hfl in Hc. apply Hc.
Qed.

Lemma deliver_known cap x (r : Subscription P) d :
  d ∈ unreceived (deliver cap x r) → d = x ∨ d ∈ unreceived r.
Proof.
  unfold deliver. case_bool_decide; simpl.
  - intros Hd. destruct (unreceived r ++ [x]) as [|y q] eqn:Hq; simpl in Hd; [set_solver|].
    assert (d ∈ unreceived r ++ [x]) by (rewrite Hq; by right). set_solver.
  - set_solver.
Qed.

Lemma deliver_keeps cap x (r : Subscription P) :
  lagged (deliver cap x r) = false →
  lagged r = false ∧ unreceived (deliver cap x r) = unreceived r ++ [x].
Proof. unfold deliver. by case_bool_decide. Qed.

Lemma deliver_lagged cap x (r : Subscription P) : lagged r = true → lagged (deliver cap x r) = true.
Proof. unfold deliver. by case_bool_decide. Qed.

Lemma log_inv_broadcast l l1 : log_inv l → log_act ActBroadcast l = Some l1 → log_inv l1.
Proof.
  intros [Hs Hf Hw]. simpl. destruct (in_flight l) as [x|] eqn:Hfl; [|done]. intros [= <-].
  split; cbn [entries in_flight watcher]; [done|done|].
  intros w (w0 & Hw0 & ->)%fmap_Some. destruct (Hw w0 Hw0) as [Hok Hk Hc Hfin].
  split; cbn [entries in_flight watch yielded phase subscription from_index]; [done| | |].
  - intros d [Hd|Hd]%elem_of_app; [apply Hk; set_solver|].
    destruct (deliver_known _ _ _ _ Hd) as [->|?]; [by apply Hf|apply Hk; set_solver].
  - intros e Hrd (Hlag & ->)%deliver_keeps He.
    destruct (Hc e Hrd Hlag He) as [?|[?|Hfe]]; simplify_eq; [by left|right; left; set_solver..].
  - intros st Hp. destruct (Hfin st Hp). split; [done|]. by apply deliver_lagged.
Qed.

Lemma log_inv_watch start l l1 : log_inv l → log_act (ActWatch start) l = Some l1 → log_inv l1.
Proof.
  intros [Hs Hf Hw]. simpl. destruct (watcher l); [done|]. intros [= <-].
  split; cbn [entries in_flight watcher]; [done|done|]. intros w [= <-].
  split; cbn [watch yielded phase subscription from_index]; [|set_solver|done|done].
  split; cbn [next_slot buffered]; [apply run_from_nil|change (vlen []) with 0%N; lia|].
  intros s d. by rewrite lookup_empty.
Qed.

Lemma log_inv_snapshot l l1 : log_inv l → log_act ActSnapshot l = Some l1 → log_inv l1.
Proof.
  intros [Hs Hf Hw]. simpl. destruct (watcher l) as [w|] eqn:Hwl; [|done]. simpl.
  destruct (phase w) eqn:Hp; try done. intros [= <-].
  destruct (Hw w eq_refl) as [Hok Hk Hc Hfin].
  split; cbn [entries in_flight watcher]; [done|done|]. intros w' [= <-].
  split; cbn [watch yielded phase subscription from_index rest_of reading entries]; [done| | |done].
  - intros d [?|?]%elem_of_app; [done|]. apply Hk. rewrite Hp. set_solver.
  - intros e _ _ He. right. left. set_solver.
Qed.

Lemma take_decision_inv l d w rest q ph :
  log_inv l → below_max (entries l) → watcher_inv l w → reading (phase w) = true →
  rest_of (phase w) ++ unreceived (subscription w) = d :: rest_of ph ++ q →
  reading ph = true → lagged (subscription w) = rest →
  let w' := take_decision d w in
  watcher_inv l {| w' with phase := ph; subscription := mkSub q rest |}.
Proof.
  intros [Hs _ _] Hb [Hok Hk Hc Hfin] Hrd Heq Hph <-. cbv zeta. unfold take_decision.
  destruct (offer d (watch w)) as [wt out] eqn:Ho.
  apply (offer_spec (from_index w) (entries l) d _ (yielded w)) in Ho as [Hok' Hcov]; [|done|done| |done].
  - split; cbn [watch yielded phase subscription from_index unreceived lagged]; [done| | |].
    + intros x Hx. apply Hk. rewrite Heq. by right.
    + intros e _ Hlag He. destruct (Hc e Hrd Hlag He) as [Hcv|[Hin|?]]; [left; by apply Hcov; left| |auto].
      rewrite Heq in Hin. apply elem_of_cons in Hin as [->|Hin]; [left; by apply Hcov; right|auto].
    + intros st ->. done.
  - apply Hk. rewrite Heq. by left.
Qed.

Lemma log_inv_next l l1 :
  below_max (entries l) → log_inv l → log_act ActNext l = Some l1 → log_inv l1.
Proof.
  intros Hb Hinv. pose proof Hinv as [Hs Hf Hw]. simpl.
  destruct (watcher l) as [w|] eqn:Hwl; [|done]. simpl. specialize (Hw w eq_refl).
  destruct (watch_next false w) as [w1|] eqn:Hn; [|done]. intros [= <-].
  assert (watcher_inv l w1) as Hw1.
  { unfold watch_next in Hn. destruct (phase w) as [|[|d rest]| |st] eqn:Hp; try done.
    - injection Hn as <-. destruct Hw as [Hok Hk Hc Hfin]. rewrite Hp in *. by split.
    - injection Hn as <-. pose proof (take_decision_inv l d w (lagged (subscription w))
        (unreceived (subscription w)) (InSnapshot rest)) as Ht.
      rewrite Hp in Ht. specialize (Ht Hinv Hb Hw eq_refl eq_refl eq_refl eq_refl).
      unfold take_decision in *. destruct (offer d (watch w)). by destruct (subscription w).
    - destruct (lagged (subscription w)) eqn:Hlag.
      + injection Hn as <-. destruct Hw as [Hok Hk Hc Hfin]. rewrite Hp in *.
        split; [done|done|done|]. cbn [phase subscription]. intros st [= <-]. done.
      + destruct (unreceived (subscription w)) as [|d q] eqn:Hq; [done|]. injection Hn as <-.
        pose proof (take_decision_inv l d w false q Live) as Ht. rewrite Hp, Hq in Ht.
        specialize (Ht Hinv Hb Hw eq_refl eq_refl eq_refl Hlag).
        unfold take_decision in *. destruct (offer d (watch w)). by rewrite Hp. }
  split; cbn [entries in_flight watcher]; [done|done|]. intros w' [= <-].
  destruct Hw1 as [Hok Hk Hc Hfin]. by split.
Qed.

Lemma log_inv_act a l l1 : below_max (entries l) → log_inv l → log_act a l = Some l1 → log_inv l1.
Proof.
  destruct a; intros Hb Hi; [by apply log_inv_insert|by apply log_inv_broadcast
    |by apply log_inv_watch|by apply log_inv_snapshot|by apply log_inv_next].
Qed.

Lemma log_run_cons a acts (l l1 : Log P) :
  log_run (a :: acts) l = Some l1 → ∃ l2, log_act a l = Some l2 ∧ log_run acts l2 = Some l1.
Proof.
  unfold log_run. simpl. destruct (log_act a l) as [l2|]; [eauto|].
  assert (foldl (λ o a, l ← o; log_act (P := P) a l) None acts = None) as ->; [|done].
  clear. induction acts; simpl; auto.
Qed.

Lemma log_run_grows acts (l l1 : Log P) :
  sorted_slots (entries l) → log_run acts l = Some l1 →
  sorted_slots (entries l1) ∧ ∀ d, d ∈ entries l → d ∈ entries l1.
Proof.
  revert l. induction acts as [|a acts IH]; intros l Hs; [by intros [= <-]|].
  intros (l2 & [Hs2 Hg]%log_act_grows & [Hs1 Hg1]%IH)%log_run_cons; auto.
Qed.

Lemma below_max_sub es es' : (∀ d, d ∈ es → d ∈ es') → below_max es' → below_max es.
Proof. unfold below_max. rewrite !Forall_forall. auto. Qed.

Lemma log_run_inv acts l l1 :
  log_inv l → log_run acts l = Some l1 → below_max (entries l1) → log_inv l1.
Proof.
  revert l. induction acts as [|a acts IH]; intros l Hi; [by intros [= <-]|].
  intros Hr Hb. pose proof (log_run_grows _ _ _ (lg_sorted _ Hi) Hr) as [_ Hg].
  apply log_run_cons in Hr as (l2 & Ha & Hr). eapply IH, Hb; [|done].
  eapply log_inv_act; [|done|done]. by eapply below_max_sub.
Qed.

Lemma log_inv_new cap : log_inv (DecisionLog_new cap).
Proof. by split; [constructor|..]. Qed.

(** A watch that has nothing left to read. *)
Definition caught_up (l : Log P) (w : Watcher P) : Prop :=
  phase w = Live ∧ subscription w = mkSub [] false ∧ in_flight l = None.

Lemma watch_maximal l w :
  log_inv l → watcher l = Some w → caught_up l w →
  maximal_run (from_index w) (entries l) (yielded w).
Proof.
  intros Hi Hw (Hp & Hq & Hf). destruct (lg_watcher _ Hi _ Hw) as [Hok Hk Hc Hfin].
  split; [apply Hok|]. intros d Hd Heq. rewrite <- (wo_next _ _ _ _ Hok) in Heq.
  destruct (Hc d) as [[Hb|Hlt]|[Hin|?]]; [by rewrite Hp|by rewrite Hq|done| |lia| |congruence].
  - destruct (wo_buffered _ _ _ _ Hok _ _ Hb) as (_ & _ & ?). lia.
  - rewrite Hp, Hq in Hin. set_solver.
Qed.

(** A watch yields consecutive slots: over any interleaving of appends
    (out of order, repeated), broadcasts, and turns of the stream, what a
    watch from [start] has yielded are decisions of the log for the slots
    [start], [start + 1], ..., each once and in order; and a stream that ended
    did so with the "lagged" status, after its subscription overflowed. *)
Theorem watch_yields_consecutive acts cap l w :
  log_run acts (DecisionLog_new cap) = Some l → below_max (entries l) → watcher l = Some w →
  run_from (from_index w) (entries l) (yielded w) ∧
  next_slot (watch w) = (from_index w + vlen (yielded w))%N ∧
  (∀ st, phase w = Finished st → st = Some lag_status ∧ lagged (subscription w) = true).
Proof.
  intros Hr Hb Hw. pose proof (log_run_inv _ _ _ (log_inv_new cap) Hr Hb) as Hi.
  destruct (lg_watcher _ Hi _ Hw) as [Hok _ _ Hfin]. split_and!; [apply Hok|apply Hok|done].
Qed.

(** C17. Watching and paging agree: when a watch has read all that was sent to
    it, it has yielded exactly what [get_decisions] from the same index
    returns for a limit that does not cut it, namely the longest run of
    consecutive slots of the log; nothing is lost between the snapshot and
    the live part. *)
Theorem watch_agrees_with_paging acts cap l w limit out n :
  log_run acts (DecisionLog_new cap) = Some l → below_max (entries l) → watcher l = Some w →
  caught_up l w → range (from_index w) limit (entries l) = (out, n) → (vlen out < limit)%N →
  yielded w = out ∧ n = next_slot (watch w).
Proof.
  intros Hr Hb Hw Hc Hrg Hlim. pose proof (log_run_inv _ _ _ (log_inv_new cap) Hr Hb) as Hi.
  pose proof (watch_maximal _ _ Hi Hw Hc) as Hm. destruct Hi as [Hs _ Hwi].
  apply range_spec in Hrg as (Hrun & Hn & _ & Hstop); [|done|done].
  assert (yielded w = out) as Heq.
  { apply (maximal_unique (from_index w) (entries l)); [done|done|]. split; [done|].
    rewrite <- Hn. destruct Hstop; [lia|done]. }
  split; [done|]. destruct (Hwi _ Hw) as [Hok _ _ _]. by rewrite (wo_next _ _ _ _ Hok), Heq.
Qed.

Lemma collect_sorted ds es : sorted_slots es → sorted_slots (collect_decisions ds es).
Proof.
  unfold collect_decisions. revert es. induction ds as [|d ds IH]; intros es Hs; [done|]. simpl.
  apply IH. destruct (append _ es) as [es' sent] eqn:Ha. by apply append_spec in Ha as [? _].
Qed.

(** The decision a list holds for a slot, the first one. *)
Definition decision_at (s : N) (l : list Dec) : option Dec :=
  snd <$> list_find (λ d, slot d = s) l.

Lemma decision_at_sorted s es e :
  sorted_slots es → decision_at s es = Some e ↔ e ∈ es ∧ slot e = s.
Proof.
  intros Hs. unfold decision_at. split.
  - intros ([i x] & (Hi & Hx & _)%list_find_Some & ->)%fmap_Some. simpl.
    split; [by eapply list_elem_of_lookup_2|done].
  - intros [He Hes]. destruct (list_find (λ d, slot d = s) es) as [[i x]|] eqn:Hf; simpl.
    + apply list_find_Some in Hf as (Hi & Hx & _). f_equal. apply list_elem_of_lookup_2 in Hi.
      apply (same_slot es); [done..|congruence].
    + apply list_find_None in Hf. rewrite Forall_forall in Hf. by destruct (Hf e He).
Qed.

Lemma decision_at_append s d es :
  sorted_slots es →
  decision_at s (append d es).1 =
  match decision_at s es with Some e => Some e | None => if bool_decide (slot d = s) then Some d else None end.
Proof.
  intros Hs. destruct (append d es) as [es' sent] eqn:Ha. apply append_spec in Ha as [Hs' Hm]; [|done].
  apply option_eq. intros e. rewrite decision_at_sorted by done. simpl.
  destruct (decision_at s es) as [x|] eqn:Hx.
  - apply decision_at_sorted in Hx as [Hx Hxs]; [|done].
    assert (x ∈ es') as Hx' by (destruct sent; [destruct Hm as (_ & _ & Hm); apply Hm; by right
      |by destruct Hm as [-> _]]).
    split; [|by intros [= <-]]. intros [He Hes]. f_equal. apply (same_slot es'); [done..|congruence].
  - assert (∀ e, e ∈ es → slot e ≠ s) as Hno.
    { intros y Hy Hys. assert (decision_at s es = Some y) by (by apply decision_at_sorted). congruence. }
    destruct sent as [d'|].
    + destruct Hm as (-> & _ & Hm). rewrite Hm. case_bool_decide; naive_solver.
    + destruct Hm as (-> & y & Hy & Hys). case_bool_decide; naive_solver.
Qed.

(** The log keeps the first decision of a slot: after any sequence of
    deliveries, out of order and repeated, the entries are strictly sorted by
    slot, and what the log holds for a slot is what it held before or else
    the first decision delivered for it. *)
Theorem log_keeps_first ds es s :
  sorted_slots es →
  sorted_slots (collect_decisions ds es) ∧
  decision_at s (collect_decisions ds es) =
  match decision_at s es with
  | Some e => Some e
  | None => decision_at s ((λ x, mkWire (dc_slot x) (dc_value x)) <$> ds)
  end.
Proof.
  intros Hs. split; [by apply collect_sorted|]. unfold collect_decisions. revert es Hs.
  induction ds as [|x ds IH]; intros es Hs; cbn [foldl]; [by destruct (decision_at s es)|].
  rewrite IH.
  - rewrite decision_at_append by done. destruct (decision_at s es); [done|].
    unfold decision_at. rewrite fmap_cons. cbn [list_find slot].
    case_bool_decide; case_decide; try done. by rewrite <- option_fmap_compose.
  - destruct (append _ es) as [es' sent] eqn:Ha. by apply append_spec in Ha as [? _].
Qed.

(** A missing slot stops readers: while the log has no decision for the
    index a watch or a page starts from, the watch yields nothing and the
    page is empty with the same index to go on from, however many later slots
    the log holds. A node that restarts feeds a new log, which its protocol
    does not fill with the slots decided before. *)
Theorem missing_slot_stalls acts cap l w limit :
  log_run acts (DecisionLog_new cap) = Some l → below_max (entries l) → watcher l = Some w →
  decision_at (from_index w) (entries l) = None →
  yielded w = [] ∧ range (from_index w) limit (entries l) = ([], from_index w).
Proof.
  intros Hr Hb Hw Hno. pose proof (log_run_inv _ _ _ (log_inv_new cap) Hr Hb) as [Hs _ Hwi].
  assert (∀ e, e ∈ entries l → slot e ≠ from_index w) as Hmiss.
  { intros e He Hes. assert (decision_at (from_index w) (entries l) = Some e)
      by (by apply decision_at_sorted). congruence. }
  assert (∀ out, run_from (from_index w) (entries l) out → out = []) as Hnil.
  { intros [|d out] Hrun; [done|]. destruct (Hrun 0 d eq_refl) as [Hd Hin].
    destruct (Hmiss d Hin). simpl in Hd. lia. }
  split; [apply Hnil; destruct (Hwi _ Hw) as [Hok _ _ _]; apply Hok|].
  destruct (range (from_index w) limit (entries l)) as [out n] eqn:Hrg.
  apply range_spec in Hrg as (Hrun & -> & _ & _); [|done|done].
  apply Hnil in Hrun as ->. change (vlen []) with 0%N. by rewrite N.add_0_r.
Qed.
End service_props.

(** ** A sample run

    Slots 0 and 2 are appended, a watch from 0 starts between the insertion
    and the broadcast of slot 2, then slot 1 arrives. *)
Definition sample_acts : list (LogAct N) :=
  [ActInsert (mkWire 0 10%N); ActBroadcast; ActInsert (mkWire 2 12%N); ActWatch 0; ActBroadcast;
   ActSnapshot; ActNext; ActNext; ActNext; ActNext; ActInsert (mkWire 1 11%N); ActBroadcast; ActNext].

Definition sample_log : Log N := default (DecisionLog_new 0) (log_run sample_acts (DecisionLog_new 16)).
Definition sample_watcher : Watcher N :=
  default (mkWatcher 0 Subscribed (mkSub [] false) (mkWatch 0 ∅) []) (watcher sample_log).

Lemma sample_run : log_run sample_acts (DecisionLog_new 16) = Some sample_log.
Proof. vm_compute. reflexivity. Qed.
Lemma sample_watch : watcher sample_log = Some sample_watcher.
Proof. vm_compute. reflexivity. Qed.
#[local] Typeclasses Transparent below_max.

Lemma sample_below : below_max (entries sample_log).
Proof. apply (bool_decide_unpack _). vm_compute. exact I. Qed.

Lemma watch_yields_consecutive_witness :
  yielded sample_watcher = [mkWire 0 10%N; mkWire 1 11%N; mkWire 2 12%N] ∧
  run_from 0 (entries sample_log) (yielded sample_watcher).
Proof.
  split; [vm_compute; reflexivity|].
  apply (watch_yields_consecutive sample_acts 16 sample_log sample_watcher);
    [apply sample_run|apply sample_below|apply sample_watch].
Defined.

Lemma watch_agrees_with_paging_witness :
  caught_up sample_log sample_watcher ∧
  yielded sample_watcher = (range 0 1000 (entries sample_log)).1.
Proof.
  assert (caught_up sample_log sample_watcher) as Hc by (split_and!; vm_compute; reflexivity).
  split; [exact Hc|].
  apply (watch_agrees_with_paging sample_acts 16 sample_log sample_watcher 1000
    (range 0 1000 (entries sample_log)).1 (range 0 1000 (entries sample_log)).2);
    [apply sample_run|apply sample_below|apply sample_watch|exact Hc|vm_compute; reflexivity
    |vm_compute; reflexivity].
Defined.

Definition restarted_acts : list (LogAct N) :=
  [ActInsert (mkWire 5 15%N); ActBroadcast; ActInsert (mkWire 6 16%N); ActBroadcast; ActWatch 0;
   ActSnapshot; ActNext; ActNext; ActNext].
Definition restarted_log : Log N :=
  default (DecisionLog_new 0) (log_run restarted_acts (DecisionLog_new 16)).
Definition restarted_watcher : Watcher N := default sample_watcher (watcher restarted_log).

Lemma missing_slot_stalls_witness :
  decision_at 0 (entries restarted_log) = None ∧ yielded restarted_watcher = [] ∧
  range 0 1000 (entries restarted_log) = ([], 0%N).
Proof.
  split; [vm_compute; reflexivity|].
  apply (missing_slot_stalls restarted_acts 16 restarted_log restarted_watcher 1000);
    [vm_compute; reflexivity|apply (bool_decide_unpack _); vm_compute; exact I|vm_compute; reflexivity
    |vm_compute; reflexivity].
Defined.

Lemma log_keeps_first_witness :
  let ds := [mkDecided 1 11%N; mkDecided 0 10%N; mkDecided 1 99%N] in
  decision_at 1 (collect_decisions ds []) = Some (mkWire 1 11%N) ∧
  sorted_slots (collect_decisions ds []).
Proof.
  split; [vm_compute; reflexivity|]. apply (log_keeps_first _ [] 1). constructor.
Defined.
