(* ===== verification/InProcess.v ===== *)
(** * The in-process node of the demo's test support

    [daccord-demo/src/test_support.rs]: a Paxos node without peers, its event
    loop with its retry ticks, and the collector that moves its decisions into
    a log a service reads. The end-to-end behaviour of the parts on a cluster of one: every
    proposal is answered in the iteration that takes it, with the next slot and
    its own value, and the log fills with the proposals in their order. *)

From S2P Require Import Prelude Types Storage Raft Paxos Protocol Node NodeProps Service ServiceProps.

Section in_process.
Context {V B : Type} `{EqDecision V} (mp : bool).
Context (encode : Message (Pending V) → option B) (decode : B → option (Message (Pending V))).
Abbreviation PS := (PendingPaxosStorage V (PaxosMemoryStorage V)).
Abbreviation RS := (PendingRaftStorage V (RaftMemoryStorage V)).
Abbreviation Nd := (NodeS V PS RS).

(** [InProcessNode]: the loop of the node task with what it has done, and the
    log the collector task fills. *)
Record InProcessNode := mkInProcess {
  ip_loop : LoopState (V := V) (PS := PS) (RS := RS);
  ip_effects : list (Effect V B);
  ip_decisions : Log V;
  ip_algorithm : NodeAlgorithm;
}.

(** [start_in_process_node]; [None] is a panic. *)
Definition start_in_process_node (e : NEnv) (node_name : string) : option InProcessNode :=
  let node : Nd := paxos_with_id_inner e (mkNodeId node_name 0)
    (paxos_heartbeat_interval PaxosConfig_default) [] PaxosMemoryStorage_new in
  '(ls, eff) ← run mp encode decode e [] node;
  Some (mkInProcess ls eff (DecisionLog_new DECISION_BROADCAST_CAPACITY) AlgPaxos).

(** A proposal that the loop takes from the handle's queue, a tick of its
    retry interval, a turn of the collector. *)
Inductive IpAct :=
| IpPropose (e : NEnv) (draws : list N) (v : V) (tok : Token)
| IpTick (e : NEnv)
| IpCollect.

Definition ip_act (a : IpAct) (s : InProcessNode) : option InProcessNode :=
  match ip_loop s with
  | Returned _ _ => None
  | Running nd alive =>
      match a with
      | IpPropose e draws v tok =>
          n ← live_nonce draws;
          '(ls, eff) ← loop_step mp encode decode e
            (InSubmit (mkSubmission (mkPending n v) tok)) nd alive;
          Some {| s with ip_loop := ls; ip_effects := ip_effects s ++ eff |}
      | IpTick e =>
          '(ls, eff) ← loop_step mp encode decode e InTick nd alive;
          Some {| s with ip_loop := ls; ip_effects := ip_effects s ++ eff |}
      | IpCollect =>
          match queued (decision_ch nd) with
          | [] => None
          | d :: q =>
              let w := mkWire (dc_slot d) (dc_value d) in
              let nd := {| nd with decision_ch := mkChannel q (closed (decision_ch nd)) |} in
              l ← log_act (ActInsert w) (ip_decisions s);
              l ← (if is_some (in_flight l) then log_act ActBroadcast l else Some l);
              Some {| s with ip_loop := Running nd alive; ip_decisions := l |}
          end
      end
  end.

Fixpoint ip_run (acts : list IpAct) (s : InProcessNode) : option InProcessNode :=
  match acts with
  | [] => Some s
  | a :: acts => s ← ip_act a s; ip_run acts s
  end.

(** ** One proposal *)

(** No election runs and no proposal was forwarded. *)
Definition calm (p : Paxos.PaxosProtocol (Pending V) PS) : Prop :=
  Paxos.forwarded_proposals p = [] ∧ Paxos.election_started_at p = None.

(** A node without peers that has decided the slots below [k]. It has no
    undecided slot, so no tick makes it a candidate. *)
Record solo (k : N) (nd : Nd) : Prop := {
  so_pending : pending nd = ∅;
  so_senders : senders nd = [];
  so_open : closed (decision_ch nd) = false;
  so_paxos : ∃ p t, protocol nd = IPaxos p ∧ Paxos.instances p = ∅ ∧ Paxos.next_slot p = k ∧
    Paxos.pending_decisions p = [] ∧ Paxos.p_quorum_size p = 1 ∧
    Paxos.leader_state p = Paxos.LFollower None t ∧ calm p;
}.

(** What a proposal leaves of the protocol, before its decision is drained. *)
Definition decided_at (k : N) (v : Pending V) (p p1 : Paxos.PaxosProtocol (Pending V) PS) : Prop :=
  Paxos.instances p1 = ∅ ∧ Paxos.next_slot p1 = (k + 1)%N ∧
  Paxos.pending_decisions p1 = [mkDecision k v] ∧ Paxos.p_quorum_size p1 = 1 ∧
  Paxos.leader_state p1 = Paxos.leader_state p ∧ Paxos.storage p1 = Paxos.storage p ∧
  (calm p → calm p1).

Lemma u64_succ k : (k < u64_max)%N → u64_add k 1 = Some (k + 1)%N.
Proof. intros. unfold u64_add, checked_add. rewrite bool_decide_eq_true_2 by lia. done. Qed.

Lemma one_vote (x : NodeId) (A : gset NodeId) : 1 ≤ size ({[ x ]} ∪ A).
Proof. rewrite <- (size_singleton (C := gset NodeId) x). apply subseteq_size. set_solver. Qed.

Lemma solo_decide e k v p :
  delete k (Paxos.instances p) = ∅ → Paxos.next_slot p = (k + 1)%N → Paxos.pending_decisions p = [] →
  Paxos.p_quorum_size p = 1 →
  ∃ p1 out, Paxos.decide_and_tell mp e k v p = Some (p1, out) ∧ decided_at k v p p1.
Proof.
  intros Hde Hn Hd Hq. unfold Paxos.decide_and_tell, Paxos.decide. rewrite Hn.
  rewrite (proj2 (N.leb_gt _ _)) by lia. cbn [mbind option_bind].
  eexists _, _. split; [reflexivity|]. unfold Paxos.remove_instance, decided_at.
  destruct mp; simpl; rewrite ?Hde, ?Hd; split_and!; try done.
  unfold calm. simpl. by intros [-> ?].
Qed.

(** With a quorum of one, phase 2 decides at once. *)
Lemma solo_phase2 e k v i p :
  Paxos.instances p !! k = Some i → delete k (Paxos.instances p) = ∅ →
  Paxos.highest_accepted i = None → Paxos.proposed_value i = Some v →
  Paxos.highest_promised i = Some (Paxos.proposal_number i) →
  Paxos.next_slot p = (k + 1)%N → Paxos.pending_decisions p = [] → Paxos.p_quorum_size p = 1 →
  ∃ p1 out, Paxos.start_phase2 mp e k p = Some (p1, out) ∧ decided_at k v p p1.
Proof.
  intros Hi Hde Ha Hv Hp Hn Hd Hq. unfold Paxos.start_phase2. rewrite Hi. cbn [mbind option_bind].
  rewrite Ha, Hv. cbn [mbind option_bind]. rewrite Hp. unfold is_none_or.
  rewrite (proj2 (pn_leb_le _ _)) by reflexivity. cbv zeta. cbn [Paxos.accepts_received].
  rewrite bool_decide_eq_true_2 by (cbn [Paxos.set_instance Paxos.p_quorum_size]; rewrite Hq; apply one_vote).
  match goal with |- context [Paxos.set_instance k ?j p] => set (i1 := j) end.
  destruct (solo_decide e k v (Paxos.set_instance k i1 p)) as (p1 & out & -> & Hdec); [|done..|by eauto].
  cbn [Paxos.set_instance Paxos.instances]. by rewrite delete_insert_eq.
Qed.

Lemma solo_propose e k v t p :
  (k < u64_max)%N → Paxos.instances p = ∅ → Paxos.next_slot p = k → Paxos.pending_decisions p = [] →
  Paxos.p_quorum_size p = 1 → Paxos.leader_state p = Paxos.LFollower None t →
  ∃ p1 out, Paxos.propose mp e v p = Some (p1, out) ∧ decided_at k v p p1.
Proof.
  intros Hk Hi Hn Hd Hq Hl.
  assert (Paxos.propose mp e v p = Paxos.propose_full_paxos mp e v p) as ->.
  { unfold Paxos.propose, Paxos.propose_or_forward, Paxos.get_leader, Paxos.inner_propose. rewrite Hl.
    by destruct mp. }
  unfold Paxos.propose_full_paxos. rewrite Hn, (u64_succ k Hk). cbn [mbind option_bind]. cbv zeta.
  unfold Paxos.get_or_create_instance, Paxos.set_instance. cbn [Paxos.instances Paxos.p_quorum_size].
  rewrite Hi, Hq, lookup_empty. cbn [default Paxos.promises_received].
  rewrite bool_decide_eq_true_2 by apply one_vote.
  edestruct (solo_phase2 e k v) as (p1 & out & Hs & Hdec); [..|exists p1, out; split; [exact Hs|]];
    try reflexivity; try done; simpl; try apply lookup_insert_eq; try done.
  by rewrite delete_insert_eq, delete_empty.
Qed.

Lemma solo_drain k v p p1 :
  decided_at k v p p1 →
  ∃ p2, Paxos.drain_decisions p1 = (p2, Ok [mkDecision k v]) ∧ Paxos.instances p2 = ∅ ∧
    Paxos.next_slot p2 = (k + 1)%N ∧ Paxos.pending_decisions p2 = [] ∧ Paxos.p_quorum_size p2 = 1 ∧
    Paxos.leader_state p2 = Paxos.leader_state p ∧ (calm p → calm p2).
Proof.
  intros (Hi & Hn & Hd & Hq & Hl & Hs & Hc). unfold Paxos.drain_decisions, Paxos.take_decisions.
  rewrite Hd. simpl. eexists. split; [reflexivity|]. done.
Qed.

(** Nobody to send to. *)
Lemma no_peer_sends (nd : Nd) out : senders nd = [] → send_outgoing encode nd out = [].
Proof.
  intros Hs. unfold send_outgoing. induction out as [|o out IH]; [done|]. simpl. rewrite IH.
  unfold send_one. rewrite Hs. by destruct (encode _), (target o).
Qed.

(** A proposal is decided in the next slot, answered and delivered. *)
Lemma solo_step e k nd n v tok alive :
  solo k nd → (k < u64_max)%N → n ≠ 0%N → length (queued (decision_ch nd)) < DECISION_CHANNEL_CAPACITY →
  ∃ nd1,
    loop_step mp encode decode e (InSubmit (mkSubmission (mkPending n v) tok)) nd alive =
      Some (Running nd1 alive,
            [EffFlush; EffComplete tok (Ok (mkDecided k v)); EffDeliver (mkDecided k v)]) ∧
    solo (k + 1) nd1 ∧ queued (decision_ch nd1) = queued (decision_ch nd) ++ [mkDecided k v].
Proof.
  intros [Hpe Hse Hop (p & t & Hpr & Hi & Hn & Hd & Hq & Hl & Hc)] Hk Hnz Hroom.
  destruct (solo_propose (paxos_env e) k (mkPending n v) t p Hk Hi Hn Hd Hq Hl) as (p1 & out & Hp1 & Hdec).
  destruct (solo_drain _ _ _ _ Hdec) as (p2 & Hp2 & Hi2 & Hn2 & Hd2 & Hq2 & Hl2 & Hc2).
  cbn [loop_step]. unfold handle_submission, pending_insert. rewrite Hpe, lookup_empty.
  cbn [s_pending s_completion nonce pvalue protocol]. rewrite Hpr. cbn [impl_propose].
  rewrite Hp1. cbn [of_paxos mbind option_bind]. unfold after_protocol.
  cbn [mbind option_bind impl_flush_persist Paxos.flush_persist]. unfold process_decisions.
  cbn [protocol impl_drain_decisions]. rewrite Hp2. cbn [process_each]. unfold process_decision.
  cbn [d_value d_slot nonce pvalue pending]. unfold remove_for_decision.
  rewrite (proj2 (N.eqb_neq _ _) Hnz). cbn [negb]. unfold remove_nonce.
  rewrite lookup_insert_eq, delete_insert_eq, delete_empty. cbn [decision_ch]. unfold try_send.
  rewrite Hop, bool_decide_eq_false_2 by lia. rewrite no_peer_sends by done.
  eexists. split; [reflexivity|]. split; [|done]. split; try done.
  exists p2, t. rewrite Hl2. split_and!; try done; by apply Hc2.
Qed.

(** A tick finds nothing to retry, no leader to time out and no election. *)
Lemma solo_on_tick e t p :
  Paxos.instances p = ∅ → Paxos.leader_state p = Paxos.LFollower None t → calm p →
  ∃ rd out, Paxos.on_tick mp e p =
    Some ({| p with Paxos.recent_decisions := rd |}, out).
Proof.
  intros Hi Hl [Hf He]. unfold Paxos.on_tick.
  assert (Paxos.get_retryable_proposals e p = []) as ->.
  { unfold Paxos.get_retryable_proposals. by rewrite Hi, map_to_list_empty. }
  cbn [Paxos.retry_all mbind option_bind]. unfold Paxos.get_decision_rebroadcasts.
  destruct mp; [|by eexists _, _].
  match goal with |- context [Paxos.should_send_heartbeat e ?q] => set (p1 := q) end.
  assert (Paxos.should_send_heartbeat e p1 = false) as ->.
  { unfold Paxos.should_send_heartbeat. simpl. by rewrite Hl. }
  assert (Paxos.check_election_timeout e p1 = p1) as ->.
  { unfold Paxos.check_election_timeout. simpl. by rewrite He. }
  assert (Paxos.check_leader_timeout e p1 = false) as ->.
  { unfold Paxos.check_leader_timeout. simpl. rewrite Hl. by rewrite bool_decide_eq_true_2. }
  assert (Paxos.handle_forwarded_proposal_timeouts true e p1 = Some (p1, [])) as Hfw.
  { unfold Paxos.handle_forwarded_proposal_timeouts. simpl. rewrite Hf. simpl. rewrite filter_nil. by rewrite <- Hf. }
  cbn [mbind option_bind]. rewrite Hfw. by eexists _, _.
Qed.

Lemma solo_tick e k nd alive :
  solo k nd →
  ∃ nd1, loop_step mp encode decode e InTick nd alive = Some (Running nd1 alive, [EffFlush]) ∧
    solo k nd1 ∧ decision_ch nd1 = decision_ch nd.
Proof.
  intros [Hpe Hse Hop (p & t & Hpr & Hi & Hn & Hd & Hq & Hl & Hc)].
  destruct (solo_on_tick (paxos_env e) t p Hi Hl Hc) as (rd & out & Ht).
  cbn [loop_step]. unfold handle_retries. rewrite Hpr. cbn [impl_on_tick]. rewrite Ht.
  unfold after_protocol. cbn [of_paxos mbind option_bind impl_flush_persist Paxos.flush_persist].
  unfold process_decisions. cbn [protocol impl_drain_decisions]. unfold Paxos.drain_decisions, Paxos.take_decisions.
  cbn [Paxos.pending_decisions]. rewrite Hd. cbn [Paxos.save_decisions process_each].
  rewrite no_peer_sends by done.
  eexists. split; [reflexivity|]. split; [|done]. split; try done.
  eexists _, t. split; [reflexivity|]. done.
Qed.

(** ** Runs *)

(** The proposals a run takes, in order. *)
Definition proposals (acts : list IpAct) : list (Token * V) :=
  omap (λ a, match a with IpPropose _ _ v tok => Some (tok, v) | _ => None end) acts.

Definition completions (eff : list (Effect V B)) : list (Token * Result (Decided V) ProposeError) :=
  omap (λ x, match x with EffComplete t r => Some (t, r) | _ => None end) eff.

(** The [i]-th proposal is decided in slot [i]. *)
Definition answers (vs : list (Token * V)) : list (Token * Result (Decided V) ProposeError) :=
  imap (λ i tv, (tv.1, Ok (mkDecided (N.of_nat i) tv.2))) vs.
Definition numbered (vs : list (Token * V)) : list (WireDecision V) :=
  imap (λ i tv, mkWire (N.of_nat i) tv.2) vs.
Definition to_wire (d : Decided V) : WireDecision V := mkWire (dc_slot d) (dc_value d).

Record ip_inv (vs : list (Token * V)) (s : InProcessNode) (nd : Nd) : Prop := {
  ii_loop : ip_loop s = Running nd false;
  ii_solo : solo (vlen vs) nd;
  ii_told : completions (ip_effects s) = answers vs;
  ii_log : entries (ip_decisions s) ++ (to_wire <$> queued (decision_ch nd)) = numbered vs;
  ii_idle : in_flight (ip_decisions s) = None ∧ watcher (ip_decisions s) = None;
}.

Lemma start_inv e nm : ∃ s nd, start_in_process_node e nm = Some s ∧ ip_inv [] s nd.
Proof.
  eexists _, _. split; [reflexivity|]. split; try done. split; try done.
  eexists _, _. split_and!; [reflexivity..|by split].
Qed.

Lemma numbered_sorted vs : sorted_slots (numbered vs).
Proof.
  unfold numbered. induction vs as [|x vs IH] using rev_ind; [constructor|].
  rewrite imap_app. simpl. apply StronglySorted_app. split_and!; [|done|by repeat constructor].
  intros a b (i & y & -> & Hy%lookup_lt_Some)%elem_of_lookup_imap ->%list_elem_of_singleton.
  unfold slot_lt. simpl. lia.
Qed.

(** A decision after all entries is put at the end. *)
Lemma append_last (d : WireDecision V) es :
  sorted_slots (es ++ [d]) → append d es = (es ++ [d], Some d).
Proof.
  intros Hs. apply StronglySorted_app in Hs as (Hlt & Hes & _).
  destruct (append d es) as [es' sent] eqn:Ha. unfold append in Ha.
  pose proof (search_spec (slot d) es Hes) as Hb.
  destruct (binary_search (slot d) es) as [pos|pos].
  - destruct Hb as (x & Hx%list_elem_of_lookup_2 & Heq).
    specialize (Hlt x d Hx ltac:(by left)). unfold slot_lt in Hlt. lia.
  - destruct Hb as (Hp & _ & H2). injection Ha as <- <-. f_equal. unfold insert_at.
    assert (drop pos es = []) as Hdrop.
    { destruct (drop pos es) as [|y l] eqn:Hd; [done|]. rewrite Forall_cons in H2. destruct H2 as [H2 _].
      assert (y ∈ es) as Hy by (rewrite <- (take_drop pos es), Hd; set_solver).
      specialize (Hlt y d Hy ltac:(by left)). unfold slot_lt in Hlt. lia. }
    rewrite Hdrop. rewrite <- (take_drop pos es) at 2. by rewrite Hdrop, app_nil_r.
Qed.

Lemma propose_inv e draws v tok vs s nd n :
  ip_inv vs s nd → length vs < DECISION_CHANNEL_CAPACITY → live_nonce draws = Some n →
  ∃ s1 nd1, ip_act (IpPropose e draws v tok) s = Some s1 ∧ ip_inv (vs ++ [(tok, v)]) s1 nd1.
Proof.
  intros [Hl Hs Ht He Hi] Hlen Hn.
  assert (length (queued (decision_ch nd)) ≤ length vs) as Hq.
  { apply (f_equal length) in He. unfold numbered in He.
    rewrite length_app, length_fmap, length_imap in He. lia. }
  destruct (solo_step e (vlen vs) nd n v tok false Hs) as (nd1 & Hst & Hs1 & Hq1).
  { unfold vlen, u64_max. unfold DECISION_CHANNEL_CAPACITY in Hlen. lia. }
  { by eapply live_nonce_nonzero. }
  { lia. }
  unfold ip_act. rewrite Hl, Hn. cbn [mbind option_bind]. rewrite Hst. cbn [mbind option_bind].
  eexists _, nd1. split; [reflexivity|]. split; cbn [ip_loop ip_effects ip_decisions]; [done| | | |done].
  - by rewrite vlen_snoc.
  - unfold completions in *. rewrite omap_app, Ht. unfold answers. rewrite imap_app. simpl.
    by rewrite Nat.add_0_r.
  - rewrite Hq1, fmap_app, app_assoc, He. unfold numbered. rewrite imap_app. simpl.
    by rewrite Nat.add_0_r.
Qed.

Lemma tick_inv e vs s nd :
  ip_inv vs s nd → ∃ s1 nd1, ip_act (IpTick e) s = Some s1 ∧ ip_inv vs s1 nd1.
Proof.
  intros [Hl Hs Ht He Hi]. destruct (solo_tick e (vlen vs) nd false Hs) as (nd1 & Hst & Hs1 & Hch).
  unfold ip_act. rewrite Hl, Hst. cbn [mbind option_bind].
  eexists _, nd1. split; [reflexivity|]. split; cbn [ip_loop ip_effects ip_decisions]; [done|done| | |done].
  - unfold completions in *. rewrite omap_app, Ht. by rewrite app_nil_r.
  - by rewrite Hch.
Qed.

Lemma collect_inv vs s nd :
  ip_inv vs s nd → queued (decision_ch nd) ≠ [] →
  ∃ s1 nd1, ip_act IpCollect s = Some s1 ∧ ip_inv vs s1 nd1.
Proof.
  intros [Hl [Hpe Hse Hop Hpx] Ht He [Hi Hw]] Hq. unfold ip_act. rewrite Hl.
  destruct (queued (decision_ch nd)) as [|d q] eqn:Hqe; [done|]. rewrite fmap_cons in He.
  assert (entries (ip_decisions s) ++ to_wire d :: (to_wire <$> q) =
          (entries (ip_decisions s) ++ [to_wire d]) ++ (to_wire <$> q)) as Hsplit by by rewrite <- app_assoc.
  assert (append (to_wire d) (entries (ip_decisions s)) =
          (entries (ip_decisions s) ++ [to_wire d], Some (to_wire d))) as Ha.
  { apply append_last. pose proof (numbered_sorted vs) as Hs. rewrite <- He, Hsplit in Hs.
    by apply StronglySorted_app in Hs as (_ & ? & _). }
  change (mkWire (dc_slot d) (dc_value d)) with (to_wire d). cbv zeta. cbn [log_act]. rewrite Hi, Ha.
  cbn [mbind option_bind in_flight is_some log_act]. rewrite Hw.
  eexists _, _. split; [reflexivity|]. split; cbn [ip_loop ip_effects ip_decisions]; [done| |done| |done].
  - split; done.
  - cbn [entries decision_ch queued]. by rewrite <- Hsplit.
Qed.

Lemma act_inv a vs s s1 nd :
  ip_inv vs s nd → ip_act a s = Some s1 → length (vs ++ proposals [a]) ≤ DECISION_CHANNEL_CAPACITY →
  ∃ nd1, ip_inv (vs ++ proposals [a]) s1 nd1.
Proof.
  intros Hinv Ha. destruct a as [e draws v tok|e|]; simpl; rewrite length_app; intros Hlen.
  - destruct (live_nonce draws) as [n|] eqn:Hn.
    + destruct (propose_inv e draws v tok vs s nd n Hinv) as (s2 & nd1 & Ha2 & ?); [simpl in Hlen; lia|done|].
      rewrite Ha in Ha2. injection Ha2 as <-. eauto.
    + unfold ip_act in Ha. by rewrite (ii_loop _ _ _ Hinv), Hn in Ha.
  - destruct (tick_inv e vs s nd Hinv) as (s2 & nd1 & Ha2 & ?).
    rewrite Ha in Ha2. injection Ha2 as <-. rewrite app_nil_r. eauto.
  - destruct (queued (decision_ch nd)) as [|d q] eqn:Hq.
    + unfold ip_act in Ha. by rewrite (ii_loop _ _ _ Hinv), Hq in Ha.
    + destruct (collect_inv vs s nd Hinv) as (s2 & nd1 & Ha2 & ?); [by rewrite Hq|].
      rewrite Ha in Ha2. injection Ha2 as <-. rewrite app_nil_r. eauto.
Qed.

Lemma run_inv acts vs s s1 nd :
  ip_inv vs s nd → ip_run acts s = Some s1 → length (vs ++ proposals acts) ≤ DECISION_CHANNEL_CAPACITY →
  ∃ nd1, ip_inv (vs ++ proposals acts) s1 nd1.
Proof.
  revert vs s nd. induction acts as [|a acts IH]; intros vs s nd Hinv; cbn [ip_run].
  { intros [= <-] _. simpl. rewrite app_nil_r. eauto. }
  intros (s2 & Ha & Hr)%bind_Some Hlen.
  assert (vs ++ proposals (a :: acts) = (vs ++ proposals [a]) ++ proposals acts) as Hsplit.
  { rewrite <- app_assoc. by destruct a. }
  rewrite Hsplit in Hlen |- *.
  destruct (act_inv a vs s s2 nd Hinv Ha) as (nd1 & Hinv1); [rewrite length_app in Hlen; lia|].
  by eapply IH.
Qed.

(** C36. A node of one serves its callers: an in-process node starts, and
    after any interleaving of proposals, at most as many as its decision
    channel holds, of ticks of the retry interval at any time, and of turns of
    the collector, with or without Multi-Paxos, the loop still runs and every
    proposal has been answered once and in order, the [i]-th with slot [i] and
    its own value; the log with what is queued for it holds the proposals in
    order; and neither a further proposal, a tick nor the collector of a
    queued decision can get stuck. *)
Theorem in_process_serves e nm acts :
  ∃ s0, start_in_process_node e nm = Some s0 ∧
  ∀ s, ip_run acts s0 = Some s → length (proposals acts) ≤ DECISION_CHANNEL_CAPACITY →
    completions (ip_effects s) = answers (proposals acts) ∧
    ∃ nd, ip_loop s = Running nd false ∧
      entries (ip_decisions s) ++ (to_wire <$> queued (decision_ch nd)) = numbered (proposals acts) ∧
      (∀ e' draws v tok, is_Some (live_nonce draws) → length (proposals acts) < DECISION_CHANNEL_CAPACITY →
         is_Some (ip_act (IpPropose e' draws v tok) s)) ∧
      (∀ e', is_Some (ip_act (IpTick e') s)) ∧
      (queued (decision_ch nd) ≠ [] → is_Some (ip_act IpCollect s)).
Proof.
  destruct (start_inv e nm) as (s0 & nd0 & Hs0 & Hinv0). exists s0. split; [done|]. intros s Hr Hlen.
  destruct (run_inv acts [] s0 s nd0 Hinv0 Hr Hlen) as (nd & Hinv). simpl in Hinv.
  split; [apply Hinv|]. exists nd. split_and!; [apply Hinv|apply Hinv| | |].
  - intros e' draws v tok [n Hn] Hlt.
    destruct (propose_inv e' draws v tok _ s nd n Hinv Hlt Hn) as (s1 & _ & -> & _). by eexists.
  - intros e'. destruct (tick_inv e' _ s nd Hinv) as (s1 & _ & -> & _). by eexists.
  - intros Hq. destruct (collect_inv _ s nd Hinv Hq) as (s1 & _ & -> & _). by eexists.
Qed.
End in_process.

(** ** A run of it *)
Module InProcessRun.
Definition enc (m : Message (Pending N)) : option (Message (Pending N)) := Some m.
Definition at_time (t : N) : NEnv := mkNEnv t 0 (λ _, 0%N).
Definition acts : list (IpAct (V := N)) :=
  [IpTick (at_time 0); IpPropose (at_time 5) [0; 7]%N 10%N 1%N; IpCollect;
   IpTick (at_time (from_secs 2)); IpPropose (at_time (from_secs 2)) [7]%N 20%N 2%N;
   IpPropose (at_time (from_secs 2)) [9]%N 20%N 3%N; IpCollect].

Definition final : option (InProcessNode (V := N) (B := Message (Pending N))) :=
  s ← start_in_process_node true enc enc (at_time 0) "node"; ip_run true enc enc acts s.

Lemma in_process_serves_witness :
  ∃ s, final = Some s ∧
    completions (ip_effects s) =
      [(1%N, Ok (mkDecided 0 10%N)); (2%N, Ok (mkDecided 1 20%N)); (3%N, Ok (mkDecided 2 20%N))] ∧
    entries (ip_decisions s) = [mkWire 0 10%N; mkWire 1 20%N].
Proof.
  destruct (in_process_serves true enc enc (at_time 0) "node" acts) as (s0 & Hs0 & Hrun).
  destruct (ip_run true enc enc acts s0) as [s|] eqn:Hr.
  2:{ exfalso. revert Hr. injection Hs0 as <-. vm_compute. discriminate. }
  exists s. split; [unfold final; by rewrite Hs0|].
  destruct (Hrun s eq_refl) as [-> _]; [unfold DECISION_CHANNEL_CAPACITY; simpl; lia|].
  split; [reflexivity|]. revert Hr. injection Hs0 as <-. vm_compute. by intros [= <-].
Defined.
End InProcessRun.
