(* ===== verification/Client.v ===== *)
(** * The client library

    Models [daccord-client/src/client.rs], [watch.rs], [types.rs] and
    [error.rs]: connecting, proposing with one retry, paging, reading a status
    and the watch stream that reconnects. What the servers and the network
    answer is an argument. *)

From S2P Require Import Prelude Types Node Service.
#[local] Open Scope string_scope.

(** ** Errors and replies *)
Inductive ClientError :=
| ETransport
| ERpc (st : Status)
| EInvalidEndpoint (raw : string)
| ENoEndpoints
| EInvalid (what : string).

(** ** [connect] *)
Section connect.
(** [Endpoint::from_shared]. *)
Context {Endpoint : Type} (from_shared : string → Result Endpoint string).

Fixpoint parse_endpoints (raw : list string) : Result (list Endpoint) ClientError :=
  match raw with
  | [] => Ok []
  | r :: raw =>
      match from_shared r with
      | Err e => Err (EInvalidEndpoint (r ++ ": " ++ e))
      | Ok ep =>
          match parse_endpoints raw with
          | Err e => Err e
          | Ok eps => Ok (ep :: eps)
          end
      end
  end.

Definition connect (endpoints : list string) : Result (list Endpoint) ClientError :=
  match endpoints with
  | [] => Err ENoEndpoints
  | _ => parse_endpoints endpoints
  end.
End connect.

(** ** [propose] *)
Definition PROPOSE_RETRY_BACKOFF : Duration := from_millis 100.

(** Where a call goes: the balanced channel, or one endpoint by its index. *)
Inductive Target := Balanced | AtEndpoint (i : nat).
#[export] Instance Target_eq_dec : EqDecision Target.
Proof. solve_decision. Defined.

Section propose.
Context {P : Type}.
Abbreviation Dec := (WireDecision P).

(** What the network answers: to the first call, to the connect of the retry,
    to the second call. *)
Record Replies := mkReplies {
  first_reply : Result Dec Status;
  connect_reply : bool;
  second_reply : Result Dec Status;
}.

(** The result, with the calls that were sent. *)
Definition propose (endpoints : nat) (r : Replies) : Result Dec ClientError * list Target :=
  match first_reply r with
  | Ok d => (Ok d, [Balanced])
  | Err st =>
      match code st with
      | Unavailable =>
          if bool_decide (endpoints < 2) then (Err (ERpc st), [Balanced]) else
          if negb (connect_reply r) then (Err ETransport, [Balanced]) else
          (match second_reply r with Ok d => Ok d | Err st => Err (ERpc st) end,
           [Balanced; AtEndpoint 1])
      | Aborted =>
          (match second_reply r with Ok d => Ok d | Err st => Err (ERpc st) end,
           [Balanced; Balanced])
      | _ => (Err (ERpc st), [Balanced])
      end
  end.

(** [Client::get_decisions] on the server's reply: a page and the next
    index. *)
Definition client_get_decisions (reply : Result (list Dec * N) Status)
    : Result (list Dec * N) ClientError :=
  match reply with Ok page => Ok page | Err st => Err (ERpc st) end.

(** ** The watch stream *)
Definition INITIAL_RECONNECT_DELAY : Duration := from_millis 100.
Definition MAX_RECONNECT_DELAY : Duration := from_secs 5.

Definition is_transient (c : Code) : bool :=
  match c with Unavailable | ResourceExhausted | DeadlineExceeded => true | _ => false end.

(** The state of the stream: whether a server stream is open, and the error
    it ended with; [slept], [requested] and [received] record what it did. *)
Record WatchClient := mkWatchClient {
  wc_start : N;
  last_yielded : option N;
  delay : Duration;
  is_open : bool;
  ended : option ClientError;
  slept : list Duration;
  requested : list N;
  received : list Dec;
}.

Definition watch_stream (start_index : N) : WatchClient :=
  mkWatchClient start_index None INITIAL_RECONNECT_DELAY false None [] [] [].

Definition next_index (c : WatchClient) : N :=
  match last_yielded c with
  | Some s => saturating_add u64_max s 1
  | None => wc_start c
  end.

(** What the server answers: to the opening, then item by item ([Eos] is the
    end of the stream). *)
Inductive ServerEvent :=
| Opened
| OpenFailed (e : ClientError)
| Item (d : Dec)
| ItemFailed (st : Status)
| Eos.

(** [tokio::time::sleep(delay)], then the delay doubles up to the maximum. *)
Definition backoff (c : WatchClient) : WatchClient :=
  {| c with is_open := false; slept := (slept c ++ [delay c])%list;
            delay := N.min (delay c * 2) MAX_RECONNECT_DELAY |}.

Definition fail_with (e : ClientError) (c : WatchClient) : WatchClient :=
  {| c with is_open := false; ended := Some e |}.

(** One turn of the loops; an event that cannot come there is ignored. *)
Definition on_event (ev : ServerEvent) (c : WatchClient) : WatchClient :=
  match ended c, is_open c, ev with
  | Some _, _, _ => c
  | None, false, Opened =>
      {| c with is_open := true; requested := (requested c ++ [next_index c])%list |}
  | None, false, OpenFailed e =>
      let c := {| c with requested := (requested c ++ [next_index c])%list |} in
      match e with
      | ERpc st => if is_transient (code st) then backoff c else fail_with (ERpc st) c
      | _ => fail_with e c
      end
  | None, true, Item d =>
      {| c with last_yielded := Some (slot d); delay := INITIAL_RECONNECT_DELAY;
                received := (received c ++ [d])%list |}
  | None, true, ItemFailed st =>
      if is_transient (code st) then backoff c else fail_with (ERpc st) c
  | None, true, Eos => backoff c
  | _, _, _ => c
  end.

Definition on_events (evs : list ServerEvent) (c : WatchClient) : WatchClient :=
  foldl (λ c ev, on_event ev c) c evs.
End propose.
Arguments Replies : clear implicits. Arguments WatchClient : clear implicits.
Arguments ServerEvent : clear implicits.

(** ** [status] *)
Inductive Algorithm := Paxos | Raft.
Inductive Role := Follower | Candidate | Leader | NotApplicable.

(** The text of an error shows the value without the quotes of its debug
    rendering. *)
Definition Algorithm_from_str (s : string) : Result Algorithm ClientError :=
  if String.eqb s "paxos" then Ok Paxos
  else if String.eqb s "raft" then Ok Raft
  else Err (EInvalid ("unknown algorithm: " ++ s)).

Definition Role_from_str (s : string) : Result Role ClientError :=
  if String.eqb s "follower" then Ok Follower
  else if String.eqb s "candidate" then Ok Candidate
  else if String.eqb s "leader" then Ok Leader
  else if String.eqb s "n/a" then Ok NotApplicable
  else Err (EInvalid ("unknown role: " ++ s)).

Record ClusterStatus := mkClusterStatus {
  cs_node_id : string; cs_algorithm : Algorithm; cs_role : Role; cs_term : N;
  cs_leader_id : option string; cs_log_len : N; cs_commit_index : option N;
  cs_last_applied : option N;
}.

(** [Client::status] on the server's reply. *)
Definition status (reply : Result StatusResponse Status) : Result ClusterStatus ClientError :=
  match reply with
  | Err st => Err (ERpc st)
  | Ok inner =>
      let leader_id := if String.eqb (sr_leader_id inner) "" then None
                       else Some (sr_leader_id inner) in
      match Algorithm_from_str (sr_algorithm inner) with
      | Err e => Err e
      | Ok alg =>
          match Role_from_str (sr_role inner) with
          | Err e => Err e
          | Ok role => Ok {|
              cs_node_id := sr_node_id inner; cs_algorithm := alg; cs_role := role;
              cs_term := sr_term inner; cs_leader_id := leader_id;
              cs_log_len := sr_log_len inner; cs_commit_index := sr_commit_index inner;
              cs_last_applied := sr_last_applied inner |}
          end
      end
  end.
