(* ===== verification/ClientProps.v ===== *)
(** * The client: what a watch stream and a status reader get

    The watch stream is verified against what a server promises of one
    stream ([WatchServer]); the service of the demo keeps that promise, so
    that a client reading from nodes that agree sees every decision from its
    start index, once and in order, across any number of reconnects. *)

From S2P Require Import Prelude Types Node Service ServiceProps Client.

(** ** The promise of a server

    [served start items]: a stream opened at [start] may have yielded
    [items]. [agreed] is the decision of every slot the servers agree on. *)
Class WatchServer (P : Type) (agreed : N → option P) := {
  served : N → list (WireDecision P) → Prop;
  served_run start items i d :
    served start items → items !! i = Some d →
    slot d = (start + N.of_nat i)%N ∧ agreed (slot d) = Some (payload d) ∧ (slot d < u64_max)%N;
}.

Section watch.
Context {P : Type} {agreed : N → option P} `{!WatchServer P agreed}.
Implicit Types (c : WatchClient P).

(** One connection: an opening that failed, or a stream of items and how it
    ended. *)
Inductive Session :=
| NoStream (e : ClientError)
| Stream (items : list (WireDecision P)) (last : ServerEvent P).

Definition session_events (s : Session) : list (ServerEvent P) :=
  match s with
  | NoStream e => [OpenFailed e]
  | Stream items last => Opened :: (Item <$> items) ++ [last]
  end.

(** How a stream ends. *)
Definition ends_stream (ev : ServerEvent P) : bool :=
  match ev with ItemFailed _ | Eos => true | _ => false end.

(** Every stream is served from the index the client asked for. *)
Fixpoint sessions_served (ss : list Session) c : Prop :=
  match ss with
  | [] => True
  | s :: ss =>
      match s with
      | NoStream _ => True
      | Stream items last => served (next_index c) items ∧ ends_stream last = true
      end ∧ sessions_served ss (on_events (session_events s) c)
  end.

(** What the client has received is the agreed decisions of the slots from
    its start on, and the next index it asks for is the next slot. *)
Record client_inv c : Prop := {
  ci_run i d : received c !! i = Some d →
    slot d = (wc_start c + N.of_nat i)%N ∧ agreed (slot d) = Some (payload d);
  ci_next : next_index c = (wc_start c + vlen (received c))%N;
}.

Lemma on_events_app evs evs' c : on_events (evs ++ evs') c = on_events evs' (on_events evs c).
Proof. apply foldl_app. Qed.

Lemma ended_stays evs c e : ended c = Some e → on_events evs c = c.
Proof.
  unfold on_events. revert c. induction evs as [|ev evs IH]; intros c He; [done|]. simpl.
  unfold on_event at 2. rewrite He. by apply IH.
Qed.

Lemma backoff_inv c : client_inv c → client_inv (backoff c).
Proof. by intros [Hr Hn]. Qed.
Lemma fail_inv e c : client_inv c → client_inv (fail_with e c).
Proof. by intros [Hr Hn]. Qed.

(** Between two connections. *)
Definition idle c : Prop := client_inv c ∧ is_open c = false.

Lemma backoff_idle c : client_inv c → idle (backoff c).
Proof. intros Hc. split; [by apply backoff_inv|done]. Qed.
Lemma fail_idle e c : client_inv c → idle (fail_with e c).
Proof. intros Hc. split; [by apply fail_inv|done]. Qed.

Lemma end_idle ev c :
  client_inv c → ended c = None → is_open c = true → ends_stream ev = true → idle (on_event ev c).
Proof.
  intros Hc He Ho Hev. unfold on_event. rewrite He, Ho.
  destruct ev; try done; try case_match; auto using backoff_idle, fail_idle.
Qed.

Lemma item_inv d c :
  client_inv c → is_open c = true → ended c = None →
  slot d = (wc_start c + vlen (received c))%N → agreed (slot d) = Some (payload d) →
  (slot d < u64_max)%N →
  client_inv (on_event (Item d) c) ∧ is_open (on_event (Item d) c) = true ∧
  ended (on_event (Item d) c) = None ∧ wc_start (on_event (Item d) c) = wc_start c ∧
  received (on_event (Item d) c) = received c ++ [d].
Proof.
  intros [Hr Hn] Ho He Hd Ha Hm. unfold on_event. rewrite He, Ho.
  split_and!; [|done..]. split; cbn [received wc_start].
  - intros i x [Hi|[Hi Hx]]%lookup_app_Some; [by apply Hr|].
    apply list_lookup_singleton_Some in Hx as [Hz <-]. unfold vlen in Hd. split; [lia|done].
  - unfold next_index. cbn [last_yielded]. rewrite saturating_succ by done. rewrite vlen_snoc. lia.
Qed.

Lemma items_inv items c :
  client_inv c → is_open c = true → ended c = None →
  (∀ i d, items !! i = Some d →
     slot d = (wc_start c + vlen (received c) + N.of_nat i)%N ∧
     agreed (slot d) = Some (payload d) ∧ (slot d < u64_max)%N) →
  let c' := on_events (Item <$> items) c in
  client_inv c' ∧ is_open c' = true ∧ ended c' = None.
Proof.
  revert c. induction items as [|d items IH]; intros c Hc Ho He Hi; [done|].
  destruct (Hi 0 d eq_refl) as (Hd & Ha & Hm). rewrite N.add_0_r in Hd.
  destruct (item_inv d c Hc Ho He Hd Ha Hm) as (Hc' & Ho' & He' & Hs' & Hr').
  rewrite fmap_cons. unfold on_events. cbn [foldl]. apply IH; [done..|].
  intros i x Hx. destruct (Hi (S i) x Hx) as (Hx' & ? & ?). split_and!; [|done|done].
  rewrite Hs', Hr', vlen_snoc. lia.
Qed.

Lemma session_idle s c :
  idle c →
  match s with
  | NoStream _ => True
  | Stream items last => served (next_index c) items ∧ ends_stream last = true
  end → idle (on_events (session_events s) c).
Proof.
  intros [Hc Ho] Hs. destruct (ended c) as [e|] eqn:He; [by rewrite (ended_stays _ _ e)|].
  destruct s as [e|items last].
  - unfold on_events. simpl. unfold on_event. rewrite He, Ho. cbv zeta.
    assert (client_inv {| c with is_open := false; ended := None;
      requested := requested c ++ [next_index c] |}) as Hc'
      by (by destruct Hc).
    destruct e; try case_match; auto using backoff_idle, fail_idle.
  - destruct Hs as [Hserved Hlast]. cbn [session_events].
    change (Opened :: (Item <$> items) ++ [last]) with ([Opened] ++ (Item <$> items) ++ [last]).
    rewrite !on_events_app. set (c1 := on_events [Opened] c).
    assert (c1 = {| c with is_open := true; requested := requested c ++ [next_index c] |}) as Hc1.
    { unfold c1, on_events. simpl. unfold on_event. by rewrite He, Ho. }
    destruct (items_inv items c1) as (Hc2 & Ho2 & He2).
    + rewrite Hc1. by destruct Hc.
    + by rewrite Hc1.
    + by rewrite Hc1.
    + rewrite Hc1. cbn [wc_start received]. intros i d Hi. rewrite <- (ci_next _ Hc).
      by eapply served_run.
    + by apply end_idle.
Qed.

Lemma sessions_idle ss c :
  idle c → sessions_served ss c → idle (on_events (concat (session_events <$> ss)) c).
Proof.
  revert c. induction ss as [|s ss IH]; intros c Hc; [done|]. intros [Hs Hss].
  rewrite fmap_cons. cbn [concat]. rewrite on_events_app. apply IH; [by apply session_idle|done].
Qed.

Lemma idle_start start : idle (watch_stream start).
Proof. split; [split|done]; [done|]. unfold next_index. simpl. by rewrite N.add_0_r. Qed.

Lemma wc_start_event ev c : wc_start (on_event ev c) = wc_start c.
Proof.
  unfold on_event. destruct (ended c), (is_open c), ev as [|e| | |]; try done; try by case_match.
  destruct e; try done. by case_match.
Qed.

Lemma wc_start_events evs c : wc_start (on_events evs c) = wc_start c.
Proof.
  unfold on_events. revert c. induction evs as [|ev evs IH]; intros c; [done|]. simpl.
  by rewrite IH, wc_start_event.
Qed.

(** What the client has received after any number of connections. *)
Lemma client_watch_run start ss :
  sessions_served ss (watch_stream start) →
  let c := on_events (concat (session_events <$> ss)) (watch_stream start) in
  (∀ i d, received c !! i = Some d →
     slot d = (start + N.of_nat i)%N ∧ agreed (slot d) = Some (payload d)) ∧
  next_index c = (start + vlen (received c))%N.
Proof.
  intros Hs. destruct (sessions_idle ss _ (idle_start start) Hs) as [[Hr Hn] _].
  rewrite wc_start_events in Hr, Hn. done.
Qed.

(** ** Backoff *)
Definition delay_ok c : Prop :=
  (INITIAL_RECONNECT_DELAY ≤ delay c ≤ MAX_RECONNECT_DELAY)%N ∧
  Forall (λ d, INITIAL_RECONNECT_DELAY ≤ d ≤ MAX_RECONNECT_DELAY)%N (slept c).

Lemma backoff_delay_ok c : delay_ok c → delay_ok (backoff c).
Proof.
  intros [Hd Hs]. split; cbn [delay slept backoff].
  - unfold INITIAL_RECONNECT_DELAY, MAX_RECONNECT_DELAY, from_millis, from_secs in *. lia.
  - apply Forall_app. split; [done|]. by constructor.
Qed.

Lemma event_delay_ok ev c : delay_ok c → delay_ok (on_event ev c).
Proof.
  intros Hc. unfold on_event.
  destruct (ended c), (is_open c), ev as [|e|d|st|]; try done; try (by apply backoff_delay_ok).
  - destruct Hc as [Hd Hs]. split; [|done]. cbn [delay]. done.
  - case_match; [by apply backoff_delay_ok|done].
  - destruct e; try done. case_match; [by apply backoff_delay_ok|done].
Qed.

Lemma events_delay_ok evs c : delay_ok c → delay_ok (on_events evs c).
Proof.
  unfold on_events. revert c. induction evs as [|ev evs IH]; intros c Hc; [done|].
  simpl. by apply IH, event_delay_ok.
Qed.

(** The sleep after [n] earlier failures in a row. *)
Definition nth_delay (n : nat) : N :=
  N.min (INITIAL_RECONNECT_DELAY * 2 ^ N.of_nat n) MAX_RECONNECT_DELAY.

Lemma nth_delay_succ n : N.min (nth_delay n * 2) MAX_RECONNECT_DELAY = nth_delay (S n).
Proof.
  unfold nth_delay. rewrite Nat2N.inj_succ, N.pow_succ_r'.
  unfold MAX_RECONNECT_DELAY, INITIAL_RECONNECT_DELAY, from_secs, from_millis. lia.
Qed.

Lemma failing_delays st n k c :
  is_transient (code st) = true → is_open c = false → ended c = None → delay c = nth_delay k →
  slept (on_events (replicate n (OpenFailed (ERpc st))) c) = slept c ++ (nth_delay <$> seq k n).
Proof.
  intros Ht. revert k c. induction n as [|n IH]; intros k c Ho He Hd; simpl; [by rewrite app_nil_r|].
  unfold on_events. cbn [foldl].
  assert (on_event (OpenFailed (ERpc st)) c =
    backoff {| c with requested := requested c ++ [next_index c] |}) as ->.
  { unfold on_event. by rewrite He, Ho, Ht. }
  etrans; [apply (IH (S k)); [done|done|]|].
  - cbn [delay backoff]. by rewrite Hd, nth_delay_succ.
  - cbn [slept backoff delay]. by rewrite Hd, <- app_assoc.
Qed.

(** C34. Backoff is bounded and exponential: every pause of the watch stream
    is between 100 ms and 5 s, whatever happens; [n] openings in a row that
    fail with a transient status are followed by pauses of 100 ms doubled
    each time up to 5 s; and a received decision resets the delay. *)
Theorem client_backoff evs start st n :
  is_transient (code st) = true →
  let c := on_events evs (watch_stream (P := P) start) in
  Forall (λ d, from_millis 100 ≤ d ≤ from_secs 5)%N (slept c) ∧
  slept (on_events (replicate n (OpenFailed (ERpc st))) (watch_stream (P := P) start)) =
    nth_delay <$> seq 0 n ∧
  (∀ d, is_open c = true → ended c = None → delay (on_event (Item d) c) = from_millis 100).
Proof.
  intros Ht. split_and!.
  - apply events_delay_ok. split; [done|constructor].
  - by rewrite (failing_delays st n 0).
  - intros d Ho He. unfold on_event. by rewrite He, Ho.
Qed.

(** ** Proposing *)

(** A proposal is sent at most twice: the payload goes out once on the
    balanced channel, and a second time exactly when the first reply was
    [Aborted], or [Unavailable] with a second endpoint that could be
    connected; the result is then the second reply. A first reply other than
    these is the result. *)
Theorem propose_retries_once endpoints (r : Replies P) :
  let '(res, calls) := propose endpoints r in
  match first_reply r with
  | Ok d => res = Ok d ∧ calls = [Balanced]
  | Err st =>
      let again := match code st with
                   | Aborted => true
                   | Unavailable => bool_decide (2 ≤ endpoints) && connect_reply r
                   | _ => false
                   end in
      if again
      then length calls = 2 ∧ res = match second_reply r with
                                    | Ok d => Ok d | Err st2 => Err (ERpc st2) end
      else calls = [Balanced] ∧
           res = Err (if bool_decide (code st = Unavailable ∧ 2 ≤ endpoints) then ETransport
                      else ERpc st)
  end.
Proof.
  unfold propose. destruct (first_reply r) as [d|st]; [done|].
  destruct (code st) eqn:Hc; try (rewrite bool_decide_eq_false_2 by naive_solver; done); [|done].
  destruct (decide (endpoints < 2)) as [Hlt|Hge].
  - rewrite (bool_decide_eq_true_2 (endpoints < 2)) by done.
    rewrite (bool_decide_eq_false_2 (2 ≤ endpoints)) by lia. simpl.
    rewrite bool_decide_eq_false_2 by (intros [_ ?]; lia). done.
  - rewrite (bool_decide_eq_false_2 (endpoints < 2)) by done.
    rewrite (bool_decide_eq_true_2 (2 ≤ endpoints)) by lia. simpl.
    destruct (connect_reply r); simpl; [done|].
    rewrite bool_decide_eq_true_2 by (split; [done|lia]). done.
Qed.
End watch.

(** ** The service keeps the promise *)
Section end_to_end.
Context {P : Type} (agreed : N → option P).

(** The decisions of a log are those the nodes agree on. *)
Definition log_agrees (l : Log P) : Prop :=
  ∀ d, d ∈ entries l → agreed (slot d) = Some (payload d).

(** What arrives of a watch that a service runs over such a log: the stream
    may break off anywhere. *)
Definition service_serves (start : N) (items : list (WireDecision P)) : Prop :=
  ∃ acts cap l w,
    log_run acts (DecisionLog_new cap) = Some l ∧ below_max (entries l) ∧ watcher l = Some w ∧
    log_agrees l ∧ from_index w = start ∧ items `prefix_of` yielded w.

#[export] Program Instance service_server : WatchServer P agreed := {| served := service_serves |}.
Next Obligation.
  intros start items i d (acts & cap & l & w & Hr & Hb & Hw & Ha & <- & Hp) Hi.
  pose proof (log_run_inv _ _ _ (log_inv_new cap) Hr Hb) as Hinv.
  destruct (lg_watcher _ Hinv _ Hw) as [Hok _ _ _].
  destruct (wo_run _ _ _ _ Hok i d) as [Hd Hin]; [by eapply prefix_lookup_Some|].
  split_and!; [done|by apply Ha|]. unfold below_max in Hb. rewrite Forall_forall in Hb. by apply Hb.
Qed.

(** A client that watches agreeing nodes misses and repeats nothing: over
    any number of connections to services whose logs hold the agreed
    decisions (each log filled in any order, each stream broken off anywhere
    or ended by a status or by the server, openings that fail in between),
    the client has received the agreed decisions of consecutive slots from
    its start index, each once and in order, and asks next for the slot after
    the last. *)
Theorem client_reads_agreed_log start ss :
  sessions_served ss (watch_stream start) →
  let c := on_events (concat (session_events <$> ss)) (watch_stream start) in
  (∀ i d, received c !! i = Some d →
     slot d = (start + N.of_nat i)%N ∧ agreed (slot d) = Some (payload d)) ∧
  next_index c = (start + vlen (received c))%N.
Proof. apply client_watch_run. Qed.
End end_to_end.

(** ** Status *)
Definition role_of (r : option NodeRole) : Role :=
  match r with
  | Some NFollower => Follower | Some NCandidate => Candidate | Some NLeader => Leader
  | None => NotApplicable
  end.

Lemma display_nonempty n : NodeId_display n ≠ ""%string.
Proof. unfold NodeId_display. by destruct (name n). Qed.

(** A status survives the wire: what the client reads from the reply of
    the service is the state the node published, with the algorithm, the role
    and the absence of a leader recovered from their texts. *)
Theorem status_round_trip (st : NodeState) :
  Client.status (Ok (project_status st)) = Ok {|
    cs_node_id := NodeId_display (st_node_id st);
    cs_algorithm := match st_algorithm st with AlgPaxos => Paxos | AlgRaft => Raft end;
    cs_role := role_of (st_role st);
    cs_term := st_cur_term st;
    cs_leader_id := NodeId_display <$> st_leader st;
    cs_log_len := st_log_len st; cs_commit_index := st_commit st; cs_last_applied := st_applied st |}.
Proof.
  unfold Client.status, project_status. cbn [sr_leader_id sr_algorithm sr_role sr_node_id sr_term
    sr_log_len sr_commit_index sr_last_applied].
  assert ((if String.eqb match st_leader st with Some n => NodeId_display n | None => "" end ""
           then None else Some match st_leader st with Some n => NodeId_display n | None => "" end)
          = NodeId_display <$> st_leader st)%string as ->.
  { destruct (st_leader st) as [n|]; [|done].
    by rewrite (proj2 (String.eqb_neq _ _) (display_nonempty n)). }
  by destruct (st_algorithm st), (st_role st) as [[]|].
Qed.

(** ** Witnesses *)
Definition sample_agreed (s : N) : option N := if (s <? 3)%N then Some (s + 10)%N else None.

(** The sample stream breaks off after two decisions; the next opening is
    refused; a third connection, to another node, goes on from slot 2. *)
Definition other_acts : list (LogAct N) :=
  [ActInsert (mkWire 2 12%N); ActBroadcast; ActWatch 2; ActSnapshot; ActNext].

Definition sample_sessions : list (Session (P := N)) :=
  [Stream [mkWire 0 10%N; mkWire 1 11%N] (ItemFailed (mkStatus Unavailable "reset"));
   NoStream (ERpc (mkStatus Unavailable "refused"));
   Stream [mkWire 2 12%N] Eos].

Lemma sample_served : sessions_served (agreed := sample_agreed) sample_sessions (watch_stream 0).
Proof.
  assert (∀ start acts cap l w items, log_run acts (DecisionLog_new cap) = Some l →
    below_max (entries l) → watcher l = Some w →
    bool_decide (Forall (λ d, sample_agreed (slot d) = Some (payload d)) (entries l)) = true →
    from_index w = start → items `prefix_of` yielded w →
    service_serves sample_agreed start items) as Hserve.
  { intros start acts cap l w items ??? Hf%bool_decide_eq_true ??. exists acts, cap, l, w.
    split_and!; try done. intros d Hd. rewrite Forall_forall in Hf. by apply Hf. }
  split; [split; [|done]|split; [done|split; [split; [|done]|done]]].
  - apply (Hserve 0%N sample_acts 16 sample_log sample_watcher);
      [apply sample_run|apply sample_below|apply sample_watch|vm_compute; reflexivity..|].
    exists [mkWire 2 12%N]. vm_compute. reflexivity.
  - eapply (Hserve _ other_acts 16); [vm_compute; reflexivity|repeat constructor
      |vm_compute; reflexivity|vm_compute; reflexivity|vm_compute; reflexivity|].
    exists []. vm_compute. reflexivity.
Qed.

Lemma client_reads_agreed_log_witness :
  let c := on_events (concat (session_events <$> sample_sessions)) (watch_stream 0) in
  received c = [mkWire 0 10%N; mkWire 1 11%N; mkWire 2 12%N] ∧
  (∀ i d, received c !! i = Some d →
     slot d = (0 + N.of_nat i)%N ∧ sample_agreed (slot d) = Some (payload d)).
Proof.
  split; [vm_compute; reflexivity|].
  apply (client_reads_agreed_log sample_agreed 0 sample_sessions). apply sample_served.
Defined.

Lemma client_backoff_witness :
  let st := mkStatus Unavailable "refused" in
  is_transient (code st) = true ∧
  slept (on_events (replicate 8 (OpenFailed (ERpc st))) (watch_stream (P := N) 0)) =
    nth_delay <$> seq 0 8.
Proof.
  split; [done|]. apply (client_backoff (P := N) [] 0 (mkStatus Unavailable "refused") 8). done.
Defined.
