(* ===== verification/DemoCluster.v ===== *)
(** * The demo as a whole: clients of a cluster

    Puts the parts of the demo together: the event loops of a Raft cluster over
    ordered links ([NodeFifo]), on every node the collector task
    ([collect_decisions]) that receives from the node's decision channel and
    inserts into the log of its gRPC service ([Service]), and clients that
    watch the services and propose through them ([Client]), reconnecting to any
    node after a failure. What the nodes tell their users agrees, a channel
    queues only what its node has delivered, a log holds only what its
    collector has received, and a watch yields the entries of the log in order;
    so all clients read one log. *)

From S2P Require Import Prelude Types Network Storage Raft RaftLocal RaftEvents RaftDurable.
From S2P Require Import RaftNet RaftNetLemmas RaftFifo RaftAgreement.
From S2P Require Import Paxos Protocol Node NodeProps NodeCluster NodeFifo NodeRuns.
From S2P Require Import Service ServiceProps Client ClientProps.

(** ** The decision channel *)
Section channel.
Context {V PS RS B : Type} `{EqDecision V}.
Context `{PaxosStorage PS (Pending V), RaftStorage RS (Pending V)}.
Context (mp : bool).
Context (encode : Message (Pending V) → option B) (decode : B → option (Message (Pending V))).
Implicit Types (nd : NodeS V PS RS) (eff : list (Effect V B)).

Definition deliveries eff : list (Decided V) :=
  omap (λ x, match x with EffDeliver d => Some d | _ => None end) eff.

(** The channel of [nd1] is that of [nd] with the decisions delivered since. *)
Definition enqueues nd nd1 eff : Prop :=
  queued (decision_ch nd1) = queued (decision_ch nd) ++ deliveries eff.

Lemma enqueues_trans nd nd1 nd2 eff1 eff2 :
  enqueues nd nd1 eff1 → enqueues nd1 nd2 eff2 → enqueues nd nd2 (eff1 ++ eff2).
Proof.
  unfold enqueues, deliveries. intros H1 H2. rewrite H2, H1, omap_app. by rewrite app_assoc.
Qed.

Lemma process_each_enqueues ds nd nd1 eff : process_each ds nd = (nd1, eff) → enqueues nd nd1 eff.
Proof.
  revert nd eff. induction ds as [|d ds IH]; simpl; intros nd eff.
  { intros [= <- <-]. unfold enqueues. simpl. by rewrite app_nil_r. }
  destruct (process_decision d nd) as [nd2 eff2] eqn:H2.
  destruct (process_each ds nd2) as [nd3 eff3] eqn:H3. intros [= <- <-].
  eapply enqueues_trans; [|by apply IH]. clear -H2. unfold process_decision in H2.
  destruct (remove_for_decision _ _ _) as [m tok]. unfold try_send in H2.
  destruct (closed _); [|case_bool_decide]; injection H2 as <- <-; unfold enqueues, deliveries;
    simpl; rewrite omap_app; destruct tok; simpl; by rewrite ?app_nil_r.
Qed.

Lemma sends_deliver_nothing nd out : deliveries (send_outgoing encode nd out) = [].
Proof.
  unfold send_outgoing. induction out as [|o out IH]; [done|]. simpl. unfold deliveries in *.
  rewrite omap_app, IH, app_nil_r. unfold send_one. destruct (encode _); [|done].
  destruct (target o) as [n|]; [by case_bool_decide|].
  induction (senders nd) as [|n l IHl]; simpl; [done|]. apply IHl.
Qed.

Lemma after_protocol_enqueues r nd nd1 eff res :
  after_protocol encode r nd = Some (nd1, eff, res) → enqueues nd nd1 eff.
Proof.
  unfold after_protocol. destruct r as [[i out]|]; [|done]. simpl.
  destruct (impl_flush_persist i) as [[i1 [[]|er]]|]; [| |done]; simpl.
  2: { intros [= <- <- <-]. unfold enqueues. simpl. by rewrite app_nil_r. }
  unfold process_decisions. simpl. intros Hp.
  assert (∀ eff2, deliveries (EffFlush :: send_outgoing encode {| nd with protocol := i1 |} out ++ eff2) =
    deliveries eff2) as Hd.
  { intros eff2. unfold deliveries. simpl. rewrite omap_app.
    fold (deliveries (send_outgoing encode {| nd with protocol := i1 |} out)).
    by rewrite sends_deliver_nothing. }
  destruct (impl_drain_decisions i1) as [i2 [ds|er]].
  - destruct (process_each ds _) as [nd2 eff2] eqn:He. injection Hp as <- <- <-.
    apply process_each_enqueues in He. unfold enqueues in *. by rewrite Hd.
  - injection Hp as <- <- <-. unfold enqueues. rewrite Hd. simpl. by rewrite app_nil_r.
Qed.

Lemma publish_enqueues r nd nd1 eff res :
  (∀ nd0, r = Some (nd0, eff, res) → enqueues nd nd0 eff) →
  publish_if_ok r = Some (nd1, eff, res) → enqueues nd nd1 eff.
Proof.
  unfold publish_if_ok. destruct r as [[[nd0 eff0] res0]|]; [|done]. simpl.
  intros Hr [= <- <- <-]. specialize (Hr nd0 eq_refl). by destruct res0.
Qed.

Lemma repropose_enqueues e vs nd nd1 eff res :
  repropose mp encode e vs nd = Some (nd1, eff, res) → enqueues nd nd1 eff.
Proof.
  revert nd eff. induction vs as [|v vs IH]; simpl; intros nd eff.
  { intros [= <- <- <-]. unfold enqueues. simpl. by rewrite app_nil_r. }
  destruct (after_protocol _ _ _) as [[[nd2 eff2] [[]|er]]|] eqn:Ha; [| |done]; simpl;
    apply after_protocol_enqueues in Ha.
  - destruct (repropose _ _ _ _ _) as [[[nd3 eff3] res3]|] eqn:Hr; [|done]. simpl.
    intros [= <- <- <-]. eapply enqueues_trans; [exact Ha|by apply IH].
  - by intros [= <- <- <-].
Qed.

Lemma handle_incoming_enqueues e data nd nd1 eff res :
  handle_incoming_bytes mp encode decode e data nd = Some (nd1, eff, res) → enqueues nd nd1 eff.
Proof.
  unfold handle_incoming_bytes. destruct (decode data).
  2: { intros [= <- <- <-]. unfold enqueues. simpl. by rewrite app_nil_r. }
  destruct (after_protocol _ _ _) as [[[nd2 eff2] [[]|er]]|] eqn:Ha; [| |done]; simpl;
    apply after_protocol_enqueues in Ha.
  - destruct (impl_take_lost_proposals _) as [i lost].
    destruct (publish_if_ok _) as [[[nd3 eff3] res3]|] eqn:Hp; [|done]. simpl.
    intros [= <- <- <-]. eapply enqueues_trans; [exact Ha|]. eapply publish_enqueues; [|exact Hp].
    intros nd4 Hr. by apply repropose_enqueues in Hr.
  - by intros [= <- <- <-].
Qed.

Lemma handle_submission_enqueues e s nd nd1 eff res :
  handle_submission mp encode e s nd = Some (nd1, eff, res) → enqueues nd nd1 eff.
Proof.
  unfold handle_submission.
  destruct (pending_insert _ _ _) as [m eff0] eqn:Hi.
  destruct (publish_if_ok _) as [[[nd3 eff3] res3]|] eqn:Hp; [|done]. simpl. intros [= <- <- <-].
  eapply (enqueues_trans nd nd); [|eapply (publish_enqueues _ _ _ _ _ _ Hp)].
  - unfold pending_insert in Hi. unfold enqueues.
    destruct (pending nd !! _); injection Hi as <- <-; simpl; by rewrite app_nil_r.
  Unshelve. intros nd4 Hr. by apply after_protocol_enqueues in Hr.
Qed.

(** An iteration that goes on appends what it delivers to the channel. *)
Lemma loop_step_enqueues e inp nd alive nd1 alive1 eff :
  loop_step mp encode decode e inp nd alive = Some (Running nd1 alive1, eff) → enqueues nd nd1 eff.
Proof.
  assert (∀ r, (∀ nd0 eff0 res, r = Some (nd0, eff0, res) → enqueues nd nd0 eff0) →
    continue_with alive r = Some (Running nd1 alive1, eff) → enqueues nd nd1 eff) as Hgo.
  { unfold continue_with. intros [[[nd0 eff0] [[]|er]]|] Hr; [| |done]; simpl; [|done].
    intros [= <- <- <-]. by eapply Hr. }
  assert (enqueues nd nd []) as Hnil by (unfold enqueues; simpl; by rewrite app_nil_r).
  destruct inp as [s| |data| |]; simpl.
  - apply Hgo. intros. by eapply handle_submission_enqueues.
  - done.
  - destruct alive; [apply Hgo; intros; by eapply handle_incoming_enqueues|by intros [= <- <- <-]].
  - destruct alive; [|by intros [= <- <- <-]]. destruct (_ && _); [done|by intros [= <- <- <-]].
  - apply Hgo. intros nd0 eff0 res. unfold handle_retries. apply publish_enqueues.
    intros nd4 Hr. by apply after_protocol_enqueues in Hr.
Qed.
End channel.

(** ** A log holds what was inserted *)
Section inserted.
Context {P : Type}.
Implicit Types (l : Log P) (acts : list (LogAct P)).

Lemma log_act_entries a l l1 d :
  sorted_slots (entries l) → log_act a l = Some l1 → d ∈ entries l1 → d ∈ entries l ∨ a = ActInsert d.
Proof.
  intros Hs. destruct a as [x| |start| |]; simpl.
  - destruct (in_flight l); [done|]. destruct (append x (entries l)) as [es sent] eqn:Ha.
    intros [= <-]. cbn [entries]. destruct (append_spec _ _ _ _ Hs Ha) as [_ Hm].
    destruct sent; [|by destruct Hm as [-> _]; left]. destruct Hm as (_ & _ & Hm).
    intros [->|?]%Hm; auto.
  - destruct (in_flight l); [|done]. intros [= <-]. by left.
  - destruct (watcher l); [done|]. intros [= <-]. by left.
  - destruct (watcher l) as [w|]; [|done]. simpl. destruct (phase w); try done. intros [= <-]. by left.
  - destruct (watcher l) as [w|]; [|done]. simpl. destruct (watch_next _ _); [|done]. intros [= <-]. by left.
Qed.

Lemma log_run_entries acts l l1 d :
  sorted_slots (entries l) → log_run acts l = Some l1 → d ∈ entries l1 →
  d ∈ entries l ∨ ActInsert d ∈ acts.
Proof.
  revert l. induction acts as [|a acts IH]; intros l Hs; [intros [= <-]; auto|].
  intros (l2 & Ha & Hr)%log_run_cons Hd. pose proof (log_act_grows _ _ _ Hs Ha) as [Hs2 _].
  destruct (IH l2 Hs2 Hr Hd) as [H2|?]; [|by right; right].
  destruct (log_act_entries _ _ _ _ Hs Ha H2) as [?| ->]; [by left|by right; left].
Qed.
(** What the collector has inserted, in order. *)
Definition inserts acts : list (WireDecision P) :=
  omap (λ a, match a with ActInsert d => Some d | _ => None end) acts.

Lemma inserts_in acts d : ActInsert d ∈ acts → d ∈ inserts acts.
Proof. intros Hd. unfold inserts. apply list_elem_of_omap. by exists (ActInsert d). Qed.

Definition public_wire (d : Decided P) : WireDecision P := mkWire (dc_slot d) (dc_value d).

(** However a watch interleaves with the collector, the log holds what
    [collect_decisions] makes of the decisions received. *)
Lemma log_run_collected acts ds l l1 :
  log_run acts l = Some l1 → inserts acts = public_wire <$> ds →
  entries l1 = collect_decisions ds (entries l).
Proof.
  revert ds l. induction acts as [|a acts IH]; intros ds l.
  { intros [= <-]. by destruct ds. }
  intros (l2 & Ha & Hr)%log_run_cons Hi.
  destruct a as [x| |start| |]; simpl in Ha, Hi.
  - destruct ds as [|d ds]; [done|]. injection Hi as -> Hi. rewrite (IH _ _ Hr Hi). simpl.
    fold (public_wire d). destruct (in_flight l); [done|].
    destruct (append (public_wire d) (entries l)) as [es sent]. by injection Ha as <-.
  - rewrite (IH _ _ Hr Hi). destruct (in_flight l); [|done]. by injection Ha as <-.
  - rewrite (IH _ _ Hr Hi). destruct (watcher l); [done|]. by injection Ha as <-.
  - rewrite (IH _ _ Hr Hi). destruct (watcher l) as [w|]; [|done]. simpl in Ha.
    destruct (phase w); try done. by injection Ha as <-.
  - rewrite (IH _ _ Hr Hi). destruct (watcher l) as [w|]; [|done]. simpl in Ha.
    destruct (watch_next _ _); [|done]. by injection Ha as <-.
Qed.
End inserted.

(** ** The nodes with their collectors *)
Section collectors.
Context {V PS RS B : Type} `{EqDecision V}.
Context `{PaxosStorage PS (Pending V), RaftStorageSpec RS V}.
Context (mp : bool).
Context (encode : Message (Pending V) → option B) (decode : B → option (Message (Pending V))).
Context (cluster : gset NodeId) (cfg : RaftConfig).
Abbreviation Links := (gmap (NodeId * NodeId) nat).

(** The event loops with their links, and the decisions the collector of each
    process has received since the process was started. *)
Record Demo := mkDemo {
  loops : Loops V PS RS B;
  links_read : Links;
  collected : gmap NodeId (list (Decided V));
}.
Implicit Types (D : Demo) (C : Loops V PS RS B).

Definition collected_at (S : gmap NodeId (list (Decided V))) (n : NodeId) : list (Decided V) :=
  default [] (S !! n).

Inductive dstep : Demo → Demo → Prop :=
| ds_iteration C rd C1 rd1 S :
    iteration mp encode decode (C, rd) (C1, rd1) → dstep (mkDemo C rd S) (mkDemo C1 rd1 S)
(** The log of a service is in memory: a process starts with none. *)
| ds_lifecycle C rd C1 n S :
    lifecycle mp encode decode cluster cfg C n C1 →
    dstep (mkDemo C rd S) (mkDemo C1 rd (<[n := []]> S))
(** The collector receives a decision. *)
| ds_collect C rd C1 n d S :
    dequeues C n (Some d) C1 →
    dstep (mkDemo C rd S) (mkDemo C1 rd (<[n := collected_at S n ++ [d]]> S)).

Definition dreachable D : Prop := ∃ C0, cinitial cluster C0 ∧ rtc dstep (mkDemo C0 ∅ ∅) D.

Lemma dstep_ostep D D1 :
  dstep D D1 →
  ostep mp encode decode cluster cfg (loops D, links_read D) (loops D1, links_read D1).
Proof.
  intros [C rd C1 rd1 S Hi|C rd C1 n S Hl|C rd C1 n d S Hq]; simpl;
    [by apply os_iteration|by eapply os_lifecycle|by eapply os_dequeue].
Qed.

Lemma dsteps_osteps D D1 :
  rtc dstep D D1 → rtc (ostep mp encode decode cluster cfg)
    (loops D, links_read D) (loops D1, links_read D1).
Proof.
  induction 1 as [|D1 D2 D3 Hst _ IH]; [apply rtc_refl|].
  eapply rtc_l; [by apply dstep_ostep|exact IH].
Qed.

Lemma dreachable_ordered D :
  dreachable D → oreachable mp encode decode cluster cfg (loops D, links_read D).
Proof.
  intros (C0 & Hi & Hr). exists C0. split; [done|]. by apply dsteps_osteps in Hr.
Qed.

(** What is queued for a collector, and what it has received, was delivered. *)
Record genuine_channels D : Prop := {
  gc_collected n d : d ∈ collected_at (collected D) n → (n, EffDeliver d) ∈ trace (loops D);
  gc_queued n nd alive d : hosts (loops D) !! n = Some (NodeCluster.Live nd alive) →
    d ∈ queued (decision_ch nd) → (n, EffDeliver d) ∈ trace (loops D);
}.

Lemma collected_insert S n m ds :
  collected_at (<[n := ds]> S) m = if decide (n = m) then ds else collected_at S m.
Proof.
  unfold collected_at. destruct (decide (n = m)) as [<-|Hne].
  - by rewrite lookup_insert_eq.
  - by rewrite lookup_insert_ne.
Qed.

(** A host changes, the trace grows. *)
Lemma channels_move C rd rd1 S n h eff :
  genuine_channels (mkDemo C rd S) →
  (∀ nd alive d, h = NodeCluster.Live nd alive → d ∈ queued (decision_ch nd) →
     (n, EffDeliver d) ∈ trace C ++ map (pair n) eff) →
  genuine_channels (mkDemo {| hosts := <[n := h]> (hosts C); trace := trace C ++ map (pair n) eff |} rd1 S).
Proof.
  intros [Gc Gq] Hh. split; simpl.
  - intros m d Hd. apply elem_of_app. left. by apply Gc.
  - intros m nd alive d [[<- ->]|[_ Hm]]%lookup_insert_Some Hd; [by eapply Hh|].
    apply elem_of_app. left. by eapply Gq.
Qed.

Lemma deliveries_in (n : NodeId) (eff : list (Effect V B)) d :
  d ∈ deliveries eff → (n, EffDeliver d) ∈ map (pair n) eff.
Proof.
  unfold deliveries. intros (x & Hx & Hd)%list_elem_of_omap. destruct x; try done.
  injection Hd as <-. rewrite list_elem_of_In. apply in_map. by apply list_elem_of_In.
Qed.

Lemma iterates_channels C rd rd1 S n inp C1 :
  iterates mp encode decode C n inp C1 → genuine_channels (mkDemo C rd S) →
  genuine_channels (mkDemo C1 rd1 S).
Proof.
  intros [nd alive e nd1 alive1 eff Hn Hl|nd alive e nd1 r p eff Hn Hl Hp|nd alive e s eff Hn Hc] Hg;
    apply (channels_move C rd rd1 S n _ _ Hg); [|done..].
  intros nd2 b d [= <- <-]. rewrite (loop_step_enqueues _ _ _ _ _ _ _ _ _ _ Hl).
  intros [Hd|Hd]%elem_of_app; apply elem_of_app; [left|right; by apply deliveries_in].
  eapply (gc_queued _ Hg); [exact Hn|done].
Qed.

Lemma started_channel e n peers s nd nd1 alive (eff : list (Effect V B)) :
  raft_with_id_inner (PS := PS) e n cfg peers s = Some nd →
  run mp encode decode e [] nd = Some (Running nd1 alive, eff) → queued (decision_ch nd1) = [].
Proof.
  unfold raft_with_id_inner. destruct (new _ _ _ _ _) as [p0|]; [|done]. intros [= <-].
  unfold run. simpl. destruct (recover _ _) as [[p1 [[]|er]]|]; [|done..]. simpl.
  by intros [= <- <- <-].
Qed.

Lemma reset_channels C rd S n :
  genuine_channels (mkDemo C rd S) → genuine_channels (mkDemo C rd (<[n := []]> S)).
Proof.
  intros [Gc Gq]. split; simpl; [|done]. intros m d. rewrite collected_insert.
  destruct (decide _); [by intros ?%not_elem_of_nil|apply Gc].
Qed.

Lemma dstep_channels D D1 : dstep D D1 → genuine_channels D → genuine_channels D1.
Proof.
  intros [C rd C1 rd1 S Hi|C rd C1 n S Hl|C rd C1 n d S Hq] Hg.
  - inversion Hi; subst; by eapply iterates_channels.
  - apply reset_channels. destruct Hl as [nd alive p Hn Hp|s e peers nd nd1 alive eff Hn _ _ Hnew Hrun].
    + rewrite <- (app_nil_r (trace C)). by apply (channels_move C rd rd S n _ [] Hg).
    + apply (channels_move C rd rd S n _ _ Hg). intros nd2 b d [= <- <-].
      rewrite (started_channel _ _ _ _ _ _ _ _ Hnew Hrun). by intros ?%not_elem_of_nil.
  - inversion Hq as [nd alive d' q Hn Hqd|]; subst.
    assert (∀ x, x ∈ d :: q → (n, EffDeliver x) ∈ trace C) as Hall.
    { intros x. rewrite <- Hqd. apply (gc_queued _ Hg n nd alive x Hn). }
    destruct Hg as [Gc Gq]. split; simpl.
    + intros m x. rewrite collected_insert. destruct (decide (n = m)) as [<-|]; [|apply Gc].
      intros [?| ->%list_elem_of_singleton]%elem_of_app; [by apply Gc|apply Hall; by left].
    + intros m nd2 b x [[<- [= <- <-]]|[_ Hm]]%lookup_insert_Some; [|by apply (Gq m nd2 b)].
      simpl. intros Hx. apply Hall. by right.
Qed.

Lemma dreachable_channels D : dreachable D → genuine_channels D.
Proof.
  intros (C0 & (_ & Hh & _) & Hr).
  assert (genuine_channels (mkDemo C0 ∅ ∅)) as Hg0.
  { split; simpl.
    - intros n d. unfold collected_at. rewrite lookup_empty. by intros ?%not_elem_of_nil.
    - intros n nd alive d Hn. by destruct (Hh _ _ Hn) as (s & ? & _). }
  revert Hg0. induction Hr as [|D1 D2 D3 Hst _ IH]; [done|]. intros Hg. apply IH. by eapply dstep_channels.
Qed.

Lemma iterates_trace C n inp C1 :
  iterates mp encode decode C n inp C1 → trace C `prefix_of` trace C1.
Proof. intros []; by apply prefix_app_r. Qed.

Lemma dstep_trace D D1 : dstep D D1 → trace (loops D) `prefix_of` trace (loops D1).
Proof.
  intros [C rd C1 rd1 S Hi|C rd C1 n S Hl|C rd C1 n d S Hq]; simpl.
  - inversion Hi; subst; by eapply iterates_trace.
  - destruct Hl; simpl; [done|by apply prefix_app_r].
  - by destruct Hq.
Qed.

Lemma dsteps_trace D D1 : rtc dstep D D1 → trace (loops D) `prefix_of` trace (loops D1).
Proof. induction 1 as [|D1 D2 D3 Hst _ IH]; [done|]. etrans; [by apply dstep_trace|done]. Qed.

(** A watch that the service of some node has run, at some moment [D1] before
    [D], over the log its collector had filled. *)
Definition cluster_serves D (start : N) (items : list (WireDecision V)) : Prop :=
  ∃ D1 n acts cap l w,
    dreachable D1 ∧ rtc dstep D1 D ∧
    inserts acts `prefix_of` (public_wire <$> collected_at (collected D1) n) ∧
    log_run acts (DecisionLog_new cap) = Some l ∧ below_max (entries l) ∧
    watcher l = Some w ∧ from_index w = start ∧ items `prefix_of` yielded w.

(** A client's connections, each to the service of some node. *)
Fixpoint cluster_sessions D (ss : list Session) (c : WatchClient V) : Prop :=
  match ss with
  | [] => True
  | s :: ss =>
      match s with
      | NoStream _ => True
      | Stream items last => cluster_serves D (next_index c) items ∧ ends_stream last = true
      end ∧ cluster_sessions D ss (on_events (session_events s) c)
  end.
End collectors.
Arguments Demo : clear implicits.


(** ** The services of a cluster *)
Section demo.
Context {V PS RS B : Type} `{EqDecision V}.
Context `{PaxosStorage PS (Pending V), RaftStorageSpec RS V}.
Implicit Types (C : Loops V PS RS B) (tr : list (NodeId * Effect V B)).

Definition told_decision (x : NodeId * Effect V B) : option (Decided V) :=
  match x.2 with
  | EffDeliver d | EffComplete _ (Ok d) => Some d
  | _ => None
  end.

(** The first value any node has told for a slot. *)
Fixpoint first_told tr (s : N) : option V :=
  match tr with
  | [] => None
  | x :: tr =>
      match told_decision x with
      | Some d => if (dc_slot d =? s)%N then Some (dc_value d) else first_told tr s
      | None => first_told tr s
      end
  end.

(** What a client of the cluster has received after these connections. *)
Definition watched (start : N) (ss : list Session) : list (WireDecision V) :=
  received (on_events (concat (session_events <$> ss)) (watch_stream start)).

Lemma told_decision_by C n x d : (n, x) ∈ trace C → told_decision (n, x) = Some d → told_by C n d.
Proof.
  intros Hin. unfold told_decision. simpl. intros Hx. repeat case_match; simplify_eq; [right; eauto|by left].
Qed.

Lemma first_told_Some tr s v :
  first_told tr s = Some v →
  ∃ x d, x ∈ tr ∧ told_decision x = Some d ∧ dc_slot d = s ∧ dc_value d = v.
Proof.
  induction tr as [|x tr IH]; simpl; [done|].
  destruct (told_decision x) as [d|] eqn:Hx; [case_match eqn:Hs|].
  - intros [= <-]. apply N.eqb_eq in Hs. exists x, d. split_and!; try done. by left.
  - intros (y & d' & ? & ?)%IH. exists y, d'. split; [by right|done].
  - intros (y & d' & ? & ?)%IH. exists y, d'. split; [by right|done].
Qed.

Lemma first_told_is_Some tr x d :
  x ∈ tr → told_decision x = Some d → is_Some (first_told tr (dc_slot d)).
Proof.
  intros Hin Hx. induction tr as [|y tr IH]; [by apply not_elem_of_nil in Hin|]. simpl.
  apply elem_of_cons in Hin as [<-|Hin]; [rewrite Hx, N.eqb_refl; by eexists|].
  destruct (told_decision y) as [d'|]; [|auto]. destruct (dc_slot d' =? dc_slot d)%N; [by eexists|auto].
Qed.

Context (mp : bool).
Context (encode : Message (Pending V) → option B) (decode : B → option (Message (Pending V))).
Context (cluster : gset NodeId) (cfg : RaftConfig).
Context (serde : ∀ msg data, encode msg = Some data → decode data = Some msg).
Context (stored : ∀ v : V, norm v = v).
Context (D : Demo V PS RS B).
Context (Hreach : dreachable mp encode decode cluster cfg D).

Lemma told_is_first n d : told_by (loops D) n d → first_told (trace (loops D)) (dc_slot d) = Some (dc_value d).
Proof.
  intros Ht. assert (is_Some (first_told (trace (loops D)) (dc_slot d))) as [v Hv].
  { destruct Ht as [Hd|[t Hd]]; by eapply (first_told_is_Some _ _ d Hd). }
  rewrite Hv. destruct (first_told_Some _ _ _ Hv) as ([m x] & d' & Hin & Hx & Hs & <-).
  f_equal. exact (told_agree mp encode decode cluster cfg serde id stored (loops D, links_read D) m n d' d
    (dreachable_ordered _ _ _ _ _ _ Hreach)
    (told_decision_by _ _ _ _ Hin Hx) Ht Hs).
Qed.

Lemma cluster_serves_agreed start items :
  cluster_serves mp encode decode cluster cfg D start items →
  service_serves (first_told (trace (loops D))) start items.
Proof.
  intros (D1 & n & acts & cap & l & w & Hr1 & Hr2 & Hc & Hr & Hb & Hw & Hs & Hp). exists acts, cap, l, w.
  split_and!; try done. intros d Hd.
  assert (sorted_slots (entries (DecisionLog_new (P := V) cap))) as Hs0 by apply log_inv_new.
  destruct (log_run_entries _ _ _ _ Hs0 Hr Hd) as [Hd0|Hd0]; [by apply not_elem_of_nil in Hd0|].
  pose proof (elem_of_prefix _ _ _ (inserts_in _ _ Hd0) Hc) as (d1 & -> & Hd1)%list_elem_of_fmap.
  apply (gc_collected _ (dreachable_channels _ _ _ _ _ _ Hr1)) in Hd1.
  pose proof (elem_of_prefix _ _ _ Hd1 (dsteps_trace _ _ _ _ _ _ _ Hr2)).
  by apply (told_is_first n d1); left.
Qed.

Lemma cluster_sessions_served ss c :
  cluster_sessions mp encode decode cluster cfg D ss c → sessions_served (agreed := first_told (trace (loops D))) ss c.
Proof.
  revert c. induction ss as [|s ss IH]; intros c; [done|]. intros [Hs Hss]. split; [|by apply IH].
  destruct s as [|items last]; [done|]. destruct Hs as [Hs ?]. split; [|done].
  by apply cluster_serves_agreed.
Qed.

(** C7. Clients read one log: over a Raft cluster with ordered links and a
    storage that returns values as they were saved, processes that are killed
    anywhere and restarted with an empty service log, collectors that receive
    from their node's decision channel and insert into that log, and clients
    that connect to any node at any time and reconnect after any failure, a
    client has received, for consecutive slots from its start index, decisions that
    some node has told its users; two clients have received the same decision
    for a slot; and the reply to a successful proposal is the decision every
    client receives for that slot. *)
Theorem clients_read_one_log start ss start' ss' :
  cluster_sessions mp encode decode cluster cfg D ss (watch_stream start) →
  cluster_sessions mp encode decode cluster cfg D ss' (watch_stream start') →
  (∀ i d, watched start ss !! i = Some d →
     slot d = (start + N.of_nat i)%N ∧ ∃ n, told_by (loops D) n (mkDecided (slot d) (payload d))) ∧
  (∀ d d', d ∈ watched start ss → d' ∈ watched start' ss' → slot d = slot d' → d = d') ∧
  (∀ n t r d d', (n, EffComplete t r) ∈ trace (loops D) → propose_reply r = Ok d →
     d' ∈ watched start ss → slot d = slot d' → d = d').
Proof.
  intros Hss Hss'. apply cluster_sessions_served in Hss, Hss'.
  destruct (client_watch_run _ _ Hss) as [Hr _], (client_watch_run _ _ Hss') as [Hr' _].
  split_and!.
  - intros i d Hi. destruct (Hr i d Hi) as [Hd Ha]. split; [done|].
    destruct (first_told_Some _ _ _ Ha) as ([n x] & d' & Hin & Hx & Hs & Hv).
    exists n. rewrite <- Hs, <- Hv. destruct d'. by eapply told_decision_by.
  - intros [s v] [s' v'] (i & Hi)%list_elem_of_lookup (j & Hj)%list_elem_of_lookup ?.
    destruct (Hr i _ Hi) as [_ Ha], (Hr' j _ Hj) as [_ Ha']. simpl in *. simplify_eq. congruence.
  - intros n t r [s v] [s' v'] Hin Hp (j & Hj)%list_elem_of_lookup ?.
    destruct (Hr j _ Hj) as [_ Ha]. simpl in *. subst s'.
    destruct r as [[s1 v1]|[]]; try done. simpl in Hp. injection Hp as -> ->.
    assert (told_by (loops D) n (mkDecided s v)) as Ht by (right; by exists t).
    apply told_is_first in Ht. simpl in Ht. congruence.
Qed.
End demo.

(** ** A run of it *)
Module DemoRun.
Import Run ThreeLoops OrderedLoops.

Lemma memory_stores (v : N) : norm (St := RaftMemoryStorage N) v = v.
Proof. reflexivity. Qed.

Definition decided : WireDecision N := mkWire 0 77%N.

(** The service of a node after its collector has inserted the decision, with
    a watch opened before it. *)
Definition service_acts : list (LogAct N) :=
  [ActWatch 0; ActSnapshot; ActNext; ActInsert decided; ActBroadcast; ActNext].

(** The first client reads from [n1]; the second cannot connect, then reads
    from [n2]. *)
Definition first_client : list (Session (P := N)) := [Stream [decided] Eos].
Definition second_client : list (Session (P := N)) :=
  [NoStream (ERpc (mkStatus Unavailable "refused"));
   Stream [decided] (ItemFailed (mkStatus Unavailable "reset"))].

(** A step of a loop or of a collector. *)
Inductive DAct := DLoop (a : Act) | DCollect (n : NodeId).
Abbreviation Dm := (Demo N PS (RaftMemoryStorage N) Msg).

Definition dact (a : DAct) (D : Dm) : option Dm :=
  match a with
  | DLoop a =>
      y ← oact a (loops D, links_read D);
      Some (mkDemo y.1 y.2 (match a with
                            | AStart n | AKill n => <[n := []]> (collected D)
                            | _ => collected D
                            end))
  | DCollect n =>
      match hosts (loops D) !! n with
      | Some (NodeCluster.Live nd alive) =>
          match queued (decision_ch nd) with
          | d :: q =>
              Some (mkDemo {| hosts := <[n := NodeCluster.Live
                      {| nd with decision_ch := mkChannel q (closed (decision_ch nd)) |} alive]>
                      (hosts (loops D)); trace := trace (loops D) |}
                (links_read D) (<[n := collected_at (collected D) n ++ [d]]> (collected D)))
          | [] => None
          end
      | _ => None
      end
  end.

Fixpoint dacts (l : list DAct) (D : Dm) : option Dm :=
  match l with
  | [] => Some D
  | a :: l => D ← dact a D; dacts l D
  end.

Lemma dact_sound a D D1 : dact a D = Some D1 → dstep true enc dec cset cfg D D1.
Proof.
  destruct a as [a|n]; simpl.
  - destruct (oact a _) as [[C1 rd1]|] eqn:Ha; [|done]. intros [= <-]. apply oact_cases in Ha.
    destruct D as [C rd S], a as [n|now n inp|now k|n]; try by apply ds_iteration.
    + destruct Ha as [Ha E]. simpl in E |- *. subst. by apply ds_lifecycle.
    + destruct Ha as [Ha E]. simpl in E |- *. subst. by apply ds_lifecycle.
  - destruct (hosts (loops D) !! n) as [[nd alive|]|] eqn:Hn; [|done..].
    destruct (queued (decision_ch nd)) as [|d q] eqn:Hq; [done|]. intros [= <-].
    destruct D as [C rd S]. apply ds_collect. by eapply dq_take.
Qed.

Lemma dacts_sound l D D1 : dacts l D = Some D1 → rtc (dstep true enc dec cset cfg) D D1.
Proof.
  revert D. induction l as [|a l IH]; simpl; intros D; [intros [= ->]; apply rtc_refl|].
  destruct (dact a D) as [D2|] eqn:Ha; [|done]. simpl. intros Hl.
  eapply rtc_l; [by apply dact_sound in Ha|by apply IH].
Qed.

(** Both collectors receive the decision the two nodes have delivered. *)
Definition demo_acts : list DAct := map DLoop told ++ [DCollect n1; DCollect n2].
Definition demo_start : Dm := mkDemo start ∅ ∅.
Definition demo : Dm := default demo_start (dacts demo_acts demo_start).

Lemma demo_reachable : dreachable true enc dec cset cfg demo.
Proof.
  exists start. split; [apply start_cinitial|]. apply (dacts_sound demo_acts).
  assert (is_some (dacts demo_acts demo_start) = true) as Hs by (vm_compute; reflexivity).
  unfold demo. fold demo_start. by destruct (dacts demo_acts demo_start).
Qed.

Definition service_log : Log N := default (DecisionLog_new 16) (log_run service_acts (DecisionLog_new 16)).

Lemma service_serves_watch n :
  collected_at (collected demo) n = [mkDecided 0 77%N] →
  cluster_serves true enc dec cset cfg demo 0 [decided].
Proof.
  intros Hn. exists demo, n, service_acts, 16, service_log.
  eexists. split_and!; [apply demo_reachable|apply rtc_refl|rewrite Hn; by exists []
    |vm_compute; reflexivity|by repeat constructor|vm_compute; reflexivity|done|by exists []].
Qed.

Lemma clients_read_one_log_witness :
  watched 0 first_client = [decided] ∧ watched 0 second_client = [decided] ∧
  (∃ n, told_by (loops demo) n (mkDecided (slot decided) (payload decided))) ∧
  (n1, EffComplete 9%N (Ok (mkDecided 0 77%N))) ∈ trace (loops demo).
Proof.
  split; [vm_compute; reflexivity|]. split; [vm_compute; reflexivity|]. split.
  - apply (clients_read_one_log true enc dec cset cfg serde memory_stores demo
      demo_reachable 0 first_client 0 second_client) with (i := 0).
    + split; [|done]. split; [|done]. apply (service_serves_watch n1). vm_compute. reflexivity.
    + split; [done|]. split; [|done]. split; [|done]. apply (service_serves_watch n2). vm_compute. reflexivity.
    + vm_compute. reflexivity.
  - refine (list_elem_of_lookup_2 _ 14 _ _). vm_compute. reflexivity.
Defined.
End DemoRun.
