(* ===== verification/Demo.v ===== *)
(** * The demo binary: configuration

    Models the configuration of [daccord-demo/src/node.rs]: what is read from
    the environment, the list of peers, and which node is started with which
    storage. A panic is [None]. The parsers of socket addresses and paths are
    left to the callers: an address is its text. *)

From S2P Require Import Prelude Types Service.
#[local] Open Scope string_scope.

Inductive DemoAlgorithm := DemoPaxos | DemoRaft.

Definition Algorithm_as_str (a : DemoAlgorithm) : string :=
  match a with DemoPaxos => "paxos" | DemoRaft => "raft" end.

(** The environment variables. *)
Abbreviation Environment := (gmap string string).

Definition resolve_algorithm (env : Environment) : option DemoAlgorithm :=
  let raw := default "paxos" (env !! "ALGORITHM") in
  if String.eqb raw "raft" then Some DemoRaft
  else if String.eqb raw "paxos" || String.eqb raw "" then Some DemoPaxos
  else None.

(** [NODE_NAME], else the host name ([None] where it cannot be had or is not
    UTF-8). *)
Definition resolve_node_name (env : Environment) (hostname : option string) : option string :=
  match env !! "NODE_NAME" with Some nm => Some nm | None => hostname end.

(** ** Peers *)

(** [str::split] at a character: always at least one piece. *)
Fixpoint split (c : ascii) (s : string) : list string :=
  match s with
  | EmptyString => [""]
  | String a s =>
      if Ascii.eqb a c then "" :: split c s
      else match split c s with
           | [] => [String a ""]
           | p :: ps => String a p :: ps
           end
  end.

(** [str::split_once]. *)
Fixpoint split_once (c : ascii) (s : string) : option (string * string) :=
  match s with
  | EmptyString => None
  | String a s =>
      if Ascii.eqb a c then Some ("", s)
      else '(l, r) ← split_once c s; Some (String a l, r)
  end.

(** [parse_tcp_peers] and [parse_uds_peers], which differ in the type of the
    address only: a peer without an equals sign is a panic. *)
Definition parse_peer (entry : string) : option (NodeId * string) :=
  '(nm, addr) ← split_once "=" entry; Some (mkNodeId nm 0, addr).

Definition parse_tcp_peers (peers_str : string) : option (list (NodeId * string)) :=
  if String.eqb peers_str "" then Some [] else mapM parse_peer (split "," peers_str).

Definition parse_uds_peers (peers_str : string) : option (list (NodeId * string)) :=
  if String.eqb peers_str "" then Some [] else mapM parse_peer (split "," peers_str).

(** [peers.retain(|(id, _)| id.name() != node_name)]. *)
Definition retain_others (node_name : string) (peers : list (NodeId * string)) :=
  filter (λ p : NodeId * string, name p.1 ≠ node_name) peers.

(** ** [parse_config] *)
Inductive DemoTransport :=
| Tcp (bind_addr : string) (peers : list (NodeId * string))
| Uds (bind_path : string) (peers : list (NodeId * string)).

Record Config := mkConfig {
  node_name : string;
  transport : DemoTransport;
  grpc_port : N;
  demo_algorithm : DemoAlgorithm;
  data_dir : option string;
}.

Section parse.
(** [str::parse] for [u16] and for [SocketAddr]. *)
Context (parse_u16 : string → option N) (parse_addr : string → option string).

Definition parse_config (env : Environment) (hostname : option string) : option Config :=
  nm ← resolve_node_name env hostname;
  transport_str ← env !! "TRANSPORT";
  let peers_str := default "" (env !! "PEERS") in
  port_str ← env !! "GRPC_PORT";
  port ← parse_u16 port_str;
  tr ← (if String.eqb transport_str "tcp" then
          raw ← env !! "BIND_ADDR";
          bind_addr ← parse_addr raw;
          peers ← parse_tcp_peers peers_str;
          Some (Tcp bind_addr (retain_others nm peers))
        else if String.eqb transport_str "uds" then
          let bind_path := default ("/sockets/" ++ nm ++ ".sock") (env !! "BIND_PATH") in
          peers ← parse_uds_peers peers_str;
          Some (Uds bind_path (retain_others nm peers))
        else None);
  alg ← resolve_algorithm env;
  Some (mkConfig nm tr port alg (env !! "DATA_DIR")).
End parse.

(** ** [start_node_tcp] and [start_node_uds] *)
Inductive StorageChoice :=
| MemoryStorage
| DuckdbFile (path : string).

(** The match on [(algorithm, data_dir)]; [duckdb] is the cargo feature
    [duckdb-bundled], without which the arms that open a file do not exist. *)
Definition choose_storage (duckdb : bool) (alg : DemoAlgorithm) (dir : option string)
    : StorageChoice :=
  match duckdb, dir with
  | true, Some d =>
      DuckdbFile (d ++ match alg with DemoPaxos => "/paxos.db" | DemoRaft => "/raft.db" end)
  | _, _ => MemoryStorage
  end.

(** What is started. *)
Record StartedNode := mkStarted {
  sn_id : NodeId;
  sn_algorithm : DemoAlgorithm;
  sn_storage : StorageChoice;
  sn_peers : list (NodeId * string);
}.

Section start.
(** The cargo feature; [tokio::net::lookup_host], first answer; whether the
    listener can be bound and the storage opened. *)
Context (duckdb : bool) (lookup_host : string → option string) (can_bind can_open : bool).

Definition resolve_tcp_peers (peers : list (NodeId * string)) : option (list (NodeId * string)) :=
  mapM (λ p, addr ← lookup_host p.2; Some (p.1, addr)) peers.

(** The identity is [NodeId::new(node_name, 0)]: the same at every start. *)
Definition start_with (nm : string) (alg : DemoAlgorithm) (peers : list (NodeId * string))
    (dir : option string) : option StartedNode :=
  match choose_storage duckdb alg dir with
  | DuckdbFile f =>
      if can_open then Some (mkStarted (mkNodeId nm 0) alg (DuckdbFile f) peers) else None
  | MemoryStorage => Some (mkStarted (mkNodeId nm 0) alg MemoryStorage peers)
  end.

Definition start_node_tcp (nm : string) (alg : DemoAlgorithm) (peers : list (NodeId * string))
    (dir : option string) : option StartedNode :=
  peers ← resolve_tcp_peers peers;
  if can_bind then start_with nm alg peers dir else None.

Definition start_node_uds (nm : string) (alg : DemoAlgorithm) (peers : list (NodeId * string))
    (dir : option string) : option StartedNode :=
  if can_bind then start_with nm alg peers dir else None.

(** [main] up to the start of the node. *)
Definition start_node (c : Config) : option StartedNode :=
  match transport c with
  | Tcp _ peers => start_node_tcp (node_name c) (demo_algorithm c) peers (data_dir c)
  | Uds _ peers => start_node_uds (node_name c) (demo_algorithm c) peers (data_dir c)
  end.

(** [main]: the node, the log with its collector, and the service on the gRPC
    port. Serving until a signal arrives is left out. *)
Record DemoServer (P : Type) := mkDemoServer {
  ds_node : StartedNode;
  ds_decisions : Log P;
  ds_algorithm : DemoAlgorithm;
  ds_grpc_addr : string;
}.

Definition main {P} (c : Config) : option (DemoServer P) :=
  node ← start_node c;
  Some {| ds_node := node; ds_decisions := DecisionLog_new DECISION_BROADCAST_CAPACITY;
          ds_algorithm := demo_algorithm c;
          ds_grpc_addr := "0.0.0.0:" ++ pretty.pretty (grpc_port c) |}.
End start.
