(* ===== verification/DemoProps.v ===== *)
(** * The demo binary: what its configuration gives

    The list of peers round-trips; a node is never its own peer; without the
    DuckDB feature the data directory is ignored, and a node that restarts
    under the same identity over an empty storage votes twice in a term. *)

From S2P Require Import Prelude Types Storage Raft Service Demo.
#[local] Open Scope string_scope.

(** ** Splitting *)
Fixpoint has (c : ascii) (s : string) : bool :=
  match s with EmptyString => false | String a s => Ascii.eqb a c || has c s end.

Lemma split_once_spec c l r : has c l = false → split_once c (l ++ String c r) = Some (l, r).
Proof.
  induction l as [|a l IH]; simpl; intros Hh.
  - by rewrite Ascii.eqb_refl.
  - apply orb_false_iff in Hh as [Ha Hl]. rewrite Ha. by rewrite (IH Hl).
Qed.

Lemma split_none c s : has c s = false → split c s = [s].
Proof.
  induction s as [|a s IH]; simpl; intros Hh; [done|].
  apply orb_false_iff in Hh as [Ha Hs]. by rewrite Ha, (IH Hs).
Qed.

Lemma split_cons c s rest : has c s = false → split c (s ++ String c rest) = (s :: split c rest)%list.
Proof.
  induction s as [|a s IH]; simpl; intros Hh.
  - by rewrite Ascii.eqb_refl.
  - apply orb_false_iff in Hh as [Ha Hs]. by rewrite Ha, (IH Hs).
Qed.

Lemma has_app c s t : has c (s ++ t) = has c s || has c t.
Proof. induction s as [|a s IH]; simpl; [done|]. by rewrite IH, orb_assoc. Qed.

(** ** Peers *)
Definition render_peer (p : NodeId * string) : string := name p.1 ++ "=" ++ p.2.
Fixpoint render_peers (ps : list (NodeId * string)) : string :=
  match ps with
  | [] => ""
  | [p] => render_peer p
  | p :: ps => render_peer p ++ "," ++ render_peers ps
  end.

(** Names without separators, addresses without commas. *)
Definition peer_ok (p : NodeId * string) : Prop :=
  incarnation p.1 = 0%N ∧ has "=" (name p.1) = false ∧ has "," (name p.1) = false ∧
  has "," p.2 = false.

Lemma parse_render_peer p : peer_ok p → parse_peer (render_peer p) = Some p.
Proof.
  destruct p as [[nm inc] addr]. intros (Hi & He & _ & _). simpl in *. subst inc.
  unfold parse_peer, render_peer. cbn [name fst snd]. change ("=" ++ addr) with (String "=" addr).
  by rewrite split_once_spec.
Qed.

Lemma render_no_comma p : peer_ok p → has "," (render_peer p) = false.
Proof. intros (_ & _ & Hn & Ha). unfold render_peer. rewrite !has_app, Hn, Ha. done. Qed.

Lemma render_nonempty p ps : render_peers (p :: ps) ≠ "".
Proof.
  assert (∀ s, render_peer p ++ s ≠ "") as Hp by (intros s; unfold render_peer; by destruct (name p.1)).
  simpl. destruct ps; [|apply Hp]. specialize (Hp ""). intros E. by rewrite E in Hp.
Qed.

Lemma mapM_cons_Some {A B} (f : A → option B) x l y k :
  f x = Some y → mapM f l = Some k → mapM f (x :: l) = Some (y :: k).
Proof. intros Hx Hl. simpl. rewrite Hx. simpl. by rewrite Hl. Qed.

Lemma parse_split_render p ps :
  Forall peer_ok (p :: ps) → mapM parse_peer (split "," (render_peers (p :: ps))) = Some (p :: ps).
Proof.
  revert p. induction ps as [|q ps IH]; intros p [Hp Hps]%Forall_cons.
  - cbn [render_peers]. rewrite split_none by (by apply render_no_comma).
    simpl. by rewrite parse_render_peer.
  - cbn [render_peers]. change ("," ++ ?x) with (String "," x).
    rewrite split_cons by (by apply render_no_comma).
    etrans; [|apply (mapM_cons_Some _ _ _ _ _ (parse_render_peer p Hp) (IH q Hps))]. done.
Qed.

(** A list of peers round-trips: what is written as
    [name=address,name=address,...] is read back as those peers, with
    incarnation 0, in order, for names without separators and addresses
    without commas; the empty text is the empty list. *)
Theorem peers_round_trip ps :
  Forall peer_ok ps →
  parse_tcp_peers (render_peers ps) = Some ps ∧ parse_uds_peers (render_peers ps) = Some ps.
Proof.
  intros Hps. unfold parse_tcp_peers, parse_uds_peers. destruct ps as [|p ps]; [done|].
  rewrite (proj2 (String.eqb_neq _ _) (render_nonempty p ps)). by rewrite parse_split_render.
Qed.

Definition demo_peers : list (NodeId * string) :=
  [(mkNodeId "node-1" 0, "node-1:9000"); (mkNodeId "node-2" 0, "node-2:9000")].

Lemma peers_round_trip_witness :
  Forall peer_ok demo_peers ∧
  parse_tcp_peers "node-1=node-1:9000,node-2=node-2:9000" = Some demo_peers.
Proof.
  assert (Forall peer_ok demo_peers) as H by (repeat constructor). split; [exact H|].
  apply (peers_round_trip demo_peers H).
Defined.

(** A configured node is not among its peers, whatever the list says. *)
Lemma config_excludes_self parse_u16 parse_addr env hostname c :
  parse_config parse_u16 parse_addr env hostname = Some c →
  match transport c with Tcp _ ps | Uds _ ps => Forall (λ p, name p.1 ≠ node_name c) ps end.
Proof.
  unfold parse_config. intros Hc.
  apply bind_Some in Hc as (nm & _ & Hc). apply bind_Some in Hc as (tr & _ & Hc).
  apply bind_Some in Hc as (ps & _ & Hc). apply bind_Some in Hc as (port & _ & Hc).
  apply bind_Some in Hc as (t & Ht & Hc). apply bind_Some in Hc as (alg & _ & [= <-]). simpl.
  destruct (String.eqb tr "tcp"); [|destruct (String.eqb tr "uds"); [|done]].
  - apply bind_Some in Ht as (raw & _ & Ht). apply bind_Some in Ht as (ba & _ & Ht).
    apply bind_Some in Ht as (l & _ & [= <-]). apply Forall_forall. intros p Hp.
    by apply list_elem_of_filter in Hp as [? _].
  - apply bind_Some in Ht as (l & _ & [= <-]). apply Forall_forall. intros p Hp.
    by apply list_elem_of_filter in Hp as [? _].
Qed.

(** ** Restarting over memory *)
Definition demo_env : Env := mkEnv 5 3.

(** A node started over a storage: made, and its state loaded. *)
Definition start_raft (id : NodeId) (s : RaftMemoryStorage N)
    : option (RaftProtocol N (RaftMemoryStorage N)) :=
  p ← new demo_env id 3 RaftConfig_default s; '(p, _) ← recover demo_env p; Some p.

Definition vote_request (candidate : NodeId) : RaftMessage N := RequestVote 1 candidate None 0.

(** The answer of a node to a vote request. *)
Definition answer (p : RaftProtocol N (RaftMemoryStorage N)) (candidate : NodeId)
    : option (list (Outgoing (RaftMessage N))) :=
  '(_, out) ← handle_message demo_env candidate (vote_request candidate) p; Some out.

(** The data directory is ignored without the DuckDB feature, and then a
    restart forgets votes: a build without [duckdb-bundled] starts every node
    over in-memory storage whatever the configuration says, with the same
    identity at every start, and the Raft node it starts grants its vote of
    term 1 to whichever candidate asks first; so after a restart it votes
    again in a term it has voted in. *)
Theorem demo_restart_votes_twice lookup_host can_bind can_open c nd :
  start_node false lookup_host can_bind can_open c = Some nd →
  sn_storage nd = MemoryStorage ∧ sn_id nd = mkNodeId (node_name c) 0 ∧
  ∃ p, start_raft (sn_id nd) RaftMemoryStorage_new = Some p ∧
    ∀ candidate : NodeId,
      answer p candidate = Some [mkOut (Peer candidate) (RequestVoteResponse 1 true)].
Proof.
  intros Hs. assert (sn_storage nd = MemoryStorage ∧ sn_id nd = mkNodeId (node_name c) 0) as [Hm Hid].
  { unfold start_node, start_node_tcp, start_node_uds, start_with in Hs. simpl in Hs.
    destruct (transport c); [apply bind_Some in Hs as (ps & _ & Hs)|]; destruct can_bind; by simplify_eq. }
  split_and!; [done|done|]. eexists. split; [reflexivity|]. intros candidate.
  unfold answer, vote_request. reflexivity.
Qed.

Definition demo_config : Config :=
  mkConfig "node-1" (Uds "/sockets/node-1.sock" demo_peers) 50051 DemoRaft (Some "/data").

Lemma demo_restart_votes_twice_witness :
  ∃ nd, start_node false (λ s, Some s) true true demo_config = Some nd ∧
        data_dir demo_config = Some "/data" ∧ sn_storage nd = MemoryStorage.
Proof.
  eexists. split; [reflexivity|]. split; [reflexivity|].
  apply (demo_restart_votes_twice (λ s, Some s) true true demo_config _ eq_refl).
Defined.
