(* ===== verification/Cli.v ===== *)
(** * The command line client

    Models [daccord-demo/src/cli.rs]: one connection, one request, and what is
    printed of the answer. The arguments are already parsed (clap); what the
    server answers is an argument. Payloads are byte strings. *)

From S2P Require Import Prelude Types Storage Raft Paxos Protocol Node Service.

Module Cli.

Inductive Command :=
| CPropose (payload : string)
| CDecisions (from : N) (limit : option N)
| CWatch (from : N)
| CHealth
| CStatus.

Record CliArgs := mkCli { addr : string; command : Command }.

(** The requests of the service. *)
Inductive Request :=
| RqPropose (payload : string)
| RqGetDecisions (req : GetDecisionsRequest)
| RqWatch (start_index : N)
| RqHealth
| RqStatus.

(** How a stream of decisions goes on after what has been received: it is
    still open, has ended, or has failed. *)
Inductive StreamEnd := Open | Ended | Failed (st : Status).

(** What the server answers. *)
Record Answers := mkAnswers {
  an_connect : string → option string;       (* an error message, or connected *)
  an_propose : string → Result (WireDecision string) Status;
  an_get_decisions : GetDecisionsRequest → Result (list (WireDecision string) * N) Status;
  an_watch : N → Result (list (WireDecision string) * StreamEnd) Status;
  an_health : Result string Status;
  an_status : Result StatusResponse Status;
}.

(** The exit code is absent while the program runs. *)
Record Outcome := mkOutcome {
  connected_to : string;
  sent : list Request;
  stdout : list string;
  stderr : list string;
  exit_code : option N;
}.

Section main.
(** [Display] of a gRPC code, and [String::from_utf8_lossy]. *)
Context (show_code : Code → string) (lossy : string → string).

(** [{:<8}]. *)
Definition pad8 (s : string) : string :=
  String.append s (String.concat "" (replicate (8 - String.length s) " ")).

Definition error_line (prefix : string) (st : Status) : string :=
  String.append prefix (String.append ": " (String.append (status_message st)
    (String.append " (" (String.append (show_code (code st)) ")")))).

Definition line (label : string) (value : string) : string := String.append label value.

Definition decision_row (d : WireDecision string) : string :=
  String.append (pad8 (pretty (slot d))) (String.append " " (lossy (payload d))).

Definition decisions_lines (ds : list (WireDecision string)) (next_index : N) : list string :=
  match ds with
  | [] => ["no decisions in range"]
  | _ => String.append (pad8 "SLOT") " PAYLOAD" :: map decision_row ds
  end ++ [line "next_index: " (pretty next_index)].

Definition watch_line (d : WireDecision string) : string :=
  String.append "slot " (String.append (pretty (slot d)) (String.append ": " (lossy (payload d)))).

Definition or_none (o : option N) : string := match o with Some c => pretty c | None => "<none>" end.

Definition status_lines (s : StatusResponse) : list string :=
  [line "node_id:      " (sr_node_id s);
   line "algorithm:    " (sr_algorithm s);
   line "role:         " (sr_role s);
   line "term:         " (pretty (sr_term s));
   line "leader_id:    " (if String.eqb (sr_leader_id s) "" then "<none>" else sr_leader_id s);
   line "log_len:      " (pretty (sr_log_len s));
   line "commit_index: " (or_none (sr_commit_index s));
   line "last_applied: " (or_none (sr_last_applied s))].

Definition with_scheme (a : string) : string :=
  if String.prefix "http://" a || String.prefix "https://" a then a else String.append "http://" a.

Definition done (a : string) (rq : Request) (out : list string) : Outcome :=
  mkOutcome a [rq] out [] (Some 0%N).
Definition failed (a : string) (rq : Request) (out : list string) (prefix : string) (st : Status) : Outcome :=
  mkOutcome a [rq] out [error_line prefix st] (Some 1%N).

Definition answer {A} (a : string) (rq : Request) (r : Result A Status) (show : A → list string) : Outcome :=
  match r with Ok x => done a rq (show x) | Err st => failed a rq [] "error" st end.

Definition main (cli : CliArgs) (sv : Answers) : Outcome :=
  let a := with_scheme (addr cli) in
  match an_connect sv a with
  | Some e => mkOutcome a [] [] [String.append "failed to connect: " e] (Some 1%N)
  | None =>
      match command cli with
      | CPropose p => answer a (RqPropose p) (an_propose sv p)
          (λ d, [line "decided in slot " (pretty (slot d))])
      | CDecisions from limit =>
          let req := mkGetReq from limit in
          answer a (RqGetDecisions req) (an_get_decisions sv req) (λ '(ds, next), decisions_lines ds next)
      | CWatch from =>
          match an_watch sv from with
          | Err st => failed a (RqWatch from) [] "error" st
          | Ok (ds, e) =>
              let out := map watch_line ds in
              match e with
              | Open => mkOutcome a [RqWatch from] out [] None
              | Ended => done a (RqWatch from) out
              | Failed st => failed a (RqWatch from) out "stream error" st
              end
          end
      | CHealth => answer a RqHealth (an_health sv) (λ s, [s])
      | CStatus => answer a RqStatus (an_status sv) status_lines
      end
  end.

(** ** Behaviour *)

(** The outcome of a run: still watching, done without an error line, or
    failed with one. *)
Theorem exit_reports cli sv :
  let o := main cli sv in
  (exit_code o = None ∧ stderr o = [] ∧ ∃ from, command cli = CWatch from) ∨
  (exit_code o = Some 0%N ∧ stderr o = []) ∨
  (exit_code o = Some 1%N ∧ length (stderr o) = 1).
Proof.
  unfold main. destruct (an_connect sv _); [by right; right|].
  assert (∀ A rq (r : Result A Status) f, let o := answer (with_scheme (addr cli)) rq r f in
    (exit_code o = Some 0%N ∧ stderr o = []) ∨ (exit_code o = Some 1%N ∧ length (stderr o) = 1)) as Ha.
  { intros A rq [x|st] f; simpl; [by left|by right]. }
  destruct (command cli) as [p|from l|from| |]; try (right; apply Ha).
  destruct (an_watch sv from) as [[ds [| |st]]|st]; simpl; [left; eauto|by right; left|by right; right..].
Qed.

(** A page of a service that answers from its log: one row per decision of
    the page and the index to go on from. *)
Theorem decisions_page a from limit sv es :
  an_connect sv (with_scheme a) = None →
  (∀ req, an_get_decisions sv req = Ok (get_decisions req es)) →
  ∃ ds next, get_decisions (mkGetReq from limit) es = (ds, next) ∧
    main (mkCli a (CDecisions from limit)) sv =
      done (with_scheme a) (RqGetDecisions (mkGetReq from limit)) (decisions_lines ds next) ∧
    length (decisions_lines ds next) = length ds + 2.
Proof.
  intros Hc Hg. unfold main. simpl. rewrite Hc, Hg.
  destruct (get_decisions _ es) as [ds next]. exists ds, next. split_and!; [done..|].
  unfold decisions_lines. destruct ds; simpl; [done|]. rewrite length_app, length_map. simpl. lia.
Qed.
End main.
End Cli.
