(* ===== verification/UnitTests.v ===== *)
(** * The unit tests of storage, configuration, errors and the decision log

    The tests of [storage.rs], [config.rs], [error.rs] and [service.rs] under
    the names they have there (that of the JSON form of a [NodeId] is in
    [Wire]), and all translated tests together. *)

From stdpp Require Import strings.
From S2P Require Import Prelude Types Storage Testing Raft Paxos Protocol Node Service.
From S2P Require RaftTests PaxosTests NodeTests TransportTests.

Open Scope test_scope.

Module StorageTests.
Section store.
Context {S : Type}.

(** [.await.unwrap()]. *)
Definition unwrap {A} (m : StorageM S A) : Test S A :=
  λ s, match m s with (s, Ok x) => Some (s, x) | (_, Err _) => None end.
Definition unwrap_load {A} (f : S → Result A StorageError) : Test S A :=
  λ s, match f s with Ok x => Some (s, x) | Err _ => None end.
End store.

(** ** [PaxosMemoryStorage] *)
Definition paxos_new : option (PaxosMemoryStorage string) := Some PaxosMemoryStorage_new.

Definition empty_paxos_storage_returns_no_decisions : bool := passes paxos_new (
  let! ds := unwrap_load p_load_decisions in expect (λ _, length ds =? 0)).

Definition save_and_load_paxos_decisions : bool := passes paxos_new (
  unwrap (p_save_decision 0%N "hello");; unwrap (p_save_decision 2%N "world");;
  let! ds := unwrap_load p_load_decisions in
  expect (λ _, (length ds =? 2) && bool_decide ((0%N, "hello") ∈ ds) && bool_decide ((2%N, "world") ∈ ds))).

Definition paxos_save_overwrites_existing_slot : bool := passes paxos_new (
  unwrap (p_save_decision 0%N "first");; unwrap (p_save_decision 0%N "second");;
  let! ds := unwrap_load p_load_decisions in
  expect (λ _, (length ds =? 1) && bool_decide ((0%N, "second") ∈ ds))).

(** ** [RaftMemoryStorage] *)
Abbreviation RM := (RaftMemoryStorage string).
Definition raft_new : option RM := Some RaftMemoryStorage_new.

(** [sort_by_key] on the slot. *)
Definition slot_le (x y : N * string) : Prop := (x.1 ≤ y.1)%N.
#[local] Instance slot_le_dec x y : base.Decision (slot_le x y).
Proof. unfold slot_le. apply _. Defined.

Definition raft_storage_decision_roundtrip : bool := passes raft_new (
  unwrap (save_decision (St:=RM) 0 "a");; unwrap (save_decision (St:=RM) 1 "b");;
  let! ds := unwrap_load (load_decisions (St:=RM)) in
  expect (λ _, bool_decide (merge_sort slot_le ds = [(0%N, "a"); (1%N, "b")]))).

Definition raft_storage_term_roundtrip : bool := passes raft_new (
  let! t := unwrap_load (load_term (St:=RM)) in expect (λ _, (t =? 0)%N);;
  unwrap (save_term (St:=RM) 7);;
  let! t := unwrap_load (load_term (St:=RM)) in expect (λ _, (t =? 7)%N)).

Definition raft_storage_voted_for_roundtrip : bool := passes raft_new (
  let! v := unwrap_load (load_voted_for (St:=RM)) in expect (λ _, negb (is_some v));;
  unwrap (save_voted_for (St:=RM) (Some (mkNodeId "a" 1)));;
  let! v := unwrap_load (load_voted_for (St:=RM)) in
  expect (λ _, bool_decide (v = Some (mkNodeId "a" 1)));;
  unwrap (save_voted_for (St:=RM) None);;
  let! v := unwrap_load (load_voted_for (St:=RM)) in expect (λ _, negb (is_some v))).

Definition raft_storage_log_append_load_truncate : bool := passes raft_new (
  let! l := unwrap_load (load_log (St:=RM)) in expect (λ _, length l =? 0);;
  unwrap (append_log (St:=RM) [mkEntry 1 "a"; mkEntry 1 "b"]);;
  unwrap (append_log (St:=RM) [mkEntry 2 "c"]);;
  let! l := unwrap_load (load_log (St:=RM)) in
  expect (λ _, (length l =? 3) && bool_decide (term <$> l !! 2 = Some 2%N));;
  unwrap (truncate_log_from (St:=RM) 1);;
  let! l := unwrap_load (load_log (St:=RM)) in
  expect (λ _, (length l =? 1) && bool_decide (value <$> l !! 0 = Some "a"))).

Definition raft_storage_commit_index_roundtrip : bool := passes raft_new (
  let! c := unwrap_load (load_commit_index (St:=RM)) in expect (λ _, negb (is_some c));;
  unwrap (save_commit_index (St:=RM) (Some 7%N));;
  let! c := unwrap_load (load_commit_index (St:=RM)) in expect (λ _, bool_decide (c = Some 7%N));;
  unwrap (save_commit_index (St:=RM) None);;
  let! c := unwrap_load (load_commit_index (St:=RM)) in expect (λ _, negb (is_some c))).

Definition raft_storage_truncate_past_end_is_noop : bool := passes raft_new (
  unwrap (append_log (St:=RM) [mkEntry 1 "a"]);; unwrap (truncate_log_from (St:=RM) 100);;
  let! l := unwrap_load (load_log (St:=RM)) in expect (λ _, length l =? 1)).

Definition storage_unit_tests : list bool :=
  [empty_paxos_storage_returns_no_decisions; save_and_load_paxos_decisions;
   paxos_save_overwrites_existing_slot; raft_storage_decision_roundtrip; raft_storage_term_roundtrip;
   raft_storage_voted_for_roundtrip; raft_storage_log_append_load_truncate;
   raft_storage_commit_index_roundtrip; raft_storage_truncate_past_end_is_noop].
End StorageTests.

Module ConfigTests.
Definition node_id_from_string : bool :=
  let id := mkNodeId "node-1" 1000 in
  bool_decide (name id = "node-1") && (incarnation id =? 1000)%N.
Definition node_id_display : bool :=
  bool_decide (NodeId_display (mkNodeId "node-1" 1710412800) = "node-1/1710412800").
Definition node_id_ordering : bool :=
  let lt a b := match NodeId_compare a b with Lt => true | _ => false end in
  lt (mkNodeId "a" 100) (mkNodeId "b" 50) && lt (mkNodeId "a" 100) (mkNodeId "a" 200).
Definition node_id_clone_is_cheap : bool :=
  let id := mkNodeId "node-1" 1000 in let cloned := id in bool_decide (id = cloned).
Definition node_id_hash_consistent : bool :=
  let id1 := mkNodeId "node-1" 1000 in let id2 := mkNodeId "node-1" 1000 in
  bool_decide (id2 ∈ ({[ id1 ]} ∪ ∅ : gset NodeId)).
Definition paxos_config_defaults : bool :=
  (paxos_heartbeat_interval PaxosConfig_default =? from_millis 100)%N.
Definition raft_config_defaults : bool :=
  let cfg := RaftConfig_default in
  (heartbeat_interval cfg =? from_millis 50)%N && (election_timeout_min cfg =? from_millis 150)%N &&
  (election_timeout_max cfg =? from_millis 300)%N.

Definition config_unit_tests : list bool :=
  [node_id_from_string; node_id_display; node_id_clone_is_cheap; node_id_ordering;
   node_id_hash_consistent; paxos_config_defaults; raft_config_defaults].
End ConfigTests.

Module ServiceTests.
Definition decision (slot : N) (payload : string) : WireDecision string := mkWire slot payload.

(** [append] where the log has no subscriber. *)
Definition append_to (d : WireDecision string) : Test (list (WireDecision string)) unit :=
  modify (λ es, (append d es).1).

Definition range_uses_slot_cursor_and_stops_at_gaps : bool := passes (Some []) (
  append_to (decision 0 "a");; append_to (decision 2 "c");;
  expect (λ es, bool_decide (range 0 10 es = ([decision 0 "a"], 1%N)));;
  expect (λ es, bool_decide (range 1 10 es = ([], 1%N)));;
  append_to (decision 1 "b");;
  expect (λ es, bool_decide (range 1 10 es = ([decision 1 "b"; decision 2 "c"], 3%N)))).

(** The collector appends and broadcasts. *)
Definition append_live (d : WireDecision string) : Test (Log string) unit :=
  lift_opt (log_run [ActInsert d; ActBroadcast]).

(** [stream.next()] until nothing is left to take. *)
Fixpoint turns (k : nat) (l : Log string) : Log string :=
  match k with
  | O => l
  | S k => match log_act ActNext l with Some l => turns k l | None => l end
  end.
Definition yielded_are (ds : list (WireDecision string)) (l : Log string) : bool :=
  match watcher l with Some w => bool_decide (yielded w = ds) | None => false end.

Definition watch_buffers_out_of_order_decisions_until_gap_fills : bool := passes (Some (DecisionLog_new 16)) (
  append_live (decision 0 "a");; append_live (decision 2 "c");;
  lift_opt (log_run [ActWatch 0; ActSnapshot]);;
  modify (turns 16);; expect (yielded_are [decision 0 "a"]);;
  append_live (decision 1 "b");;
  modify (turns 16);; expect (yielded_are [decision 0 "a"; decision 1 "b"; decision 2 "c"])).

Definition service_unit_tests : list bool :=
  [range_uses_slot_cursor_and_stops_at_gaps; watch_buffers_out_of_order_decisions_until_gap_fills].
End ServiceTests.

Module ErrorTests.
Definition propose_error_display : bool :=
  bool_decide (ProposeError_display NotRunning = "node is not running") &&
  bool_decide (ProposeError_display ChannelFull = "proposal channel is full") &&
  bool_decide (ProposeError_display Cancelled = "node was shut down before the proposal was decided") &&
  bool_decide (ProposeError_display Superseded = "proposal was superseded by another leader").
Definition node_error_display : bool :=
  bool_decide (NodeError_display NoQuorum = "all peers disconnected, cannot form quorum").
Definition storage_error_display : bool :=
  bool_decide (StorageError_display (Persist "disk full") = "failed to persist decision: disk full") &&
  bool_decide (StorageError_display (Load "corrupt") = "failed to load decisions: corrupt").
Definition transport_error_display : bool :=
  bool_decide (TransportError_display "boom" Closed = "connection closed") &&
  bool_decide (TransportError_display "boom" TransportOther = "transport error: boom").
Definition node_error_from_storage_error : bool :=
  match NodeStorage (Load "corrupt") with NodeStorage _ => true | NoQuorum => false end.

Definition error_unit_tests : list bool :=
  [propose_error_display; node_error_display; storage_error_display; transport_error_display;
   node_error_from_storage_error].
End ErrorTests.

(** The model passes the unit tests of the repository that it translates: the
    80 of the Raft protocol, with every election timeout the default
    configuration can draw; the 25 of the Paxos protocol and those of the node,
    without and with the [multi-paxos] feature; those of storage, configuration,
    errors and the decision log; those of the transports, wherever their
    sockets are. *)
Theorem unit_tests_pass mp draws bound_addr temp_dir pid :
  forallb (λ j, forallb id (RaftTests.RaftTests.raft_unit_tests (RaftTests.RaftTests.test_env j)))
    (N.of_nat <$> seq 0 151) = true ∧
  forallb id (PaxosTests.PaxosTests.paxos_unit_tests mp PaxosTests.PaxosTests.test_env) = true ∧
  (forallb id (NodeTests.node_unit_tests mp) = true ∧ NodeTests.live_nonce_is_never_zero draws = true) ∧
  forallb id (StorageTests.storage_unit_tests ++ ConfigTests.config_unit_tests ++
    ErrorTests.error_unit_tests ++ ServiceTests.service_unit_tests) = true ∧
  forallb id (TransportTests.ChannelTests.channel_unit_tests ++
    TransportTests.SocketTests.socket_unit_tests bound_addr temp_dir pid) = true.
Proof.
  split_and!.
  - apply RaftTests.RaftTests.raft_unit_tests_pass.
  - pose proof PaxosTests.PaxosTests.paxos_unit_tests_pass as Hp. cbn [forallb] in Hp.
    rewrite !andb_true_iff in Hp. by destruct mp, Hp as (? & ? & _).
  - exact (proj1 (NodeTests.node_unit_tests_pass mp draws)).
  - exact (proj2 (NodeTests.node_unit_tests_pass mp draws)).
  - vm_compute. reflexivity.
  - apply TransportTests.transport_unit_tests_pass.
Qed.
